(* ===== verification/_CoqProject ===== *)
-Q . S2P
Prelude.v
Ordered.v
RBSpec.v
RBTree.v
RBProof.v
RBTheorems.v
RBProperties.v
SplayTree.v
SplayProof.v
SplayTheorems.v
SplayProperties.v
Queue.v
QueueSpec.v
QueueProof.v
XSimpleqProof.v
QueueProperties.v
Getopt.v
GetoptPermute.v
GetoptInvariant.v
GetoptProof.v
GetoptCalls.v
GetoptReference.v
GetoptProperties.v
CInt.v
PosixWin.v
PosixWinProperties.v
Poll.v
PollSpec.v
PollProperties.v
Lock.v
LockProof.v
LockProperties.v
Dirent.v
DirentSpec.v
DirentProof.v
DirentProperties.v
Stdio.v
StdioProperties.v
Endian.v
EndianProperties.v
Readpass.v
ReadpassProof.v
ReadpassRound.v
ReadpassProperties.v
UiWin.v
UiWinProof.v
UiWinProperties.v
Sockpair.v
SockpairProof.v
SockpairProperties.v
Fildes.v
FildesProperties.v
Pread.v
PreadProperties.v
Mkstemp.v
MkstempProperties.v
Times.v
TimesProperties.v
Doubles.v
ClockProperties.v
AppsWin.v
AppsWinProperties.v
AlarmLiveness.v
System.v
SystemProperties.v
RBT.v
RBTProperties.v
