(* ===== verification/Prelude.v ===== *)
(** * A verified model of the portability layer of LibreSSL

    LibreSSL portable is the layer that lets OpenBSD's LibreSSL build elsewhere:
    the libraries themselves are fetched at build time and are not in this
    repository; what is here, and what is modelled, is the code that stands in
    for functions other systems lack ([crypto/compat], [apps/*/compat],
    [tls/compat], [tests/compat]) and the headers with code in them
    ([include/compat]).  All file names below are relative to [src/].

    ** Conventions

    Every C function or macro is one definition with the name it has in C,
    executable on concrete inputs.  Code that reads and writes state is a
    computation in [ST S A], the state-and-failure monad of this file.  [None]
    is a step C gives no meaning to: NULL or an address outside the memory
    dereferenced, an index outside an array, an [int] that overflows where the
    code relies on it not to.  Theorems that show [Some _] therefore show memory
    safety as well.  Machine integers are [Z] with the conversions of [CInt]
    written out; a [double] is a [spec_float] of the Standard Library.  A loop
    that is not structural has [fuel]; running out of it is [None] too, so the
    same theorems show that it ends.  [wp] and its rules at the end of the
    monad's section are the program logic of the later components.

    Functions of the system (Win32, Winsock, Unix, the C runtime where the code
    only passes values on) are arguments of the definitions, records or classes
    of operations; what is used of their documentation is in classes of laws or
    hypotheses of the theorems, and each has a concrete instance among the
    witnesses.  State that only the laws speak of, such as which setting of
    flags was refused, is said to be a history where it is declared.

    ** Parts

    - Trees, [include/compat/sys/tree.h].  [Ordered] has comparison functions
      and the reference operations on sorted sequences.  [RBTree] has the macros
      [RB_*] (the memory of nodes with parent links, and the head); [RBSpec] has
      red-black trees as values seen through a zipper, [RBProof] the simulation
      between both, [RBTheorems] the correctness of single macros and
      [RBProperties] C1 to C5.  [SplayTree], [SplayProof], [SplayTheorems] and
      [SplayProperties] (C6, C7) do the same for [SPLAY_*].  [RBT] has the
      macros [RBT_*], whose algorithms are in the C library; [RBTProperties] has
      what they add: C8, and that histories of calls answer as the library
      promises of each.
    - Queues, [include/compat/sys/queue.h].  [Queue] has the five kinds of lists
      on a memory of pointer-sized cells addressed by bytes, with the casts the
      macros make.  [QueueSpec] is the interface: operations on sequences and
      the class of implementations; [QueueProof] and [XSimpleqProof] (pointers
      stored as an exclusive or) discharge it, [QueueProperties] has C9, C10 and
      the loops.
    - Options, [crypto/compat/getopt_long.c].  [Getopt] has all of it, with the
      static variables as state; [GetoptPermute] the exchange of blocks of
      arguments, [GetoptInvariant] what holds between calls, [GetoptProof] and
      [GetoptCalls] that every call keeps it, [GetoptReference] the parser as
      one pass over the arguments; [GetoptProperties] is C11 to C15.
    - Passphrases, [apps/nc/compat/readpassphrase.c].  [Readpass] has the whole
      function with its handlers of signals, over a terminal and a world that
      may send signals in any turn; [ReadpassProof] the lemmas of its parts,
      [ReadpassRound] of a round of it; [ReadpassProperties] is C16 to C18.
    - The console of Windows, [crypto/compat/ui_openssl_win.c].  [UiWin] has the
      functions of the method and their session, [UiWinProof] their lemmas,
      [UiWinProperties] C28 and C29.
    - Files and sockets on Windows.  [crypto/compat/posix_win.c] with the flags
      of [include/compat/fcntl.h] is [PosixWin] and [PosixWinProperties] (C30,
      C31); its error codes and the state [sys] with [errno] are used by the
      parts that follow. [apps/openssl/compat/poll_win.c] and
      [include/compat/poll.h] are [Poll]; [PollSpec] says, by the answers of the
      system, what may be returned, and that nothing else is; [PollProperties]
      has the laws of the calls, with the time they take (C35, C36).
      [tests/compat/socketpair.c] and [pipe2.c] are [Sockpair], [SockpairProof]
      (Winsock as a class, and its laws) and [SockpairProperties] (C26).
      [tls/compat/pread.c] and [pwrite.c] are [Pread] and [PreadProperties]
      (C32, C33); [tests/compat/mkstemp.c] is [Mkstemp] and [MkstempProperties]
      (C34).
    - Descriptors on Unix, [apps/nc/compat/accept4.c], [socket.c] and the other
      half of [pipe2.c] and [socketpair.c].  [Fildes] and [FildesProperties]
      (C27).
    - Threads on Windows.  [Lock] is [include/compat/pthread.h] and
      [crypto/compat/crypto_lock_win.c] as a step relation over threads, one
      access to shared memory at a time; critical sections are a class.
      [LockProof] has the invariant, by rule induction; [LockProperties] is C19
      to C21.  [AppsWin] is [apps/openssl/apps_win.c]: the alarm of [openssl
      speed], a thread that sleeps, as a step relation with time, called as
      [patches/speed.c.patch] calls it; [AppsWinProperties] is C22, and
      [AlarmLiveness] C23, for infinite runs with a fair scheduler.
    - Directories, [include/compat/dirent_msvc.h].  [Dirent] has the operations
      on a heap of streams and buffers with an allocator that may fail;
      [DirentSpec] the laws of the search functions of Win32, what a stream
      represents and what [opendir] and [readdir] return; [DirentProof] one
      lemma per operation; [DirentProperties] is C24 and C25.
    - Lines and formatted strings, [crypto/compat/getdelim.c], [getline.c],
      [bsd-asprintf.c], [freezero.c], [explicit_bzero_win.c].  [Stdio] and
      [StdioProperties]: C37, [vasprintf_whole_or_nothing] and
      [freezero_clears].
    - Byte orders, [include/compat/endian.h].  [Endian] has the class of the
      conversions, with its laws, and an instance for each system;
      [EndianProperties] proves the laws of each and, for their clients, C38.
    - Times, [include/compat/sys/time.h], [time.h],
      [apps/openssl/compat/clock_gettime_osx.c].  [Times] and [TimesProperties]
      (C39).  [Doubles] relates the operations of [SpecFloat] to rational
      numbers; [ClockProperties] uses it for C40.
    - Small functions: [crypto/compat/b_win.c], [syslog_r.c], the three variants
      of [getprogname], [getpagesize.c], [apps/openssl/certhash_win.c], the
      inline functions of [err.h], [stdio.h], [string.h], [unistd.h] and the
      macros of [sys/stat.h], and [crypto/arch/aarch64].  [System] and
      [SystemProperties], which uses [vasprintf_whole_or_nothing] for the log.

    ** What the theorems show

    Refinement: whole histories of calls answer as an abstract sequence does
    (C3, C7, C9, C10), a directory stream is the list of its entries (C25).
    Equivalence: the option parser and its reference (C14, C15).  Function: each
    macro or function on all its branches (C1, C2, C4, C6, C12, C16, C27, C28,
    C32, C35, C37).  What is borrowed is given back, on every path: the terminal
    and the signal handlers (C17, C18), the mode of the console (C29), sockets
    (C26), memory and handles (C24).  Safety and invariants, some under
    interleaving: C5, C8, C11, C19, C20, C22.  Ends: C13, C21, C34, C36, C23,
    and the others with the bounds of their fuel.  Errors: C30.  Bounds: C31,
    C40.  Well-formed values: C39.  Round trips: C33, C38.  Theorems without a
    number are steps towards these or say the same of a smaller part.

    ** Fuel and bounds

    The loops of the red-black macros end within [rounds n] for [n] elements,
    which is logarithmic in [n]; those of the splay macros within the height of
    the tree, which is at most the number of calls made on it; those of the
    queues within the number of elements; the outer loop of the option parser
    within the number of arguments, and its inner loops by the strings.  The
    waiting loop of [poll] ends within [timeout / 100 + 1] rounds; without a
    timeout it may wait for ever and the theorem is for what it returns.  A call
    on a mutex has at most eight statements.  [getdelim] and [read_till_nl] read
    one character a round, [copy_name] has the size of the array.
    [readpassphrase] restarts at most once for every turn in which a signal
    comes, reads at most the keys there are and waits for the terminal at most
    once a turn.  The recursion that opens descriptors in [socketpair] is at
    most as deep as the larger handle and two.  [mkstemp] tries at most 27
    times, since there are 26 names.

    ** Not modelled

    - [crypto/compat/arc4random.h]: includes the header of the system, which is
      fetched at build time.
    - [crypto/arch/mips], [crypto/arch/loongarch64], [crypto/bn/arch]: names
      that select code fetched at build time.
    - The headers that only declare, or rename functions.
    - [tests] other than [tests/compat], build files, scripts and patches.

    What [getopt_long] prints is in the state as a list of messages, without its
    formatting.  The formatting of [vasprintf], locale conversions of file names
    and the contents of socket sets are arguments.  Threads see a sequentially
    consistent memory, which the interlocked exchange gives the slots and
    [volatile], with Microsoft's compiler, the flag of the alarm. *)
From Stdlib Require Import ZArith Lia Permutation.
From stdpp Require Import prelude gmap.

Declare Scope c_scope.
Delimit Scope c_scope with c.

(** ** State-and-failure monad *)

(** [ST S A]: a computation on a state of type [S].  [None] is a step the C
    standard gives no meaning to (a NULL or dangling pointer dereferenced, an
    array indexed outside its bounds) or an exhausted loop bound; a theorem
    that shows [Some _] therefore shows that neither happens. *)
Definition ST (S A : Type) : Type := S → option (A * S).

#[global] Instance ST_ret S : MRet (ST S) := λ A a s, Some (a, s).
#[global] Instance ST_bind S : MBind (ST S) := λ A B f m s,
  match m s with
  | Some (a, s') => f a s'
  | None => None
  end.

Definition fail {S A} : ST S A := λ _, None.
Definition gets {S A} (f : S → A) : ST S A := λ s, Some (f s, s).
Definition of_option {S A} (o : option A) : ST S A := λ s,
  match o with Some a => Some (a, s) | None => None end.
Definition modify {S} (f : S → S) : ST S unit := λ s, Some (tt, f s).

(** A C pointer to an object of one kind: NULL is [None]. *)
Abbreviation ptr := (option positive).

(** The truth value C gives a pointer used as a condition. *)
Definition nonnull (p : ptr) : bool :=
  match p with Some _ => true | None => false end.

(** Every bind in a goal [(m ≫= f) s = r] is run by rewriting with the result
    of its first computation. *)
Lemma bind_run {S A B} (m : ST S A) (f : A → ST S B) s a s' :
  m s = Some (a, s') → (m ≫= f) s = f a s'.
Proof. unfold mbind, ST_bind. by intros ->. Qed.

Lemma ret_run {S A} (a : A) (s : S) : (mret a : ST S A) s = Some (a, s).
Proof. done. Qed.

Lemma bind_assoc {S A B C} (m : ST S A) (f : A → ST S B) (g : B → ST S C) s :
  ((m ≫= f) ≫= g) s = (m ≫= (λ x, f x ≫= g)) s.
Proof. unfold mbind, ST_bind. by destruct (m s) as [[? ?]|]. Qed.

Lemma bind_ret {S A} (m : ST S A) s : m s = (m ≫= mret) s.
Proof. unfold mbind, ST_bind. by destruct (m s) as [[? ?]|]. Qed.

(** Left to right: run [m] by the lemma [H]. *)
Ltac run H := erewrite bind_run; [ | solve [eapply H; eauto] ].

(** ** Weakest preconditions *)

(** [m] runs from [s], and [Q] holds of its result. *)
Definition wp {S A} (m : ST S A) (Q : A → S → Prop) (s : S) : Prop :=
  match m s with Some (a, s') => Q a s' | None => False end.

Section wp.
Context {S : Type}.

Lemma wp_bind {A B} (m : ST S A) (f : A → ST S B) Q s :
  wp m (λ a, wp (f a) Q) s → wp (m ≫= f) Q s.
Proof. unfold wp, mbind, ST_bind. by destruct (m s) as [[a s']|]. Qed.

(** The first two of three computations together. *)
Lemma wp_join {A B C} (m : ST S A) (f : A → ST S B) (g : B → ST S C) Q s :
  wp (m ≫= f) (λ b, wp (g b) Q) s → wp m (λ a, wp (f a ≫= g) Q) s.
Proof.
  unfold wp, mbind, ST_bind. destruct (m s) as [[a s1]|]; [|done].
  by destruct (f a s1) as [[b s2]|].
Qed.

Lemma wp_mono {A} (m : ST S A) (Q Q' : A → S → Prop) s :
  wp m Q s → (∀ a s', Q a s' → Q' a s') → wp m Q' s.
Proof. unfold wp. destruct (m s) as [[a s']|]; eauto. Qed.

Lemma wp_ret {A} (a : A) (Q : A → S → Prop) s : Q a s → wp (mret a) Q s.
Proof. done. Qed.

Lemma wp_run {A} (m : ST S A) (Q : A → S → Prop) s a s' :
  m s = Some (a, s') → Q a s' → wp m Q s.
Proof. unfold wp. by intros ->. Qed.

Lemma wp_elim {A} (m : ST S A) (Q : A → S → Prop) s :
  wp m Q s → ∃ a s', m s = Some (a, s') ∧ Q a s'.
Proof. unfold wp. destruct (m s) as [[a s']|]; [eauto|done]. Qed.

Lemma wp_gets {A} (f : S → A) (Q : A → S → Prop) s : Q (f s) s → wp (gets f) Q s.
Proof. done. Qed.

Lemma wp_of_option {A} (a : A) (Q : A → S → Prop) s : Q a s → wp (of_option (Some a)) Q s.
Proof. done. Qed.

Lemma wp_modify (f : S → S) (Q : unit → S → Prop) s : Q tt (f s) → wp (modify f) Q s.
Proof. done. Qed.
End wp.

(** One step of straight-line code. *)
Ltac wp_step :=
  cbn beta;
  lazymatch goal with
  | |- wp (mbind _ _) _ _ => apply wp_bind
  | |- wp (gets _) _ _ => apply wp_gets
  | |- wp (mret _) _ _ => apply wp_ret
  | |- wp (modify _) _ _ => apply wp_modify
  | |- wp (of_option (Some _)) _ _ => apply wp_of_option
  end; cbn beta iota.

(** ** Lists up to order, and lists without repetition *)

(** Occurrences of [z] in [l].  Concatenation and cons are sums, so that [lia]
    decides permutations of, and disjointness inside, lists built with them. *)
Definition occ {A} `{EqDecision A} (z : A) (l : list A) : nat :=
  count_occ (λ x y, decide (x = y)) l z.

Arguments occ : simpl never.

Create Rewrite HintDb occ.

Section occurrences.
Context {A : Type} `{EqDecision A}.
Implicit Types (x z : A) (l k : list A).

Lemma occ_nil z : occ z [] = 0.
Proof. done. Qed.

Lemma occ_app z l k : occ z (l ++ k) = occ z l + occ z k.
Proof. apply count_occ_app. Qed.

Lemma occ_self z : occ z [z] = 1.
Proof. unfold occ; simpl. by rewrite decide_True. Qed.

Lemma occ_cons z x l : occ z (x :: l) = occ z [x] + occ z l.
Proof. apply (occ_app z [x] l). Qed.

Lemma occ_rev z l : occ z (reverse l) = occ z l.
Proof.
  induction l as [|x l IH]; [done|].
  rewrite reverse_cons, occ_app, IH.
  rewrite (occ_cons z x l). lia.
Qed.

Lemma occ_pos z l : z ∈ l ↔ 0 < occ z l.
Proof. rewrite list_elem_of_In. apply count_occ_In. Qed.

Lemma Permutation_occ l k : l ≡ₚ k ↔ ∀ z, occ z l = occ z k.
Proof. apply Permutation_count_occ. Qed.

Lemma NoDup_occ l : NoDup l ↔ ∀ z, occ z l ≤ 1.
Proof. rewrite NoDup_ListNoDup. apply NoDup_count_occ. Qed.
End occurrences.

#[export] Hint Rewrite @occ_nil @occ_app @occ_self @occ_rev : occ.

(** [occs] decides membership, disjointness and repetition goals about lists
    from the membership and repetition facts at hand, by counting. *)
Ltac occ_norm :=
  repeat match goal with
  | H : NoDup _ |- _ => rewrite NoDup_occ in H
  | H : _ ∈ _ |- _ => rewrite occ_pos in H
  | H : ¬ (_ ∈ _) |- _ => rewrite occ_pos in H
  end.

(** A cons cell counts as one element before its tail. *)
Ltac occ_split :=
  repeat (autorewrite with occ in *;
    match goal with
    | |- context [occ ?z (?x :: ?l)] =>
        lazymatch l with [] => fail | _ => rewrite (occ_cons z x l) end
    | H : context [occ ?z (?x :: ?l)] |- _ =>
        lazymatch l with [] => fail | _ => rewrite (occ_cons z x l) in H end
    end);
  autorewrite with occ in *.

Ltac occ_at z :=
  repeat match goal with
  | H : ∀ w, occ w _ ≤ 1 |- _ =>
      let H' := fresh "O" in pose proof (H z) as H'; clear H; revert H'
  end; intros; occ_split.

Ltac occs :=
  occ_norm;
  lazymatch goal with
  | |- NoDup _ => rewrite NoDup_occ; let z := fresh "z" in intros z; occ_at z; lia
  | |- _ ≡ₚ _ =>
      rewrite Permutation_occ; let z := fresh "z" in intros z; occ_split; lia
  | |- ¬ (?z ∈ _) => rewrite occ_pos; occ_at z; lia
  | |- ?z ∈ _ => rewrite occ_pos; occ_at z; lia
  | |- ¬ (?x = ?y) =>
      let E := fresh "E" in intros E; first [subst x | subst y | rewrite E in *];
      first [occ_at y | occ_at x]; lia
  | |- False =>
      match goal with H : 0 < occ ?z _ |- _ => solve [occ_at z; lia] end
  end.

(** A filter that keeps everything. *)
Lemma filter_all {A} (P : A → Prop) `{!∀ x, Decision (P x)} l : Forall P l → filter P l = l.
Proof. induction 1; [done|]. rewrite filter_cons_True by done. by f_equal. Qed.

(** ** Induction principles *)

(** Two elements at a time. *)
Lemma list_two_ind {A} (P : list A → Prop) :
  P [] → (∀ x, P [x]) → (∀ x y l, P l → P (x :: y :: l)) → ∀ l, P l.
Proof.
  intros H0 H1 H2. fix IH 1. intros [|x [|y l]]; [done | apply H1 | apply H2, IH].
Qed.
