(* ===== verification/Ordered.v ===== *)
(** Sequences ordered by a C comparison function.

    The tree macros take a comparison function [cmp] that returns a negative,
    zero or positive [int].  [Comparison] is what they need of it; [linsert],
    [lfind] and [lnfind] are the reference operations on the in-order sequence
    that the trees are shown to implement. *)
From Stdlib Require Import ZArith Lia Sorting.Sorted.
From stdpp Require Import prelude.
From S2P Require Import Prelude.

Local Open Scope Z_scope.

(** A comparison function orders the elements up to equality of keys: swapping
    the arguments swaps the sign, and "not greater" is transitive. *)
Class Comparison (cmp : positive → positive → Z) : Prop := {
  cmp_opp x y : Z.sgn (cmp y x) = - Z.sgn (cmp x y);
  cmp_trans x y z : cmp x y ≤ 0 → cmp y z ≤ 0 → cmp x z ≤ 0
}.

Section ordered.
Context (cmp : positive → positive → Z) `{!Comparison cmp}.
Implicit Types (e x y z : positive) (l : list positive).

Lemma cmp_refl x : cmp x x = 0.
Proof. pose proof (cmp_opp x x). lia. Qed.

Lemma cmp_lt_gt x y : cmp x y < 0 ↔ 0 < cmp y x.
Proof. pose proof (cmp_opp x y). lia. Qed.

Lemma cmp_le_lt x y z : cmp x y ≤ 0 → cmp y z < 0 → cmp x z < 0.
Proof.
  intros Hxy Hyz. destruct (Z.lt_ge_cases (cmp x z) 0) as [|Hge]; [done|].
  pose proof (cmp_opp x z). pose proof (cmp_opp y z).
  pose proof (cmp_trans z x y). lia.
Qed.

Lemma cmp_lt_le x y z : cmp x y < 0 → cmp y z ≤ 0 → cmp x z < 0.
Proof.
  intros Hxy Hyz. destruct (Z.lt_ge_cases (cmp x z) 0) as [|Hge]; [done|].
  pose proof (cmp_opp x z). pose proof (cmp_opp x y).
  pose proof (cmp_trans y z x). lia.
Qed.

(** Equal keys compare alike. *)
Lemma cmp_eq_l x y z : cmp x y = 0 → Z.sgn (cmp x z) = Z.sgn (cmp y z).
Proof.
  intros E. pose proof (cmp_opp x y).
  pose proof (cmp_le_lt x y z). pose proof (cmp_le_lt y x z).
  pose proof (cmp_trans x y z). pose proof (cmp_trans y x z). lia.
Qed.

Definition sorted : list positive → Prop := StronglySorted (λ x y, cmp x y < 0).

(** Where the elements of [l] are relative to the key of [e]. *)
Definition below e l : Prop := Forall (λ y, 0 < cmp e y) l.
Definition above e l : Prop := Forall (λ y, cmp e y < 0) l.

(** ** Reference operations *)

(** Insert [e] at its place unless its key is there. *)
Fixpoint linsert e l : list positive :=
  match l with
  | [] => [e]
  | y :: l' =>
      if cmp e y <? 0 then e :: l
      else if 0 <? cmp e y then y :: linsert e l' else l
  end.

(** The element with the key of [e]. *)
Definition lfind e l : ptr := List.find (λ y, cmp e y =? 0) l.

(** The first element whose key is not below that of [e]. *)
Definition lnfind e l : ptr := List.find (λ y, cmp e y <=? 0) l.

(** ** Sorted sequences *)

Lemma sorted_app l k :
  sorted (l ++ k) ↔ sorted l ∧ sorted k ∧
    (∀ x y, x ∈ l → y ∈ k → cmp x y < 0).
Proof.
  unfold sorted. induction l as [|a l IH]; simpl.
  - split; [|naive_solver]. intros ?; split_and!; [constructor|done|].
    intros x y Hx. by apply elem_of_nil in Hx.
  - split.
    + intros H. apply StronglySorted_inv in H as [Hs Ha].
      apply IH in Hs as (Hl & Hk & Hlk). rewrite Forall_app in Ha.
      destruct Ha as [Ha1 Ha2]. split_and!; [by constructor|done|].
      intros x y [->|Hx]%elem_of_cons Hy; [|by apply Hlk].
      rewrite Forall_forall in Ha2. by apply Ha2.
    + intros (Hl & Hk & Hlk). apply StronglySorted_inv in Hl as [Hl Ha].
      constructor.
      * apply IH. split_and!; [done..|]. intros; apply Hlk; set_solver.
      * rewrite Forall_app; split; [done|].
        rewrite Forall_forall. intros; apply Hlk; set_solver.
Qed.

Lemma sorted_cons x l : sorted (x :: l) ↔ sorted l ∧ Forall (λ y, cmp x y < 0) l.
Proof.
  unfold sorted. split.
  - apply StronglySorted_inv.
  - intros [? ?]. by constructor.
Qed.

Lemma sorted_NoDup l : sorted l → NoDup l.
Proof.
  induction 1 as [|x l Hs IH Hx]; constructor; [|done].
  intros Hin. rewrite Forall_forall in Hx. specialize (Hx x Hin).
  rewrite cmp_refl in Hx. lia.
Qed.

(** A sorted sequence cut at a key. *)
Lemma below_sorted e x l : sorted (l ++ [x]) → 0 < cmp e x → below e (l ++ [x]).
Proof.
  intros Hs He. apply sorted_app in Hs as (_ & _ & H).
  unfold below. rewrite Forall_forall. intros y [Hy|Hy]%elem_of_app.
  - apply cmp_lt_gt, (cmp_lt_le y x e); [set_solver|].
    pose proof (cmp_opp e x). lia.
  - apply list_elem_of_singleton in Hy as ->. done.
Qed.

Lemma above_sorted e x l : sorted (x :: l) → cmp e x < 0 → above e (x :: l).
Proof.
  intros Hs He. apply sorted_cons in Hs as [_ H].
  unfold above. constructor; [done|]. rewrite Forall_forall in *.
  intros y Hy. apply (cmp_le_lt e x y); [lia|]. by apply H.
Qed.

(** ** The reference operations on a sequence cut at the key of [e] *)

Lemma linsert_cut e l k :
  below e l → above e k → linsert e (l ++ k) = l ++ e :: k.
Proof.
  intros Hl Hk. induction Hl as [|y l Hy Hl IH]; simpl.
  - destruct Hk as [|y k Hy Hk]; simpl; [done|].
    by rewrite (proj2 (Z.ltb_lt _ _) Hy).
  - rewrite IH, (proj2 (Z.ltb_lt _ _) Hy).
    by rewrite (proj2 (Z.ltb_ge _ _) (Z.lt_le_incl _ _ Hy)).
Qed.

Lemma lfind_app e l k : below e l → lfind e (l ++ k) = lfind e k.
Proof.
  intros Hl. unfold lfind. induction Hl as [|y l Hy Hl IH]; simpl; [done|].
  by rewrite (proj2 (Z.eqb_neq _ _)) by lia.
Qed.

Lemma lfind_above e k : above e k → lfind e k = None.
Proof.
  intros Hk. unfold lfind. induction Hk as [|y l Hy Hl IH]; simpl; [done|].
  by rewrite (proj2 (Z.eqb_neq _ _)) by lia.
Qed.

Lemma lfind_cut e l x k : below e l → cmp e x = 0 → lfind e (l ++ x :: k) = Some x.
Proof.
  intros Hl E. rewrite lfind_app by done. unfold lfind; simpl. by rewrite E.
Qed.

Lemma lfind_None e l k : below e l → above e k → lfind e (l ++ k) = None.
Proof. intros Hl Hk. rewrite lfind_app by done. by apply lfind_above. Qed.

Lemma lfind_Some e l x : lfind e l = Some x → x ∈ l ∧ cmp e x = 0.
Proof.
  intros [Hin E]%List.find_some. split; [by apply list_elem_of_In|].
  by apply Z.eqb_eq.
Qed.

Lemma lfind_None_inv e l : lfind e l = None → ∀ x, x ∈ l → cmp e x ≠ 0.
Proof.
  intros H x Hx%list_elem_of_In. eapply List.find_none in H; [|done].
  by apply Z.eqb_neq.
Qed.

Lemma linsert_sorted e l : sorted l → lfind e l = None → sorted (linsert e l).
Proof.
  intros Hs Hf. induction l as [|y l IH]; simpl in *; [repeat constructor|].
  unfold lfind in Hf; simpl in Hf. destruct (cmp e y =? 0) eqn:E; [done|].
  apply sorted_cons in Hs as [Hs Hy]. specialize (IH Hs Hf).
  destruct (Z.ltb_spec (cmp e y) 0).
  - apply sorted_cons; split; [by apply sorted_cons|].
    constructor; [done|]. eapply Forall_impl; [done|].
    intros z Hz; simpl in *. apply (cmp_le_lt e y z); [lia|done].
  - destruct (Z.ltb_spec 0 (cmp e y)); [|lia].
    apply sorted_cons; split; [done|].
    assert (linsert e l ≡ₚ e :: l) as ->.
    { clear -Hf Comparison0. revert Hf. unfold lfind.
      induction l as [|w l IH]; simpl; [done|].
      destruct (cmp e w =? 0) eqn:Ew; [done|]. intros Hf.
      destruct (Z.ltb_spec (cmp e w) 0); [done|].
      destruct (Z.ltb_spec 0 (cmp e w)); [|lia].
      rewrite (IH Hf). apply Permutation_swap. }
    constructor; [|done]. by apply cmp_lt_gt.
Qed.

Lemma lnfind_app e l k : below e l → lnfind e (l ++ k) = lnfind e k.
Proof.
  intros Hl. unfold lnfind. induction Hl as [|y l Hy Hl IH]; simpl; [done|].
  by rewrite (proj2 (Z.leb_gt _ _)) by lia.
Qed.

Lemma lnfind_head e x k : cmp e x ≤ 0 → lnfind e (x :: k) = Some x.
Proof.
  intros Hx. unfold lnfind; simpl. by rewrite (proj2 (Z.leb_le _ _) Hx).
Qed.
End ordered.

(** The comparison of the keys' numbers, for concrete runs. *)
Definition poscmp (x y : positive) : Z := Z.pos x - Z.pos y.

#[export] Instance poscmp_comparison : Comparison poscmp.
Proof. split; unfold poscmp; intros; lia. Qed.
