(* ===== verification/RBSpec.v ===== *)
(** Red-black trees as values: the abstract side of the red-black macros of
    [include/compat/sys/tree.h].

    A tree is seen through a zipper, the subtree in focus and the frames above
    it, because the C code keeps a pointer to a node and climbs by the parent
    links.  [ins_color] and [rem_color] are the repair loops on zippers; the
    lemmas show that they keep the in-order sequence and restore the colour
    invariants, and bound the height of a tree by the number of its nodes. *)
From Stdlib Require Import ZArith Lia.
From stdpp Require Import prelude gmap.
From S2P Require Import Prelude Ordered.

(** ** Trees and contexts *)

Inductive color := Red | Black.
#[export] Instance color_eq_dec : EqDecision color.
Proof. solve_decision. Defined.

Inductive dir := DLeft | DRight.
#[export] Instance dir_eq_dec : EqDecision dir.
Proof. solve_decision. Defined.

Definition flip (d : dir) : dir :=
  match d with DLeft => DRight | DRight => DLeft end.

Inductive tree :=
  | Leaf
  | Node (c : color) (l : tree) (x : positive) (r : tree).

(** A node seen from the side [d]: its [d]-child, itself, its other child. *)
Definition mk (d : dir) (c : color) (a : tree) (x : positive) (b : tree) : tree :=
  match d with DLeft => Node c a x b | DRight => Node c b x a end.

(** A frame: a node [fx] of colour [fc] whose [fd]-child is the hole. *)
Record frame := Fr { fd : dir; fc : color; fx : positive; fsib : tree }.
Abbreviation ctx := (list frame).

Definition plug1 (t : tree) (f : frame) : tree := mk (fd f) (fc f) t (fx f) (fsib f).
Definition plug (k : ctx) (t : tree) : tree := foldl plug1 t k.

Fixpoint inorder (t : tree) : list positive :=
  match t with
  | Leaf => []
  | Node _ l x r => inorder l ++ x :: inorder r
  end.

(** What a context contributes before and after its hole. *)
Fixpoint before (k : ctx) : list positive :=
  match k with
  | [] => []
  | Fr DLeft _ _ _ :: k => before k
  | Fr DRight _ x s :: k => before k ++ inorder s ++ [x]
  end.

Fixpoint after (k : ctx) : list positive :=
  match k with
  | [] => []
  | Fr DLeft _ x s :: k => x :: inorder s ++ after k
  | Fr DRight _ _ _ :: k => after k
  end.

(** The nodes of a context, in no particular order. *)
Fixpoint nodes (k : ctx) : list positive :=
  match k with
  | [] => []
  | Fr _ _ x s :: k => x :: inorder s ++ nodes k
  end.

Fixpoint height (t : tree) : nat :=
  match t with
  | Leaf => 0
  | Node _ l _ r => S (height l `max` height r)
  end.

Definition size (t : tree) : nat := length (inorder t).

Definition root_color (t : tree) : color :=
  match t with Leaf => Black | Node c _ _ _ => c end.

Definition paint (c : color) (t : tree) : tree :=
  match t with Leaf => Leaf | Node _ l x r => Node c l x r end.

(** ** The colour invariants *)

(** [rbt n t]: every path from the root of [t] to a leaf meets [n] black
    nodes, and no red node has a red child. *)
Inductive rbt : nat → tree → Prop :=
  | rbt_leaf : rbt 0 Leaf
  | rbt_red n l x r :
      rbt n l → rbt n r → root_color l = Black → root_color r = Black →
      rbt n (Node Red l x r)
  | rbt_black n l x r : rbt n l → rbt n r → rbt (S n) (Node Black l x r).

(** What the macros maintain: the root is black as well. *)
Definition valid (t : tree) : Prop := root_color t = Black ∧ ∃ n, rbt n t.

(** The innermost frame is black; there is none above the root, and the root
    may not be red. *)
Definition ctx_black (k : ctx) : Prop :=
  match k with [] => False | Fr _ c _ _ :: _ => c = Black end.

(** [rbc n k]: plugging a subtree of black-height [n] with a black root into
    [k] gives a valid tree. *)
Inductive rbc : nat → ctx → Prop :=
  | rbc_nil n : rbc n []
  | rbc_red n d x s k :
      rbt n s → root_color s = Black → ctx_black k → rbc n k →
      rbc n (Fr d Red x s :: k)
  | rbc_black n d x s k :
      rbt n s → rbc (S n) k → rbc n (Fr d Black x s :: k).

Create HintDb rb.
#[export] Hint Constructors rbt rbc : rb.

(** ** The repair loops on zippers *)

(** [RB_INSERT_COLOR]: the focus is red; the context is that of a valid tree
    whose innermost frame may be red. *)
Fixpoint ins_color (t : tree) (k : ctx) : tree :=
  match k with
  | Fr d Red p s :: Fr dg cg g u :: k' =>
      match root_color u with
      | Red => ins_color (mk dg Red (mk d Black t p s) g (paint Black u)) k'
      | Black =>
          if decide (d = dg) then
            paint Black (plug k' (mk dg Black t p (mk dg Red s g u)))
          else
            match t with
            | Node c l x r =>
                let a := match dg with DLeft => l | DRight => r end in
                let b := match dg with DLeft => r | DRight => l end in
                paint Black
                  (plug k' (mk dg Black (mk dg Red s p a) x (mk dg Red b g u)))
            | Leaf => Leaf
            end
      end
  | _ => paint Black (plug k t)
  end.

(** The near and far child of a node seen from the side [d]. *)
Definition near (d : dir) (t : tree) : tree :=
  match t, d with
  | Leaf, _ => Leaf
  | Node _ l _ _, DLeft => l
  | Node _ _ _ r, DRight => r
  end.

Definition root_of (t : tree) : ptr :=
  match t with Leaf => None | Node _ _ x _ => Some x end.

(** One round of [RB_REMOVE_COLOR] at the parent [p] of colour [c], the focus
    [t] on its [d] side and a black sibling on the other: either the repair is
    finished ([inr], the whole tree) or it goes on at the parent ([inl]). *)
Definition rem_round (t : tree) (d : dir) (c : color) (p : positive)
    (w : tree) (k : ctx) : tree + tree :=
  let wn := near d w in
  let wf := near (flip d) w in
  match w with
  | Leaf => inl (mk d c t p w)
  | Node _ _ wx _ =>
      match root_color wn, root_color wf with
      | Black, Black => inl (mk d c t p (paint Red w))
      | _, Red =>
          inr (plug k (mk d c (mk d Black t p wn) wx (paint Black wf)))
      | Red, Black =>
          match wn with
          | Node _ _ z _ =>
              inr (plug k (mk d c (mk d Black t p (near d wn)) z
                             (mk d Black (near (flip d) wn) wx wf)))
          | Leaf => inl (mk d c t p w)
          end
      end
  end.

(** [RB_REMOVE_COLOR]: the black-height of the focus is one short. *)
Fixpoint rem_color (t : tree) (k : ctx) : tree :=
  match k with
  | [] => paint Black t
  | Fr d c p s :: k' =>
      match root_color t with
      | Red => plug k (paint Black t)
      | Black =>
          match s with
          | Leaf => plug k t
          | Node cs _ y _ =>
              match cs with
              | Black =>
                  match rem_round t d c p s k' with
                  | inl t' => rem_color t' k'
                  | inr u => paint Black u
                  end
              | Red =>
                  let k'' := Fr d Black y (near (flip d) s) :: k' in
                  match rem_round t d Red p (near d s) k'' with
                  | inl t' => plug k'' (paint Black t')
                  | inr u => paint Black u
                  end
              end
          end
      end
  end.

(** ** The in-order sequence *)

Lemma flip_flip d : flip (flip d) = d.
Proof. by destruct d. Qed.

Lemma plug_cons f k t : plug (f :: k) t = plug k (plug1 t f).
Proof. done. Qed.

Lemma inorder_plug k t : inorder (plug k t) = before k ++ inorder t ++ after k.
Proof.
  revert t; induction k as [|[d c x s] k IH]; intros t; simpl.
  - by rewrite app_nil_r.
  - rewrite IH. by destruct d; simpl; rewrite <-!app_assoc; simpl;
      rewrite <-?app_assoc.
Qed.

Lemma inorder_paint c t : inorder (paint c t) = inorder t.
Proof. by destruct t. Qed.

Lemma mk_surj d t c l x r :
  t = Node c l x r → t = mk d c (near d t) x (near (flip d) t).
Proof. intros ->. by destruct d. Qed.

(** Equality of two in-order sequences built from the same pieces. *)
Ltac dirs := repeat match goal with d : dir |- _ => destruct d end.

Ltac inorder_eq :=
  dirs; unfold plug1;
  repeat first
    [ rewrite inorder_plug | rewrite inorder_paint | rewrite <-app_assoc
    | rewrite app_nil_r | progress simpl ];
  reflexivity.

Lemma ins_color_inorder t k :
  t ≠ Leaf → inorder (ins_color t k) = inorder (plug k t).
Proof.
  intros Ht; revert t Ht.
  induction k as [|f|[d c p s] [dg cg g u] k IH] using list_two_ind; intros t Ht.
  - inorder_eq.
  - destruct f as [d [] p s]; inorder_eq.
  - destruct c; [|inorder_eq]. simpl.
    destruct (root_color u).
    + rewrite IH by (by dirs). dirs; inorder_eq.
    + case_decide; [subst; dirs; inorder_eq|].
      destruct t as [|c l x r]; [done|]. dirs; try done; inorder_eq.
Qed.

Lemma rem_round_inorder t d c p w k :
  match rem_round t d c p w k with
  | inl t' => inorder t' = inorder (mk d c t p w)
  | inr u => inorder u = inorder (plug k (mk d c t p w))
  end.
Proof.
  destruct w as [|cw wl wx wr]; [done|]. unfold rem_round.
  destruct d; simpl.
  - destruct wl as [|[] zl z zr]; simpl; destruct (root_color wr); inorder_eq.
  - destruct wr as [|[] zl z zr]; simpl; destruct (root_color wl); inorder_eq.
Qed.

Lemma near_mk d c a x b : near d (mk d c a x b) = a.
Proof. by destruct d. Qed.

Lemma near_flip_mk d c a x b : near (flip d) (mk d c a x b) = b.
Proof. by destruct d. Qed.

Lemma rem_round_eq t d c p wn y wf k :
  rem_round t d c p (mk d Black wn y wf) k =
  match root_color wn, root_color wf with
  | Black, Black => inl (mk d c t p (mk d Red wn y wf))
  | _, Red => inr (plug k (mk d c (mk d Black t p wn) y (paint Black wf)))
  | Red, Black =>
      match wn with
      | Node _ _ z _ =>
          inr (plug k (mk d c (mk d Black t p (near d wn)) z
                         (mk d Black (near (flip d) wn) y wf)))
      | Leaf => inl (mk d c t p (mk d Black wn y wf))
      end
  end.
Proof. by destruct d. Qed.

Lemma rem_color_inorder t k : inorder (rem_color t k) = inorder (plug k t).
Proof.
  revert t; induction k as [|[d c p s] k IH]; intros t; [inorder_eq|].
  cbn [rem_color].
  destruct (root_color t); [inorder_eq|].
  destruct s as [|cs l y r]; [done|].
  set (s := Node cs l y r). destruct cs.
  - pose proof (rem_round_inorder t d Red p (near d s)
      (Fr d Black y (near (flip d) s) :: k)) as H.
    destruct (rem_round _ _ _ _ _ _) as [t'|u].
    + rewrite inorder_plug, inorder_paint, H. dirs; inorder_eq.
    + rewrite inorder_paint, H. dirs; inorder_eq.
  - pose proof (rem_round_inorder t d c p s k) as H.
    destruct (rem_round _ _ _ _ _ _) as [t'|u].
    + rewrite IH, inorder_plug, H, plug_cons, inorder_plug. by dirs.
    + by rewrite inorder_paint, H, plug_cons.
Qed.

(** ** The colour invariants are restored *)

Lemma rbt_mk_red n d a x b :
  rbt n a → rbt n b → root_color a = Black → root_color b = Black →
  rbt n (mk d Red a x b).
Proof. destruct d; simpl; auto with rb. Qed.

Lemma rbt_mk_black n d a x b : rbt n a → rbt n b → rbt (S n) (mk d Black a x b).
Proof. destruct d; simpl; auto with rb. Qed.

#[export] Hint Resolve rbt_mk_red rbt_mk_black : rb.

Lemma rbt_red_inv n d a x b :
  rbt n (mk d Red a x b) →
  rbt n a ∧ rbt n b ∧ root_color a = Black ∧ root_color b = Black.
Proof. intros H; destruct d; inversion H; auto. Qed.

Lemma rbt_black_inv n d a x b :
  rbt n (mk d Black a x b) → ∃ m, n = S m ∧ rbt m a ∧ rbt m b.
Proof. intros H; destruct d; inversion H; eauto. Qed.

Lemma root_color_mk d c a x b : root_color (mk d c a x b) = c.
Proof. by destruct d. Qed.

Lemma rbt_paint_black n t :
  rbt n t → root_color t = Red → rbt (S n) (paint Black t).
Proof. intros H E; inversion H; subst; simpl in *; try done; auto with rb. Qed.

Lemma rbt_paint_red n t d a x b :
  t = mk d Black a x b → rbt (S n) t →
  root_color a = Black → root_color b = Black → rbt n (paint Red t).
Proof.
  intros -> H Ha Hb. apply rbt_black_inv in H as (m & [= ->] & ? & ?).
  destruct d; simpl; auto with rb.
Qed.

Lemma paint_black_id t : root_color t = Black → paint Black t = t.
Proof. by destruct t as [|[] l x r]. Qed.

Lemma root_color_paint t : root_color (paint Black t) = Black.
Proof. by destruct t. Qed.

#[export] Hint Resolve root_color_mk root_color_paint : rb.

Lemma plug_valid n t k :
  rbt n t → rbc n k → (root_color t = Red → ctx_black k) → valid (plug k t).
Proof.
  revert n t; induction k as [|[d c x s] k IH]; intros n t Ht Hk Hr.
  - simpl. split; [|eauto]. destruct (root_color t); [|done]. by destruct Hr.
  - rewrite plug_cons. inversion Hk; subst; unfold plug1; simpl.
    + apply (IH n); auto.
      apply rbt_mk_red; auto. destruct (root_color t); [|done].
      by specialize (Hr eq_refl).
    + apply (IH (S n)); auto with rb. by rewrite root_color_mk.
Qed.

Lemma valid_paint n t : rbt n t → valid (paint Black t).
Proof.
  intros Ht. split; [apply root_color_paint|].
  destruct (root_color t) eqn:E.
  - exists (S n). by apply rbt_paint_black.
  - exists n. by rewrite paint_black_id.
Qed.

Lemma valid_paint_black t : valid t → valid (paint Black t).
Proof. intros [? ?]. by rewrite paint_black_id. Qed.

Lemma ins_color_valid n t k :
  rbt n t → root_color t = Red → rbc n k → valid (ins_color t k).
Proof.
  revert n t.
  induction k as [|f|[d c p s] [dg cg g u] k IH] using list_two_ind;
    intros n t Ht Hr Hk.
  - simpl. by apply (valid_paint n).
  - destruct f as [d [] p s]; [by inversion Hk|].
    by apply valid_paint_black, (plug_valid n).
  - destruct c.
    2: { by apply valid_paint_black, (plug_valid n). }
    inversion Hk as [|? ? ? ? ? Hs Hsb Hb Hk'|]; subst.
    simpl in Hb; subst cg. inversion Hk'; subst. simpl.
    destruct (root_color u) eqn:Eu.
    + apply (IH (S n)); auto with rb.
      apply rbt_mk_red; auto using root_color_mk, root_color_paint.
      * destruct (rbt_black_inv (S n) d t p s) as (?&?&?&?); auto with rb.
      * by apply rbt_paint_black.
    + case_decide as Ed.
      * subst dg. apply valid_paint_black, (plug_valid (S n)); auto with rb.
        by rewrite root_color_mk.
      * destruct t as [|c l x r]; [done|]. simpl in Hr; subst c.
        inversion Ht; subst.
        apply valid_paint_black, (plug_valid (S n)); auto;
          [|by rewrite root_color_mk].
        apply rbt_mk_black; apply rbt_mk_red; try done; by destruct dg.
Qed.

(** The black-height of a node of colour [c] whose children have [n]. *)
Definition up (c : color) (n : nat) : nat :=
  match c with Red => n | Black => S n end.

Lemma rbc_inv n d c x s k :
  rbc n (Fr d c x s :: k) →
  rbt n s ∧ rbc (up c n) k ∧
  (c = Red → root_color s = Black ∧ ctx_black k).
Proof. intros H; inversion H; subst; simpl; auto. done. Qed.

Lemma rbt_black_node n w :
  rbt (S n) w → root_color w = Black →
  ∃ l x r, w = Node Black l x r ∧ rbt n l ∧ rbt n r.
Proof. intros H E; inversion H; subst; simpl in E; try done; eauto 10. Qed.

Lemma rem_round_valid n t d c p w k :
  rbt n t → root_color t = Black → rbt (S n) w → root_color w = Black →
  rbc (up c (S n)) k → (c = Red → ctx_black k) →
  match rem_round t d c p w k with
  | inl t' => ∃ w', t' = mk d c t p w' ∧ rbt n w' ∧ inorder w' = inorder w
  | inr u => valid u
  end.
Proof.
  intros Ht Htb Hw Hwb Hk Hc.
  destruct (rbt_black_node n w) as (l & x & r & -> & Hl & Hr); [done..|].
  assert (Hn : rbt n (near d (Node Black l x r))) by by destruct d.
  assert (Hf : rbt n (near (flip d) (Node Black l x r))) by by destruct d.
  unfold rem_round.
  set (wn := near d _) in *. set (wf := near (flip d) _) in *.
  assert (Hfar : root_color wf = Red → valid
    (plug k (mk d c (mk d Black t p wn) x (paint Black wf)))).
  { intros E. apply (plug_valid (up c (S n))); auto; [|by rewrite root_color_mk].
    apply rbt_paint_black in Hf; [|done].
    destruct c; cbn [up]; [apply rbt_mk_red | apply rbt_mk_black];
      auto using root_color_mk, root_color_paint with rb. }
  destruct (root_color wn) eqn:En, (root_color wf) eqn:Ef; auto.
  - destruct wn as [|cn zl z zr]; [done|]. simpl in En; subst cn.
    inversion Hn; subst.
    apply (plug_valid (up c (S n))); auto; [|by rewrite root_color_mk].
    assert (rbt n (near d (Node Red zl z zr))) by by destruct d.
    assert (rbt n (near (flip d) (Node Red zl z zr))) by by destruct d.
    destruct c; cbn [up]; [apply rbt_mk_red | apply rbt_mk_black];
      auto using root_color_mk with rb.
  - exists (paint Red (Node Black l x r)). split_and!; [done| |done].
    simpl. apply rbt_red; auto; unfold wn, wf in *; by destruct d.
Qed.

Lemma rem_color_valid n t k : rbt n t → rbc (S n) k → valid (rem_color t k).
Proof.
  revert n t; induction k as [|[d c p s] k IH]; intros n t Ht Hk; simpl.
  - by apply (valid_paint n).
  - destruct (root_color t) eqn:Et.
    { rewrite <-plug_cons. apply (plug_valid (S n)); auto using rbt_paint_black.
      by rewrite root_color_paint. }
    apply rbc_inv in Hk as (Hs & Hk & Hc).
    destruct s as [|cs l y r]; [inversion Hs|].
    destruct cs.
    + destruct c; [by destruct (Hc eq_refl)|].
      inversion Hs; subst.
      set (s := Node Red l y r) in *.
      assert (Hn : rbt (S n) (near d s)) by by destruct d.
      assert (Hf : rbt (S n) (near (flip d) s)) by by destruct d.
      assert (Hnb : root_color (near d s) = Black) by by destruct d.
      set (k'' := Fr d Black y (near (flip d) s) :: k).
      assert (Hk'' : rbc (S n) k'') by (constructor; auto).
      pose proof (rem_round_valid n t d Red p (near d s) k'') as HR.
      destruct (rem_round t d Red p (near d s) k'') as [t'|u].
      * destruct HR as (w' & -> & Hw' & _); auto; [done|].
        assert (paint Black (mk d Red t p w') = mk d Black t p w') as -> by by destruct d.
        change (valid (plug k'' (mk d Black t p w'))).
        apply (plug_valid (S n)); auto with rb.
        by rewrite root_color_mk.
      * apply valid_paint_black, HR; auto. done.
    + pose proof (rem_round_valid n t d c p (Node Black l y r) k) as HR.
      destruct (rem_round t d c p (Node Black l y r) k) as [t'|u].
      * destruct HR as (w' & -> & Hw' & _); auto; [by intros; apply Hc|].
        destruct c; simpl in Hk.
        -- (* the parent is red: the loop stops there and paints it black *)
           destruct (Hc eq_refl) as [_ Hcb]. destruct k as [|f k']; [done|].
           destruct f as [df [] xf sf]; [done|].
           simpl. rewrite root_color_mk.
           change (valid (plug (Fr df Black xf sf :: k')
             (paint Black (mk d Red t p w')))).
           apply (plug_valid (S n)); [|done|by rewrite root_color_paint].
           destruct d; simpl; auto with rb.
        -- apply (IH (S n)); auto with rb.
      * apply valid_paint_black, HR; auto. by intros; apply Hc.
Qed.

(** ** Walking down from the root *)

(** [rbz n t k]: the zipper is a valid tree opened at a subtree of
    black-height [n]. *)
Definition rbz (n : nat) (t : tree) (k : ctx) : Prop :=
  rbt n t ∧ rbc n k ∧ (root_color t = Red → ctx_black k).

Lemma rbz_top t : valid t → ∃ n, rbz n t [].
Proof. intros [Hb [n Hn]]. exists n. split_and!; auto with rb. by rewrite Hb. Qed.

Lemma rbz_valid n t k : rbz n t k → valid (plug k t).
Proof. intros (?&?&?). by apply (plug_valid n). Qed.

Lemma rbz_down n d c a x b k :
  rbz n (mk d c a x b) k → ∃ m, n = up c m ∧ rbz m a (Fr d c x b :: k).
Proof.
  intros (Ht & Hk & Hr). rewrite root_color_mk in Hr. destruct c.
  - apply rbt_red_inv in Ht as (Ha & Hb & Hac & Hbc).
    exists n. split_and!; [done|]. split_and!; [done| |by rewrite Hac].
    by apply rbc_red; auto.
  - apply rbt_black_inv in Ht as (m & -> & Ha & Hb).
    exists m. split_and!; [done|]. by split_and!; auto with rb.
Qed.

(** ** Height *)

Lemma rbt_size n t : rbt n t → 2 ^ n ≤ S (size t).
Proof.
  unfold size.
  induction 1; simpl; rewrite ?length_app; simpl; lia.
Qed.

Lemma rbt_height n t : rbt n t →
  height t ≤ 2 * n + match root_color t with Red => 1 | Black => 0 end.
Proof.
  induction 1 as [|n l x r Hl IHl Hr IHr El Er|n l x r Hl IHl Hr IHr]; simpl.
  - lia.
  - rewrite El, Er in *. lia.
  - destruct (root_color l), (root_color r); lia.
Qed.

Lemma valid_height t : valid t → height t ≤ 2 * Nat.log2 (S (size t)).
Proof.
  intros [Hb [n Ht]].
  pose proof (rbt_size n t Ht). pose proof (rbt_height n t Ht) as Hh.
  rewrite Hb in Hh.
  assert (n ≤ Nat.log2 (S (size t))) by (apply Nat.log2_le_pow2; lia).
  lia.
Qed.

(** ** Search *)

Section search.
Context (cmp : positive → positive → Z) `{!Comparison cmp}.
Implicit Types (e : positive) (t : tree) (k : ctx).

(** The zipper at which a search for the key of [e] stops. *)
Fixpoint search e t k : tree * ctx :=
  match t with
  | Leaf => (Leaf, k)
  | Node c l x r =>
      if (cmp e x <? 0)%Z then search e l (Fr DLeft c x r :: k)
      else if (0 <? cmp e x)%Z then search e r (Fr DRight c x l :: k)
      else (t, k)
  end.

Definition hit e t : Prop :=
  match t with Leaf => True | Node _ _ x _ => cmp e x = 0%Z end.

(** The key of [e] belongs in the hole of [k]. *)
Definition fits e k : Prop := below cmp e (before k) ∧ above cmp e (after k).

Lemma search_plug e t k : plug (search e t k).2 (search e t k).1 = plug k t.
Proof.
  revert k; induction t as [|c l IHl x r IHr]; intros k; simpl; [done|].
  destruct (_ <? _)%Z; [by rewrite IHl|]. destruct (_ <? _)%Z; [by rewrite IHr|done].
Qed.

Lemma search_hit e t k : hit e (search e t k).1.
Proof.
  revert k; induction t as [|c l IHl x r IHr]; intros k; simpl; [done|].
  destruct (Z.ltb_spec (cmp e x) 0); [apply IHl|].
  destruct (Z.ltb_spec 0 (cmp e x)); [apply IHr|]. simpl. lia.
Qed.

Lemma search_length e t k : length (search e t k).2 ≤ length k + height t.
Proof.
  revert k; induction t as [|c l IHl x r IHr]; intros k; simpl; [lia|].
  destruct (_ <? _)%Z; [specialize (IHl (Fr DLeft c x r :: k)); simpl in *; lia|].
  destruct (_ <? _)%Z; [specialize (IHr (Fr DRight c x l :: k)); simpl in *; lia|].
  simpl; lia.
Qed.

Lemma search_rbz e t k n :
  rbz n t k → ∃ m, rbz m (search e t k).1 (search e t k).2.
Proof.
  revert k n; induction t as [|c l IHl x r IHr]; intros k n Hz; simpl; [eauto|].
  destruct (_ <? _)%Z.
  { destruct (rbz_down n DLeft c l x r k Hz) as (m & _ & Hm). eauto. }
  destruct (_ <? _)%Z; [|eauto].
  destruct (rbz_down n DRight c r x l k Hz) as (m & _ & Hm). eauto.
Qed.

Lemma search_fits e t k :
  sorted cmp (inorder (plug k t)) → fits e k → fits e (search e t k).2.
Proof.
  revert k; induction t as [|c l IHl x r IHr]; intros k Hs Hk; simpl; [done|].
  pose proof Hs as Hs'. rewrite inorder_plug in Hs'. simpl in Hs'.
  destruct Hk as [Hb Ha].
  destruct (Z.ltb_spec (cmp e x) 0); [|destruct (Z.ltb_spec 0 (cmp e x))]; [| |done].
  - apply IHl; [done|]. split; [done|]. simpl. apply (above_sorted cmp); [|done].
    apply (sorted_app cmp) in Hs' as (_ & Hs' & _).
    rewrite <-app_assoc in Hs'. simpl in Hs'. by apply (sorted_app cmp) in Hs' as (_ & ? & _).
  - apply IHr; [done|]. split; [|done]. simpl.
    rewrite app_assoc. apply (below_sorted cmp); [|done].
    rewrite <-!app_assoc in Hs'. simpl in Hs'.
    replace (before k ++ inorder l ++ x :: inorder r ++ after k)
      with (((before k ++ inorder l) ++ [x]) ++ inorder r ++ after k) in Hs'
      by by rewrite <-!app_assoc.
    by apply (sorted_app cmp) in Hs' as (? & _ & _).
Qed.

Lemma fits_nil e : fits e [].
Proof. split; constructor. Qed.
End search.

(** ** Extreme nodes and replacement *)

(** Follow the [d]-children from a node to the last. *)
Fixpoint descend (d : dir) (t : tree) (k : ctx) : tree * ctx :=
  match t with
  | Leaf => (Leaf, k)
  | Node c l x r =>
      match d with
      | DLeft => match l with
                 | Leaf => (t, k)
                 | _ => descend d l (Fr DLeft c x r :: k)
                 end
      | DRight => match r with
                  | Leaf => (t, k)
                  | _ => descend d r (Fr DRight c x l :: k)
                  end
      end
  end.

(** All frames hang on the side [d]. *)
Definition straight (d : dir) (k : ctx) : Prop := Forall (λ f, fd f = d) k.

Lemma descend_spec d t k :
  t ≠ Leaf → ∃ ks c x b,
    descend d t k = (mk d c Leaf x b, ks ++ k) ∧ straight d ks ∧
    plug ks (mk d c Leaf x b) = t ∧ length ks + height (mk d c Leaf x b) ≤ height t.
Proof.
  intros Ht. revert k; induction t as [|c l IHl x r IHr]; intros k; [done|].
  set (a := near d (Node c l x r)). set (b := near (flip d) (Node c l x r)).
  assert (E : descend d (Node c l x r) k =
    match a with Leaf => (Node c l x r, k) | _ => descend d a (Fr d c x b :: k) end)
    by by dirs.
  assert (Em : Node c l x r = mk d c a x b) by by dirs.
  assert (Hh : S (height a) ≤ height (Node c l x r)) by (subst a; dirs; simpl; lia).
  assert (IH : a ≠ Leaf → ∀ k, ∃ ks c x b,
    descend d a k = (mk d c Leaf x b, ks ++ k) ∧ straight d ks ∧
    plug ks (mk d c Leaf x b) = a ∧ length ks + height (mk d c Leaf x b) ≤ height a)
    by (subst a; dirs; auto).
  clearbody a b. rewrite E. destruct a as [|ca al ax ar].
  - exists [], c, x, b. rewrite Em. split_and!; [done|by constructor|done|].
    rewrite <-Em. simpl; lia.
  - destruct (IH ltac:(done) (Fr d c x b :: k)) as (ks & c' & x' & b' & E1 & Hs & Hp & Hl).
    exists (ks ++ [Fr d c x b]), c', x', b'. rewrite E1. split_and!.
    + by rewrite <-app_assoc.
    + apply Forall_app; split; [done|]. by repeat constructor.
    + unfold plug in *. rewrite foldl_app, Hp. simpl. unfold plug1; simpl. by rewrite Em.
    + rewrite length_app. simpl in *. lia.
Qed.

Lemma straight_before ks : straight DLeft ks → before ks = [].
Proof. induction 1 as [|[d c x u] ks Hd _ IH]; simpl in *; [done|by subst]. Qed.

Lemma plug_app ks k t : plug (ks ++ k) t = plug k (plug ks t).
Proof. apply foldl_app. Qed.

(** The colour invariants do not depend on the name of a node. *)
Lemma rbc_rename n ks d c x x' u k :
  rbc n (ks ++ Fr d c x u :: k) → rbc n (ks ++ Fr d c x' u :: k).
Proof.
  revert n; induction ks as [|[df cf xf sf] ks IH]; intros n H; simpl in *.
  - inversion H; subst; auto with rb.
  - inversion H as [|? ? ? ? ? ? ? Hb|]; subst; constructor; auto.
    by destruct ks as [|f ks].
Qed.

(** The zipper at a given node. *)
Lemma open_at x t k n :
  x ∈ inorder t → rbz n t k →
  ∃ c l r k' m, plug k' (Node c l x r) = plug k t ∧ rbz m (Node c l x r) k' ∧
    length k' + height (Node c l x r) ≤ length k + height t.
Proof.
  revert k n; induction t as [|c l IHl y r IHr]; intros k n Hx Hz; simpl in Hx.
  - by apply elem_of_nil in Hx.
  - apply elem_of_app in Hx as [Hx|[->|Hx]%elem_of_cons].
    + destruct (rbz_down n DLeft c l y r k Hz) as (m & _ & Hm).
      destruct (IHl _ _ Hx Hm) as (c' & l' & r' & k' & m' & ? & ? & ?).
      do 5 eexists; split_and!; [done|done|]. simpl in *; lia.
    + by do 5 eexists.
    + destruct (rbz_down n DRight c r y l k Hz) as (m & _ & Hm).
      destruct (IHr _ _ Hx Hm) as (c' & l' & r' & k' & m' & ? & ? & ?).
      do 5 eexists; split_and!; [done|done|]. simpl in *; lia.
Qed.
