(* ===== verification/RBTree.v ===== *)
(** The red-black tree macros of [include/compat/sys/tree.h] ([RB_HEAD] to
    [RB_FOREACH_REVERSE]).

    The state is the tree head and the memory of elements, each with the four
    fields of [RB_ENTRY].  The generated functions are translated statement by
    statement; a dereference of NULL, or of an element that is not in memory,
    is [None].  Where the C code writes a branch and its mirror image, the
    branch is a definition over the side [d] and both instances are used where
    the C code has them.  A loop takes a bound on its rounds. *)
From Stdlib Require Import ZArith Lia.
From stdpp Require Import prelude gmap.
From S2P Require Import Prelude RBSpec.

Local Open Scope Z_scope.

(** ** Data *)

Definition RB_BLACK : Z := 0.
Definition RB_RED : Z := 1.

(** [RB_ENTRY]: the fields of an element. *)
Record rb_entry := RbEntry {
  rbe_left : ptr;
  rbe_right : ptr;
  rbe_parent : ptr;
  rbe_color : Z
}.

(** [RB_HEAD] and the memory of the elements. *)
Record rb_state := RbState {
  rbh_root : ptr;
  rb_mem : gmap positive rb_entry
}.

Abbreviation M := (ST rb_state).

Definition RB_INIT : M unit := modify (λ s, RbState None (rb_mem s)).

(** ** Field access *)

Definition deref (p : ptr) : M rb_entry := λ s,
  x ← p; e ← rb_mem s !! x; Some (e, s).

Definition assign (p : ptr) (f : rb_entry → rb_entry) : M unit := λ s,
  x ← p; e ← rb_mem s !! x; Some (tt, RbState (rbh_root s) (<[x := f e]> (rb_mem s))).

Definition child (d : dir) (e : rb_entry) : ptr :=
  match d with DLeft => rbe_left e | DRight => rbe_right e end.

Definition with_child (d : dir) (p : ptr) (e : rb_entry) : rb_entry :=
  match d with
  | DLeft => RbEntry p (rbe_right e) (rbe_parent e) (rbe_color e)
  | DRight => RbEntry (rbe_left e) p (rbe_parent e) (rbe_color e)
  end.

Definition with_parent (p : ptr) (e : rb_entry) : rb_entry :=
  RbEntry (rbe_left e) (rbe_right e) p (rbe_color e).

Definition with_color (c : Z) (e : rb_entry) : rb_entry :=
  RbEntry (rbe_left e) (rbe_right e) (rbe_parent e) c.

Definition RB_CHILD (d : dir) (elm : ptr) : M ptr := e ← deref elm; mret (child d e).
Definition RB_LEFT (elm : ptr) : M ptr := RB_CHILD DLeft elm.
Definition RB_RIGHT (elm : ptr) : M ptr := RB_CHILD DRight elm.
Definition RB_PARENT (elm : ptr) : M ptr := e ← deref elm; mret (rbe_parent e).
Definition RB_COLOR (elm : ptr) : M Z := e ← deref elm; mret (rbe_color e).
Definition RB_ROOT : M ptr := gets rbh_root.
Definition RB_EMPTY : M bool := root ← RB_ROOT; mret (bool_decide (root = None)).

Definition SET_CHILD (d : dir) (elm p : ptr) : M unit := assign elm (with_child d p).
Definition SET_LEFT (elm p : ptr) : M unit := SET_CHILD DLeft elm p.
Definition SET_RIGHT (elm p : ptr) : M unit := SET_CHILD DRight elm p.
Definition SET_PARENT (elm p : ptr) : M unit := assign elm (with_parent p).
Definition SET_COLOR (elm : ptr) (c : Z) : M unit := assign elm (with_color c).
Definition SET_ROOT (p : ptr) : M unit := modify (λ s, RbState p (rb_mem s)).

(** [RB_SET]: all four fields of a new element. *)
Definition RB_SET (elm parent : ptr) : M unit :=
  SET_PARENT elm parent;;
  SET_RIGHT elm None;; SET_LEFT elm None;;
  SET_COLOR elm RB_RED.

Definition RB_SET_BLACKRED (black red : ptr) : M unit :=
  SET_COLOR black RB_BLACK;; SET_COLOR red RB_RED.

(** [RB_AUGMENT] is a no-op unless the including file defines it. *)
Definition RB_AUGMENT (x : ptr) : M unit := mret tt.

(** ** Rotations *)

(** Point the parent of [elm], or the root of the tree, at [tmp]: the [if] in
    the middle of both rotation macros ([RB_PARENT(tmp)] has just been set to
    [RB_PARENT(elm)]). *)
Definition rb_repoint (elm tmp : ptr) : M unit :=
  parent ← RB_PARENT elm;
  if nonnull parent then
    l ← RB_LEFT parent;
    if bool_decide (elm = l) then SET_LEFT parent tmp else SET_RIGHT parent tmp
  else SET_ROOT tmp.

(** [RB_ROTATE_LEFT] ([d = DLeft]) and [RB_ROTATE_RIGHT] ([d = DRight]); the
    value is the one the macro leaves in its argument [tmp]. *)
Definition RB_ROTATE (d : dir) (elm : ptr) : M ptr :=
  tmp ← RB_CHILD (flip d) elm;
  inner ← RB_CHILD d tmp;
  SET_CHILD (flip d) elm inner;;
  (if nonnull inner then
     inner ← RB_CHILD d tmp; SET_PARENT inner elm
   else mret tt);;
  RB_AUGMENT elm;;
  parent ← RB_PARENT elm;
  SET_PARENT tmp parent;;
  rb_repoint elm tmp;;
  SET_CHILD d tmp elm;;
  SET_PARENT elm tmp;;
  RB_AUGMENT tmp;;
  parent ← RB_PARENT tmp;
  (if nonnull parent then RB_AUGMENT parent else mret tt);;
  mret tmp.

Definition RB_ROTATE_LEFT (elm : ptr) : M ptr := RB_ROTATE DLeft elm.
Definition RB_ROTATE_RIGHT (elm : ptr) : M ptr := RB_ROTATE DRight elm.

(** ** Insertion *)

(** [tmp && RB_COLOR(tmp) == RB_RED] *)
Definition rb_is_red (p : ptr) : M bool :=
  if nonnull p then c ← RB_COLOR p; mret (c =? RB_RED) else mret false.

(** [p == NULL || RB_COLOR(p) == RB_BLACK] *)
Definition rb_is_black (p : ptr) : M bool :=
  if nonnull p then c ← RB_COLOR p; mret (c =? RB_BLACK) else mret true.

(** One round of the loop of [RB_INSERT_COLOR] when [parent] is the [d]-child
    of [gparent]; the value is [elm] for the next round. *)
Definition rb_insert_color_round (d : dir) (elm parent gparent : ptr) : M ptr :=
  tmp ← RB_CHILD (flip d) gparent;
  red ← rb_is_red tmp;
  if (red : bool) then
    SET_COLOR tmp RB_BLACK;;
    RB_SET_BLACKRED parent gparent;;
    mret gparent
  else
    inner ← RB_CHILD (flip d) parent;
    pe ← (if bool_decide (inner = elm) then
            RB_ROTATE d parent;; mret (elm, parent)
          else mret (parent, elm));
    RB_SET_BLACKRED pe.1 gparent;;
    RB_ROTATE (flip d) gparent;;
    mret pe.2.

Fixpoint rb_insert_color_loop (fuel : nat) (elm : ptr) : M unit :=
  match fuel with
  | O => fail
  | S fuel =>
      parent ← RB_PARENT elm;
      red ← rb_is_red parent;
      if (red : bool) then
        gparent ← RB_PARENT parent;
        l ← RB_LEFT gparent;
        elm ← (if bool_decide (parent = l)
               then rb_insert_color_round DLeft elm parent gparent
               else rb_insert_color_round DRight elm parent gparent);
        rb_insert_color_loop fuel elm
      else mret tt
  end.

Definition RB_INSERT_COLOR (fuel : nat) (elm : ptr) : M unit :=
  rb_insert_color_loop fuel elm;;
  root ← RB_ROOT;
  SET_COLOR root RB_BLACK.

(** ** Removal *)

(** The end of a round of [RB_REMOVE_COLOR] that leaves the loop: the sibling
    [tmp] takes the colour and the place of [parent]; [inr elm]. *)
Definition rb_remove_color_finish (d : dir) (parent tmp : ptr) : M (ptr * ptr + ptr) :=
  pc ← RB_COLOR parent;
  SET_COLOR tmp pc;;
  SET_COLOR parent RB_BLACK;;
  far ← RB_CHILD (flip d) tmp;
  (if nonnull far then SET_COLOR far RB_BLACK else mret tt);;
  RB_ROTATE d parent;;
  root ← RB_ROOT;
  mret (inr root).

(** When the far child of the sibling [tmp] is black, rotate its near child
    above it; the value is the sibling to go on with. *)
Definition rb_remove_color_near (d : dir) (parent tmp : ptr) : M ptr :=
  far ← RB_CHILD (flip d) tmp;
  fblack ← rb_is_black far;
  if (fblack : bool) then
    onear ← RB_CHILD d tmp;
    (if nonnull onear then SET_COLOR onear RB_BLACK else mret tt);;
    SET_COLOR tmp RB_RED;;
    RB_ROTATE (flip d) tmp;;
    RB_CHILD (flip d) parent
  else mret tmp.

(** The second half of a round of [RB_REMOVE_COLOR], with a black sibling
    [tmp] of the [d]-child of [parent]: [inl (elm, parent)] to go round again,
    [inr elm] after [break]. *)
Definition rb_remove_color_black (d : dir) (parent tmp : ptr) : M (ptr * ptr + ptr) :=
  tl ← RB_LEFT tmp;
  lblack ← rb_is_black tl;
  tr ← RB_RIGHT tmp;
  rblack ← rb_is_black tr;
  if (lblack && rblack)%bool then
    SET_COLOR tmp RB_RED;;
    up ← RB_PARENT parent;
    mret (inl (parent, up))
  else
    tmp ← rb_remove_color_near d parent tmp;
    rb_remove_color_finish d parent tmp.

(** One round of the loop of [RB_REMOVE_COLOR] when [elm] is the [d]-child of
    [parent]. *)
Definition rb_remove_color_round (d : dir) (parent : ptr) : M (ptr * ptr + ptr) :=
  tmp ← RB_CHILD (flip d) parent;
  c ← RB_COLOR tmp;
  tmp ← (if c =? RB_RED then
           RB_SET_BLACKRED tmp parent;;
           RB_ROTATE d parent;;
           RB_CHILD (flip d) parent
         else mret tmp);
  rb_remove_color_black d parent tmp.

Fixpoint rb_remove_color_loop (fuel : nat) (parent elm : ptr) : M ptr :=
  match fuel with
  | O => fail
  | S fuel =>
      black ← rb_is_black elm;
      root ← RB_ROOT;
      if (black && bool_decide (elm ≠ root))%bool then
        l ← RB_LEFT parent;
        next ← (if bool_decide (l = elm)
                then rb_remove_color_round DLeft parent
                else rb_remove_color_round DRight parent);
        match next with
        | inl (elm, parent) => rb_remove_color_loop fuel parent elm
        | inr elm => mret elm
        end
      else mret elm
  end.

Definition RB_REMOVE_COLOR (fuel : nat) (parent elm : ptr) : M unit :=
  elm ← rb_remove_color_loop fuel parent elm;
  if nonnull elm then SET_COLOR elm RB_BLACK else mret tt.

(** Take [elm], which has at most the child [child], out of the tree: the
    statements [RB_REMOVE] has twice. *)
Definition rb_unlink (elm child parent : ptr) : M unit :=
  (if nonnull child then SET_PARENT child parent else mret tt);;
  if nonnull parent then
    l ← RB_LEFT parent;
    (if bool_decide (l = elm) then SET_LEFT parent child
     else SET_RIGHT parent child);;
    RB_AUGMENT parent
  else SET_ROOT child.

(** [while ((left = RB_LEFT(elm))) elm = left;] and its mirror image. *)
Fixpoint rb_walk (fuel : nat) (d : dir) (elm : ptr) : M ptr :=
  match fuel with
  | O => fail
  | S fuel =>
      next ← RB_CHILD d elm;
      if nonnull next then rb_walk fuel d next else mret elm
  end.

(** [do { RB_AUGMENT(left); } while ((left = RB_PARENT(left, field)));] *)
Fixpoint rb_augment_up (fuel : nat) (left : ptr) : M unit :=
  match fuel with
  | O => fail
  | S fuel =>
      RB_AUGMENT left;;
      left ← RB_PARENT left;
      if nonnull left then rb_augment_up fuel left else mret tt
  end.

(** [elm] takes over the fields of [old] and the links to it. *)
Definition rb_replace (old elm : ptr) : M unit :=
  fields ← deref old;
  assign elm (λ _, fields);;
  op ← RB_PARENT old;
  (if nonnull op then
     l ← RB_LEFT op;
     (if bool_decide (l = old) then SET_LEFT op elm else SET_RIGHT op elm);;
     RB_AUGMENT op
   else SET_ROOT elm);;
  ol ← RB_LEFT old;
  SET_PARENT ol elm;;
  or ← RB_RIGHT old;
  (if nonnull or then SET_PARENT or elm else mret tt).

(** The [else] branch of [RB_REMOVE]: [old] has two children and its
    successor takes its place.  The value is [(child, parent, color)]. *)
Definition rb_remove_two (fuel : nat) (old : ptr) : M (ptr * ptr * Z) :=
  elm ← RB_RIGHT old;
  elm ← rb_walk fuel DLeft elm;
  child ← RB_RIGHT elm;
  parent ← RB_PARENT elm;
  color ← RB_COLOR elm;
  rb_unlink elm child parent;;
  ep ← RB_PARENT elm;
  let parent := if bool_decide (ep = old) then elm else parent in
  rb_replace old elm;;
  (if nonnull parent then rb_augment_up fuel parent else mret tt);;
  mret (child, parent, color).

(** [RB_REMOVE] with at most one child: [child] replaces [elm]. *)
Definition rb_remove_one (elm child : ptr) : M (ptr * ptr * Z) :=
  parent ← RB_PARENT elm;
  color ← RB_COLOR elm;
  rb_unlink elm child parent;;
  mret (child, parent, color).

Definition RB_REMOVE (fuel : nat) (elm : ptr) : M ptr :=
  let old := elm in
  l ← RB_LEFT elm;
  cpc ← (if nonnull l then
           r ← RB_RIGHT elm;
           if nonnull r then rb_remove_two fuel old
           else (child ← RB_LEFT elm; rb_remove_one elm child)
         else (child ← RB_RIGHT elm; rb_remove_one elm child));
  let '(child, parent, color) := cpc in
  (if color =? RB_BLACK then RB_REMOVE_COLOR fuel parent child else mret tt);;
  mret old.

(** ** Insertion and search by key *)

Section keyed.
(** The comparison function the tree was generated with. *)
Context (cmp : positive → positive → Z).

Fixpoint rb_insert_loop (fuel : nat) (elm : positive) (tmp parent : ptr) (comp : Z) :
    M (ptr + ptr * Z) :=
  match fuel with
  | O => fail
  | S fuel =>
      match tmp with
      | None => mret (inr (parent, comp))
      | Some x =>
          let parent := tmp in
          let comp := cmp elm x in
          if comp <? 0 then
            tmp ← RB_LEFT tmp; rb_insert_loop fuel elm tmp parent comp
          else if 0 <? comp then
            tmp ← RB_RIGHT tmp; rb_insert_loop fuel elm tmp parent comp
          else mret (inl tmp)
      end
  end.

Definition RB_INSERT (fuel : nat) (elm : positive) : M ptr :=
  tmp ← RB_ROOT;
  found ← rb_insert_loop fuel elm tmp None 0;
  match found with
  | inl tmp => mret tmp
  | inr (parent, comp) =>
      RB_SET (Some elm) parent;;
      (if nonnull parent then
         (if comp <? 0 then SET_LEFT parent (Some elm)
          else SET_RIGHT parent (Some elm));;
         RB_AUGMENT parent
       else SET_ROOT (Some elm));;
      RB_INSERT_COLOR fuel (Some elm);;
      mret None
  end.

Fixpoint rb_find_loop (fuel : nat) (elm : positive) (tmp : ptr) : M ptr :=
  match fuel with
  | O => fail
  | S fuel =>
      match tmp with
      | None => mret None
      | Some x =>
          let comp := cmp elm x in
          if comp <? 0 then tmp ← RB_LEFT tmp; rb_find_loop fuel elm tmp
          else if 0 <? comp then tmp ← RB_RIGHT tmp; rb_find_loop fuel elm tmp
          else mret tmp
      end
  end.

Definition RB_FIND (fuel : nat) (elm : positive) : M ptr :=
  tmp ← RB_ROOT; rb_find_loop fuel elm tmp.

Fixpoint rb_nfind_loop (fuel : nat) (elm : positive) (tmp res : ptr) : M ptr :=
  match fuel with
  | O => fail
  | S fuel =>
      match tmp with
      | None => mret res
      | Some x =>
          let comp := cmp elm x in
          if comp <? 0 then
            let res := tmp in
            tmp ← RB_LEFT tmp; rb_nfind_loop fuel elm tmp res
          else if 0 <? comp then tmp ← RB_RIGHT tmp; rb_nfind_loop fuel elm tmp res
          else mret tmp
      end
  end.

Definition RB_NFIND (fuel : nat) (elm : positive) : M ptr :=
  tmp ← RB_ROOT; rb_nfind_loop fuel elm tmp None.
End keyed.

(** ** Traversal *)

(** [while (RB_PARENT(elm) && elm == child d of RB_PARENT(elm))
       elm = RB_PARENT(elm);] *)
Fixpoint rb_climb (fuel : nat) (d : dir) (elm : ptr) : M ptr :=
  match fuel with
  | O => fail
  | S fuel =>
      parent ← RB_PARENT elm;
      if nonnull parent then
        c ← RB_CHILD d parent;
        if bool_decide (elm = c) then rb_climb fuel d parent else mret elm
      else mret elm
  end.

(** [RB_NEXT] ([d = DRight]) and [RB_PREV] ([d = DLeft]). *)
Definition rb_step (fuel : nat) (d : dir) (elm : ptr) : M ptr :=
  c ← RB_CHILD d elm;
  if nonnull c then rb_walk fuel (flip d) c
  else
    parent ← RB_PARENT elm;
    first ← (if nonnull parent then
               o ← RB_CHILD (flip d) parent; mret (bool_decide (elm = o))
             else mret false);
    if (first : bool) then mret parent
    else elm ← rb_climb fuel d elm; RB_PARENT elm.

Definition RB_NEXT (fuel : nat) (elm : ptr) : M ptr := rb_step fuel DRight elm.
Definition RB_PREV (fuel : nat) (elm : ptr) : M ptr := rb_step fuel DLeft elm.

Definition RB_NEGINF : Z := -1.
Definition RB_INF : Z := 1.

Fixpoint rb_minmax_loop (fuel : nat) (val : Z) (tmp parent : ptr) : M ptr :=
  match fuel with
  | O => fail
  | S fuel =>
      if nonnull tmp then
        let parent := tmp in
        tmp ← (if val <? 0 then RB_LEFT tmp else RB_RIGHT tmp);
        rb_minmax_loop fuel val tmp parent
      else mret parent
  end.

Definition RB_MINMAX (fuel : nat) (val : Z) : M ptr :=
  tmp ← RB_ROOT; rb_minmax_loop fuel val tmp None.

Definition RB_MIN (fuel : nat) : M ptr := RB_MINMAX fuel RB_NEGINF.
Definition RB_MAX (fuel : nat) : M ptr := RB_MINMAX fuel RB_INF.

(** A [RB_FOREACH] loop with the given body, and its value: the elements the
    body was run on.  [RB_FOREACH_REVERSE] likewise with [d = DLeft]. *)
Fixpoint rb_foreach_loop (bound fuel : nat) (d : dir) (body : positive → M unit)
    (x : ptr) : M (list positive) :=
  match fuel with
  | O => fail
  | S fuel =>
      match x with
      | None => mret []
      | Some e =>
          body e;;
          x ← rb_step bound d x;
          l ← rb_foreach_loop bound fuel d body x;
          mret (e :: l)
      end
  end.

Definition RB_FOREACH (fuel : nat) (body : positive → M unit) : M (list positive) :=
  x ← RB_MIN fuel; rb_foreach_loop fuel fuel DRight body x.

Definition RB_FOREACH_REVERSE (fuel : nat) (body : positive → M unit) : M (list positive) :=
  x ← RB_MAX fuel; rb_foreach_loop fuel fuel DLeft body x.

(** The [_SAFE] loops step before the body runs. *)
Fixpoint rb_foreach_safe_loop (bound fuel : nat) (d : dir) (body : positive → M unit)
    (x : ptr) : M (list positive) :=
  match fuel with
  | O => fail
  | S fuel =>
      match x with
      | None => mret []
      | Some e =>
          y ← rb_step bound d x;
          body e;;
          l ← rb_foreach_safe_loop bound fuel d body y;
          mret (e :: l)
      end
  end.

Definition RB_FOREACH_SAFE (fuel : nat) (body : positive → M unit) : M (list positive) :=
  x ← RB_MIN fuel; rb_foreach_safe_loop fuel fuel DRight body x.

Definition RB_FOREACH_REVERSE_SAFE (fuel : nat) (body : positive → M unit) : M (list positive) :=
  x ← RB_MAX fuel; rb_foreach_safe_loop fuel fuel DLeft body x.

Arguments deref _ _ : simpl never.
Arguments assign _ _ _ : simpl never.
Arguments RB_CHILD _ _ _ : simpl never.
Arguments RB_PARENT _ _ : simpl never.
Arguments RB_COLOR _ _ : simpl never.
Arguments SET_CHILD _ _ _ _ : simpl never.
Arguments SET_PARENT _ _ _ : simpl never.
Arguments SET_COLOR _ _ _ : simpl never.
Arguments SET_ROOT _ _ : simpl never.
Arguments RB_ROOT _ : simpl never.
