(* ===== verification/RBProof.v ===== *)
(** The red-black tree macros implement ordered sequences.

    [Rep F N s t k] says that the memory of [s] holds the tree [t] plugged into
    the context [k], with consistent parent links, and that outside the nodes
    [N] it is still [F].  Every macro is run on such states and lands on the
    state that represents the result of its counterpart in [RBSpec]. *)
From Stdlib Require Import ZArith Lia.
From stdpp Require Import prelude gmap.
From S2P Require Import Prelude Ordered RBSpec RBTree.

(** ** Representation *)

Definition cval (c : color) : Z :=
  match c with Red => RB_RED | Black => RB_BLACK end.

(** The entry of a node seen from the side [d]. *)
Definition mkent (d : dir) (a b par : ptr) (c : color) : rb_entry :=
  match d with
  | DLeft => RbEntry a b par (cval c)
  | DRight => RbEntry b a par (cval c)
  end.

Fixpoint rep (m : gmap positive rb_entry) (par : ptr) (t : tree) : Prop :=
  match t with
  | Leaf => True
  | Node c l x r =>
      m !! x = Some (RbEntry (root_of l) (root_of r) par (cval c)) ∧
      rep m (Some x) l ∧ rep m (Some x) r
  end.

Definition parent_of (k : ctx) : ptr :=
  match k with [] => None | f :: _ => Some (fx f) end.

Fixpoint rep_ctx (m : gmap positive rb_entry) (root hole : ptr) (k : ctx) : Prop :=
  match k with
  | [] => root = hole
  | Fr d c x s :: k =>
      m !! x = Some (mkent d hole (root_of s) (parent_of k) c) ∧
      rep m (Some x) s ∧ rep_ctx m root (Some x) k
  end.

Definition Rep (F : gmap positive rb_entry) (N : list positive)
    (s : rb_state) (t : tree) (k : ctx) : Prop :=
  rep (rb_mem s) (parent_of k) t ∧
  rep_ctx (rb_mem s) (rbh_root s) (root_of t) k ∧
  NoDup (inorder t ++ nodes k) ∧
  (∀ z, z ∈ inorder t ++ nodes k → z ∈ N) ∧
  (∀ z, z ∉ N → rb_mem s !! z = F !! z).

Lemma mk_flip d c a x b : mk (flip d) c a x b = mk d c b x a.
Proof. by destruct d. Qed.

Lemma root_of_mk d c a x b : root_of (mk d c a x b) = Some x.
Proof. by destruct d. Qed.

Lemma occ_mk z d c a x b :
  occ z (inorder (mk d c a x b)) = occ z (inorder a) + occ z [x] + occ z (inorder b).
Proof. destruct d; simpl; occ_split; lia. Qed.

Lemma occ_node z c l x r :
  occ z (inorder (Node c l x r)) = occ z (inorder l) + occ z [x] + occ z (inorder r).
Proof. apply (occ_mk z DLeft c l x r). Qed.

Lemma occ_frame z d c x s k :
  occ z (nodes (Fr d c x s :: k)) = occ z [x] + occ z (inorder s) + occ z (nodes k).
Proof. simpl. occ_split. lia. Qed.

#[export] Hint Rewrite occ_mk occ_node occ_frame : occ.

Lemma plug_perm k t : inorder (plug k t) ≡ₚ inorder t ++ nodes k.
Proof.
  revert t; induction k as [|[d c x u] k IH]; intros t; simpl.
  - by rewrite app_nil_r.
  - rewrite IH. unfold plug1; simpl. occs.
Qed.

Lemma rep_mk m par d c a x b :
  rep m par (mk d c a x b) ↔
  m !! x = Some (mkent d (root_of a) (root_of b) par c) ∧
  rep m (Some x) a ∧ rep m (Some x) b.
Proof. destruct d; simpl; naive_solver. Qed.

Lemma rep_ext m m' par t :
  (∀ z, z ∈ inorder t → m' !! z = m !! z) → rep m par t → rep m' par t.
Proof.
  revert par; induction t as [|c l IHl x r IHr]; intros par Hm; simpl in *; [done|].
  intros (Hx & Hl & Hr). split_and!.
  - rewrite Hm; [done|set_solver].
  - apply IHl; [|done]. intros; apply Hm; set_solver.
  - apply IHr; [|done]. intros; apply Hm; set_solver.
Qed.

Lemma rep_ctx_ext m m' root hole k :
  (∀ z, z ∈ nodes k → m' !! z = m !! z) →
  rep_ctx m root hole k → rep_ctx m' root hole k.
Proof.
  revert hole; induction k as [|[d c x s] k IH]; intros hole Hm; simpl in *; [done|].
  intros (Hx & Hs & Hk). split_and!.
  - rewrite Hm; [done|set_solver].
  - eapply rep_ext; [|done]. intros; apply Hm; set_solver.
  - apply IH; [|done]. intros; apply Hm; set_solver.
Qed.

(** ** Moving the focus *)

Lemma Rep_up F N s t f k : Rep F N s t (f :: k) ↔ Rep F N s (plug1 t f) k.
Proof.
  destruct f as [d c x u]. unfold Rep, plug1; simpl.
  rewrite rep_mk, root_of_mk.
  assert (inorder t ++ x :: inorder u ++ nodes k ≡ₚ
          inorder (mk d c t x u) ++ nodes k) as E by occs.
  setoid_rewrite E. tauto.
Qed.

Lemma Rep_plug F N s t k : Rep F N s t k ↔ Rep F N s (plug k t) [].
Proof.
  revert t; induction k as [|f k IH]; intros t; [done|].
  by rewrite Rep_up, IH.
Qed.

(** To the other child of the parent. *)
Lemma Rep_side F N s t d c x u k :
  Rep F N s t (Fr d c x u :: k) ↔ Rep F N s u (Fr (flip d) c x t :: k).
Proof. rewrite !Rep_up. unfold plug1; simpl. by rewrite mk_flip. Qed.

Lemma Rep_down F N s d c a x b k :
  Rep F N s (mk d c a x b) k ↔ Rep F N s a (Fr d c x b :: k).
Proof. by rewrite Rep_up. Qed.

(** ** Field access on represented trees *)

Lemma deref_run s x e : rb_mem s !! x = Some e → deref (Some x) s = Some (e, s).
Proof. intros H. unfold deref; simpl. by rewrite H. Qed.

Lemma assign_run s x e f :
  rb_mem s !! x = Some e →
  assign (Some x) f s = Some (tt, RbState (rbh_root s) (<[x := f e]> (rb_mem s))).
Proof. intros H. unfold assign; simpl. by rewrite H. Qed.

Lemma assign_alter s x e f :
  rb_mem s !! x = Some e →
  assign (Some x) f s = Some (tt, RbState (rbh_root s) (alter f x (rb_mem s))).
Proof.
  intros H. rewrite (assign_run _ _ _ _ H). do 3 f_equal.
  apply map_eq; intros z. destruct (decide (z = x)) as [->|].
  - by rewrite lookup_insert_eq, lookup_alter_eq, H.
  - by rewrite lookup_insert_ne, lookup_alter_ne.
Qed.

Lemma child_run d s x e :
  rb_mem s !! x = Some e → RB_CHILD d (Some x) s = Some (child d e, s).
Proof. intros H. unfold RB_CHILD. by rewrite (bind_run _ _ _ _ _ (deref_run s x e H)). Qed.

Lemma parent_run s x e :
  rb_mem s !! x = Some e → RB_PARENT (Some x) s = Some (rbe_parent e, s).
Proof. intros H. unfold RB_PARENT. by rewrite (bind_run _ _ _ _ _ (deref_run s x e H)). Qed.

Lemma color_run s x e :
  rb_mem s !! x = Some e → RB_COLOR (Some x) s = Some (rbe_color e, s).
Proof. intros H. unfold RB_COLOR. by rewrite (bind_run _ _ _ _ _ (deref_run s x e H)). Qed.

Lemma root_run s : RB_ROOT s = Some (rbh_root s, s).
Proof. done. Qed.

Lemma child_mkent d a b par c : child d (mkent d a b par c) = a.
Proof. by destruct d. Qed.

Lemma child_flip_mkent d a b par c : child (flip d) (mkent d a b par c) = b.
Proof. by destruct d. Qed.

Lemma mkent_flip d a b par c : mkent (flip d) b a par c = mkent d a b par c.
Proof. by destruct d. Qed.

Lemma parent_mkent d a b par c : rbe_parent (mkent d a b par c) = par.
Proof. by destruct d. Qed.

Lemma color_mkent d a b par c : rbe_color (mkent d a b par c) = cval c.
Proof. by destruct d. Qed.

Lemma with_child_mkent d a b par c a' :
  with_child d a' (mkent d a b par c) = mkent d a' b par c.
Proof. by destruct d. Qed.

Lemma with_child_flip_mkent d a b par c b' :
  with_child (flip d) b' (mkent d a b par c) = mkent d a b' par c.
Proof. by destruct d. Qed.

Lemma with_parent_mkent d a b par c par' :
  with_parent par' (mkent d a b par c) = mkent d a b par' c.
Proof. by destruct d. Qed.

Lemma with_color_mkent d a b par c c' :
  with_color (cval c') (mkent d a b par c) = mkent d a b par c'.
Proof. by destruct d. Qed.

Create Rewrite HintDb ent.
#[export] Hint Rewrite child_mkent child_flip_mkent parent_mkent color_mkent
  with_child_mkent with_child_flip_mkent with_parent_mkent with_color_mkent
  flip_flip : ent.

(** ** Redirecting the links into and out of a subtree *)

(** The memory after the parent link of the node [p], if any, is set. *)
Definition reparent (p q : ptr) (m : gmap positive rb_entry) :=
  match p with None => m | Some z => alter (with_parent q) z m end.

(** The state after the link to the hole of [k] is set. *)
Definition rehole (k : ctx) (v : ptr) (s : rb_state) : rb_state :=
  match k with
  | [] => RbState v (rb_mem s)
  | Fr d _ x _ :: _ => RbState (rbh_root s) (alter (with_child d v) x (rb_mem s))
  end.

Lemma reparent_run par t q s :
  rep (rb_mem s) par t →
  (if nonnull (root_of t) then SET_PARENT (root_of t) q else mret tt) s =
  Some (tt, RbState (rbh_root s) (reparent (root_of t) q (rb_mem s))).
Proof.
  destruct t as [|c l x r]; simpl; [by destruct s|]. intros (Hx & _).
  by apply (assign_alter _ _ _ _ Hx).
Qed.

Lemma reparent_ne t q m z : z ∉ inorder t → reparent (root_of t) q m !! z = m !! z.
Proof.
  destruct t as [|c l x r]; [done|]. simpl. intros Hz.
  apply lookup_alter_ne. set_solver.
Qed.

Lemma reparent_dom t q m z par :
  rep m par t → is_Some (m !! z) → is_Some (reparent (root_of t) q m !! z).
Proof.
  destruct t as [|c l x r]; [done|]. simpl. intros _ [e He].
  destruct (decide (z = x)) as [->|].
  - rewrite lookup_alter_eq, He. by eexists.
  - rewrite lookup_alter_ne by done. by eexists.
Qed.

Lemma rep_reparent m par q t :
  NoDup (inorder t) → rep m par t → rep (reparent (root_of t) q m) q t.
Proof.
  destruct t as [|c l x r]; [done|]. simpl. intros Hnd (Hx & Hl & Hr).
  rewrite lookup_alter_eq, Hx. split_and!; [done| |].
  - eapply rep_ext; [|done]. intros z Hz. apply lookup_alter_ne. occs.
  - eapply rep_ext; [|done]. intros z Hz. apply lookup_alter_ne. occs.
Qed.

(** The conditional assignment to the root or to a child of the parent. *)
Lemma rehole_run m k s root hole v old :
  rep_ctx m root (Some old) k → old ∉ nodes k →
  (∀ z, z ∈ nodes k → rb_mem s !! z = m !! z) →
  hole = Some old →
  (if nonnull (parent_of k) then
     l ← RB_LEFT (parent_of k);
     if bool_decide (hole = l) then SET_LEFT (parent_of k) v
     else SET_RIGHT (parent_of k) v
   else SET_ROOT v) s = Some (tt, rehole k v s).
Proof.
  intros Hk Hold Hm ->. destruct k as [|[d c x u] k]; [done|].
  simpl in Hk. destruct Hk as (Hx & Hu & _).
  rewrite <-(Hm x) in Hx by set_solver. simpl.
  unfold RB_LEFT. erewrite bind_run by (by apply child_run).
  assert (root_of u ≠ Some old) as Hne.
  { destruct u; [done|]. simpl in *. intros [= ->]. set_solver. }
  destruct d; simpl.
  - rewrite bool_decide_true by done. by apply (assign_alter _ _ _ _ Hx).
  - rewrite bool_decide_false by done. by apply (assign_alter _ _ _ _ Hx).
Qed.

(** The same assignment as [RB_REMOVE] writes it. *)
Lemma relink_run m k s root v old :
  rep_ctx m root (Some old) k → old ∉ nodes k →
  (∀ z, z ∈ nodes k → rb_mem s !! z = m !! z) →
  (if nonnull (parent_of k) then
     l ← RB_LEFT (parent_of k);
     (if bool_decide (l = Some old) then SET_LEFT (parent_of k) v
      else SET_RIGHT (parent_of k) v);;
     RB_AUGMENT (parent_of k)
   else SET_ROOT v) s = Some (tt, rehole k v s).
Proof.
  intros Hk Hold Hm.
  pose proof (rehole_run m k s root _ v old Hk Hold Hm eq_refl) as E.
  destruct (nonnull (parent_of k)); [|exact E].
  destruct (RB_LEFT (parent_of k) s) as [[l s2]|] eqn:El.
  - rewrite (bind_run _ _ _ _ _ El). rewrite (bind_run _ _ _ _ _ El) in E.
    rewrite (bool_decide_ext (l = Some old) (Some old = l)) by done.
    by rewrite (bind_run _ _ _ _ _ E).
  - unfold mbind, ST_bind in E. by rewrite El in E.
Qed.

Lemma rehole_ne k v s z : z ∉ nodes k → rb_mem (rehole k v s) !! z = rb_mem s !! z.
Proof.
  destruct k as [|[d c x u] k]; [done|]. simpl. intros Hz.
  apply lookup_alter_ne. set_solver.
Qed.

Lemma rep_rehole m k s hole v :
  NoDup (nodes k) → rep_ctx m (rbh_root s) hole k →
  (∀ z, z ∈ nodes k → rb_mem s !! z = m !! z) →
  rep_ctx (rb_mem (rehole k v s)) (rbh_root (rehole k v s)) v k.
Proof.
  intros Hnd Hk Hm. destruct k as [|[d c x u] k]; [done|].
  simpl in *. destruct Hk as (Hx & Hu & Hk).
  rewrite lookup_alter_eq, (Hm x), Hx by set_solver. simpl.
  rewrite with_child_mkent. split_and!; [done| |].
  - eapply rep_ext; [|done]. intros z Hz.
    rewrite lookup_alter_ne by occs. apply Hm. set_solver.
  - eapply rep_ctx_ext; [|done]. intros z Hz.
    rewrite lookup_alter_ne by occs. apply Hm. set_solver.
Qed.

(** Run the first computation of a bind by a lemma that gives the state after
    it, and continue from the new representation. *)
Ltac mstep L HR :=
  let s' := fresh "s" in
  let E := fresh "E" in
  let H := fresh "H" in
  destruct L as (s' & E & H);
  rewrite (bind_run _ _ _ _ _ E); clear E HR; rename H into HR.

Section represented.
Context (F : gmap positive rb_entry) (N : list positive).
Implicit Types (s : rb_state) (t a b : tree) (k : ctx).

Lemma Rep_lookup s d c a x b k :
  Rep F N s (mk d c a x b) k →
  rb_mem s !! x = Some (mkent d (root_of a) (root_of b) (parent_of k) c).
Proof. intros (H & _). by apply rep_mk in H as (? & _). Qed.

Lemma Rep_lookup_frame s t d c x u k :
  Rep F N s t (Fr d c x u :: k) →
  rb_mem s !! x = Some (mkent d (root_of t) (root_of u) (parent_of k) c).
Proof. rewrite <-Rep_down. apply Rep_lookup. Qed.

Lemma Rep_root s k t : Rep F N s t k →
  rbh_root s = root_of (plug k t).
Proof. rewrite Rep_plug. by intros (_ & H & _). Qed.

Lemma Rep_set_color c' s d c a x b k :
  Rep F N s (mk d c a x b) k →
  ∃ s', SET_COLOR (Some x) (cval c') s = Some (tt, s') ∧
        Rep F N s' (mk d c' a x b) k.
Proof.
  intros HR. pose proof (Rep_lookup _ _ _ _ _ _ _ HR) as Hx.
  eexists; split; [by apply (assign_run s x _ _ Hx)|].
  destruct HR as (Ht & Hk & Hnd & HN & HF).
  assert (Hxin : x ∈ N) by (apply HN; occs).
  rewrite root_of_mk in Hk. apply rep_mk in Ht as (_ & Ha & Hb).
  unfold Rep; simpl. rewrite rep_mk, root_of_mk, lookup_insert_eq.
  autorewrite with ent. split_and!.
  - done.
  - eapply rep_ext; [|done]. intros z Hz. apply lookup_insert_ne. occs.
  - eapply rep_ext; [|done]. intros z Hz. apply lookup_insert_ne. occs.
  - eapply rep_ctx_ext; [|done]. intros z Hz. apply lookup_insert_ne. occs.
  - occs.
  - intros z Hz. apply HN. occs.
  - intros z Hz. rewrite lookup_insert_ne by (by intros ->). by apply HF.
Qed.

Lemma Rep_paint c' cz s t k z :
  cz = cval c' → root_of t = Some z → Rep F N s t k →
  ∃ s', SET_COLOR (Some z) cz s = Some (tt, s') ∧ Rep F N s' (paint c' t) k.
Proof.
  intros -> Hz HR. destruct t as [|c l x r]; [done|]. injection Hz as ->.
  apply (Rep_set_color c' s DLeft c l z r k HR).
Qed.

Lemma Rep_paint_set c' cz s d c a x b k :
  cz = cval c' → Rep F N s (mk d c a x b) k →
  ∃ s', SET_COLOR (Some x) cz s = Some (tt, s') ∧
        Rep F N s' (mk d c' a x b) k.
Proof. intros -> HR. by apply (Rep_set_color c' s d c). Qed.

(** The colour of the parent. *)
Lemma Rep_paint_frame c' cz s t d c x u k :
  cz = cval c' → Rep F N s t (Fr d c x u :: k) →
  ∃ s', SET_COLOR (Some x) cz s = Some (tt, s') ∧
        Rep F N s' t (Fr d c' x u :: k).
Proof.
  intros -> HR. rewrite <-Rep_down in HR.
  destruct (Rep_set_color c' _ _ _ _ _ _ _ HR) as (s' & E & HR').
  exists s'. by rewrite <-Rep_down.
Qed.

Lemma rep_is_red s par t :
  rep (rb_mem s) par t →
  rb_is_red (root_of t) s = Some (bool_decide (root_color t = Red), s).
Proof.
  destruct t as [|c l x r]; [done|]. simpl. intros (Hx & _).
  unfold rb_is_red; simpl. erewrite bind_run by by apply color_run.
  by destruct c.
Qed.

Lemma rep_is_black s par t :
  rep (rb_mem s) par t →
  rb_is_black (root_of t) s = Some (bool_decide (root_color t = Black), s).
Proof.
  destruct t as [|c l x r]; [done|]. simpl. intros (Hx & _).
  unfold rb_is_black; simpl. erewrite bind_run by by apply color_run.
  by destruct c.
Qed.

Lemma Rep_frame_red s t d c p u k :
  Rep F N s t (Fr d c p u :: k) →
  rb_is_red (Some p) s = Some (bool_decide (c = Red), s).
Proof.
  intros HR. unfold rb_is_red; simpl.
  erewrite bind_run by eapply color_run, (Rep_lookup_frame _ _ _ _ _ _ _ HR).
  rewrite color_mkent. by destruct c.
Qed.

Lemma Rep_focus s t k : Rep F N s t k → rep (rb_mem s) (parent_of k) t.
Proof. by intros (? & _). Qed.

Lemma Rep_sibling s t d c x u k :
  Rep F N s t (Fr d c x u :: k) → rep (rb_mem s) (Some x) u.
Proof. rewrite Rep_side. apply Rep_focus. Qed.

(** ** Rotations *)

Section rotate.
Context (s : rb_state) (d : dir) (c : color) (a : tree) (x : positive)
  (c' : color) (b : tree) (y : positive) (e : tree) (k : ctx).
Hypothesis HR : Rep F N s (mk d c a x (mk d c' b y e)) k.

(** The memory after [x] adopts the inner subtree, after [y] gets the
    parent of [x], and at the end. *)
Let m2 := reparent (root_of b) (Some x)
  (<[x := mkent d (root_of a) (root_of b) (parent_of k) c]> (rb_mem s)).
Let m3 := <[y := mkent d (root_of b) (root_of e) (parent_of k) c']> m2.
Let s4 := rehole k (Some y) (RbState (rbh_root s) m3).
Definition rotated : rb_state := RbState (rbh_root s4)
  (<[x := mkent d (root_of a) (root_of b) (Some y) c]>
    (<[y := mkent d (Some x) (root_of e) (parent_of k) c']> (rb_mem s4))).

Local Lemma rotate_parts :
  NoDup (inorder (mk d c a x (mk d c' b y e)) ++ nodes k) ∧
  rb_mem s !! x = Some (mkent d (root_of a) (Some y) (parent_of k) c) ∧
  rb_mem s !! y = Some (mkent d (root_of b) (root_of e) (Some x) c') ∧
  rep (rb_mem s) (Some x) a ∧ rep (rb_mem s) (Some y) b ∧
  rep (rb_mem s) (Some y) e ∧ rep_ctx (rb_mem s) (rbh_root s) (Some x) k.
Proof.
  destruct HR as (Ht & Hk & Hnd & _).
  rewrite root_of_mk in Hk. rewrite !rep_mk, !root_of_mk in Ht. naive_solver.
Qed.

Local Lemma m2_ne z :
  z ≠ x → z ∉ inorder b → m2 !! z = rb_mem s !! z.
Proof.
  intros ??. unfold m2. by rewrite reparent_ne, lookup_insert_ne by done.
Qed.

Local Lemma m2_x : m2 !! x = Some (mkent d (root_of a) (root_of b) (parent_of k) c).
Proof.
  destruct rotate_parts as (Hnd & _). unfold m2.
  rewrite reparent_ne by occs. apply lookup_insert_eq.
Qed.

Local Lemma s4_x :
  rb_mem s4 !! x = Some (mkent d (root_of a) (root_of b) (parent_of k) c).
Proof.
  destruct rotate_parts as (Hnd & _). unfold s4.
  rewrite rehole_ne by occs. simpl. unfold m3.
  rewrite lookup_insert_ne by occs. apply m2_x.
Qed.

Local Lemma s4_y :
  rb_mem s4 !! y = Some (mkent d (root_of b) (root_of e) (parent_of k) c').
Proof.
  destruct rotate_parts as (Hnd & _). unfold s4.
  rewrite rehole_ne by occs. apply lookup_insert_eq.
Qed.

Local Lemma rotated_ne z :
  z ≠ x → z ≠ y → z ∉ inorder b → z ∉ nodes k →
  rb_mem rotated !! z = rb_mem s !! z.
Proof.
  intros ????. unfold rotated, s4, m3; simpl.
  rewrite !lookup_insert_ne, rehole_ne by done. simpl.
  rewrite lookup_insert_ne by done. by apply m2_ne.
Qed.

(** The inner subtree is handed over. *)
Local Lemma rotate_inner_run :
  (if nonnull (root_of b) then
     inner ← RB_CHILD d (Some y); SET_PARENT inner (Some x)
   else mret tt)
    (RbState (rbh_root s)
      (<[x := mkent d (root_of a) (root_of b) (parent_of k) c]> (rb_mem s))) =
  Some (tt, RbState (rbh_root s) m2).
Proof.
  destruct rotate_parts as (Hnd & Hx & Hy & Ha & Hb & He & Hk).
  set (s1 := RbState _ _).
  etransitivity; [|apply (reparent_run (Some y) b (Some x) s1)].
  - destruct (root_of b) eqn:Eb; [simpl|done].
    erewrite bind_run.
    2: { apply child_run. simpl. rewrite lookup_insert_ne by occs. exact Hy. }
    by rewrite child_mkent.
  - eapply rep_ext; [|exact Hb]. intros z Hz. apply lookup_insert_ne. occs.
Qed.

Local Lemma rotate_repoint_run :
  rb_repoint (Some x) (Some y) (RbState (rbh_root s) m3) = Some (tt, s4).
Proof.
  destruct rotate_parts as (Hnd & Hx & Hy & Ha & Hb & He & Hk).
  unfold rb_repoint. erewrite bind_run.
  2: { apply parent_run. simpl. unfold m3.
       rewrite lookup_insert_ne by occs. apply m2_x. }
  rewrite parent_mkent.
  apply (rehole_run (rb_mem s) k _ (rbh_root s) _ _ x); [done|occs| |done].
  intros z Hz. simpl. unfold m3.
  rewrite lookup_insert_ne by occs. apply m2_ne; occs.
Qed.

Lemma rotate_run : RB_ROTATE d (Some x) s = Some (Some y, rotated).
Proof.
  destruct rotate_parts as (Hnd & Hx & Hy & Ha & Hb & He & Hk).
  assert (Hxy : x ≠ y) by occs.
  unfold RB_ROTATE.
  erewrite bind_run by by apply child_run. rewrite child_flip_mkent.
  erewrite bind_run by by apply child_run. rewrite child_mkent.
  erewrite bind_run by by apply (assign_run _ _ _ _ Hx).
  rewrite with_child_flip_mkent.
  erewrite bind_run by apply rotate_inner_run.
  erewrite bind_run by done.
  erewrite bind_run by (apply parent_run, m2_x). rewrite parent_mkent.
  erewrite bind_run.
  2: { apply assign_run. simpl. rewrite m2_ne by occs. exact Hy. }
  simpl. rewrite with_parent_mkent.
  erewrite bind_run by apply rotate_repoint_run.
  erewrite bind_run by apply (assign_run _ _ _ _ s4_y).
  rewrite with_child_mkent.
  erewrite bind_run.
  2: { apply assign_run. simpl. rewrite lookup_insert_ne by done. apply s4_x. }
  simpl. rewrite with_parent_mkent.
  erewrite bind_run by done.
  erewrite bind_run.
  2: { apply parent_run. simpl. rewrite lookup_insert_ne by done.
       apply lookup_insert_eq. }
  rewrite parent_mkent. by destruct (nonnull (parent_of k)).
Qed.

Local Lemma rotated_hole :
  rep_ctx (rb_mem rotated) (rbh_root rotated) (Some y) k.
Proof.
  destruct rotate_parts as (Hnd & Hx & Hy & Ha & Hb & He & Hk).
  eapply (rep_ctx_ext (rb_mem s4)).
  - intros z Hz. unfold rotated; simpl. by rewrite !lookup_insert_ne by occs.
  - eapply (rep_rehole (rb_mem s)); [occs|exact Hk|]. simpl.
    intros z Hz. unfold m3. rewrite lookup_insert_ne by occs. apply m2_ne; occs.
Qed.

Lemma Rep_rotated : Rep F N rotated (mk d c' (mk d c a x b) y e) k.
Proof.
  destruct rotate_parts as (Hnd & Hx & Hy & Ha & Hb & He & Hk).
  destruct HR as (_ & _ & _ & HN & HF).
  unfold Rep. rewrite rep_mk, rep_mk, !root_of_mk. split_and!.
  - simpl. rewrite lookup_insert_ne by occs. apply lookup_insert_eq.
  - apply lookup_insert_eq.
  - eapply rep_ext; [|exact Ha]. intros z Hz. apply rotated_ne; occs.
  - apply (rep_ext m2); [|apply (rep_reparent _ (Some y)); [occs|]].
    + intros z Hz. unfold rotated, s4, m3; simpl.
      rewrite !lookup_insert_ne, rehole_ne by occs. simpl.
      apply lookup_insert_ne. occs.
    + eapply rep_ext; [|exact Hb]. intros z Hz. apply lookup_insert_ne. occs.
  - eapply rep_ext; [|exact He]. intros z Hz. apply rotated_ne; occs.
  - apply rotated_hole.
  - occs.
  - intros z Hz. apply HN. occs.
  - intros z Hz.
    assert (z ∉ inorder (mk d c a x (mk d c' b y e)) ++ nodes k) as Hz'
      by (intros Hz'; by apply Hz, HN).
    rewrite <-HF by done. apply rotated_ne; occs.
Qed.
End rotate.

(** [RB_ROTATE_LEFT] and [RB_ROTATE_RIGHT]: the [flip d]-child [y] takes the
    place of [x]; the order of the nodes and their colours are kept. *)
Lemma Rep_rotate s d c a x c' b y e k :
  Rep F N s (mk d c a x (mk d c' b y e)) k →
  ∃ s', RB_ROTATE d (Some x) s = Some (Some y, s') ∧
        Rep F N s' (mk d c' (mk d c a x b) y e) k.
Proof. intros HR. eexists. split; [by apply rotate_run|by apply Rep_rotated]. Qed.

(** The mirror image, written from the same side. *)
Lemma Rep_rotate_flip s d c c' e y b x a k :
  Rep F N s (mk d c (mk d c' e y b) x a) k →
  ∃ s', RB_ROTATE (flip d) (Some x) s = Some (Some y, s') ∧
        Rep F N s' (mk d c' e y (mk d c b x a)) k.
Proof.
  intros HR.
  destruct (Rep_rotate s (flip d) c a x c' b y e k) as (s' & E & HR').
  - by rewrite !mk_flip.
  - exists s'. by rewrite !mk_flip in HR'.
Qed.

(** [RB_SET_BLACKRED] on a node [p] and its parent [g]. *)
Lemma Rep_blackred s d c t p st dg cg g u k :
  Rep F N s (mk dg cg (mk d c t p st) g u) k →
  ∃ s', RB_SET_BLACKRED (Some p) (Some g) s = Some (tt, s') ∧
        Rep F N s' (mk dg Red (mk d Black t p st) g u) k.
Proof.
  intros HR. unfold RB_SET_BLACKRED. rewrite Rep_down in HR.
  mstep (Rep_paint_set Black RB_BLACK _ _ _ _ _ _ _ eq_refl HR) HR.
  rewrite <-Rep_down in HR.
  destruct (Rep_paint_set Red RB_RED _ _ _ _ _ _ _ eq_refl HR) as (s' & E & HR').
  eauto.
Qed.

(** ** Insertion repair *)

(** The uncle is red: recolour and go on at the grandparent. *)
Lemma insert_round_red s t x d p st dg g u k :
  root_of t = Some x → root_color u = Red →
  Rep F N s t (Fr d Red p st :: Fr dg Black g u :: k) →
  ∃ s', rb_insert_color_round dg (Some x) (Some p) (Some g) s = Some (Some g, s') ∧
    Rep F N s' (mk dg Red (mk d Black t p st) g (paint Black u)) k.
Proof.
  intros Hx Hu HR. unfold rb_insert_color_round. rewrite <-Rep_down in HR.
  erewrite bind_run by eapply child_run, (Rep_lookup_frame _ _ _ _ _ _ _ HR).
  rewrite child_flip_mkent.
  erewrite bind_run by eapply rep_is_red, (Rep_sibling _ _ _ _ _ _ _ HR).
  rewrite bool_decide_true by done.
  destruct (root_of u) as [z|] eqn:Hz; [|by destruct u].
  rewrite Rep_side in HR.
  mstep (Rep_paint Black RB_BLACK _ _ _ z eq_refl Hz HR) HR.
  rewrite Rep_side, flip_flip, <-Rep_down in HR.
  mstep (Rep_blackred _ _ _ _ _ _ _ _ _ _ _ HR) HR.
  eauto.
Qed.

(** The uncle is black: one or two rotations, and the parent of the new focus
    is black. *)
Lemma insert_round_black s c l x r d p st dg g u k (t := Node c l x r) :
  root_color u = Black →
  Rep F N s t (Fr d Red p st :: Fr dg Black g u :: k) →
  ∃ s' e t' f, rb_insert_color_round dg (Some x) (Some p) (Some g) s = Some (e, s') ∧
    Rep F N s' t' (f :: k) ∧ root_of t' = e ∧ fc f = Black ∧ is_Some e ∧
    ins_color t (Fr d Red p st :: Fr dg Black g u :: k) = paint Black (plug (f :: k) t').
Proof.
  intros Hu HR. unfold rb_insert_color_round. rewrite <-Rep_down in HR.
  erewrite bind_run by eapply child_run, (Rep_lookup_frame _ _ _ _ _ _ _ HR).
  rewrite child_flip_mkent.
  erewrite bind_run by eapply rep_is_red, (Rep_sibling _ _ _ _ _ _ _ HR).
  rewrite bool_decide_false by congruence.
  simpl ins_color. rewrite Hu.
  erewrite bind_run by eapply child_run, (Rep_lookup _ _ _ _ _ _ _ HR).
  case_decide as Ed.
  - subst dg. rewrite child_flip_mkent, bool_decide_false.
    2: { intros Hst. destruct HR as (_ & _ & Hnd & _).
         destruct st as [|cs sl w sr]; [done|]. injection Hst as ->. subst t.
         occ_norm; occ_at x; lia. }
    rewrite (bind_run _ _ _ _ _ (ret_run _ _)). cbn [fst snd].
    rewrite <-Rep_down in HR.
    mstep (Rep_blackred _ _ _ _ _ _ _ _ _ _ _ HR) HR.
    mstep (Rep_rotate_flip _ _ _ _ _ _ _ _ _ _ HR) HR.
    rewrite Rep_down in HR.
    do 4 eexists; split_and!; [done|exact HR|done..].
  - assert (d = flip dg) as -> by by dirs.
    rewrite mk_flip in HR. rewrite child_mkent, bool_decide_true by done.
    assert (Ht : t = mk dg c (near dg t) x (near (flip dg) t)) by by dirs.
    rewrite Ht in HR.
    destruct (Rep_rotate _ _ _ _ _ _ _ _ _ _ HR) as (s1 & E & HR1).
    erewrite bind_run by (rewrite (bind_run _ _ _ _ _ E); apply ret_run).
    clear E. cbn [fst snd].
    rewrite <-Rep_down in HR1.
    mstep (Rep_blackred _ _ _ _ _ _ _ _ _ _ _ HR1) HR1.
    mstep (Rep_rotate_flip _ _ _ _ _ _ _ _ _ _ HR1) HR1.
    rewrite Rep_down in HR1.
    do 4 eexists; split_and!; [done|exact HR1|apply root_of_mk|done|done|].
    by destruct dg.
Qed.

(** The loop looks at the left child of the grandparent to tell the sides. *)
Lemma Rep_left_test s t p d c st dg cg g u k :
  Rep F N s t (Fr d c p st :: Fr dg cg g u :: k) →
  ∃ l, RB_LEFT (Some g) s = Some (l, s) ∧
       bool_decide (Some p = l) = bool_decide (dg = DLeft).
Proof.
  intros HR. rewrite <-Rep_down in HR.
  eexists; split.
  - apply child_run. apply (Rep_lookup_frame _ _ _ _ _ _ _ HR).
  - destruct dg; simpl.
    + by rewrite !bool_decide_true by by rewrite ?root_of_mk.
    + rewrite !bool_decide_false; [done..|].
      intros Hu. destruct HR as (_ & _ & Hnd & _).
      destruct u as [|cu ul z ur]; [done|]. injection Hu as <-.
      occ_norm; occ_at p; lia.
Qed.

Lemma insert_color_loop_run fuel s t k n :
  Rep F N s t k → root_color t = Red → rbc n k → length k < fuel →
  ∃ s' t' k', rb_insert_color_loop fuel (root_of t) s = Some (tt, s') ∧
    Rep F N s' t' k' ∧ t' ≠ Leaf ∧
    ins_color t k = paint Black (plug k' t').
Proof.
  revert s t k n; induction fuel as [|fuel IH]; intros s t k n HR Ht Hk Hf; [lia|].
  destruct t as [|ct l x r]; [done|]. simpl in Ht; subst ct.
  pose proof (proj1 (Rep_focus _ _ _ HR)) as Hx.
  cbn [rb_insert_color_loop root_of].
  erewrite bind_run by apply (parent_run _ _ _ Hx). cbn [rbe_parent].
  destruct k as [|[d c p st] k].
  { exists s, (Node Red l x r), []. by split_and!. }
  cbn [parent_of fx].
  rewrite (bind_run _ _ _ _ _ (Rep_frame_red _ _ _ _ _ _ _ HR)). destruct c.
  2: { exists s, (Node Red l x r), (Fr d Black p st :: k). by split_and!. }
  rewrite bool_decide_true by done.
  apply rbc_inv in Hk as (_ & Hk & Hb). specialize (Hb eq_refl) as [_ Hb].
  destruct k as [|[dg cg g u] k]; [done|]. simpl in Hb; subst cg.
  erewrite bind_run by eapply parent_run, (Rep_lookup_frame _ _ _ _ _ _ _ HR).
  rewrite parent_mkent. cbn [parent_of fx].
  destruct (Rep_left_test _ _ _ _ _ _ _ _ _ _ _ HR) as (lg & El & Et).
  rewrite (bind_run _ _ _ _ _ El), Et. clear El Et lg.
  assert ((if bool_decide (dg = DLeft)
           then rb_insert_color_round DLeft (Some x) (Some p) (Some g)
           else rb_insert_color_round DRight (Some x) (Some p) (Some g)) =
          rb_insert_color_round dg (Some x) (Some p) (Some g)) as -> by by destruct dg.
  apply rbc_inv in Hk as (_ & Hk & _). simpl in Hf.
  destruct (root_color u) eqn:Hu.
  - destruct (insert_round_red s (Node Red l x r) x d p st dg g u k eq_refl Hu HR)
      as (s1 & E & HR1).
    rewrite (bind_run _ _ _ _ _ E). clear E.
    rewrite <-(root_of_mk dg Red (mk d Black (Node Red l x r) p st) g (paint Black u)).
    simpl ins_color. rewrite Hu.
    eapply IH; [exact HR1|apply root_color_mk|exact Hk|lia].
  - destruct (insert_round_black _ _ _ _ _ _ _ _ _ _ _ _ Hu HR)
      as (s1 & e & t' & f & E & HR1 & He & Hf' & [z Hz] & Hi).
    rewrite (bind_run _ _ _ _ _ E), Hi. clear E.
    destruct t' as [|ct' l' x' r']; [by subst|]. simpl in He; subst e.
    exists s1, (Node ct' l' x' r'), (f :: k). split_and!; [|done..].
    destruct fuel as [|fuel]; [lia|]. cbn [rb_insert_color_loop].
    erewrite bind_run by eapply parent_run, (Rep_focus _ _ _ HR1).
    destruct f as [df cf xf sf]. simpl in Hf'; subst cf.
    cbn [rbe_parent parent_of fx].
    by rewrite (bind_run _ _ _ _ _ (Rep_frame_red _ _ _ _ _ _ _ HR1)).
Qed.

(** [RB_INSERT_COLOR] computes [ins_color]. *)
Lemma insert_color_run fuel s t k n :
  Rep F N s t k → root_color t = Red → rbc n k → length k < fuel →
  ∃ s', RB_INSERT_COLOR fuel (root_of t) s = Some (tt, s') ∧
        Rep F N s' (ins_color t k) [].
Proof.
  intros HR Ht Hk Hf. unfold RB_INSERT_COLOR.
  destruct (insert_color_loop_run fuel s t k n) as (s1 & t' & k' & E & HR1 & Hne & ->);
    [done..|].
  rewrite (bind_run _ _ _ _ _ E). clear E.
  rewrite Rep_plug in HR1.
  rewrite (bind_run _ _ _ _ _ (root_run _)), (Rep_root _ _ _ HR1). simpl.
  destruct (root_of (plug k' t')) as [z|] eqn:Hz.
  - by apply (Rep_paint Black RB_BLACK _ _ _ z).
  - assert (inorder (plug k' t') = []) as Hin by by destruct (plug k' t').
    rewrite inorder_plug in Hin. apply app_eq_nil in Hin as [_ Hin].
    apply app_eq_nil in Hin as [Hin _]. destruct t'; [done|].
    simpl in Hin. by apply app_eq_nil in Hin as [_ ?].
Qed.

(** ** Removal repair *)

(** Leaving the loop: the sibling takes the place of the parent. *)
Lemma remove_finish_run s t d c p cw wn y wf k
    (T := plug k (mk d c (mk d Black t p wn) y (paint Black wf))) :
  Rep F N s t (Fr d c p (mk d cw wn y wf) :: k) →
  ∃ s', rb_remove_color_finish d (Some p) (Some y) s =
    Some (inr (root_of T), s') ∧ Rep F N s' T [].
Proof.
  intros HR. unfold rb_remove_color_finish.
  erewrite bind_run by eapply color_run, (Rep_lookup_frame _ _ _ _ _ _ _ HR).
  rewrite color_mkent. rewrite Rep_side in HR.
  mstep (Rep_paint_set c _ _ _ _ _ _ _ _ eq_refl HR) HR.
  mstep (Rep_paint_frame Black RB_BLACK _ _ _ _ _ _ _ eq_refl HR) HR.
  erewrite bind_run by eapply child_run, (Rep_lookup _ _ _ _ _ _ _ HR).
  rewrite child_flip_mkent.
  rewrite <-mk_flip, (Rep_down _ _ _ (flip d)) in HR.
  assert (∃ s', (if nonnull (root_of wf) then SET_COLOR (root_of wf) RB_BLACK
                 else mret tt) s1 = Some (tt, s') ∧
    Rep F N s' (paint Black wf) (Fr (flip d) c y wn :: Fr (flip d) Black p t :: k)) as HF.
  { destruct (root_of wf) as [z|] eqn:Hz; simpl.
    - by apply (Rep_paint Black RB_BLACK _ _ _ z).
    - destruct wf; [|done]. eauto. }
  mstep HF HR. rewrite <-Rep_down, mk_flip, <-Rep_down, mk_flip in HR.
  mstep (Rep_rotate _ _ _ _ _ _ _ _ _ _ HR) HR.
  rewrite Rep_plug in HR. fold T in HR.
  rewrite (bind_run _ _ _ _ _ (root_run _)), (Rep_root _ _ _ HR). eauto.
Qed.

(** The near child is red and the far one black: one rotation. *)
Lemma remove_near_run s t d c p wn y wf k zl z zr :
  root_color wf = Black → wn = Node Red zl z zr →
  Rep F N s t (Fr d c p (mk d Black wn y wf) :: k) →
  ∃ s', rb_remove_color_near d (Some p) (Some y) s = Some (Some z, s') ∧
    Rep F N s' t (Fr d c p (mk d Black (near d wn) z
                              (mk d Red (near (flip d) wn) y wf)) :: k).
Proof.
  intros Hf Hn HR. unfold rb_remove_color_near. rewrite Rep_side in HR.
  erewrite bind_run by eapply child_run, (Rep_lookup _ _ _ _ _ _ _ HR).
  rewrite child_flip_mkent.
  rewrite <-mk_flip, (Rep_down _ _ _ (flip d)) in HR.
  erewrite bind_run by eapply rep_is_black, (Rep_focus _ _ _ HR).
  rewrite bool_decide_true by done.
  erewrite bind_run by eapply child_run, (Rep_lookup_frame _ _ _ _ _ _ _ HR).
  rewrite mkent_flip, child_mkent.
  rewrite Rep_side, flip_flip in HR.
  assert (Hz : root_of wn = Some z) by by rewrite Hn.
  rewrite Hz. cbn [nonnull].
  mstep (Rep_paint Black RB_BLACK _ _ _ z eq_refl Hz HR) HR.
  mstep (Rep_paint_frame Red RB_RED _ _ _ _ _ _ _ eq_refl HR) HR.
  assert (paint Black wn = mk d Black (near d wn) z (near (flip d) wn)) as E
    by (subst wn; by dirs).
  rewrite E, <-Rep_down in HR.
  mstep (Rep_rotate_flip _ _ _ _ _ _ _ _ _ _ HR) HR.
  erewrite child_run by apply (Rep_lookup_frame _ _ _ _ _ _ _ HR).
  rewrite child_mkent, root_of_mk.
  rewrite Rep_side, flip_flip in HR. eauto.
Qed.

(** The round with a black sibling [w] of the focus computes [rem_round]. *)
Lemma remove_black_run s t d c p wl y wr k (w := Node Black wl y wr) :
  Rep F N s t (Fr d c p w :: k) →
  match rem_round t d c p w k with
  | inl t' => ∃ s', rb_remove_color_black d (Some p) (Some y) s =
                Some (inl (Some p, parent_of k), s') ∧ Rep F N s' t' k
  | inr T => ∃ s', rb_remove_color_black d (Some p) (Some y) s =
                Some (inr (root_of T), s') ∧ Rep F N s' T []
  end.
Proof.
  intros HR. unfold rb_remove_color_black, RB_LEFT, RB_RIGHT.
  destruct (Rep_sibling _ _ _ _ _ _ _ HR) as (Hy & Hl & Hr).
  erewrite (bind_run (RB_CHILD DLeft _)) by apply (child_run _ _ _ _ Hy).
  erewrite (bind_run (rb_is_black _)) by apply (rep_is_black _ _ _ Hl).
  erewrite (bind_run (RB_CHILD DRight _)) by apply (child_run _ _ _ _ Hy).
  erewrite (bind_run (rb_is_black _)) by apply (rep_is_black _ _ _ Hr).
  assert ((bool_decide (root_color wl = Black) && bool_decide (root_color wr = Black))%bool
    = (bool_decide (root_color (near d w) = Black) &&
       bool_decide (root_color (near (flip d) w) = Black))%bool) as ->.
  { destruct d; simpl; [done|apply andb_comm]. }
  assert (Hw : w = mk d Black (near d w) y (near (flip d) w)) by by dirs.
  rewrite Hw in HR. rewrite Hw, rem_round_eq, !near_mk, !near_flip_mk.
  clear Hy Hl Hr. set (wn := near d w) in *. set (wf := near (flip d) w) in *.
  clearbody wn wf. clear Hw w.
  assert (Hnear : root_color wf = Red →
    rb_remove_color_near d (Some p) (Some y) s = Some (Some y, s)).
  { intros Hf. pose proof HR as HR'. rewrite Rep_side in HR'.
    unfold rb_remove_color_near.
    erewrite bind_run by eapply child_run, (Rep_lookup _ _ _ _ _ _ _ HR').
    rewrite child_flip_mkent.
    rewrite <-mk_flip, (Rep_down _ _ _ (flip d)) in HR'.
    erewrite bind_run by eapply rep_is_black, (Rep_focus _ _ _ HR').
    by rewrite bool_decide_false by by rewrite Hf. }
  destruct (root_color wn) eqn:En, (root_color wf) eqn:Ef;
    rewrite ?(bool_decide_true (Black = Black)), ?(bool_decide_false (Red = Black)) by done;
    cbn [andb].
  - rewrite (bind_run _ _ _ _ _ (Hnear eq_refl)). by eapply remove_finish_run.
  - destruct wn as [|cn zl z zr]; [done|]. simpl in En; subst cn.
    mstep (remove_near_run _ _ _ _ _ _ _ _ _ _ _ _ Ef eq_refl HR) HR.
    destruct (remove_finish_run _ _ _ _ _ _ _ _ _ _ HR) as (s2 & E & HR2).
    rewrite E. replace (paint Black (mk d Red _ y wf)) with
      (mk d Black (near (flip d) (Node Red zl z zr)) y wf) in HR2 |- * by by dirs.
    eauto.
  - rewrite (bind_run _ _ _ _ _ (Hnear eq_refl)). by eapply remove_finish_run.
  - rewrite Rep_side in HR.
    mstep (Rep_paint_set Red RB_RED _ _ _ _ _ _ _ eq_refl HR) HR.
    erewrite bind_run by eapply parent_run, (Rep_lookup_frame _ _ _ _ _ _ _ HR).
    rewrite parent_mkent. rewrite Rep_side, flip_flip, <-Rep_down in HR. eauto.
Qed.

(** The sibling is red: rotate it above the parent first. *)
Lemma remove_red_run s t d c p sl y sr k al ay ar
    (w := Node Red sl y sr) (k' := Fr d Black y (near (flip d) w) :: k) :
  near d w = Node Black al ay ar →
  Rep F N s t (Fr d c p w :: k) →
  match rem_round t d Red p (near d w) k' with
  | inl t' => ∃ s', rb_remove_color_round d (Some p) s =
                Some (inl (Some p, Some y), s') ∧ Rep F N s' t' k'
  | inr T => ∃ s', rb_remove_color_round d (Some p) s =
                Some (inr (root_of T), s') ∧ Rep F N s' T []
  end.
Proof.
  intros Hn HR. unfold rb_remove_color_round.
  assert (Hw : w = mk d Red (near d w) y (near (flip d) w)) by by dirs.
  erewrite bind_run by eapply child_run, (Rep_lookup_frame _ _ _ _ _ _ _ HR).
  rewrite child_flip_mkent. cbn [w root_of]. fold w.
  erewrite bind_run by eapply color_run, (Rep_sibling _ _ _ _ _ _ _ HR).
  cbn [rbe_color cval Z.eqb RB_RED Pos.eqb].
  rewrite Hw, <-Rep_down, <-mk_flip in HR.
  destruct (Rep_blackred _ _ _ _ _ _ _ _ _ _ _ HR) as (s1 & E1 & HR1).
  rewrite mk_flip in HR1.
  destruct (Rep_rotate _ _ _ _ _ _ _ _ _ _ HR1) as (s2 & E2 & HR2).
  rewrite Rep_down in HR2. fold k' in HR2.
  erewrite bind_run.
  2: { rewrite (bind_run _ _ _ _ _ E1), (bind_run _ _ _ _ _ E2).
       eapply child_run, (Rep_lookup _ _ _ _ _ _ _ HR2). }
  clear E1 E2. rewrite child_flip_mkent, Rep_down in *. rewrite Hn in *.
  exact (remove_black_run s2 t d Red p al ay ar k' HR2).
Qed.

Lemma remove_round_run s t d c p sl y sr k (w := Node Black sl y sr) :
  Rep F N s t (Fr d c p w :: k) →
  match rem_round t d c p w k with
  | inl t' => ∃ s', rb_remove_color_round d (Some p) s =
                Some (inl (Some p, parent_of k), s') ∧ Rep F N s' t' k
  | inr T => ∃ s', rb_remove_color_round d (Some p) s =
                Some (inr (root_of T), s') ∧ Rep F N s' T []
  end.
Proof.
  intros HR. pose proof (remove_black_run _ _ _ _ _ _ _ _ _ HR) as HB.
  assert (rb_remove_color_round d (Some p) s =
          rb_remove_color_black d (Some p) (Some y) s) as ->; [|exact HB].
  unfold rb_remove_color_round.
  erewrite bind_run by eapply child_run, (Rep_lookup_frame _ _ _ _ _ _ _ HR).
  rewrite child_flip_mkent. cbn [w root_of]. fold w.
  by erewrite bind_run by eapply color_run, (Rep_sibling _ _ _ _ _ _ _ HR).
Qed.

(** The test for the side of the focus, and the test for the root. *)
Lemma Rep_side_test s t d c p sib k :
  Rep F N s t (Fr d c p sib :: k) → sib ≠ Leaf →
  ∃ l, RB_LEFT (Some p) s = Some (l, s) ∧
       bool_decide (l = root_of t) = bool_decide (d = DLeft).
Proof.
  intros HR Hs. eexists; split.
  - apply child_run, (Rep_lookup_frame _ _ _ _ _ _ _ HR).
  - destruct d; simpl; [by rewrite !bool_decide_true|].
    rewrite !bool_decide_false; [done..|].
    intros E. destruct HR as (_ & _ & Hnd & _).
    destruct sib as [|cs l z r]; [done|]. destruct t as [|ct tl x tr]; [done|].
    injection E as ->. occ_norm; occ_at x; lia.
Qed.

Lemma Rep_not_root s t f k :
  Rep F N s t (f :: k) → bool_decide (root_of t ≠ rbh_root s) = true.
Proof.
  intros HR. apply bool_decide_true. intros E.
  assert (Hin : ∀ k' t' z, root_of (plug k' t') = Some z → root_of t' = Some z ∨ z ∈ nodes k').
  { induction k' as [|[d c x u] k' IH]; intros t' z Hz; [by left|]. right.
    apply IH in Hz. unfold plug1 in Hz; simpl in *. rewrite root_of_mk in Hz.
    set_solver. }
  rewrite (Rep_root _ _ _ HR), plug_cons in E.
  assert (∃ z, root_of (plug k (plug1 t f)) = Some z) as [z Hz].
  { destruct (plug k (plug1 t f)) eqn:Ep; [|by eexists].
    apply (f_equal inorder) in Ep. rewrite inorder_plug in Ep.
    destruct f as [d c x u]. exfalso.
    apply (f_equal (occ x)) in Ep. unfold plug1 in Ep; simpl in Ep. occ_split. lia. }
  rewrite Hz in E. apply Hin in Hz. destruct HR as (_ & _ & Hnd & _).
  destruct f as [d c x u], t as [|ct l w r]; [done|]. injection E as ->.
  unfold plug1 in Hz; simpl in Hz. rewrite root_of_mk in Hz.
  destruct Hz as [[= ->]|Hz]; occ_norm; occ_at z; lia.
Qed.
Lemma remove_color_loop_run fuel s t k n :
  Rep F N s t k → rbt n t → rbc (S n) k → S (length k) < fuel →
  ∃ s' t' k', rb_remove_color_loop fuel (parent_of k) (root_of t) s =
      Some (root_of t', s') ∧
    Rep F N s' t' k' ∧ rem_color t k = plug k' (paint Black t').
Proof.
  revert s t k n; induction fuel as [|fuel IH]; intros s t k n HR Ht Hk Hf; [lia|].
  cbn [rb_remove_color_loop].
  erewrite bind_run by eapply rep_is_black, (Rep_focus _ _ _ HR).
  rewrite (bind_run _ _ _ _ _ (root_run _)).
  destruct k as [|[d c p sib] k].
  { rewrite (Rep_root _ _ _ HR). simpl plug.
    rewrite (bool_decide_false (root_of t ≠ root_of t)) by auto.
    rewrite andb_false_r. exists s, t, []. by split_and!. }
  rewrite (Rep_not_root _ _ _ _ HR), andb_true_r.
  destruct (root_color t) eqn:Et.
  { rewrite bool_decide_false by done.
    exists s, t, (Fr d c p sib :: k). split_and!; [done..|].
    simpl. by rewrite Et. }
  rewrite bool_decide_true by done. cbn [parent_of fx].
  apply rbc_inv in Hk as (Hs & Hk & Hc).
  destruct sib as [|cs sl y sr]; [inversion Hs|]. set (w := Node cs sl y sr) in *.
  destruct (Rep_side_test _ _ _ _ _ _ _ HR) as (l & El & Es); [done|].
  rewrite (bind_run _ _ _ _ _ El), Es. clear El Es l.
  assert ((if bool_decide (d = DLeft) then rb_remove_color_round DLeft (Some p)
           else rb_remove_color_round DRight (Some p)) =
          rb_remove_color_round d (Some p)) as -> by by destruct d.
  cbn [rem_color]. rewrite Et. cbn [w]. fold w. simpl in Hf.
  destruct cs.
  - destruct c; [by destruct (Hc eq_refl)|]. inversion Hs; subst.
    assert (Hn : rbt (S n) (near d w)) by by destruct d.
    assert (Hnb : root_color (near d w) = Black) by by destruct d.
    destruct (rbt_black_node _ _ Hn Hnb) as (al & ay & ar & Enw & _).
    pose proof (remove_red_run _ _ _ _ _ _ _ _ _ _ _ _ Enw HR) as HB.
    fold w in HB. cbv zeta.
    pose proof (rem_round_valid n t d Red p (near d w)
      (Fr d Black y (near (flip d) w) :: k)) as HV.
    destruct (rem_round t d Red p (near d w) _) as [t'|T].
    + destruct HB as (s1 & E & HR1). rewrite (bind_run _ _ _ _ _ E). clear E.
      (* the parent is red now, so the next test ends the loop *)
      destruct HV as (w' & -> & _); [done..| |done|].
      { simpl. constructor; [by destruct d|done]. }
      destruct fuel as [|fuel]; [lia|]. cbn [rb_remove_color_loop].
      pose proof (rep_is_black _ _ _ (Rep_focus _ _ _ HR1)) as Eb.
      rewrite root_of_mk, root_color_mk in Eb.
      rewrite (bind_run _ _ _ _ _ Eb), (bind_run _ _ _ _ _ (root_run _)).
      rewrite bool_decide_false by done. cbn [andb].
      do 3 eexists; split_and!; [by rewrite <-(root_of_mk d Red t p w')|exact HR1|done].
    + destruct HB as (s1 & E & HR1). rewrite (bind_run _ _ _ _ _ E).
      exists s1, T, []. by split_and!.
  - pose proof (remove_round_run _ _ _ _ _ _ _ _ _ HR) as HB. fold w in HB.
    pose proof (rem_round_valid n t d c p w k) as HV.
    destruct (rem_round t d c p w k) as [t'|T].
    + destruct HB as (s1 & E & HR1). rewrite (bind_run _ _ _ _ _ E). clear E.
      destruct HV as (w' & -> & Hw' & _); [done..|by intros; apply Hc|].
      rewrite <-(root_of_mk d c t p w').
      destruct c.
      * destruct (Hc eq_refl) as [_ Hcb]. destruct k as [|[df cf xf sf] k]; [done|].
        destruct fuel as [|fuel]; [lia|]. cbn [rb_remove_color_loop].
        erewrite bind_run by eapply rep_is_black, (Rep_focus _ _ _ HR1).
        rewrite root_color_mk, bool_decide_false by done.
        rewrite (bind_run _ _ _ _ _ (root_run _)). cbn [andb].
        do 3 eexists; split_and!; [done|exact HR1|].
        simpl. by rewrite root_color_mk.
      * eapply IH; [done| |exact Hk|lia]. apply rbt_mk_black; auto.
    + destruct HB as (s1 & E & HR1). rewrite (bind_run _ _ _ _ _ E).
      exists s1, T, []. by split_and!.
Qed.

(** [RB_REMOVE_COLOR] computes [rem_color]. *)
Lemma remove_color_run fuel s t k n :
  Rep F N s t k → rbt n t → rbc (S n) k → S (length k) < fuel →
  ∃ s', RB_REMOVE_COLOR fuel (parent_of k) (root_of t) s = Some (tt, s') ∧
        Rep F N s' (rem_color t k) [].
Proof.
  intros HR Ht Hk Hf. unfold RB_REMOVE_COLOR.
  destruct (remove_color_loop_run fuel s t k n) as (s1 & t' & k' & E & HR1 & ->);
    [done..|].
  rewrite (bind_run _ _ _ _ _ E). clear E.
  destruct (root_of t') as [z|] eqn:Hz; cbn [nonnull].
  - destruct (Rep_paint Black RB_BLACK _ _ _ z eq_refl Hz HR1) as (s2 & E & HR2).
    exists s2. by rewrite <-Rep_plug.
  - destruct t'; [|done]. exists s1. by rewrite <-Rep_plug.
Qed.

(** ** Removal *)

(** [rb_unlink]: the only subtree [ch] of [o] takes its place. *)
Lemma unlink_run s d co o ch k :
  Rep F N s (mk d co Leaf o ch) k →
  ∃ s', rb_unlink (Some o) (root_of ch) (parent_of k) s = Some (tt, s') ∧
        Rep F N s' ch k ∧ rb_mem s' !! o = rb_mem s !! o.
Proof.
  intros (Ht & Hk & Hnd & HN & HF).
  rewrite root_of_mk in Hk. apply rep_mk in Ht as (Ho & _ & Hc).
  set (s1 := RbState (rbh_root s) (reparent (root_of ch) (parent_of k) (rb_mem s))).
  exists (rehole k (root_of ch) s1).
  assert (Hm : ∀ z, z ∉ inorder ch → rb_mem s1 !! z = rb_mem s !! z)
    by (intros; by apply reparent_ne).
  split_and!.
  - unfold rb_unlink. rewrite (bind_run _ _ _ _ _ (reparent_run _ _ _ _ Hc)).
    fold s1.
    apply (relink_run (rb_mem s) _ _ (rbh_root s)); [done|occs|].
    intros z Hz. apply Hm. occs.
  - unfold Rep. split_and!.
    + apply (rep_ext (rb_mem s1)); [|apply (rep_reparent _ (Some o)); [occs|done]].
      intros z Hz. apply rehole_ne. occs.
    + apply (rep_rehole (rb_mem s) _ _ (Some o)); [occs|done|].
      intros z Hz. apply Hm. occs.
    + occs.
    + intros z Hz. apply HN. occs.
    + intros z Hz. rewrite <-HF by done.
      rewrite rehole_ne by (intros ?; apply Hz, HN; occs).
      apply Hm. intros ?; apply Hz, HN; occs.
  - rewrite rehole_ne by occs. apply Hm. occs.
Qed.

Lemma augment_up_run fuel s t f k :
  Rep F N s t (f :: k) → length k < fuel →
  rb_augment_up fuel (Some (fx f)) s = Some (tt, s).
Proof.
  revert t f k; induction fuel as [|fuel IH]; intros t [d c x u] k HR Hf; [lia|].
  cbn [rb_augment_up fx]. erewrite bind_run by done.
  erewrite bind_run by eapply parent_run, (Rep_lookup_frame _ _ _ _ _ _ _ HR).
  rewrite parent_mkent. destruct k as [|f k]; [done|]. cbn [parent_of nonnull].
  rewrite Rep_up in HR. simpl in Hf. eapply IH; [done|lia].
Qed.

(** Following the [d]-children. *)
Lemma walk_run fuel d s t k :
  Rep F N s t k → t ≠ Leaf → height t ≤ fuel →
  rb_walk fuel d (root_of t) s = Some (root_of (descend d t k).1, s) ∧
  Rep F N s (descend d t k).1 (descend d t k).2.
Proof.
  revert t k; induction fuel as [|fuel IH]; intros t k HR Ht Hf.
  { destruct t; simpl in *; [done|lia]. }
  destruct t as [|c l x r]; [done|]. cbn [rb_walk root_of].
  pose proof (proj1 (Rep_focus _ _ _ HR)) as Hx. simpl in Hf.
  destruct d; cbn [descend].
  - erewrite bind_run by apply (child_run _ _ _ _ Hx).
    destruct l as [|cl ll y lr]; [done|].
    apply (Rep_down F N s DLeft) in HR. cbn [child rbe_left root_of nonnull].
    by apply (IH _ _ HR); [|simpl in *; lia].
  - erewrite bind_run by apply (child_run _ _ _ _ Hx).
    destruct r as [|cr rl y rr]; [done|].
    apply (Rep_down F N s DRight c _ x l) in HR. cbn [child rbe_right root_of nonnull].
    by apply (IH _ _ HR); [|simpl in *; lia].
Qed.
(** [rb_replace]: the node [e] takes the place of [o]. *)
Lemma replace_run s co l o r k e e0 :
  Rep F N s (Node co l o r) k → l ≠ Leaf →
  e ∈ N → e ∉ inorder (Node co l o r) ++ nodes k → rb_mem s !! e = Some e0 →
  ∃ s', rb_replace (Some o) (Some e) s = Some (tt, s') ∧
        Rep F N s' (Node co l e r) k.
Proof.
  intros (Ht & Hk & Hnd & HN & HF) Hl HeN Hen He.
  destruct Ht as (Ho & Hlr & Hrr). cbn [root_of] in Hk.
  set (en := RbEntry (root_of l) (root_of r) (parent_of k) (cval co)) in *.
  assert (Hnd' : NoDup (e :: inorder (Node co l o r) ++ nodes k)) by by constructor.
  set (s1 := RbState (rbh_root s) (<[e := en]> (rb_mem s))).
  set (s2 := rehole k (Some e) s1).
  set (s3 := RbState (rbh_root s2) (reparent (root_of l) (Some e) (rb_mem s2))).
  set (s4 := RbState (rbh_root s3) (reparent (root_of r) (Some e) (rb_mem s3))).
  assert (H2 : ∀ z, z ≠ e → z ∉ nodes k → rb_mem s2 !! z = rb_mem s !! z).
  { intros z ??. unfold s2. rewrite rehole_ne by done. by apply lookup_insert_ne. }
  assert (H3 : ∀ z, z ≠ e → z ∉ nodes k → z ∉ inorder l → rb_mem s3 !! z = rb_mem s !! z).
  { intros z ???. simpl. rewrite reparent_ne by done. by apply H2. }
  assert (H4 : ∀ z, z ≠ e → z ∉ nodes k → z ∉ inorder l → z ∉ inorder r →
    rb_mem s4 !! z = rb_mem s !! z).
  { intros z ????. simpl. rewrite reparent_ne by done. by apply H3. }
  exists s4. split.
  - unfold rb_replace, RB_LEFT, RB_RIGHT.
    rewrite (bind_run _ _ _ _ _ (deref_run _ _ _ Ho)).
    rewrite (bind_run _ _ _ _ _ (assign_run _ _ _ _ He)). fold s1.
    erewrite bind_run by (apply parent_run; simpl; rewrite lookup_insert_ne by occs;
      exact Ho).
    cbn [rbe_parent en].
    erewrite bind_run.
    2: { apply (relink_run (rb_mem s) _ _ (rbh_root s)); [done|occs|].
         intros z Hz. apply lookup_insert_ne. occs. }
    fold s2.
    erewrite bind_run by (apply child_run; rewrite H2 by occs; exact Ho).
    cbn [child rbe_left en].
    assert (E3 : SET_PARENT (root_of l) (Some e) s2 = Some (tt, s3)).
    { pose proof (reparent_run (Some o) l (Some e) s2) as E3.
      assert (nonnull (root_of l) = true) as El by by destruct l.
      rewrite El in E3. apply E3.
      eapply rep_ext; [|exact Hlr]. intros z Hz. apply H2; occs. }
    rewrite (bind_run _ _ _ _ _ E3).
    erewrite bind_run by (apply child_run; rewrite H3 by occs; exact Ho).
    cbn [child rbe_right en].
    apply (reparent_run (Some o) r (Some e) s3).
    eapply rep_ext; [|exact Hrr]. intros z Hz. apply H3; occs.
  - unfold Rep. cbn [rep root_of]. split_and!.
    + cbn [rb_mem s4 s3]. rewrite !reparent_ne by occs. unfold s2.
      rewrite rehole_ne by occs. apply lookup_insert_eq.
    + apply (rep_ext (rb_mem s3)); [intros z Hz; apply reparent_ne; occs|].
      apply (rep_reparent _ (Some o)); [occs|].
      eapply rep_ext; [|exact Hlr]. intros z Hz. apply H2; occs.
    + apply (rep_reparent _ (Some o)); [occs|].
      eapply rep_ext; [|exact Hrr]. intros z Hz. apply H3; occs.
    + apply (rep_ctx_ext (rb_mem s2)).
      * intros z Hz. cbn [rb_mem s4 s3]. by rewrite !reparent_ne by occs.
      * apply (rep_rehole (rb_mem s) _ _ (Some o)); [occs|done|].
        intros z Hz. apply lookup_insert_ne. occs.
    + occs.
    + intros z Hz. destruct (decide (z = e)) as [->|]; [done|]. apply HN.
      revert Hz. simpl. set_solver.
    + intros z Hz. rewrite <-HF by done.
      assert (z ∉ inorder (Node co l o r) ++ nodes k) as Hz'
        by (intros ?; by apply Hz, HN).
      apply H4; [by intros ->|occs..].
Qed.
(** ** Insertion *)

Definition hole_side (k : ctx) (comp : Z) : Prop :=
  match k with
  | [] => True
  | Fr DLeft _ _ _ :: _ => (comp < 0)%Z
  | Fr DRight _ _ _ :: _ => (0 <= comp)%Z
  end.

(** [elm] with the fields [RB_SET] gives it. *)
Lemma rb_set_run s e e0 p :
  rb_mem s !! e = Some e0 →
  RB_SET (Some e) p s =
  Some (tt, RbState (rbh_root s) (<[e := RbEntry None None p RB_RED]> (rb_mem s))).
Proof.
  intros He. unfold RB_SET, SET_RIGHT, SET_LEFT, SET_CHILD, SET_PARENT, SET_COLOR.
  erewrite bind_run by by apply assign_run.
  erewrite bind_run by (apply assign_run, lookup_insert_eq).
  erewrite bind_run by (apply assign_run, lookup_insert_eq).
  erewrite assign_run by apply lookup_insert_eq. simpl.
  by rewrite !insert_insert_eq.
Qed.

(** Hanging the new node into the hole where the search ended. *)
Lemma attach_run s e e0 k comp :
  Rep F N s Leaf k → hole_side k comp → e ∈ N → e ∉ nodes k →
  rb_mem s !! e = Some e0 →
  ∃ s1 s2, RB_SET (Some e) (parent_of k) s = Some (tt, s1) ∧
    (if nonnull (parent_of k) then
       (if (comp <? 0)%Z then SET_LEFT (parent_of k) (Some e)
        else SET_RIGHT (parent_of k) (Some e));;
       RB_AUGMENT (parent_of k)
     else SET_ROOT (Some e)) s1 = Some (tt, s2) ∧
    Rep F N s2 (Node Red Leaf e Leaf) k.
Proof.
  intros HR Hc HeN Hek He.
  exists (RbState (rbh_root s) (<[e := RbEntry None None (parent_of k) RB_RED]> (rb_mem s))).
  set (s1 := RbState _ _). exists (rehole k (Some e) s1).
  destruct HR as (_ & Hk & Hnd & HN & HF). simpl in Hnd, HN.
  assert (Hm : ∀ z, z ∈ nodes k → rb_mem s1 !! z = rb_mem s !! z).
  { intros z Hz. simpl. apply lookup_insert_ne. set_solver. }
  split; [by eapply rb_set_run|]. split.
  - destruct k as [|[d c x u] k]; [done|].
    assert (Hx : rb_mem s1 !! x = Some (mkent d None (root_of u) (parent_of k) c)).
    { etransitivity; [apply Hm; set_solver|apply Hk]. }
    cbn [parent_of nonnull fx].
    destruct d; simpl in Hc.
    + rewrite (proj2 (Z.ltb_lt _ _) Hc). unfold SET_LEFT, SET_CHILD.
      by rewrite (bind_run _ _ _ _ _ (assign_alter _ _ _ _ Hx)).
    + rewrite (proj2 (Z.ltb_ge _ _) Hc). unfold SET_RIGHT, SET_CHILD.
      by rewrite (bind_run _ _ _ _ _ (assign_alter _ _ _ _ Hx)).
  - unfold Rep. cbn [rep inorder root_of app]. split_and!; try done.
    + rewrite rehole_ne by done. apply lookup_insert_eq.
    + by eapply rep_rehole.
    + by constructor.
    + intros z Hz. apply elem_of_cons in Hz as [->|Hz]; [done|by apply HN].
    + intros z Hz. rewrite rehole_ne by (intros ?; by apply Hz, HN).
      simpl. rewrite lookup_insert_ne by (by intros ->). by apply HF.
Qed.

Section keyed.
Context (cmp : positive → positive → Z) `{!Comparison cmp}.

Lemma insert_loop_run fuel e s t k comp :
  Rep F N s t k → hole_side k comp → height t < fuel →
  ∃ comp', hole_side (search cmp e t k).2 comp' ∧
    rb_insert_loop cmp fuel e (root_of t) (parent_of k) comp s =
    Some (match (search cmp e t k).1 with
          | Leaf => inr (parent_of (search cmp e t k).2, comp')
          | Node _ _ x _ => inl (Some x)
          end, s).
Proof.
  revert t k comp; induction fuel as [|fuel IH]; intros t k comp HR Hc Hf; [lia|].
  destruct t as [|c l x r]; simpl; [eauto|].
  pose proof (proj1 (Rep_focus _ _ _ HR)) as Hx. simpl in Hf.
  destruct (Z.ltb_spec (cmp e x) 0); [|destruct (Z.ltb_spec 0 (cmp e x))].
  - unfold RB_LEFT. erewrite bind_run by apply (child_run _ _ _ _ Hx).
    apply (Rep_down F N s DLeft) in HR.
    by apply (IH l (Fr DLeft c x r :: k)); [| |lia].
  - unfold RB_RIGHT. erewrite bind_run by apply (child_run _ _ _ _ Hx).
    apply (Rep_down F N s DRight c r x l) in HR.
    apply (IH r (Fr DRight c x l :: k)); [done|simpl; lia|lia].
  - exists comp. done.
Qed.
End keyed.
End represented.
