(* ===== verification/RBTheorems.v ===== *)
(** Correctness of the red-black tree macros.

    [Holds cmp s t] is the contract: the memory of [s] holds the red-black tree
    [t], sorted by [cmp].  Each macro is shown to return, to do on the in-order
    sequence what the reference operation of [Ordered] does, to keep [Holds],
    and to write no node outside the tree. *)
From Stdlib Require Import ZArith Lia.
From stdpp Require Import prelude gmap.
From S2P Require Import Prelude Ordered RBSpec RBTree RBProof.

(** ** Removal of a node *)

Lemma before_app ks k : before (ks ++ k) = before k ++ before ks.
Proof.
  induction ks as [|[[] c x u] ks IH]; simpl; [by rewrite app_nil_r|done|].
  by rewrite IH, <-app_assoc.
Qed.

Lemma rbz_plug n ks t k : rbz n (plug ks t) k → ∃ m, rbz m t (ks ++ k).
Proof.
  revert t; induction ks as [|[d c x u] ks IH]; intros t Hz; [by exists n|].
  rewrite plug_cons in Hz. apply IH in Hz as (m & Hz).
  apply rbz_down in Hz as (m' & _ & Hz). by exists m'.
Qed.

Lemma ctx_black_rename ks d c x x' u k :
  ctx_black (ks ++ Fr d c x u :: k) → ctx_black (ks ++ Fr d c x' u :: k).
Proof. by destruct ks as [|[]]. Qed.

Section removal.
Context (F : gmap positive rb_entry) (N : list positive).

(** What [RB_REMOVE] does after the node [o] of colour [co] has been unlinked
    from its place, where its only subtree [ch] now is. *)
Lemma repair_run fuel s d co o ch k n :
  Rep F N s ch k → rbz n (mk d co Leaf o ch) k → S (length k) < fuel →
  ∃ s' t', (if (cval co =? RB_BLACK)%Z
            then RB_REMOVE_COLOR fuel (parent_of k) (root_of ch) else mret tt) s =
           Some (tt, s') ∧
    Rep F N s' t' [] ∧ valid t' ∧ inorder t' = inorder (plug k ch).
Proof.
  intros HR (Ht & Hk & Hc) Hf. destruct co; cbn [cval Z.eqb RB_RED RB_BLACK].
  - apply rbt_red_inv in Ht as (_ & Hch & _ & Hb).
    exists s, (plug k ch). rewrite <-Rep_plug. split_and!; [done|done| |done].
    apply (rbz_valid n). split_and!; [done..|by rewrite Hb].
  - apply rbt_black_inv in Ht as (m & -> & _ & Hch).
    destruct (remove_color_run F N fuel s ch k m) as (s' & E & HR'); [done..|].
    exists s', (rem_color ch k).
    split_and!; [done|done|by eapply rem_color_valid|apply rem_color_inorder].
Qed.

(** The node that [RB_REMOVE] takes out has at most one child. *)
Lemma remove_one_run s d co o ch k :
  Rep F N s (mk d co Leaf o ch) k →
  ∃ s', rb_remove_one (Some o) (root_of ch) s =
          Some ((root_of ch, parent_of k, cval co), s') ∧
        Rep F N s' ch k ∧ rb_mem s' !! o = rb_mem s !! o.
Proof.
  intros HR. pose proof (Rep_lookup _ _ _ _ _ _ _ _ _ HR) as Ho.
  destruct (unlink_run F N s d co o ch k HR) as (s' & E & HR').
  exists s'. split; [|done]. unfold rb_remove_one.
  erewrite bind_run by apply (parent_run _ _ _ Ho).
  erewrite bind_run by apply (color_run _ _ _ Ho).
  by rewrite parent_mkent, color_mkent, (bind_run _ _ _ _ _ E).
Qed.

(** The parent of the successor [x], once [x] has taken the place of [o]. *)
Lemma parent_rename s b ks c o x l k :
  Rep F N s b (ks ++ Fr DRight c o l :: k) →
  (if bool_decide (parent_of (ks ++ Fr DRight c o l :: k) = Some o) then Some x
   else parent_of (ks ++ Fr DRight c o l :: k)) =
  parent_of (ks ++ Fr DRight c x l :: k).
Proof.
  intros (_ & _ & Hnd & _). destruct ks as [|[d cf y u] ks]; simpl.
  - by rewrite bool_decide_true.
  - rewrite bool_decide_false; [done|]. intros [= ->].
    assert (o ∈ nodes (ks ++ Fr DRight c o l :: k)).
    { clear. induction ks as [|[]]; simpl; set_solver. }
    simpl in Hnd. occ_norm; occ_at o; lia.
Qed.

(** The successor of [o] takes its place, and leaves its own to its right
    subtree [b]. *)
Lemma remove_two_run fuel s co l o r k n :
  Rep F N s (Node co l o r) k → rbz n (Node co l o r) k →
  l ≠ Leaf → r ≠ Leaf → length k + height (Node co l o r) < fuel →
  ∃ s' ks cs x b m, 
    rb_remove_two fuel (Some o) s =
      Some ((root_of b, parent_of (ks ++ Fr DRight co x l :: k), cval cs), s') ∧
    Rep F N s' b (ks ++ Fr DRight co x l :: k) ∧
    rbz m (mk DLeft cs Leaf x b) (ks ++ Fr DRight co x l :: k) ∧
    inorder r = x :: inorder b ++ after ks ∧ straight DLeft ks ∧
    S (length (ks ++ Fr DRight co x l :: k)) < fuel.
Proof.
  intros HR Hz Hl Hr Hf. simpl in Hf.
  pose proof (proj1 (Rep_focus _ _ _ _ _ HR)) as Ho.
  apply (Rep_down F N s DRight co r o l) in HR.
  apply (rbz_down n DRight co r o l) in Hz as (n' & _ & Hz).
  destruct (walk_run F N fuel DLeft s r _ HR Hr ltac:(lia)) as (Ew & HRw).
  destruct (descend_spec DLeft r (Fr DRight co o l :: k) Hr)
    as (ks & cs & x & b & Ed & Hs & Hp & Hh).
  rewrite Ed in *. cbn [fst snd] in *. simpl in Hh.
  rewrite <-Hp in Hz. apply rbz_plug in Hz as (m & Hz).
  set (k' := ks ++ Fr DRight co o l :: k) in *.
  destruct (unlink_run F N s DLeft cs x b k' HRw) as (s1 & Eu & HR1 & Hx1).
  pose proof (Rep_lookup _ _ _ _ _ _ _ _ _ HRw) as Hx.
  assert (HR2 : Rep F N s1 (Node co l o (plug ks b)) k).
  { unfold k' in HR1. rewrite Rep_plug, plug_app, <-Rep_plug in HR1.
    by rewrite (Rep_up _ _ _ _ (Fr DRight co o l)) in HR1. }
  destruct (replace_run F N s1 co l o (plug ks b) k x (mkent DLeft None (root_of b) (parent_of k') cs))
    as (s2 & Er & HR3); [done|done| | |by rewrite Hx1|].
  { destruct HRw as (_ & _ & _ & HN & _). apply HN. simpl. set_solver. }
  { destruct HRw as (_ & _ & Hnd & _). intros Hin.
    assert (inorder (Node co l o (plug ks b)) ++ nodes k ≡ₚ inorder b ++ nodes k') as E.
    { transitivity (inorder (plug k (Node co l o (plug ks b)))); [by rewrite plug_perm|].
      unfold k'. rewrite <-plug_perm, plug_app. done. }
    rewrite E in Hin. simpl in Hnd. by apply NoDup_cons in Hnd as [??]. }
  assert (HR4 : Rep F N s2 b (ks ++ Fr DRight co x l :: k)).
  { by rewrite Rep_plug, plug_app, <-Rep_plug, Rep_up. }
  assert (Hlen : length (ks ++ Fr DRight co x l :: k) = length ks + S (length k))
    by by rewrite length_app.
  exists s2, ks, cs, x, b, m. split_and!; [|done| |  |done|lia].
  - unfold rb_remove_two, RB_RIGHT.
    erewrite bind_run by apply (child_run _ _ _ _ Ho).
    cbn [child rbe_right]. rewrite (bind_run _ _ _ _ _ Ew). cbn [root_of mk].
    erewrite bind_run by apply (child_run _ _ _ _ Hx).
    erewrite bind_run by apply (parent_run _ _ _ Hx).
    erewrite bind_run by apply (color_run _ _ _ Hx).
    cbn [child rbe_right rbe_parent rbe_color mkent].
    rewrite (bind_run _ _ _ _ _ Eu).
    erewrite bind_run by (apply parent_run; rewrite Hx1; exact Hx).
    cbn [rbe_parent mkent]. cbv zeta.
    unfold k' in HR1 |- *. rewrite (parent_rename _ _ _ _ _ _ _ _ HR1).
    rewrite (bind_run _ _ _ _ _ Er).
    erewrite bind_run; [done|].
    destruct (ks ++ Fr DRight co x l :: k) as [|f kk] eqn:Ek; [done|].
    eapply augment_up_run; [exact HR4|]. simpl in Hlen. lia.
  - destruct Hz as (? & ? & Hc). split_and!; [done|by eapply rbc_rename|].
    intros E. by eapply ctx_black_rename, Hc.
  - rewrite <-Hp, inorder_plug, (straight_before ks) by done. done.
Qed.

(** [RB_REMOVE] of the node [o]. *)
Lemma remove_run fuel s co l o r k n :
  Rep F N s (Node co l o r) k → rbz n (Node co l o r) k →
  S (length k + height (Node co l o r)) < fuel →
  ∃ s' t', RB_REMOVE fuel (Some o) s = Some (Some o, s') ∧
    Rep F N s' t' [] ∧ valid t' ∧
    inorder t' = before k ++ (inorder l ++ inorder r) ++ after k.
Proof.
  intros HR Hz Hf. pose proof (proj1 (Rep_focus _ _ _ _ _ HR)) as Ho.
  unfold RB_REMOVE, RB_LEFT, RB_RIGHT.
  erewrite bind_run by apply (child_run _ _ _ _ Ho). cbn [child rbe_left].
  destruct l as [|cl ll xl rl] eqn:El; [|destruct r as [|cr lr xr rr] eqn:Er];
    cbn [root_of nonnull].
  - destruct (remove_one_run s DLeft co o r k HR) as (s1 & E1 & HR1 & _).
    erewrite bind_run
      by (rewrite (bind_run _ _ _ _ _ (child_run DRight _ _ _ Ho)); exact E1).
    destruct (repair_run fuel s1 DLeft co o r k n HR1 Hz) as (s2 & t' & E2 & HR2 & Hv & Hi);
      [simpl in Hf; lia|].
    rewrite (bind_run _ _ _ _ _ E2). exists s2, t'.
    split_and!; [done..|]. by rewrite Hi, inorder_plug.
  - rewrite <-El in *.
    destruct (remove_one_run s DRight co o l k HR) as (s1 & E1 & HR1 & _).
    erewrite bind_run.
    2:{ rewrite (bind_run _ _ _ _ _ (child_run DRight _ _ _ Ho)).
        cbn [child rbe_right nonnull root_of].
        rewrite (bind_run _ _ _ _ _ (child_run DLeft _ _ _ Ho)). exact E1. }
    destruct (repair_run fuel s1 DRight co o l k n HR1 Hz) as (s2 & t' & E2 & HR2 & Hv & Hi);
      [simpl in Hf; lia|].
    rewrite (bind_run _ _ _ _ _ E2). exists s2, t'.
    split_and!; [done..|]. by rewrite Hi, inorder_plug, app_nil_r.
  - rewrite <-El, <-Er in *.
    destruct (remove_two_run fuel s co l o r k n HR Hz)
      as (s1 & ks & cs & x & b & m & E1 & HR1 & Hz1 & Hin & Hst & Hlen);
      [by subst|by subst|lia|].
    erewrite bind_run.
    2:{ rewrite (bind_run _ _ _ _ _ (child_run DRight _ _ _ Ho)).
        cbn [child rbe_right].
        replace (nonnull (root_of r)) with true by by subst. exact E1. }
    destruct (repair_run fuel s1 DLeft cs x b _ m HR1 Hz1 Hlen)
      as (s2 & t' & E2 & HR2 & Hv & Hi).
    rewrite (bind_run _ _ _ _ _ E2). exists s2, t'. split_and!; [done..|].
    rewrite Hi, plug_app, plug_cons, inorder_plug. unfold plug1; simpl.
    rewrite Hin, inorder_plug, (straight_before ks) by done. simpl.
    by rewrite <-!app_assoc.
Qed.
End removal.

(** ** Traversal *)

(** The in-order sequence walked in the direction of the [d]-children. *)
Definition walk (d : dir) (t : tree) : list positive :=
  match d with DRight => inorder t | DLeft => reverse (inorder t) end.

(** What lies beyond the hole of [k] in that direction, nearest first. *)
Fixpoint ahead (d : dir) (k : ctx) : list positive :=
  match k with
  | [] => []
  | Fr f _ x u :: k =>
      if decide (f = d) then ahead d k else x :: walk d u ++ ahead d k
  end.

Lemma ahead_after k : ahead DRight k = after k.
Proof. induction k as [|[[] c x u] k IH]; simpl; by rewrite ?IH. Qed.

Lemma ahead_before k : ahead DLeft k = reverse (before k).
Proof.
  induction k as [|[[] c x u] k IH]; simpl; [done..|].
  by rewrite IH, !reverse_app.
Qed.

Lemma walk_mk d c a x b : walk d (mk d c a x b) = walk d b ++ x :: walk d a.
Proof. destruct d; simpl; [|done]. by rewrite reverse_app, reverse_cons, <-app_assoc. Qed.

(** The sequence around a focus. *)
Lemma walk_plug d k t :
  ∃ pre, walk d (plug k t) = pre ++ walk d t ++ ahead d k.
Proof.
  destruct d; simpl; rewrite inorder_plug.
  - rewrite !reverse_app, ahead_before, <-app_assoc. by eexists.
  - rewrite ahead_after. by eexists.
Qed.

Lemma NoDup_cut {A} (l k l' k' : list A) x :
  NoDup (l ++ x :: k) → l ++ x :: k = l' ++ x :: k' → k = k'.
Proof.
  revert l'; induction l as [|y l IH]; intros [|y' l'] Hnd E; simpl in *.
  - by injection E.
  - simplify_eq. apply NoDup_cons in Hnd as [[] _]. set_solver.
  - simplify_eq. apply NoDup_cons in Hnd as [[] _]. set_solver.
  - injection E as -> E. apply NoDup_cons in Hnd as [_ Hnd]. eauto.
Qed.

Section traversal.
Context (F : gmap positive rb_entry) (N : list positive).
Implicit Types (s : rb_state) (t : tree) (k : ctx).

(** Is the focus the [d]-child of its parent? *)
Lemma Rep_child_test s t f c p u k d z :
  Rep F N s t (Fr f c p u :: k) → root_of t = Some z →
  ∃ v, RB_CHILD d (Some p) s = Some (v, s) ∧
       bool_decide (Some z = v) = bool_decide (f = d).
Proof.
  intros HR Hz. pose proof (Rep_lookup_frame _ _ _ _ _ _ _ _ _ HR) as Hp.
  eexists; split; [apply (child_run _ _ _ _ Hp)|].
  destruct (decide (f = d)) as [->|Hfd].
  - rewrite child_mkent. by rewrite !bool_decide_true.
  - replace d with (flip f) by by destruct f, d.
    rewrite child_flip_mkent, !bool_decide_false; [done|by destruct f|].
    intros E. destruct HR as (_ & _ & Hnd & _).
    destruct u as [|cu ul y ur]; [done|]. destruct t as [|ct tl x tr]; [done|].
    injection E as <-. injection Hz as <-. occ_norm; occ_at x; lia.
Qed.

Lemma climb_run fuel d s t k z :
  Rep F N s t k → root_of t = Some z → length k < fuel →
  ∃ y, rb_climb fuel d (Some z) s = Some (Some y, s) ∧
       RB_PARENT (Some y) s = Some (head (ahead d k), s).
Proof.
  revert t k z; induction fuel as [|fuel IH]; intros t k z HR Hz Hf; [lia|].
  cbn [rb_climb].
  assert (HP : RB_PARENT (Some z) s = Some (parent_of k, s)).
  { pose proof (Rep_focus _ _ _ _ _ HR) as Hrep.
    destruct t as [|c l x r]; [done|]. injection Hz as ->.
    apply (parent_run _ _ _ (proj1 Hrep)). }
  rewrite (bind_run _ _ _ _ _ HP). destruct k as [|[f c p u] k]; [by exists z|].
  cbn [parent_of nonnull fx].
  destruct (Rep_child_test _ _ _ _ _ _ _ d z HR Hz) as (v & Ev & Eb).
  rewrite (bind_run _ _ _ _ _ Ev), Eb. simpl in Hf. cbn [ahead].
  destruct (decide (f = d)) as [->|Hfd].
  - rewrite bool_decide_true by done. rewrite Rep_up in HR.
    eapply IH; [exact HR| |lia]. by destruct d.
  - rewrite bool_decide_false by done. by exists z.
Qed.

Lemma step_run fuel d s c a x b k :
  Rep F N s (mk d c a x b) k → length k + height a < fuel →
  rb_step fuel d (Some x) s = Some (head (walk d a ++ ahead d k), s).
Proof.
  intros HR Hf. pose proof (Rep_lookup _ _ _ _ _ _ _ _ _ HR) as Hx.
  unfold rb_step. rewrite (bind_run _ _ _ _ _ (child_run d _ _ _ Hx)), child_mkent.
  destruct a as [|ca al ax ar] eqn:Ea; cbn [root_of nonnull].
  - rewrite (bind_run _ _ _ _ _ (parent_run _ _ _ Hx)), parent_mkent.
    replace (walk d Leaf) with (@nil positive) by by destruct d.
    assert (Hr : root_of (mk d c Leaf x b) = Some x) by apply root_of_mk.
    destruct (climb_run fuel d s _ k x HR Hr) as (y & Ec & Ep); [lia|].
    destruct k as [|[f cf p u] k]; cbn [parent_of nonnull fx].
    { erewrite bind_run by done. cbv iota. by rewrite (bind_run _ _ _ _ _ Ec). }
    destruct (Rep_child_test _ _ _ _ _ _ _ (flip d) x HR Hr) as (v & Ev & Eb).
    erewrite bind_run by (rewrite (bind_run _ _ _ _ _ Ev); done). rewrite Eb.
    destruct (decide (f = d)) as [->|Hfd].
    + rewrite bool_decide_false by (by destruct d).
      by rewrite (bind_run _ _ _ _ _ Ec).
    + rewrite bool_decide_true by (by destruct f, d).
      cbn [app ahead]. by rewrite decide_False by done.
  - rewrite <-Ea in *. rewrite Rep_down in HR.
    assert (Hne : a ≠ Leaf) by by subst.
    replace (Some ax) with (root_of a) by by subst.
    destruct (walk_run F N fuel (flip d) s a _ HR Hne ltac:(lia)) as (Ew & _).
    rewrite Ew. destruct (descend_spec (flip d) a (Fr d c x b :: k) Hne)
      as (ks & cs & y & u & Ed & Hs & Hp & _).
    rewrite Ed. cbn [fst]. rewrite root_of_mk.
    do 2 f_equal. rewrite <-Hp. destruct d; simpl; rewrite inorder_plug; simpl.
    + assert (after ks = []) as ->.
      { clear -Hs. induction Hs as [|[] ? ? ? ?]; [done|]. simpl in *. by subst. }
      by rewrite app_nil_r, !reverse_app.
    + by rewrite (straight_before ks).
Qed.

Lemma minmax_run fuel val d s par t p :
  rep (rb_mem s) par t → d = (if (val <? 0)%Z then DRight else DLeft) →
  height t < fuel →
  rb_minmax_loop fuel val (root_of t) p s =
  Some (match head (walk d t) with Some y => Some y | None => p end, s).
Proof.
  revert par t p; induction fuel as [|fuel IH]; intros par t p HR Hd Hf; [lia|].
  destruct t as [|c l x r]; [by destruct d|]. destruct HR as (Hx & Hl & Hr).
  cbn [rb_minmax_loop root_of nonnull]. simpl in Hf. unfold RB_LEFT, RB_RIGHT.
  destruct (val <? 0)%Z eqn:Ev; subst d;
    rewrite (bind_run _ _ _ _ _ (child_run _ _ _ _ Hx)); cbn [child rbe_left rbe_right].
  - rewrite (IH _ _ _ Hl) by (done || lia). simpl. do 2 f_equal.
    destruct (inorder l); done.
  - rewrite (IH _ _ _ Hr) by (done || lia). simpl. do 2 f_equal.
    rewrite reverse_app, reverse_cons. by destruct (reverse (inorder r)).
Qed.
End traversal.

(** ** What a tree head holds *)

(** The memory of [s] holds the red-black tree [t] in search order. *)
Definition Holds (cmp : positive → positive → Z) (s : rb_state) (t : tree) : Prop :=
  rep (rb_mem s) None t ∧ rbh_root s = root_of t ∧ valid t ∧ sorted cmp (inorder t).

(** Nothing but the nodes [l] changed. *)
Definition untouched (l : list positive) (s s' : rb_state) : Prop :=
  ∀ z, z ∉ l → rb_mem s' !! z = rb_mem s !! z.

(** Rounds that are enough for every loop of the macros on a tree of [n] nodes. *)
Definition rounds (n : nat) : nat := 2 * Nat.log2 (S n) + 2.

Lemma rounds_mono n m : n ≤ m → rounds n ≤ rounds m.
Proof. intros H. unfold rounds. pose proof (Nat.log2_le_mono (S n) (S m) ltac:(lia)). lia. Qed.

Lemma Holds_height cmp s t : Holds cmp s t → height t + 2 ≤ rounds (length (inorder t)).
Proof.
  intros (_ & _ & Hv & _). apply valid_height in Hv.
  unfold size in Hv. unfold rounds. lia.
Qed.

Section theorems.
Context (cmp : positive → positive → Z) `{!Comparison cmp}.

Lemma Holds_Rep N s t :
  (∀ z, z ∈ inorder t → z ∈ N) → Holds cmp s t → Rep (rb_mem s) N s t [].
Proof.
  intros HN (Ht & Hr & _ & Hs). unfold Rep; simpl. rewrite app_nil_r.
  split_and!; try done. by eapply sorted_NoDup.
Qed.

Lemma Rep_Holds F N s t :
  Rep F N s t [] → valid t → sorted cmp (inorder t) → Holds cmp s t.
Proof. intros (? & ? & _) ??. by split_and!. Qed.

(** The end of a search, as the reference operations see it. *)
Lemma search_lfind e t :
  sorted cmp (inorder t) →
  lfind cmp e (inorder t) =
    match (search cmp e t []).1 with Leaf => None | Node _ _ x _ => Some x end ∧
  ((search cmp e t []).1 = Leaf →
   linsert cmp e (inorder t) =
     before (search cmp e t []).2 ++ e :: after (search cmp e t []).2).
Proof.
  intros Hs.
  assert (Hf : fits cmp e (search cmp e t []).2)
    by (apply search_fits; [done|done|apply fits_nil]).
  pose proof (search_hit cmp e t []) as Hh.
  pose proof (search_plug cmp e t []) as Hp. simpl in Hp.
  rewrite <-Hp at 1 4. rewrite inorder_plug.
  destruct (search cmp e t []) as [[|c l x r] k]; simpl in *; destruct Hf as [Hb Ha].
  - split; [by apply lfind_None|]. intros _. by apply linsert_cut.
  - split; [|done].
    rewrite <-app_assoc. simpl. rewrite app_assoc. apply lfind_cut; [|done].
    rewrite <-Hp, inorder_plug in Hs. simpl in Hs.
    rewrite <-app_assoc, app_assoc in Hs. simpl in Hs.
    apply (sorted_app cmp) in Hs as (_ & _ & Hlt).
    unfold below. rewrite Forall_forall. intros y Hy.
    specialize (Hlt y x Hy ltac:(set_solver)).
    apply cmp_lt_gt; [done|]. apply (cmp_lt_le cmp y x e); [done|].
    pose proof (cmp_opp e x). lia.
Qed.

Lemma RB_INSERT_run fuel s t e :
  Holds cmp s t → is_Some (rb_mem s !! e) → S (height t) < fuel →
  match lfind cmp e (inorder t) with
  | Some x => RB_INSERT cmp fuel e s = Some (Some x, s)
  | None => ∃ s' t', RB_INSERT cmp fuel e s = Some (None, s') ∧ Holds cmp s' t' ∧
      inorder t' = linsert cmp e (inorder t) ∧ untouched (e :: inorder t) s s'
  end.
Proof.
  intros HH [e0 He] Hf. destruct (search_lfind e t) as [Ef Ei]; [apply HH|].
  assert (Hnew : lfind cmp e (inorder t) = None → e ∉ inorder t).
  { intros E Hin. apply (lfind_None_inv cmp e _ E e Hin), cmp_refl; done. }
  pose proof (Holds_Rep (e :: inorder t) s t ltac:(set_solver) HH) as HR.
  destruct HH as (_ & Hroot & Hv & Hs).
  destruct (insert_loop_run _ _ cmp fuel e s t [] 0 HR I ltac:(lia))
    as (comp & Hc & E).
  pose proof (search_plug cmp e t []) as Hp. simpl in Hp.
  pose proof (search_length cmp e t []) as Hl.
  destruct (rbz_top t Hv) as [n Hz].
  destruct (search_rbz cmp e t [] n Hz) as [m Hz'].
  unfold RB_INSERT. rewrite (bind_run _ _ _ _ _ (root_run _)), Hroot.
  cbn [parent_of] in E. rewrite (bind_run _ _ _ _ _ E). clear E.
  rewrite Ef in *.
  destruct (search cmp e t []) as [[|c l x r] k]; cbn [fst snd] in *; [|done].
  specialize (Hnew eq_refl). specialize (Ei eq_refl).
  rewrite <-Hp, <-Rep_plug in HR.
  assert (Hek : e ∉ nodes k).
  { intros Hek. apply Hnew. rewrite <-Hp, plug_perm. set_solver. }
  destruct (attach_run _ _ s e e0 k comp HR Hc ltac:(set_solver) Hek He)
    as (s1 & s2 & E1 & E2 & HR2).
  rewrite (bind_run _ _ _ _ _ E1), (bind_run _ _ _ _ _ E2). clear E1 E2.
  destruct (insert_color_run _ _ fuel s2 _ k m HR2 eq_refl)
    as (s3 & E3 & HR3); [by apply Hz'|simpl in Hl; lia|].
  cbn [root_of] in E3. rewrite (bind_run _ _ _ _ _ E3).
  exists s3, (ins_color (Node Red Leaf e Leaf) k).
  assert (Hin : inorder (ins_color (Node Red Leaf e Leaf) k) = linsert cmp e (inorder t)).
  { rewrite ins_color_inorder, inorder_plug by done. by rewrite Ei. }
  split_and!; [done| |done|].
  - eapply Rep_Holds; [done| |].
    + eapply ins_color_valid; [|done|apply Hz'].
      destruct Hz' as (Hz' & _). inversion Hz'; subst. auto with rb.
    + rewrite Hin. by apply linsert_sorted.
  - intros z Hz0. apply HR3. by rewrite Hp.
Qed.


Lemma Holds_open s t x :
  Holds cmp s t → x ∈ inorder t →
  ∃ c l r k n, Rep (rb_mem s) (inorder t) s (Node c l x r) k ∧
    rbz n (Node c l x r) k ∧ plug k (Node c l x r) = t ∧
    length k + height (Node c l x r) ≤ height t.
Proof.
  intros HH Hx. destruct (rbz_top t) as [n Hz]; [apply HH|].
  destruct (open_at x t [] n Hx Hz) as (c & l & r & k & m & Hp & Hz' & Hl).
  exists c, l, r, k, m. simpl in Hp, Hl. split_and!; [|done..].
  rewrite Rep_plug, Hp. by apply Holds_Rep.
Qed.

Lemma filter_ne_cut (o : positive) l k :
  NoDup (l ++ o :: k) → filter (λ y, y ≠ o) (l ++ o :: k) = l ++ k.
Proof.
  intros Hnd. rewrite filter_app, filter_cons_False by auto.
  f_equal; apply filter_all; apply Forall_forall; intros y Hy ->; occ_norm; occ_at o; lia.
Qed.

Lemma sorted_filter (o : positive) l : sorted cmp l → sorted cmp (filter (λ y, y ≠ o) l).
Proof.
  induction l as [|y l IH]; [done|]. intros [Hs Hy]%(sorted_cons cmp).
  destruct (decide (y = o)) as [->|].
  - rewrite filter_cons_False by auto. by apply IH.
  - rewrite filter_cons_True by done. apply (sorted_cons cmp); split; [by apply IH|].
    rewrite Forall_forall in *. intros z [_ Hz]%list_elem_of_filter. by apply Hy.
Qed.

Lemma RB_REMOVE_run fuel s t o :
  Holds cmp s t → o ∈ inorder t → S (height t) < fuel →
  ∃ s' t', RB_REMOVE fuel (Some o) s = Some (Some o, s') ∧ Holds cmp s' t' ∧
    inorder t' = filter (λ y, y ≠ o) (inorder t) ∧ untouched (inorder t) s s'.
Proof.
  intros HH Ho Hf. destruct (Holds_open s t o HH Ho) as (c & l & r & k & n & HR & Hz & Hp & Hl).
  destruct (remove_run _ _ fuel s c l o r k n HR Hz) as (s' & t' & E & HR' & Hv & Hi); [lia|].
  exists s', t'. split; [done|].
  assert (inorder t' = filter (λ y, y ≠ o) (inorder t)) as Hin.
  { assert (Hc : inorder t = (before k ++ inorder l) ++ o :: (inorder r ++ after k)).
    { rewrite <-Hp, inorder_plug. simpl. by rewrite <-!app_assoc. }
    rewrite Hi, Hc, filter_ne_cut; [by rewrite <-!app_assoc|].
    rewrite <-Hc. apply (sorted_NoDup cmp), HH. }
  split_and!; [|done|by destruct HR' as (_ & _ & _ & _ & ?)].
  eapply Rep_Holds; [done..|]. rewrite Hin. apply sorted_filter, HH.
Qed.

Lemma find_loop_run fuel s e par t k :
  rep (rb_mem s) par t → height t < fuel →
  rb_find_loop cmp fuel e (root_of t) s = Some (root_of (search cmp e t k).1, s).
Proof.
  revert par t k; induction fuel as [|fuel IH]; intros par t k HR Hf; [lia|].
  destruct t as [|c l x r]; [done|]. destruct HR as (Hx & Hl & Hr).
  cbn [rb_find_loop root_of search]. simpl in Hf. cbv zeta. unfold RB_LEFT, RB_RIGHT.
  destruct (cmp e x <? 0)%Z; [|destruct (0 <? cmp e x)%Z; [|done]];
    rewrite (bind_run _ _ _ _ _ (child_run _ _ _ _ Hx)); eapply IH; [done|lia|done|lia].
Qed.

Lemma nfind_loop_run fuel s e par t res :
  sorted cmp (inorder t) → rep (rb_mem s) par t → height t < fuel →
  rb_nfind_loop cmp fuel e (root_of t) res s =
  Some (match lnfind cmp e (inorder t) with Some y => Some y | None => res end, s).
Proof.
  revert par t res; induction fuel as [|fuel IH]; intros par t res Hs HR Hf; [lia|].
  destruct t as [|c l x r]; [done|]. destruct HR as (Hx & Hl & Hr).
  cbn [rb_nfind_loop root_of]. simpl in Hf, Hs |- *. unfold RB_LEFT, RB_RIGHT.
  pose proof (proj1 (sorted_app cmp _ _) Hs) as (Hsl & Hsx & _).
  apply (sorted_cons cmp) in Hsx as [Hsr _].
  assert (Hcat : lnfind cmp e (inorder l ++ x :: inorder r) =
    match lnfind cmp e (inorder l) with
    | Some y => Some y | None => lnfind cmp e (x :: inorder r) end).
  { unfold lnfind. generalize (inorder l). induction l0 as [|y l0 IHl]; simpl; [done|].
    by destruct (cmp e y <=? 0)%Z. }
  destruct (Z.ltb_spec (cmp e x) 0) as [Hc|Hc]; [|destruct (Z.ltb_spec 0 (cmp e x)) as [Hc'|Hc']];
    rewrite ?(bind_run _ _ _ _ _ (child_run _ _ _ _ Hx)).
  - rewrite (IH _ _ _ Hsl Hl) by lia. rewrite Hcat, (lnfind_head cmp) by lia.
    by destruct (lnfind cmp e (inorder l)).
  - rewrite (IH _ _ _ Hsr Hr) by lia. replace (inorder l ++ x :: inorder r)
      with ((inorder l ++ [x]) ++ inorder r) in * by by rewrite <-app_assoc.
    rewrite (lnfind_app cmp); [done|]. apply (below_sorted cmp); [|lia].
    by apply (sorted_app cmp) in Hs as (? & _).
  - rewrite Hcat, (lnfind_head cmp) by lia.
    destruct (lnfind cmp e (inorder l)) as [y|] eqn:El; [|done].
    apply List.find_some in El as [Hy Hle%Z.leb_le]. apply list_elem_of_In in Hy.
    apply (sorted_app cmp) in Hs as (_ & _ & Hlt). specialize (Hlt y x Hy ltac:(set_solver)).
    pose proof (cmp_le_lt cmp e y x Hle Hlt). lia.
Qed.

Lemma Holds_step fuel d s t pre x post :
  Holds cmp s t → walk d t = pre ++ x :: post → height t < fuel →
  rb_step fuel d (Some x) s = Some (head post, s).
Proof.
  intros HH Hw Hf.
  assert (Hnd : NoDup (walk d t)).
  { destruct d; simpl; [rewrite reverse_Permutation|]; apply (sorted_NoDup cmp), HH. }
  assert (Hx : x ∈ inorder t).
  { assert (x ∈ walk d t) as Hx by (rewrite Hw; set_solver).
    destruct d; simpl in Hx; [by rewrite reverse_Permutation in Hx|done]. }
  destruct (Holds_open s t x HH Hx) as (c & l & r & k & n & HR & _ & Hp & Hl).
  destruct (walk_plug d k (Node c l x r)) as [pre' Hw']. rewrite Hp in Hw'.
  assert (Node c l x r = mk d c (near d (Node c l x r)) x (near (flip d) (Node c l x r)))
    as En by by destruct d.
  rewrite En in HR, Hw'. rewrite walk_mk, <-app_assoc, app_assoc in Hw'. simpl in Hw'.
  erewrite step_run; [|exact HR|].
  - do 3 f_equal. rewrite Hw' in Hw, Hnd. by eapply NoDup_cut.
  - destruct d; simpl in *; lia.
Qed.

Lemma foreach_run bound fuel d s t pre l :
  Holds cmp s t → walk d t = pre ++ l → height t < bound → length l < fuel →
  rb_foreach_loop bound fuel d (λ _, mret tt) (head l) s = Some (l, s).
Proof.
  intros HH Hw Hb. revert pre l Hw. induction fuel as [|fuel IH]; intros pre l Hw Hl; [lia|].
  destruct l as [|x l]; [done|]. cbn [rb_foreach_loop head]. simpl in Hl.
  erewrite bind_run by done.
  rewrite (bind_run _ _ _ _ _ (Holds_step _ _ _ _ _ _ _ HH Hw Hb)).
  rewrite cons_middle, app_assoc in Hw.
  by rewrite (bind_run _ _ _ _ _ (IH _ _ Hw ltac:(lia))).
Qed.

Lemma walk_inorder d t l : walk d t = l ↔ inorder t = (match d with DRight => l | DLeft => reverse l end).
Proof.
  destruct d; simpl; [|done]. split; [intros <-|intros ->]; by rewrite reverse_involutive.
Qed.

Lemma filter_reverse (P : positive → Prop) `{!∀ x, Decision (P x)} l :
  filter P (reverse l) = reverse (filter P l).
Proof.
  induction l as [|x l IH]; [done|]. rewrite reverse_cons, filter_app, IH.
  destruct (decide (P x)).
  - by rewrite filter_cons_True, filter_cons_True, reverse_cons.
  - by rewrite filter_cons_False, filter_cons_False, app_nil_r.
Qed.

Lemma walk_filter (P : positive → Prop) `{!∀ x, Decision (P x)} d t t' :
  inorder t' = filter P (inorder t) → walk d t' = filter P (walk d t).
Proof. destruct d; simpl; intros ->; [by rewrite filter_reverse|done]. Qed.

(** A loop that removes the elements chosen by [p]; [pre] is what is left of
    the part it has been through. *)
Lemma foreach_safe_run (p : positive → bool) bound fuel d s t pre l :
  Holds cmp s t → walk d t = pre ++ l → rounds (length (inorder t)) ≤ bound →
  length l < fuel →
  ∃ s' t', rb_foreach_safe_loop bound fuel d
      (λ e, if p e then RB_REMOVE bound (Some e);; mret tt else mret tt) (head l) s =
      Some (l, s') ∧
    Holds cmp s' t' ∧ walk d t' = pre ++ filter (λ e, p e = false) l ∧
    untouched (inorder t) s s'.
Proof.
  revert s t pre l. induction fuel as [|fuel IH]; intros s t pre l HH Hw Hb Hl; [lia|].
  destruct l as [|x l]; [by exists s, t|]. cbn [rb_foreach_safe_loop head]. simpl in Hl.
  pose proof (Holds_height _ _ _ HH) as Hh.
  assert (Hlt : height t < bound) by lia.
  rewrite (bind_run _ _ _ _ _ (Holds_step _ _ _ _ _ _ _ HH Hw Hlt)).
  destruct (p x) eqn:Ep.
  - assert (Hnd : NoDup (walk d t)).
    { destruct d; simpl; [rewrite reverse_Permutation|]; apply (sorted_NoDup cmp), HH. }
    assert (Hx : x ∈ inorder t).
    { assert (x ∈ walk d t) as Hx by (rewrite Hw; set_solver).
      destruct d; simpl in Hx; [by rewrite reverse_Permutation in Hx|done]. }
    destruct (RB_REMOVE_run bound s t x HH Hx ltac:(lia)) as (s1 & t1 & E & HH1 & Hi & Hu).
    assert (Hw1 : walk d t1 = pre ++ l).
    { rewrite (walk_filter _ d _ _ Hi), Hw. apply filter_ne_cut. by rewrite <-Hw. }
    assert (Hlen : length (inorder t1) ≤ length (inorder t))
      by (rewrite Hi; apply length_filter).
    destruct (IH s1 t1 pre l HH1 Hw1) as (s2 & t2 & E2 & HH2 & Hw2 & Hu2); [|lia|].
    { etransitivity; [by apply rounds_mono|exact Hb]. }
    exists s2, t2. split_and!; [|done| |].
    + erewrite bind_run by by rewrite (bind_run _ _ _ _ _ E).
      by rewrite (bind_run _ _ _ _ _ E2).
    + rewrite filter_cons_False by by rewrite Ep. done.
    + intros z Hz. rewrite (Hu2 z), (Hu z); [done..|].
      rewrite Hi. by intros [_ ?]%list_elem_of_filter.
  - rewrite cons_middle, app_assoc in Hw.
    destruct (IH s t (pre ++ [x]) l HH Hw Hb) as (s2 & t2 & E2 & HH2 & Hw2 & Hu2); [lia|].
    exists s2, t2. split_and!; [|done| |done].
    + erewrite bind_run by done. by rewrite (bind_run _ _ _ _ _ E2).
    + by rewrite Hw2, filter_cons_True, <-app_assoc.
Qed.
End theorems.
