(* ===== verification/RBProperties.v ===== *)
(** What the red-black tree macros promise their callers: one theorem per
    macro, and the refinement of whole histories of calls to operations on the
    ordered sequence. *)
From Stdlib Require Import ZArith Lia.
From stdpp Require Import prelude gmap.
From S2P Require Import Prelude Ordered RBSpec RBTree RBProof RBTheorems.

(** ** The set of elements in memory never changes *)

Definition stable {A} (m : M A) : Prop :=
  ∀ s a s', m s = Some (a, s') → dom (rb_mem s') = dom (rb_mem s).

Create HintDb stable.

Lemma stable_ret {A} (a : A) : stable (mret a).
Proof. by intros s b s' [= -> ->]. Qed.

Lemma stable_fail {A} : stable (@fail rb_state A).
Proof. done. Qed.

Lemma stable_bind {A B} (m : M A) (f : A → M B) :
  stable m → (∀ a, stable (f a)) → stable (m ≫= f).
Proof.
  intros Hm Hf s b s'. unfold mbind, ST_bind.
  destruct (m s) as [[a s1]|] eqn:E; [|done]. intros Eb.
  rewrite (Hf _ _ _ _ Eb). by eapply Hm.
Qed.

Lemma stable_if {A} (b : bool) (m k : M A) : stable m → stable k → stable (if b then m else k).
Proof. by destruct b. Qed.

Lemma stable_deref p : stable (deref p).
Proof.
  intros s a s'. unfold deref. destruct p as [x|]; [|done]. simpl.
  destruct (rb_mem s !! x); [|done]. by intros [= -> ->].
Qed.

Lemma stable_assign p f : stable (assign p f).
Proof.
  intros s a s'. unfold assign. destruct p as [x|]; [|done]. simpl.
  destruct (rb_mem s !! x) eqn:E; [|done]. intros [= _ <-]. simpl.
  apply dom_insert_lookup_L. by rewrite E.
Qed.

Lemma stable_root : stable RB_ROOT.
Proof. intros s a s' E. by injection E as _ <-. Qed.

Lemma stable_set_root p : stable (SET_ROOT p).
Proof. intros s a s' E. by injection E as _ <-. Qed.

#[export] Hint Resolve stable_ret stable_fail stable_deref stable_assign
  stable_root stable_set_root : stable.

(** Walk through a translated function. *)
Ltac stable_step :=
  first
    [ apply stable_bind; [|intros ?]
    | apply stable_if
    | progress cbv zeta
    | match goal with
      | |- stable (match ?x with _ => _ end) => destruct x
      | |- stable (let '(_, _) := ?x in _) => destruct x
      end ].

Ltac stables := repeat (solve [auto with stable] || stable_step).

Lemma stable_child d p : stable (RB_CHILD d p).
Proof. unfold RB_CHILD. stables. Qed.
Lemma stable_parent p : stable (RB_PARENT p).
Proof. unfold RB_PARENT. stables. Qed.
Lemma stable_color p : stable (RB_COLOR p).
Proof. unfold RB_COLOR. stables. Qed.
Lemma stable_set_child d p q : stable (SET_CHILD d p q).
Proof. unfold SET_CHILD. stables. Qed.
Lemma stable_set_parent p q : stable (SET_PARENT p q).
Proof. unfold SET_PARENT. stables. Qed.
Lemma stable_set_color p c : stable (SET_COLOR p c).
Proof. unfold SET_COLOR. stables. Qed.

#[export] Hint Resolve stable_child stable_parent stable_color stable_set_child
  stable_set_parent stable_set_color : stable.
#[export] Hint Extern 1 (stable (RB_LEFT _)) => apply stable_child : stable.
#[export] Hint Extern 1 (stable (RB_RIGHT _)) => apply stable_child : stable.
#[export] Hint Extern 1 (stable (SET_LEFT _ _)) => apply stable_set_child : stable.
#[export] Hint Extern 1 (stable (SET_RIGHT _ _)) => apply stable_set_child : stable.
#[export] Hint Extern 1 (stable (RB_AUGMENT _)) => apply stable_ret : stable.

Lemma stable_is_red p : stable (rb_is_red p).
Proof. unfold rb_is_red. stables. Qed.
Lemma stable_is_black p : stable (rb_is_black p).
Proof. unfold rb_is_black. stables. Qed.
Lemma stable_blackred p q : stable (RB_SET_BLACKRED p q).
Proof. unfold RB_SET_BLACKRED. stables. Qed.
Lemma stable_rotate d p : stable (RB_ROTATE d p).
Proof. unfold RB_ROTATE, rb_repoint. stables. Qed.

#[export] Hint Resolve stable_is_red stable_is_black stable_blackred stable_rotate : stable.

Lemma stable_insert_loop cmp fuel e tmp parent c :
  stable (rb_insert_loop cmp fuel e tmp parent c).
Proof.
  revert tmp parent c; induction fuel as [|fuel IH]; intros; cbn [rb_insert_loop]; stables.
Qed.

Lemma stable_insert_color fuel p : stable (RB_INSERT_COLOR fuel p).
Proof.
  assert (∀ p, stable (rb_insert_color_loop fuel p)).
  { induction fuel as [|fuel IH]; intros; cbn [rb_insert_color_loop];
      unfold rb_insert_color_round; stables. }
  unfold RB_INSERT_COLOR. stables.
Qed.

Lemma stable_insert cmp fuel e : stable (RB_INSERT cmp fuel e).
Proof.
  pose proof stable_insert_loop. pose proof stable_insert_color.
  unfold RB_INSERT, RB_SET. stables.
Qed.

Lemma stable_remove_color fuel p q : stable (RB_REMOVE_COLOR fuel p q).
Proof.
  assert (∀ p q, stable (rb_remove_color_loop fuel p q)).
  { induction fuel as [|fuel IH]; intros; cbn [rb_remove_color_loop];
      unfold rb_remove_color_round, rb_remove_color_black, rb_remove_color_near,
        rb_remove_color_finish; stables. }
  unfold RB_REMOVE_COLOR. stables.
Qed.

Lemma stable_walk fuel d p : stable (rb_walk fuel d p).
Proof. revert p; induction fuel as [|fuel IH]; intros; cbn [rb_walk]; stables. Qed.

Lemma stable_augment_up fuel p : stable (rb_augment_up fuel p).
Proof. revert p; induction fuel as [|fuel IH]; intros; cbn [rb_augment_up]; stables. Qed.

#[export] Hint Resolve stable_remove_color stable_walk stable_augment_up : stable.

Lemma stable_unlink p q r : stable (rb_unlink p q r).
Proof. unfold rb_unlink. stables. Qed.

Lemma stable_replace p q : stable (rb_replace p q).
Proof. unfold rb_replace. stables. Qed.

#[export] Hint Resolve stable_unlink stable_replace : stable.

Lemma stable_remove fuel p : stable (RB_REMOVE fuel p).
Proof. unfold RB_REMOVE, rb_remove_one, rb_remove_two. stables. Qed.

(** ** Histories of calls *)

Inductive rb_op :=
  | OpInsert (e : positive)
  | OpRemove (o : positive)
  | OpFind (e : positive)
  | OpNfind (e : positive)
  | OpMin
  | OpMax.

Section histories.
Context (cmp : positive → positive → Z) `{!Comparison cmp}.

Definition run_op (fuel : nat) (op : rb_op) : M ptr :=
  match op with
  | OpInsert e => RB_INSERT cmp fuel e
  | OpRemove o => RB_REMOVE fuel (Some o)
  | OpFind e => RB_FIND cmp fuel e
  | OpNfind e => RB_NFIND cmp fuel e
  | OpMin => RB_MIN fuel
  | OpMax => RB_MAX fuel
  end.

Fixpoint run_ops (fuel : nat) (ops : list rb_op) : M (list ptr) :=
  match ops with
  | [] => mret []
  | op :: ops =>
      r ← run_op fuel op; rs ← run_ops fuel ops; mret (r :: rs)
  end.

(** The same calls on the ordered sequence.  [None]: the caller breaks the
    contract of [RB_REMOVE], which takes an element of the tree. *)
Definition spec_op (op : rb_op) (l : list positive) : option (ptr * list positive) :=
  match op with
  | OpInsert e =>
      match lfind cmp e l with
      | Some x => Some (Some x, l)
      | None => Some (None, linsert cmp e l)
      end
  | OpRemove o => if decide (o ∈ l) then Some (Some o, filter (λ y, y ≠ o) l) else None
  | OpFind e => Some (lfind cmp e l, l)
  | OpNfind e => Some (lnfind cmp e l, l)
  | OpMin => Some (head l, l)
  | OpMax => Some (last l, l)
  end.

Fixpoint spec_ops (ops : list rb_op) (l : list positive) : option (list ptr * list positive) :=
  match ops with
  | [] => Some ([], l)
  | op :: ops =>
      '(r, l) ← spec_op op l; '(rs, l) ← spec_ops ops l; Some (r :: rs, l)
  end.

(** The elements a history inserts. *)
Definition inserted (ops : list rb_op) : list positive :=
  omap (λ op, match op with OpInsert e => Some e | _ => None end) ops.

Lemma linsert_length e l : length (linsert cmp e l) ≤ S (length l).
Proof.
  induction l as [|y l IH]; simpl; [lia|].
  destruct (cmp e y <? 0)%Z; simpl; [lia|]. destruct (0 <? cmp e y)%Z; simpl; lia.
Qed.

Lemma RB_FIND_run fuel s t e :
  Holds cmp s t → height t < fuel → RB_FIND cmp fuel e s = Some (lfind cmp e (inorder t), s).
Proof.
  intros (HR & Hr & _ & Hs) Hf. unfold RB_FIND.
  rewrite (bind_run _ _ _ _ _ (root_run _)), Hr.
  rewrite (find_loop_run cmp fuel s e None t []) by done.
  destruct (search_lfind cmp e t Hs) as [-> _].
  by destruct (search cmp e t []) as [[] ?].
Qed.

Lemma RB_NFIND_run fuel s t e :
  Holds cmp s t → height t < fuel → RB_NFIND cmp fuel e s = Some (lnfind cmp e (inorder t), s).
Proof.
  intros (HR & Hr & _ & Hs) Hf. unfold RB_NFIND.
  rewrite (bind_run _ _ _ _ _ (root_run _)), Hr.
  rewrite (nfind_loop_run cmp fuel s e None t None) by done.
  by destruct (lnfind cmp e (inorder t)).
Qed.

Lemma head_reverse {A} (l : list A) : head (reverse l) = last l.
Proof. by rewrite head_reverse. Qed.

Lemma RB_MINMAX_run fuel s t val :
  Holds cmp s t → height t < fuel →
  RB_MINMAX fuel val s =
  Some (if (val <? 0)%Z then head (inorder t) else last (inorder t), s).
Proof.
  intros (HR & Hr & _ & _) Hf. unfold RB_MINMAX.
  rewrite (bind_run _ _ _ _ _ (root_run _)), Hr.
  rewrite (minmax_run fuel val (if (val <? 0)%Z then DRight else DLeft) s None) by done.
  destruct (val <? 0)%Z; simpl; [by destruct (head _)|].
  rewrite head_reverse. by destruct (last _).
Qed.

(** One call refines its counterpart on the sequence. *)
Lemma op_run fuel op s t r l :
  Holds cmp s t → rounds (length (inorder t)) ≤ fuel →
  (∀ e, op = OpInsert e → e ∈ dom (rb_mem s)) →
  spec_op op (inorder t) = Some (r, l) →
  ∃ s' t', run_op fuel op s = Some (r, s') ∧ Holds cmp s' t' ∧ inorder t' = l ∧
    dom (rb_mem s') = dom (rb_mem s) ∧ length l ≤ S (length (inorder t)).
Proof.
  intros HH Hf Hm. pose proof (Holds_height _ _ _ HH) as Hh.
  destruct op as [e|o|e|e| |]; simpl.
  - pose proof (RB_INSERT_run cmp fuel s t e HH) as HI.
    pose proof (linsert_length e (inorder t)) as Hlen.
    destruct (lfind cmp e (inorder t)) as [x|].
    + intros [= <- <-]. exists s, t. split_and!; [|done..|lia].
      apply HI; [by apply elem_of_dom, Hm|lia].
    + intros [= <- <-]. destruct HI as (s' & t' & E & HH' & Hi & _);
        [by apply elem_of_dom, Hm|lia|].
      exists s', t'. split_and!; [done..|by eapply stable_insert|done].
  - destruct (decide (o ∈ inorder t)) as [Ho|]; [|done]. intros [= <- <-].
    destruct (RB_REMOVE_run cmp fuel s t o HH Ho) as (s' & t' & E & HH' & Hi & _); [lia|].
    exists s', t'. split_and!; [done..|by eapply stable_remove|].
    pose proof (length_filter (λ y, y ≠ o) (inorder t)). lia.
  - intros [= <- <-]. exists s, t. split_and!; [|done..|lia].
    apply RB_FIND_run; [done|lia].
  - intros [= <- <-]. exists s, t. split_and!; [|done..|lia].
    apply RB_NFIND_run; [done|lia].
  - intros [= <- <-]. exists s, t. split_and!; [|done..|lia].
    unfold RB_MIN. rewrite (RB_MINMAX_run fuel s t) by (done || lia). done.
  - intros [= <- <-]. exists s, t. split_and!; [|done..|lia].
    unfold RB_MAX. rewrite (RB_MINMAX_run fuel s t) by (done || lia). done.
Qed.

Lemma ops_run fuel ops s t rs l :
  Holds cmp s t → rounds (length (inorder t) + length ops) ≤ fuel →
  (∀ e, e ∈ inserted ops → e ∈ dom (rb_mem s)) →
  spec_ops ops (inorder t) = Some (rs, l) →
  ∃ s' t', run_ops fuel ops s = Some (rs, s') ∧ Holds cmp s' t' ∧ inorder t' = l.
Proof.
  revert s t rs; induction ops as [|op ops IH]; intros s t rs HH Hf Hm E.
  { simpl in E. simplify_eq. by exists s, t. }
  cbn [spec_ops] in E. apply bind_Some in E as ([r l1] & E1 & E).
  apply bind_Some in E as ([rs1 l2] & E2 & E). simplify_eq.
  simpl in Hf. destruct (op_run fuel op s t r l1 HH) as (s1 & t1 & R1 & HH1 & <- & Hd & Hlen);
    [| |done|].
  { etransitivity; [|exact Hf]. apply rounds_mono. lia. }
  { intros e ->. apply Hm. simpl. set_solver. }
  destruct (IH s1 t1 rs1 HH1) as (s2 & t2 & R2 & HH2 & Hi2); [| |done|].
  { etransitivity; [|exact Hf]. apply rounds_mono. lia. }
  { intros e He. rewrite Hd. apply Hm. unfold inserted in *. simpl.
    destruct op; simpl; set_solver. }
  exists s2, t2. split_and!; [|done..]. cbn [run_ops].
  by rewrite (bind_run _ _ _ _ _ R1), (bind_run _ _ _ _ _ R2).
Qed.
End histories.

(** ** The macros *)

(** Three elements in a tree, a fourth in memory only. *)
Definition demo_tree : tree :=
  Node Black (Node Red Leaf 1 Leaf) 2 (Node Red Leaf 3 Leaf).

Definition demo : rb_state :=
  RbState (Some 2%positive)
    (<[1%positive := RbEntry None None (Some 2%positive) RB_RED]>
    (<[2%positive := RbEntry (Some 1%positive) (Some 3%positive) None RB_BLACK]>
    (<[3%positive := RbEntry None None (Some 2%positive) RB_RED]>
    (<[4%positive := RbEntry None None None RB_BLACK]> ∅)))).

Lemma demo_holds : Holds poscmp demo demo_tree.
Proof.
  unfold Holds, sorted, valid. split_and!; try by vm_compute.
  - exists 1. repeat constructor.
  - unfold poscmp; simpl. repeat constructor; lia.
Qed.

Section properties.
Context (cmp : positive → positive → Z) `{!Comparison cmp}.
Implicit Types (s : rb_state) (t : tree).

(** C1: [RB_INSERT] returns NULL and adds the element at its place in the
    order, or returns the element that already has its key and changes
    nothing; the result is again a red-black tree, no other element is
    written, and logarithmically many rounds are enough. *)
Theorem RB_INSERT_correct fuel s t e :
  Holds cmp s t → is_Some (rb_mem s !! e) → rounds (length (inorder t)) ≤ fuel →
  match lfind cmp e (inorder t) with
  | Some x => RB_INSERT cmp fuel e s = Some (Some x, s)
  | None => ∃ s' t', RB_INSERT cmp fuel e s = Some (None, s') ∧ Holds cmp s' t' ∧
      inorder t' = linsert cmp e (inorder t) ∧ untouched (e :: inorder t) s s'
  end.
Proof.
  intros HH He Hf. pose proof (Holds_height _ _ _ HH).
  apply RB_INSERT_run; [done..|lia].
Qed.

(** C2: [RB_REMOVE] of an element of the tree returns it and takes just that
    element out of the sequence; the result is again a red-black tree, no
    element outside the tree is written, and logarithmically many rounds are
    enough. *)
Theorem RB_REMOVE_correct fuel s t o :
  Holds cmp s t → o ∈ inorder t → rounds (length (inorder t)) ≤ fuel →
  ∃ s' t', RB_REMOVE fuel (Some o) s = Some (Some o, s') ∧ Holds cmp s' t' ∧
    inorder t' = filter (λ y, y ≠ o) (inorder t) ∧ untouched (inorder t) s s'.
Proof.
  intros HH Ho Hf. pose proof (Holds_height _ _ _ HH).
  apply RB_REMOVE_run; [done..|lia].
Qed.

(** C3: any history of calls, started with [RB_INIT] on elements in memory,
    answers as the same calls on an ordered sequence, and leaves a red-black
    tree of that sequence. *)
Theorem RB_refines_sequence fuel s ops rs l :
  rounds (length ops) ≤ fuel →
  (∀ e, e ∈ inserted ops → is_Some (rb_mem s !! e)) →
  spec_ops cmp ops [] = Some (rs, l) →
  ∃ s' t', (RB_INIT;; run_ops cmp fuel ops) s = Some (rs, s') ∧ Holds cmp s' t' ∧
    inorder t' = l.
Proof.
  intros Hf Hm E. unfold RB_INIT. erewrite bind_run by done.
  apply (ops_run cmp fuel ops _ Leaf); simpl; [|done| |done].
  - split_and!; [done..|split; [done|by exists 0; constructor]|constructor].
  - intros e He. by apply elem_of_dom, Hm.
Qed.

(** [RB_FIND] returns the element with the key of [e], and [RB_NFIND] the
    first element not below it, or NULL; neither changes anything, and both
    need logarithmically many rounds. *)
Theorem RB_FIND_NFIND_correct fuel s t e :
  Holds cmp s t → rounds (length (inorder t)) ≤ fuel →
  RB_FIND cmp fuel e s = Some (lfind cmp e (inorder t), s) ∧
  RB_NFIND cmp fuel e s = Some (lnfind cmp e (inorder t), s).
Proof.
  intros HH Hf. pose proof (Holds_height _ _ _ HH).
  split; [apply RB_FIND_run|apply RB_NFIND_run]; (done || lia).
Qed.

(** [RB_NEXT] and [RB_PREV] are the successor and predecessor in the
    sequence, NULL at its ends. *)
Theorem RB_NEXT_PREV_correct fuel s t pre x post :
  Holds cmp s t → inorder t = pre ++ x :: post → rounds (length (inorder t)) ≤ fuel →
  RB_NEXT fuel (Some x) s = Some (head post, s) ∧
  RB_PREV fuel (Some x) s = Some (last pre, s).
Proof.
  intros HH Hi Hf. pose proof (Holds_height _ _ _ HH). split.
  - apply (Holds_step cmp fuel DRight s t pre); [done..|lia].
  - rewrite <-head_reverse. apply (Holds_step cmp fuel DLeft s t (reverse post)); [done| |lia].
    simpl. rewrite Hi, reverse_app, reverse_cons, <-app_assoc. done.
Qed.

(** The [RB_FOREACH] loops run their body once on every element, in order
    and in reverse order, when the body leaves the tree alone. *)
Theorem RB_FOREACH_correct fuel s t :
  Holds cmp s t → rounds (length (inorder t)) + length (inorder t) ≤ fuel →
  RB_FOREACH fuel (λ _, mret tt) s = Some (inorder t, s) ∧
  RB_FOREACH_REVERSE fuel (λ _, mret tt) s = Some (reverse (inorder t), s).
Proof.
  intros HH Hf. pose proof (Holds_height _ _ _ HH).
  unfold RB_FOREACH, RB_FOREACH_REVERSE, RB_MIN, RB_MAX.
  rewrite !(bind_run _ _ _ _ _ (RB_MINMAX_run cmp fuel s t _ HH ltac:(lia))). simpl.
  split.
  - apply (foreach_run cmp fuel fuel DRight s t [] (inorder t)); [done..|lia|lia].
  - rewrite <-head_reverse.
    apply (foreach_run cmp fuel fuel DLeft s t []); [done..|lia|]. rewrite length_reverse. lia.
Qed.

(** The body of a [_SAFE] loop may remove the element it is run on: every
    element of the original tree is visited once and exactly the others
    remain, in a red-black tree. *)
Theorem RB_FOREACH_SAFE_correct (p : positive → bool) fuel s t
    (body := λ e, if p e then RB_REMOVE fuel (Some e);; mret tt else mret tt) :
  Holds cmp s t → rounds (length (inorder t)) + length (inorder t) ≤ fuel →
  (∃ s' t', RB_FOREACH_SAFE fuel body s = Some (inorder t, s') ∧ Holds cmp s' t' ∧
     inorder t' = filter (λ e, p e = false) (inorder t) ∧ untouched (inorder t) s s') ∧
  (∃ s' t', RB_FOREACH_REVERSE_SAFE fuel body s = Some (reverse (inorder t), s') ∧
     Holds cmp s' t' ∧
     inorder t' = filter (λ e, p e = false) (inorder t) ∧ untouched (inorder t) s s').
Proof.
  intros HH Hf. pose proof (Holds_height _ _ _ HH).
  unfold RB_FOREACH_SAFE, RB_FOREACH_REVERSE_SAFE, RB_MIN, RB_MAX.
  rewrite !(bind_run _ _ _ _ _ (RB_MINMAX_run cmp fuel s t _ HH ltac:(lia))). simpl.
  split.
  - apply (foreach_safe_run cmp p fuel fuel DRight s t [] (inorder t)); [done..|lia|lia].
  - rewrite <-head_reverse.
    destruct (foreach_safe_run cmp p fuel fuel DLeft s t [] (reverse (inorder t)))
      as (s' & t' & ? & ? & Hw & ?); [done..|lia|rewrite length_reverse; lia|].
    exists s', t'. split_and!; [done..| |done].
    apply (walk_inorder DLeft) in Hw. simpl in Hw. by rewrite Hw, filter_reverse, reverse_involutive.
Qed.

(** C4: Everything that is asked of a tree without changing it: [RB_FIND] returns the
    element with the key, [RB_NFIND] the first one not below it, [RB_NEXT] and
    [RB_PREV] the neighbours of an element; each NULL when there is none, and each
    in logarithmically many rounds. *)
Theorem RB_queries_correct fuel s t :
  Holds cmp s t → rounds (length (inorder t)) ≤ fuel →
  (∀ e, RB_FIND cmp fuel e s = Some (lfind cmp e (inorder t), s) ∧
        RB_NFIND cmp fuel e s = Some (lnfind cmp e (inorder t), s)) ∧
  ∀ pre x post, inorder t = pre ++ x :: post →
    RB_NEXT fuel (Some x) s = Some (head post, s) ∧ RB_PREV fuel (Some x) s = Some (last pre, s).
Proof.
  intros HH Hf. split; [intros e; by apply RB_FIND_NFIND_correct|].
  intros pre x post Hi. by apply (RB_NEXT_PREV_correct fuel s t).
Qed.

(** C5: The loops: [RB_FOREACH] and [RB_FOREACH_REVERSE] run a body that leaves the
    tree alone once on every element, in order and in reverse order; in a [_SAFE]
    loop the body may remove the element it is run on, and then exactly the
    others remain, in a red-black tree. *)
Theorem RB_loops_correct (p : positive → bool) fuel s t
    (body := λ e, if p e then RB_REMOVE fuel (Some e);; mret tt else mret tt) :
  Holds cmp s t → rounds (length (inorder t)) + length (inorder t) ≤ fuel →
  (RB_FOREACH fuel (λ _, mret tt) s = Some (inorder t, s) ∧
   RB_FOREACH_REVERSE fuel (λ _, mret tt) s = Some (reverse (inorder t), s)) ∧
  (∃ s' t', RB_FOREACH_SAFE fuel body s = Some (inorder t, s') ∧ Holds cmp s' t' ∧
     inorder t' = filter (λ e, p e = false) (inorder t) ∧ untouched (inorder t) s s') ∧
  (∃ s' t', RB_FOREACH_REVERSE_SAFE fuel body s = Some (reverse (inorder t), s') ∧
     Holds cmp s' t' ∧
     inorder t' = filter (λ e, p e = false) (inorder t) ∧ untouched (inorder t) s s').
Proof. intros HH Hf. split; [by apply RB_FOREACH_correct|by apply RB_FOREACH_SAFE_correct]. Qed.
End properties.

Lemma RB_INSERT_correct_witness :
  ∃ s' t', RB_INSERT poscmp 6 4 demo = Some (None, s') ∧ Holds poscmp s' t' ∧
    inorder t' = [1;2;3;4]%positive ∧ untouched [4;1;2;3]%positive demo s'.
Proof.
  apply (RB_INSERT_correct poscmp 6 demo demo_tree 4 demo_holds).
  - vm_compute. eauto.
  - vm_compute. lia.
Defined.

Lemma RB_REMOVE_correct_witness :
  ∃ s' t', RB_REMOVE 6 (Some 2%positive) demo = Some (Some 2%positive, s') ∧
    Holds poscmp s' t' ∧ inorder t' = [1;3]%positive ∧ untouched [1;2;3]%positive demo s'.
Proof.
  apply (RB_REMOVE_correct poscmp 6 demo demo_tree 2 demo_holds).
  - set_solver.
  - vm_compute. lia.
Defined.

Lemma RB_refines_sequence_witness :
  ∃ s' t', (RB_INIT;; run_ops poscmp 6
      [OpInsert 3; OpInsert 1; OpMax; OpInsert 3; OpRemove 3; OpNfind 1]%positive) demo =
    Some ([None; None; Some 3; Some 3; Some 3; Some 1]%positive, s') ∧
    Holds poscmp s' t' ∧ inorder t' = [1]%positive.
Proof.
  apply RB_refines_sequence.
  - apply _.
  - vm_compute. lia.
  - intros e He. assert (e = 1%positive ∨ e = 3%positive) as [-> | ->]
      by (unfold inserted in He; simpl in He; set_solver); vm_compute; eauto.
  - by vm_compute.
Defined.

Lemma RB_FIND_NFIND_correct_witness :
  RB_FIND poscmp 6 3 demo = Some (Some 3%positive, demo) ∧
  RB_NFIND poscmp 6 3 demo = Some (Some 3%positive, demo).
Proof. apply (RB_FIND_NFIND_correct poscmp 6 demo demo_tree 3 demo_holds). vm_compute. lia. Defined.

Lemma RB_NEXT_PREV_correct_witness :
  RB_NEXT 6 (Some 2%positive) demo = Some (Some 3%positive, demo) ∧
  RB_PREV 6 (Some 2%positive) demo = Some (Some 1%positive, demo).
Proof.
  apply (RB_NEXT_PREV_correct poscmp 6 demo demo_tree [1%positive] 2 [3%positive] demo_holds);
    [done|vm_compute; lia].
Defined.

Lemma RB_FOREACH_correct_witness :
  RB_FOREACH 9 (λ _, mret tt) demo = Some ([1;2;3]%positive, demo) ∧
  RB_FOREACH_REVERSE 9 (λ _, mret tt) demo = Some ([3;2;1]%positive, demo).
Proof. apply (RB_FOREACH_correct poscmp 9 demo demo_tree demo_holds). vm_compute. lia. Defined.

Lemma RB_FOREACH_SAFE_correct_witness :
  ∃ s' t', RB_FOREACH_SAFE 9
      (λ e, if Pos.leb e 2 then RB_REMOVE 9 (Some e);; mret tt else mret tt) demo =
      Some ([1;2;3]%positive, s') ∧ Holds poscmp s' t' ∧ inorder t' = [3%positive] ∧
      untouched [1;2;3]%positive demo s'.
Proof.
  apply (RB_FOREACH_SAFE_correct poscmp (λ e, Pos.leb e 2) 9 demo demo_tree demo_holds).
  vm_compute. lia.
Defined.

Lemma RB_queries_correct_witness :
  RB_FIND poscmp 6 3 demo = Some (Some 3%positive, demo) ∧
  RB_PREV 6 (Some 2%positive) demo = Some (Some 1%positive, demo).
Proof.
  destruct (RB_queries_correct poscmp 6 demo demo_tree demo_holds) as [HF HN]; [vm_compute; lia|].
  split; [apply (HF 3%positive)|by apply (HN [1%positive] 2%positive [3%positive])].
Defined.

Lemma RB_loops_correct_witness :
  RB_FOREACH_REVERSE 9 (λ _, mret tt) demo = Some ([3;2;1]%positive, demo) ∧
  ∃ s' t', RB_FOREACH_SAFE 9
      (λ e, if Pos.leb e 2 then RB_REMOVE 9 (Some e);; mret tt else mret tt) demo =
      Some ([1;2;3]%positive, s') ∧ Holds poscmp s' t' ∧ inorder t' = [3%positive] ∧
      untouched [1;2;3]%positive demo s'.
Proof.
  destruct (RB_loops_correct poscmp (λ e, Pos.leb e 2) 9 demo demo_tree demo_holds) as [[_ HR] [HS _]];
    [vm_compute; lia|]. split; [exact HR|exact HS].
Defined.
