(* ===== verification/SplayTree.v ===== *)
(** The splay tree macros of [include/compat/sys/tree.h] ([SPLAY_HEAD] to
    [SPLAY_FOREACH]).

    The state is the tree head and the memory of elements, each with the two
    links of [SPLAY_ENTRY].  The local variable [__node] of [SPLAY] is a cell
    of the same memory, at an address no element has, for the time of the
    call.  The branches that mirror each other are one definition over the
    side [d], used at both sides. *)
From Stdlib Require Import ZArith Lia.
From stdpp Require Import prelude gmap.
From S2P Require Import Prelude RBSpec.

Local Open Scope Z_scope.

(** ** Data *)

(** [SPLAY_ENTRY] *)
Record spe_entry := SpEntry { spe_left : ptr; spe_right : ptr }.

(** [SPLAY_HEAD] and the memory of the elements. *)
Record sp_state := SpState { sph_root : ptr; sp_mem : gmap positive spe_entry }.

Abbreviation SM := (ST sp_state).

Definition SPLAY_INIT : SM unit := modify (λ s, SpState None (sp_mem s)).

(** ** Field access *)

Definition sp_child (d : dir) (e : spe_entry) : ptr :=
  match d with DLeft => spe_left e | DRight => spe_right e end.

Definition sp_with_child (d : dir) (p : ptr) (e : spe_entry) : spe_entry :=
  match d with
  | DLeft => SpEntry p (spe_right e)
  | DRight => SpEntry (spe_left e) p
  end.

Definition SPLAY_CHILD (d : dir) (elm : ptr) : SM ptr := λ s,
  x ← elm; e ← sp_mem s !! x; Some (sp_child d e, s).

Definition SPLAY_SET_CHILD (d : dir) (elm p : ptr) : SM unit := λ s,
  x ← elm; e ← sp_mem s !! x;
  Some (tt, SpState (sph_root s) (<[x := sp_with_child d p e]> (sp_mem s))).

Definition SPLAY_LEFT (elm : ptr) : SM ptr := SPLAY_CHILD DLeft elm.
Definition SPLAY_RIGHT (elm : ptr) : SM ptr := SPLAY_CHILD DRight elm.
Definition SPLAY_SET_LEFT (elm p : ptr) : SM unit := SPLAY_SET_CHILD DLeft elm p.
Definition SPLAY_SET_RIGHT (elm p : ptr) : SM unit := SPLAY_SET_CHILD DRight elm p.
Definition SPLAY_ROOT : SM ptr := gets sph_root.
Definition SPLAY_SET_ROOT (p : ptr) : SM unit := modify (λ s, SpState p (sp_mem s)).
Definition SPLAY_EMPTY : SM bool := root ← SPLAY_ROOT; mret (bool_decide (root = None)).

(** ** Rotations and links *)

(** [SPLAY_ROTATE_RIGHT] for [d = DLeft], [SPLAY_ROTATE_LEFT] for
    [d = DRight]: [tmp] is the [d]-child of the root and becomes the root. *)
Definition SPLAY_ROTATE (d : dir) (tmp : ptr) : SM unit :=
  root ← SPLAY_ROOT;
  inner ← SPLAY_CHILD (flip d) tmp;
  SPLAY_SET_CHILD d root inner;;
  root ← SPLAY_ROOT;
  SPLAY_SET_CHILD (flip d) tmp root;;
  SPLAY_SET_ROOT tmp.

Definition SPLAY_ROTATE_RIGHT (tmp : ptr) : SM unit := SPLAY_ROTATE DLeft tmp.
Definition SPLAY_ROTATE_LEFT (tmp : ptr) : SM unit := SPLAY_ROTATE DRight tmp.

(** [SPLAY_LINKLEFT] for [d = DLeft], [SPLAY_LINKRIGHT] for [d = DRight]: hang
    the root below [tmp] and go on with its [d]-child; the value is the new
    [tmp]. *)
Definition SPLAY_LINK (d : dir) (tmp : ptr) : SM ptr :=
  root ← SPLAY_ROOT;
  SPLAY_SET_CHILD d tmp root;;
  tmp ← SPLAY_ROOT;
  root ← SPLAY_ROOT;
  next ← SPLAY_CHILD d root;
  SPLAY_SET_ROOT next;;
  mret tmp.

Definition SPLAY_LINKLEFT (tmp : ptr) : SM ptr := SPLAY_LINK DLeft tmp.
Definition SPLAY_LINKRIGHT (tmp : ptr) : SM ptr := SPLAY_LINK DRight tmp.

Definition SPLAY_ASSEMBLE (node left right : ptr) : SM unit :=
  root ← SPLAY_ROOT;
  l ← SPLAY_LEFT root;
  SPLAY_SET_RIGHT left l;;
  r ← SPLAY_RIGHT root;
  SPLAY_SET_LEFT right r;;
  nr ← SPLAY_RIGHT node;
  SPLAY_SET_LEFT root nr;;
  nl ← SPLAY_LEFT node;
  SPLAY_SET_RIGHT root nl.

(** ** The splay loops *)

(** [struct type __node] comes to life at a new address and
    [SPLAY_LEFT(&__node) = SPLAY_RIGHT(&__node) = NULL] is run. *)
Definition sp_node : SM ptr := λ s,
  let x := fresh (dom (sp_mem s)) in
  Some (Some x, SpState (sph_root s) (<[x := SpEntry None None]> (sp_mem s))).

(** The end of its lifetime. *)
Definition sp_drop (node : ptr) : SM unit := λ s,
  x ← node; Some (tt, SpState (sph_root s) (delete x (sp_mem s))).

(** Is the sign of [comp] that of the branch for [d]? *)
Definition goes (d : dir) (comp : Z) : bool :=
  match d with DLeft => comp <? 0 | DRight => 0 <? comp end.

(** The body of the [while] loop of [SPLAY] when the comparison went to the
    side [d]; [comp] compares the element with the node in [__tmp].  The value
    is the new [(__left, __right)], or [None] after [break]. *)
Definition splay_round (d : dir) (comp : ptr → SM Z) (lft rgt : ptr) :
    SM (option (ptr * ptr)) :=
  root ← SPLAY_ROOT;
  tmp ← SPLAY_CHILD d root;
  if negb (nonnull tmp) then mret None
  else
    c ← comp tmp;
    stop ← (if goes d c then
              SPLAY_ROTATE d tmp;;
              root ← SPLAY_ROOT;
              next ← SPLAY_CHILD d root;
              mret (negb (nonnull next))
            else mret false);
    if (stop : bool) then mret None
    else
      match d with
      | DLeft => rgt ← SPLAY_LINKLEFT rgt; mret (Some (lft, rgt))
      | DRight => lft ← SPLAY_LINKRIGHT lft; mret (Some (lft, rgt))
      end.

(** The loop of [SPLAY_MINMAX], which has no exit when [__comp] is zero. *)
Fixpoint splay_minmax_loop (fuel : nat) (comp : Z) (lft rgt : ptr) : SM (ptr * ptr) :=
  match fuel with
  | O => fail
  | S fuel =>
      next ← (if comp <? 0 then splay_round DLeft (λ _, mret comp) lft rgt
              else if 0 <? comp then splay_round DRight (λ _, mret comp) lft rgt
              else mret (Some (lft, rgt)));
      match next with
      | None => mret (lft, rgt)
      | Some (lft, rgt) => splay_minmax_loop fuel comp lft rgt
      end
  end.

Definition SPLAY_MINMAX (fuel : nat) (comp : Z) : SM unit :=
  node ← sp_node;
  lr ← splay_minmax_loop fuel comp node node;
  let '(lft, rgt) := lr in
  SPLAY_ASSEMBLE node lft rgt;;
  sp_drop node.

Definition SPLAY_MIN_MAX (fuel : nat) (val : Z) : SM ptr :=
  SPLAY_MINMAX fuel val;; SPLAY_ROOT.

Definition SPLAY_NEGINF : Z := -1.
Definition SPLAY_INF : Z := 1.

Definition SPLAY_MIN (fuel : nat) : SM ptr :=
  empty ← SPLAY_EMPTY;
  if (empty : bool) then mret None else SPLAY_MIN_MAX fuel SPLAY_NEGINF.

Definition SPLAY_MAX (fuel : nat) : SM ptr :=
  empty ← SPLAY_EMPTY;
  if (empty : bool) then mret None else SPLAY_MIN_MAX fuel SPLAY_INF.

Section keyed.
(** The comparison function the tree was generated with. *)
Context (cmp : positive → positive → Z).

(** [(cmp)(elm, p)]: the comparison reads the key of [*p]. *)
Definition sp_compare (elm : positive) (p : ptr) : SM Z := λ s,
  x ← p; Some (cmp elm x, s).

Fixpoint splay_loop (fuel : nat) (elm : positive) (lft rgt : ptr) : SM (ptr * ptr) :=
  match fuel with
  | O => fail
  | S fuel =>
      root ← SPLAY_ROOT;
      comp ← sp_compare elm root;
      if comp =? 0 then mret (lft, rgt)
      else
        next ← (if comp <? 0 then splay_round DLeft (sp_compare elm) lft rgt
                else splay_round DRight (sp_compare elm) lft rgt);
        match next with
        | None => mret (lft, rgt)
        | Some (lft, rgt) => splay_loop fuel elm lft rgt
        end
  end.

Definition SPLAY (fuel : nat) (elm : positive) : SM unit :=
  node ← sp_node;
  lr ← splay_loop fuel elm node node;
  let '(lft, rgt) := lr in
  SPLAY_ASSEMBLE node lft rgt;;
  sp_drop node.

Definition SPLAY_FIND (fuel : nat) (elm : positive) : SM ptr :=
  empty ← SPLAY_EMPTY;
  if (empty : bool) then mret None
  else
    SPLAY fuel elm;;
    root ← SPLAY_ROOT;
    c ← sp_compare elm root;
    if c =? 0 then SPLAY_ROOT else mret None.

(** [while (SPLAY_LEFT(elm, field) != NULL) elm = SPLAY_LEFT(elm, field);] *)
Fixpoint splay_leftmost (fuel : nat) (elm : ptr) : SM ptr :=
  match fuel with
  | O => fail
  | S fuel =>
      l ← SPLAY_LEFT elm;
      if nonnull l then splay_leftmost fuel l else mret elm
  end.

Definition SPLAY_NEXT (fuel : nat) (elm : positive) : SM ptr :=
  SPLAY fuel elm;;
  r ← SPLAY_RIGHT (Some elm);
  if nonnull r then splay_leftmost fuel r else mret None.

Definition SPLAY_INSERT (fuel : nat) (elm : positive) : SM ptr :=
  empty ← SPLAY_EMPTY;
  if (empty : bool) then
    SPLAY_SET_RIGHT (Some elm) None;;
    SPLAY_SET_LEFT (Some elm) None;;
    SPLAY_SET_ROOT (Some elm);;
    mret None
  else
    SPLAY fuel elm;;
    root ← SPLAY_ROOT;
    comp ← sp_compare elm root;
    if comp <? 0 then
      l ← SPLAY_LEFT root;
      SPLAY_SET_LEFT (Some elm) l;;
      SPLAY_SET_RIGHT (Some elm) root;;
      SPLAY_SET_LEFT root None;;
      SPLAY_SET_ROOT (Some elm);;
      mret None
    else if 0 <? comp then
      r ← SPLAY_RIGHT root;
      SPLAY_SET_RIGHT (Some elm) r;;
      SPLAY_SET_LEFT (Some elm) root;;
      SPLAY_SET_RIGHT root None;;
      SPLAY_SET_ROOT (Some elm);;
      mret None
    else SPLAY_ROOT.

Definition SPLAY_REMOVE (fuel : nat) (elm : positive) : SM ptr :=
  empty ← SPLAY_EMPTY;
  if (empty : bool) then mret None
  else
    SPLAY fuel elm;;
    root ← SPLAY_ROOT;
    c ← sp_compare elm root;
    if c =? 0 then
      l ← SPLAY_LEFT root;
      (if negb (nonnull l) then
         r ← SPLAY_RIGHT root;
         SPLAY_SET_ROOT r
       else
         tmp ← SPLAY_RIGHT root;
         l ← SPLAY_LEFT root;
         SPLAY_SET_ROOT l;;
         SPLAY fuel elm;;
         root ← SPLAY_ROOT;
         SPLAY_SET_RIGHT root tmp);;
      mret (Some elm)
    else mret None.

(** A [SPLAY_FOREACH] loop whose body leaves the tree alone, and its value: the
    elements the body was run on.  Stepping splays the tree. *)
Fixpoint splay_foreach_loop (bound fuel : nat) (x : ptr) : SM (list positive) :=
  match fuel with
  | O => fail
  | S fuel =>
      match x with
      | None => mret []
      | Some e =>
          x ← SPLAY_NEXT bound e;
          l ← splay_foreach_loop bound fuel x;
          mret (e :: l)
      end
  end.

Definition SPLAY_FOREACH (fuel : nat) : SM (list positive) :=
  x ← SPLAY_MIN fuel; splay_foreach_loop fuel fuel x.
End keyed.
