(* ===== verification/SplayProof.v ===== *)
(** The splay loops: runs of [SPLAY] and [SPLAY_MINMAX] on represented trees.

    [srep m t]: the memory holds the tree [t].  In the loop the two side trees
    under [__node] are spines: the nodes on the inner edge, each with its outer
    subtree. *)
From Stdlib Require Import ZArith Lia.
From stdpp Require Import prelude gmap sorting.
From S2P Require Import Prelude Ordered RBSpec SplayTree.

(** ** Trees *)

Inductive stree :=
  | SLeaf
  | SNode (l : stree) (x : positive) (r : stree).

#[export] Instance stree_eq_dec : EqDecision stree.
Proof. solve_decision. Defined.

Fixpoint sinorder (t : stree) : list positive :=
  match t with SLeaf => [] | SNode l x r => sinorder l ++ x :: sinorder r end.

Fixpoint sheight (t : stree) : nat :=
  match t with SLeaf => 0 | SNode l _ r => S (sheight l `max` sheight r) end.

Definition sroot (t : stree) : ptr :=
  match t with SLeaf => None | SNode _ x _ => Some x end.

Definition smk (d : dir) (a : stree) (x : positive) (b : stree) : stree :=
  match d with DLeft => SNode a x b | DRight => SNode b x a end.

Definition smkent (d : dir) (a b : ptr) : spe_entry :=
  match d with DLeft => SpEntry a b | DRight => SpEntry b a end.

Fixpoint srep (m : gmap positive spe_entry) (t : stree) : Prop :=
  match t with
  | SLeaf => True
  | SNode l x r => m !! x = Some (SpEntry (sroot l) (sroot r)) ∧ srep m l ∧ srep m r
  end.

Lemma sroot_mk d a x b : sroot (smk d a x b) = Some x.
Proof. by destruct d. Qed.

Lemma occ_smk z d a x b :
  occ z (sinorder (smk d a x b)) = occ z (sinorder a) + occ z [x] + occ z (sinorder b).
Proof. destruct d; simpl; occ_split; lia. Qed.

Lemma occ_snode z l x r :
  occ z (sinorder (SNode l x r)) = occ z (sinorder l) + occ z [x] + occ z (sinorder r).
Proof. apply (occ_smk z DLeft). Qed.

#[export] Hint Rewrite occ_smk occ_snode : occ.

Lemma srep_mk m d a x b :
  srep m (smk d a x b) ↔ m !! x = Some (smkent d (sroot a) (sroot b)) ∧ srep m a ∧ srep m b.
Proof. destruct d; simpl; tauto. Qed.

Lemma srep_ext m m' t :
  (∀ z, z ∈ sinorder t → m' !! z = m !! z) → srep m t → srep m' t.
Proof.
  induction t as [|l IHl x r IHr]; simpl; [done|]. intros Hm (Hx & Hl & Hr).
  split_and!; [rewrite Hm; [done|]|apply IHl; [|done]|apply IHr; [|done]]; try intros;
    try apply Hm; set_solver.
Qed.

Lemma smk_surj d t : t ≠ SLeaf → ∃ a x b, t = smk d a x b.
Proof. destruct t as [|l x r]; [done|]. intros _. destruct d; simpl; eauto. Qed.

(** ** Spines *)

(** The [d]-link of [p] is [q]. *)
Definition link (m : gmap positive spe_entry) (d : dir) (p : positive) (q : ptr) : Prop :=
  sp_child d <$> (m !! p) = Some q.

(** From [p] the [d]-links lead through the nodes of [xs], each with its other
    subtree, and the last one to [q]. *)
Fixpoint spine (m : gmap positive spe_entry) (d : dir) (p : positive)
    (xs : list (positive * stree)) (q : ptr) : Prop :=
  match xs with
  | [] => link m d p q
  | (x, b) :: xs =>
      link m d p (Some x) ∧ link m (flip d) x (sroot b) ∧ srep m b ∧ spine m d x xs q
  end.

Fixpoint tip (p : positive) (xs : list (positive * stree)) : positive :=
  match xs with [] => p | (x, _) :: xs => tip x xs end.

Fixpoint els (xs : list (positive * stree)) : list positive :=
  match xs with [] => [] | (x, b) :: xs => x :: sinorder b ++ els xs end.

(** The tree the spine becomes when [u] is hung below its tip. *)
Fixpoint asm (d : dir) (xs : list (positive * stree)) (u : stree) : stree :=
  match xs with [] => u | (x, b) :: xs => smk d (asm d xs u) x b end.

Lemma els_snoc xs x b : els (xs ++ [(x, b)]) = els xs ++ x :: sinorder b.
Proof.
  induction xs as [|[y c] xs IH]; simpl; [by rewrite app_nil_r|].
  by rewrite IH, <-app_assoc.
Qed.

Lemma occ_els z x b xs :
  occ z (els ((x, b) :: xs)) = occ z [x] + occ z (sinorder b) + occ z (els xs).
Proof. simpl. occ_split. lia. Qed.

Lemma occ_els_snoc z x b xs :
  occ z (els (xs ++ [(x, b)])) = occ z [x] + occ z (sinorder b) + occ z (els xs).
Proof. rewrite els_snoc. occ_split. lia. Qed.

#[export] Hint Rewrite occ_els occ_els_snoc : occ.

Lemma tip_in p xs : tip p xs = p ∧ xs = [] ∨ tip p xs ∈ els xs.
Proof.
  revert p; induction xs as [|[x b] xs IH]; intros p; simpl; [by left|]. right.
  destruct (IH x) as [[-> _]|]; set_solver.
Qed.

Lemma tip_snoc p xs x b : tip p (xs ++ [(x, b)]) = x.
Proof. revert p; induction xs as [|[y c] xs IH]; intros p; simpl; [done|apply IH]. Qed.

Lemma spine_snoc m d p xs x b q :
  spine m d p (xs ++ [(x, b)]) q ↔
  spine m d p xs (Some x) ∧ link m (flip d) x (sroot b) ∧ srep m b ∧ link m d x q.
Proof.
  revert p; induction xs as [|[y c] xs IH]; intros p; simpl; [tauto|].
  rewrite IH. tauto.
Qed.

Lemma spine_ext m m' d p xs q :
  sp_child d <$> (m' !! p) = sp_child d <$> (m !! p) →
  (∀ z, z ∈ els xs → m' !! z = m !! z) → spine m d p xs q → spine m' d p xs q.
Proof.
  revert p; induction xs as [|[x b] xs IH]; intros p Hp Hm; simpl; unfold link.
  - by rewrite Hp.
  - simpl in Hm. intros (H1 & H2 & H3 & H4). rewrite Hp. split_and!; [done| | |].
    + rewrite Hm; [done|set_solver].
    + eapply srep_ext; [|done]. intros; apply Hm; set_solver.
    + apply IH; [by rewrite Hm by set_solver| |done]. intros; apply Hm; set_solver.
Qed.

Lemma spine_tip m d p xs q : spine m d p xs q → is_Some (m !! tip p xs).
Proof.
  revert p; induction xs as [|[x b] xs IH]; intros p; simpl.
  - unfold link. destruct (m !! p); [by eexists|done].
  - intros (_ & _ & _ & H). eauto.
Qed.

Lemma child_with d e p : sp_child d (sp_with_child d p e) = p.
Proof. by destruct d. Qed.

Lemma child_flip_with d e p : sp_child (flip d) (sp_with_child d p e) = sp_child (flip d) e.
Proof. by destruct d. Qed.

Lemma child_with_flip d e p : sp_child d (sp_with_child (flip d) p e) = sp_child d e.
Proof. by destruct d. Qed.

(** Redirecting the last link. *)
Lemma spine_set m d p xs q q' e :
  spine m d p xs q → NoDup (p :: els xs) → m !! tip p xs = Some e →
  spine (<[tip p xs := sp_with_child d q' e]> m) d p xs q'.
Proof.
  revert p; induction xs as [|[x b] xs IH]; intros p Hs Hnd He; simpl in *.
  - unfold link. by rewrite lookup_insert_eq; simpl; rewrite child_with.
  - destruct Hs as (H1 & H2 & H3 & H4).
    assert (Ht : tip x xs ∈ x :: els xs) by (destruct (tip_in x xs) as [[-> _]|]; set_solver).
    split_and!.
    + unfold link. rewrite lookup_insert_ne; [done|]. intros E. rewrite E in Ht. occs.
    + unfold link in *. destruct (decide (tip x xs = x)) as [E|].
      * rewrite E in *. rewrite lookup_insert_eq. simpl. rewrite child_flip_with.
        by rewrite He in H2.
      * by rewrite lookup_insert_ne.
    + eapply srep_ext; [|done]. intros z Hz. apply lookup_insert_ne.
      intros E. rewrite E in Ht. occs.
    + apply IH; [done| |done]. occs.
Qed.

(** A closed spine is a tree. *)
Lemma spine_asm m d p xs u :
  spine m d p xs (sroot u) → srep m u →
  link m d p (sroot (asm d xs u)) ∧ srep m (asm d xs u).
Proof.
  revert p; induction xs as [|[x b] xs IH]; intros p; simpl; [done|].
  intros (H1 & H2 & H3 & H4) Hu. destruct (IH x H4 Hu) as [H5 H6].
  split; [by rewrite sroot_mk|]. apply srep_mk. split_and!; [|done..].
  unfold link in *. destruct (m !! x) as [[l r]|]; [|done].
  destruct d; simpl in *; congruence.
Qed.

(** ** Runs of the field accesses *)

Lemma sp_child_run d s x e :
  sp_mem s !! x = Some e → SPLAY_CHILD d (Some x) s = Some (sp_child d e, s).
Proof. intros H. unfold SPLAY_CHILD; simpl. by rewrite H. Qed.

Lemma sp_set_run d s x e p :
  sp_mem s !! x = Some e →
  SPLAY_SET_CHILD d (Some x) p s =
  Some (tt, SpState (sph_root s) (<[x := sp_with_child d p e]> (sp_mem s))).
Proof. intros H. unfold SPLAY_SET_CHILD; simpl. by rewrite H. Qed.

Lemma sp_root_run s : SPLAY_ROOT s = Some (sph_root s, s).
Proof. done. Qed.

Lemma sp_set_root_run p s : SPLAY_SET_ROOT p s = Some (tt, SpState p (sp_mem s)).
Proof. done. Qed.

Lemma child_smkent d a b : sp_child d (smkent d a b) = a.
Proof. by destruct d. Qed.

Lemma child_flip_smkent d a b : sp_child (flip d) (smkent d a b) = b.
Proof. by destruct d. Qed.

Lemma with_child_smkent d a b p : sp_with_child d p (smkent d a b) = smkent d p b.
Proof. by destruct d. Qed.

Lemma with_child_flip_smkent d a b p : sp_with_child (flip d) p (smkent d a b) = smkent d a p.
Proof. by destruct d. Qed.

(** Run a field access on the entry [H]. *)
Ltac srun :=
  lazymatch goal with
  | |- (SPLAY_ROOT ≫= _) ?s = _ => rewrite (bind_run _ _ _ _ _ (sp_root_run s))
  | |- (SPLAY_SET_ROOT ?p ≫= _) ?s = _ => rewrite (bind_run _ _ _ _ _ (sp_set_root_run p s))
  | |- (SPLAY_CHILD _ _ ≫= _) _ = _ => erewrite bind_run by (apply sp_child_run; eauto)
  | |- (SPLAY_SET_CHILD _ _ _ ≫= _) _ = _ => erewrite bind_run by (apply sp_set_run; eauto)
  end.

(** ** The state of the loop *)

Section loop.
Context (F : gmap positive spe_entry) (N : list positive) (node : positive).
Implicit Types (A B : list (positive * stree)) (t : stree) (s : sp_state).

(** The tree at the root is [t]; the spine on the [d]-links of [__node] is
    [A], the one on its other links is [B]. *)
Definition SS d s A t B : Prop :=
  srep (sp_mem s) t ∧ sph_root s = sroot t ∧
  (∃ q, spine (sp_mem s) d node A q) ∧ (∃ q, spine (sp_mem s) (flip d) node B q) ∧
  NoDup (node :: sinorder t ++ els A ++ els B) ∧
  (∀ z, z ∈ node :: sinorder t ++ els A ++ els B → z ∈ N) ∧
  (∀ z, z ∉ N → sp_mem s !! z = F !! z).

Lemma SS_flip d s A t B : SS d s A t B ↔ SS (flip d) s B t A.
Proof.
  unfold SS. rewrite flip_flip.
  assert (node :: sinorder t ++ els A ++ els B ≡ₚ node :: sinorder t ++ els B ++ els A)
    as E by occs.
  setoid_rewrite E. tauto.
Qed.

(** Links between two of the pieces change nothing in the third. *)
Lemma spine_write m d p xs q z e e' :
  spine m d p xs q → z ∉ els xs → m !! z = Some e →
  (z = p → sp_child d e' = sp_child d e) → spine (<[z := e']> m) d p xs q.
Proof.
  intros Hs Hz He Hc. eapply spine_ext; [| |exact Hs].
  - destruct (decide (z = p)) as [->|].
    + rewrite lookup_insert_eq, He. simpl. by rewrite Hc.
    + by rewrite lookup_insert_ne.
  - intros w Hw. apply lookup_insert_ne. by intros ->.
Qed.

Lemma splay_rotate_run d s A a y b x c B :
  SS d s A (smk d (smk d a y b) x c) B →
  ∃ s', SPLAY_ROTATE d (Some y) s = Some (tt, s') ∧
        SS d s' A (smk d a y (smk d b x c)) B.
Proof.
  intros (Ht & Hr & (q & HA) & (q' & HB) & Hnd & HN & HF).
  rewrite sroot_mk in Hr. apply srep_mk in Ht as (Hx & Ha & Hc).
  apply srep_mk in Ha as (Hy & Ha & Hb). rewrite sroot_mk in Hx.
  set (m1 := <[x := smkent d (sroot b) (sroot c)]> (sp_mem s)).
  set (m2 := <[y := smkent d (sroot a) (Some x)]> m1).
  assert (Hm : ∀ z, z ≠ x → z ≠ y → m2 !! z = sp_mem s !! z).
  { intros z ??. unfold m2, m1. by rewrite !lookup_insert_ne. }
  exists (SpState (Some y) m2). split.
  - unfold SPLAY_ROTATE. srun. rewrite Hr. srun. rewrite child_flip_smkent.
    srun. rewrite with_child_smkent. srun. cbn [sph_root]. rewrite Hr.
    erewrite bind_run by (apply sp_set_run; cbn [sp_mem];
      rewrite lookup_insert_ne by occs; exact Hy).
    by rewrite with_child_flip_smkent.
  - unfold SS. cbn [sp_mem sph_root]. rewrite !srep_mk, !sroot_mk. split_and!.
    + apply lookup_insert_eq.
    + eapply srep_ext; [|exact Ha]. intros z Hz. apply Hm; occs.
    + unfold m2. rewrite lookup_insert_ne by occs. apply lookup_insert_eq.
    + eapply srep_ext; [|exact Hb]. intros z Hz. apply Hm; occs.
    + eapply srep_ext; [|exact Hc]. intros z Hz. apply Hm; occs.
    + done.
    + exists q. apply (spine_ext (sp_mem s)); [by rewrite Hm by occs| |exact HA].
      intros z Hz. apply Hm; occs.
    + exists q'. apply (spine_ext (sp_mem s)); [by rewrite Hm by occs| |exact HB].
      intros z Hz. apply Hm; occs.
    + occs.
    + intros z Hz. apply HN. occs.
    + intros z Hz. rewrite <-HF by done.
      apply Hm; intros ->; apply Hz, HN; occs.
Qed.

Lemma splay_link_run d s A a x b B :
  SS d s A (smk d a x b) B →
  ∃ s', SPLAY_LINK d (Some (tip node A)) s = Some (Some (tip node (A ++ [(x, b)])), s') ∧
        SS d s' (A ++ [(x, b)]) a B.
Proof.
  intros (Ht & Hr & (q & HA) & (q' & HB) & Hnd & HN & HF).
  rewrite sroot_mk in Hr. apply srep_mk in Ht as (Hx & Ha & Hb).
  destruct (spine_tip _ _ _ _ _ HA) as [e He].
  set (m1 := <[tip node A := sp_with_child d (Some x) e]> (sp_mem s)).
  assert (Htip : tip node A = node ∧ A = [] ∨ tip node A ∈ els A) by apply tip_in.
  assert (Hm : ∀ z, z ∉ node :: els A → m1 !! z = sp_mem s !! z).
  { intros z Hz. apply lookup_insert_ne. intros <-. apply Hz.
    destruct Htip as [[-> _]|]; set_solver. }
  assert (Hx1 : m1 !! x = Some (smkent d (sroot a) (sroot b))) by (rewrite Hm; [done|occs]).
  exists (SpState (sroot a) m1). split.
  - unfold SPLAY_LINK. srun. rewrite Hr. srun. fold m1. srun. srun.
    cbn [sph_root]. rewrite Hr. srun. srun. by rewrite child_smkent, tip_snoc.
  - unfold SS. cbn [sp_mem sph_root]. split_and!.
    + eapply srep_ext; [|exact Ha]. intros z Hz. apply Hm. occs.
    + done.
    + exists (sroot a). apply spine_snoc. split_and!.
      * eapply spine_set; [exact HA|occs|exact He].
      * unfold link. by rewrite Hx1; simpl; rewrite child_flip_smkent.
      * eapply srep_ext; [|exact Hb]. intros z Hz. apply Hm. occs.
      * unfold link. by rewrite Hx1; simpl; rewrite child_smkent.
    + exists q'. eapply spine_write; [exact HB| |exact He|].
      * destruct Htip as [[-> _]|]; occs.
      * intros _. by rewrite child_flip_with.
    + occs.
    + intros z Hz. apply HN. occs.
    + intros z Hz. rewrite <-HF by done. apply Hm. intros Hin. apply Hz, HN. occs.
Qed.

(** [SPLAY_ASSEMBLE] hangs the outer subtrees of the root below the spines and
    the spines below the root. *)
Lemma assemble_run s L l x r R :
  SS DRight s L (SNode l x r) R →
  ∃ s', SPLAY_ASSEMBLE (Some node) (Some (tip node L)) (Some (tip node R)) s = Some (tt, s') ∧
    srep (sp_mem s') (SNode (asm DRight L l) x (asm DLeft R r)) ∧
    sph_root s' = Some x ∧ (∀ z, z ∉ N → sp_mem s' !! z = F !! z).
Proof.
  intros ((Hx & Hl & Hr) & Hroot & (q & HL) & (q' & HR) & Hnd & HN & HF). simpl in Hroot.
  assert (HtL : tip node L = node ∧ L = [] ∨ tip node L ∈ els L) by apply tip_in.
  assert (HtR : tip node R = node ∧ R = [] ∨ tip node R ∈ els R) by apply tip_in.
  destruct (spine_tip _ _ _ _ _ HL) as [eL HeL].
  set (m1 := <[tip node L := sp_with_child DRight (sroot l) eL]> (sp_mem s)).
  assert (Hm1 : ∀ z, z ∉ node :: els L → m1 !! z = sp_mem s !! z).
  { intros z Hz. apply lookup_insert_ne. intros <-. apply Hz.
    destruct HtL as [[-> _]|]; set_solver. }
  assert (HL1 : spine m1 DRight node L (sroot l)) by (eapply spine_set; [exact HL|occs|exact HeL]).
  assert (HR1 : spine m1 DLeft node R q').
  { eapply spine_write; [exact HR| |exact HeL|by destruct eL].
    destruct HtL as [[-> _]|]; occs. }
  destruct (spine_tip _ _ _ _ _ HR1) as [eR HeR].
  set (m2 := <[tip node R := sp_with_child DLeft (sroot r) eR]> m1).
  assert (Hm2 : ∀ z, z ∉ node :: els R → m2 !! z = m1 !! z).
  { intros z Hz. apply lookup_insert_ne. intros <-. apply Hz.
    destruct HtR as [[-> _]|]; set_solver. }
  assert (HR2 : spine m2 DLeft node R (sroot r)) by (eapply spine_set; [exact HR1|occs|exact HeR]).
  assert (HL2 : spine m2 DRight node L (sroot l)).
  { eapply spine_write; [exact HL1| |exact HeR|by destruct eR].
    destruct HtR as [[-> _]|]; occs. }
  assert (Hl2 : srep m2 l).
  { eapply srep_ext; [|exact Hl]. intros z Hz. rewrite Hm2, Hm1 by occs. done. }
  assert (Hr2 : srep m2 r).
  { eapply srep_ext; [|exact Hr]. intros z Hz. rewrite Hm2, Hm1 by occs. done. }
  assert (Hx1 : m1 !! x = Some (SpEntry (sroot l) (sroot r))) by (rewrite Hm1 by occs; done).
  assert (Hx2 : m2 !! x = Some (SpEntry (sroot l) (sroot r))) by (rewrite Hm2 by occs; done).
  destruct (spine_asm _ _ _ _ _ HL2 Hl2) as [HnL HTL].
  destruct (spine_asm _ _ _ _ _ HR2 Hr2) as [HnR HTR].
  assert (Hnode : m2 !! node = Some (SpEntry (sroot (asm DLeft R r)) (sroot (asm DRight L l)))).
  { unfold link in *. destruct (m2 !! node) as [[]|]; [|done]. simpl in *. congruence. }
  set (m4 := <[x := SpEntry (sroot (asm DRight L l)) (sroot (asm DLeft R r))]>
      (<[x := SpEntry (sroot (asm DRight L l)) (sroot r)]> m2)).
  assert (Hm4 : ∀ z, z ≠ x → m4 !! z = m2 !! z).
  { intros z ?. unfold m4. by rewrite !lookup_insert_ne. }
  assert (Hasm : ∀ d xs u z, z ∈ sinorder (asm d xs u) → z ∈ els xs ++ sinorder u).
  { intros d xs u z. clear. induction xs as [|[y b] xs IH]; [done|]. simpl asm.
    intros Hz. destruct d; simpl in *; set_solver. }
  exists (SpState (Some x) m4). cbn [sp_mem sph_root]. split_and!.
  - unfold SPLAY_ASSEMBLE, SPLAY_LEFT, SPLAY_RIGHT, SPLAY_SET_LEFT, SPLAY_SET_RIGHT.
    srun. rewrite Hroot. srun. cbn [sp_child spe_left]. srun. fold m1.
    srun. cbn [sp_child spe_right]. srun. fold m2. srun. srun. cbn [sp_with_child spe_right sp_child].
    erewrite bind_run by (apply sp_child_run; cbn [sp_mem];
      rewrite lookup_insert_ne by occs; exact Hnode).
    erewrite sp_set_run by apply lookup_insert_eq.
    cbn [sp_mem sph_root sp_child spe_left spe_right sp_with_child]. by rewrite Hroot.
  - cbn [srep]. split_and!; [apply lookup_insert_eq| |].
    + eapply srep_ext; [|exact HTL]. intros z Hz%Hasm. apply Hm4. occs.
    + eapply srep_ext; [|exact HTR]. intros z Hz%Hasm. apply Hm4. occs.
  - done.
  - intros z Hz. rewrite <-HF by done.
    assert (Hz' : z ∉ node :: sinorder (SNode l x r) ++ els L ++ els R) by auto.
    rewrite Hm4, Hm2, Hm1 by occs. done.
Qed.

(** ** Rounds *)

(** What a round at side [d] does: grow the spine [A] and shrink the tree, or
    stop ([true]). *)
Inductive sround (d : dir) (c : positive → Z) A : stree → bool → list (positive * stree) → stree → Prop :=
  | sround_end x b : sround d c A (smk d SLeaf x b) true A (smk d SLeaf x b)
  | sround_rot_end y b1 x b :
      goes d (c y) = true →
      sround d c A (smk d (smk d SLeaf y b1) x b) true A (smk d SLeaf y (smk d b1 x b))
  | sround_rot a y b1 x b :
      goes d (c y) = true → a ≠ SLeaf →
      sround d c A (smk d (smk d a y b1) x b) false (A ++ [(y, smk d b1 x b)]) a
  | sround_link a x b :
      a ≠ SLeaf → sround d c A (smk d a x b) false (A ++ [(x, b)]) a.

(** [__left] and [__right] for the spines of the sides [d] and [flip d]. *)
Definition tips (d : dir) A B : ptr * ptr :=
  match d with
  | DLeft => (Some (tip node B), Some (tip node A))
  | DRight => (Some (tip node A), Some (tip node B))
  end.

Lemma finish_round_run d s A a x b B :
  SS d s A (smk d a x b) B →
  ∃ s', (match d with
         | DLeft => rgt ← SPLAY_LINKLEFT (tips d A B).2; mret (Some ((tips d A B).1, rgt))
         | DRight => lft ← SPLAY_LINKRIGHT (tips d A B).1; mret (Some (lft, (tips d A B).2))
         end : SM (option (ptr * ptr))) s = Some (Some (tips d (A ++ [(x, b)]) B), s') ∧
        SS d s' (A ++ [(x, b)]) a B.
Proof.
  intros HS. destruct (splay_link_run _ _ _ _ _ _ _ HS) as (s' & E & HS').
  exists s'. split; [|done]. unfold SPLAY_LINKLEFT, SPLAY_LINKRIGHT.
  destruct d; simpl in *; by rewrite (bind_run _ _ _ _ _ E).
Qed.

Lemma splay_round_run d (comp : ptr → SM Z) (c : positive → Z) s A a x b B :
  (∀ y s, comp (Some y) s = Some (c y, s)) →
  SS d s A (smk d a x b) B →
  ∃ s' stop A' t', sround d c A (smk d a x b) stop A' t' ∧
    splay_round d comp (tips d A B).1 (tips d A B).2 s =
      Some (if stop : bool then None else Some (tips d A' B), s') ∧
    SS d s' A' t' B.
Proof.
  intros Hc HS. pose proof HS as (Ht & Hr & _).
  rewrite sroot_mk in Hr. apply srep_mk in Ht as (Hx & _).
  unfold splay_round. rewrite (bind_run _ _ _ _ _ (sp_root_run s)), Hr.
  rewrite (bind_run _ _ _ _ _ (sp_child_run d _ _ _ Hx)), child_smkent.
  destruct (decide (a = SLeaf)) as [->|Ha].
  { exists s, true, A, (smk d SLeaf x b). split_and!; [constructor|done..]. }
  destruct (smk_surj d a Ha) as (a1 & y & b1 & ->). rewrite sroot_mk. cbn [nonnull negb].
  rewrite (bind_run _ _ _ _ _ (Hc y s)).
  destruct (goes d (c y)) eqn:Hg.
  - destruct (splay_rotate_run _ _ _ _ _ _ _ _ _ HS) as (s1 & E1 & HS1).
    pose proof HS1 as (Ht1 & Hr1 & _).
    rewrite sroot_mk in Hr1. apply srep_mk in Ht1 as (Hy & _).
    assert (Estop : (SPLAY_ROTATE d (Some y);; root ← SPLAY_ROOT;
        next ← SPLAY_CHILD d root; mret (negb (nonnull next))) s =
        Some (negb (nonnull (sroot a1)), s1)).
    { rewrite (bind_run _ _ _ _ _ E1), (bind_run _ _ _ _ _ (sp_root_run s1)), Hr1.
      by rewrite (bind_run _ _ _ _ _ (sp_child_run d _ _ _ Hy)), child_smkent. }
    rewrite (bind_run _ _ _ _ _ Estop).
    destruct (decide (a1 = SLeaf)) as [->|Ha1].
    + exists s1, true, A, (smk d SLeaf y (smk d b1 x b)). split_and!; [by constructor|done..].
    + replace (negb (nonnull (sroot a1))) with false by by destruct a1.
      destruct (finish_round_run _ _ _ _ _ _ _ HS1) as (s2 & E2 & HS2).
      exists s2, false, (A ++ [(y, smk d b1 x b)]), a1. split_and!; [by constructor|done..].
  - erewrite bind_run by done. cbv iota.
    destruct (finish_round_run _ _ _ _ _ _ _ HS) as (s2 & E2 & HS2).
    exists s2, false, (A ++ [(x, b)]), (smk d a1 y b1). split_and!; [by constructor|done..].
Qed.
End loop.
