(* ===== verification/SplayTheorems.v ===== *)
(** What a splay does to the sequence of the tree.

    A comparison of the searched key with the nodes is [graded] along the
    in-order sequence; the loops keep the nodes above the key in the right
    spine and those below it in the left one, so that the node they bring to
    the root separates the sequence at the key. *)
From Stdlib Require Import ZArith Lia.
From stdpp Require Import prelude gmap sorting.
From S2P Require Import Prelude Ordered RBSpec SplayTree SplayProof.

Local Open Scope Z_scope.

(** ** Sequences *)

(** The part of the sequence in a left spine, and in a right one. *)
Fixpoint lseq (xs : list (positive * stree)) : list positive :=
  match xs with [] => [] | (x, a) :: xs => sinorder a ++ x :: lseq xs end.

Fixpoint rseq (xs : list (positive * stree)) : list positive :=
  match xs with [] => [] | (x, b) :: xs => rseq xs ++ x :: sinorder b end.

Lemma lseq_snoc xs x a : lseq (xs ++ [(x, a)]) = lseq xs ++ sinorder a ++ [x].
Proof. induction xs as [|[y c] xs IH]; simpl; [done|]. by rewrite IH, <-app_assoc. Qed.

Lemma rseq_snoc xs x b : rseq (xs ++ [(x, b)]) = x :: sinorder b ++ rseq xs.
Proof.
  induction xs as [|[y c] xs IH]; simpl; [by rewrite app_nil_r|].
  rewrite IH. simpl. by rewrite <-app_assoc.
Qed.

Lemma asm_left xs u : sinorder (asm DRight xs u) = lseq xs ++ sinorder u.
Proof. induction xs as [|[y c] xs IH]; simpl; [done|]. by rewrite IH, <-app_assoc. Qed.

Lemma asm_right xs u : sinorder (asm DLeft xs u) = sinorder u ++ rseq xs.
Proof.
  induction xs as [|[y c] xs IH]; simpl; [by rewrite app_nil_r|].
  by rewrite IH, <-app_assoc.
Qed.

(** The comparison [c y] of the key with the element [y] never goes up along
    the sequence: above the key, then equal, then below. *)
Definition graded (c : positive → Z) (l : list positive) : Prop :=
  StronglySorted (λ x y, 0 < c x ∨ c y < 0) l.

Abbreviation lower c l := (Forall (λ y, 0 < c y) l).
Abbreviation upper c l := (Forall (λ y, c y < 0) l).

Lemma graded_after c l x k : graded c (l ++ x :: k) → c x ≤ 0 → upper c k.
Proof.
  intros (_ & _ & H)%StronglySorted_app ?. apply StronglySorted_inv in H as [_ H].
  eapply Forall_impl; [done|]. simpl. lia.
Qed.

Lemma graded_before c l x k : graded c (l ++ x :: k) → 0 ≤ c x → lower c l.
Proof.
  intros (H & _ & _)%StronglySorted_app ?. rewrite Forall_forall. intros y Hy.
  destruct (H y x Hy ltac:(set_solver)); [done|lia].
Qed.

Lemma sorted_graded cmp `{!Comparison cmp} e l : sorted cmp l → graded (cmp e) l.
Proof.
  unfold sorted, graded. induction 1 as [|x l Hs IH Hx]; constructor; [done|].
  eapply Forall_impl; [done|]. simpl. intros y Hy.
  destruct (Z.lt_ge_cases 0 (cmp e x)); [by left|right].
  by apply (cmp_le_lt cmp e x y).
Qed.

Lemma const_graded v l : v ≠ 0 → graded (λ _, v) l.
Proof.
  intros Hv. unfold graded. induction l; constructor; [done|].
  apply Forall_forall. lia.
Qed.

(** Normal form of concatenations. *)
Ltac cat := rewrite ?lseq_snoc, ?rseq_snoc; repeat (simpl; rewrite <-?app_assoc).
Ltac cat_in H := repeat (simpl in H; rewrite <-?app_assoc in H).

(** ** The loop invariant *)

Section invariant.
Context (c : positive → Z) (S : list positive) (HS : graded c S).

Definition Inv L t R : Prop :=
  lseq L ++ sinorder t ++ rseq R = S ∧ lower c (lseq L) ∧ upper c (rseq R) ∧ t ≠ SLeaf.

(** The root is where the search ends. *)
Definition settled t : Prop :=
  match t with
  | SLeaf => False
  | SNode l x r => c x = 0 ∨ c x < 0 ∧ l = SLeaf ∨ 0 < c x ∧ r = SLeaf
  end.

Definition at_root (P : Z → Prop) t : Prop :=
  match t with SLeaf => False | SNode _ x _ => P (c x) end.

Lemma sround_left L t R stop R' t' :
  Inv L t R → at_root (λ v, v < 0) t → sround DLeft c R t stop R' t' →
  Inv L t' R' ∧ (stop = true → settled t' ∧ R' = R) ∧
  (stop = false → (sheight t' < sheight t)%nat).
Proof.
  intros (HE & HL & HR & Ht) Hx HT. pose proof HS as HG. rewrite <-HE in HG.
  inversion HT as [x b|y b1 x b Hg|a y b1 x b Hg Ha|a x b Ha]; subst; clear HT;
    simpl in Hx; cat_in HG; (split; [|split; [intros [=]|intros [=]; simpl; lia]]).
  - done.
  - split; [right; left|]; done.
  - split_and!; [rewrite <-HE; by cat|done..].
  - split; [right; left; by split; [apply Z.ltb_lt|]|done].
  - apply Z.ltb_lt in Hg. split_and!; [rewrite <-HE; by cat|done| |done]. cat. constructor; [done|].
    rewrite app_assoc in HG. eapply graded_after; [exact HG|lia].
  - split_and!; [rewrite <-HE; by cat|done| |done]. cat. constructor; [done|].
    rewrite app_assoc in HG. eapply graded_after; [exact HG|lia].
Qed.

Lemma sround_right L t R stop L' t' :
  Inv L t R → at_root (λ v, 0 < v) t → sround DRight c L t stop L' t' →
  Inv L' t' R ∧ (stop = true → settled t' ∧ L' = L) ∧
  (stop = false → (sheight t' < sheight t)%nat).
Proof.
  intros (HE & HL & HR & Ht) Hx HT. pose proof HS as HG. rewrite <-HE in HG.
  inversion HT as [x b|y b1 x b Hg|a y b1 x b Hg Ha|a x b Ha]; subst; clear HT;
    simpl in Hx; cat_in HG; (split; [|split; [intros [=]|intros [=]; simpl; lia]]).
  - done.
  - split; [right; right|]; done.
  - split_and!; [rewrite <-HE; by cat|done..].
  - split; [right; right; by split; [apply Z.ltb_lt|]|done].
  - apply Z.ltb_lt in Hg. split_and!; [rewrite <-HE; by cat| |done|done].
    replace (lseq (L ++ [(y, smk DRight b1 x b)]))
      with ((lseq L ++ sinorder b ++ x :: sinorder b1) ++ [y]) by (by cat).
    apply Forall_app; split; [|by constructor].
    apply (graded_before c _ y (sinorder t' ++ rseq R)); [|lia]. by cat.
  - split_and!; [rewrite <-HE; by cat| |done|done].
    replace (lseq (L ++ [(x, b)])) with ((lseq L ++ sinorder b) ++ [x]) by (by cat).
    apply Forall_app; split; [|by constructor].
    apply (graded_before c _ x (sinorder t' ++ rseq R)); [|lia]. by cat.
Qed.

(** The root separates the sequence when the search ends at it. *)
Lemma settled_split L l x r R :
  Inv L (SNode l x r) R → settled (SNode l x r) →
  lower c (lseq L ++ sinorder l) ∧ upper c (sinorder r ++ rseq R).
Proof.
  intros (HE & HL & HR & _) Hset. pose proof HS as HG. rewrite <-HE in HG. cat_in HG.
  rewrite !Forall_app. destruct Hset as [Hx|[[Hx ->]|[Hx ->]]]; simpl.
  - rewrite app_assoc in HG. pose proof (graded_before _ _ _ _ HG ltac:(lia)) as H1.
    pose proof (graded_after _ _ _ _ HG ltac:(lia)) as H2.
    apply Forall_app in H1 as [_ ?]. by apply Forall_app in H2 as [? _].
  - simpl in HG. pose proof (graded_after _ _ _ _ HG ltac:(lia)) as H2.
    apply Forall_app in H2 as [? _]. split_and!; [done|constructor|done|done].
  - rewrite app_assoc in HG. pose proof (graded_before _ _ _ _ HG ltac:(lia)) as H1.
    apply Forall_app in H1 as [_ ?]. split_and!; [done|done|constructor|done].
Qed.
End invariant.

(** ** The loops *)

(** A splay tree in memory. *)
Definition SHolds (s : sp_state) (t : stree) : Prop :=
  srep (sp_mem s) t ∧ sph_root s = sroot t ∧ NoDup (sinorder t).

Section run.
Context (F : gmap positive spe_entry) (N : list positive) (node : positive).
Context (c : positive → Z) (S : list positive) (HS : graded c S).

Lemma round_left_run (comp : ptr → SM Z) s L t R :
  (∀ y s, comp (Some y) s = Some (c y, s)) →
  SS F N node DRight s L t R → Inv c S L t R → at_root c (λ v, v < 0) t →
  ∃ s' stop R' t',
    splay_round DLeft comp (Some (tip node L)) (Some (tip node R)) s =
      Some (if stop : bool then None else Some (Some (tip node L), Some (tip node R')), s') ∧
    SS F N node DRight s' L t' R' ∧ Inv c S L t' R' ∧
    (stop = true → settled c t' ∧ R' = R) ∧ (stop = false → (sheight t' < sheight t)%nat).
Proof.
  intros Hc HSS HI Hr. apply SS_flip in HSS. destruct t as [|l x r]; [done|].
  destruct (splay_round_run F N node DLeft comp c s R l x r L Hc HSS)
    as (s' & stop & R' & t' & HT & E & HSS').
  destruct (sround_left c S HS L _ R stop R' t' HI Hr HT) as (HI' & Hst & Hh).
  exists s', stop, R', t'. split_and!; [exact E|by apply SS_flip|done..].
Qed.

Lemma round_right_run (comp : ptr → SM Z) s L t R :
  (∀ y s, comp (Some y) s = Some (c y, s)) →
  SS F N node DRight s L t R → Inv c S L t R → at_root c (λ v, 0 < v) t →
  ∃ s' stop L' t',
    splay_round DRight comp (Some (tip node L)) (Some (tip node R)) s =
      Some (if stop : bool then None else Some (Some (tip node L'), Some (tip node R)), s') ∧
    SS F N node DRight s' L' t' R ∧ Inv c S L' t' R ∧
    (stop = true → settled c t' ∧ L' = L) ∧ (stop = false → (sheight t' < sheight t)%nat).
Proof.
  intros Hc HSS HI Hr. destruct t as [|l x r]; [done|].
  destruct (splay_round_run F N node DRight comp c s L r x l R Hc HSS)
    as (s' & stop & L' & t' & HT & E & HSS').
  destruct (sround_right c S HS L _ R stop L' t' HI Hr HT) as (HI' & Hst & Hh).
  exists s', stop, L', t'. split_and!; [exact E|done..].
Qed.

(** What a loop leaves behind. *)
Definition Settled s lr : Prop :=
  ∃ L t R, lr = (Some (tip node L), Some (tip node R)) ∧
    SS F N node DRight s L t R ∧ Inv c S L t R ∧ settled c t.

Lemma minmax_loop_run fuel v s L t R :
  v ≠ 0 → (∀ y, c y = v) →
  SS F N node DRight s L t R → Inv c S L t R → (sheight t < fuel)%nat →
  ∃ s' lr, splay_minmax_loop fuel v (Some (tip node L)) (Some (tip node R)) s = Some (lr, s') ∧
    Settled s' lr.
Proof.
  intros Hv Hc. revert s L t R; induction fuel as [|fuel IH]; intros s L t R HSS HI Hf; [lia|].
  assert (Hcomp : ∀ y s, (λ _ : ptr, mret v : SM Z) (Some y) s = Some (c y, s))
    by (intros; by rewrite Hc).
  cbn [splay_minmax_loop].
  destruct (Z.ltb_spec v 0); [|destruct (Z.ltb_spec 0 v); [|lia]].
  - destruct (round_left_run (λ _, mret v) s L t R Hcomp HSS HI)
      as (s' & stop & R' & t' & E & HSS' & HI' & Hst & Hh).
    { destruct t; [by destruct HI as (_ & _ & _ & ?)|]. simpl. by rewrite Hc. }
    rewrite (bind_run _ _ _ _ _ E). destruct stop.
    + destruct Hst as [? ->]; [done|]. do 2 eexists; split; [done|]. by exists L, t', R.
    + apply (IH _ _ _ _ HSS' HI'). specialize (Hh eq_refl). lia.
  - destruct (round_right_run (λ _, mret v) s L t R Hcomp HSS HI)
      as (s' & stop & L' & t' & E & HSS' & HI' & Hst & Hh).
    { destruct t; [by destruct HI as (_ & _ & _ & ?)|]. simpl. by rewrite Hc. }
    rewrite (bind_run _ _ _ _ _ E). destruct stop.
    + destruct Hst as [? ->]; [done|]. do 2 eexists; split; [done|]. by exists L, t', R.
    + apply (IH _ _ _ _ HSS' HI'). specialize (Hh eq_refl). lia.
Qed.

Lemma splay_loop_run cmp e fuel s L t R :
  c = cmp e →
  SS F N node DRight s L t R → Inv c S L t R → (sheight t < fuel)%nat →
  ∃ s' lr, splay_loop cmp fuel e (Some (tip node L)) (Some (tip node R)) s = Some (lr, s') ∧
    Settled s' lr.
Proof.
  intros Hc. revert s L t R; induction fuel as [|fuel IH]; intros s L t R HSS HI Hf; [lia|].
  assert (Hcomp : ∀ y s, sp_compare cmp e (Some y) s = Some (c y, s)) by (intros; by rewrite Hc).
  cbn [splay_loop]. rewrite (bind_run _ _ _ _ _ (sp_root_run s)).
  destruct t as [|l x r] eqn:Et; [by destruct HI as (_ & _ & _ & ?)|]. rewrite <-Et in *.
  assert (Hroot : sph_root s = Some x) by (destruct HSS as (_ & -> & _); by subst).
  rewrite Hroot, (bind_run _ _ _ _ _ (Hcomp x s)).
  destruct (Z.eqb_spec (c x) 0).
  { do 2 eexists; split; [done|]. exists L, t, R. split_and!; [done..|]. subst t. by left. }
  destruct (Z.ltb_spec (c x) 0).
  - destruct (round_left_run (sp_compare cmp e) s L t R Hcomp HSS HI)
      as (s' & stop & R' & t' & E & HSS' & HI' & Hst & Hh); [by subst|].
    rewrite (bind_run _ _ _ _ _ E). destruct stop.
    + destruct Hst as [? ->]; [done|]. do 2 eexists; split; [done|]. by exists L, t', R.
    + apply (IH _ _ _ _ HSS' HI'). specialize (Hh eq_refl). lia.
  - destruct (round_right_run (sp_compare cmp e) s L t R Hcomp HSS HI)
      as (s' & stop & L' & t' & E & HSS' & HI' & Hst & Hh); [subst; simpl; lia|].
    rewrite (bind_run _ _ _ _ _ E). destruct stop.
    + destruct Hst as [? ->]; [done|]. do 2 eexists; split; [done|]. by exists L, t', R.
    + apply (IH _ _ _ _ HSS' HI'). specialize (Hh eq_refl). lia.
Qed.

(** [SPLAY_ASSEMBLE] and the end of the life of [__node]. *)
Lemma assemble_end_run s lr :
  Settled s lr →
  ∃ s' l x r, (SPLAY_ASSEMBLE (Some node) lr.1 lr.2;; sp_drop (Some node)) s = Some (tt, s') ∧
    SHolds s' (SNode l x r) ∧ sinorder (SNode l x r) = S ∧
    lower c (sinorder l) ∧ upper c (sinorder r) ∧
    sp_mem s' !! node = None ∧ (∀ z, z ∉ N → z ≠ node → sp_mem s' !! z = F !! z).
Proof.
  intros (L & t & R & -> & HSS & HI & Hset). destruct t as [|l x r]; [done|].
  destruct (settled_split c S HS _ _ _ _ _ HI Hset) as [Hl Hr].
  destruct (assemble_run F N node s L l x r R HSS) as (s1 & E & Ht & Hx & HF).
  assert (Hin : sinorder (SNode (asm DRight L l) x (asm DLeft R r)) = S).
  { cbn [sinorder]. rewrite asm_left, asm_right. destruct HI as (<- & _). by cat. }
  assert (Hnd : NoDup (node :: sinorder (SNode (asm DRight L l) x (asm DLeft R r)))).
  { destruct HSS as (_ & _ & _ & _ & Hnd & _). simpl. rewrite asm_left, asm_right.
    assert (Hp : ∀ xs, lseq xs ≡ₚ els xs ∧ rseq xs ≡ₚ els xs).
    { clear. induction xs as [|[y b] xs [IH1 IH2]]; simpl; [done|]. rewrite IH1, IH2. split; occs. }
    rewrite (proj1 (Hp L)), (proj2 (Hp R)). simpl in Hnd. occs. }
  exists (SpState (sph_root s1) (delete node (sp_mem s1))), (asm DRight L l), x, (asm DLeft R r).
  split_and!.
  - cbn [fst snd]. by rewrite (bind_run _ _ _ _ _ E).
  - split_and!; [|done|by apply NoDup_cons in Hnd as [_ ?]].
    eapply srep_ext; [|exact Ht]. intros z Hz. apply lookup_delete_ne. occs.
  - done.
  - by rewrite asm_left.
  - by rewrite asm_right.
  - apply lookup_delete_eq.
  - intros z Hz Hn. simpl. rewrite lookup_delete_ne by done. by apply HF.
Qed.
End run.

(** ** Splaying *)

(** Nothing but the elements [l] changed. *)
Definition suntouched (l : list positive) (s s' : sp_state) : Prop :=
  ∀ z, z ∉ l → sp_mem s' !! z = sp_mem s !! z.

(** Elements stay in memory. *)
Definition keeps (s s' : sp_state) : Prop :=
  ∀ z, is_Some (sp_mem s !! z) → is_Some (sp_mem s' !! z).

Lemma keeps_refl s : keeps s s.
Proof. by intros z. Qed.

Lemma keeps_trans s1 s2 s3 : keeps s1 s2 → keeps s2 s3 → keeps s1 s3.
Proof. unfold keeps. auto. Qed.

Lemma srep_in m t z : srep m t → z ∈ sinorder t → is_Some (m !! z).
Proof.
  induction t as [|l IHl x r IHr]; simpl; [by intros _ ?%elem_of_nil|].
  intros (Hx & Hl & Hr). rewrite elem_of_app, elem_of_cons.
  intros [?|[->|?]]; [by apply IHl|by rewrite Hx|by apply IHr].
Qed.

Lemma suntouched_keeps l s s' t' :
  suntouched l s s' → SHolds s' t' → (∀ z, z ∈ l → z ∈ sinorder t') → keeps s s'.
Proof.
  intros Hu (Ht & _) Hl z Hz. destruct (decide (z ∈ l)).
  - eapply srep_in; [exact Ht|auto].
  - by rewrite Hu.
Qed.

Lemma sheight_length t : (sheight t ≤ length (sinorder t))%nat.
Proof. induction t as [|l IHl x r IHr]; simpl; [lia|]. rewrite length_app. simpl. lia. Qed.

(** [__node] is a new cell and both spines start empty. *)
Lemma start_run s t :
  SHolds s t →
  ∃ node s1, sp_node s = Some (Some node, s1) ∧ sp_mem s !! node = None ∧
    SS (sp_mem s) (node :: sinorder t) node DRight s1 [] t [].
Proof.
  intros (Ht & Hr & Hnd). exists (fresh (dom (sp_mem s))). eexists; split; [done|].
  set (node := fresh _).
  assert (Hn : sp_mem s !! node = None) by (apply not_elem_of_dom, is_fresh).
  assert (Hnt : node ∉ sinorder t).
  { intros Hin. destruct (srep_in _ _ _ Ht Hin) as [? E]. by rewrite Hn in E. }
  split; [done|]. unfold SS. cbn [sp_mem sph_root els app]. rewrite app_nil_r. split_and!.
  - eapply srep_ext; [|exact Ht]. intros z Hz. apply lookup_insert_ne. by intros ->.
  - done.
  - exists None. simpl. unfold link. by rewrite lookup_insert_eq.
  - exists None. simpl. unfold link. by rewrite lookup_insert_eq.
  - by constructor.
  - done.
  - intros z Hz. apply lookup_insert_ne. set_solver.
Qed.

Lemma Inv_start c t : t ≠ SLeaf → Inv c (sinorder t) [] t [].
Proof. intros Ht. split_and!; [by rewrite app_nil_r|constructor|constructor|done]. Qed.

(** Both loops between the two halves of a splay. *)
Lemma splay_body_run (loop : ptr → ptr → SM (ptr * ptr)) c s t :
  SHolds s t → t ≠ SLeaf → graded c (sinorder t) →
  (∀ F N node s1, SS F N node DRight s1 [] t [] →
     ∃ s2 lr, loop (Some node) (Some node) s1 = Some (lr, s2) ∧
       Settled F N node c (sinorder t) s2 lr) →
  ∃ s' l x r,
    (node ← sp_node; lr ← loop node node;
     let '(lft, rgt) := lr in SPLAY_ASSEMBLE node lft rgt;; sp_drop node) s = Some (tt, s') ∧
    SHolds s' (SNode l x r) ∧ sinorder (SNode l x r) = sinorder t ∧
    lower c (sinorder l) ∧ upper c (sinorder r) ∧ suntouched (sinorder t) s s' ∧ keeps s s'.
Proof.
  intros HH Ht HG Hloop. destruct (start_run s t HH) as (node & s1 & E1 & Hn & HSS).
  destruct (Hloop _ _ _ _ HSS) as (s2 & [lft rgt] & E2 & Hset).
  destruct (assemble_end_run _ _ _ _ _ HG _ _ Hset)
    as (s' & l & x & r & E3 & HH' & Hin & Hl & Hr & Hn' & HF).
  assert (Hu : suntouched (sinorder t) s s').
  { intros z Hz. destruct (decide (z = node)) as [->|]; [by rewrite Hn, Hn'|].
    apply HF; [set_solver|done]. }
  exists s', l, x, r. split_and!; try done.
  - by rewrite (bind_run _ _ _ _ _ E1), (bind_run _ _ _ _ _ E2).
  - eapply suntouched_keeps; [done..|]. by rewrite Hin.
Qed.

Lemma SPLAY_run cmp `{!Comparison cmp} fuel e s t :
  SHolds s t → t ≠ SLeaf → graded (cmp e) (sinorder t) → (sheight t < fuel)%nat →
  ∃ s' l x r, SPLAY cmp fuel e s = Some (tt, s') ∧
    SHolds s' (SNode l x r) ∧ sinorder (SNode l x r) = sinorder t ∧
    lower (cmp e) (sinorder l) ∧ upper (cmp e) (sinorder r) ∧
    suntouched (sinorder t) s s' ∧ keeps s s'.
Proof.
  intros HH Ht HG Hf. apply (splay_body_run (splay_loop cmp fuel e)); [done..|].
  intros F N node s1 HSS.
  apply (splay_loop_run F N node (cmp e) _ HG cmp e fuel s1 [] t []); [done..| |done].
  by apply Inv_start.
Qed.

Lemma SPLAY_MINMAX_run fuel v s t :
  SHolds s t → t ≠ SLeaf → v ≠ 0 → (sheight t < fuel)%nat →
  ∃ s' l x r, SPLAY_MINMAX fuel v s = Some (tt, s') ∧
    SHolds s' (SNode l x r) ∧ sinorder (SNode l x r) = sinorder t ∧
    (v < 0 → l = SLeaf) ∧ (0 < v → r = SLeaf) ∧
    suntouched (sinorder t) s s' ∧ keeps s s'.
Proof.
  intros HH Ht Hv Hf.
  destruct (splay_body_run (splay_minmax_loop fuel v) (λ _, v) s t HH Ht)
    as (s' & l & x & r & E & HH' & Hin & Hl & Hr & Hu & Hk).
  { by apply const_graded. }
  { intros F N node s1 HSS.
    apply (minmax_loop_run F N node (λ _, v) _ (const_graded v _ Hv) fuel v s1 [] t []);
      [done..| |done]. by apply Inv_start. }
  exists s', l, x, r. split_and!; try done.
  - intros ?. destruct l as [|ll y lr]; [done|]. simpl in Hl.
    apply Forall_app in Hl as [_ Hl]. apply Forall_cons in Hl as [? _]. lia.
  - intros ?. destruct r as [|ll y lr]; [done|]. simpl in Hr.
    apply Forall_app in Hr as [_ Hr]. apply Forall_cons in Hr as [? _]. lia.
Qed.
