(* ===== verification/SplayProperties.v ===== *)
(** What the splay tree macros promise their callers.

    The splay tree is only ever seen through its sequence: every call answers
    as the reference operation of [Ordered] does on the sequence, whatever
    shape the splaying gives the tree. *)
From Stdlib Require Import ZArith Lia.
From stdpp Require Import prelude gmap sorting.
From S2P Require Import Prelude Ordered RBSpec SplayTree SplayProof SplayTheorems.

Section operations.
Context (cmp : positive → positive → Z) `{!Comparison cmp}.
Implicit Types (s : sp_state) (t : stree) (e : positive).

(** The memory of [s] holds a splay tree of the sorted sequence [l]. *)
Definition Sequence s (l : list positive) : Prop :=
  ∃ t, SHolds s t ∧ sinorder t = l ∧ sorted cmp l.

Lemma splay_empty_run s t : SHolds s t → SPLAY_EMPTY s = Some (bool_decide (t = SLeaf), s).
Proof.
  intros (_ & Hr & _). unfold SPLAY_EMPTY. rewrite (bind_run _ _ _ _ _ (sp_root_run s)), Hr.
  by destruct t.
Qed.

Lemma SHolds_root s l x r : SHolds s (SNode l x r) → sph_root s = Some x.
Proof. by intros (_ & ? & _). Qed.

Lemma SHolds_entry s l x r :
  SHolds s (SNode l x r) → sp_mem s !! x = Some (SpEntry (sroot l) (sroot r)).
Proof. by intros ((? & _) & _). Qed.

Lemma splay_compare_run e x s : sp_compare cmp e (Some x) s = Some (cmp e x, s).
Proof. done. Qed.

(** [SPLAY] on a sequence. *)
Lemma splay_seq fuel e s t :
  SHolds s t → sorted cmp (sinorder t) → t ≠ SLeaf → length (sinorder t) < fuel →
  ∃ s' l x r, SPLAY cmp fuel e s = Some (tt, s') ∧
    SHolds s' (SNode l x r) ∧ sinorder l ++ x :: sinorder r = sinorder t ∧
    below cmp e (sinorder l) ∧ above cmp e (sinorder r) ∧
    suntouched (sinorder t) s s' ∧ keeps s s'.
Proof.
  intros HH Hs Ht Hf. pose proof (sheight_length t).
  apply SPLAY_run; [done|done|done|by apply sorted_graded|lia].
Qed.

(** The reference operations around the root a splay brings up. *)
Lemma lfind_root e l x r :
  below cmp e l → above cmp e r →
  lfind cmp e (l ++ x :: r) = if (cmp e x =? 0)%Z then Some x else None.
Proof.
  intros Hl Hr. rewrite (lfind_app cmp) by done. unfold lfind; simpl.
  destruct (cmp e x =? 0)%Z; [done|]. by apply (lfind_above cmp).
Qed.

Lemma linsert_root_lt e l x r :
  below cmp e l → above cmp e r → (cmp e x < 0)%Z →
  linsert cmp e (l ++ x :: r) = l ++ e :: x :: r.
Proof. intros. apply linsert_cut; [done|by constructor]. Qed.

Lemma linsert_root_gt e l x r :
  below cmp e l → above cmp e r → (0 < cmp e x)%Z →
  linsert cmp e (l ++ x :: r) = l ++ x :: e :: r.
Proof.
  intros. rewrite cons_middle, app_assoc, linsert_cut; [by rewrite <-app_assoc| |done].
  apply Forall_app; split; [done|by constructor].
Qed.

(** The sequence without the key of [e]. *)
Definition lremove e (l : list positive) : list positive := filter (λ y, cmp e y ≠ 0%Z) l.

Lemma lremove_root e l x r :
  below cmp e l → above cmp e r → cmp e x = 0%Z → lremove e (l ++ x :: r) = l ++ r.
Proof.
  intros Hl Hr Hx. unfold lremove. rewrite filter_app, filter_cons_False by auto.
  f_equal; apply filter_all; (eapply Forall_impl; [done|]); simpl; lia.
Qed.

Lemma lremove_sorted e l : sorted cmp l → sorted cmp (lremove e l).
Proof.
  unfold sorted, lremove. induction 1 as [|x l Hs IH Hx]; [constructor|].
  destruct (decide (cmp e x ≠ 0%Z)).
  - rewrite filter_cons_True by done. constructor; [done|].
    rewrite Forall_forall in *. intros z [_ Hz]%list_elem_of_filter. by apply Hx.
  - by rewrite filter_cons_False.
Qed.

(** ** The operations *)

Lemma splay_find_run fuel e s t :
  SHolds s t → sorted cmp (sinorder t) → length (sinorder t) < fuel →
  ∃ s' t', SPLAY_FIND cmp fuel e s = Some (lfind cmp e (sinorder t), s') ∧
    SHolds s' t' ∧ sinorder t' = sinorder t ∧ suntouched (sinorder t) s s' ∧ keeps s s'.
Proof.
  intros HH Hs Hf. unfold SPLAY_FIND. rewrite (bind_run _ _ _ _ _ (splay_empty_run s t HH)).
  destruct (decide (t = SLeaf)) as [->|Ht].
  { rewrite bool_decide_true by done. exists s, SLeaf. split_and!; auto using keeps_refl; done. }
  rewrite bool_decide_false by done.
  destruct (splay_seq fuel e s t HH Hs Ht Hf) as (s' & l & x & r & E & HH' & Hi & Hl & Hr & Hu & Hk).
  exists s', (SNode l x r). split_and!; try done.
  rewrite (bind_run _ _ _ _ _ E), (bind_run _ _ _ _ _ (sp_root_run s')), (SHolds_root _ _ _ _ HH').
  rewrite (bind_run _ _ _ _ _ (splay_compare_run e x s')), <-Hi, lfind_root by done.
  destruct (cmp e x =? 0)%Z; [|done]. by rewrite sp_root_run, (SHolds_root _ _ _ _ HH').
Qed.

Lemma minmax_seq fuel v s t :
  SHolds s t → (v ≠ 0)%Z → length (sinorder t) < fuel →
  ∃ s' t', (empty ← SPLAY_EMPTY;
            if (empty : bool) then mret None else SPLAY_MIN_MAX fuel v) s =
           Some (if (v <? 0)%Z then head (sinorder t) else last (sinorder t), s') ∧
    SHolds s' t' ∧ sinorder t' = sinorder t ∧ suntouched (sinorder t) s s' ∧ keeps s s'.
Proof.
  intros HH Hv Hf. rewrite (bind_run _ _ _ _ _ (splay_empty_run s t HH)).
  destruct (decide (t = SLeaf)) as [->|Ht].
  { rewrite bool_decide_true by done. exists s, SLeaf. split_and!; auto using keeps_refl; [by destruct (v <? 0)%Z|done]. }
  rewrite bool_decide_false by done. pose proof (sheight_length t).
  destruct (SPLAY_MINMAX_run fuel v s t HH Ht Hv)
    as (s' & l & x & r & E & HH' & Hi & Hl & Hr & Hu & Hk); [lia|].
  exists s', (SNode l x r). split_and!; try done.
  unfold SPLAY_MIN_MAX. rewrite (bind_run _ _ _ _ _ E), sp_root_run, (SHolds_root _ _ _ _ HH').
  rewrite <-Hi. destruct (Z.ltb_spec v 0); simpl.
  - by rewrite (Hl H0).
  - rewrite (Hr ltac:(lia)). simpl. by rewrite last_snoc.
Qed.

Lemma leftmost_run fuel s t x :
  srep (sp_mem s) t → sroot t = Some x → sheight t ≤ fuel →
  splay_leftmost fuel (Some x) s = Some (head (sinorder t), s).
Proof.
  revert t x; induction fuel as [|fuel IH]; intros t x Ht Hx Hf.
  { destruct t; simpl in *; [done|lia]. }
  destruct t as [|l y r]; [done|]. injection Hx as ->. destruct Ht as (Hx & Hl & Hr).
  cbn [splay_leftmost]. simpl in Hf. unfold SPLAY_LEFT.
  rewrite (bind_run _ _ _ _ _ (sp_child_run DLeft _ _ _ Hx)). cbn [sp_child spe_left].
  destruct l as [|ll z lr] eqn:El; [done|]. cbn [sroot nonnull]. rewrite <-El in *.
  rewrite (IH l z) by (done || (by subst) || lia). do 2 f_equal. simpl.
  destruct (sinorder l) eqn:E; [|done]. subst l. simpl in E. by destruct (sinorder ll).
Qed.

(** What follows [x] in the sequence. *)
Fixpoint lnext x l : ptr :=
  match l with
  | [] => None
  | y :: l => if decide (y = x) then head l else lnext x l
  end.

Lemma lnext_app x l r : x ∉ l → lnext x (l ++ x :: r) = head r.
Proof.
  induction l as [|y l IH]; simpl; intros Hx; [by rewrite decide_True|].
  rewrite decide_False by set_solver. apply IH. set_solver.
Qed.

Lemma splay_next_run fuel e s t :
  SHolds s t → sorted cmp (sinorder t) → e ∈ sinorder t → length (sinorder t) < fuel →
  ∃ s' t', SPLAY_NEXT cmp fuel e s = Some (lnext e (sinorder t), s') ∧
    SHolds s' t' ∧ sinorder t' = sinorder t ∧ suntouched (sinorder t) s s' ∧ keeps s s'.
Proof.
  intros HH Hs He Hf.
  assert (Ht : t ≠ SLeaf) by (intros ->; by apply elem_of_nil in He).
  destruct (splay_seq fuel e s t HH Hs Ht Hf) as (s' & l & x & r & E & HH' & Hi & Hl & Hr & Hu & Hk).
  exists s', (SNode l x r). split_and!; try done.
  unfold below, above in Hl, Hr. rewrite Forall_forall in Hl, Hr.
  pose proof (cmp_refl cmp e) as Hee.
  assert (e = x) as <-.
  { rewrite <-Hi in He. apply elem_of_app in He as [He|[->|He]%elem_of_cons]; [|done|];
      [specialize (Hl e He)|specialize (Hr e He)]; simpl in *; lia. }
  unfold SPLAY_NEXT, SPLAY_RIGHT. rewrite (bind_run _ _ _ _ _ E).
  rewrite (bind_run _ _ _ _ _ (sp_child_run DRight _ _ _ (SHolds_entry _ _ _ _ HH'))).
  cbn [sp_child spe_right]. rewrite <-Hi, lnext_app
    by (intros Hin; specialize (Hl e Hin); simpl in *; lia).
  destruct r as [|rl y rr] eqn:Er; [done|]. rewrite <-Er in *.
  assert (Hsy : sroot r = Some y) by by subst. rewrite Hsy. cbn [nonnull].
  apply leftmost_run; [apply HH'|done|].
  pose proof (sheight_length r). rewrite <-Hi, length_app in Hf. simpl in Hf. lia.
Qed.
(** The sequence and the result after an insertion. *)
Definition insert_seq e (l : list positive) : list positive :=
  match lfind cmp e l with Some _ => l | None => linsert cmp e l end.

Lemma keeps_insert s p (e0 : spe_entry) : keeps s (SpState (sph_root s) (<[p := e0]> (sp_mem s))).
Proof.
  intros z Hz. simpl. destruct (decide (z = p)) as [->|].
  - rewrite lookup_insert_eq. by eexists.
  - by rewrite lookup_insert_ne.
Qed.

(** The new element becomes the root, above the old root: the statements of
    [SPLAY_INSERT] when the comparison went to the side [d]. *)
Lemma splay_hang_run d s a x b e (e0 : spe_entry) :
  SHolds s (smk d a x b) → e ∉ sinorder (smk d a x b) → sp_mem s !! e = Some e0 →
  ∃ s', (p ← SPLAY_CHILD d (Some x);
         SPLAY_SET_CHILD d (Some e) p;;
         SPLAY_SET_CHILD (flip d) (Some e) (Some x);;
         SPLAY_SET_CHILD d (Some x) None;;
         SPLAY_SET_ROOT (Some e);;
         mret (@None positive)) s = Some (None, s') ∧
    SHolds s' (smk d a e (smk d SLeaf x b)) ∧
    suntouched (e :: sinorder (smk d a x b)) s s' ∧ keeps s s'.
Proof.
  intros (Ht & Hroot & Hnd) He He0. apply srep_mk in Ht as (Hx & Ha & Hb).
  set (m := <[x := smkent d None (sroot b)]> (<[e := smkent d (sroot a) (Some x)]> (sp_mem s))).
  assert (Hm : ∀ z, z ≠ x → z ≠ e → m !! z = sp_mem s !! z).
  { intros z ??. unfold m. by rewrite !lookup_insert_ne. }
  exists (SpState (Some e) m). split_and!.
  - rewrite (bind_run _ _ _ _ _ (sp_child_run d _ _ _ Hx)), child_smkent.
    rewrite (bind_run _ _ _ _ _ (sp_set_run d _ _ _ _ He0)).
    erewrite bind_run by apply sp_set_run, lookup_insert_eq. cbn [sp_mem sph_root].
    erewrite bind_run by (apply sp_set_run; cbn [sp_mem];
      rewrite !lookup_insert_ne by occs; exact Hx).
    erewrite bind_run by done. cbn [sp_mem sph_root]. rewrite insert_insert_eq.
    rewrite with_child_smkent.
    replace (sp_with_child (flip d) (Some x) (sp_with_child d (sroot a) e0))
      with (smkent d (sroot a) (Some x)) by (by destruct d, e0). done.
  - split_and!; [|by destruct d|].
    + apply srep_mk. rewrite sroot_mk. split_and!.
      * cbn [sp_mem]. unfold m. rewrite lookup_insert_ne by occs. apply lookup_insert_eq.
      * eapply srep_ext; [|exact Ha]. intros z Hz. apply Hm; occs.
      * apply srep_mk. split_and!; [apply lookup_insert_eq|done|].
        eapply srep_ext; [|exact Hb]. intros z Hz. apply Hm; occs.
    + assert (sinorder (smk d a e (smk d SLeaf x b)) ≡ₚ e :: sinorder (smk d a x b)) as ->.
      { rewrite Permutation_occ. intros z. rewrite (occ_cons z e). occ_split. simpl. occ_split. lia. }
      by constructor.
  - intros z Hz. apply Hm; occs.
  - intros z Hz. destruct (decide (z = x)) as [->|]; [simpl; unfold m; rewrite lookup_insert_eq; by eexists|].
    destruct (decide (z = e)) as [->|]; [|cbn [sp_mem]; by rewrite (Hm z)].
    simpl. unfold m. rewrite lookup_insert_ne, lookup_insert_eq by done. by eexists.
Qed.

Lemma splay_insert_run fuel e s t :
  SHolds s t → sorted cmp (sinorder t) → is_Some (sp_mem s !! e) → length (sinorder t) < fuel →
  ∃ s' t', SPLAY_INSERT cmp fuel e s = Some (lfind cmp e (sinorder t), s') ∧
    SHolds s' t' ∧ sinorder t' = insert_seq e (sinorder t) ∧
    suntouched (e :: sinorder t) s s' ∧ keeps s s'.
Proof.
  intros HH Hs [e0 He] Hf. unfold SPLAY_INSERT. rewrite (bind_run _ _ _ _ _ (splay_empty_run s t HH)).
  destruct (decide (t = SLeaf)) as [->|Ht].
  { rewrite bool_decide_true by done.
    exists (SpState (Some e) (<[e := SpEntry None None]> (sp_mem s))), (SNode SLeaf e SLeaf).
    unfold SPLAY_SET_RIGHT, SPLAY_SET_LEFT. split_and!.
    - rewrite (bind_run _ _ _ _ _ (sp_set_run DRight _ _ _ _ He)).
      erewrite bind_run by apply sp_set_run, lookup_insert_eq. cbn [sp_mem sph_root].
      by rewrite insert_insert_eq.
    - split_and!; [by split; [apply lookup_insert_eq|]|done|apply NoDup_singleton].
    - done.
    - intros z Hz. apply lookup_insert_ne. set_solver.
    - apply (keeps_insert s). }
  rewrite bool_decide_false by done.
  destruct (splay_seq fuel e s t HH Hs Ht Hf) as (s1 & l & x & r & E & HH1 & Hi & Hl & Hr & Hu & Hk).
  rewrite (bind_run _ _ _ _ _ E), (bind_run _ _ _ _ _ (sp_root_run s1)), (SHolds_root _ _ _ _ HH1).
  rewrite (bind_run _ _ _ _ _ (splay_compare_run e x s1)). unfold insert_seq.
  rewrite <-Hi, lfind_root by done.
  destruct (Z.eqb_spec (cmp e x) 0) as [Hc|Hc].
  { exists s1, (SNode l x r). rewrite Hc. cbn [Z.ltb Z.compare].
    split_and!; [by rewrite sp_root_run, (SHolds_root _ _ _ _ HH1)|done..| |done].
    intros z Hz. apply Hu. rewrite <-Hi. set_solver. }
  assert (Hei : e ∉ sinorder (SNode l x r)).
  { unfold below, above in Hl, Hr. rewrite Forall_forall in Hl, Hr. pose proof (cmp_refl cmp e).
    intros [He'|[->|He']%elem_of_cons]%elem_of_app; [|done|];
      [specialize (Hl e He')|specialize (Hr e He')]; simpl in *; lia. }
  destruct (Hk e) as [e1 He1]; [by eexists|].
  assert (Huu : ∀ s2, suntouched (e :: sinorder (SNode l x r)) s1 s2 →
    suntouched (e :: sinorder l ++ x :: sinorder r) s s2).
  { intros s2 Hu2 z Hz. rewrite (Hu2 z Hz). apply Hu. rewrite <-Hi. set_solver. }
  destruct (Z.ltb_spec (cmp e x) 0).
  - destruct (splay_hang_run DLeft s1 l x r e e1 HH1 Hei He1) as (s2 & E2 & HH2 & Hu2 & Hk2).
    exists s2, (SNode l e (SNode SLeaf x r)). split_and!; [exact E2|done| |auto|by eapply keeps_trans].
    by rewrite linsert_root_lt.
  - destruct (Z.ltb_spec 0 (cmp e x)); [|lia].
    destruct (splay_hang_run DRight s1 r x l e e1 HH1 Hei He1) as (s2 & E2 & HH2 & Hu2 & Hk2).
    exists s2, (SNode (SNode l x SLeaf) e r). split_and!; [exact E2|done| |auto|by eapply keeps_trans].
    rewrite linsert_root_gt by done. simpl. by rewrite <-app_assoc.
Qed.

(** The left subtree of the removed root is splayed for the same key: its last
    element comes up and has no right child. *)
Lemma splay_join_run fuel e s x l r :
  SHolds s (SNode l x r) → sorted cmp (sinorder l) → l ≠ SLeaf → below cmp e (sinorder l) →
  length (sinorder l) < fuel →
  ∃ s' t', (SPLAY_SET_ROOT (sroot l);; SPLAY cmp fuel e;;
            root ← SPLAY_ROOT; SPLAY_SET_RIGHT root (sroot r)) s = Some (tt, s') ∧
    SHolds s' t' ∧ sinorder t' = sinorder l ++ sinorder r ∧
    suntouched (sinorder (SNode l x r)) s s' ∧ keeps s s'.
Proof.
  intros ((Hx & Hl & Hr) & _ & Hnd) Hs Hne Hb Hf.
  set (s1 := SpState (sroot l) (sp_mem s)).
  assert (HH1 : SHolds s1 l) by (split_and!; [done|done|occs]).
  destruct (splay_seq fuel e s1 l HH1 Hs Hne Hf)
    as (s2 & l' & x' & r' & E & HH2 & Hi & Hl' & Hr' & Hu & Hk).
  assert (r' = SLeaf) as ->.
  { destruct r' as [|rl y rr]; [done|]. unfold below, above in *.
    rewrite Forall_forall in Hb, Hr'. specialize (Hr' y ltac:(simpl; set_solver)).
    specialize (Hb y ltac:(rewrite <-Hi; simpl; set_solver)). simpl in *. lia. }
  pose proof HH2 as ((Hx' & Hrl' & _) & Hroot & Hnd').
  set (m := <[x' := SpEntry (sroot l') (sroot r)]> (sp_mem s2)).
  assert (Hin : ∀ z, z ∈ sinorder (SNode l' x' SLeaf) → z ∈ sinorder l) by (intros z; by rewrite <-Hi).
  simpl in Hnd', Hin.
  exists (SpState (sph_root s2) m), (SNode l' x' r). split_and!.
  - erewrite bind_run by done. fold s1. rewrite (bind_run _ _ _ _ _ E).
    rewrite (bind_run _ _ _ _ _ (sp_root_run s2)), Hroot. unfold SPLAY_SET_RIGHT. cbn [sroot].
    by rewrite (sp_set_run DRight _ _ _ _ Hx'), Hroot.
  - split_and!; [|done|].
    + split_and!; [apply lookup_insert_eq| |].
      * eapply srep_ext; [|exact Hrl']. intros z Hz. apply lookup_insert_ne. occs.
      * eapply srep_ext; [|exact Hr]. intros z Hz. unfold m. cbn [sp_mem].
        rewrite lookup_insert_ne; [apply Hu; occs|].
        intros ->. assert (z ∈ sinorder l) by (apply Hin; set_solver). occ_norm. occ_at z. lia.
    + cbn [sinorder]. rewrite cons_middle, app_assoc. simpl in Hi. rewrite Hi. occs.
  - cbn [sinorder]. rewrite cons_middle, app_assoc. simpl in Hi. by rewrite Hi.
  - intros z Hz. simpl. unfold m. rewrite lookup_insert_ne; [apply Hu; occs|].
    intros ->. apply Hz. simpl. apply elem_of_app. left. apply Hin. set_solver.
  - eapply keeps_trans; [exact Hk|apply (keeps_insert s2)].
Qed.

Lemma splay_remove_run fuel e s t :
  SHolds s t → sorted cmp (sinorder t) → length (sinorder t) < fuel →
  ∃ s' t', SPLAY_REMOVE cmp fuel e s =
      Some (match lfind cmp e (sinorder t) with Some _ => Some e | None => None end, s') ∧
    SHolds s' t' ∧ sinorder t' = lremove e (sinorder t) ∧
    suntouched (sinorder t) s s' ∧ keeps s s'.
Proof.
  intros HH Hs Hf. unfold SPLAY_REMOVE. rewrite (bind_run _ _ _ _ _ (splay_empty_run s t HH)).
  destruct (decide (t = SLeaf)) as [->|Ht].
  { rewrite bool_decide_true by done. exists s, SLeaf. split_and!; auto using keeps_refl; done. }
  rewrite bool_decide_false by done.
  destruct (splay_seq fuel e s t HH Hs Ht Hf) as (s1 & l & x & r & E & HH1 & Hi & Hl & Hr & Hu & Hk).
  rewrite (bind_run _ _ _ _ _ E), (bind_run _ _ _ _ _ (sp_root_run s1)), (SHolds_root _ _ _ _ HH1).
  rewrite (bind_run _ _ _ _ _ (splay_compare_run e x s1)).
  destruct (Z.eqb_spec (cmp e x) 0) as [Hc|Hc].
  2:{ exists s1, (SNode l x r).
      assert (lfind cmp e (sinorder t) = None) as Hn
        by (rewrite <-Hi, lfind_root by done; by rewrite (proj2 (Z.eqb_neq _ _) Hc)).
      rewrite Hn. split_and!; try done. cbn [sinorder]. rewrite Hi. symmetry. apply filter_all.
      rewrite Forall_forall. intros y Hy. by apply (lfind_None_inv cmp e _ Hn). }
  assert (lfind cmp e (sinorder t) = Some x) as ->
    by (rewrite <-Hi, lfind_root by done; by rewrite Hc).
  assert (lremove e (sinorder t) = sinorder l ++ sinorder r) as -> by (rewrite <-Hi; by apply lremove_root).
  pose proof (SHolds_entry _ _ _ _ HH1) as Hx. unfold SPLAY_LEFT, SPLAY_RIGHT.
  rewrite (bind_run _ _ _ _ _ (sp_child_run DLeft _ _ _ Hx)). cbn [sp_child spe_left].
  rewrite <-Hi in *. destruct (decide (l = SLeaf)) as [->|Hne].
  - cbn [sroot nonnull negb].
    exists (SpState (sroot r) (sp_mem s1)), r. split_and!; [|split_and!|done|exact Hu|exact Hk].
    + erewrite bind_run; [done|]. by rewrite (bind_run _ _ _ _ _ (sp_child_run DRight _ _ _ Hx)).
    + apply HH1.
    + done.
    + destruct HH1 as (_ & _ & Hnd). simpl in Hnd. occs.
  - destruct (splay_join_run fuel e s1 x l r HH1) as (s2 & t' & E2 & HH2 & Hi2 & Hu2 & Hk2); [|done|done| |].
    { apply (sorted_app cmp) in Hs as (? & _); done. }
    { rewrite length_app in Hf. lia. }
    exists s2, t'. split_and!; [|done|done| |by eapply keeps_trans].
    + erewrite bind_run; [done|]. replace (negb (nonnull (sroot l))) with false by by destruct l.
      rewrite (bind_run _ _ _ _ _ (sp_child_run DRight _ _ _ Hx)).
      rewrite (bind_run _ _ _ _ _ (sp_child_run DLeft _ _ _ Hx)). exact E2.
    + intros z Hz. rewrite (Hu2 z Hz). by apply Hu.
Qed.

Lemma splay_foreach_run bound fuel s t pre l :
  SHolds s t → sorted cmp (sinorder t) → sinorder t = pre ++ l →
  length (sinorder t) < bound → length l < fuel →
  ∃ s' t', splay_foreach_loop cmp bound fuel (head l) s = Some (l, s') ∧
    SHolds s' t' ∧ sinorder t' = sinorder t ∧ suntouched (sinorder t) s s' ∧ keeps s s'.
Proof.
  revert s t pre l; induction fuel as [|fuel IH]; intros s t pre l HH Hs Hl Hb Hf; [lia|].
  destruct l as [|x l]; [by exists s, t; split_and!; auto using keeps_refl|].
  cbn [splay_foreach_loop head].
  destruct (splay_next_run bound x s t HH Hs) as (s1 & t1 & E & HH1 & Hi1 & Hu1 & Hk1);
    [rewrite Hl; set_solver|done|].
  assert (Hnd : NoDup (sinorder t)) by apply HH.
  assert (Hnx : lnext x (sinorder t) = head l).
  { rewrite Hl. apply lnext_app. rewrite Hl in Hnd. occs. }
  rewrite Hnx in E. rewrite (bind_run _ _ _ _ _ E). rewrite <-Hi1 in *.
  destruct (IH s1 t1 (pre ++ [x]) l) as (s2 & t2 & E2 & HH2 & Hi2 & Hu2 & Hk2); try done.
  { rewrite Hl, <-app_assoc. done. }
  { simpl in Hf. lia. }
  exists s2, t2. split_and!; [|done|done| |by eapply keeps_trans].
  - by rewrite (bind_run _ _ _ _ _ E2).
  - intros z Hz. rewrite (Hu2 z Hz). by apply Hu1.
Qed.
End operations.

(** ** Histories of calls *)

Inductive sp_op :=
  | SpInsert (e : positive)
  | SpRemove (e : positive)
  | SpFind (e : positive)
  | SpNext (e : positive)
  | SpMin
  | SpMax.

Section histories.
Context (cmp : positive → positive → Z) `{!Comparison cmp}.

Definition sp_run_op (fuel : nat) (op : sp_op) : SM ptr :=
  match op with
  | SpInsert e => SPLAY_INSERT cmp fuel e
  | SpRemove e => SPLAY_REMOVE cmp fuel e
  | SpFind e => SPLAY_FIND cmp fuel e
  | SpNext e => SPLAY_NEXT cmp fuel e
  | SpMin => SPLAY_MIN fuel
  | SpMax => SPLAY_MAX fuel
  end.

Fixpoint sp_run_ops (fuel : nat) (ops : list sp_op) : SM (list ptr) :=
  match ops with
  | [] => mret []
  | op :: ops => r ← sp_run_op fuel op; rs ← sp_run_ops fuel ops; mret (r :: rs)
  end.

(** The same calls on the ordered sequence.  [None]: the caller breaks the
    contract of [SPLAY_NEXT], which takes an element of the tree. *)
Definition sp_spec_op (op : sp_op) (l : list positive) : option (ptr * list positive) :=
  match op with
  | SpInsert e => Some (lfind cmp e l, insert_seq cmp e l)
  | SpRemove e =>
      Some (match lfind cmp e l with Some _ => Some e | None => None end, lremove cmp e l)
  | SpFind e => Some (lfind cmp e l, l)
  | SpNext e => if decide (e ∈ l) then Some (lnext e l, l) else None
  | SpMin => Some (head l, l)
  | SpMax => Some (last l, l)
  end.

Fixpoint sp_spec_ops (ops : list sp_op) (l : list positive) : option (list ptr * list positive) :=
  match ops with
  | [] => Some ([], l)
  | op :: ops =>
      '(r, l) ← sp_spec_op op l; '(rs, l) ← sp_spec_ops ops l; Some (r :: rs, l)
  end.

(** The elements a history inserts. *)
Definition sp_inserted (ops : list sp_op) : list positive :=
  omap (λ op, match op with SpInsert e => Some e | _ => None end) ops.

Lemma insert_seq_sorted e l : sorted cmp l → sorted cmp (insert_seq cmp e l).
Proof.
  intros Hs. unfold insert_seq. destruct (lfind cmp e l) eqn:E; [done|]. by apply linsert_sorted.
Qed.

Lemma insert_seq_length e l : length (insert_seq cmp e l) ≤ S (length l).
Proof.
  unfold insert_seq. destruct (lfind cmp e l); [lia|].
  induction l as [|y l IH]; simpl; [lia|].
  destruct (cmp e y <? 0)%Z; simpl; [lia|]. destruct (0 <? cmp e y)%Z; simpl; lia.
Qed.

(** One call refines its counterpart on the sequence. *)
Lemma sp_op_run fuel op s l r l' :
  Sequence cmp s l → length l < fuel →
  (∀ e, op = SpInsert e → is_Some (sp_mem s !! e)) →
  sp_spec_op op l = Some (r, l') →
  ∃ s', sp_run_op fuel op s = Some (r, s') ∧ Sequence cmp s' l' ∧ keeps s s' ∧
    length l' ≤ S (length l).
Proof.
  intros (t & HH & <- & Hs) Hf Hm. destruct op as [e|e|e|e| |]; simpl.
  - intros [= <- <-]. destruct (splay_insert_run cmp fuel e s t HH Hs) as (s' & t' & E & HH' & Hi & _ & Hk);
      [by apply Hm|done|].
    exists s'. split_and!; [done| |done|apply insert_seq_length].
    exists t'. split_and!; [done..|by apply insert_seq_sorted].
  - intros [= <- <-]. destruct (splay_remove_run cmp fuel e s t HH Hs Hf) as (s' & t' & E & HH' & Hi & _ & Hk).
    exists s'. split_and!; [done| |done|].
    + exists t'. split_and!; [done..|by apply lremove_sorted].
    + unfold lremove. pose proof (length_filter (λ y, cmp e y ≠ 0%Z) (sinorder t)). lia.
  - intros [= <- <-]. destruct (splay_find_run cmp fuel e s t HH Hs Hf) as (s' & t' & E & HH' & Hi & _ & Hk).
    exists s'. split_and!; [done|by exists t'|done|lia].
  - destruct (decide _) as [He|]; [|done]. intros [= <- <-].
    destruct (splay_next_run cmp fuel e s t HH Hs He Hf) as (s' & t' & E & HH' & Hi & _ & Hk).
    exists s'. split_and!; [done|by exists t'|done|lia].
  - intros [= <- <-]. destruct (minmax_seq fuel SPLAY_NEGINF s t HH) as (s' & t' & E & HH' & Hi & _ & Hk);
      [done|done|].
    exists s'. split_and!; [done|by exists t'|done|lia].
  - intros [= <- <-]. destruct (minmax_seq fuel SPLAY_INF s t HH) as (s' & t' & E & HH' & Hi & _ & Hk);
      [done|done|].
    exists s'. split_and!; [done|by exists t'|done|lia].
Qed.

Lemma sp_ops_run fuel ops s l rs l' :
  Sequence cmp s l → length l + length ops ≤ fuel →
  (∀ e, e ∈ sp_inserted ops → is_Some (sp_mem s !! e)) →
  sp_spec_ops ops l = Some (rs, l') →
  ∃ s', sp_run_ops fuel ops s = Some (rs, s') ∧ Sequence cmp s' l'.
Proof.
  revert s l rs; induction ops as [|op ops IH]; intros s l rs HH Hf Hm E.
  { simpl in E. simplify_eq. by exists s. }
  cbn [sp_spec_ops] in E. apply bind_Some in E as ([r l1] & E1 & E).
  apply bind_Some in E as ([rs1 l2] & E2 & E). simplify_eq. simpl in Hf.
  destruct (sp_op_run fuel op s l r l1 HH) as (s1 & R1 & HH1 & Hk & Hlen); [lia| |done|].
  { intros e ->. apply Hm. simpl. set_solver. }
  destruct (IH s1 l1 rs1 HH1) as (s2 & R2 & HH2); [lia| |done|].
  { intros e He. apply Hk, Hm. unfold sp_inserted in *. simpl. destruct op; simpl; set_solver. }
  exists s2. split; [|done]. cbn [sp_run_ops].
  by rewrite (bind_run _ _ _ _ _ R1), (bind_run _ _ _ _ _ R2).
Qed.
End histories.

(** ** The macros *)

(** A tree of three elements, and a fourth in memory. *)
Definition sp_demo : sp_state :=
  SpState (Some 3%positive)
    (<[1%positive := SpEntry None (Some 2%positive)]>
    (<[2%positive := SpEntry None None]>
    (<[3%positive := SpEntry (Some 1%positive) None]>
    (<[4%positive := SpEntry None None]> ∅)))).

Definition sp_demo_tree : stree := SNode (SNode SLeaf 1 (SNode SLeaf 2 SLeaf)) 3 SLeaf.

Lemma sp_demo_holds : SHolds sp_demo sp_demo_tree.
Proof. split_and!; [by vm_compute|done|]. simpl. repeat constructor; set_solver. Qed.

Lemma sp_demo_sorted : sorted poscmp (sinorder sp_demo_tree).
Proof. unfold sorted, poscmp; simpl. repeat constructor; lia. Qed.

Section properties.
Context (cmp : positive → positive → Z) `{!Comparison cmp}.
Implicit Types (s : sp_state) (t : stree).

(** C6: [SPLAY] brings the element with the searched key, or else a neighbour
    of its place, to the root without changing the sequence: what is left of
    the root is below the key and what is right of it above.  It writes no
    other element, and its loop is done after as many rounds as the tree is
    high. *)
Theorem SPLAY_correct fuel e s t :
  SHolds s t → sorted cmp (sinorder t) → t ≠ SLeaf → sheight t < fuel →
  ∃ s' l x r, SPLAY cmp fuel e s = Some (tt, s') ∧
    SHolds s' (SNode l x r) ∧ sinorder (SNode l x r) = sinorder t ∧
    below cmp e (sinorder l) ∧ above cmp e (sinorder r) ∧ suntouched (sinorder t) s s'.
Proof.
  intros HH Hs Ht Hf. destruct (SPLAY_run cmp fuel e s t HH Ht) as (s' & l & x & r & H);
    [by apply sorted_graded|done|].
  exists s', l, x, r. naive_solver.
Qed.

(** C7: any history of calls, started with [SPLAY_INIT] on elements in memory,
    answers as the same calls on an ordered sequence, and leaves a splay tree
    of that sequence. *)
Theorem SPLAY_refines_sequence fuel s ops rs l :
  length ops ≤ fuel →
  (∀ e, e ∈ sp_inserted ops → is_Some (sp_mem s !! e)) →
  sp_spec_ops cmp ops [] = Some (rs, l) →
  ∃ s', (SPLAY_INIT;; sp_run_ops cmp fuel ops) s = Some (rs, s') ∧ Sequence cmp s' l.
Proof.
  intros Hf Hm E. unfold SPLAY_INIT. erewrite bind_run by done.
  apply (sp_ops_run cmp fuel ops _ []); [|done|done|done].
  exists SLeaf. split_and!; [split_and!; [done..|constructor]|done|constructor].
Qed.

(** A [SPLAY_FOREACH] loop runs its body once on every element, in order,
    although every step splays the tree. *)
Theorem SPLAY_FOREACH_correct fuel s t :
  SHolds s t → sorted cmp (sinorder t) → length (sinorder t) < fuel →
  ∃ s' t', SPLAY_FOREACH cmp fuel s = Some (sinorder t, s') ∧
    SHolds s' t' ∧ sinorder t' = sinorder t ∧ suntouched (sinorder t) s s'.
Proof.
  intros HH Hs Hf. unfold SPLAY_FOREACH.
  destruct (minmax_seq fuel SPLAY_NEGINF s t HH) as (s1 & t1 & E1 & HH1 & Hi1 & Hu1 & _); [done|done|].
  unfold SPLAY_MIN. rewrite (bind_run _ _ _ _ _ E1). cbn [Z.ltb Z.compare SPLAY_NEGINF].
  rewrite <-Hi1 in *.
  destruct (splay_foreach_run cmp fuel fuel s1 t1 [] (sinorder t1)) as (s2 & t2 & E2 & HH2 & Hi2 & Hu2 & _);
    [done..|].
  exists s2, t2. split_and!; [done..|]. intros z Hz. rewrite (Hu2 z Hz). by apply Hu1.
Qed.
End properties.

Lemma SPLAY_correct_witness :
  ∃ s' l x r, SPLAY poscmp 4 2 sp_demo = Some (tt, s') ∧
    SHolds s' (SNode l x r) ∧ sinorder (SNode l x r) = [1;2;3]%positive ∧
    below poscmp 2 (sinorder l) ∧ above poscmp 2 (sinorder r) ∧
    suntouched [1;2;3]%positive sp_demo s'.
Proof.
  apply (SPLAY_correct poscmp 4 2 sp_demo sp_demo_tree sp_demo_holds sp_demo_sorted);
    [done|vm_compute; lia].
Defined.

Lemma SPLAY_refines_sequence_witness :
  ∃ s', (SPLAY_INIT;; sp_run_ops poscmp 7
      [SpInsert 3; SpInsert 1; SpInsert 4; SpMin; SpRemove 3; SpNext 1; SpFind 3]%positive) sp_demo =
    Some ([None; None; None; Some 1; Some 3; Some 4; None]%positive, s') ∧
    Sequence poscmp s' [1;4]%positive.
Proof.
  apply SPLAY_refines_sequence.
  - apply _.
  - done.
  - intros e He. assert (e = 1%positive ∨ e = 3%positive ∨ e = 4%positive) as [-> | [-> | ->]]
      by (unfold sp_inserted in He; simpl in He; set_solver); vm_compute; eauto.
  - by vm_compute.
Defined.

Lemma SPLAY_FOREACH_correct_witness :
  ∃ s' t', SPLAY_FOREACH poscmp 4 sp_demo = Some ([1;2;3]%positive, s') ∧
    SHolds s' t' ∧ sinorder t' = [1;2;3]%positive ∧ suntouched [1;2;3]%positive sp_demo s'.
Proof.
  apply (SPLAY_FOREACH_correct poscmp 4 sp_demo sp_demo_tree sp_demo_holds sp_demo_sorted).
  vm_compute. lia.
Defined.
