(* ===== verification/Queue.v ===== *)
(** The lists and queues of [include/compat/sys/queue.h].

    These macros take addresses of pointer fields and read through them, so the
    state is the memory itself: the contents of every pointer-sized location,
    by address.  NULL is 0.  An element at address [elm] has its [field] at
    [elm + off]; the first member of an entry is its next pointer, the second
    its previous pointer, and a head has its first pointer and, one word on,
    its last pointer.  The casts of [TAILQ_LAST] and [TAILQ_PREV] from one
    layout to the other are then what the C code does. *)
From Stdlib Require Import ZArith Lia.
From stdpp Require Import prelude gmap.
From S2P Require Import Prelude.

Local Open Scope Z_scope.

(** ** Memory *)

Abbreviation memory := (gmap Z Z).
Abbreviation QM := (ST memory).

(** A pointer-sized load and store; other locations than the allocated ones
    may not be accessed. *)
Definition load (a : Z) : QM Z := λ m, v ← m !! a; Some (v, m).
Definition store (a v : Z) : QM unit := λ m, _ ← m !! a; Some (tt, <[a := v]> m).

Definition NULL : Z := 0.

(** The size of a pointer. *)
Definition word : Z := 8.

(** A [FOREACH] loop from [var], with the macro's step; its value is the list
    of elements the body was run on. *)
Fixpoint q_foreach (fuel : nat) (next : Z → QM Z) (body : Z → QM unit) (var : Z) : QM (list Z) :=
  match fuel with
  | O => fail
  | S fuel =>
      if var =? NULL then mret []
      else
        body var;;
        var' ← next var;
        l ← q_foreach fuel next body var';
        mret (var :: l)
  end.

(** A [FOREACH_SAFE] loop: the step is taken before the body runs. *)
Fixpoint q_foreach_safe (fuel : nat) (next : Z → QM Z) (body : Z → QM unit) (var : Z) :
    QM (list Z) :=
  match fuel with
  | O => fail
  | S fuel =>
      if var =? NULL then mret []
      else
        tvar ← next var;
        body var;;
        l ← q_foreach_safe fuel next body tvar;
        mret (var :: l)
  end.

Section queue.
(** The offset of [field] in an element, and whether [QUEUE_MACRO_DEBUG] is
    defined. *)
Context (off : Z) (debug : bool).
(** The width of [unsigned long], through which [XSIMPLEQ_XOR] casts. *)
Context (ulong_bits : Z).

(** The address of the next pointer, and of the previous pointer, of an
    element: [&(elm)->field.le_next], [&(elm)->field.le_prev]. *)
Definition nx (elm : Z) : Z := elm + off.
Definition pv (elm : Z) : Z := elm + off + word.

(** The address of the last pointer of a head whose address is [h], and of the
    cookie behind it. *)
Definition lastp (h : Z) : Z := h + word.
Definition cookiep (h : Z) : Z := h + word + word.

Definition Q_INVALIDATE (a : Z) : QM unit :=
  if debug then store a (-1) else mret tt.

(** ** Singly-linked lists *)

Definition SLIST_FIRST (head : Z) : QM Z := load head.
Definition SLIST_NEXT (elm : Z) : QM Z := load (nx elm).
Definition SLIST_EMPTY (head : Z) : QM bool := f ← SLIST_FIRST head; mret (f =? NULL).

Definition SLIST_FOREACH (fuel : nat) (head : Z) (body : Z → QM unit) : QM (list Z) :=
  var ← SLIST_FIRST head; q_foreach fuel SLIST_NEXT body var.

Definition SLIST_FOREACH_SAFE (fuel : nat) (head : Z) (body : Z → QM unit) : QM (list Z) :=
  var ← SLIST_FIRST head; q_foreach_safe fuel SLIST_NEXT body var.

Definition SLIST_INIT (head : Z) : QM unit := store head NULL.

Definition SLIST_INSERT_AFTER (slistelm elm : Z) : QM unit :=
  n ← load (nx slistelm);
  store (nx elm) n;;
  store (nx slistelm) elm.

Definition SLIST_INSERT_HEAD (head elm : Z) : QM unit :=
  f ← load head;
  store (nx elm) f;;
  store head elm.

Definition SLIST_REMOVE_AFTER (elm : Z) : QM unit :=
  n ← load (nx elm);
  nn ← load (nx n);
  store (nx elm) nn.

Definition SLIST_REMOVE_HEAD (head : Z) : QM unit :=
  f ← load head;
  n ← load (nx f);
  store head n.

(** [while (curelm->field.sle_next != (elm)) curelm = curelm->field.sle_next;] *)
Fixpoint slist_find_prev (fuel : nat) (elm curelm : Z) : QM Z :=
  match fuel with
  | O => fail
  | S fuel =>
      n ← load (nx curelm);
      if n =? elm then mret curelm
      else n ← load (nx curelm); slist_find_prev fuel elm n
  end.

Definition SLIST_REMOVE (fuel : nat) (head elm : Z) : QM unit :=
  f ← load head;
  (if f =? elm then SLIST_REMOVE_HEAD head
   else
     curelm ← load head;
     curelm ← slist_find_prev fuel elm curelm;
     n ← load (nx curelm);
     nn ← load (nx n);
     store (nx curelm) nn);;
  Q_INVALIDATE (nx elm).

(** ** Lists *)

Definition LIST_FIRST (head : Z) : QM Z := load head.
Definition LIST_NEXT (elm : Z) : QM Z := load (nx elm).
Definition LIST_EMPTY (head : Z) : QM bool := f ← LIST_FIRST head; mret (f =? NULL).

Definition LIST_FOREACH (fuel : nat) (head : Z) (body : Z → QM unit) : QM (list Z) :=
  var ← LIST_FIRST head; q_foreach fuel LIST_NEXT body var.

Definition LIST_FOREACH_SAFE (fuel : nat) (head : Z) (body : Z → QM unit) : QM (list Z) :=
  var ← LIST_FIRST head; q_foreach_safe fuel LIST_NEXT body var.

Definition LIST_INIT (head : Z) : QM unit := store head NULL.

Definition LIST_INSERT_AFTER (listelm elm : Z) : QM unit :=
  n ← load (nx listelm);
  store (nx elm) n;;
  (if negb (n =? NULL) then
     n ← load (nx listelm);
     store (pv n) (nx elm)
   else mret tt);;
  store (nx listelm) elm;;
  store (pv elm) (nx listelm).

Definition LIST_INSERT_BEFORE (listelm elm : Z) : QM unit :=
  p ← load (pv listelm);
  store (pv elm) p;;
  store (nx elm) listelm;;
  p ← load (pv listelm);
  store p elm;;
  store (pv listelm) (nx elm).

Definition LIST_INSERT_HEAD (head elm : Z) : QM unit :=
  f ← load head;
  store (nx elm) f;;
  (if negb (f =? NULL) then
     f ← load head;
     store (pv f) (nx elm)
   else mret tt);;
  store head elm;;
  store (pv elm) head.

Definition LIST_REMOVE (elm : Z) : QM unit :=
  n ← load (nx elm);
  (if negb (n =? NULL) then
     n ← load (nx elm);
     p ← load (pv elm);
     store (pv n) p
   else mret tt);;
  p ← load (pv elm);
  n ← load (nx elm);
  store p n;;
  Q_INVALIDATE (pv elm);;
  Q_INVALIDATE (nx elm).

Definition LIST_REPLACE (elm elm2 : Z) : QM unit :=
  n ← load (nx elm);
  store (nx elm2) n;;
  (if negb (n =? NULL) then
     n ← load (nx elm2);
     store (pv n) (nx elm2)
   else mret tt);;
  p ← load (pv elm);
  store (pv elm2) p;;
  p ← load (pv elm2);
  store p elm2;;
  Q_INVALIDATE (pv elm);;
  Q_INVALIDATE (nx elm).

(** ** Simple queues *)

Definition SIMPLEQ_FIRST (head : Z) : QM Z := load head.
Definition SIMPLEQ_NEXT (elm : Z) : QM Z := load (nx elm).
Definition SIMPLEQ_EMPTY (head : Z) : QM bool := f ← SIMPLEQ_FIRST head; mret (f =? NULL).

Definition SIMPLEQ_FOREACH (fuel : nat) (head : Z) (body : Z → QM unit) : QM (list Z) :=
  var ← SIMPLEQ_FIRST head; q_foreach fuel SIMPLEQ_NEXT body var.

Definition SIMPLEQ_FOREACH_SAFE (fuel : nat) (head : Z) (body : Z → QM unit) : QM (list Z) :=
  var ← SIMPLEQ_FIRST head; q_foreach_safe fuel SIMPLEQ_NEXT body var.

Definition SIMPLEQ_INIT (head : Z) : QM unit :=
  store head NULL;;
  store (lastp head) head.

Definition SIMPLEQ_INSERT_HEAD (head elm : Z) : QM unit :=
  f ← load head;
  store (nx elm) f;;
  (if f =? NULL then store (lastp head) (nx elm) else mret tt);;
  store head elm.

Definition SIMPLEQ_INSERT_TAIL (head elm : Z) : QM unit :=
  store (nx elm) NULL;;
  l ← load (lastp head);
  store l elm;;
  store (lastp head) (nx elm).

Definition SIMPLEQ_INSERT_AFTER (head listelm elm : Z) : QM unit :=
  n ← load (nx listelm);
  store (nx elm) n;;
  (if n =? NULL then store (lastp head) (nx elm) else mret tt);;
  store (nx listelm) elm.

Definition SIMPLEQ_REMOVE_HEAD (head : Z) : QM unit :=
  f ← load head;
  n ← load (nx f);
  store head n;;
  (if n =? NULL then store (lastp head) head else mret tt).

Definition SIMPLEQ_REMOVE_AFTER (head elm : Z) : QM unit :=
  n ← load (nx elm);
  nn ← load (nx n);
  store (nx elm) nn;;
  (if nn =? NULL then store (lastp head) (nx elm) else mret tt).

Definition SIMPLEQ_CONCAT (head1 head2 : Z) : QM unit :=
  empty ← SIMPLEQ_EMPTY head2;
  if negb empty then
    f2 ← load head2;
    l1 ← load (lastp head1);
    store l1 f2;;
    l2 ← load (lastp head2);
    store (lastp head1) l2;;
    SIMPLEQ_INIT head2
  else mret tt.

(** ** XOR simple queues *)

Definition XSIMPLEQ_XOR (head p : Z) : QM Z :=
  c ← load (cookiep head); mret (Z.lxor c (p mod 2 ^ ulong_bits)).

Definition XSIMPLEQ_FIRST (head : Z) : QM Z := f ← load head; XSIMPLEQ_XOR head f.
Definition XSIMPLEQ_NEXT (head elm : Z) : QM Z := n ← load (nx elm); XSIMPLEQ_XOR head n.
Definition XSIMPLEQ_EMPTY (head : Z) : QM bool := f ← XSIMPLEQ_FIRST head; mret (f =? NULL).

Definition XSIMPLEQ_FOREACH (fuel : nat) (head : Z) (body : Z → QM unit) : QM (list Z) :=
  var ← XSIMPLEQ_FIRST head; q_foreach fuel (XSIMPLEQ_NEXT head) body var.

Definition XSIMPLEQ_FOREACH_SAFE (fuel : nat) (head : Z) (body : Z → QM unit) : QM (list Z) :=
  var ← XSIMPLEQ_FIRST head; q_foreach_safe fuel (XSIMPLEQ_NEXT head) body var.

(** [random] is what [arc4random_buf] puts into the cookie. *)
Definition XSIMPLEQ_INIT (random head : Z) : QM unit :=
  store (cookiep head) random;;
  f ← XSIMPLEQ_XOR head NULL;
  store head f;;
  l ← XSIMPLEQ_XOR head head;
  store (lastp head) l.

Definition XSIMPLEQ_INSERT_HEAD (head elm : Z) : QM unit :=
  f ← load head;
  store (nx elm) f;;
  null ← XSIMPLEQ_XOR head NULL;
  (if f =? null then
     l ← XSIMPLEQ_XOR head (nx elm); store (lastp head) l
   else mret tt);;
  x ← XSIMPLEQ_XOR head elm;
  store head x.

Definition XSIMPLEQ_INSERT_TAIL (head elm : Z) : QM unit :=
  null ← XSIMPLEQ_XOR head NULL;
  store (nx elm) null;;
  l ← load (lastp head);
  l ← XSIMPLEQ_XOR head l;
  x ← XSIMPLEQ_XOR head elm;
  store l x;;
  l ← XSIMPLEQ_XOR head (nx elm);
  store (lastp head) l.

Definition XSIMPLEQ_INSERT_AFTER (head listelm elm : Z) : QM unit :=
  n ← load (nx listelm);
  store (nx elm) n;;
  null ← XSIMPLEQ_XOR head NULL;
  (if n =? null then
     l ← XSIMPLEQ_XOR head (nx elm); store (lastp head) l
   else mret tt);;
  x ← XSIMPLEQ_XOR head elm;
  store (nx listelm) x.

Definition XSIMPLEQ_REMOVE_HEAD (head : Z) : QM unit :=
  f ← load head;
  f ← XSIMPLEQ_XOR head f;
  n ← load (nx f);
  store head n;;
  null ← XSIMPLEQ_XOR head NULL;
  if n =? null then
    l ← XSIMPLEQ_XOR head head; store (lastp head) l
  else mret tt.

Definition XSIMPLEQ_REMOVE_AFTER (head elm : Z) : QM unit :=
  n ← load (nx elm);
  n ← XSIMPLEQ_XOR head n;
  nn ← load (nx n);
  store (nx elm) nn;;
  null ← XSIMPLEQ_XOR head NULL;
  if nn =? null then
    l ← XSIMPLEQ_XOR head (nx elm); store (lastp head) l
  else mret tt.

(** ** Tail queues *)

Definition TAILQ_FIRST (head : Z) : QM Z := load head.
Definition TAILQ_NEXT (elm : Z) : QM Z := load (nx elm).

(** The address in the last pointer is read as that of a head. *)
Definition TAILQ_LAST (head : Z) : QM Z :=
  p ← load (lastp head); q ← load (lastp p); load q.

Definition TAILQ_PREV (elm : Z) : QM Z :=
  p ← load (pv elm); q ← load (lastp p); load q.

Definition TAILQ_EMPTY (head : Z) : QM bool := f ← TAILQ_FIRST head; mret (f =? NULL).

Definition TAILQ_FOREACH (fuel : nat) (head : Z) (body : Z → QM unit) : QM (list Z) :=
  var ← TAILQ_FIRST head; q_foreach fuel TAILQ_NEXT body var.

Definition TAILQ_FOREACH_SAFE (fuel : nat) (head : Z) (body : Z → QM unit) : QM (list Z) :=
  var ← TAILQ_FIRST head; q_foreach_safe fuel TAILQ_NEXT body var.

Definition TAILQ_FOREACH_REVERSE (fuel : nat) (head : Z) (body : Z → QM unit) : QM (list Z) :=
  var ← TAILQ_LAST head; q_foreach fuel TAILQ_PREV body var.

Definition TAILQ_FOREACH_REVERSE_SAFE (fuel : nat) (head : Z) (body : Z → QM unit) :
    QM (list Z) :=
  var ← TAILQ_LAST head; q_foreach_safe fuel TAILQ_PREV body var.

Definition TAILQ_INIT (head : Z) : QM unit :=
  store head NULL;;
  store (lastp head) head.

Definition TAILQ_INSERT_HEAD (head elm : Z) : QM unit :=
  f ← load head;
  store (nx elm) f;;
  (if negb (f =? NULL) then
     f ← load head;
     store (pv f) (nx elm)
   else store (lastp head) (nx elm));;
  store head elm;;
  store (pv elm) head.

Definition TAILQ_INSERT_TAIL (head elm : Z) : QM unit :=
  store (nx elm) NULL;;
  l ← load (lastp head);
  store (pv elm) l;;
  l ← load (lastp head);
  store l elm;;
  store (lastp head) (nx elm).

Definition TAILQ_INSERT_AFTER (head listelm elm : Z) : QM unit :=
  n ← load (nx listelm);
  store (nx elm) n;;
  (if negb (n =? NULL) then
     n ← load (nx elm);
     store (pv n) (nx elm)
   else store (lastp head) (nx elm));;
  store (nx listelm) elm;;
  store (pv elm) (nx listelm).

Definition TAILQ_INSERT_BEFORE (listelm elm : Z) : QM unit :=
  p ← load (pv listelm);
  store (pv elm) p;;
  store (nx elm) listelm;;
  p ← load (pv listelm);
  store p elm;;
  store (pv listelm) (nx elm).

Definition TAILQ_REMOVE (head elm : Z) : QM unit :=
  n ← load (nx elm);
  (if negb (n =? NULL) then
     n ← load (nx elm);
     p ← load (pv elm);
     store (pv n) p
   else
     p ← load (pv elm);
     store (lastp head) p);;
  p ← load (pv elm);
  n ← load (nx elm);
  store p n;;
  Q_INVALIDATE (pv elm);;
  Q_INVALIDATE (nx elm).

Definition TAILQ_REPLACE (head elm elm2 : Z) : QM unit :=
  n ← load (nx elm);
  store (nx elm2) n;;
  (if negb (n =? NULL) then
     n ← load (nx elm2);
     store (pv n) (nx elm2)
   else store (lastp head) (nx elm2));;
  p ← load (pv elm);
  store (pv elm2) p;;
  p ← load (pv elm2);
  store p elm2;;
  Q_INVALIDATE (pv elm);;
  Q_INVALIDATE (nx elm).

Definition TAILQ_CONCAT (head1 head2 : Z) : QM unit :=
  empty ← TAILQ_EMPTY head2;
  if negb empty then
    f2 ← load head2;
    l1 ← load (lastp head1);
    store l1 f2;;
    f2 ← load head2;
    l1 ← load (lastp head1);
    store (pv f2) l1;;
    l2 ← load (lastp head2);
    store (lastp head1) l2;;
    TAILQ_INIT head2
  else mret tt.
End queue.
