(* ===== verification/QueueSpec.v ===== *)
(** The contract of the lists and queues.

    [qspec] says what each operation does to the sequence of elements; an
    implementation ([QueueImpl]) supports some of the operations and refines
    the specification on them.  [history_run] is the refinement of whole
    histories, once for every implementation. *)
From Stdlib Require Import ZArith Lia.
From stdpp Require Import prelude gmap.
From S2P Require Import Prelude Queue.

Local Open Scope Z_scope.

(** ** Owned memory *)

(** The locations in [L] are pairwise distinct and hold the values [L] gives;
    the rest of the memory [m] is as in [R]. *)
Definition Own (R m : memory) (L : list (Z * Z)) : Prop :=
  NoDup (L.*1) ∧ (∀ a v, (a, v) ∈ L → m !! a = Some v) ∧
  (∀ a, a ∉ L.*1 → m !! a = R !! a).

Lemma Own_perm R m L L' : L ≡ₚ L' → Own R m L → Own R m L'.
Proof.
  intros HL (Hnd & Hv & HR). unfold Own.
  split_and!; [by rewrite <-HL| |]; setoid_rewrite <-HL; done.
Qed.

#[export] Instance Own_proper R m : Proper ((≡ₚ) ==> iff) (Own R m).
Proof. intros L L' HL. split; apply Own_perm; [done|by symmetry]. Qed.

Lemma own_load R m a v L : Own R m ((a, v) :: L) → load a m = Some (v, m).
Proof. intros (_ & Hv & _). unfold load. rewrite (Hv a v) by set_solver. done. Qed.

Lemma own_store R m a v w L :
  Own R m ((a, v) :: L) → ∃ m', store a w m = Some (tt, m') ∧ Own R m' ((a, w) :: L).
Proof.
  intros (Hnd & Hv & HR). exists (<[a := w]> m). split.
  { unfold store. rewrite (Hv a v) by set_solver. done. }
  simpl in Hnd. apply NoDup_cons in Hnd as [Ha Hnd].
  split_and!; [by constructor| |].
  - intros b u [[= -> ->]|Hb]%elem_of_cons; [apply lookup_insert_eq|].
    rewrite lookup_insert_ne; [apply Hv; set_solver|].
    intros ->. apply Ha. by apply (list_elem_of_fmap_2 fst) in Hb.
  - intros b Hb. simpl in Hb. rewrite lookup_insert_ne by set_solver. apply HR. done.
Qed.

Lemma own_invalidate R m debug a v L :
  Own R m ((a, v) :: L) →
  ∃ m', Q_INVALIDATE debug a m = Some (tt, m') ∧
        Own R m' ((a, if debug then -1 else v) :: L).
Proof. destruct debug; simpl; [apply own_store|]. intros H. by exists m. Qed.

Lemma own_NoDup R m L : Own R m L → NoDup (L.*1).
Proof. by intros (? & _). Qed.

(** ** Operations on a sequence *)

Inductive q_op :=
  | InsertHead (e : Z)
  | InsertTail (e : Z)
  | InsertAfter (x e : Z)
  | InsertBefore (x e : Z)
  | RemoveHead
  | RemoveAfter (x : Z)
  | Remove (x : Z)
  | Replace (x e : Z)
  | First
  | Last
  | Next (x : Z)
  | Prev (x : Z)
  | Empty.

(** The elements at hand are [U]; an element is inserted only when it is not in
    the queue, and named as a neighbour only when it is.  The third argument is
    the result, 0 for NULL and for the operations without one. *)
Inductive qspec (U : list Z) : list Z → q_op → Z → list Z → Prop :=
  | spec_insert_head xs e :
      e ∈ U → e ∉ xs → qspec U xs (InsertHead e) 0 (e :: xs)
  | spec_insert_tail xs e :
      e ∈ U → e ∉ xs → qspec U xs (InsertTail e) 0 (xs ++ [e])
  | spec_insert_after l x k e :
      e ∈ U → e ∉ l ++ x :: k → qspec U (l ++ x :: k) (InsertAfter x e) 0 (l ++ x :: e :: k)
  | spec_insert_before l x k e :
      e ∈ U → e ∉ l ++ x :: k → qspec U (l ++ x :: k) (InsertBefore x e) 0 (l ++ e :: x :: k)
  | spec_remove_head x xs : qspec U (x :: xs) RemoveHead 0 xs
  | spec_remove_after l x y k : qspec U (l ++ x :: y :: k) (RemoveAfter x) 0 (l ++ x :: k)
  | spec_remove l x k : qspec U (l ++ x :: k) (Remove x) 0 (l ++ k)
  | spec_replace l x k e :
      e ∈ U → e ∉ l ++ x :: k → qspec U (l ++ x :: k) (Replace x e) 0 (l ++ e :: k)
  | spec_first xs : qspec U xs First (List.hd 0 xs) xs
  | spec_last xs : qspec U xs Last (List.last xs 0) xs
  | spec_next l x k : qspec U (l ++ x :: k) (Next x) (List.hd 0 k) (l ++ x :: k)
  | spec_prev l x k : qspec U (l ++ x :: k) (Prev x) (List.last l 0) (l ++ x :: k)
  | spec_empty xs : qspec U xs Empty (if decide (xs = []) then 1 else 0) xs.

Inductive qspecs (U : list Z) : list Z → list q_op → list Z → list Z → Prop :=
  | specs_nil xs : qspecs U xs [] [] xs
  | specs_cons xs op r xs1 ops rs xs2 :
      qspec U xs op r xs1 → qspecs U xs1 ops rs xs2 → qspecs U xs (op :: ops) (r :: rs) xs2.

(** ** Implementations *)

Section held.
(** The contents of a queue, and the locations of a single element. *)
Context (contents : list Z → list (Z * Z)) (cells : Z → list Z).

(** [m] holds the queue [xs] and, besides, the elements of [U] that are not in
    it; nothing else of [R] has changed. *)
Definition Held (R : memory) (U xs : list Z) (m : memory) : Prop :=
  ∃ ys P, Own R m (contents xs ++ P) ∧ P.*1 ≡ₚ concat (cells <$> ys) ∧ U ≡ₚ xs ++ ys.

Lemma pool_take (as_ : list Z) (P : list (Z * Z)) L :
  P.*1 ≡ₚ as_ ++ L → ∃ Q P' : list (Z * Z), P ≡ₚ Q ++ P' ∧ Q.*1 = as_ ∧ P'.*1 ≡ₚ L.
Proof.
  revert P; induction as_ as [|a as_ IH]; intros P HP; [by exists [], P|].
  assert (a ∈ P.*1) as Ha by (rewrite HP; set_solver).
  apply list_elem_of_fmap in Ha as ([b v] & Hab & Hin). simpl in Hab. subst b.
  apply elem_of_Permutation in Hin as [P1 HP1].
  rewrite HP1 in HP. simpl in HP. apply Permutation_cons_inv in HP.
  destruct (IH P1 HP) as (Q & P' & HQ & HQ1 & HP').
  exists ((a, v) :: Q), P'. split_and!; [by rewrite HP1, HQ|by rewrite <-HQ1|done].
Qed.

(** Take a free element out of the pool. *)
Lemma held_take R U xs m e :
  Held R U xs m → e ∈ U → e ∉ xs →
  ∃ ys Q P, Own R m (contents xs ++ Q ++ P) ∧ Q.*1 = cells e ∧
    P.*1 ≡ₚ concat (cells <$> ys) ∧ U ≡ₚ xs ++ e :: ys.
Proof.
  intros (ys & P & HO & HP & HU) He Hxs.
  assert (e ∈ ys) as Hys by (rewrite HU in He; set_solver).
  apply elem_of_Permutation in Hys as [ys' Hys]. rewrite Hys in HP, HU. simpl in HP.
  destruct (pool_take _ _ _ HP) as (Q & P' & HQ & HQe & HP').
  exists ys', Q, P'. split_and!; [by rewrite <-HQ|done..].
Qed.

(** And put it back. *)
Lemma held_put R U xs m e ys Q P :
  Own R m (contents xs ++ Q ++ P) → Q.*1 ≡ₚ cells e → P.*1 ≡ₚ concat (cells <$> ys) →
  U ≡ₚ xs ++ e :: ys → Held R U xs m.
Proof.
  intros HO HQ HP HU. exists (e :: ys), (Q ++ P). split_and!; [done| |done].
  by rewrite fmap_app, HQ, HP.
Qed.

(** The shapes a supported operation comes in. *)
Lemma insert_step R U xs xs' m e (run : QM unit) :
  (∀ Q P, Q.*1 = cells e → Own R m (contents xs ++ Q ++ P) →
     ∃ m', run m = Some (tt, m') ∧ Own R m' (contents xs' ++ P)) →
  xs' ≡ₚ e :: xs → Held R U xs m → e ∈ U → e ∉ xs →
  ∃ m', (run;; mret 0) m = Some (0, m') ∧ Held R U xs' m'.
Proof.
  intros Hrun Hxs HH He Hn. destruct (held_take R U xs m e HH He Hn) as (ys & Q & P & HO & HQ & HP & HU).
  destruct (Hrun Q P HQ HO) as (m' & E & HO'). exists m'.
  split; [by rewrite (bind_run _ _ _ _ _ E)|]. exists ys, P. split_and!; [done..|].
  rewrite HU, Hxs. by rewrite <-Permutation_middle.
Qed.

Lemma remove_step R U xs xs' m x (run : QM unit) :
  (∀ P, Own R m (contents xs ++ P) →
     ∃ m' Q, run m = Some (tt, m') ∧ Own R m' (contents xs' ++ Q ++ P) ∧ Q.*1 = cells x) →
  xs ≡ₚ x :: xs' → Held R U xs m →
  ∃ m', (run;; mret 0) m = Some (0, m') ∧ Held R U xs' m'.
Proof.
  intros Hrun Hxs (ys & P & HO & HP & HU).
  destruct (Hrun P HO) as (m' & Q & E & HO' & HQ). exists m'.
  split; [by rewrite (bind_run _ _ _ _ _ E)|]. eapply held_put; [exact HO'|by rewrite HQ|done|].
  rewrite HU, Hxs. by rewrite <-Permutation_middle.
Qed.

Lemma replace_step R U xs xs' m x e (run : QM unit) :
  (∀ Q P, Q.*1 = cells e → Own R m (contents xs ++ Q ++ P) →
     ∃ m' Q', run m = Some (tt, m') ∧ Own R m' (contents xs' ++ Q' ++ P) ∧ Q'.*1 = cells x) →
  x :: xs' ≡ₚ e :: xs → Held R U xs m → e ∈ U → e ∉ xs →
  ∃ m', (run;; mret 0) m = Some (0, m') ∧ Held R U xs' m'.
Proof.
  intros Hrun Hxs HH He Hn. destruct (held_take R U xs m e HH He Hn) as (ys & Q & P & HO & HQ & HP & HU).
  destruct (Hrun Q P HQ HO) as (m' & Q' & E & HO' & HQ'). exists m'.
  split; [by rewrite (bind_run _ _ _ _ _ E)|]. eapply held_put; [exact HO'|by rewrite HQ'|done|].
  rewrite HU. rewrite <-!Permutation_middle. change (e :: xs ++ ys) with ((e :: xs) ++ ys).
  by rewrite <-Hxs.
Qed.

Lemma read_step R U xs m r (run : QM Z) :
  (∀ P, Own R m (contents xs ++ P) → run m = Some (r, m)) → Held R U xs m →
  ∃ m', run m = Some (r, m') ∧ Held R U xs m'.
Proof. intros Hrun HH. exists m. split; [|done]. destruct HH as (ys & P & HO & _). by eapply Hrun. Qed.

Lemma held_Forall (A : Z → Prop) R U xs m : Forall A U → Held R U xs m → Forall A xs.
Proof. intros HU (ys & P & _ & _ & Hp). rewrite Hp, Forall_app in HU. tauto. Qed.

Lemma held_NoDup R U xs m : NoDup U → Held R U xs m → NoDup xs.
Proof. intros HU (ys & P & _ & _ & Hp). rewrite Hp, NoDup_app in HU. tauto. Qed.
End held.

(** ** Fresh memory *)

(** The locations [l] are allocated and distinct. *)
Definition Blank (m : memory) (l : list Z) : Prop :=
  NoDup l ∧ ∀ a, a ∈ l → is_Some (m !! a).

Lemma blank_own m l : Blank m l → ∃ L : list (Z * Z), L.*1 = l ∧ Own m m L.
Proof.
  intros [Hnd Hl].
  assert (∃ L : list (Z * Z), L.*1 = l ∧ ∀ a v, (a, v) ∈ L → m !! a = Some v) as (L & HL & Hv).
  { clear Hnd. induction l as [|a l IH]; [exists []; split; [done|by intros ?? ?%elem_of_nil]|].
    destruct IH as (L & HL & Hv); [set_solver|].
    destruct (Hl a) as [v Ha]; [set_solver|]. exists ((a, v) :: L). split; [by rewrite <-HL|].
    intros b w [[= -> ->]|?]%elem_of_cons; auto. }
  exists L. split; [done|]. split_and!; [by rewrite HL|done|done].
Qed.

(** A memory that is given by its contents. *)
Lemma own_list (L : list (Z * Z)) :
  NoDup L.*1 → Own (list_to_map L) (list_to_map L) L.
Proof.
  intros Hnd. split_and!; [done| |done]. intros a v Hav. by apply elem_of_list_to_map_1.
Qed.

Lemma blank_list (l : list Z) (f : Z → Z) :
  NoDup l → Blank (list_to_map ((λ a, (a, f a)) <$> l)) l.
Proof.
  intros Hnd. split; [done|]. intros a Ha. exists (f a). apply elem_of_list_to_map_1.
  - rewrite <-list_fmap_compose. unfold compose; simpl. by rewrite list_fmap_id.
  - apply list_elem_of_fmap. by exists a.
Qed.

(** Initialising the head makes the empty queue, with every element in hand. *)
Lemma init_held contents cells (head U : list Z) m (init : QM unit) :
  (∀ Q P, Q.*1 = head → Own m m (Q ++ P) →
     ∃ m', init m = Some (tt, m') ∧ Own m m' (contents [] ++ P)) →
  Blank m (head ++ concat (cells <$> U)) →
  ∃ m', init m = Some (tt, m') ∧ Held contents cells m U [] m'.
Proof.
  intros Hinit Hb. destruct (blank_own _ _ Hb) as (L & HL & HO).
  destruct (pool_take contents cells head L (concat (cells <$> U))) as (Q & P & HQ & HQh & HP); [by rewrite HL|].
  rewrite HQ in HO. destruct (Hinit Q P HQh HO) as (m' & E & HO').
  exists m'. split; [done|]. by exists U, P.
Qed.

(** ** Loops over a queue *)

Lemma q_foreach_run fuel (next : Z → QM Z) m xs :
  (∀ l x k, xs = l ++ x :: k → next x m = Some (List.hd 0 k, m)) →
  Forall (λ y, y ≠ 0) xs → (length xs < fuel)%nat →
  q_foreach fuel next (λ _, mret tt) (List.hd 0 xs) m = Some (xs, m).
Proof.
  revert xs; induction fuel as [|fuel IH]; intros xs Hn Hz Hf; [lia|].
  destruct xs as [|x xs]; [done|]. apply Forall_cons in Hz as [Hx Hz].
  cbn [q_foreach List.hd]. rewrite (proj2 (Z.eqb_neq x NULL) Hx).
  erewrite bind_run by done. rewrite (bind_run _ _ _ _ _ (Hn [] x xs eq_refl)).
  rewrite (bind_run _ _ _ _ _ (IH xs ltac:(intros l y k ->; by apply (Hn (x :: l)))
    Hz ltac:(simpl in Hf; lia))). done.
Qed.

(** The loop that removes the elements chosen by [p], over any invariant [I]
    of the queue and the memory. *)
Lemma q_foreach_safe_run (I : list Z → memory → Prop) (p : Z → bool) fuel
    (next : Z → QM Z) (remove : Z → QM unit) m l k :
  (∀ l x k m, I (l ++ x :: k) m → next x m = Some (List.hd 0 k, m) ∧ x ≠ 0) →
  (∀ l x k m, I (l ++ x :: k) m → ∃ m', remove x m = Some (tt, m') ∧ I (l ++ k) m') →
  I (l ++ k) m → (length k < fuel)%nat →
  ∃ m', q_foreach_safe fuel next (λ x, if p x then remove x else mret tt) (List.hd 0 k) m =
          Some (k, m') ∧
        I (l ++ filter (λ x, p x = false) k) m'.
Proof.
  intros Hn Hr. revert m l k; induction fuel as [|fuel IH]; intros m l k HI Hf; [lia|].
  destruct k as [|x k]; [by exists m|]. destruct (Hn l x k m HI) as [E Hx].
  cbn [q_foreach_safe List.hd]. rewrite (proj2 (Z.eqb_neq x NULL) Hx).
  rewrite (bind_run _ _ _ _ _ E). simpl in Hf. destruct (p x) eqn:Ep.
  - destruct (Hr l x k m HI) as (m1 & E1 & HI1).
    destruct (IH m1 l k HI1) as (m2 & E2 & HI2); [lia|]. exists m2.
    rewrite (bind_run _ _ _ _ _ E1), (bind_run _ _ _ _ _ E2).
    split; [done|]. by rewrite filter_cons_False by by rewrite Ep.
  - destruct (IH m (l ++ [x]) k) as (m2 & E2 & HI2); [by rewrite <-app_assoc|lia|]. exists m2.
    erewrite bind_run by done. rewrite (bind_run _ _ _ _ _ E2).
    split; [done|]. rewrite filter_cons_True by done. by rewrite <-app_assoc in HI2.
Qed.

(** An implementation runs the operations it supports as the specification
    says. *)
Class QueueImpl (contents : list Z → list (Z * Z)) (cells : Z → list Z)
    (run : q_op → QM Z) (supports : q_op → bool) (U : list Z) : Prop :=
  impl_step R xs m op r xs' :
    Held contents cells R U xs m → supports op = true → qspec U xs op r xs' →
    ∃ m', run op m = Some (r, m') ∧ Held contents cells R U xs' m'.

Fixpoint q_runs (run : q_op → QM Z) (ops : list q_op) : QM (list Z) :=
  match ops with
  | [] => mret []
  | op :: ops => r ← run op; rs ← q_runs run ops; mret (r :: rs)
  end.

Lemma history_run `{!QueueImpl contents cells run supports U} R xs m ops rs xs' :
  Held contents cells R U xs m → forallb supports ops = true → qspecs U xs ops rs xs' →
  ∃ m', q_runs run ops m = Some (rs, m') ∧ Held contents cells R U xs' m'.
Proof.
  intros HH Hsup Hs. revert m HH Hsup.
  induction Hs as [xs|xs op r xs1 ops rs xs2 H1 Hs IH]; intros m HH Hsup.
  { by exists m. }
  cbn [forallb] in Hsup. apply andb_prop in Hsup as [Hop Hops].
  destruct (impl_step R xs m op r xs1 HH Hop H1) as (m1 & E1 & HH1).
  destruct (IH m1 HH1 Hops) as (m2 & E2 & HH2). exists m2. split; [|done].
  cbn [q_runs]. by rewrite (bind_run _ _ _ _ _ E1), (bind_run _ _ _ _ _ E2).
Qed.
