(* ===== verification/QueueProof.v ===== *)
(** The contents of memory that make a list or queue, and the runs of the
    macros on them.

    The contents of a list or queue of [xs] are the concatenation of its next
    pointers, its previous pointers and its head.  Owned memory is used up to
    order: a macro is run by picking out the location it accesses. *)
From Stdlib Require Import ZArith Lia.
From stdpp Require Import prelude gmap.
From S2P Require Import Prelude Queue QueueSpec.

Local Open Scope Z_scope.

(** Pick the location [a] out of the contents [L]. *)
Ltac pull a L k :=
  lazymatch L with
  | nil => fail
  | cons ?p ?t =>
      lazymatch p with
      | (a, ?v) => k v t
      | _ => pull a t ltac:(fun v t' => k v (cons p t'))
      end
  | ?l1 ++ ?l2 =>
      first [ pull a l1 ltac:(fun v l1' => k v (l1' ++ l2))
            | pull a l2 ltac:(fun v l2' => k v (l1 ++ l2')) ]
  end.

Ltac focus a H :=
  lazymatch type of H with
  | Own ?R ?m ?L =>
      pull a L ltac:(fun v L' =>
        apply (Own_perm R m L ((a, v) :: L')) in H; [|solve [occs]])
  end.

(** One step of a macro. *)
Ltac qstep :=
  match goal with
  | |- context [((?p ≫= ?f) ≫= ?g) ?m] => rewrite (bind_assoc p f g m)
  | |- context [(mret ?x ≫= ?f) ?m] =>
      rewrite (bind_run (mret x) f m x m eq_refl)
  | H : Own _ ?m _ |- context [(load ?a ≫= ?f) ?m] =>
      focus a H; rewrite (bind_run _ f _ _ _ (own_load _ _ _ _ _ H))
  | H : Own _ ?m _ |- context [(store ?a ?w ≫= ?f) ?m] =>
      focus a H;
      let m' := fresh "m" in let E := fresh "E" in let H' := fresh "HO" in
      destruct (own_store _ _ _ _ w _ H) as (m' & E & H');
      rewrite (bind_run _ f _ _ _ E); clear E H; rename H' into H
  | H : Own _ ?m _ |- context [(Q_INVALIDATE ?b ?a ≫= ?f) ?m] =>
      focus a H;
      let m' := fresh "m" in let E := fresh "E" in let H' := fresh "HO" in
      destruct (own_invalidate _ _ b _ _ _ H) as (m' & E & H');
      rewrite (bind_run _ f _ _ _ E); clear E H; rename H' into H
  | H : ?y ≠ 0 |- context [?y =? NULL] => rewrite (proj2 (Z.eqb_neq y NULL) H)
  | |- context [0 =? NULL] => change (0 =? NULL) with true
  | |- context [store ?a ?w ?m = _] => rewrite (bind_ret (store a w) m)
  | |- context [load ?a ?m = _] => rewrite (bind_ret (load a) m)
  | |- context [Q_INVALIDATE ?b ?a ?m = _] => rewrite (bind_ret (Q_INVALIDATE b a) m)
  end; cbn [negb].

Ltac qrun := repeat qstep.

Section contents.
Context (off : Z).
Local Abbreviation nx := (nx off).
Local Abbreviation pv := (pv off).

(** The next pointers from the location [p] through the elements, each stored
    as [enc] says, and the location where the last one is. *)
Fixpoint chn (enc : Z → Z) (p : Z) (xs : list Z) : list (Z * Z) :=
  match xs with [] => [] | x :: xs => (p, enc x) :: chn enc (nx x) xs end.

Fixpoint tailp (p : Z) (xs : list Z) : Z :=
  match xs with [] => p | x :: xs => tailp (nx x) xs end.

(** The previous pointers: each holds the location of the next pointer that
    leads to the element. *)
Fixpoint bck (p : Z) (xs : list Z) : list (Z * Z) :=
  match xs with [] => [] | x :: xs => (pv x, p) :: bck (nx x) xs end.

Lemma chn_app enc p l k : chn enc p (l ++ k) = chn enc p l ++ chn enc (tailp p l) k.
Proof. revert p; induction l as [|x l IH]; intros p; simpl; [done|]. by rewrite IH. Qed.

Lemma tailp_app p l k : tailp p (l ++ k) = tailp (tailp p l) k.
Proof. revert p; induction l as [|x l IH]; intros p; simpl; [done|]. by rewrite IH. Qed.

Lemma bck_app p l k : bck p (l ++ k) = bck p l ++ bck (tailp p l) k.
Proof. revert p; induction l as [|x l IH]; intros p; simpl; [done|]. by rewrite IH. Qed.

(** ** The five kinds *)

Definition plain (v : Z) : Z := v.

Definition slist (h : Z) (xs : list Z) : list (Z * Z) :=
  chn plain h xs ++ [(tailp h xs, 0)].

Definition dlist (h : Z) (xs : list Z) : list (Z * Z) :=
  chn plain h xs ++ [(tailp h xs, 0)] ++ bck h xs.

Definition simpleq (h : Z) (xs : list Z) : list (Z * Z) :=
  chn plain h xs ++ [(tailp h xs, 0)] ++ [(lastp h, tailp h xs)].

Definition tailq (h : Z) (xs : list Z) : list (Z * Z) :=
  chn plain h xs ++ [(tailp h xs, 0)] ++ bck h xs ++ [(lastp h, tailp h xs)].
End contents.

(** Open the contents of a queue around the elements a macro works on. *)
Ltac qopen :=
  match goal with
  | H : Own _ _ _ |- _ =>
      unfold slist, dlist, simpleq, tailq in H |- *;
      repeat (rewrite ?chn_app, ?tailp_app, ?bck_app in H; cbn [chn tailp bck app] in H);
      repeat (rewrite ?chn_app, ?tailp_app, ?bck_app; cbn [chn tailp bck app]);
      unfold plain in H |- *
  end.

(** Elements are not NULL. *)
Ltac nz :=
  repeat match goal with
  | H : Forall _ (_ ++ _) |- _ => apply Forall_app in H as [? H]
  | H : Forall _ (_ :: _) |- _ => apply Forall_cons in H as [? H]
  end.

(** The value the location [a] holds now. *)
Ltac qgive a :=
  match goal with
  | H : Own _ _ ?L |- _ => pull a L ltac:(fun v _ => exists v)
  end.

(** Close them again. *)
Ltac qdone :=
  split; [reflexivity|]; unfold NULL in *;
  lazymatch goal with
  | H : Own ?R ?m ?L |- Own ?R ?m ?L' => apply (Own_perm R m L L'); [occs|exact H]
  end.
Ltac qclose := eexists; qdone.

(** ** Runs *)

Section runs.
Context (off : Z) (debug : bool) (R : memory).
Local Abbreviation nx := (nx off).
Local Abbreviation pv := (pv off).
Implicit Types (m : memory) (P : list (Z * Z)) (l k : list Z).
Local Abbreviation nonzero := (Forall (λ y, y ≠ 0)).

(** The last of [d :: l]. *)
Lemma last_cons_default (x d : Z) l : List.last (x :: l) d = List.last l x.
Proof.
  revert x d; induction l as [|y l IH]; intros x d; [done|].
  change (List.last (x :: y :: l) d) with (List.last (y :: l) d). by rewrite !IH.
Qed.

Lemma last_split (d : Z) l : ∃ l', d :: l = l' ++ [List.last l d].
Proof.
  revert d; induction l as [|y l IH]; intros d; [by exists []|].
  rewrite last_cons_default. destruct (IH y) as [l' E]. exists (d :: l'). by rewrite E.
Qed.

(** *** Singly-linked lists *)

Lemma slist_insert_after_run m h l x k e v P :
  Own R m (slist off h (l ++ x :: k) ++ [(nx e, v)] ++ P) →
  ∃ m', SLIST_INSERT_AFTER off x e m = Some (tt, m') ∧
        Own R m' (slist off h (l ++ x :: e :: k) ++ P).
Proof.
  intros HO. unfold SLIST_INSERT_AFTER. destruct k as [|y k]; qopen; qrun; qclose.
Qed.

Lemma slist_insert_head_run m h k e v P :
  Own R m (slist off h k ++ [(nx e, v)] ++ P) →
  ∃ m', SLIST_INSERT_HEAD off h e m = Some (tt, m') ∧ Own R m' (slist off h (e :: k) ++ P).
Proof.
  intros HO. unfold SLIST_INSERT_HEAD. destruct k as [|y k]; qopen; qrun; qclose.
Qed.

Lemma slist_remove_after_run m h l x y k P :
  Own R m (slist off h (l ++ x :: y :: k) ++ P) →
  ∃ m' w, SLIST_REMOVE_AFTER off x m = Some (tt, m') ∧
          Own R m' (slist off h (l ++ x :: k) ++ [(nx y, w)] ++ P).
Proof.
  intros HO. unfold SLIST_REMOVE_AFTER.
  destruct k as [|z k]; qopen; qrun; eexists; qgive (nx y); qdone.
Qed.

Lemma slist_remove_head_run m h x k P :
  Own R m (slist off h (x :: k) ++ P) →
  ∃ m' w, SLIST_REMOVE_HEAD off h m = Some (tt, m') ∧
          Own R m' (slist off h k ++ [(nx x, w)] ++ P).
Proof.
  intros HO. unfold SLIST_REMOVE_HEAD.
  destruct k as [|z k]; qopen; qrun; eexists; qgive (nx x); qdone.
Qed.

(** The search for the predecessor of [x] stops at it. *)
Lemma slist_find_prev_run fuel m h l1 l2 y x k P :
  Own R m (slist off h (l1 ++ y :: l2 ++ x :: k) ++ P) →
  NoDup (l2 ++ [x]) → (length l2 < fuel)%nat →
  slist_find_prev off fuel x y m = Some (List.last l2 y, m).
Proof.
  revert l1 y l2; induction fuel as [|fuel IH]; intros l1 y l2 HO Hnd Hf; [lia|].
  cbn [slist_find_prev]. destruct l2 as [|z l2].
  - simpl app in HO. qopen. qrun. by rewrite Z.eqb_refl.
  - assert (z ≠ x) as Hzx by (intros ->; occ_norm; occ_at x; lia).
    pose proof HO as HO'. qopen. qrun. rewrite (proj2 (Z.eqb_neq z x) Hzx). qrun. clear HO'.
    rewrite last_cons_default.
    apply (IH (l1 ++ [y])); [|by apply NoDup_cons in Hnd as [_ ?]|simpl in Hf; lia].
    rewrite <-app_assoc. exact HO.
Qed.

Lemma slist_remove_run fuel m h l x k P :
  Own R m (slist off h (l ++ x :: k) ++ P) → NoDup (l ++ [x]) → (length l < fuel)%nat →
  ∃ m' w, SLIST_REMOVE off debug fuel h x m = Some (tt, m') ∧
          Own R m' (slist off h (l ++ k) ++ [(nx x, w)] ++ P).
Proof.
  intros HO Hnd Hf. unfold SLIST_REMOVE. destruct l as [|y l].
  - destruct (slist_remove_head_run m h x k P HO) as (m1 & w & E & HO1).
    simpl app in HO. unfold slist in HO. cbn [chn app] in HO. unfold plain in HO. qrun.
    rewrite Z.eqb_refl, (bind_run _ _ _ _ _ E). clear HO E.
    qrun. cbn [app]. eexists; qgive (nx x). qdone.
  - pose proof (slist_find_prev_run fuel m h [] l y x k P HO) as E.
    assert (y ≠ x) as Hyx by (intros ->; occ_norm; occ_at x; lia).
    pose proof HO as HO'. simpl app in HO'. unfold slist in HO'. cbn [chn app] in HO'. unfold plain in HO'.
    qrun. rewrite (proj2 (Z.eqb_neq y x) Hyx). qrun. clear HO'.
    destruct (last_split y l) as [l' El]. set (p := List.last l y) in *.
    erewrite bind_run; [|apply E; [by apply NoDup_cons in Hnd as [_ ?]|simpl in Hf; lia]].
    clear E. change (y :: l ++ x :: k) with ((y :: l) ++ x :: k) in HO.
    change (y :: l ++ k) with ((y :: l) ++ k). rewrite El in *. rewrite <-!app_assoc in *.
    cbn [app] in HO |- *. clear Hyx.
    destruct k as [|z k]; qopen; qrun; eexists; qgive (nx x); qdone.
Qed.

(** *** Lists *)

Lemma list_insert_after_run m h l x k e v1 v2 P :
  Own R m (dlist off h (l ++ x :: k) ++ [(nx e, v1); (pv e, v2)] ++ P) →
  nonzero (l ++ x :: k) →
  ∃ m', LIST_INSERT_AFTER off x e m = Some (tt, m') ∧
        Own R m' (dlist off h (l ++ x :: e :: k) ++ P).
Proof.
  intros HO Hz. unfold LIST_INSERT_AFTER. destruct k as [|y k]; nz; qopen; qrun; qclose.
Qed.

Lemma list_insert_before_run m h l x k e v1 v2 P :
  Own R m (dlist off h (l ++ x :: k) ++ [(nx e, v1); (pv e, v2)] ++ P) →
  ∃ m', LIST_INSERT_BEFORE off x e m = Some (tt, m') ∧
        Own R m' (dlist off h (l ++ e :: x :: k) ++ P).
Proof. intros HO. unfold LIST_INSERT_BEFORE. qopen; qrun; qclose. Qed.

Lemma list_insert_head_run m h k e v1 v2 P :
  Own R m (dlist off h k ++ [(nx e, v1); (pv e, v2)] ++ P) → nonzero k →
  ∃ m', LIST_INSERT_HEAD off h e m = Some (tt, m') ∧ Own R m' (dlist off h (e :: k) ++ P).
Proof.
  intros HO Hz. unfold LIST_INSERT_HEAD. destruct k as [|y k]; nz; qopen; qrun; qclose.
Qed.

Lemma list_remove_run m h l x k P :
  Own R m (dlist off h (l ++ x :: k) ++ P) → nonzero (l ++ x :: k) →
  ∃ m' w1 w2, LIST_REMOVE off debug x m = Some (tt, m') ∧
    Own R m' (dlist off h (l ++ k) ++ [(nx x, w1); (pv x, w2)] ++ P).
Proof.
  intros HO Hz. unfold LIST_REMOVE.
  destruct k as [|y k]; nz; qopen; qrun; eexists; qgive (nx x); qgive (pv x); qdone.
Qed.

Lemma list_replace_run m h l x k e v1 v2 P :
  Own R m (dlist off h (l ++ x :: k) ++ [(nx e, v1); (pv e, v2)] ++ P) →
  nonzero (l ++ x :: k) →
  ∃ m' w1 w2, LIST_REPLACE off debug x e m = Some (tt, m') ∧
    Own R m' (dlist off h (l ++ e :: k) ++ [(nx x, w1); (pv x, w2)] ++ P).
Proof.
  intros HO Hz. unfold LIST_REPLACE.
  destruct k as [|y k]; nz; qopen; qrun; eexists; qgive (nx x); qgive (pv x); qdone.
Qed.

(** *** Simple queues *)

Lemma simpleq_insert_head_run m h k e v P :
  Own R m (simpleq off h k ++ [(nx e, v)] ++ P) → nonzero k →
  ∃ m', SIMPLEQ_INSERT_HEAD off h e m = Some (tt, m') ∧ Own R m' (simpleq off h (e :: k) ++ P).
Proof.
  intros HO Hz. unfold SIMPLEQ_INSERT_HEAD. destruct k as [|y k]; nz; qopen; qrun; qclose.
Qed.

Lemma simpleq_insert_tail_run m h k e v P :
  Own R m (simpleq off h k ++ [(nx e, v)] ++ P) →
  ∃ m', SIMPLEQ_INSERT_TAIL off h e m = Some (tt, m') ∧ Own R m' (simpleq off h (k ++ [e]) ++ P).
Proof. intros HO. unfold SIMPLEQ_INSERT_TAIL. qopen; qrun; qclose. Qed.

Lemma simpleq_insert_after_run m h l x k e v P :
  Own R m (simpleq off h (l ++ x :: k) ++ [(nx e, v)] ++ P) → nonzero (l ++ x :: k) →
  ∃ m', SIMPLEQ_INSERT_AFTER off h x e m = Some (tt, m') ∧
        Own R m' (simpleq off h (l ++ x :: e :: k) ++ P).
Proof.
  intros HO Hz. unfold SIMPLEQ_INSERT_AFTER. destruct k as [|y k]; nz; qopen; qrun; qclose.
Qed.

Lemma simpleq_remove_head_run m h x k P :
  Own R m (simpleq off h (x :: k) ++ P) → nonzero k →
  ∃ m' w, SIMPLEQ_REMOVE_HEAD off h m = Some (tt, m') ∧
          Own R m' (simpleq off h k ++ [(nx x, w)] ++ P).
Proof.
  intros HO Hz. unfold SIMPLEQ_REMOVE_HEAD.
  destruct k as [|y k]; nz; qopen; qrun; eexists; qgive (nx x); qdone.
Qed.

Lemma simpleq_remove_after_run m h l x y k P :
  Own R m (simpleq off h (l ++ x :: y :: k) ++ P) → nonzero k →
  ∃ m' w, SIMPLEQ_REMOVE_AFTER off h x m = Some (tt, m') ∧
          Own R m' (simpleq off h (l ++ x :: k) ++ [(nx y, w)] ++ P).
Proof.
  intros HO Hz. unfold SIMPLEQ_REMOVE_AFTER.
  destruct k as [|z k]; nz; qopen; qrun; eexists; qgive (nx y); qdone.
Qed.

Lemma simpleq_concat_run m h1 xs h2 ys P :
  Own R m (simpleq off h1 xs ++ simpleq off h2 ys ++ P) → nonzero ys →
  ∃ m', SIMPLEQ_CONCAT h1 h2 m = Some (tt, m') ∧
        Own R m' (simpleq off h1 (xs ++ ys) ++ simpleq off h2 [] ++ P).
Proof.
  intros HO Hz. unfold SIMPLEQ_CONCAT, SIMPLEQ_EMPTY, SIMPLEQ_FIRST, SIMPLEQ_INIT.
  destruct ys as [|y ys]; nz; qopen; qrun; rewrite ?app_nil_r in *; qclose.
Qed.

(** *** Tail queues *)

Lemma tailq_insert_head_run m h k e v1 v2 P :
  Own R m (tailq off h k ++ [(nx e, v1); (pv e, v2)] ++ P) → nonzero k →
  ∃ m', TAILQ_INSERT_HEAD off h e m = Some (tt, m') ∧ Own R m' (tailq off h (e :: k) ++ P).
Proof.
  intros HO Hz. unfold TAILQ_INSERT_HEAD. destruct k as [|y k]; nz; qopen; qrun; qclose.
Qed.

Lemma tailq_insert_tail_run m h k e v1 v2 P :
  Own R m (tailq off h k ++ [(nx e, v1); (pv e, v2)] ++ P) →
  ∃ m', TAILQ_INSERT_TAIL off h e m = Some (tt, m') ∧ Own R m' (tailq off h (k ++ [e]) ++ P).
Proof. intros HO. unfold TAILQ_INSERT_TAIL. qopen; qrun; qclose. Qed.

Lemma tailq_insert_after_run m h l x k e v1 v2 P :
  Own R m (tailq off h (l ++ x :: k) ++ [(nx e, v1); (pv e, v2)] ++ P) →
  nonzero (l ++ x :: k) →
  ∃ m', TAILQ_INSERT_AFTER off h x e m = Some (tt, m') ∧
        Own R m' (tailq off h (l ++ x :: e :: k) ++ P).
Proof.
  intros HO Hz. unfold TAILQ_INSERT_AFTER. destruct k as [|y k]; nz; qopen; qrun; qclose.
Qed.

Lemma tailq_insert_before_run m h l x k e v1 v2 P :
  Own R m (tailq off h (l ++ x :: k) ++ [(nx e, v1); (pv e, v2)] ++ P) →
  ∃ m', TAILQ_INSERT_BEFORE off x e m = Some (tt, m') ∧
        Own R m' (tailq off h (l ++ e :: x :: k) ++ P).
Proof. intros HO. unfold TAILQ_INSERT_BEFORE. qopen; qrun; qclose. Qed.

Lemma tailq_remove_run m h l x k P :
  Own R m (tailq off h (l ++ x :: k) ++ P) → nonzero (l ++ x :: k) →
  ∃ m' w1 w2, TAILQ_REMOVE off debug h x m = Some (tt, m') ∧
    Own R m' (tailq off h (l ++ k) ++ [(nx x, w1); (pv x, w2)] ++ P).
Proof.
  intros HO Hz. unfold TAILQ_REMOVE.
  destruct k as [|y k]; nz; qopen; qrun; eexists; qgive (nx x); qgive (pv x); qdone.
Qed.

Lemma tailq_replace_run m h l x k e v1 v2 P :
  Own R m (tailq off h (l ++ x :: k) ++ [(nx e, v1); (pv e, v2)] ++ P) →
  nonzero (l ++ x :: k) →
  ∃ m' w1 w2, TAILQ_REPLACE off debug h x e m = Some (tt, m') ∧
    Own R m' (tailq off h (l ++ e :: k) ++ [(nx x, w1); (pv x, w2)] ++ P).
Proof.
  intros HO Hz. unfold TAILQ_REPLACE.
  destruct k as [|y k]; nz; qopen; qrun; eexists; qgive (nx x); qgive (pv x); qdone.
Qed.

Lemma tailq_concat_run m h1 xs h2 ys P :
  Own R m (tailq off h1 xs ++ tailq off h2 ys ++ P) → nonzero ys →
  ∃ m', TAILQ_CONCAT off h1 h2 m = Some (tt, m') ∧
        Own R m' (tailq off h1 (xs ++ ys) ++ tailq off h2 [] ++ P).
Proof.
  intros HO Hz. unfold TAILQ_CONCAT, TAILQ_EMPTY, TAILQ_FIRST, TAILQ_INIT.
  destruct ys as [|y ys]; nz; qopen; qrun; rewrite ?app_nil_r in *; qclose.
Qed.

(** [TAILQ_LAST] and [TAILQ_PREV]: the address in a last or previous pointer
    is that of the previous element's entry, or of the head. *)
Lemma tailq_last_run m h xs P :
  Own R m (tailq off h xs ++ P) → TAILQ_LAST h m = Some (List.last xs 0, m).
Proof.
  intros HO. unfold TAILQ_LAST. destruct (decide (xs = [])) as [->|Hne].
  - qopen. qrun. done.
  - destruct (exists_last Hne) as (l & x & ->). rewrite List.last_last.
    qopen. change (lastp (nx x)) with (pv x) in *. qrun.
    change (lastp (Queue.nx off x)) with (pv x). qrun. done.
Qed.

Lemma tailq_prev_run m h l x k P :
  Own R m (tailq off h (l ++ x :: k) ++ P) →
  TAILQ_PREV off x m = Some (List.last l 0, m).
Proof.
  intros HO. unfold TAILQ_PREV. destruct (decide (l = [])) as [->|Hne].
  - qopen. qrun. done.
  - destruct (exists_last Hne) as (l' & y & ->). rewrite List.last_last.
    rewrite <-app_assoc in HO. cbn [app] in HO. qopen. qrun.
    change (lastp (Queue.nx off y)) with (pv y). qrun. done.
Qed.
End runs.
