(* ===== verification/XSimpleqProof.v ===== *)
(** The XOR simple queues: every pointer is stored as [enc], the exclusive or
    with the cookie through an [unsigned long], which is its own inverse on the
    addresses that fit. *)
From Stdlib Require Import ZArith Lia.
From stdpp Require Import prelude gmap.
From S2P Require Import Prelude Queue QueueSpec QueueProof.

Local Open Scope Z_scope.

Section xor.
Context (B c : Z) (HB : 0 ≤ B) (Hc : 0 ≤ c < 2 ^ B).

Definition enc (v : Z) : Z := Z.lxor c (v mod 2 ^ B).

(** Addresses that survive the cast. *)
Definition fits_ulong (v : Z) : Prop := 0 ≤ v < 2 ^ B.

Lemma lxor_bound a b : fits_ulong a → fits_ulong b → fits_ulong (Z.lxor a b).
Proof.
  unfold fits_ulong. intros [Ha Ha'] [Hb Hb'].
  assert (0 ≤ Z.lxor a b) by (apply Z.lxor_nonneg; tauto). split; [done|].
  destruct (Z.eq_dec (Z.lxor a b) 0) as [->|Hne]; [lia|].
  apply Z.log2_lt_pow2; [lia|].
  assert (∀ v, 0 ≤ v → v < 2 ^ B → v = 0 ∨ Z.log2 v < B) as Hlog.
  { intros v ??. destruct (Z.eq_dec v 0); [by left|right]. apply Z.log2_lt_pow2; lia. }
  pose proof (Z.log2_lxor a b Ha Hb).
  destruct (Hlog a Ha Ha') as [->|], (Hlog b Hb Hb') as [->|]; try lia.
  - by rewrite Z.lxor_0_l in Hne.
  - rewrite Z.lxor_0_l in *. lia.
  - rewrite Z.lxor_0_r in *. lia.
Qed.

Lemma enc_fits v : fits_ulong (enc v).
Proof. apply lxor_bound; [done|]. apply Z.mod_pos_bound. lia. Qed.

Lemma enc_enc v : fits_ulong v → enc (enc v) = v.
Proof.
  intros Hv. unfold enc at 1. rewrite Z.mod_small by apply enc_fits.
  unfold enc. rewrite Z.mod_small by done.
  by rewrite <-Z.lxor_assoc, Z.lxor_nilpotent, Z.lxor_0_l.
Qed.

Lemma enc_inj v w : fits_ulong v → fits_ulong w → enc v = enc w → v = w.
Proof. intros Hv Hw E. by rewrite <-(enc_enc v), <-(enc_enc w), E. Qed.

Lemma fits_0 : fits_ulong 0.
Proof. unfold fits_ulong. lia. Qed.

Lemma enc_null y : fits_ulong y → y ≠ 0 → (enc y =? enc 0) = false.
Proof. intros Hy Hne. apply Z.eqb_neq. intros E. by apply Hne, enc_inj; [|apply fits_0|]. Qed.

Lemma xor_run R m h p L :
  Own R m ((cookiep h, c) :: L) → XSIMPLEQ_XOR B h p m = Some (enc p, m).
Proof.
  intros HO. unfold XSIMPLEQ_XOR. by rewrite (bind_run _ _ _ _ _ (own_load _ _ _ _ _ HO)).
Qed.

Context (off : Z) (R : memory).
Local Abbreviation nx := (nx off).

Definition xsimpleq (h : Z) (xs : list Z) : list (Z * Z) :=
  chn off enc h xs ++
  [(tailp off h xs, enc 0); (lastp h, enc (tailp off h xs)); (cookiep h, c)].

(** An element whose address and next pointer survive the cast. *)
Definition xfits (e : Z) : Prop := fits_ulong e ∧ fits_ulong (nx e).

(** What is known of the elements of the queue. *)
Definition xok (e : Z) : Prop := e ≠ 0 ∧ xfits e.

Lemma tailp_fits h xs : fits_ulong h → Forall xfits xs → fits_ulong (tailp off h xs).
Proof.
  intros Hh Hxs. revert h Hh. induction Hxs as [|x xs [_ Hx] _ IH]; intros h Hh; simpl; auto.
Qed.

(** As [qstep], with the decoding of pointers. *)
Ltac xstep :=
  match goal with
  | H : Own _ ?m _ |- context [(XSIMPLEQ_XOR B ?h ?p ≫= ?f) ?m] =>
      focus (cookiep h) H; rewrite (bind_run _ f _ _ _ (xor_run _ _ _ _ _ H))
  | H : Own _ ?m _ |- context [XSIMPLEQ_XOR B ?h ?p ?m = _] =>
      focus (cookiep h) H; rewrite (xor_run _ _ _ _ _ H)
  | |- context [enc (enc ?p)] =>
      rewrite (enc_enc p) by (first [assumption | apply tailp_fits; assumption | apply fits_0])
  | |- context [enc 0 =? enc NULL] =>
      change (enc 0 =? enc NULL) with (enc 0 =? enc 0); rewrite (Z.eqb_refl (enc 0))
  | |- context [enc ?y =? enc NULL] => change (enc y =? enc NULL) with (enc y =? enc 0); rewrite (enc_null y) by assumption
  | _ => qstep
  end.

Ltac xopen :=
  match goal with
  | H : Own _ _ _ |- _ =>
      unfold xsimpleq in H |- *;
      repeat (rewrite ?chn_app, ?tailp_app in H; cbn [chn tailp app] in H);
      repeat (rewrite ?chn_app, ?tailp_app; cbn [chn tailp app])
  end;
  repeat match goal with
  | H : Forall _ (_ ++ _) |- _ => apply Forall_app in H as [? H]
  | H : Forall _ (_ :: _) |- _ => apply Forall_cons in H as [? H]
  | H : xok _ |- _ => destruct H as [? [? ?]]
  end.

Ltac xrun := repeat xstep.

Implicit Types (m : memory) (P : list (Z * Z)) (l k : list Z).

Lemma xok_xfits xs : Forall xok xs → Forall xfits xs.
Proof. intros H. eapply Forall_impl; [exact H|]. by intros e [??]. Qed.

Lemma xsimpleq_insert_head_run m h k e v P :
  Own R m (xsimpleq h k ++ [(nx e, v)] ++ P) → Forall xok k → xok e → fits_ulong h →
  ∃ m', XSIMPLEQ_INSERT_HEAD off B h e m = Some (tt, m') ∧ Own R m' (xsimpleq h (e :: k) ++ P).
Proof.
  intros HO Hk [? [??]] Hh. unfold XSIMPLEQ_INSERT_HEAD.
  destruct k as [|y k]; xopen; xrun; qclose.
Qed.

Lemma xsimpleq_insert_tail_run m h k e v P :
  Own R m (xsimpleq h k ++ [(nx e, v)] ++ P) → Forall xok k → xok e → fits_ulong h →
  ∃ m', XSIMPLEQ_INSERT_TAIL off B h e m = Some (tt, m') ∧
        Own R m' (xsimpleq h (k ++ [e]) ++ P).
Proof.
  intros HO Hk [? [??]] Hh. apply xok_xfits in Hk. unfold XSIMPLEQ_INSERT_TAIL.
  xopen; xrun; qclose.
Qed.

Lemma xsimpleq_insert_after_run m h l x k e v P :
  Own R m (xsimpleq h (l ++ x :: k) ++ [(nx e, v)] ++ P) →
  Forall xok (l ++ x :: k) → xok e → fits_ulong h →
  ∃ m', XSIMPLEQ_INSERT_AFTER off B h x e m = Some (tt, m') ∧
        Own R m' (xsimpleq h (l ++ x :: e :: k) ++ P).
Proof.
  intros HO Hk [? [??]] Hh. unfold XSIMPLEQ_INSERT_AFTER.
  destruct k as [|y k]; xopen; xrun; qclose.
Qed.

Lemma xsimpleq_remove_head_run m h x k P :
  Own R m (xsimpleq h (x :: k) ++ P) → Forall xok (x :: k) → fits_ulong h →
  ∃ m' w, XSIMPLEQ_REMOVE_HEAD off B h m = Some (tt, m') ∧
          Own R m' (xsimpleq h k ++ [(nx x, w)] ++ P).
Proof.
  intros HO Hk Hh. unfold XSIMPLEQ_REMOVE_HEAD.
  destruct k as [|y k]; xopen; xrun;
    eexists; qgive (nx x); qdone.
Qed.

Lemma xsimpleq_remove_after_run m h l x y k P :
  Own R m (xsimpleq h (l ++ x :: y :: k) ++ P) → Forall xok (l ++ x :: y :: k) → fits_ulong h →
  ∃ m' w, XSIMPLEQ_REMOVE_AFTER off B h x m = Some (tt, m') ∧
          Own R m' (xsimpleq h (l ++ x :: k) ++ [(nx y, w)] ++ P).
Proof.
  intros HO Hk Hh. unfold XSIMPLEQ_REMOVE_AFTER.
  destruct k as [|z k]; xopen; xrun;
    eexists; qgive (nx y); qdone.
Qed.

Lemma xsimpleq_init_run m h v1 v2 v3 P :
  Own R m ([(h, v1); (lastp h, v2); (cookiep h, v3)] ++ P) →
  ∃ m', XSIMPLEQ_INIT B c h m = Some (tt, m') ∧ Own R m' (xsimpleq h [] ++ P).
Proof. intros HO. unfold XSIMPLEQ_INIT. xopen. xrun. qclose. Qed.

Lemma xsimpleq_first_run m h xs P :
  Own R m (xsimpleq h xs ++ P) → Forall xok xs →
  XSIMPLEQ_FIRST B h m = Some (List.hd 0 xs, m).
Proof.
  intros HO Hxs. unfold XSIMPLEQ_FIRST.
  destruct xs as [|x xs]; xopen; xrun; done.
Qed.

Lemma xsimpleq_next_run m h l x k P :
  Own R m (xsimpleq h (l ++ x :: k) ++ P) → Forall xok (l ++ x :: k) →
  XSIMPLEQ_NEXT off B h x m = Some (List.hd 0 k, m).
Proof.
  intros HO Hxs. unfold XSIMPLEQ_NEXT.
  destruct k as [|y k]; xopen; xrun; done.
Qed.
End xor.
