(* ===== verification/QueueProperties.v ===== *)
(** What the macros of [sys/queue.h] promise their callers: each kind of list
    or queue implements the operations it has on a sequence of elements, the
    loops visit every element, and the concatenations move whole queues. *)
From Stdlib Require Import ZArith Lia.
From stdpp Require Import prelude gmap.
From S2P Require Import Prelude Queue QueueSpec QueueProof XSimpleqProof.

Local Open Scope Z_scope.

Section kinds.
Context (off : Z) (debug : bool) (h : Z).
Local Abbreviation nx := (nx off).
Local Abbreviation pv := (pv off).

Definition single (e : Z) : list Z := [nx e].
Definition double (e : Z) : list Z := [nx e; pv e].

Definition flag (b : QM bool) : QM Z := b ← b; mret (if b : bool then 1 else 0).

Definition unsupported : QM Z := fail.

Definition slist_op (fuel : nat) (op : q_op) : QM Z :=
  match op with
  | InsertHead e => SLIST_INSERT_HEAD off h e;; mret 0
  | InsertAfter x e => SLIST_INSERT_AFTER off x e;; mret 0
  | RemoveHead => SLIST_REMOVE_HEAD off h;; mret 0
  | RemoveAfter x => SLIST_REMOVE_AFTER off x;; mret 0
  | Remove x => SLIST_REMOVE off debug fuel h x;; mret 0
  | First => SLIST_FIRST h
  | Next x => SLIST_NEXT off x
  | Empty => flag (SLIST_EMPTY h)
  | _ => unsupported
  end.

Definition slist_supports (op : q_op) : bool :=
  match op with
  | InsertHead _ | InsertAfter _ _ | RemoveHead | RemoveAfter _ | Remove _
  | First | Next _ | Empty => true
  | _ => false
  end.

Definition list_op (op : q_op) : QM Z :=
  match op with
  | InsertHead e => LIST_INSERT_HEAD off h e;; mret 0
  | InsertAfter x e => LIST_INSERT_AFTER off x e;; mret 0
  | InsertBefore x e => LIST_INSERT_BEFORE off x e;; mret 0
  | Remove x => LIST_REMOVE off debug x;; mret 0
  | Replace x e => LIST_REPLACE off debug x e;; mret 0
  | First => LIST_FIRST h
  | Next x => LIST_NEXT off x
  | Empty => flag (LIST_EMPTY h)
  | _ => unsupported
  end.

Definition list_supports (op : q_op) : bool :=
  match op with
  | InsertHead _ | InsertAfter _ _ | InsertBefore _ _ | Remove _ | Replace _ _
  | First | Next _ | Empty => true
  | _ => false
  end.

Definition simpleq_op (op : q_op) : QM Z :=
  match op with
  | InsertHead e => SIMPLEQ_INSERT_HEAD off h e;; mret 0
  | InsertTail e => SIMPLEQ_INSERT_TAIL off h e;; mret 0
  | InsertAfter x e => SIMPLEQ_INSERT_AFTER off h x e;; mret 0
  | RemoveHead => SIMPLEQ_REMOVE_HEAD off h;; mret 0
  | RemoveAfter x => SIMPLEQ_REMOVE_AFTER off h x;; mret 0
  | First => SIMPLEQ_FIRST h
  | Next x => SIMPLEQ_NEXT off x
  | Empty => flag (SIMPLEQ_EMPTY h)
  | _ => unsupported
  end.

Definition simpleq_supports (op : q_op) : bool :=
  match op with
  | InsertHead _ | InsertTail _ | InsertAfter _ _ | RemoveHead | RemoveAfter _
  | First | Next _ | Empty => true
  | _ => false
  end.

Definition xsimpleq_op (B : Z) (op : q_op) : QM Z :=
  match op with
  | InsertHead e => XSIMPLEQ_INSERT_HEAD off B h e;; mret 0
  | InsertTail e => XSIMPLEQ_INSERT_TAIL off B h e;; mret 0
  | InsertAfter x e => XSIMPLEQ_INSERT_AFTER off B h x e;; mret 0
  | RemoveHead => XSIMPLEQ_REMOVE_HEAD off B h;; mret 0
  | RemoveAfter x => XSIMPLEQ_REMOVE_AFTER off B h x;; mret 0
  | First => XSIMPLEQ_FIRST B h
  | Next x => XSIMPLEQ_NEXT off B h x
  | Empty => flag (XSIMPLEQ_EMPTY B h)
  | _ => unsupported
  end.

Definition tailq_op (op : q_op) : QM Z :=
  match op with
  | InsertHead e => TAILQ_INSERT_HEAD off h e;; mret 0
  | InsertTail e => TAILQ_INSERT_TAIL off h e;; mret 0
  | InsertAfter x e => TAILQ_INSERT_AFTER off h x e;; mret 0
  | InsertBefore x e => TAILQ_INSERT_BEFORE off x e;; mret 0
  | Remove x => TAILQ_REMOVE off debug h x;; mret 0
  | Replace x e => TAILQ_REPLACE off debug h x e;; mret 0
  | First => TAILQ_FIRST h
  | Last => TAILQ_LAST h
  | Next x => TAILQ_NEXT off x
  | Prev x => TAILQ_PREV off x
  | Empty => flag (TAILQ_EMPTY h)
  | _ => unsupported
  end.

Definition tailq_supports (op : q_op) : bool :=
  match op with
  | RemoveHead | RemoveAfter _ => false
  | _ => true
  end.

(** ** Each kind implements its operations *)

Context (U : list Z) (HU : Forall (λ y, y ≠ 0) U).

(** Split the pool entry of one element into its locations. *)
Ltac one Q HQ := unfold single in HQ; destruct Q as [|[? ?] [|]]; cbn in HQ; try discriminate HQ; injection HQ as ->.
Ltac two Q HQ := unfold double in HQ; destruct Q as [|[? ?] [|[? ?] [|]]]; cbn in HQ; try discriminate HQ; injection HQ as -> ->.

Ltac qperm := first [done | solve [occs] | solve_Permutation].

#[export] Instance tailq_impl : QueueImpl (tailq off h) double tailq_op tailq_supports U.
Proof.
  intros R xs m op r xs' HH Hsup Hspec.
  pose proof (held_Forall _ _ _ _ _ _ _ HU HH) as Hz.
  destruct Hspec; try done; cbn [tailq_op].
  - refine (insert_step _ _ _ _ _ _ _ e _ _ _ HH _ _); [|qperm|done|done]. intros Q P HQ HO. two Q HQ.
    by eapply tailq_insert_head_run.
  - refine (insert_step _ _ _ _ _ _ _ e _ _ _ HH _ _); [|qperm|done|done]. intros Q P HQ HO. two Q HQ.
    by eapply tailq_insert_tail_run.
  - refine (insert_step _ _ _ _ _ _ _ e _ _ _ HH _ _); [|qperm|done|done]. intros Q P HQ HO. two Q HQ.
    by eapply tailq_insert_after_run.
  - refine (insert_step _ _ _ _ _ _ _ e _ _ _ HH _ _); [|qperm|done|done]. intros Q P HQ HO. two Q HQ.
    by eapply tailq_insert_before_run.
  - refine (remove_step _ _ _ _ _ _ _ x _ _ _ HH); [|qperm]. intros P HO.
    destruct (tailq_remove_run off debug R m h l x k P HO Hz) as (m' & w1 & w2 & E & HO').
    by exists m', [(nx x, w1); (pv x, w2)].
  - refine (replace_step _ _ _ _ _ _ _ x e _ _ _ HH _ _); [|qperm|done|done].
    intros Q P HQ HO. two Q HQ.
    destruct (tailq_replace_run off debug R m h l x k e _ _ P HO Hz) as (m' & w1 & w2 & E & HO').
    by exists m', [(nx x, w1); (pv x, w2)].
  - refine (read_step _ _ _ _ _ _ _ _ _ HH); intros P HO. unfold TAILQ_FIRST.
    destruct xs as [|x xs]; qopen; qrun; done.
  - refine (read_step _ _ _ _ _ _ _ _ _ HH); intros P HO. by eapply tailq_last_run.
  - refine (read_step _ _ _ _ _ _ _ _ _ HH); intros P HO. unfold TAILQ_NEXT.
    destruct k as [|y k]; qopen; qrun; done.
  - refine (read_step _ _ _ _ _ _ _ _ _ HH); intros P HO. by eapply tailq_prev_run.
  - refine (read_step _ _ _ _ _ _ _ _ _ HH); intros P HO.
    unfold flag, TAILQ_EMPTY, TAILQ_FIRST. destruct xs as [|x xs]; nz; qopen; qrun; done.
Qed.

#[export] Instance slist_impl fuel :
  NoDup U → (length U < fuel)%nat →
  QueueImpl (slist off h) single (slist_op fuel) slist_supports U.
Proof.
  intros HUnd Hf R xs m op r xs' HH Hsup Hspec.
  pose proof (held_Forall _ _ _ _ _ _ _ HU HH) as Hz.
  pose proof (held_NoDup _ _ _ _ _ _ HUnd HH) as Hnd.
  destruct Hspec; try done; cbn [slist_op].
  - refine (insert_step _ _ _ _ _ _ _ e _ _ _ HH _ _); [|qperm|done|done]. intros Q P HQ HO. one Q HQ.
    by eapply slist_insert_head_run.
  - refine (insert_step _ _ _ _ _ _ _ e _ _ _ HH _ _); [|qperm|done|done]. intros Q P HQ HO. one Q HQ.
    by eapply slist_insert_after_run.
  - refine (remove_step _ _ _ _ _ _ _ x _ _ _ HH); [|qperm]. intros P HO.
    destruct (slist_remove_head_run off R m h x xs P HO) as (m' & w & E & HO').
    by exists m', [(nx x, w)].
  - refine (remove_step _ _ _ _ _ _ _ y _ _ _ HH); [|qperm]. intros P HO.
    destruct (slist_remove_after_run off R m h l x y k P HO) as (m' & w & E & HO').
    by exists m', [(nx y, w)].
  - refine (remove_step _ _ _ _ _ _ _ x _ _ _ HH); [|qperm]. intros P HO.
    assert (length l < fuel)%nat as Hl.
    { destruct HH as (ys & ? & _ & _ & HUp). apply Permutation_length in HUp.
      rewrite !length_app in HUp. simpl in HUp. lia. }
    destruct (slist_remove_run off debug R fuel m h l x k P HO) as (m' & w & E & HO'); [occs|done|].
    by exists m', [(nx x, w)].
  - refine (read_step _ _ _ _ _ _ _ _ _ HH); intros P HO. unfold SLIST_FIRST.
    destruct xs as [|x xs]; qopen; qrun; done.
  - refine (read_step _ _ _ _ _ _ _ _ _ HH); intros P HO. unfold SLIST_NEXT.
    destruct k as [|y k]; qopen; qrun; done.
  - refine (read_step _ _ _ _ _ _ _ _ _ HH); intros P HO.
    unfold flag, SLIST_EMPTY, SLIST_FIRST. destruct xs as [|x xs]; nz; qopen; qrun; done.
Qed.

#[export] Instance list_impl : QueueImpl (dlist off h) double list_op list_supports U.
Proof.
  intros R xs m op r xs' HH Hsup Hspec.
  pose proof (held_Forall _ _ _ _ _ _ _ HU HH) as Hz.
  destruct Hspec; try done; cbn [list_op].
  - refine (insert_step _ _ _ _ _ _ _ e _ _ _ HH _ _); [|qperm|done|done]. intros Q P HQ HO. two Q HQ.
    by eapply list_insert_head_run.
  - refine (insert_step _ _ _ _ _ _ _ e _ _ _ HH _ _); [|qperm|done|done]. intros Q P HQ HO. two Q HQ.
    by eapply list_insert_after_run.
  - refine (insert_step _ _ _ _ _ _ _ e _ _ _ HH _ _); [|qperm|done|done]. intros Q P HQ HO. two Q HQ.
    by eapply list_insert_before_run.
  - refine (remove_step _ _ _ _ _ _ _ x _ _ _ HH); [|qperm]. intros P HO.
    destruct (list_remove_run off debug R m h l x k P HO Hz) as (m' & w1 & w2 & E & HO').
    by exists m', [(nx x, w1); (pv x, w2)].
  - refine (replace_step _ _ _ _ _ _ _ x e _ _ _ HH _ _); [|qperm|done|done].
    intros Q P HQ HO. two Q HQ.
    destruct (list_replace_run off debug R m h l x k e _ _ P HO Hz) as (m' & w1 & w2 & E & HO').
    by exists m', [(nx x, w1); (pv x, w2)].
  - refine (read_step _ _ _ _ _ _ _ _ _ HH); intros P HO. unfold LIST_FIRST.
    destruct xs as [|x xs]; qopen; qrun; done.
  - refine (read_step _ _ _ _ _ _ _ _ _ HH); intros P HO. unfold LIST_NEXT.
    destruct k as [|y k]; qopen; qrun; done.
  - refine (read_step _ _ _ _ _ _ _ _ _ HH); intros P HO.
    unfold flag, LIST_EMPTY, LIST_FIRST. destruct xs as [|x xs]; nz; qopen; qrun; done.
Qed.

#[export] Instance simpleq_impl : QueueImpl (simpleq off h) single simpleq_op simpleq_supports U.
Proof.
  intros R xs m op r xs' HH Hsup Hspec.
  pose proof (held_Forall _ _ _ _ _ _ _ HU HH) as Hz.
  destruct Hspec; try done; cbn [simpleq_op].
  - refine (insert_step _ _ _ _ _ _ _ e _ _ _ HH _ _); [|qperm|done|done]. intros Q P HQ HO. one Q HQ.
    by eapply simpleq_insert_head_run.
  - refine (insert_step _ _ _ _ _ _ _ e _ _ _ HH _ _); [|qperm|done|done]. intros Q P HQ HO. one Q HQ.
    by eapply simpleq_insert_tail_run.
  - refine (insert_step _ _ _ _ _ _ _ e _ _ _ HH _ _); [|qperm|done|done]. intros Q P HQ HO. one Q HQ.
    by eapply simpleq_insert_after_run.
  - refine (remove_step _ _ _ _ _ _ _ x _ _ _ HH); [|qperm]. intros P HO. nz.
    destruct (simpleq_remove_head_run off R m h x xs P HO Hz) as (m' & w & E & HO').
    by exists m', [(nx x, w)].
  - refine (remove_step _ _ _ _ _ _ _ y _ _ _ HH); [|qperm]. intros P HO. nz.
    destruct (simpleq_remove_after_run off R m h l x y k P HO Hz) as (m' & w & E & HO').
    by exists m', [(nx y, w)].
  - refine (read_step _ _ _ _ _ _ _ _ _ HH); intros P HO. unfold SIMPLEQ_FIRST.
    destruct xs as [|x xs]; qopen; qrun; done.
  - refine (read_step _ _ _ _ _ _ _ _ _ HH); intros P HO. unfold SIMPLEQ_NEXT.
    destruct k as [|y k]; qopen; qrun; done.
  - refine (read_step _ _ _ _ _ _ _ _ _ HH); intros P HO.
    unfold flag, SIMPLEQ_EMPTY, SIMPLEQ_FIRST. destruct xs as [|x xs]; nz; qopen; qrun; done.
Qed.

#[export] Instance xsimpleq_impl B c :
  0 ≤ B → 0 ≤ c < 2 ^ B → fits_ulong B h → Forall (xok B off) U →
  QueueImpl (xsimpleq B c off h) single (xsimpleq_op B) simpleq_supports U.
Proof.
  intros HB Hc Hh HUx R xs m op r xs' HH Hsup Hspec.
  pose proof (held_Forall _ _ _ _ _ _ _ HUx HH) as Hz.
  assert (∀ e, e ∈ U → xok B off e) as Hok by (by apply Forall_forall).
  destruct Hspec; try done; cbn [xsimpleq_op].
  - refine (insert_step _ _ _ _ _ _ _ e _ _ _ HH _ _); [|qperm|done|done]. intros Q P HQ HO. one Q HQ.
    eapply xsimpleq_insert_head_run; [done|done|exact HO|done|by apply Hok|done].
  - refine (insert_step _ _ _ _ _ _ _ e _ _ _ HH _ _); [|qperm|done|done]. intros Q P HQ HO. one Q HQ.
    eapply xsimpleq_insert_tail_run; [done|done|exact HO|done|by apply Hok|done].
  - refine (insert_step _ _ _ _ _ _ _ e _ _ _ HH _ _); [|qperm|done|done]. intros Q P HQ HO. one Q HQ.
    eapply xsimpleq_insert_after_run; [done|done|exact HO|done|by apply Hok|done].
  - refine (remove_step _ _ _ _ _ _ _ x _ _ _ HH); [|qperm]. intros P HO.
    destruct (xsimpleq_remove_head_run B c HB Hc off R m h x xs P HO Hz Hh) as (m' & w & E & HO').
    by exists m', [(nx x, w)].
  - refine (remove_step _ _ _ _ _ _ _ y _ _ _ HH); [|qperm]. intros P HO.
    destruct (xsimpleq_remove_after_run B c HB Hc off R m h l x y k P HO Hz Hh) as (m' & w & E & HO').
    by exists m', [(nx y, w)].
  - refine (read_step _ _ _ _ _ _ _ _ _ HH); intros P HO. by eapply (xsimpleq_first_run B c HB Hc).
  - refine (read_step _ _ _ _ _ _ _ _ _ HH); intros P HO. by eapply (xsimpleq_next_run B c HB Hc).
  - refine (read_step _ _ _ _ _ _ _ _ _ HH); intros P HO. unfold flag, XSIMPLEQ_EMPTY.
    erewrite bind_run; [|by erewrite bind_run by by eapply (xsimpleq_first_run B c HB Hc)].
    destruct xs as [|x xs]; [done|]. apply Forall_cons in Hz as [[Hx _] _].
    cbn [List.hd]. by rewrite (proj2 (Z.eqb_neq x NULL) Hx).
Qed.
End kinds.

(** ** Correctness *)

(** Three elements, whose entries are at offset 16. *)
Definition q_elements : list Z := [100; 200; 300].

(** Memory with just the given locations. *)
Definition q_memory (l : list Z) : memory := list_to_map ((λ a, (a, 77)) <$> l).

Section properties.
Context (off : Z) (debug : bool) (h : Z) (U : list Z) (HU : Forall (λ y, y ≠ 0) U).
Implicit Types (m : memory) (ops : list q_op) (rs xs : list Z).

(** A tail queue is a sequence: every history of TAILQ operations from
    [TAILQ_INIT], reading and removing at both ends and in the middle, answers
    as on the list of elements and leaves a tail queue of that list; no other
    memory is written. *)
Theorem TAILQ_refines_sequence m ops rs xs :
  Blank m ([h; lastp h] ++ concat (double off <$> U)) →
  forallb tailq_supports ops = true → qspecs U [] ops rs xs →
  ∃ m', (TAILQ_INIT h;; q_runs (tailq_op off debug h) ops) m = Some (rs, m') ∧
        Held (tailq off h) (double off) m U xs m'.
Proof.
  intros Hb Hsup Hs. destruct (init_held (tailq off h) (double off) [h; lastp h] U m (TAILQ_INIT h)) as (m1 & E & HH); [|exact Hb|].
  { intros Q P HQ HO. destruct Q as [|[? ?] [|[? ?] [|]]]; simplify_eq/=.
    unfold TAILQ_INIT. qopen. qrun. qclose. }
  rewrite (bind_run _ _ _ _ _ E). eapply (history_run (QueueImpl0 := tailq_impl off debug h U HU)); done.
Qed.

(** A list is a sequence: every history of LIST operations from
    [LIST_INIT] answers as on the list of elements. *)
Theorem LIST_refines_sequence m ops rs xs :
  Blank m ([h] ++ concat (double off <$> U)) →
  forallb list_supports ops = true → qspecs U [] ops rs xs →
  ∃ m', (LIST_INIT h;; q_runs (list_op off debug h) ops) m = Some (rs, m') ∧
        Held (dlist off h) (double off) m U xs m'.
Proof.
  intros Hb Hsup Hs. destruct (init_held (dlist off h) (double off) [h] U m (LIST_INIT h)) as (m1 & E & HH); [|exact Hb|].
  { intros Q P HQ HO. destruct Q as [|[? ?] [|]]; simplify_eq/=.
    unfold LIST_INIT. qopen. qrun. qclose. }
  rewrite (bind_run _ _ _ _ _ E). eapply (history_run (QueueImpl0 := list_impl off debug h U HU)); done.
Qed.

(** A singly-linked list is a sequence: every history of SLIST operations
    from [SLIST_INIT] answers as on the list of elements; [SLIST_REMOVE] needs
    no more rounds than there are elements. *)
Theorem SLIST_refines_sequence fuel m ops rs xs :
  Blank m ([h] ++ concat (single off <$> U)) → NoDup U → (length U < fuel)%nat →
  forallb slist_supports ops = true → qspecs U [] ops rs xs →
  ∃ m', (SLIST_INIT h;; q_runs (slist_op off debug h fuel) ops) m = Some (rs, m') ∧
        Held (slist off h) (single off) m U xs m'.
Proof.
  intros Hb HUnd Hf Hsup Hs. destruct (init_held (slist off h) (single off) [h] U m (SLIST_INIT h)) as (m1 & E & HH); [|exact Hb|].
  { intros Q P HQ HO. destruct Q as [|[? ?] [|]]; simplify_eq/=.
    unfold SLIST_INIT. qopen. qrun. qclose. }
  rewrite (bind_run _ _ _ _ _ E).
  eapply (history_run (QueueImpl0 := slist_impl off debug h U HU fuel HUnd Hf)); done.
Qed.

(** A simple queue is a sequence: every history of SIMPLEQ operations from
    [SIMPLEQ_INIT] answers as on the list of elements, the tail pointer kept
    through insertions and removals at both ends. *)
Theorem SIMPLEQ_refines_sequence m ops rs xs :
  Blank m ([h; lastp h] ++ concat (single off <$> U)) →
  forallb simpleq_supports ops = true → qspecs U [] ops rs xs →
  ∃ m', (SIMPLEQ_INIT h;; q_runs (simpleq_op off h) ops) m = Some (rs, m') ∧
        Held (simpleq off h) (single off) m U xs m'.
Proof.
  intros Hb Hsup Hs. destruct (init_held (simpleq off h) (single off) [h; lastp h] U m (SIMPLEQ_INIT h)) as (m1 & E & HH); [|exact Hb|].
  { intros Q P HQ HO. destruct Q as [|[? ?] [|[? ?] [|]]]; simplify_eq/=.
    unfold SIMPLEQ_INIT. qopen. qrun. qclose. }
  rewrite (bind_run _ _ _ _ _ E). eapply (history_run (QueueImpl0 := simpleq_impl off h U HU)); done.
Qed.

(** C9: Tail queues, lists, singly-linked lists and simple queues are sequences:
    every history of the operations a kind has, from its [INIT], answers as on the
    list of elements, reading, inserting and removing wherever the kind can, and
    leaves the representation of that list; no other memory is written.
    [SLIST_REMOVE] needs no more rounds than there are elements. *)
Theorem queues_refine_sequence fuel m ops rs xs :
  qspecs U [] ops rs xs →
  (Blank m ([h; lastp h] ++ concat (double off <$> U)) → forallb tailq_supports ops = true →
   ∃ m', (TAILQ_INIT h;; q_runs (tailq_op off debug h) ops) m = Some (rs, m') ∧
         Held (tailq off h) (double off) m U xs m') ∧
  (Blank m ([h] ++ concat (double off <$> U)) → forallb list_supports ops = true →
   ∃ m', (LIST_INIT h;; q_runs (list_op off debug h) ops) m = Some (rs, m') ∧
         Held (dlist off h) (double off) m U xs m') ∧
  (Blank m ([h] ++ concat (single off <$> U)) → NoDup U → (length U < fuel)%nat →
   forallb slist_supports ops = true →
   ∃ m', (SLIST_INIT h;; q_runs (slist_op off debug h fuel) ops) m = Some (rs, m') ∧
         Held (slist off h) (single off) m U xs m') ∧
  (Blank m ([h; lastp h] ++ concat (single off <$> U)) → forallb simpleq_supports ops = true →
   ∃ m', (SIMPLEQ_INIT h;; q_runs (simpleq_op off h) ops) m = Some (rs, m') ∧
         Held (simpleq off h) (single off) m U xs m').
Proof.
  intros Hs. split_and!; intros.
  - by apply TAILQ_refines_sequence.
  - by apply LIST_refines_sequence.
  - by apply SLIST_refines_sequence.
  - by apply SIMPLEQ_refines_sequence.
Qed.

(** C10: an XOR simple queue is a sequence for every cookie, as long as the
    addresses fit the [unsigned long] the macros cast them to. *)
Theorem XSIMPLEQ_refines_sequence B c m ops rs xs :
  0 ≤ B → 0 ≤ c < 2 ^ B → fits_ulong B h → Forall (xok B off) U →
  Blank m ([h; lastp h; cookiep h] ++ concat (single off <$> U)) →
  forallb simpleq_supports ops = true → qspecs U [] ops rs xs →
  ∃ m', (XSIMPLEQ_INIT B c h;; q_runs (xsimpleq_op off h B) ops) m = Some (rs, m') ∧
        Held (xsimpleq B c off h) (single off) m U xs m'.
Proof.
  intros HB Hc Hh HUx Hb Hsup Hs.
  destruct (init_held (xsimpleq B c off h) (single off) [h; lastp h; cookiep h] U m (XSIMPLEQ_INIT B c h)) as (m1 & E & HH); [|exact Hb|].
  { intros Q P HQ HO. destruct Q as [|[? ?] [|[? ?] [|[? ?] [|]]]]; simplify_eq/=.
    exact (xsimpleq_init_run B c off m m h _ _ _ P HO). }
  rewrite (bind_run _ _ _ _ _ E).
  exact (history_run (QueueImpl0 := xsimpleq_impl off h U B c HB Hc Hh HUx) _ _ _ _ _ _ HH Hsup Hs).
Qed.

(** Concatenation of two simple queues, or of two tail queues, moves all
    elements of the second behind those of the first and leaves the second
    empty, also when one of them is empty. *)
Theorem CONCAT_correct R m h1 h2 xs ys P :
  Forall (λ y, y ≠ 0) ys →
  (Own R m (simpleq off h1 xs ++ simpleq off h2 ys ++ P) →
   ∃ m', SIMPLEQ_CONCAT h1 h2 m = Some (tt, m') ∧
         Own R m' (simpleq off h1 (xs ++ ys) ++ simpleq off h2 [] ++ P)) ∧
  (Own R m (tailq off h1 xs ++ tailq off h2 ys ++ P) →
   ∃ m', TAILQ_CONCAT off h1 h2 m = Some (tt, m') ∧
         Own R m' (tailq off h1 (xs ++ ys) ++ tailq off h2 [] ++ P)).
Proof.
  intros Hz. split; intros HO; [by apply simpleq_concat_run|by apply tailq_concat_run].
Qed.

Lemma tailq_next R m l x k P :
  Own R m (tailq off h (l ++ x :: k) ++ P) → TAILQ_NEXT off x m = Some (List.hd 0 k, m).
Proof. intros HO. unfold TAILQ_NEXT. destruct k as [|y k]; qopen; qrun; done. Qed.

Lemma tailq_first R m xs P :
  Own R m (tailq off h xs ++ P) → TAILQ_FIRST h m = Some (List.hd 0 xs, m).
Proof. intros HO. unfold TAILQ_FIRST. destruct xs as [|x xs]; qopen; qrun; done. Qed.

Lemma tailq_remove_held R V m l x k :
  Forall (λ y, y ≠ 0) V → Held (tailq off h) (double off) R V (l ++ x :: k) m →
  ∃ m', TAILQ_REMOVE off debug h x m = Some (tt, m') ∧
        Held (tailq off h) (double off) R V (l ++ k) m'.
Proof.
  intros HV (ys & P & HO & HP & Hp).
  assert (Hz : Forall (λ y, y ≠ 0) (l ++ x :: k)) by (rewrite Hp, Forall_app in HV; tauto).
  destruct (tailq_remove_run off debug R m h l x k P HO Hz) as (m' & w1 & w2 & E & HO').
  exists m'. split; [done|].
  eapply (held_put _ _ _ _ _ _ x _ [(nx off x, w1); (pv off x, w2)]); [exact HO'|done|exact HP|].
  rewrite Hp. occs.
Qed.

Lemma last_reverse (l : list Z) : List.last l 0 = List.hd 0 (reverse l).
Proof.
  induction l as [|x l _] using List.rev_ind; [done|].
  by rewrite List.last_last, reverse_app.
Qed.

(** The safe loops over a tail queue, forwards and backwards, run their
    body on every element once even when the body removes the element it is
    run on, and the queue keeps the others in order. *)
Theorem TAILQ_FOREACH_SAFE_correct (p : Z → bool) R fuel m xs
    (body := λ x, if p x then TAILQ_REMOVE off debug h x else mret tt) :
  Held (tailq off h) (double off) R U xs m → (length xs < fuel)%nat →
  (∃ m', TAILQ_FOREACH_SAFE off fuel h body m = Some (xs, m') ∧
     Held (tailq off h) (double off) R U (filter (λ x, p x = false) xs) m') ∧
  (∃ m', TAILQ_FOREACH_REVERSE_SAFE off fuel h body m = Some (reverse xs, m') ∧
     Held (tailq off h) (double off) R U (filter (λ x, p x = false) xs) m').
Proof.
  intros HH Hf. pose proof HH as (ys & P & HO & _). split.
  - unfold TAILQ_FOREACH_SAFE. rewrite (bind_run _ _ _ _ _ (tailq_first _ _ _ _ HO)).
    apply (q_foreach_safe_run (Held (tailq off h) (double off) R U) p fuel _ _ m [] xs);
      [|by intros; apply tailq_remove_held|done|done].
    intros l x k m1 (ys1 & P1 & HO1 & _ & Hp). split; [by eapply tailq_next|].
    rewrite Hp, !Forall_app, Forall_cons in HU. tauto.
  - unfold TAILQ_FOREACH_REVERSE_SAFE.
    rewrite (bind_run _ _ _ _ _ (tailq_last_run _ _ _ _ _ _ HO)), last_reverse.
    destruct (q_foreach_safe_run (λ l, Held (tailq off h) (double off) R U (reverse l)) p fuel
      (TAILQ_PREV off) (TAILQ_REMOVE off debug h) m [] (reverse xs)) as (m' & E & HH').
    + intros l x k m1. rewrite reverse_app, reverse_cons, <-app_assoc.
      intros (ys1 & P1 & HO1 & _ & Hp). split.
      * rewrite <-(reverse_involutive k) at 1. rewrite <-last_reverse. by eapply tailq_prev_run.
      * rewrite Hp, !Forall_app, Forall_cons in HU. tauto.
    + intros l x k m1. rewrite !reverse_app, reverse_cons, <-app_assoc.
      by apply tailq_remove_held.
    + simpl. by rewrite reverse_involutive.
    + by rewrite length_reverse.
    + exists m'. split; [done|]. simpl in HH'.
      assert (reverse (filter (λ x, p x = false) (reverse xs)) = filter (λ x, p x = false) xs) as <-;
        [|done].
      clear. induction xs as [|x xs IH]; [done|]. rewrite reverse_cons, filter_app, reverse_app, IH.
      by destruct (p x) eqn:E; [rewrite !filter_cons_False by by rewrite E
                               |rewrite !filter_cons_True by done].
Qed.

(** The loops that leave the list alone run their body on every element
    once, in order; [TAILQ_FOREACH_REVERSE] in reverse order. *)
Theorem FOREACH_correct R m xs P fuel (body := λ _ : Z, mret tt) :
  Forall (λ y, y ≠ 0) xs → (length xs < fuel)%nat →
  (Own R m (slist off h xs ++ P) → SLIST_FOREACH off fuel h body m = Some (xs, m)) ∧
  (Own R m (dlist off h xs ++ P) → LIST_FOREACH off fuel h body m = Some (xs, m)) ∧
  (Own R m (simpleq off h xs ++ P) → SIMPLEQ_FOREACH off fuel h body m = Some (xs, m)) ∧
  (∀ B c, 0 ≤ B → 0 ≤ c < 2 ^ B → Forall (xok B off) xs →
     Own R m (xsimpleq B c off h xs ++ P) →
     XSIMPLEQ_FOREACH off B fuel h body m = Some (xs, m)) ∧
  (Own R m (tailq off h xs ++ P) →
     TAILQ_FOREACH off fuel h body m = Some (xs, m) ∧
     TAILQ_FOREACH_REVERSE off fuel h body m = Some (reverse xs, m)).
Proof.
  intros Hz Hf. subst body. split_and!.
  - intros HO. unfold SLIST_FOREACH, SLIST_FIRST.
    erewrite (bind_run _ _ m (List.hd 0 xs)) by (destruct xs; qopen; qrun; done).
    apply q_foreach_run; [|done..]. intros l x k ->. unfold SLIST_NEXT.
    destruct k; qopen; qrun; done.
  - intros HO. unfold LIST_FOREACH, LIST_FIRST.
    erewrite (bind_run _ _ m (List.hd 0 xs)) by (destruct xs; qopen; qrun; done).
    apply q_foreach_run; [|done..]. intros l x k ->. unfold LIST_NEXT.
    destruct k; qopen; qrun; done.
  - intros HO. unfold SIMPLEQ_FOREACH, SIMPLEQ_FIRST.
    erewrite (bind_run _ _ m (List.hd 0 xs)) by (destruct xs; qopen; qrun; done).
    apply q_foreach_run; [|done..]. intros l x k ->. unfold SIMPLEQ_NEXT.
    destruct k; qopen; qrun; done.
  - intros B c HB Hc Hx HO. unfold XSIMPLEQ_FOREACH.
    rewrite (bind_run _ _ _ _ _ (xsimpleq_first_run B c HB Hc off R m h xs P HO Hx)).
    apply q_foreach_run; [|done..]. intros l x k ->.
    by apply (xsimpleq_next_run B c HB Hc off R m h l x k P).
  - intros HO. split.
    + unfold TAILQ_FOREACH. rewrite (bind_run _ _ _ _ _ (tailq_first _ _ _ _ HO)).
      apply q_foreach_run; [|done..]. intros l x k ->. by eapply tailq_next.
    + unfold TAILQ_FOREACH_REVERSE.
      rewrite (bind_run _ _ _ _ _ (tailq_last_run _ _ _ _ _ _ HO)), last_reverse.
      apply q_foreach_run; [|by rewrite reverse_Permutation|by rewrite length_reverse].
      intros l x k E. apply (f_equal reverse) in E.
      rewrite reverse_involutive, reverse_app, reverse_cons, <-app_assoc in E. subst xs.
      rewrite <-(reverse_involutive k) at 1. rewrite <-last_reverse. by eapply tailq_prev_run.
Qed.
End properties.

Ltac elements := repeat constructor; try set_solver; lia.
Ltac nodup := apply (bool_decide_unpack _); by vm_compute.

Lemma TAILQ_refines_sequence_witness :
  let m := q_memory [8; 16; 116; 124; 216; 224; 316; 324] in
  ∃ m', (TAILQ_INIT 8;; q_runs (tailq_op 16 true 8)
      [InsertTail 100; InsertHead 200; InsertAfter 200 300; Last; Prev 300; Remove 300; Next 200;
       Replace 100 300; Last]) m = Some ([0; 0; 0; 100; 200; 0; 100; 0; 300], m') ∧
    Held (tailq 16 8) (double 16) m q_elements [200; 300] m'.
Proof.
  apply (TAILQ_refines_sequence 16 true 8 q_elements).
  - unfold q_elements. elements.
  - apply blank_list. nodup.
  - done.
  - unfold q_elements.
    eapply specs_cons; [apply spec_insert_tail; set_solver|].
    eapply specs_cons; [apply spec_insert_head; set_solver|].
    eapply specs_cons; [apply (spec_insert_after _ [] 200 [100]); set_solver|].
    eapply specs_cons; [apply spec_last|].
    eapply specs_cons; [apply (spec_prev _ [200] 300 [100])|].
    eapply specs_cons; [apply (spec_remove _ [200] 300 [100])|].
    eapply specs_cons; [apply (spec_next _ [] 200 [100])|].
    eapply specs_cons; [apply (spec_replace _ [200] 100 [] 300); set_solver|].
    eapply specs_cons; [apply spec_last|]. apply specs_nil.
Defined.

Lemma LIST_refines_sequence_witness :
  let m := q_memory [8; 116; 124; 216; 224; 316; 324] in
  ∃ m', (LIST_INIT 8;; q_runs (list_op 16 false 8)
      [InsertHead 100; InsertBefore 100 200; Empty; Remove 100; First]) m =
      Some ([0; 0; 0; 0; 200], m') ∧
    Held (dlist 16 8) (double 16) m q_elements [200] m'.
Proof.
  apply (LIST_refines_sequence 16 false 8 q_elements).
  - unfold q_elements. elements.
  - apply blank_list. nodup.
  - done.
  - unfold q_elements.
    eapply specs_cons; [apply spec_insert_head; set_solver|].
    eapply specs_cons; [apply (spec_insert_before _ [] 100 []); set_solver|].
    eapply specs_cons; [apply spec_empty|].
    eapply specs_cons; [apply (spec_remove _ [200] 100 [])|].
    eapply specs_cons; [apply spec_first|]. apply specs_nil.
Defined.

Lemma SLIST_refines_sequence_witness :
  let m := q_memory [8; 116; 216; 316] in
  ∃ m', (SLIST_INIT 8;; q_runs (slist_op 16 true 8 4)
      [InsertHead 100; InsertHead 200; InsertHead 300; Remove 100; RemoveHead; First]) m =
      Some ([0; 0; 0; 0; 0; 200], m') ∧
    Held (slist 16 8) (single 16) m q_elements [200] m'.
Proof.
  apply (SLIST_refines_sequence 16 true 8 q_elements).
  - unfold q_elements. elements.
  - apply blank_list. nodup.
  - unfold q_elements. elements.
  - unfold q_elements. simpl. lia.
  - done.
  - unfold q_elements.
    eapply specs_cons; [apply spec_insert_head; set_solver|].
    eapply specs_cons; [apply spec_insert_head; set_solver|].
    eapply specs_cons; [apply spec_insert_head; set_solver|].
    eapply specs_cons; [apply (spec_remove _ [300; 200] 100 [])|].
    eapply specs_cons; [apply spec_remove_head|].
    eapply specs_cons; [apply spec_first|]. apply specs_nil.
Defined.

Lemma SIMPLEQ_refines_sequence_witness :
  let m := q_memory [8; 16; 116; 216; 316] in
  ∃ m', (SIMPLEQ_INIT 8;; q_runs (simpleq_op 16 8)
      [InsertTail 100; InsertTail 200; RemoveAfter 100; InsertTail 300; Next 100]) m =
      Some ([0; 0; 0; 0; 300], m') ∧
    Held (simpleq 16 8) (single 16) m q_elements [100; 300] m'.
Proof.
  apply (SIMPLEQ_refines_sequence 16 8 q_elements).
  - unfold q_elements. elements.
  - apply blank_list. nodup.
  - done.
  - unfold q_elements.
    eapply specs_cons; [apply spec_insert_tail; set_solver|].
    eapply specs_cons; [apply spec_insert_tail; set_solver|].
    eapply specs_cons; [apply (spec_remove_after _ [] 100 200 [])|].
    eapply specs_cons; [apply spec_insert_tail; set_solver|].
    eapply specs_cons; [apply (spec_next _ [] 100 [300])|]. apply specs_nil.
Defined.

Lemma XSIMPLEQ_refines_sequence_witness :
  let m := q_memory [8; 16; 24; 116; 216; 316] in
  ∃ m', (XSIMPLEQ_INIT 64 987654321 8;; q_runs (xsimpleq_op 16 8 64)
      [InsertTail 100; InsertTail 200; RemoveAfter 100; InsertTail 300; Next 100]) m =
      Some ([0; 0; 0; 0; 300], m') ∧
    Held (xsimpleq 64 987654321 16 8) (single 16) m q_elements [100; 300] m'.
Proof.
  apply (XSIMPLEQ_refines_sequence 16 8 q_elements).
  - lia.
  - change (2 ^ 64) with 18446744073709551616. lia.
  - unfold fits_ulong. change (2 ^ 64) with 18446744073709551616. lia.
  - unfold q_elements, xok, xfits, fits_ulong, nx.
    change (2 ^ 64) with 18446744073709551616. repeat constructor; lia.
  - apply blank_list. nodup.
  - done.
  - unfold q_elements.
    eapply specs_cons; [apply spec_insert_tail; set_solver|].
    eapply specs_cons; [apply spec_insert_tail; set_solver|].
    eapply specs_cons; [apply (spec_remove_after _ [] 100 200 [])|].
    eapply specs_cons; [apply spec_insert_tail; set_solver|].
    eapply specs_cons; [apply (spec_next _ [] 100 [300])|]. apply specs_nil.
Defined.

(** Two tail queues, of one element and of two. *)
Definition q_two : list (Z * Z) := tailq 16 8 [100] ++ tailq 16 24 [200; 300] ++ [].

Lemma CONCAT_correct_witness :
  ∃ m', TAILQ_CONCAT 16 8 24 (list_to_map q_two) = Some (tt, m') ∧
    Own (list_to_map q_two) m' (tailq 16 8 [100; 200; 300] ++ tailq 16 24 [] ++ []).
Proof.
  apply (CONCAT_correct 16 (list_to_map q_two) (list_to_map q_two) 8 24 [100] [200; 300] []).
  - elements.
  - apply own_list. nodup.
Defined.

Lemma TAILQ_FOREACH_SAFE_correct_witness :
  let m := list_to_map (tailq 16 8 [200; 100; 300] ++ []) in
  ∃ m', TAILQ_FOREACH_SAFE 16 4 8
      (λ x, if x =? 100 then TAILQ_REMOVE 16 true 8 x else mret tt) m = Some ([200; 100; 300], m') ∧
    Held (tailq 16 8) (double 16) m q_elements [200; 300] m'.
Proof.
  apply (TAILQ_FOREACH_SAFE_correct 16 true 8 q_elements).
  - unfold q_elements. elements.
  - exists [], []. split_and!; [apply own_list; nodup|done|].
    rewrite app_nil_r. unfold q_elements. apply perm_swap.
  - simpl. lia.
Defined.

Lemma FOREACH_correct_witness :
  let m := list_to_map (tailq 16 8 [200; 100; 300] ++ []) in
  TAILQ_FOREACH 16 4 8 (λ _, mret tt) m = Some ([200; 100; 300], m) ∧
  TAILQ_FOREACH_REVERSE 16 4 8 (λ _, mret tt) m = Some ([300; 100; 200], m).
Proof.
  apply (FOREACH_correct 16 8 (list_to_map (tailq 16 8 [200; 100; 300] ++ []))
    (list_to_map (tailq 16 8 [200; 100; 300] ++ [])) [200; 100; 300] [] 4).
  - elements.
  - simpl. lia.
  - apply own_list. nodup.
Defined.

(** The same history on a list and on a singly-linked list. *)
Lemma queues_refine_sequence_witness :
  let ops := [InsertHead 100; InsertHead 200; InsertHead 300; Remove 100; First] in
  (let m := q_memory [8; 116; 124; 216; 224; 316; 324] in
   ∃ m', (LIST_INIT 8;; q_runs (list_op 16 true 8) ops) m = Some ([0; 0; 0; 0; 300], m') ∧
     Held (dlist 16 8) (double 16) m q_elements [300; 200] m') ∧
  let m := q_memory [8; 116; 216; 316] in
  ∃ m', (SLIST_INIT 8;; q_runs (slist_op 16 true 8 4) ops) m = Some ([0; 0; 0; 0; 300], m') ∧
    Held (slist 16 8) (single 16) m q_elements [300; 200] m'.
Proof.
  intros ops. assert (HU : Forall (λ y, y ≠ 0) q_elements) by (unfold q_elements; elements).
  assert (Hs : qspecs q_elements [] ops [0; 0; 0; 0; 300] [300; 200]).
  { unfold q_elements, ops. do 3 (eapply specs_cons; [apply spec_insert_head; set_solver|]).
    eapply specs_cons; [apply (spec_remove _ [300; 200] 100 [])|].
    eapply specs_cons; [apply spec_first|]. apply specs_nil. }
  split; intros m.
  - destruct (queues_refine_sequence 16 true 8 q_elements HU 4 m ops _ _ Hs) as (_ & HL & _ & _).
    apply HL; [apply blank_list; nodup|done].
  - destruct (queues_refine_sequence 16 true 8 q_elements HU 4 m ops _ _ Hs) as (_ & _ & HL & _).
    apply HL; [apply blank_list; nodup|unfold q_elements; elements|unfold q_elements; simpl; lia|done].
Defined.
