(* ===== verification/Getopt.v ===== *)
(** [crypto/compat/getopt_long.c]: the option parser.

    The state holds the global and static variables, the argument vector (whose
    pointers the parser permutes), the [int] objects [idx] and [flag] point to,
    and the messages given to [warnx].  A [char *] is the string it points into
    and an offset, so that [place != nargv[optind]] compares pointers; reading
    past the terminating NUL, or outside the argument vector, is a failure.
    [char] values are integers, strings are given without their NUL. *)
From Stdlib Require Import ZArith Lia.
From stdpp Require Import prelude gmap.
From S2P Require Import Prelude.

Local Open Scope Z_scope.

(** ** Data *)

Abbreviation str := (list Z).

(** A pointer into a string. *)
Abbreviation cptr := (positive * nat)%type.

Definition no_argument : Z := 0.
Definition required_argument : Z := 1.
Definition optional_argument : Z := 2.

(** [struct option]; an array of them is given without its terminator. *)
Record longopt := LongOpt { name : str; has_arg : Z; flag : ptr; val : Z }.

(** The messages. *)
Inductive warning :=
  | recargchar (c : Z)
  | recargstring (p : cptr)
  | ambig (len : Z) (p : cptr)
  | noarg (len : Z) (p : cptr)
  | illoptchar (c : Z)
  | illoptstring (p : cptr).

Record getopt_state := GetoptState {
  opterr : Z;
  optind : Z;
  optopt : Z;
  optreset : Z;
  optarg : option cptr;
  place : cptr;
  nonopt_start : Z;
  nonopt_end : Z;
  posixly_correct : Z;
  nargv : list (option cptr);
  ints : gmap positive Z;
  warnings : list warning
}.

Abbreviation GM := (ST getopt_state).

Definition set_optind (v : Z) : GM unit := modify (λ s, GetoptState (opterr s) v (optopt s)
  (optreset s) (optarg s) (place s) (nonopt_start s) (nonopt_end s) (posixly_correct s)
  (nargv s) (ints s) (warnings s)).
Definition set_optopt (v : Z) : GM unit := modify (λ s, GetoptState (opterr s) (optind s) v
  (optreset s) (optarg s) (place s) (nonopt_start s) (nonopt_end s) (posixly_correct s)
  (nargv s) (ints s) (warnings s)).
Definition set_optreset (v : Z) : GM unit := modify (λ s, GetoptState (opterr s) (optind s)
  (optopt s) v (optarg s) (place s) (nonopt_start s) (nonopt_end s) (posixly_correct s)
  (nargv s) (ints s) (warnings s)).
Definition set_optarg (v : option cptr) : GM unit := modify (λ s, GetoptState (opterr s)
  (optind s) (optopt s) (optreset s) v (place s) (nonopt_start s) (nonopt_end s)
  (posixly_correct s) (nargv s) (ints s) (warnings s)).
Definition set_place (v : cptr) : GM unit := modify (λ s, GetoptState (opterr s) (optind s)
  (optopt s) (optreset s) (optarg s) v (nonopt_start s) (nonopt_end s) (posixly_correct s)
  (nargv s) (ints s) (warnings s)).
Definition set_nonopt (a b : Z) : GM unit := modify (λ s, GetoptState (opterr s) (optind s)
  (optopt s) (optreset s) (optarg s) (place s) a b (posixly_correct s)
  (nargv s) (ints s) (warnings s)).
Definition set_posixly_correct (v : Z) : GM unit := modify (λ s, GetoptState (opterr s)
  (optind s) (optopt s) (optreset s) (optarg s) (place s) (nonopt_start s) (nonopt_end s) v
  (nargv s) (ints s) (warnings s)).
Definition set_nargv (v : list (option cptr)) : GM unit := modify (λ s, GetoptState (opterr s)
  (optind s) (optopt s) (optreset s) (optarg s) (place s) (nonopt_start s) (nonopt_end s)
  (posixly_correct s) v (ints s) (warnings s)).
Definition set_int (p : positive) (v : Z) : GM unit := modify (λ s, GetoptState (opterr s)
  (optind s) (optopt s) (optreset s) (optarg s) (place s) (nonopt_start s) (nonopt_end s)
  (posixly_correct s) (nargv s) (<[p := v]> (ints s)) (warnings s)).
Definition warnx (w : warning) : GM unit := modify (λ s, GetoptState (opterr s)
  (optind s) (optopt s) (optreset s) (optarg s) (place s) (nonopt_start s) (nonopt_end s)
  (posixly_correct s) (nargv s) (ints s) (warnings s ++ [w])).

(** ** Characters and strings *)

Definition NUL : Z := 0.
Definition cPLUS : Z := 43.
Definition cDASH : Z := 45.
Definition cCOLON : Z := 58.
Definition cSEMI : Z := 59.
Definition cEQ : Z := 61.
Definition cQUEST : Z := 63.
Definition cW : Z := 87.

(** [s[n]] of a string constant: its terminator is NUL, there is nothing behind
    it. *)
Definition char_at (s : str) (n : nat) : option Z :=
  if decide (n < length s)%nat then s !! n
  else if decide (n = length s) then Some NUL else None.

(** [strchr]: the rest of the string from the first [c], which may be the
    terminator. *)
Fixpoint strchr (s : str) (c : Z) : option str :=
  match s with
  | [] => if c =? NUL then Some [] else None
  | x :: s' => if x =? c then Some s else strchr s' c
  end.

(** [strncmp(s, t, n) != 0] *)
Fixpoint strncmp_ne (n : nat) (s t : str) : bool :=
  match n with
  | O => false
  | S n =>
      match s, t with
      | x :: s, y :: t => if x =? y then strncmp_ne n s t else true
      | [], [] => false
      | _, _ => true
      end
  end.

(** ** Permuting the argument vector *)

(** [a % b] of [int]s. *)
Definition rem_ (a b : Z) : GM Z := if b =? 0 then fail else mret (Z.rem a b).

Fixpoint gcd_loop (fuel : nat) (a b c : Z) : GM Z :=
  match fuel with
  | O => fail
  | S fuel =>
      if c =? 0 then mret b
      else c' ← rem_ b c; gcd_loop fuel b c c'
  end.

Definition gcd (a b : Z) : GM Z :=
  c ← rem_ a b; gcd_loop (S (Z.to_nat (Z.abs b))) a b c.

(** [nargv[i]], reading and writing. *)
Definition get_arg (i : Z) : GM (option cptr) := λ s,
  if i <? 0 then None else v ← nargv s !! Z.to_nat i; Some (v, s).

Definition set_arg (i : Z) (v : option cptr) : GM unit := λ s,
  if i <? 0 then None
  else _ ← nargv s !! Z.to_nat i; set_nargv (<[Z.to_nat i := v]> (nargv s)) s.

(** The inner loop of [permute_args], [j] more rounds. *)
Fixpoint permute_cycle (j : nat) (panonopt_end nnonopts nopts cstart pos : Z) : GM unit :=
  match j with
  | O => mret tt
  | S j =>
      let pos := if panonopt_end <=? pos then pos - nnonopts else pos + nopts in
      swap ← get_arg pos;
      c ← get_arg cstart;
      set_arg pos c;;
      set_arg cstart swap;;
      permute_cycle j panonopt_end nnonopts nopts cstart pos
  end.

(** The outer loop from [i], [n] more cycles. *)
Fixpoint permute_cycles (n : nat) (i panonopt_end nnonopts nopts : Z) (cyclelen : Z) : GM unit :=
  match n with
  | O => mret tt
  | S n =>
      let cstart := panonopt_end + i in
      permute_cycle (Z.to_nat cyclelen) panonopt_end nnonopts nopts cstart cstart;;
      permute_cycles n (i + 1) panonopt_end nnonopts nopts cyclelen
  end.

Definition permute_args (panonopt_start panonopt_end opt_end : Z) : GM unit :=
  let nnonopts := panonopt_end - panonopt_start in
  let nopts := opt_end - panonopt_end in
  ncycle ← gcd nnonopts nopts;
  (if ncycle =? 0 then fail
   else
     let cyclelen := Z.quot (opt_end - panonopt_start) ncycle in
     permute_cycles (Z.to_nat ncycle) 0 panonopt_end nnonopts nopts cyclelen).

(** ** The parser *)

Definition FLAG_PERMUTE : Z := 1.
Definition FLAG_ALLARGS : Z := 2.
Definition FLAG_LONGONLY : Z := 4.
Definition has_flag (flags f : Z) : bool := negb (Z.land flags f =? 0).

Definition BADCH : Z := cQUEST.
Definition INORDER : Z := 1.

(** [*options] *)
Definition first_char (options : str) : Z := match options with [] => NUL | c :: _ => c end.
Definition BADARG (options : str) : Z :=
  if first_char options =? cCOLON then cCOLON else cQUEST.

(** [if (PRINT_ERROR) warnx(w)] *)
Definition print_error (options : str) (w : warning) : GM unit :=
  e ← gets opterr;
  if negb (e =? 0) && negb (first_char options =? cCOLON) then warnx w else mret tt.

Section getopt.
(** The strings of the program and of the arguments, one of them the empty
    constant [EMSG]; and whether [POSIXLY_CORRECT] is in the environment. *)
Context (strs : gmap positive str) (emsg : positive) (posix_env : bool).

Definition EMSG : cptr := (emsg, O).

(** [p[n]] *)
Definition rd (p : cptr) (n : nat) : GM Z := λ s,
  t ← strs !! p.1; c ← char_at t (p.2 + n); Some (c, s).

Definition padd (p : cptr) (n : nat) : cptr := (p.1, (p.2 + n)%nat).

(** The string at [p]. *)
Definition string_at (p : cptr) : GM str := λ s,
  t ← strs !! p.1; if decide (p.2 <= length t)%nat then Some (drop p.2 t, s) else None.

(** The loop of [parse_long_options] over the options from number [i] on:
    [(match, exact_match, second_partial_match)]. *)
Fixpoint long_match (opts : list longopt) (cur : str) (short_too : bool) (flags : Z)
    (i : Z) (m : option (Z * longopt)) (second : bool) : option (Z * longopt) * bool * bool :=
  match opts with
  | [] => (m, false, second)
  | o :: opts =>
      if strncmp_ne (length cur) cur (name o) then
        long_match opts cur short_too flags (i + 1) m second
      else if decide (length (name o) = length cur) then (Some (i, o), true, second)
      else if short_too && bool_decide (length cur = 1%nat) then
        long_match opts cur short_too flags (i + 1) m second
      else
        match m with
        | None => long_match opts cur short_too flags (i + 1) (Some (i, o)) second
        | Some (_, o1) =>
            let differ := has_flag flags FLAG_LONGONLY
              || negb (has_arg o =? has_arg o1)
              || negb (bool_decide (flag o = flag o1))
              || negb (val o =? val o1) in
            long_match opts cur short_too flags (i + 1) m (second || differ)
        end
  end.

(** [strncmp] compares only the first [current_argv_len] characters, so the
    current argument is cut there; [strchr(current_argv, '=')] gives the cut. *)
Definition split_equal (p : cptr) : GM (str * option cptr) :=
  t ← string_at p;
  match strchr t cEQ with
  | Some rest =>
      let len := (length t - length rest)%nat in
      mret (take len t, Some (padd p (len + 1)))
  | None => mret (t, None)
  end.

Definition set_optopt_of (o : longopt) : GM unit :=
  if negb (nonnull (flag o)) then set_optopt (val o) else set_optopt 0.

Definition parse_long_options (options : str) (long_options : list longopt) (idx : ptr)
    (short_too : bool) (flags : Z) : GM Z :=
  current_argv ← gets place;
  oi ← gets optind; set_optind (oi + 1);;
  cur_eq ← split_equal current_argv;
  let '(cur, has_equal) := cur_eq in
  let len := Z.of_nat (length cur) in
  let '(m, exact_match, second) := long_match long_options cur short_too flags 0 None false in
  if negb exact_match && second then
    print_error options (ambig len current_argv);;
    set_optopt 0;;
    mret BADCH
  else
    match m with
    | Some (i, o) =>
        if (has_arg o =? no_argument) && bool_decide (has_equal ≠ None) then
          print_error options (noarg len current_argv);;
          set_optopt_of o;;
          mret (BADARG options)
        else
          (if (has_arg o =? required_argument) || (has_arg o =? optional_argument) then
             match has_equal with
             | Some p => set_optarg (Some p)
             | None =>
                 if has_arg o =? required_argument then
                   oi ← gets optind;
                   a ← get_arg oi;
                   set_optind (oi + 1);;
                   set_optarg a
                 else mret tt
             end
           else mret tt);;
          oa ← gets optarg;
          if (has_arg o =? required_argument) && bool_decide (oa = None) then
            print_error options (recargstring current_argv);;
            set_optopt_of o;;
            oi ← gets optind; set_optind (oi - 1);;
            mret (BADARG options)
          else
            (match idx with Some p => set_int p i | None => mret tt end);;
            match flag o with
            | Some p => set_int p (val o);; mret 0
            | None => mret (val o)
            end
    | None =>
        if short_too then
          oi ← gets optind; set_optind (oi - 1);;
          mret (-1)
        else
          print_error options (illoptstring current_argv);;
          set_optopt 0;;
          mret BADCH
    end.

(** At the end of the options: move the skipped non-options behind them. *)
Definition finish_permute : GM unit :=
  ns ← gets nonopt_start;
  ne ← gets nonopt_end;
  oi ← gets optind;
  permute_args ns ne oi;;
  set_optind (oi - (ne - ns)).

(** [start:], when the next argument has to be looked at.  The value is what
    [getopt_internal] returns, or [None] when an option has been found. *)
Fixpoint scan (fuel : nat) (nargc : Z) (options : str) (flags : Z) : GM (option Z) :=
  match fuel with
  | O => fail
  | S fuel =>
      set_optreset 0;;
      oi ← gets optind;
      if nargc <=? oi then
        set_place EMSG;;
        ne ← gets nonopt_end;
        ns ← gets nonopt_start;
        (if negb (ne =? -1) then finish_permute
         else if negb (ns =? -1) then set_optind ns
         else mret tt);;
        set_nonopt (-1) (-1);;
        mret (Some (-1))
      else
        a ← get_arg oi;
        p ← (match a with Some p => mret p | None => fail end);
        set_place p;;
        c0 ← rd p 0;
        non_option ← (if negb (c0 =? cDASH) then mret true
                      else
                        c1 ← rd p 1;
                        mret ((c1 =? NUL) && bool_decide (strchr options cDASH = None)));
        if (non_option : bool) then
          set_place EMSG;;
          if has_flag flags FLAG_ALLARGS then
            a ← get_arg oi;
            set_optind (oi + 1);;
            set_optarg a;;
            mret (Some INORDER)
          else if negb (has_flag flags FLAG_PERMUTE) then mret (Some (-1))
          else
            ns ← gets nonopt_start;
            ne ← gets nonopt_end;
            (if ns =? -1 then set_nonopt oi ne
             else if negb (ne =? -1) then
               permute_args ns ne oi;;
               set_nonopt (oi - (ne - ns)) (-1)
             else mret tt);;
            set_optind (oi + 1);;
            (* [place] is [EMSG], so the test at [start:] succeeds *)
            scan fuel nargc options flags
        else
          ns ← gets nonopt_start;
          ne ← gets nonopt_end;
          (if negb (ns =? -1) && (ne =? -1) then set_nonopt ns oi else mret tt);;
          c1 ← rd p 1;
          if c1 =? NUL then mret None
          else
            set_place (padd p 1);;
            c2 ← (if c1 =? cDASH then c2 ← rd p 2; mret (c2 =? NUL) else mret false);
            if (c2 : bool) then
              set_optind (oi + 1);;
              set_place EMSG;;
              ne ← gets nonopt_end;
              (if negb (ne =? -1) then finish_permute else mret tt);;
              set_nonopt (-1) (-1);;
              mret (Some (-1))
            else mret None
  end.

(** Try a long option: the value is what [getopt_internal] returns, if it does. *)
Definition try_long (options : str) (long_options : option (list longopt)) (idx : ptr)
    (flags : Z) : GM (option Z) :=
  match long_options with
  | None => mret None
  | Some longs =>
      p ← gets place;
      oi ← gets optind;
      a ← get_arg oi;
      c ← rd p 0;
      if bool_decide (Some p ≠ a) && ((c =? cDASH) || has_flag flags FLAG_LONGONLY) then
        short_too ← (if c =? cDASH then set_place (padd p 1);; mret false
                     else mret (negb (c =? cCOLON) && bool_decide (strchr options c ≠ None)));
        optchar ← parse_long_options options longs idx short_too flags;
        if negb (optchar =? -1) then set_place EMSG;; mret (Some optchar)
        else mret None
      else mret None
  end.

(** [long_options != NULL] *)
Definition is_given (long_options : option (list longopt)) : bool :=
  match long_options with Some _ => true | None => false end.

(** A missing argument. *)
Definition missing_arg (options : str) (optchar : Z) : GM Z :=
  set_place EMSG;;
  print_error options (recargchar optchar);;
  set_optopt optchar;;
  mret (BADARG options).

(** The rest of [getopt_internal]: the option letter at [place]. *)
Definition short_option (nargc : Z) (options : str) (long_options : option (list longopt))
    (idx : ptr) (flags : Z) : GM Z :=
  p ← gets place;
  optchar ← rd p 0;
  let p := padd p 1 in
  set_place p;;
  match (if optchar =? cCOLON then None else strchr options optchar) with
  | None =>
      c ← rd p 0;
      (if c =? NUL then oi ← gets optind; set_optind (oi + 1) else mret tt);;
      print_error options (illoptchar optchar);;
      set_optopt optchar;;
      mret BADCH
  | Some oli =>
      (* [oli[1]] is read when [oli] is not at the terminator *)
      o1 ← (λ s, c ← char_at oli 1; Some (c, s));
      if is_given long_options && (optchar =? cW) && (o1 =? cSEMI) then
        c ← rd p 0;
        if negb (c =? NUL) then
          r ← parse_long_options options (default [] long_options) idx false flags;
          set_place EMSG;; mret r
        else
          oi ← gets optind; set_optind (oi + 1);;
          if nargc <=? oi + 1 then missing_arg options optchar
          else
            a ← get_arg (oi + 1);
            p ← (match a with Some p => mret p | None => fail end);
            set_place p;;
            r ← parse_long_options options (default [] long_options) idx false flags;
            set_place EMSG;; mret r
      else if negb (o1 =? cCOLON) then
        c ← rd p 0;
        (if c =? NUL then oi ← gets optind; set_optind (oi + 1) else mret tt);;
        mret optchar
      else
        set_optarg None;;
        c ← rd p 0;
        if negb (c =? NUL) then
          set_optarg (Some p);;
          set_place EMSG;;
          oi ← gets optind; set_optind (oi + 1);;
          mret optchar
        else
          o2 ← (λ s, c ← char_at oli 2; Some (c, s));
          if negb (o2 =? cCOLON) then
            oi ← gets optind; set_optind (oi + 1);;
            if nargc <=? oi + 1 then missing_arg options optchar
            else
              a ← get_arg (oi + 1);
              set_optarg a;;
              set_place EMSG;;
              oi ← gets optind; set_optind (oi + 1);;
              mret optchar
          else
            set_place EMSG;;
            oi ← gets optind; set_optind (oi + 1);;
            mret optchar
  end.

Definition getopt_internal (fuel : nat) (nargc : Z) (options : option str)
    (long_options : option (list longopt)) (idx : ptr) (flags : Z) : GM Z :=
  match options with
  | None => mret (-1)
  | Some options =>
      oi ← gets optind;
      (if oi =? 0 then set_optreset 1;; set_optind 1 else mret tt);;
      pc ← gets posixly_correct;
      reset ← gets optreset;
      (if (pc =? -1) || negb (reset =? 0)
       then set_posixly_correct (if posix_env then 1 else 0) else mret tt);;
      pc ← gets posixly_correct;
      let flags := if first_char options =? cDASH then Z.lor flags FLAG_ALLARGS
        else if negb (pc =? 0) || (first_char options =? cPLUS)
        then Z.ldiff flags FLAG_PERMUTE else flags in
      let options := if (first_char options =? cPLUS) || (first_char options =? cDASH)
        then tail options else options in
      set_optarg None;;
      reset ← gets optreset;
      (if negb (reset =? 0) then set_nonopt (-1) (-1) else mret tt);;
      p ← gets place;
      found ← (if negb (reset =? 0) then scan fuel nargc options flags
               else
                 c ← rd p 0;
                 if c =? NUL then scan fuel nargc options flags else mret None);
      match found with
      | Some r => mret r
      | None =>
          long ← try_long options long_options idx flags;
          match long with
          | Some r => mret r
          | None => short_option nargc options long_options idx flags
          end
      end
  end.

Definition getopt (fuel : nat) (nargc : Z) (options : option str) : GM Z :=
  getopt_internal fuel nargc options None None 0.

Definition getopt_long (fuel : nat) (nargc : Z) (options : option str)
    (long_options : option (list longopt)) (idx : ptr) : GM Z :=
  getopt_internal fuel nargc options long_options idx FLAG_PERMUTE.

Definition getopt_long_only (fuel : nat) (nargc : Z) (options : option str)
    (long_options : option (list longopt)) (idx : ptr) : GM Z :=
  getopt_internal fuel nargc options long_options idx (Z.lor FLAG_PERMUTE FLAG_LONGONLY).
End getopt.
