(* ===== verification/GetoptPermute.v ===== *)
(** [permute_args] exchanges two adjacent blocks of the argument vector.

    In positions relative to the start, each round moves from [r] to
    [(r - nnonopts) mod n].  The cycles through [nnonopts + i], for [i] below
    the greatest common divisor, are the residue classes modulo it, and each
    cycle moves the argument at every one of its positions one step on. *)
From Stdlib Require Import ZArith Lia Znumtheory.
From stdpp Require Import prelude gmap.
From S2P Require Import Prelude Getopt.

Local Open Scope Z_scope.

(** ** The greatest common divisor *)

Lemma gcd_loop_run fuel a b c s :
  0 <= c < b → c = a mod b → (Z.to_nat c < fuel)%nat →
  gcd_loop fuel a b c s = Some (Z.gcd a b, s).
Proof.
  revert a b c; induction fuel as [|fuel IH]; intros a b c Hc Ec Hf; [lia|].
  cbn [gcd_loop]. rewrite Z.gcd_comm, <-Z.gcd_mod by lia. rewrite <-Ec.
  destruct (Z.eqb_spec c 0) as [->|Hne].
  - rewrite Z.gcd_0_l, Z.abs_eq by lia. done.
  - unfold rem_. rewrite (proj2 (Z.eqb_neq c 0) Hne).
    rewrite (bind_run _ _ s (Z.rem b c) s) by done. rewrite Z.rem_mod_nonneg by lia.
    rewrite Z.gcd_comm. pose proof (Z.mod_pos_bound b c ltac:(lia)).
    apply IH; [lia|done|lia].
Qed.

Lemma gcd_run a b s : 0 <= a → 0 < b → gcd a b s = Some (Z.gcd a b, s).
Proof.
  intros Ha Hb. unfold gcd, rem_. rewrite (proj2 (Z.eqb_neq b 0)) by lia.
  rewrite (bind_run _ _ s (Z.rem a b) s) by done. rewrite Z.rem_mod_nonneg by lia.
  pose proof (Z.mod_pos_bound a b Hb). apply gcd_loop_run; [lia|done|lia].
Qed.

(** ** The vector *)

Definition with_nargv (l : list (option cptr)) (s : getopt_state) : getopt_state :=
  GetoptState (opterr s) (optind s) (optopt s) (optreset s) (optarg s) (place s)
    (nonopt_start s) (nonopt_end s) (posixly_correct s) l (ints s) (warnings s).

Lemma with_nargv_id s : with_nargv (nargv s) s = s.
Proof. by destruct s. Qed.

Lemma with_nargv_twice l k s : with_nargv l (with_nargv k s) = with_nargv l s.
Proof. done. Qed.

(** The element at an [int] index. *)
Definition at_ {A} (l : list A) (z : Z) : option A := l !! Z.to_nat z.

Lemma get_arg_run z v s : 0 <= z → at_ (nargv s) z = Some v → get_arg z s = Some (v, s).
Proof.
  intros Hz Hv. unfold get_arg. rewrite (proj2 (Z.ltb_ge z 0) Hz). unfold at_ in Hv.
  by rewrite Hv.
Qed.

Lemma set_arg_run z v s :
  0 <= z → is_Some (at_ (nargv s) z) →
  set_arg z v s = Some (tt, with_nargv (<[Z.to_nat z := v]> (nargv s)) s).
Proof.
  intros Hz [w Hw]. unfold set_arg. rewrite (proj2 (Z.ltb_ge z 0) Hz). unfold at_ in Hw.
  by rewrite Hw.
Qed.

Lemma at_insert_eq {A} (l : list A) z v :
  is_Some (at_ l z) → at_ (<[Z.to_nat z := v]> l) z = Some v.
Proof. intros H. unfold at_. apply list_lookup_insert_eq. by apply lookup_lt_is_Some. Qed.

Lemma at_insert_ne {A} (l : list A) y z v :
  0 <= y → 0 <= z → y ≠ z → at_ (<[Z.to_nat z := v]> l) y = at_ l y.
Proof. intros ???. unfold at_. apply list_lookup_insert_ne. lia. Qed.

Lemma at_is_Some {A} (l : list A) z : 0 <= z → is_Some (at_ l z) ↔ z < Z.of_nat (length l).
Proof. intros Hz. unfold at_. rewrite lookup_lt_is_Some. lia. Qed.

(** ** One cycle *)

Section cycle.
Context (e nn no : Z) (l : list (option cptr)).
(** The positions of the cycle, which comes back to its start after [L] steps. *)
Context (p : nat → Z) (L : nat).
Context (Hp : ∀ k, 0 <= p k < Z.of_nat (length l)).
Context (Hstep : ∀ k, (if e <=? p k then p k - nn else p k + no) = p (S k)).
Context (Hinj : ∀ i j, (i < L)%nat → (j < L)%nat → p i = p j → i = j).
Context (Hback : p L = p 0%nat) (HL : (0 < L)%nat).

(** After [k] rounds: the arguments on the way have moved one step on, the last
    of them is kept at the start, and the others are where they were. *)
Definition Moved (k : nat) (l' : list (option cptr)) : Prop :=
  length l' = length l ∧
  (∀ i, (i < k)%nat → at_ l' (p (S i)) = at_ l (p i)) ∧
  ((k < L)%nat → at_ l' (p 0%nat) = at_ l (p k)) ∧
  (∀ y, 0 <= y → (∀ i, (i <= k)%nat → y ≠ p i) → at_ l' y = at_ l y).

Lemma at_p k (l' : list (option cptr)) : length l' = length l → is_Some (at_ l' (p k)).
Proof. intros Hl. pose proof (Hp k). apply at_is_Some; lia. Qed.

Lemma moved_step k l' v w :
  (k < L)%nat → Moved k l' → at_ l' (p (S k)) = Some v → at_ l' (p 0%nat) = Some w →
  Moved (S k) (<[Z.to_nat (p 0%nat) := v]> (<[Z.to_nat (p (S k)) := w]> l')).
Proof.
  intros Hk (Hlen & Hmv & Hst & Hoth) Hv Hw.
  set (l1 := <[Z.to_nat (p (S k)) := w]> l').
  assert (Hl1 : length l1 = length l') by apply length_insert.
  pose proof (Hp (S k)) as Hpk. pose proof (Hp 0%nat) as Hp0.
  assert (Hs0 : is_Some (at_ l1 (p 0%nat))) by (apply at_p; lia).
  specialize (Hst Hk).
  destruct (Nat.eq_dec (S k) L) as [HkL|HkL].
  - (* back at the start: the last exchange changes nothing *)
    rewrite <-HkL in Hback. assert (v = w) as <- by (rewrite Hback in Hv; congruence).
    assert (∀ y, 0 <= y → at_ (<[Z.to_nat (p 0%nat) := v]> l1) y = at_ l' y) as Hsame.
    { intros y Hy. destruct (Z.eq_dec y (p 0%nat)) as [->|Hy0].
      - rewrite at_insert_eq by done. done.
      - rewrite at_insert_ne by lia. unfold l1. by rewrite at_insert_ne by lia. }
    split_and!; [by rewrite length_insert, Hl1| |lia|].
    + intros i Hi. pose proof (Hp (S i)). rewrite Hsame by lia.
      destruct (Nat.eq_dec i k) as [->|]; [|apply Hmv; lia].
      rewrite Hback, Hst. done.
    + intros y Hy Hny. rewrite Hsame by done. apply Hoth; [done|]. intros i Hi. apply Hny. lia.
  - assert (Hne : p (S k) ≠ p 0%nat) by (intros E; apply Hinj in E; lia).
    split_and!; [by rewrite length_insert, Hl1| | |].
    + intros i Hi. pose proof (Hp (S i)).
      assert (p (S i) ≠ p 0%nat) by (intros E; apply Hinj in E; lia).
      rewrite at_insert_ne by lia.
      destruct (Nat.eq_dec i k) as [->|].
      * unfold l1. rewrite at_insert_eq by by eexists. by rewrite <-Hst, Hw.
      * assert (p (S i) ≠ p (S k)) by (intros E; apply Hinj in E; lia).
        unfold l1. rewrite at_insert_ne by lia. apply Hmv. lia.
    + intros _. rewrite at_insert_eq by done. rewrite <-Hv. apply Hoth; [lia|].
      intros i Hi E. apply Hinj in E; lia.
    + intros y Hy Hny.
      assert (y ≠ p 0%nat) by (apply (Hny 0%nat); lia).
      assert (y ≠ p (S k)) by (apply (Hny (S k)); lia).
      unfold l1. rewrite !at_insert_ne by lia. apply Hoth; [done|]. intros i Hi. apply Hny. lia.
Qed.

Lemma permute_cycle_run j k s :
  (k + j <= L)%nat → Moved k (nargv s) →
  ∃ l', permute_cycle j e nn no (p 0%nat) (p k) s = Some (tt, with_nargv l' s) ∧
        Moved (k + j) l'.
Proof.
  revert k s; induction j as [|j IH]; intros k s Hk HM.
  { exists (nargv s). rewrite with_nargv_id, Nat.add_0_r. done. }
  cbn [permute_cycle]. rewrite Hstep. cbv zeta.
  assert (Hlen : length (nargv s) = length l) by apply HM.
  destruct (at_p (S k) _ Hlen) as [v Hv]. destruct (at_p 0%nat _ Hlen) as [w Hw].
  pose proof (Hp (S k)). pose proof (Hp 0%nat).
  rewrite (bind_run _ _ _ _ _ (get_arg_run (p (S k)) v s ltac:(lia) Hv)).
  rewrite (bind_run _ _ _ _ _ (get_arg_run (p 0%nat) w s ltac:(lia) Hw)).
  rewrite (bind_run _ _ _ _ _ (set_arg_run (p (S k)) w s ltac:(lia) (mk_is_Some _ _ Hv))).
  set (s1 := with_nargv _ s).
  assert (Hs1 : is_Some (at_ (nargv s1) (p 0%nat))) by (apply at_p; unfold s1; simpl; by rewrite length_insert).
  rewrite (bind_run _ _ _ _ _ (set_arg_run (p 0%nat) v s1 ltac:(lia) Hs1)).
  destruct (IH (S k) (with_nargv (<[Z.to_nat (p 0%nat) := v]> (nargv s1)) s1)) as (l' & E & HM');
    [lia|by apply moved_step; [lia|..]|].
  exists l'. split; [exact E|]. by rewrite Nat.add_succ_r.
Qed.

Lemma moved_0 : Moved 0 l.
Proof. split_and!; [done|lia|done|done]. Qed.
End cycle.

(** ** The cycles are the residue classes *)

Section classes.
Context (nn no : Z) (Hnn : 0 < nn) (Hno : 0 < no).
Local Abbreviation N := (nn + no).
Local Abbreviation g := (Z.gcd nn no).

Lemma g_pos : 0 < g.
Proof. pose proof (Z.gcd_nonneg nn no). pose proof (Z.gcd_eq_0_l nn no). lia. Qed.

Lemma g_nn : (g | nn).
Proof. apply Z.gcd_divide_l. Qed.

Lemma g_N : (g | N).
Proof. apply Z.divide_add_r; [apply Z.gcd_divide_l|apply Z.gcd_divide_r]. Qed.

Lemma g_gcd_N : Z.gcd nn N = g.
Proof. rewrite Z.add_comm, <-(Z.mul_1_l nn) at 1. by rewrite Z.mul_1_l, Z.gcd_add_diag_r. Qed.

(** The relative position after [k] steps from [c]. *)
Definition pos_after (c : Z) (k : nat) : Z := (c - Z.of_nat k * nn) mod N.

Lemma pos_after_bound c k : 0 <= pos_after c k < N.
Proof. apply Z.mod_pos_bound. lia. Qed.

Lemma pos_after_S c k : pos_after c (S k) = (pos_after c k - nn) mod N.
Proof.
  unfold pos_after. rewrite Zminus_mod_idemp_l. f_equal. lia.
Qed.

(** Dividing by [g]. *)
Lemma cycle_divide d : (N | d * nn) → (N / g | d).
Proof.
  intros Hd. pose proof g_pos. destruct g_N as [L HL]. destruct g_nn as [q Hq].
  assert (HLg : N / g = L) by (rewrite HL; apply Z.div_mul; lia).
  rewrite HLg.
  apply (Z.gauss L q d).
  - rewrite Z.mul_comm. apply (Z.mul_divide_cancel_r _ _ g); [lia|].
    rewrite <-HL. replace (d * q * g) with (d * nn); [done|]. rewrite Hq at 1. lia.
  - pose proof g_gcd_N as HG. rewrite Hq, HL in HG at 1.
    apply (Z.mul_reg_r _ _ g); [lia|]. rewrite Z.mul_1_l.
    rewrite <-(Z.abs_eq g) at 1 by lia. rewrite <-Z.gcd_mul_mono_r, Z.gcd_comm. exact HG.
Qed.

Lemma pos_after_inj c i j :
  (Z.of_nat i < N / g) → (Z.of_nat j < N / g) → pos_after c i = pos_after c j → i = j.
Proof.
  intros Hi Hj E. unfold pos_after in E.
  assert (N | (Z.of_nat j - Z.of_nat i) * nn) as Hd.
  { apply Z.cong_iff_0 in E. apply Z.mod_divide; [lia|]. rewrite <-E. f_equal. lia. }
  apply cycle_divide in Hd. destruct (Z.eq_dec (Z.of_nat j - Z.of_nat i) 0); [lia|].
  apply Z.divide_abs_l, Z.divide_abs_r in Hd. apply Z.divide_pos_le in Hd; lia.
Qed.

Lemma pos_after_back c : pos_after c (Z.to_nat (N / g)) = pos_after c 0.
Proof.
  unfold pos_after. pose proof g_pos. destruct g_N as [L HL]. destruct g_nn as [q Hq].
  assert (HLg : N / g = L) by (rewrite HL; apply Z.div_mul; lia).
  assert (0 <= L) by (destruct (Z.lt_ge_cases L 0); [nia|lia]).
  rewrite HLg, Z2Nat.id by lia.
  replace (c - L * nn) with (c - Z.of_nat 0 * nn + (- q) * N).
  - apply Z_mod_plus_full.
  - rewrite HL, Hq at 1. rewrite Hq at 1. lia.
Qed.

(** Every position of the class of [c] is reached. *)
Lemma pos_after_surj c r :
  0 <= r < N → r mod g = c mod g → ∃ k, Z.of_nat k < N / g ∧ pos_after c k = r.
Proof.
  intros Hr Hc. pose proof g_pos.
  assert (HL0 : 0 < N / g).
  { destruct g_N as [L HL]. rewrite HL, Z.div_mul by lia.
    destruct (Z.lt_ge_cases 0 L); [done|nia]. }
  destruct (Z.gcd_bezout nn N g g_gcd_N) as (u & v & Huv).
  assert (g | c - r) as [t Ht].
  { apply Z.mod_divide; [lia|]. apply Z.cong_iff_0. by symmetry. }
  set (k := (t * u) mod (N / g)).
  assert (0 <= k < N / g) as Hk by (apply Z.mod_pos_bound; lia).
  exists (Z.to_nat k). split; [lia|]. unfold pos_after. rewrite Z2Nat.id by lia.
  assert (∃ w, k * nn = t * u * nn + w * N) as [w Hw].
  { destruct g_N as [L HL]. destruct g_nn as [q Hq].
    assert (HLg : N / g = L) by (rewrite HL; apply Z.div_mul; lia).
    exists (- (t * u / (N / g)) * q). unfold k.
    pose proof (Z.div_mod (t * u) (N / g)) as Hdm.
    assert (E : (t * u) mod (N / g) = t * u - (N / g) * (t * u / (N / g))) by lia.
    rewrite E, HLg. clear - Hq HL. set (G := g) in *. clearbody G.
    set (D := t * u / L). rewrite HL. transitivity (t * u * nn - L * D * nn); [lia|].
    rewrite Hq at 2. lia. }
  rewrite Hw. replace (c - (t * u * nn + w * N)) with (r + (t * v - w) * N) by nia.
  rewrite Z_mod_plus_full. by apply Z.mod_small.
Qed.

Lemma mod_N_g z : (z mod N) mod g = z mod g.
Proof.
  pose proof g_pos. destruct g_N as [L HL].
  rewrite (Z.mod_eq z N) by lia. rewrite HL at 1.
  replace (z - L * g * (z / N)) with (z + - (L * (z / N)) * g) by lia.
  apply Z_mod_plus_full.
Qed.

Lemma minus_nn_g z : (z - nn) mod g = z mod g.
Proof.
  destruct g_nn as [q Hq]. rewrite Hq at 1.
  replace (z - q * g) with (z + - q * g) by lia. apply Z_mod_plus_full.
Qed.

Lemma pos_mod_g c k : pos_after c k mod g = c mod g.
Proof.
  induction k as [|k IH].
  - unfold pos_after. rewrite mod_N_g. f_equal. lia.
  - rewrite pos_after_S, mod_N_g, minus_nn_g. exact IH.
Qed.
End classes.

(** ** All cycles *)

Section cycles.
Context (st nn no : Z) (Hst : 0 <= st) (Hnn : 0 < nn) (Hno : 0 < no).
Local Abbreviation N := (nn + no).
Local Abbreviation g := (Z.gcd nn no).

Lemma g_le_no : g <= no.
Proof. apply Z.divide_pos_le; [lia|apply Z.gcd_divide_r]. Qed.

Lemma len_pos : 0 < N / g.
Proof.
  pose proof (g_pos nn no Hnn). apply Z.div_str_pos. pose proof g_le_no. lia.
Qed.

(** After [i] cycles the arguments of the residue classes below [i] have moved. *)
Definition Cycled (i : Z) (l l' : list (option cptr)) : Prop :=
  length l' = length l ∧
  (∀ r, 0 <= r < N →
     at_ l' (st + (r - nn) mod N)
     = at_ l (st + if r mod g <? i then r else (r - nn) mod N)) ∧
  (∀ y, 0 <= y → y < st ∨ st + N <= y → at_ l' y = at_ l y).

Lemma cycled_0 l : Cycled 0 l l.
Proof.
  pose proof (g_pos nn no Hnn).
  split_and!; [done| |done]. intros r Hr. pose proof (Z.mod_pos_bound r g ltac:(lia)).
  by rewrite (proj2 (Z.ltb_ge _ _)) by lia.
Qed.

Lemma pos_after_start i : 0 <= i < g → pos_after nn no (nn + i) 0 = nn + i.
Proof. intros Hi. pose proof g_le_no. unfold pos_after. rewrite Z.mod_small; lia. Qed.

Lemma start_mod i : 0 <= i < g → (nn + i) mod g = i.
Proof.
  intros Hi. destruct (g_nn nn no) as [q Hq]. rewrite Hq at 1.
  rewrite Z.add_comm, Z_mod_plus_full. by apply Z.mod_small.
Qed.

(** One step, at absolute positions. *)
Lemma pos_step c k :
  (if st + nn <=? st + pos_after nn no c k
   then st + pos_after nn no c k - nn else st + pos_after nn no c k + no)
  = st + pos_after nn no c (S k).
Proof.
  pose proof (pos_after_bound nn no Hnn Hno c k) as Hb. rewrite pos_after_S.
  destruct (Z.leb_spec (st + nn) (st + pos_after nn no c k)).
  - rewrite Z.mod_small; lia.
  - replace (pos_after nn no c k - nn) with (pos_after nn no c k + no + (-1) * N) by lia.
    rewrite Z_mod_plus_full, Z.mod_small; lia.
Qed.

Lemma cycled_step i l l' l'' :
  0 <= i < g → Cycled i l l' →
  Moved l' (λ k, st + pos_after nn no (nn + i) k) (Z.to_nat (N / g)) (Z.to_nat (N / g)) l'' →
  Cycled (i + 1) l l''.
Proof.
  intros Hi (Hlen & Hmv & Hout) (Hlen' & Hmv' & _ & Hout'). pose proof len_pos.
  pose proof (g_pos nn no Hnn).
  split_and!; [congruence| |].
  - intros r Hr. destruct (Z.eq_dec (r mod g) i) as [Eri|Nri].
    + rewrite (proj2 (Z.ltb_lt _ _)) by lia.
      destruct (pos_after_surj nn no Hnn Hno (nn + i) r Hr) as (k & Hk & Ek).
      { by rewrite start_mod. }
      specialize (Hmv' k ltac:(lia)). simpl in Hmv'. rewrite pos_after_S, Ek in Hmv' by done.
      rewrite Hmv'.
      (* the class has not been touched before *)
      set (r' := (r + nn) mod N). assert (0 <= r' < N) by (apply Z.mod_pos_bound; lia).
      assert (Er : (r' - nn) mod N = r).
      { unfold r'. rewrite Zminus_mod_idemp_l. rewrite Z.mod_small; lia. }
      pose proof (Hmv r' ltac:(done)) as H'. rewrite Er in H'. rewrite H'.
      rewrite (proj2 (Z.ltb_ge _ _)); [done|].
      rewrite <-Eri, <-Er, mod_N_g, minus_nn_g by done. lia.
    + rewrite Hout'.
      * rewrite Hmv by done. f_equal. f_equal.
        destruct (Z.ltb_spec (r mod g) i), (Z.ltb_spec (r mod g) (i + 1)); try done; lia.
      * pose proof (Z.mod_pos_bound (r - nn) N). lia.
      * intros k Hk E. apply Nri.
        assert (E' : (r - nn) mod N = pos_after nn no (nn + i) k) by lia.
        rewrite <-(minus_nn_g nn no r), <-(mod_N_g nn no Hnn Hno (r - nn)), E', pos_mod_g by done.
        by apply start_mod.
  - intros y Hy Hor. rewrite Hout', Hout; [done..|].
    intros k Hk E. pose proof (pos_after_bound nn no Hnn Hno (nn + i) k). lia.
Qed.

Lemma permute_cycles_run n i l s :
  i + Z.of_nat n = g → 0 <= i → st + N <= Z.of_nat (length l) → Cycled i l (nargv s) →
  ∃ l', permute_cycles n i (st + nn) nn no (N / g) s = Some (tt, with_nargv l' s) ∧
        Cycled g l l'.
Proof.
  revert i s; induction n as [|n IH]; intros i s Hi H0 Hlen HC.
  { exists (nargv s). rewrite with_nargv_id. split; [done|]. by replace g with i by lia. }
  cbn [permute_cycles]. cbv zeta. pose proof len_pos.
  assert (Hb : ∀ k, 0 <= st + pos_after nn no (nn + i) k < Z.of_nat (length (nargv s))).
  { intros k. pose proof (pos_after_bound nn no Hnn Hno (nn + i) k).
    destruct HC as (-> & _). lia. }
  destruct (permute_cycle_run (st + nn) nn no (nargv s)
    (λ k, st + pos_after nn no (nn + i) k) (Z.to_nat (N / g)) Hb) with
    (j := Z.to_nat (N / g)) (k := O) (s := s) as (l' & E & HM).
  - intros k. apply pos_step.
  - intros a b Ha Hb' E. apply (pos_after_inj nn no Hnn Hno (nn + i)); lia.
  - simpl. by rewrite pos_after_back.
  - lia.
  - lia.
  - apply moved_0. lia.
  - rewrite pos_after_start in E by lia. rewrite Z.add_assoc in E.
    rewrite (bind_run _ _ _ _ _ E).
    destruct (IH (i + 1) (with_nargv l' s)) as (l2 & E2 & HC2); [lia..| |].
    { apply (cycled_step i l (nargv s)); [lia|done|exact HM]. }
    by exists l2.
Qed.

Lemma permute_args_run s :
  st + N <= Z.of_nat (length (nargv s)) →
  ∃ l', permute_args st (st + nn) (st + N) s = Some (tt, with_nargv l' s) ∧
        Cycled g (nargv s) l'.
Proof.
  intros Hlen. unfold permute_args. cbv zeta.
  replace (st + nn - st) with nn by lia. replace (st + N - (st + nn)) with no by lia.
  replace (st + N - st) with N by lia. pose proof (g_pos nn no Hnn).
  rewrite (bind_run _ _ _ _ _ (gcd_run nn no s ltac:(lia) Hno)).
  rewrite (proj2 (Z.eqb_neq g 0)) by lia. rewrite Z.quot_div_nonneg by lia.
  apply permute_cycles_run; [lia..|apply cycled_0].
Qed.
End cycles.

(** ** The blocks *)

Lemma cycled_all st nn no l l' :
  0 <= st → 0 < nn → 0 < no → Cycled st nn no (Z.gcd nn no) l l' →
  (∀ r, 0 <= r < nn → at_ l' (st + no + r) = at_ l (st + r)) ∧
  (∀ r, 0 <= r < no → at_ l' (st + r) = at_ l (st + nn + r)).
Proof.
  intros Hst Hnn Hno (_ & Hmv & _). pose proof (g_pos nn no Hnn).
  assert (Hall : ∀ r, 0 <= r < nn + no →
    at_ l' (st + (r - nn) mod (nn + no)) = at_ l (st + r)).
  { intros r Hr. rewrite Hmv by done. pose proof (Z.mod_pos_bound r (Z.gcd nn no)).
    by rewrite (proj2 (Z.ltb_lt _ _)) by lia. }
  split; intros r Hr.
  - rewrite <-Hall by lia.
    replace (r - nn) with (no + r + (-1) * (nn + no)) by lia.
    rewrite Z_mod_plus_full, Z.mod_small by lia. f_equal. lia.
  - rewrite <-Z.add_assoc, <-Hall by lia. rewrite Z.mod_small by lia. f_equal. lia.
Qed.

Lemma at_nat {A} (l : list A) n : at_ l (Z.of_nat n) = l !! n.
Proof. unfold at_. by rewrite Nat2Z.id. Qed.

Lemma permute_blocks s pre A B post :
  A ≠ [] → B ≠ [] → nargv s = pre ++ A ++ B ++ post →
  permute_args (Z.of_nat (length pre)) (Z.of_nat (length pre + length A))
    (Z.of_nat (length pre + length A + length B)) s
  = Some (tt, with_nargv (pre ++ B ++ A ++ post) s).
Proof.
  intros HA HB El.
  assert (0 < length A)%nat by (destruct A; [done|simpl; lia]).
  assert (0 < length B)%nat by (destruct B; [done|simpl; lia]).
  destruct (permute_args_run (Z.of_nat (length pre)) (Z.of_nat (length A)) (Z.of_nat (length B)))
    with (s := s) as (l' & E & HC); [lia..| |].
  { rewrite El, !length_app. lia. }
  replace (Z.of_nat (length pre + length A)) with
    (Z.of_nat (length pre) + Z.of_nat (length A)) by lia.
  replace (Z.of_nat (length pre + length A + length B)) with
    (Z.of_nat (length pre) + (Z.of_nat (length A) + Z.of_nat (length B))) by lia.
  rewrite E. do 3 f_equal. rewrite El in HC.
  destruct (cycled_all _ _ _ _ _ (Nat2Z.is_nonneg (length pre)) ltac:(apply (inj_lt 0); exact H)
    ltac:(apply (inj_lt 0); exact H0) HC) as [H1 H2].
  destruct HC as (Hlen & _ & Hout). apply list_eq. intros i. rewrite <-(at_nat l').
  destruct (decide (i < length pre)%nat) as [Hi|Hi].
  { rewrite Hout by lia. rewrite at_nat, !lookup_app_l by done. done. }
  rewrite (lookup_app_r pre) by lia.
  destruct (decide (i < length pre + length B)%nat) as [Hi2|Hi2].
  { rewrite (lookup_app_l B) by lia.
    specialize (H2 (Z.of_nat (i - length pre)) ltac:(lia)).
    rewrite <-Nat2Z.inj_add in H2. replace (length pre + (i - length pre))%nat with i in H2 by lia.
    rewrite H2, <-!Nat2Z.inj_add, at_nat, lookup_app_r, lookup_app_r by lia.
    rewrite lookup_app_l by lia. f_equal. lia. }
  rewrite (lookup_app_r B) by lia.
  destruct (decide (i < length pre + length B + length A)%nat) as [Hi3|Hi3].
  { rewrite (lookup_app_l A) by lia.
    specialize (H1 (Z.of_nat (i - length pre - length B)) ltac:(lia)).
    rewrite <-!Nat2Z.inj_add in H1.
    replace (length pre + length B + (i - length pre - length B))%nat with i in H1 by lia.
    rewrite H1, at_nat, lookup_app_r by lia. rewrite lookup_app_l by lia. f_equal. lia. }
  rewrite Hout by lia. rewrite at_nat, !lookup_app_r by lia. f_equal. lia.
Qed.
