(* ===== verification/GetoptInvariant.v ===== *)
(** What the option parser keeps between two calls.

    The argument vector is [O ++ S ++ P ++ R]: arguments dealt with, non-options
    skipped, options found behind them, and what is left, the NULL included.
    [Merge (O ++ P) S M] says that the arguments looked at so far were, in their
    original order, a merge of the two sequences. *)
From Stdlib Require Import ZArith Lia.
From stdpp Require Import prelude gmap.
From S2P Require Import Prelude Getopt GetoptPermute.

Local Open Scope Z_scope.

(** [m] is a merge of [a] and [b]: both occur in it in order. *)
Inductive Merge {A} : list A → list A → list A → Prop :=
  | Merge_nil : Merge [] [] []
  | Merge_l a b m x : Merge a b m → Merge (a ++ [x]) b (m ++ [x])
  | Merge_r a b m x : Merge a b m → Merge a (b ++ [x]) (m ++ [x]).

Lemma Merge_perm {A} (a b m : list A) : Merge a b m → m ≡ₚ a ++ b.
Proof.
  induction 1 as [|a b m x _ IH|a b m x _ IH]; [done| |].
  - rewrite IH, <-!app_assoc. f_equiv. apply Permutation_app_comm.
  - by rewrite IH, app_assoc.
Qed.

Lemma Merge_only_l {A} (a : list A) : Merge a [] a.
Proof. induction a using rev_ind; constructor; done. Qed.

(** The part of the state the position in the argument vector is made of. *)
Definition ctl (s : getopt_state) : Z * cptr * Z * Z * list (option cptr) * Z :=
  (optind s, place s, nonopt_start s, nonopt_end s, nargv s, optreset s).

(** Nothing skipped; skipping non-options; at options behind skipped ones. *)
Inductive phase := plain | skipping | behind.

#[global] Instance phase_eq_dec : EqDecision phase.
Proof. solve_decision. Defined.

Section inv.
Context (strs : gmap positive str) (emsg : positive).

Definition lens (l : list (option cptr)) : nat := sum_list_with (λ a : option cptr,
  match a with Some p => S (length (default [] (strs !! p.1))) | None => O end) l.

(** An argument points to the start of a string. *)
Definition IsArg (a : option cptr) : Prop :=
  ∃ p t, a = Some (p, O) ∧ strs !! p = Some t.

(** Not an option: no dash, or nothing but a dash. *)
Definition NonOpt (a : option cptr) : Prop :=
  ∃ p t, a = Some (p, O) ∧ strs !! p = Some t ∧ (first_char t ≠ cDASH ∨ t = [cDASH]).

Section layout.
Context (args0 : list (option cptr)).
(** Whether non-options are skipped. *)
Context (perm : bool).

(** [Pieces O S P R]: how far the arguments [args0] have been sorted. *)
Record Pieces (O_ S_ P_ R_ l : list (option cptr)) : Prop := {
  pieces_l : l = O_ ++ S_ ++ P_ ++ R_ ++ [None];
  pieces_merge : ∃ M, Merge (O_ ++ P_) S_ M ∧ args0 = M ++ R_;
  pieces_O : O_ ≠ [];
  pieces_S : Forall NonOpt S_;
  pieces_R : Forall IsArg R_
}.


Definition Phase (ph : phase) (O_ S_ P_ : list (option cptr)) (ns ne : Z) : Prop :=
  match ph with
  | plain => ns = -1 ∧ ne = -1 ∧ S_ = [] ∧ P_ = []
  | skipping => ns = Z.of_nat (length O_) ∧ ne = -1 ∧ S_ ≠ [] ∧ P_ = []
  | behind => ns = Z.of_nat (length O_) ∧ ne = Z.of_nat (length O_ + length S_) ∧ S_ ≠ []
  end.

Definition PermPhase (ph : phase) : Prop := ph = plain ∨ perm = true.

Definition index (O_ S_ P_ : list (option cptr)) : Z :=
  Z.of_nat (length O_ + length S_ + length P_).

(** Between two arguments: [place] is at the end of a string.  [w] bounds the
    number of characters and arguments that are left. *)
Definition Idle (w : nat) (s : getopt_state) : Prop :=
  ∃ ph O_ S_ P_ R_ t,
    Pieces O_ S_ P_ R_ (nargv s) ∧
    Phase ph O_ S_ P_ (nonopt_start s) (nonopt_end s) ∧
    (ph = behind → P_ ≠ []) ∧ PermPhase ph ∧
    optind s = index O_ S_ P_ ∧ optreset s = 0 ∧
    strs !! (place s).1 = Some t ∧ (place s).2 = length t ∧
    (lens R_ <= w)%nat.

(** Inside the argument [t], before its character [n]. *)
Definition Inside (ph : phase) (O_ S_ P_ R_ : list (option cptr)) (p : positive) (t : str)
    (n : nat) (s : getopt_state) : Prop :=
  Pieces O_ S_ P_ (Some (p, O) :: R_) (nargv s) ∧
  Phase ph O_ S_ P_ (nonopt_start s) (nonopt_end s) ∧ (ph ≠ skipping ∧ PermPhase ph) ∧
  optind s = index O_ S_ P_ ∧ optreset s = 0 ∧
  strs !! p = Some t ∧ place s = (p, n).

Definition Busy (w : nat) (s : getopt_state) : Prop :=
  ∃ ph O_ S_ P_ R_ p t n, Inside ph O_ S_ P_ R_ p t n s ∧ (1 <= n < length t)%nat ∧
    (length t - n + lens R_ <= w)%nat.

Definition Between (w : nat) (s : getopt_state) : Prop := Idle w s ∨ Busy w s.

(** All options have been found: the non-options skipped are at [optind].  The
    arguments that follow have not been looked at: there are none, or [--] has
    been found, or the first of them is a non-option and [permute] is false. *)
Definition Finished (permute : bool) (s : getopt_state) : Prop :=
  ∃ opts nonopts rest M,
    nargv s = opts ++ nonopts ++ rest ++ [None] ∧
    Merge opts nonopts M ∧ args0 = M ++ rest ∧
    Forall NonOpt nonopts ∧ Forall IsArg rest ∧ opts ≠ [] ∧
    (rest = [] ∨
     (∃ p, last opts = Some (Some (p, O)) ∧ strs !! p = Some [cDASH; cDASH]) ∨
     (permute = false ∧ nonopts = [] ∧ ∃ a, head rest = Some a ∧ NonOpt a)) ∧
    optind s = Z.of_nat (length opts) ∧ optreset s = 0 ∧
    nonopt_start s = -1 ∧ nonopt_end s = -1 ∧ place s = (emsg, O).

(** ** Moving along the vector *)

Lemma pieces_total O_ S_ P_ R_ l :
  Pieces O_ S_ P_ R_ l → Z.of_nat (length args0) = index O_ S_ P_ + Z.of_nat (length R_).
Proof.
  intros [_ (M & HM & ->) _ _ _]. apply Merge_perm, Permutation_length in HM.
  unfold index. rewrite length_app, HM, !length_app. lia.
Qed.

Lemma index_nonneg O_ S_ P_ : 0 <= index O_ S_ P_.
Proof. unfold index. lia. Qed.

Lemma pieces_at O_ S_ P_ R_ l :
  Pieces O_ S_ P_ R_ l → at_ l (index O_ S_ P_) = Some (match R_ with a :: _ => a | [] => None end).
Proof.
  intros [-> _ _ _ _]. unfold at_, index. rewrite Nat2Z.id.
  replace (O_ ++ S_ ++ P_ ++ R_ ++ [None]) with ((O_ ++ S_ ++ P_) ++ (R_ ++ [None]))
    by by rewrite <-!app_assoc.
  rewrite lookup_app_r by (rewrite !length_app; lia). rewrite !length_app.
  replace (_ - _)%nat with O by lia. by destruct R_.
Qed.

(** The one after it. *)
Lemma pieces_next O_ S_ P_ a R_ l :
  Pieces O_ S_ P_ (a :: R_) l →
  at_ l (index O_ S_ P_ + 1) = Some (match R_ with b :: _ => b | [] => None end).
Proof.
  intros [-> _ _ _ _]. unfold at_, index. rewrite <-(Nat2Z.inj_add _ 1), Nat2Z.id.
  replace (O_ ++ S_ ++ P_ ++ (a :: R_) ++ [None]) with ((O_ ++ S_ ++ P_ ++ [a]) ++ (R_ ++ [None]))
    by by rewrite <-!app_assoc.
  rewrite lookup_app_r by (rewrite !length_app; simpl; lia). rewrite !length_app. simpl.
  replace (_ - _)%nat with O by lia. by destruct R_.
Qed.

Lemma pieces_read O_ S_ P_ R_ s :
  Pieces O_ S_ P_ R_ (nargv s) →
  get_arg (index O_ S_ P_) s = Some (match R_ with a :: _ => a | [] => None end, s).
Proof. intros H. apply get_arg_run; [apply index_nonneg|]. by eapply pieces_at. Qed.

Lemma lens_cons a R_ : lens (a :: R_) = (lens [a] + lens R_)%nat.
Proof. unfold lens. simpl. lia. Qed.

Lemma lens_arg p t : strs !! p = Some t → lens [Some (p, O)] = S (length t).
Proof. intros H. unfold lens. simpl. rewrite H. simpl. lia. Qed.

Lemma lens_is_arg a : IsArg a → (0 < lens [a])%nat.
Proof. intros (p & t & -> & H). rewrite (lens_arg p t H). lia. Qed.

(** The argument at [optind] joins the options. *)
Lemma pieces_take ph O_ S_ P_ a R_ l ns ne :
  Pieces O_ S_ P_ (a :: R_) l → Phase ph O_ S_ P_ ns ne → ph ≠ skipping →
  ∃ O' P', Pieces O' S_ P' R_ l ∧ Phase ph O' S_ P' ns ne ∧
    (ph = behind → P' ≠ []) ∧ index O' S_ P' = index O_ S_ P_ + 1 ∧
    O' ++ P' = (O_ ++ P_) ++ [a].
Proof.
  intros [-> (M & HM & ->) HO HS HR] Hph Hsk.
  assert (HM' : Merge (O_ ++ P_ ++ [a]) S_ (M ++ [a])) by (rewrite app_assoc; by constructor).
  apply Forall_cons in HR as [_ HR].
  destruct ph; [|done|].
  - destruct Hph as (-> & -> & -> & ->). exists (O_ ++ [a]), []. simpl in HM'.
    split_and!; [split| | |unfold index; rewrite length_app; simpl; lia|by rewrite !app_nil_r]; try done.
    + by rewrite <-app_assoc.
    + exists (M ++ [a]). rewrite app_nil_r, <-app_assoc. done.
    + by destruct O_.
  - destruct Hph as (-> & -> & HS').
    exists O_, (P_ ++ [a]).
    split_and!; [split| | |unfold index; rewrite length_app; simpl; lia|by rewrite app_assoc]; try done.
    + by rewrite <-!app_assoc.
    + exists (M ++ [a]). rewrite <-app_assoc. done.
    + intros _. by destruct P_.
Qed.

(** The options found behind the skipped non-options move in front of them. *)
Lemma pieces_permute O_ S_ P_ R_ s :
  Pieces O_ S_ P_ R_ (nargv s) → S_ ≠ [] → P_ ≠ [] →
  permute_args (Z.of_nat (length O_)) (Z.of_nat (length O_ + length S_)) (index O_ S_ P_) s
  = Some (tt, with_nargv (O_ ++ P_ ++ S_ ++ R_ ++ [None]) s).
Proof. intros [El _ _ _ _] HS HP. unfold index. by apply permute_blocks. Qed.

Lemma pieces_merged O_ S_ P_ R_ l :
  Pieces O_ S_ P_ R_ l → Pieces (O_ ++ P_) S_ [] R_ (O_ ++ P_ ++ S_ ++ R_ ++ [None]).
Proof.
  intros [_ HM HO HS HR]. split; [by rewrite <-app_assoc| |by destruct O_|done|done].
  by rewrite app_nil_r.
Qed.

(** The argument at [optind] is skipped. *)
Lemma pieces_skip O_ S_ a R_ l :
  Pieces O_ S_ [] (a :: R_) l → NonOpt a → Pieces O_ (S_ ++ [a]) [] R_ l.
Proof.
  intros [-> (M & HM & ->) HO HS HR] Ha. apply Forall_cons in HR as [_ HR]. split; [|
    |done|by apply Forall_app; split; [|constructor]|done].
  - by rewrite <-!app_assoc.
  - exists (M ++ [a]). split; [by constructor|by rewrite <-app_assoc].
Qed.
End layout.
End inv.
