(* ===== verification/GetoptProof.v ===== *)
(** The parts of [getopt_internal] keep the invariant of the option parser. *)
From Stdlib Require Import ZArith Lia.
From stdpp Require Import prelude gmap.
From S2P Require Import Prelude Getopt GetoptPermute GetoptInvariant.

Local Open Scope Z_scope.

(** ** Steps *)

Definition with_warnings (w : list warning) (s : getopt_state) : getopt_state :=
  GetoptState (opterr s) (optind s) (optopt s) (optreset s) (optarg s) (place s)
    (nonopt_start s) (nonopt_end s) (posixly_correct s) (nargv s) (ints s) w.

Lemma with_warnings_id s : with_warnings (warnings s) s = s.
Proof. by destruct s. Qed.

Lemma wp_print_error options w (Q : unit → getopt_state → Prop) s :
  (∀ ws, Q tt (with_warnings ws s)) → wp (print_error options w) Q s.
Proof.
  intros H. unfold print_error. apply wp_bind, wp_gets.
  destruct (_ && _); [apply wp_modify, H|]. apply wp_ret. rewrite <-with_warnings_id. apply H.
Qed.

Lemma wp_get_arg i v (Q : option cptr → getopt_state → Prop) s :
  0 <= i → at_ (nargv s) i = Some v → Q v s → wp (get_arg i) Q s.
Proof. intros. eapply wp_run; [by apply get_arg_run|done]. Qed.

(** The character number [k], NUL at the end. *)
Definition chr (t : str) (k : nat) : Z := default NUL (t !! k).

Lemma char_at_chr t k : (k <= length t)%nat → char_at t k = Some (chr t k).
Proof.
  intros Hk. unfold char_at, chr. case_decide as H.
  - by destruct (lookup_lt_is_Some_2 t k H) as [c ->].
  - rewrite decide_True by lia. by rewrite lookup_ge_None_2 by lia.
Qed.

Lemma chr_end t : chr t (length t) = NUL.
Proof. unfold chr. by rewrite lookup_ge_None_2. Qed.

(** One step of a computation whose value and effect are known. *)
Ltac wstep :=
  lazymatch goal with
  | |- wp (mbind _ _) _ _ => apply wp_bind
  | |- wp (gets _) _ _ => apply wp_gets
  | |- wp (mret _) _ _ => apply wp_ret
  | |- wp (print_error _ _) _ _ => apply wp_print_error; intros ?ws
  | |- wp (set_optind _) _ _ => apply wp_modify
  | |- wp (set_optopt _) _ _ => apply wp_modify
  | |- wp (set_optarg _) _ _ => apply wp_modify
  | |- wp (set_optreset _) _ _ => apply wp_modify
  | |- wp (set_place _) _ _ => apply wp_modify
  | |- wp (set_nonopt _ _) _ _ => apply wp_modify
  | |- wp (set_posixly_correct _) _ _ => apply wp_modify
  | |- wp (set_int _ _) _ _ => apply wp_modify
  end; cbn beta iota.
Ltac wsteps := repeat (wstep; simpl).

Section proof.
Context (strs : gmap positive str) (emsg : positive) (posix_env : bool).
Context (Hemsg : strs !! emsg = Some []).
(** The strings end at their first NUL. *)
Context (Hnul : map_Forall (λ _ t, NUL ∉ t) strs).

Lemma chr_nul q t k : strs !! q = Some t → (k < length t)%nat → chr t k ≠ NUL.
Proof.
  intros Hq Hk. unfold chr. destruct (lookup_lt_is_Some_2 t k Hk) as [c Hc]. rewrite Hc. simpl.
  intros ->. eapply Hnul; [exact Hq|]. by eapply list_elem_of_lookup_2.
Qed.

Lemma wp_rd p t n k (Q : Z → getopt_state → Prop) s :
  strs !! p = Some t → (n + k <= length t)%nat → Q (chr t (n + k)) s → wp (rd strs (p, n) k) Q s.
Proof.
  intros Hp Hk HQ. unfold wp, rd. simpl. rewrite Hp. simpl. rewrite char_at_chr by done. exact HQ.
Qed.

Lemma wp_string_at p t n (Q : str → getopt_state → Prop) s :
  strs !! p = Some t → (n <= length t)%nat → Q (drop n t) s → wp (string_at strs (p, n)) Q s.
Proof.
  intros Hp Hn HQ. unfold wp, string_at. simpl. rewrite Hp. simpl. by rewrite decide_True.
Qed.

Lemma wp_split_equal q p t n Q s :
  q = (p, n) → strs !! p = Some t → (n <= length t)%nat → (∀ cur eq, Q (cur, eq) s) →
  wp (split_equal strs q) Q s.
Proof.
  intros -> Hp Hn HQ. unfold split_equal. apply wp_bind. eapply wp_string_at; [done..|].
  destruct (strchr _ _); apply wp_ret, HQ.
Qed.

(** ** Long options *)

(** The state without what a long option sets. *)
Definition rest_of (s : getopt_state) :=
  (place s, nonopt_start s, nonopt_end s, nargv s, optreset s, opterr s, posixly_correct s).

(** No long option yields -1, the value that stands for "not found". *)
Definition NoMinusOne (longs : list longopt) : Prop :=
  Forall (λ o, flag o = None → val o ≠ -1) longs.

Lemma long_match_in opts cur short_too flags i m second :
  ∀ P : longopt → Prop, Forall P opts → (∀ j o, m = Some (j, o) → P o) →
  ∀ j o, (long_match opts cur short_too flags i m second).1.1 = Some (j, o) → P o.
Proof.
  intros P. revert i m second; induction opts as [|o opts IH]; intros i m second HP Hm j o' E; simpl in *.
  { by eapply Hm. }
  apply Forall_cons in HP as [Ho HP]. repeat case_match; simpl in *; simplify_eq; eauto.
  eapply IH; [done| |done]. intros ?? [=]; by subst.
Qed.

Section parse_long.
Context (args0 O_ S_ P_ R_ : list (option cptr)) (a : option cptr).
Context (options : str) (longs : list longopt) (idx : ptr) (short_too : bool) (flags : Z).

(** What [parse_long_options] does to the state: -1 and nothing, or it has used
    the argument, and the next one if it is there. *)
Definition LongDone (s : getopt_state) (r : Z) (s' : getopt_state) : Prop :=
  rest_of s' = rest_of s ∧
  ((short_too = true ∧ r = -1 ∧ optind s' = optind s) ∨
   ((NoMinusOne longs → r ≠ -1) ∧
    (optind s' = optind s + 1 ∨ R_ ≠ [] ∧ optind s' = optind s + 2))).

Lemma badarg_ne : BADARG options ≠ -1.
Proof. unfold BADARG. by case_match. Qed.

(** An error: the state changes nothing but the message and [optopt]. *)
Lemma wp_set_optopt_of o (Q : unit → getopt_state → Prop) s :
  (∀ v, Q tt (GetoptState (opterr s) (optind s) v (optreset s) (optarg s) (place s)
    (nonopt_start s) (nonopt_end s) (posixly_correct s) (nargv s) (ints s) (warnings s))) →
  wp (set_optopt_of o) Q s.
Proof. intros H. unfold set_optopt_of. case_match; apply H. Qed.

Lemma wp_parse_long p t n s :
  strs !! p = Some t → (n <= length t)%nat → place s = (p, n) →
  Pieces strs args0 O_ S_ P_ (a :: R_) (nargv s) → optind s = index O_ S_ P_ →
  wp (parse_long_options strs options longs idx short_too flags) (LongDone s) s.
Proof.
  intros Hp Hn Hpl HP Hoi. unfold parse_long_options.
  wsteps. eapply wp_split_equal; [done..|]. intros cur eq. cbv zeta beta iota.
  pose proof (long_match_in longs cur short_too flags 0 None false
    (λ o, NoMinusOne longs → flag o = None → val o ≠ -1)) as Hin.
  destruct (long_match _ _ _ _ _ _ _) as [[m exact] second]. simpl in Hin.
  destruct (negb exact && second).
  { wsteps. split; [done|]. right. split; [done|by left]. }
  destruct m as [[i o]|].
  2: { destruct short_too eqn:Est; wsteps.
       - split; [done|]. left. split_and!; [exact Est|done|simpl; lia].
       - split; [done|]. right. split; [done|by left]. }
  destruct (_ && bool_decide _).
  { wsteps. apply wp_set_optopt_of. intros v. wsteps.
    split; [done|]. right. split; [intros _; apply badarg_ne|by left]. }
  assert (Ho : NoMinusOne longs → flag o = None → val o ≠ -1).
  { eapply Hin; [|done|done]. apply Forall_forall. intros o' Ho' Hall.
    unfold NoMinusOne in Hall. rewrite Forall_forall in Hall. by apply Hall. }
  clear Hin. wstep.
  (* the argument of the option *)
  apply (wp_mono _ (λ _ s1, rest_of s1 = rest_of s ∧
    (optind s1 = optind s + 1 ∧ (has_arg o = required_argument → optarg s1 ≠ None) ∨
     optind s1 = optind s + 2 ∧ (R_ = [] → has_arg o = required_argument ∧ optarg s1 = None)))).
  { destruct (Z.eqb_spec (has_arg o) required_argument) as [Er|]; simpl.
    2: { destruct (_ =? _); [destruct eq|]; wsteps; (split; [done|]; by left). }
    destruct eq as [e|]; [wsteps; split; [done|]; by left|].
    wsteps. eapply wp_get_arg; [|simpl; rewrite Hoi; eapply pieces_next; exact HP|].
    { simpl. rewrite Hoi. pose proof (index_nonneg O_ S_ P_). lia. }
    wsteps. split; [done|]. right. split; [lia|]. by intros ->. }
  intros _ s1 (Hr1 & Hi1). wsteps.
  destruct (_ && bool_decide _) eqn:Hmiss.
  { apply andb_true_iff in Hmiss as [Hm1 Hm2]. wsteps. apply wp_set_optopt_of. intros v. wsteps.
    split; [done|]. right. split; [intros _; apply badarg_ne|].
    apply Z.eqb_eq in Hm1. apply bool_decide_eq_true in Hm2.
    destruct Hi1 as [[_ Hi1]|[-> _]]; [by destruct (Hi1 Hm1)|left; simpl; lia]. }
  wstep.
  apply (wp_mono _ (λ _ s2, rest_of s2 = rest_of s1 ∧ optind s2 = optind s1)).
  { destruct idx; wsteps; done. }
  intros _ s2 (Hr2 & Hi2).
  assert (Hend : rest_of s2 = rest_of s ∧
    (optind s2 = optind s + 1 ∨ R_ ≠ [] ∧ optind s2 = optind s + 2)).
  { split; [congruence|]. destruct Hi1 as [[Hi1 _]|[Hi1 HR]]; [left; congruence|].
    right. split; [|congruence]. intros HR'. destruct (HR HR') as [Ea Eo].
    rewrite Ea, Eo in Hmiss. by rewrite bool_decide_true in Hmiss. }
  destruct (flag o) eqn:Hf; wsteps; (split; [apply Hend|]; right; split; [|apply Hend]); auto.
Qed.
End parse_long.

(** ** The current argument is used up *)

Section steps.
Context (args0 : list (option cptr)) (perm : bool).
Local Abbreviation Pieces := (Pieces strs args0).
Local Abbreviation Idle := (Idle strs args0 perm).
Local Abbreviation Inside := (Inside strs args0 perm).
Local Abbreviation Between := (Between strs args0 perm).
Local Abbreviation lens := (lens strs).

(** One or two arguments are taken, and [place] is at the end of a string. *)
Lemma idle_taken ph O_ S_ P_ a R_ s s' q t' :
  Pieces O_ S_ P_ (a :: R_) (nargv s) →
  Phase ph O_ S_ P_ (nonopt_start s) (nonopt_end s) → ph ≠ skipping ∧ PermPhase perm ph →
  nargv s' = nargv s → nonopt_start s' = nonopt_start s → nonopt_end s' = nonopt_end s →
  optreset s' = 0 → place s' = (q, length t') → strs !! q = Some t' →
  (optind s' = index O_ S_ P_ + 1 ∨ R_ ≠ [] ∧ optind s' = index O_ S_ P_ + 2) →
  Idle (lens R_) s'.
Proof.
  intros HP Hph [Hsk Hpe] El E1 E2 Er Epl Hq Hoi.
  destruct (pieces_take _ _ _ _ _ _ _ _ _ _ _ HP Hph Hsk) as (O' & P' & HP' & Hph' & Hb & Hi & _).
  destruct Hoi as [Hoi|[HR Hoi]].
  - exists ph, O', S_, P', R_, t'. rewrite El, E1, E2, Epl. split_and!; try done. lia.
  - destruct R_ as [|b R_]; [done|].
    destruct (pieces_take _ _ _ _ _ _ _ _ _ _ _ HP' Hph' Hsk)
      as (O2 & P2 & HP2 & Hph2 & Hb2 & Hi2 & _).
    exists ph, O2, S_, P2, R_, t'. rewrite El, E1, E2, Epl. split_and!; try done; [lia|].
    rewrite (lens_cons strs b). lia.
Qed.

(** At [EMSG]. *)
Lemma idle_emsg ph O_ S_ P_ R_ p t n s s' :
  Inside ph O_ S_ P_ R_ p t n s →
  nargv s' = nargv s → nonopt_start s' = nonopt_start s → nonopt_end s' = nonopt_end s →
  optreset s' = 0 → place s' = EMSG emsg →
  (optind s' = index O_ S_ P_ + 1 ∨ R_ ≠ [] ∧ optind s' = index O_ S_ P_ + 2) →
  Idle (lens R_) s'.
Proof.
  intros (HP & Hph & Hsk & _) El E1 E2 Er Epl Hoi.
  by apply (idle_taken ph O_ S_ P_ (Some (p, O)) R_ s s' emsg []).
Qed.

Lemma between_ctl w s s' : ctl s' = ctl s → Between w s → Between w s'.
Proof.
  unfold ctl, GetoptInvariant.Between, GetoptInvariant.Idle, Busy, GetoptInvariant.Inside.
  intros [= -> -> -> -> -> ->]. done.
Qed.

(** After an option letter: the next one, or the next argument. *)
Lemma between_next ph O_ S_ P_ R_ p t n s s' :
  Inside ph O_ S_ P_ R_ p t n s → (n < length t)%nat →
  nargv s' = nargv s → nonopt_start s' = nonopt_start s → nonopt_end s' = nonopt_end s →
  optreset s' = 0 → place s' = (p, S n) →
  optind s' = (if decide (S n = length t) then optind s + 1 else optind s) →
  ∃ w, (w < length t - n + lens R_)%nat ∧ Between w s'.
Proof.
  intros HI Hn El E1 E2 Er Epl Hoi. pose proof HI as (HP & Hph & Hsk & Hi & _ & Hp & _).
  rewrite Hi in Hoi. case_decide as H.
  - exists (lens R_). split; [lia|]. left.
    apply (idle_taken ph O_ S_ P_ (Some (p, O)) R_ s s' p t); try done; [by rewrite Epl, H|by left].
  - exists (length t - S n + lens R_)%nat. split; [lia|]. right.
    exists ph, O_, S_, P_, R_, p, t, (S n). split; [|lia].
    unfold Inside. rewrite El, E1, E2. done.
Qed.

(** ** The two kinds of options *)

Section option.
Context (ph : phase) (O_ S_ P_ R_ : list (option cptr)) (p : positive) (t : str) (n : nat).
Context (options : str) (long_options : option (list longopt)) (idx : ptr) (flags : Z).
Context (Hlongs : from_option NoMinusOne True long_options).

Lemma wp_try_long s :
  Inside ph O_ S_ P_ R_ p t n s → (n < length t)%nat →
  wp (try_long strs emsg options long_options idx flags)
    (λ r s', match r with
             | Some r => r ≠ -1 ∧ Idle (lens R_) s'
             | None => Inside ph O_ S_ P_ R_ p t n s'
             end) s.
Proof.
  intros HI Hn. pose proof HI as (HP & Hph & Hsk & Hi & Hr & Hp & Hpl).
  unfold try_long. destruct long_options as [longs|]; [|by wsteps]. simpl in Hlongs.
  wsteps. rewrite Hi, Hpl. eapply wp_run; [eapply pieces_read, HP|]. cbn beta.
  wstep. eapply wp_rd; [done|lia|]. cbn beta.
  destruct (_ && _); [|by wsteps].
  (* the name starts one character on when the argument has two dashes *)
  wstep. set (long := chr t (n + 0) =? cDASH).
  apply (wp_mono _ (λ short_too s1, ∃ k, (k <= length t)%nat ∧ place s1 = (p, k) ∧
    (short_too = true → k = n) ∧ nargv s1 = nargv s ∧ nonopt_start s1 = nonopt_start s ∧
    nonopt_end s1 = nonopt_end s ∧ optreset s1 = 0 ∧ optind s1 = optind s)).
  { destruct long; wsteps.
    - exists (n + 1)%nat. split_and!; try done. lia.
    - exists n. split_and!; try done. lia. }
  intros short_too s1 (k & Hk & Hpl1 & Hkn & El1 & E11 & E21 & Er1 & Ei1). wstep.
  eapply wp_mono; [eapply wp_parse_long; [exact Hp|exact Hk|done|rewrite El1; exact HP|congruence]|].
  intros r s2 (Hrest & Hres). unfold rest_of in Hrest. simplify_eq/=.
  destruct Hres as [(-> & -> & Ei2)|(Hne & Ei2)].
  - wsteps. rewrite Hkn in * by done. unfold Inside, GetoptInvariant.Inside. split_and!; first [congruence|apply Hsk].
  - rewrite (proj2 (Z.eqb_neq r (-1))) by by apply Hne. simpl. wsteps. split; [by apply Hne|].
    eapply idle_emsg; [exact HI|simpl; congruence..|].
    simpl. rewrite Ei1, Hi in Ei2. done.
Qed.

Local Abbreviation w0 := (length t - n + lens R_)%nat.
(** No character is the -1 that ends the options. *)
Definition NoEnd : Prop := map_Forall (λ _ t, -1 ∉ t) strs.
Local Abbreviation Next := (λ (r : Z) s',
  (NoEnd → r ≠ -1) ∧ ∃ w, (w < w0)%nat ∧ Between w s').
Local Abbreviation nargc := (Z.of_nat (length args0)).

(** [nargv], the marks of the skipped non-options and [optreset] are as in [s]. *)
Definition Kept (s s' : getopt_state) : Prop :=
  nargv s' = nargv s ∧ nonopt_start s' = nonopt_start s ∧ nonopt_end s' = nonopt_end s ∧
  optreset s' = 0.

Lemma next_emsg s s' :
  Inside ph O_ S_ P_ R_ p t n s → (n < length t)%nat → Kept s s' → place s' = EMSG emsg →
  (optind s' = optind s + 1 ∨ R_ ≠ [] ∧ optind s' = optind s + 2) →
  ∃ w, (w < w0)%nat ∧ Between w s'.
Proof.
  intros HI Hn (El & E1 & E2 & Er) Epl Hoi. exists (lens R_). split; [lia|]. left.
  pose proof HI as (_ & _ & _ & Hi & _). rewrite Hi in Hoi. by eapply idle_emsg.
Qed.

(** The end of [getopt_internal] for a letter without argument, or an unknown
    one: [place] is one letter on. *)
Lemma wp_skip_letter (k : GM Z) (Q : Z → getopt_state → Prop) s s1 :
  Inside ph O_ S_ P_ R_ p t n s → (n < length t)%nat →
  Kept s s1 → place s1 = (p, S n) → optind s1 = optind s →
  (∀ s2, (∃ w, (w < w0)%nat ∧ Between w s2) → wp k Q s2) →
  wp (c ← rd strs (padd (p, n) 1) 0;
      (if c =? NUL then oi ← gets optind; set_optind (oi + 1) else mret tt);; k) Q s1.
Proof.
  intros HI Hn (El & E1 & E2 & Er) Epl Ei HQ. pose proof HI as (_ & _ & _ & _ & _ & Hp & _).
  wstep. unfold padd. simpl. eapply wp_rd; [done|lia|]. cbn beta. wstep.
  replace (n + 1 + 0)%nat with (S n) by lia.
  destruct (decide (S n = length t)) as [H|H].
  - rewrite H, chr_end. simpl. wsteps. apply HQ.
    eapply between_next; [exact HI|done..|]. simpl. rewrite decide_True by done. congruence.
  - rewrite (proj2 (Z.eqb_neq _ _)) by by (eapply chr_nul; [exact Hp|lia]). wsteps. apply HQ.
    eapply between_next; [exact HI|done..|]. by rewrite decide_False.
Qed.

Lemma wp_missing_arg optchar s :
  Inside ph O_ S_ P_ R_ p t n s → (n < length t)%nat →
  ∀ s1, Kept s s1 → optind s1 = optind s + 1 →
  wp (missing_arg emsg options optchar) Next s1.
Proof.
  intros HI Hn s1 HK Ei. unfold missing_arg. wsteps. split; [intros _; apply badarg_ne|].
  eapply next_emsg; [exact HI|done|exact HK|done|by left].
Qed.

(** [-W long-option]: the long option is the rest of the argument, or the next
    argument. *)
Lemma wp_W_option longs s s1 :
  NoMinusOne longs →
  Inside ph O_ S_ P_ R_ p t n s → (n < length t)%nat →
  Kept s s1 → place s1 = (p, S n) → optind s1 = optind s →
  wp (c ← rd strs (padd (p, n) 1) 0;
      if negb (c =? NUL) then
        r ← parse_long_options strs options longs idx false flags;
        set_place (EMSG emsg);; mret r
      else
        oi ← gets optind; set_optind (oi + 1);;
        if nargc <=? oi + 1 then missing_arg emsg options cW
        else
          a ← get_arg (oi + 1);
          p ← (match a with Some p => mret p | None => fail end);
          set_place p;;
          r ← parse_long_options strs options longs idx false flags;
          set_place (EMSG emsg);; mret r) Next s1.
Proof.
  intros Hm HI Hn HK Epl Ei. pose proof HI as (HP & Hph & Hsk & Hi & _ & Hp & _).
  pose proof HK as (El & E1 & E2 & Er).
  wstep. unfold padd. simpl. eapply wp_rd; [done|lia|]. cbn beta.
  destruct (negb _).
  { wstep. eapply wp_mono; [eapply (wp_parse_long args0 O_ S_ P_ R_ _ _ _ _ _ _ p t (S n));
      [done|lia|done|rewrite El; exact HP|congruence]|].
    intros r s2 (Hrest & Hres). unfold rest_of in Hrest. simplify_eq/=. wsteps.
    destruct Hres as [(? & _)|(Hne & Ei2)]; [done|]. split; [auto|].
    eapply next_emsg; [exact HI|done| |done|simpl; by rewrite Ei in Ei2].
    unfold Kept; simpl; split_and!; congruence. }
  wsteps. destruct (Z.leb_spec nargc (optind s1 + 1)) as [Hl|Hl].
  { eapply (wp_missing_arg _ s); [exact HI|done|done|simpl; lia]. }
  pose proof (pieces_total _ _ _ _ _ _ _ HP) as Htot. simpl in Htot.
  destruct R_ as [|b R'] eqn:ER; [simpl in Htot; lia|].
  destruct (pieces_take _ _ _ _ _ _ _ _ _ _ _ HP Hph (proj1 Hsk)) as (O' & P' & HP' & Hph' & _ & Hi' & _).
  pose proof (pieces_R _ _ _ _ _ _ _ HP') as [(q & u & -> & Hu) _]%Forall_cons.
  wsteps. rewrite Ei, Hi, <-Hi'.
  eapply wp_run; [by eapply pieces_read; simpl; rewrite El|]. cbn beta. wsteps.
  eapply wp_mono; [eapply (wp_parse_long args0 O' S_ P' R' _ _ _ _ _ _ q u 0);
    [done|lia|done|simpl; rewrite El; exact HP'|done]|].
  intros r s2 (Hrest & Hres). unfold rest_of in Hrest. simplify_eq/=. wsteps.
  destruct Hres as [(? & _)|(Hne & Ei2)]; [done|]. split; [auto|].
  exists (lens R'). split; [lia|]. left.
  apply (idle_taken ph O' S_ P' (Some (q, O)) R' s _ emsg []); simpl; try done; congruence.
Qed.

(** An option letter with an argument. *)
Lemma wp_letter_with_arg optchar oli s s1 :
  Inside ph O_ S_ P_ R_ p t n s → (n < length t)%nat → (2 <= length oli)%nat →
  (NoEnd → optchar ≠ -1) →
  Kept s s1 → place s1 = (p, S n) → optind s1 = optind s →
  wp (set_optarg None;;
      c ← rd strs (padd (p, n) 1) 0;
      if negb (c =? NUL) then
        set_optarg (Some (padd (p, n) 1));;
        set_place (EMSG emsg);;
        oi ← gets optind; set_optind (oi + 1);;
        mret optchar
      else
        o2 ← (λ s, c ← char_at oli 2; Some (c, s));
        if negb (o2 =? cCOLON) then
          oi ← gets optind; set_optind (oi + 1);;
          if nargc <=? oi + 1 then missing_arg emsg options optchar
          else
            a ← get_arg (oi + 1);
            set_optarg a;;
            set_place (EMSG emsg);;
            oi ← gets optind; set_optind (oi + 1);;
            mret optchar
        else
          set_place (EMSG emsg);;
          oi ← gets optind; set_optind (oi + 1);;
          mret optchar) Next s1.
Proof.
  intros HI Hn Ho Hne HK Epl Ei. pose proof HI as (HP & Hph & Hsk & Hi & _ & Hp & _).
  pose proof HK as (El & E1 & E2 & Er).
  unfold padd. wsteps. eapply wp_rd; [done|lia|]. cbn beta. destruct (negb _).
  { wsteps. split; [done|]. eapply next_emsg; [exact HI|done|exact HK|done|left; simpl; lia]. }
  wstep. eapply wp_run; [rewrite (char_at_chr oli 2) by done; done|]. cbn beta.
  destruct (negb _).
  2: { wsteps. split; [done|]. eapply next_emsg; [exact HI|done|exact HK|done|left; simpl; lia]. }
  wsteps. destruct (Z.leb_spec nargc (optind s1 + 1)) as [Hl|Hl].
  { eapply (wp_missing_arg _ s); [exact HI|done|exact HK|simpl; lia]. }
  pose proof (pieces_total _ _ _ _ _ _ _ HP) as Htot. simpl in Htot.
  wsteps. rewrite Ei, Hi.
  eapply wp_get_arg; [|simpl; rewrite El; by eapply pieces_next|].
  { pose proof (index_nonneg O_ S_ P_). lia. }
  wsteps. split; [done|]. eapply next_emsg; [exact HI|done|exact HK|done|right; simpl].
  split; [|lia]. intros ->. simpl in Htot. lia.
Qed.

Lemma strchr_length l c r : strchr l c = Some r → c ≠ NUL → (1 <= length r)%nat.
Proof.
  intros H Hc. induction l as [|x l IH]; simpl in H; case_match; simplify_eq; auto; [|simpl; lia].
  by apply Z.eqb_eq in H0.
Qed.

Lemma wp_short_option s :
  Inside ph O_ S_ P_ R_ p t n s → (n < length t)%nat →
  wp (short_option strs emsg nargc options long_options idx flags) Next s.
Proof.
  intros HI Hn. pose proof HI as (HP & Hph & Hsk & Hi & Hr & Hp & Hpl).
  unfold short_option. wsteps. rewrite Hpl. eapply wp_rd; [done|lia|]. cbn beta zeta.
  set (optchar := chr t (n + 0)).
  assert (Hc : optchar ≠ NUL) by (eapply chr_nul; [exact Hp|lia]).
  assert (Hne : NoEnd → optchar ≠ -1).
  { intros HE. unfold optchar, chr. destruct (lookup_lt_is_Some_2 t (n + 0)) as [c Ec]; [lia|].
    rewrite Ec. simpl. intros ->. eapply HE; [exact Hp|]. by eapply list_elem_of_lookup_2. }
  wsteps. set (s1 := GetoptState _ _ _ _ _ _ _ _ _ _ _ _).
  assert (HK : Kept s s1) by done.
  assert (Epl : place s1 = (p, S n)) by (unfold s1, padd; simpl; f_equal; lia).
  destruct (if optchar =? cCOLON then None else strchr options optchar) as [oli|] eqn:Eo.
  2: { eapply wp_skip_letter; [exact HI|done|exact HK|done|done|]. intros s2 (w & Hw & HB). wsteps.
       split; [done|]. exists w. split; [done|]. by eapply between_ctl; [|exact HB]. }
  assert (1 <= length oli)%nat.
  { destruct (_ =? _); [done|]. by eapply strchr_length. }
  wstep. eapply wp_run; [rewrite (char_at_chr oli 1) by done; done|]. cbn beta.
  destruct (is_given _ && _ && _) eqn:HW.
  { apply andb_true_iff in HW as [[_ ->%Z.eqb_eq]%andb_true_iff _].
    eapply wp_W_option; try done. destruct long_options; [done|constructor]. }
  destruct (Z.eqb_spec (chr oli 1) cCOLON) as [Ec|Ec]; simpl.
  - eapply wp_letter_with_arg; try done.
    destruct oli as [|? [|? ?]]; [done|by exfalso|simpl; lia].
  - eapply wp_skip_letter; [exact HI|done|exact HK|done|done|]. intros s2 (w & Hw & HB). wsteps.
    split; [done|]. by exists w.
Qed.
End option.

(** ** Looking for the next option *)

Section scan.
Context (options : str) (flags : Z).
Local Abbreviation nargc := (Z.of_nat (length args0)).
Local Abbreviation permute := (has_flag flags FLAG_PERMUTE || has_flag flags FLAG_ALLARGS).

(** In an argument, with at most [w] characters and arguments to come. *)
Definition InArg (w : nat) (s : getopt_state) : Prop :=
  ∃ ph O_ S_ P_ R_ p t n, Inside ph O_ S_ P_ R_ p t n s ∧ (n < length t)%nat ∧
    (length t - n + lens R_ <= w)%nat.

Lemma phase_end ph O_ S_ P_ ns ne :
  Phase ph O_ S_ P_ ns ne → (ne =? -1) = negb (bool_decide (ph = behind)).
Proof.
  destruct ph; simpl; intros H; [apply Z.eqb_eq; tauto..|].
  destruct H as (_ & -> & _). apply Z.eqb_neq. lia.
Qed.

(** The options found behind the non-options are moved to the front. *)
Lemma wp_finish_permute (Q : unit → getopt_state → Prop) O_ S_ P_ R_ s :
  Pieces O_ S_ P_ R_ (nargv s) → Phase behind O_ S_ P_ (nonopt_start s) (nonopt_end s) →
  P_ ≠ [] → optind s = index O_ S_ P_ →
  (∀ s', nargv s' = (O_ ++ P_) ++ S_ ++ R_ ++ [None] →
    optind s' = Z.of_nat (length (O_ ++ P_)) → optreset s' = optreset s → place s' = place s →
    Q tt s') →
  wp finish_permute Q s.
Proof.
  intros HP (E1 & E2 & HS) HP' Hi HQ. unfold finish_permute. wsteps. rewrite E1, E2, Hi.
  eapply wp_run; [apply (pieces_permute strs args0 O_ S_ P_ R_ s HP HS HP')|]. cbn beta. wsteps.
  apply HQ; simpl; [by rewrite <-app_assoc| |done..].
  unfold index. rewrite length_app. lia.
Qed.

(** After the last option, before the marks are reset. *)
Lemma finished_intro O_ S_ P_ R_ l s :
  Pieces O_ S_ P_ R_ l →
  (R_ = [] ∨ (∃ p, last (O_ ++ P_) = Some (Some (p, O)) ∧ strs !! p = Some [cDASH; cDASH]) ∨
   permute = false ∧ S_ = [] ∧ ∃ a, head R_ = Some a ∧ NonOpt strs a) →
  nargv s = (O_ ++ P_) ++ S_ ++ R_ ++ [None] →
  optind s = Z.of_nat (length (O_ ++ P_)) → optreset s = 0 → place s = (emsg, O) →
  nonopt_start s = -1 → nonopt_end s = -1 → Finished strs emsg args0 permute s.
Proof.
  intros [_ (M & HM & HA) HO HS HR] Hend El Ei Er Epl E1 E2.
  exists (O_ ++ P_), S_, R_, M. split_and!; try done. by destruct O_.
Qed.

Lemma wp_scan_end fuel ph O_ S_ P_ s :
  Pieces O_ S_ P_ [] (nargv s) → Phase ph O_ S_ P_ (nonopt_start s) (nonopt_end s) →
  (ph = behind → P_ ≠ []) → optind s = index O_ S_ P_ →
  wp (scan strs emsg (S fuel) nargc options flags)
    (λ r s', r = Some (-1) ∧ Finished strs emsg args0 permute s') s.
Proof.
  intros HP Hph Hb Hi. cbn [scan]. wsteps.
  pose proof (pieces_total _ _ _ _ _ _ _ HP) as Htot. simpl in Htot.
  rewrite (proj2 (Z.leb_le _ _)) by lia. wsteps.
  rewrite (phase_end _ _ _ _ _ _ Hph), negb_involutive.
  pose proof (pieces_l _ _ _ _ _ _ _ HP) as El.
  case_bool_decide as Hbe; [subst ph|].
  - eapply wp_finish_permute; [done|done|by apply Hb|done|]. intros s' El' Ei' Er' Epl'. wsteps.
    split; [done|]. eapply finished_intro; [exact HP|by left|done..].
  - destruct ph; [| |done]; simpl in Hph.
    + destruct Hph as (-> & E2 & -> & ->). simpl. wsteps. split; [done|].
      eapply finished_intro; [exact HP|by left| |..]; simpl; try done.
      * by rewrite El, app_nil_r.
      * rewrite Hi. unfold index. rewrite app_nil_r. simpl. lia.
    + destruct Hph as (E1 & E2 & HS & ->). rewrite E1, (proj2 (Z.eqb_neq _ _)) by lia. simpl. wsteps.
      split; [done|]. eapply finished_intro; [exact HP|by left| |..]; simpl; try done;
        by rewrite app_nil_r.
Qed.

(** What [scan] leaves. *)
Definition Scanned (w : nat) (found : option Z) (s : getopt_state) : Prop :=
  match found with
  | Some r => r = -1 ∧ Finished strs emsg args0 permute s ∨
              r ≠ -1 ∧ ∃ w', (w' < w)%nat ∧ Idle w' s
  | None => ∃ w', (w' < w)%nat ∧ InArg w' s
  end.

Lemma scanned_weaken w w' found s : (w <= w')%nat → Scanned w found s → Scanned w' found s.
Proof.
  intros Hw. destruct found as [r|]; [intros [?|(? & v & ? & ?)]|intros (v & ? & ?)];
    [by left|right; split; [done|]; exists v|exists v]; (split; [lia|done]).
Qed.

Context (Hperm : perm = has_flag flags FLAG_PERMUTE && negb (has_flag flags FLAG_ALLARGS)).

(** A non-option is skipped. *)
Lemma wp_skip (k : GM (option Z)) (Q : option Z → getopt_state → Prop) ph O_ S_ P_ R_ a s :
  Pieces O_ S_ P_ (a :: R_) (nargv s) → Phase ph O_ S_ P_ (nonopt_start s) (nonopt_end s) →
  (ph = behind → P_ ≠ []) → optind s = index O_ S_ P_ → optreset s = 0 → NonOpt strs a →
  (∀ s' O' S', Pieces O' S' [] R_ (nargv s') →
    Phase skipping O' S' [] (nonopt_start s') (nonopt_end s') →
    optind s' = index O' S' [] → optreset s' = 0 → wp k Q s') →
  wp (if nonopt_start s =? -1 then set_nonopt (optind s) (nonopt_end s)
      else if negb (nonopt_end s =? -1) then
        permute_args (nonopt_start s) (nonopt_end s) (optind s);;
        set_nonopt (optind s - (nonopt_end s - nonopt_start s)) (-1)
      else mret tt) (λ _, wp (set_optind (optind s + 1);; k) Q) s.
Proof.
  intros HP Hph Hb Hi Hr Ha Hk. destruct ph; simpl in Hph.
  - destruct Hph as (E1 & E2 & -> & ->). rewrite E1, E2. simpl. wsteps. apply (Hk _ O_ [a]); simpl; try done.
    + by apply (pieces_skip strs args0 O_ []).
    + rewrite Hi. unfold index. simpl. split_and!; try done. lia.
    + rewrite Hi. unfold index. simpl. lia.
  - destruct Hph as (E1 & E2 & HS & ->). rewrite E1, E2, (proj2 (Z.eqb_neq _ _)) by lia. simpl.
    wsteps. apply (Hk _ O_ (S_ ++ [a])); simpl; try done.
    + by apply pieces_skip.
    + split_and!; [done|done|by destruct S_|done].
    + rewrite Hi. unfold index. rewrite length_app. simpl. lia.
  - pose proof Hph as (E1 & E2 & HS). rewrite E1, E2, !(proj2 (Z.eqb_neq _ _)) by lia. simpl.
    wsteps. rewrite Hi at 1.
    eapply wp_run; [apply (pieces_permute strs args0 O_ S_ P_ _ s HP HS (Hb eq_refl))|].
    cbn beta. wsteps. apply (Hk _ (O_ ++ P_) (S_ ++ [a])); simpl; try done.
    + apply pieces_skip; [by eapply pieces_merged|done].
    + rewrite Hi. unfold index. rewrite length_app. split_and!; [lia|done|by destruct S_|done].
    + rewrite Hi. unfold index. rewrite !length_app. simpl. lia.
Qed.

Lemma first_char_chr (u : str) : first_char u = chr u 0.
Proof. by destruct u. Qed.

(** The test for a non-option. *)
Lemma wp_non_option q u s :
  strs !! q = Some u →
  wp (c0 ← rd strs (q, O) 0;
      if negb (c0 =? cDASH) then mret true
      else
        c1 ← rd strs (q, O) 1;
        mret ((c1 =? NUL) && bool_decide (strchr options cDASH = None)))
    (λ b s', s' = s ∧
      if (b : bool) then NonOpt strs (Some (q, O)) else u = [cDASH] ∨ ∃ c u', u = cDASH :: c :: u') s.
Proof.
  intros Hu. wstep. eapply wp_rd; [done|lia|]. cbn beta. simpl.
  destruct (Z.eqb_spec (chr u 0) cDASH) as [E|E]; simpl.
  2: { wsteps. split; [done|]. exists q, u. split_and!; try done. left. by rewrite first_char_chr. }
  destruct u as [|c u]; [done|]. unfold chr in E. simpl in E. subst c.
  wstep. eapply wp_rd; [done|simpl; lia|]. cbn beta. wsteps. split; [done|].
  destruct u as [|c u].
  - case_match; [|by left]. exists q, [cDASH]. split_and!; try done. by right.
  - rewrite (proj2 (Z.eqb_neq _ _)); [|by eapply (chr_nul q); [exact Hu|simpl; lia]].
    simpl. right. by eexists _, _.
Qed.

(** An argument with a dash: the options are over, or [place] is in it. *)
Lemma wp_option_arg ph O_ S_ P_ R_ q u s :
  Inside ph O_ S_ P_ R_ q u 0 s → (u = [cDASH] ∨ ∃ c u', u = cDASH :: c :: u') →
  wp (c1 ← rd strs (q, O) 1;
      if c1 =? NUL then mret None
      else
        set_place (padd (q, O) 1);;
        c2 ← (if c1 =? cDASH then c2 ← rd strs (q, O) 2; mret (c2 =? NUL) else mret false);
        if (c2 : bool) then
          set_optind (optind s + 1);;
          set_place (EMSG emsg);;
          ne ← gets nonopt_end;
          (if negb (ne =? -1) then finish_permute else mret tt);;
          set_nonopt (-1) (-1);;
          mret (Some (-1))
        else mret None) (Scanned (S (length u + lens R_))) s.
Proof.
  intros HI Hu. pose proof HI as (HP & Hph & Hsk & Hi & Hr & Hq & Hpl).
  assert (1 <= length u)%nat by (destruct Hu as [->|(c & u' & ->)]; simpl; lia).
  wstep. eapply wp_rd; [done|lia|]. cbn beta.
  destruct Hu as [->|(c & u' & ->)].
  { wsteps. exists (1 + lens R_)%nat. split; [lia|]. exists ph, O_, S_, P_, R_, q, [cDASH], O.
    split; [exact HI|simpl; lia]. }
  set (u := cDASH :: c :: u') in *.
  rewrite (proj2 (Z.eqb_neq _ _)) by (by eapply (chr_nul q); [exact Hq|simpl; lia]).
  wsteps. apply (wp_mono _ (λ b s1, s1 = GetoptState (opterr s) (optind s) (optopt s) (optreset s)
    (optarg s) (q, 1%nat) (nonopt_start s) (nonopt_end s) (posixly_correct s) (nargv s)
    (ints s) (warnings s) ∧ (b = true → u = [cDASH; cDASH]))).
  { destruct (Z.eqb_spec (chr u 1) cDASH) as [E|E]; [|wsteps; split; [done|done]].
    wstep. eapply wp_rd; [done|simpl; lia|]. cbn beta. wsteps. split; [done|].
    intros Hz%Z.eqb_eq. unfold chr, u in E. simpl in E. subst c. destruct u' as [|c u']; [done|].
    by apply (chr_nul q u 2) in Hz; [|exact Hq|simpl; lia]. }
  intros [|] s1 (-> & Hdd).
  2: { wsteps. exists (S (length u') + lens R_)%nat. split; [unfold u; simpl; lia|].
       exists ph, O_, S_, P_, R_, q, u, 1%nat. split; [|simpl; lia].
       unfold Inside, GetoptInvariant.Inside. simpl. done. }
  wsteps. destruct (pieces_take _ _ _ _ _ _ _ _ _ _ _ HP Hph (proj1 Hsk))
    as (O' & P' & HP' & Hph' & Hb' & Hi' & Hlast).
  rewrite (phase_end _ _ _ _ _ _ Hph), negb_involutive.
  assert (Hend : ∃ p, last (O' ++ P') = Some (Some (p, O)) ∧ strs !! p = Some [cDASH; cDASH]).
  { exists q. rewrite Hlast, last_snoc. split; [done|]. by rewrite <-Hdd. }
  case_bool_decide as Hbe; [subst ph|].
  - eapply wp_finish_permute; [exact HP'|exact Hph'|by apply Hb'|simpl; congruence|].
    intros s' El' Ei' Er' Epl'. wsteps. left. split; [done|].
    eapply finished_intro; [exact HP'|right; by left|done|done|simpl; by rewrite Er'|done..].
  - destruct ph; [|by destruct Hsk as [? _]|done]. destruct Hph' as (_ & _ & -> & ->). wsteps.
    left. split; [done|]. eapply finished_intro; [exact HP'|right; by left| | |done..]; simpl.
    + by rewrite (pieces_l _ _ _ _ _ _ _ HP'), app_nil_r.
    + rewrite Hi, <-Hi'. unfold index. rewrite app_nil_r. simpl. lia.
Qed.

Lemma wp_scan fuel : ∀ ph O_ S_ P_ R_ s,
  Pieces O_ S_ P_ R_ (nargv s) → Phase ph O_ S_ P_ (nonopt_start s) (nonopt_end s) →
  (ph = behind → P_ ≠ []) → PermPhase perm ph → optind s = index O_ S_ P_ →
  (length R_ < fuel)%nat →
  wp (scan strs emsg fuel nargc options flags) (Scanned (lens R_)) s.
Proof.
  induction fuel as [|fuel IH]; intros ph O_ S_ P_ R_ s HP Hph Hb Hpe Hi Hf; [lia|].
  destruct R_ as [|a R_].
  { eapply wp_mono; [by eapply wp_scan_end|]. intros r s' [-> HF]. by left. }
  pose proof (pieces_R _ _ _ _ _ _ _ HP) as [(q & u & -> & Hq) _]%Forall_cons.
  pose proof (pieces_total _ _ _ _ _ _ _ HP) as Htot. simpl in Htot.
  cbn [scan]. wsteps. rewrite (proj2 (Z.leb_gt _ _)) by lia. wstep.
  rewrite Hi at 1. eapply wp_run; [eapply pieces_read; exact HP|]. cbn beta. wsteps.
  apply wp_join. eapply wp_mono; [by eapply (wp_non_option q u)|].
  intros no s1 (-> & Hno). destruct no.
  - wsteps. destruct (has_flag flags FLAG_ALLARGS) eqn:Hall.
    + (* [INORDER] *)
      wsteps. rewrite Hi. eapply wp_run; [eapply pieces_read; simpl; exact HP|]. cbn beta. wsteps.
      right. split; [done|]. exists (lens R_). split; [simpl; lia|].
      destruct Hpe as [->|Hpe]; [|by rewrite Hperm, andb_false_r in Hpe].
      eapply (idle_taken plain O_ S_ P_ (Some (q, O)) R_ s _ emsg []); [done|done|split; [done|by left]|
        done..|by left].
    + destruct (has_flag flags FLAG_PERMUTE) eqn:Hper; simpl.
      * wsteps. match goal with |- wp _ _ ?s2 => eapply (wp_skip _ _ ph O_ S_ P_ R_ (Some (q, O)) s2) end; [exact HP|exact Hph|done|exact Hi|done..|].
        intros s' O' S' HP' Hph' Hi' Hr'.
        eapply wp_mono; [eapply (IH skipping O' S' [] R_ s'); try done; [|simpl in Hf; lia]|].
        { right. by rewrite Hperm. }
        intros r s2. apply scanned_weaken. simpl. lia.
      * wsteps. left. split; [done|].
        destruct Hpe as [->|Hpe]; [|by rewrite Hperm in Hpe].
        destruct Hph as (E1 & E2 & -> & ->).
        eapply (finished_intro O_ [] [] (Some (q, O) :: R_)); [exact HP| | | |done..]; simpl; try done.
        -- right; right. rewrite Hper, Hall. split_and!; try done. by eexists.
        -- by rewrite (pieces_l _ _ _ _ _ _ _ HP), app_nil_r.
        -- rewrite Hi. unfold index. rewrite app_nil_r. simpl. lia.
  - wsteps.
    set (s2 := GetoptState _ _ _ _ _ _ _ _ _ _ _ _).
    apply (wp_mono _ (λ _ s3, optind s3 = optind s ∧
      ∃ ph', Inside ph' O_ S_ P_ R_ q u 0 s3)).
    { destruct ph; simpl in Hph.
      - destruct Hph as (E1 & E2 & -> & ->). rewrite E1, E2. simpl. wsteps. split; [done|].
        exists plain. unfold Inside, GetoptInvariant.Inside, s2. simpl. rewrite E1, E2.
        split_and!; try done.
      - destruct Hph as (E1 & E2 & HS & ->). rewrite E1, E2, (proj2 (Z.eqb_neq _ _)) by lia. simpl.
        wsteps. split; [done|].
        exists behind. unfold Inside, GetoptInvariant.Inside, s2. simpl.
        split_and!; try done; [|destruct Hpe as [?|?]; [done|by right]].
        rewrite Hi. unfold index. simpl. lia.
      - pose proof Hph as (E1 & E2 & HS). rewrite E1, E2, !(proj2 (Z.eqb_neq _ (-1))) by lia.
        simpl. wsteps. split; [done|].
        exists behind. unfold Inside, GetoptInvariant.Inside, s2. simpl.
        split_and!; try done. }
    intros _ s3 (Ei3 & ph' & HI). rewrite <-Ei3.
    eapply wp_mono; [eapply wp_option_arg; [exact HI|done]|].
    intros r s4. apply scanned_weaken. simpl. rewrite Hq. simpl. lia.
Qed.
End scan.
End steps.

(** ** What only [getopt_internal] itself changes *)

Create HintDb keeps.

Definition Keeps {A} (m : GM A) : Prop :=
  ∀ s a s', m s = Some (a, s') → posixly_correct s' = posixly_correct s.

Lemma keeps_bind {A B} (m : GM A) (f : A → GM B) :
  Keeps m → (∀ a, Keeps (f a)) → Keeps (m ≫= f).
Proof.
  intros Hm Hf s b s'. unfold mbind, ST_bind. destruct (m s) as [[a s1]|] eqn:E; [|done].
  intros E'. rewrite (Hf _ _ _ _ E'). by eapply Hm.
Qed.

Lemma keeps_wp {A} (m : GM A) Q s :
  Keeps m → wp m Q s → wp m (λ a s', Q a s' ∧ posixly_correct s' = posixly_correct s) s.
Proof. unfold wp. intros Hm. destruct (m s) as [[a s']|] eqn:E; [|done]. by eauto. Qed.

(** Straight-line code keeps it because its parts do. *)
Ltac keeps_step :=
  lazymatch goal with
  | |- Keeps (mbind _ _) => apply keeps_bind; intros
  | |- Keeps (match ?x with _ => _ end) => destruct x
  | |- Keeps (let '(_, _) := ?x in _) => destruct x
  | |- Keeps (let x := _ in _) => cbv zeta
  | |- Keeps (mret _) => let E := fresh "E" in intros ? ? ? E; unfold mret, ST_ret in E; by simplify_eq
  | |- Keeps (λ _, _) => intros ?s ?a ?s' ?E; by simplify_option_eq
  | |- Keeps _ =>
      first [ solve [auto 2 with keeps] |
        intros ?s ?a ?s' ?E; by (cbv in E; simplify_eq) ]
  end.
Ltac keeps := intros; repeat keeps_step.

Lemma keeps_get_arg i : Keeps (get_arg i).
Proof. intros s a s' E. unfold get_arg in E. case_match; by simplify_option_eq. Qed.

Lemma keeps_set_arg i v : Keeps (set_arg i v).
Proof.
  intros s a s' E. unfold set_arg in E. case_match; [done|].
  destruct (nargv s !! _); [|done]. cbv in E. by simplify_eq.
Qed.

Lemma keeps_rd q n : Keeps (rd strs q n).
Proof. intros s a s' E. unfold rd in E. by simplify_option_eq. Qed.

Lemma keeps_string_at q : Keeps (string_at strs q).
Proof. intros s a s' E. unfold string_at in E. by simplify_option_eq. Qed.

Hint Resolve keeps_get_arg keeps_set_arg keeps_rd keeps_string_at : keeps.

Lemma keeps_permute_cycle j e nn no cs pos : Keeps (permute_cycle j e nn no cs pos).
Proof. revert pos. induction j; simpl; keeps. Qed.

Lemma keeps_gcd a b : Keeps (gcd a b).
Proof.
  assert (∀ a b, Keeps (rem_ a b)) by (unfold rem_; keeps).
  assert (∀ fuel a b c, Keeps (gcd_loop fuel a b c)).
  { intros fuel; induction fuel; simpl; keeps. }
  unfold gcd. keeps.
Qed.

Hint Resolve keeps_permute_cycle keeps_gcd : keeps.

Lemma keeps_permute_args a b c : Keeps (permute_args a b c).
Proof.
  assert (∀ n i e nn no l, Keeps (permute_cycles n i e nn no l)).
  { intros n; induction n; simpl; keeps. }
  unfold permute_args. keeps.
Qed.

Lemma keeps_print_error options w : Keeps (print_error options w).
Proof. unfold print_error. keeps. Qed.

Hint Resolve keeps_permute_args keeps_print_error : keeps.

Lemma keeps_parse_long options longs idx short_too flags :
  Keeps (parse_long_options strs options longs idx short_too flags).
Proof. unfold parse_long_options, split_equal, set_optopt_of. keeps. Qed.

Lemma keeps_scan fuel nargc options flags : Keeps (scan strs emsg fuel nargc options flags).
Proof. induction fuel; simpl; unfold finish_permute; keeps. Qed.

Hint Resolve keeps_parse_long : keeps.

Lemma keeps_try_long options longs idx flags : Keeps (try_long strs emsg options longs idx flags).
Proof. unfold try_long. keeps. Qed.

Lemma keeps_short_option nargc options longs idx flags :
  Keeps (short_option strs emsg nargc options longs idx flags).
Proof. unfold short_option, missing_arg. keeps. Qed.
End proof.
