(* ===== verification/GetoptCalls.v ===== *)
(** One call of [getopt_internal], and the loop programs call it from. *)
From Stdlib Require Import ZArith Lia.
From stdpp Require Import prelude gmap.
From S2P Require Import Prelude Getopt GetoptPermute GetoptInvariant GetoptProof.

Local Open Scope Z_scope.

(** The flags and the options [getopt_internal] works with. *)
Definition eff_flags (options : str) (posix : bool) (flags : Z) : Z :=
  if first_char options =? cDASH then Z.lor flags FLAG_ALLARGS
  else if posix || (first_char options =? cPLUS) then Z.ldiff flags FLAG_PERMUTE
  else flags.

Definition eff_options (options : str) : str :=
  if (first_char options =? cPLUS) || (first_char options =? cDASH) then tail options else options.

(** Non-options are skipped; a non-option does not end the options. *)
Definition skips (flags : Z) : bool :=
  has_flag flags FLAG_PERMUTE && negb (has_flag flags FLAG_ALLARGS).
Definition goes_on (flags : Z) : bool :=
  has_flag flags FLAG_PERMUTE || has_flag flags FLAG_ALLARGS.

Section calls.
Context (strs : gmap positive str) (emsg : positive) (posix_env : bool).
Context (Hemsg : strs !! emsg = Some []).
Context (Hnul : map_Forall (λ _ t, NUL ∉ t) strs).
Context (args0 : list (option cptr)).
Context (options : str) (longs : option (list longopt)) (idx : ptr) (flags : Z).
Context (Hlongs : from_option NoMinusOne True longs).
Local Abbreviation nargc := (Z.of_nat (length args0)).
Local Abbreviation fl := (eff_flags options posix_env flags).
Local Abbreviation Between := (Between strs args0 (skips fl)).
Local Abbreviation Finished := (Finished strs emsg args0 (goes_on fl)).

Definition posix_val : Z := if posix_env then 1 else 0.

(** Before a first call, or one that starts again. *)
Definition Fresh (w : nat) (s : getopt_state) : Prop :=
  nargv s = args0 ++ [None] ∧ Forall (IsArg strs) args0 ∧ args0 ≠ [] ∧
  (optind s = 0 ∨ optreset s ≠ 0 ∧ 1 <= optind s <= nargc) ∧ (lens strs args0 <= w)%nat.

(** [POSIXLY_CORRECT] has been looked up or not. *)
Definition PosixKnown (s : getopt_state) : Prop :=
  posixly_correct s = -1 ∨ posixly_correct s = posix_val.

(** After a call: the options are over, or there are fewer characters left. *)
Definition Called (w : nat) (r : Z) (s : getopt_state) : Prop :=
  posixly_correct s = posix_val ∧
  (r = -1 ∧ Finished s ∨ (NoEnd strs → r ≠ -1) ∧ ∃ w', (w' < w)%nat ∧ Between w' s).

Lemma lens_app l k : lens strs (l ++ k) = (lens strs l + lens strs k)%nat.
Proof. unfold lens. by rewrite sum_list_with_app. Qed.

(** The pieces of an argument vector of which [k] arguments are done. *)
Lemma pieces_fresh k l :
  l = args0 ++ [None] → Forall (IsArg strs) args0 → (1 <= k <= length args0)%nat →
  Pieces strs args0 (take k args0) [] [] (drop k args0) l.
Proof.
  intros -> HA Hk. split.
  - by rewrite !app_nil_l, app_assoc, take_drop.
  - exists (take k args0). rewrite app_nil_r, take_drop. split; [apply Merge_only_l|done].
  - intros E. apply (f_equal length) in E. rewrite length_take in E. simpl in E. lia.
  - done.
  - by apply Forall_drop.
Qed.

(** The part before the options are looked at: from a fresh state or between
    two arguments [scan] finds the next option, inside an argument there is one. *)
Lemma wp_next_option fuel w s :
  Fresh w s ∧ optreset s ≠ 0 ∧ 1 <= optind s <= nargc ∧ nonopt_start s = -1 ∧ nonopt_end s = -1 ∨
  Between w s ∧ optreset s = 0 →
  posixly_correct s = posix_val → (length args0 < fuel)%nat →
  wp (if negb (optreset s =? 0) then scan strs emsg fuel nargc (eff_options options) fl
      else
        c ← rd strs (place s) 0;
        if c =? NUL then scan strs emsg fuel nargc (eff_options options) fl else mret None)
    (λ found s', posixly_correct s' = posix_val ∧
      match found with
      | Some r => r = -1 ∧ Finished s' ∨
                r ≠ -1 ∧ ∃ w', (w' < w)%nat ∧ Idle strs args0 (skips fl) w' s'
      | None => InArg strs args0 (skips fl) w s'
      end) s.
Proof.
  intros Hs Hpc Hf.
  assert (∀ w' found s', Scanned strs emsg args0 (skips fl) fl w' found s' → (w' <= w)%nat →
    match found with
    | Some r => r = -1 ∧ Finished s' ∨
                r ≠ -1 ∧ ∃ w', (w' < w)%nat ∧ Idle strs args0 (skips fl) w' s'
    | None => InArg strs args0 (skips fl) w s'
    end) as Hsc.
  { intros w' found s' H Hw. destruct found as [r|].
    - destruct H as [H|(? & v & ? & ?)]; [by left|right; split; [done|]; exists v; split; [lia|done]].
    - destruct H as (v & ? & ph & O_ & S_ & P_ & R_ & p & t & n & ? & ? & ?).
      exists ph, O_, S_, P_, R_, p, t, n. split_and!; try done. lia. }
  assert (∀ ph O_ S_ P_ R_, Pieces strs args0 O_ S_ P_ R_ (nargv s) →
    Phase ph O_ S_ P_ (nonopt_start s) (nonopt_end s) → (ph = behind → P_ ≠ []) →
    PermPhase (skips fl) ph → optind s = index O_ S_ P_ → (lens strs R_ <= w)%nat →
    wp (scan strs emsg fuel nargc (eff_options options) fl)
      (λ found s', posixly_correct s' = posix_val ∧
        match found with
        | Some r => r = -1 ∧ Finished s' ∨
                r ≠ -1 ∧ ∃ w', (w' < w)%nat ∧ Idle strs args0 (skips fl) w' s'
        | None => InArg strs args0 (skips fl) w s'
        end) s) as Hscan.
  { intros ph O_ S_ P_ R_ HP Hph Hb Hpe Hi Hw. pose proof (pieces_total _ _ _ _ _ _ _ HP).
    pose proof (index_nonneg O_ S_ P_).
    eapply wp_mono; [apply keeps_wp; [apply keeps_scan|]; eapply (wp_scan strs emsg); eauto; lia|].
    simpl. intros found s' [HS Hk]. split; [congruence|]. by eapply Hsc. }
  destruct Hs as [((El & HA & HA0 & _ & Hw) & Hr & Hi & E1 & E2)|[HB Hr]].
  - rewrite (proj2 (Z.eqb_neq _ _)) by done. simpl.
    eapply (Hscan plain (take (Z.to_nat (optind s)) args0) [] [] (drop (Z.to_nat (optind s)) args0));
      [apply pieces_fresh; [done|done|lia]|done|done|by left| |].
    + unfold index. rewrite length_take. simpl. lia.
    + rewrite <-(take_drop (Z.to_nat (optind s)) args0), lens_app in Hw. lia.
  - rewrite Hr. simpl. destruct HB as [HB|HB].
    + destruct HB as (ph & O_ & S_ & P_ & R_ & t & HP & Hph & Hb & Hpe & Hi & _ & Ht & Hlen & Hw).
      wstep. destruct (place s) as [q n]. simpl in *. subst n.
      eapply (wp_rd strs); [exact Ht|lia|]. cbn beta. rewrite Nat.add_0_r, chr_end. simpl.
      by eapply Hscan.
    + destruct HB as (ph & O_ & S_ & P_ & R_ & p & t & n & HI & Hn & Hw).
      pose proof HI as (_ & _ & _ & _ & _ & Ht & Hpl). rewrite Hpl.
      wstep. eapply (wp_rd strs); [exact Ht|lia|]. cbn beta.
      rewrite (proj2 (Z.eqb_neq _ _)) by (by eapply (chr_nul strs); [|exact Ht|lia]).
      wstep. split; [done|]. exists ph, O_, S_, P_, R_, p, t, n. split_and!; try done; lia.
Qed.

(** What the call begins with does not matter to a state between two calls. *)
Definition Entry (w : nat) (s : getopt_state) : Prop :=
  Fresh w s ∧ optreset s ≠ 0 ∧ 1 <= optind s <= nargc ∨ Between w s ∧ optreset s = 0.

Lemma between_optind w s : Between w s → 1 <= optind s ∧ optreset s = 0.
Proof.
  assert (∀ O_ S_ P_ R_ l, Pieces strs args0 O_ S_ P_ R_ l → 1 <= index O_ S_ P_) as H.
  { intros O_ S_ P_ R_ l [_ _ HO _ _]. destruct O_; [done|]. unfold index. simpl. lia. }
  intros [(ph & O_ & S_ & P_ & R_ & t & HP & _ & _ & _ & -> & -> & _)
    |(ph & O_ & S_ & P_ & R_ & p & t & n & (HP & _ & _ & -> & -> & _) & _)]; split; eauto.
Qed.

Lemma entry_ctl w s s' : ctl s' = ctl s → Entry w s → Entry w s'.
Proof.
  intros E. pose proof E as [= E1 _ _ _ E5 E6].
  intros [HE|[HB HE]]; [left|right; split; [by eapply between_ctl|congruence]].
  unfold Fresh in *. by rewrite E1, E5, E6.
Qed.

Lemma wp_entry w s (Q : unit → getopt_state → Prop) :
  Fresh w s ∨ Between w s →
  (∀ s', Entry w s' → posixly_correct s' = posixly_correct s → Q tt s') →
  wp (if optind s =? 0 then set_optreset 1;; set_optind 1 else mret tt) Q s.
Proof.
  intros Hs HQ. destruct Hs as [HF|HB].
  - pose proof HF as (El & HA & HA0 & Hi & Hw). assert (0 < nargc) by (destruct args0; [done|simpl; lia]).
    destruct (Z.eqb_spec (optind s) 0) as [E|E]; wsteps; apply HQ; try done; left.
    + split; [|simpl; lia]. repeat split; try done. simpl. right. lia.
    + split; [done|lia].
  - pose proof (between_optind _ _ HB) as [Hi Hr]. rewrite (proj2 (Z.eqb_neq _ _)) by lia. wsteps.
    apply HQ; [by right|done].
Qed.

Lemma getopt_internal_run fuel w s :
  Fresh w s ∨ Between w s → PosixKnown s → (length args0 < fuel)%nat →
  wp (getopt_internal strs emsg posix_env fuel nargc (Some options) longs idx flags) (Called w) s.
Proof.
  intros Hs Hpk Hf. unfold getopt_internal. wsteps.
  apply (wp_entry w); [done|]. intros s1 HE1 Hp1. wsteps.
  assert (HE2 : ∀ w' Q, (∀ s', ctl s' = ctl s1 → posixly_correct s' = posix_val → Q tt s') →
    wp (if (posixly_correct s1 =? -1) || negb (optreset s1 =? 0)
        then set_posixly_correct w' else mret tt) Q s1 ∨ w' ≠ posix_val).
  { intros w' Q HQ. destruct (decide (w' = posix_val)) as [->|]; [left|by right].
    destruct (Z.eqb_spec (posixly_correct s1) (-1)); [wsteps; by apply HQ|].
    destruct (negb _); wsteps; apply HQ; try done.
    destruct Hpk; congruence. }
  destruct (HE2 posix_val (λ _ s', ctl s' = ctl s1 ∧ posixly_correct s' = posix_val)) as [H2|]; [done| |done].
  eapply wp_mono; [exact H2|]. clear HE2 H2. intros _ s2 [Ec2 Ep2]. apply (entry_ctl w) in Ec2 as HE2; [|done].
  wsteps. rewrite Ep2.
  assert (Efl : (if first_char options =? cDASH then Z.lor flags FLAG_ALLARGS
    else if negb (posix_val =? 0) || (first_char options =? cPLUS)
         then Z.ldiff flags FLAG_PERMUTE else flags) = fl).
  { unfold eff_flags, posix_val. by destruct posix_env. }
  rewrite Efl. change (if _ || _ then _ else _) with (eff_options options).
  apply (wp_mono _ (λ _ s3, optreset s3 = optreset s2 ∧ posixly_correct s3 = posix_val ∧
    (Fresh w s3 ∧ optreset s3 ≠ 0 ∧ 1 <= optind s3 <= nargc ∧
       nonopt_start s3 = -1 ∧ nonopt_end s3 = -1 ∨ Between w s3 ∧ optreset s3 = 0))).
  { destruct HE2 as [(HF & Hr & Hi)|[HB Hr]].
    - rewrite (proj2 (Z.eqb_neq _ _)) by done. wsteps. split_and!; [done..|]. by left.
    - rewrite Hr. wsteps. split_and!; [done..|]. right. split; [|done].
      eapply between_ctl; [|exact HB]. unfold ctl. simpl. congruence. }
  intros _ s3 (Hr3 & Hp3 & Hs3). rewrite <-Hr3. wsteps.
  eapply wp_mono; [by eapply wp_next_option|]. intros found s4 [Hp4 Hfound].
  destruct found as [r|].
  { wsteps. split; [done|]. destruct Hfound as [?|(? & w' & ? & ?)]; [by left|right].
    split; [done|]. exists w'. split; [done|by left]. }
  destruct Hfound as (ph & O_ & S_ & P_ & R_ & p & t & n & HI & Hn & Hw). wstep.
  eapply wp_mono; [apply keeps_wp; [apply keeps_try_long|];
    eapply (wp_try_long strs emsg); [exact Hemsg|exact Hlongs|exact HI|exact Hn]|].
  intros long s5 [Hlong Hp5]. destruct long as [r|]; simpl in Hlong.
  { wsteps. split; [congruence|]. right. destruct Hlong as [? ?]. split; [done|].
    exists (lens strs R_). split; [lia|by left]. }
  eapply wp_mono; [apply keeps_wp; [apply keeps_short_option|];
    eapply (wp_short_option strs emsg); [exact Hemsg|exact Hnul|exact Hlongs|exact Hlong|exact Hn]|].
  intros r s6 [(? & w' & Hw' & HB) Hp6]. split; [congruence|]. right. split; [done|]. exists w'. split; [lia|done].
Qed.

(** ** The loop around the calls *)

(** [while ((c = getopt(...)) != -1)]: the values of at most [n] calls. *)
Fixpoint call_until_end (n : nat) (call : GM Z) : GM (list Z) :=
  match n with
  | O => fail
  | S n =>
      r ← call;
      if r =? -1 then mret []
      else rs ← call_until_end n call; mret (r :: rs)
  end.

Lemma call_until_end_run fuel w n s :
  NoEnd strs → Fresh w s ∨ Between w s → PosixKnown s → (length args0 < fuel)%nat → (w < n)%nat →
  wp (call_until_end n
        (getopt_internal strs emsg posix_env fuel nargc (Some options) longs idx flags))
    (λ rs s', (length rs <= w)%nat ∧ Finished s') s.
Proof.
  intros Hne. revert w s; induction n as [|n IH]; intros w s Hs Hpk Hf Hw; [lia|].
  cbn [call_until_end]. wstep.
  eapply wp_mono; [by eapply (getopt_internal_run fuel w)|].
  intros r s1 [Hp1 [[-> HF]|[Hr (w' & Hw' & HB)]]].
  { wsteps. split; [simpl; lia|done]. }
  rewrite (proj2 (Z.eqb_neq _ _)) by by apply Hr. wstep.
  eapply wp_mono; [eapply (IH w'); [by right|by right|done|lia]|].
  intros rs s2 [Hl HF]. wsteps. split; [lia|done].
Qed.

(** ** What the end means *)

(** The state after the last call is one to start from again. *)
Lemma finished_perm permute s :
  GetoptInvariant.Finished strs emsg args0 permute s →
  nargv s ≡ₚ args0 ++ [None].
Proof.
  intros (opts & nonopts & rest & M & -> & HM & -> & _). apply Merge_perm in HM.
  by rewrite HM, <-!app_assoc.
Qed.

Lemma between_perm w s : Between w s → nargv s ≡ₚ args0 ++ [None].
Proof.
  assert (∀ O_ S_ P_ R_, Pieces strs args0 O_ S_ P_ R_ (nargv s) → nargv s ≡ₚ args0 ++ [None]) as H.
  { intros O_ S_ P_ R_ [-> (M & HM & ->) _ _ _]. apply Merge_perm in HM. rewrite HM.
    rewrite <-!app_assoc. f_equiv. rewrite !app_assoc. do 2 f_equiv. apply Permutation_app_comm. }
  intros [(ph & O_ & S_ & P_ & R_ & t & HP & _)
    |(ph & O_ & S_ & P_ & R_ & p & t & n & (HP & _) & _)]; eauto.
Qed.

Lemma between_optind_bound w s : Between w s → 1 <= optind s <= nargc.
Proof.
  assert (∀ O_ S_ P_ R_ l, Pieces strs args0 O_ S_ P_ R_ l → 1 <= index O_ S_ P_ <= nargc) as H.
  { intros O_ S_ P_ R_ l HP. pose proof (pieces_total _ _ _ _ _ _ _ HP). destruct HP as [_ _ HO _ _].
    destruct O_; [done|]. unfold index in *. simpl in *. lia. }
  intros [(ph & O_ & S_ & P_ & R_ & t & HP & _ & _ & _ & -> & _)
    |(ph & O_ & S_ & P_ & R_ & p & t & n & (HP & _ & _ & -> & _) & _)]; eauto.
Qed.

Lemma finished_optind permute s :
  GetoptInvariant.Finished strs emsg args0 permute s → 1 <= optind s <= nargc.
Proof.
  intros (opts & nonopts & rest & M & _ & HM & -> & _ & _ & HO & _ & -> & _).
  apply Merge_perm, Permutation_length in HM. rewrite !length_app in *.
  destruct opts; [done|]. simpl in *. lia.
Qed.
End calls.
