(* ===== verification/GetoptReference.v ===== *)
(** [getopt] against a reference: what the calls return, written down as one
    pass over the argument strings. *)
From Stdlib Require Import ZArith Lia.
From stdpp Require Import prelude gmap.
From S2P Require Import Prelude Getopt GetoptPermute GetoptInvariant GetoptProof GetoptCalls.

Local Open Scope Z_scope.

(** ** The reference *)

(** A call: its value, [optarg] and [optopt] after it. *)
Abbreviation call_result := (Z * option cptr * Z)%type.

Inductive letter := unknown | no_arg | with_arg | maybe_arg.

(** What the option string says of a letter. *)
Definition letter_of (options : str) (c : Z) : letter :=
  if c =? cCOLON then unknown
  else match strchr options c with
       | None => unknown
       | Some oli =>
           if negb (chr oli 1 =? cCOLON) then no_arg
           else if negb (chr oli 2 =? cCOLON) then with_arg else maybe_arg
       end.

(** An argument: its string and where it is. *)
Abbreviation arg := (positive * str)%type.

Definition result_cons (r : call_result) (rest : list call_result * nat) : list call_result * nat :=
  (r :: rest.1, rest.2).

(** The letters [cl] of an argument [p], from its character [n] on.  [next]
    stands for the arguments that follow, [take] for the letter whose argument
    is the next one. *)
Fixpoint letters (options : str) (next : Z → list call_result * nat)
    (take : Z → Z → list call_result * nat) (p : positive) (o : Z) (n : nat) (cl : str) :
    list call_result * nat :=
  match cl with
  | [] => next o
  | c :: cl' =>
      match letter_of options c with
      | unknown => result_cons (BADCH, None, c) (letters options next take p c (S n) cl')
      | no_arg => result_cons (c, None, o) (letters options next take p o (S n) cl')
      | with_arg =>
          match cl' with
          | _ :: _ => result_cons (c, Some (p, S n), o) (next o)
          | [] => take c o
          end
      | maybe_arg =>
          result_cons (c, match cl' with [] => None | _ => Some (p, S n) end, o) (next o)
      end
  end.

(** The results of the calls, and the number of operands left.  [o] is [optopt]
    before the call. *)
Fixpoint reference (options : str) (o : Z) (args : list arg) : list call_result * nat :=
  match args with
  | [] => ([], O)
  | (p, t) :: rest =>
      let next o := reference options o rest in
      let take c o :=
        match rest with
        | [] => ([(BADARG options, None, c)], O)
        | (q, _) :: rest' => result_cons (c, Some (q, O), o) (reference options o rest')
        end in
      match t with
      | d :: c :: cl =>
          if negb (d =? cDASH) then ([], length args)
          else if (c =? cDASH) && bool_decide (cl = []) then ([], length rest)
          else letters options next take p o 1%nat (c :: cl)
      | [d] =>
          if negb (d =? cDASH) || bool_decide (strchr options cDASH = None)
          then ([], length args) else letters options next take p o O [d]
      | [] => ([], length args)
      end
  end.

(** ** The calls *)

(** The loop around the calls: what each of them returned. *)
Fixpoint call_results (n : nat) (call : GM Z) : GM (list call_result) :=
  match n with
  | O => fail
  | S n =>
      r ← call;
      if r =? -1 then mret []
      else
        a ← gets optarg;
        o ← gets optopt;
        rs ← call_results n call; mret ((r, a, o) :: rs)
  end.

Section reference.
Context (strs : gmap positive str) (emsg : positive) (posix_env : bool).
Context (Hemsg : strs !! emsg = Some []).
Context (Hnul : map_Forall (λ _ t, NUL ∉ t) strs) (Hend : NoEnd strs).
Context (argv : list (option cptr)) (nargc : Z) (options0 : str).
(** Operands are not returned as arguments of an option 1. *)
Context (Hdash : first_char options0 ≠ cDASH).
Local Abbreviation options := (eff_options options0).
Local Abbreviation fl := (eff_flags options0 posix_env 0).

Lemma no_permute_flag : has_flag fl FLAG_PERMUTE = false.
Proof.
  unfold eff_flags. rewrite (proj2 (Z.eqb_neq _ cDASH)) by done. by destruct (_ || _).
Qed.

Lemma no_allargs_flag : has_flag fl FLAG_ALLARGS = false.
Proof.
  unfold eff_flags. rewrite (proj2 (Z.eqb_neq _ cDASH)) by done. by destruct (_ || _).
Qed.

(** The rest of the vector, from index [k] on, is made of [args]. *)
Definition Rest (k : nat) (args : list arg) : Prop :=
  nargc = Z.of_nat (k + length args) ∧
  ∀ i p t, args !! i = Some (p, t) → argv !! (k + i)%nat = Some (Some (p, O)) ∧ strs !! p = Some t.

(** A state at index [k]. *)
Definition At (k : nat) (o : Z) (s : getopt_state) : Prop :=
  nargv s = argv ∧ optind s = Z.of_nat k ∧ optopt s = o ∧ optreset s = 0 ∧
  nonopt_start s = -1 ∧ nonopt_end s = -1.

Lemma rest_tail k a args : Rest k (a :: args) → Rest (S k) args.
Proof.
  intros [Hn HR]. split; [simpl in Hn; lia|]. intros i p t Hi.
  replace (S k + i)%nat with (k + S i)%nat by lia. by apply HR.
Qed.

Lemma rest_head k p t args :
  Rest k ((p, t) :: args) → argv !! k = Some (Some (p, O)) ∧ strs !! p = Some t.
Proof. intros [_ HR]. rewrite <-(Nat.add_0_r k). by apply (HR O). Qed.

Lemma get_arg_at k o s p t args :
  At k o s → Rest k ((p, t) :: args) → get_arg (Z.of_nat k) s = Some (Some (p, O), s).
Proof.
  intros (El & _) HR. apply get_arg_run; [lia|]. rewrite El, at_nat. by eapply rest_head.
Qed.

(** Where a letter leaves the parser: at the next letter, or at the next
    argument. *)
Definition Stop (k : nat) (o : Z) (p : positive) (t : str) (n : nat) (s : getopt_state) : Prop :=
  if decide (n = length t) then At (S k) o s ∧ place s = (p, n) else At k o s ∧ place s = (p, n).

(** [place] is at the end of a string. *)
Definition AtEnd (s : getopt_state) : Prop :=
  ∃ t, strs !! (place s).1 = Some t ∧ (place s).2 = length t.

Lemma wp_skip_ref (Q : Z → getopt_state → Prop) (m : GM Z) k o p t n s :
  At k o s → place s = (p, S n) → strs !! p = Some t → (n < length t)%nat →
  (∀ s', Stop k o p t (S n) s' → optarg s' = optarg s → wp m Q s') →
  wp (c ← rd strs (padd (p, n) 1) 0;
      (if c =? NUL then oi ← gets optind; set_optind (oi + 1) else mret tt);; m) Q s.
Proof.
  intros (El & Ei & Eo & Er & E1 & E2) Epl Ht Hn HQ. unfold padd. simpl. wstep.
  eapply (wp_rd strs); [exact Ht|lia|]. cbn beta. wstep.
  replace (n + 1 + 0)%nat with (S n) by lia. unfold Stop in HQ.
  destruct (decide (S n = length t)) as [E|E].
  - rewrite E, chr_end. simpl. wsteps. apply HQ; [|done]. unfold At. simpl.
    split_and!; try done. lia.
  - rewrite (proj2 (Z.eqb_neq _ _)) by (by eapply (chr_nul strs); [|exact Ht|lia]). wsteps.
    by apply HQ.
Qed.

(** One letter: the call's results, and where it stops. *)
Definition LetterDone (k : nat) (o : Z) (p : positive) (t : str) (n : nat) (args : list arg)
    (r : Z) (s : getopt_state) : Prop :=
  let c := chr t n in
  match letter_of options c with
  | unknown => r = BADCH ∧ optarg s = None ∧ Stop k c p t (S n) s
  | no_arg => r = c ∧ optarg s = None ∧ Stop k o p t (S n) s
  | with_arg =>
      if decide (S n = length t) then
        match args with
        | [] => r = BADARG options ∧ optarg s = None ∧ At (S k) c s ∧ AtEnd s
        | (q, _) :: _ => r = c ∧ optarg s = Some (q, O) ∧ At (S (S k)) o s ∧ AtEnd s
        end
      else r = c ∧ optarg s = Some (p, S n) ∧ At (S k) o s ∧ AtEnd s
  | maybe_arg =>
      r = c ∧ optarg s = (if decide (S n = length t) then None else Some (p, S n)) ∧
      At (S k) o s ∧ AtEnd s
  end.

(** A state up to the error message, with another [optopt]. *)
Lemma stop_optopt k o c p t n ws s :
  Stop k o p t n s →
  Stop k c p t n (GetoptState (opterr s) (optind s) c (optreset s) (optarg s) (place s)
    (nonopt_start s) (nonopt_end s) (posixly_correct s) (nargv s) (ints s) ws).
Proof.
  unfold Stop, At. case_decide; intros ((? & ? & ? & ? & ? & ?) & ?); simpl; by split_and!.
Qed.

Lemma wp_unknown_letter k o p t n s c :
  At k o s → place s = (p, S n) → strs !! p = Some t → (n < length t)%nat →
  optarg s = None →
  wp (x ← rd strs (padd (p, n) 1) 0;
      (if x =? NUL then oi ← gets optind; set_optind (oi + 1) else mret tt);;
      print_error options (illoptchar c);;
      set_optopt c;;
      mret BADCH)
    (λ r s', r = BADCH ∧ optarg s' = None ∧ Stop k c p t (S n) s') s.
Proof.
  intros HA Epl Ht Hn Earg. eapply wp_skip_ref; [exact HA|done..|]. intros s' HS Ea. wsteps.
  split_and!; [done|congruence|]. by eapply stop_optopt.
Qed.

Lemma at_end_emsg s : place s = (emsg, O) → AtEnd s.
Proof. intros E. exists []. by rewrite E. Qed.

(** The argument of a letter in the next argument of the vector. *)
Lemma wp_next_arg k o p t args c s :
  At k o s → Rest k ((p, t) :: args) →
  wp (oi ← gets optind; set_optind (oi + 1);;
      if nargc <=? oi + 1 then missing_arg emsg options c
      else
        a ← get_arg (oi + 1);
        set_optarg a;;
        set_place (EMSG emsg);;
        oi ← gets optind; set_optind (oi + 1);;
        mret c)
    (λ r s', match args with
             | [] => r = BADARG options ∧ optarg s' = optarg s ∧ At (S k) c s' ∧ AtEnd s'
             | (q, _) :: _ => r = c ∧ optarg s' = Some (q, O) ∧ At (S (S k)) o s' ∧ AtEnd s'
             end) s.
Proof.
  intros (El & Ei & Eo & Er & E1 & E2) HR. wsteps.
  destruct args as [|[q u] args].
  - destruct HR as [Hn _]. simpl in Hn. rewrite (proj2 (Z.leb_le _ _)) by lia.
    unfold missing_arg. wsteps. split_and!; try done; [|by apply at_end_emsg].
    unfold At. simpl. split_and!; try done. lia.
  - pose proof HR as [Hn _]. simpl in Hn. rewrite (proj2 (Z.leb_gt _ _)) by lia.
    apply rest_tail, rest_head in HR as [Hq _]. wsteps.
    eapply wp_get_arg; [lia| |].
    { simpl. rewrite El, Ei. replace (Z.of_nat k + 1) with (Z.of_nat (S k)) by lia.
      rewrite at_nat. exact Hq. }
    wsteps. split_and!; try done; [|by apply at_end_emsg].
    unfold At. simpl. split_and!; try done. lia.
Qed.

Lemma wp_letter k o p t n args s :
  At k o s → place s = (p, n) → (n < length t)%nat → Rest k ((p, t) :: args) → optarg s = None →
  wp (short_option strs emsg nargc options None None fl) (LetterDone k o p t n args) s.
Proof.
  intros HA Epl Hn HR Earg. pose proof HA as (El & Ei & Eo & Er & E1 & E2).
  pose proof (rest_head _ _ _ _ HR) as [_ Ht].
  unfold short_option. wsteps. rewrite Epl. eapply (wp_rd strs); [exact Ht|lia|]. cbn beta zeta.
  rewrite Nat.add_0_r. set (c := chr t n). unfold LetterDone, letter_of. fold c.
  assert (Hc : c ≠ NUL) by (by eapply (chr_nul strs); [|exact Ht|lia]).
  wsteps. set (s1 := GetoptState _ _ _ _ _ _ _ _ _ _ _ _).
  assert (HA1 : At k o s1) by done.
  assert (Epl1 : place s1 = (p, S n)) by (unfold s1, padd; simpl; f_equal; lia).
  destruct (Z.eqb_spec c cCOLON) as [Ec|Ec]; [by eapply wp_unknown_letter|].
  destruct (strchr options c) as [oli|] eqn:Eoli; [|by eapply wp_unknown_letter].
  pose proof (strchr_length _ _ _ Eoli Hc) as Hlen.
  wstep. eapply wp_run; [rewrite (char_at_chr oli 1) by done; done|]. cbn beta. simpl.
  destruct (Z.eqb_spec (chr oli 1) cCOLON) as [E|E]; simpl.
  2: { eapply wp_skip_ref; [exact HA1|done..|]. intros s' HS Ea. wsteps. by rewrite Ea. }
  assert (2 <= length oli)%nat by (destruct oli as [|? [|? ?]]; [done|by exfalso|simpl; lia]).
  unfold padd. wsteps. eapply wp_rd; [exact Ht|lia|]. cbn beta. replace (n + 1 + 0)%nat with (S n) by lia.
  destruct (decide (S n = length t)) as [Hlast|Hmore].
  - rewrite Hlast, chr_end. simpl.
    wstep. eapply wp_run; [rewrite (char_at_chr oli 2) by done; done|]. cbn beta. simpl.
    destruct (negb _).
    + eapply wp_mono; [by eapply (wp_next_arg k o p t args c)|]. intros r s'. by destruct args as [|[??]].
    + wsteps. split_and!; try done; [|by apply at_end_emsg]. unfold At. simpl. split_and!; try done. lia.
  - rewrite (proj2 (Z.eqb_neq (chr t (S n)) NUL)) by (by eapply (chr_nul strs); [|exact Ht|lia]).
    simpl. wsteps.
    assert (HA' : ∀ q, At (S k) o (GetoptState (opterr s) (optind s + 1) (optopt s) (optreset s)
      (Some q) (EMSG emsg) (nonopt_start s) (nonopt_end s) (posixly_correct s) (nargv s) (ints s)
      (warnings s))).
    { intros q. unfold At. simpl. split_and!; try done. lia. }
    replace (n + 1)%nat with (S n) by lia.
    destruct (negb _); split_and!; try done; by apply at_end_emsg.
Qed.

(** What [scan] finds in an argument. *)
Definition ArgFound (k : nat) (o : Z) (p : positive) (t : str) (found : option Z)
    (s : getopt_state) : Prop :=
  match t with
  | d :: c :: cl =>
      if negb (d =? cDASH) then found = Some (-1) ∧ At k o s
      else if (c =? cDASH) && bool_decide (cl = []) then found = Some (-1) ∧ At (S k) o s
      else found = None ∧ At k o s ∧ place s = (p, 1%nat)
  | [d] =>
      if negb (d =? cDASH) || bool_decide (strchr options cDASH = None)
      then found = Some (-1) ∧ At k o s else found = None ∧ At k o s ∧ place s = (p, O)
  | [] => found = Some (-1) ∧ At k o s
  end.

Lemma wp_scan_ref fuel k o args s :
  At k o s → Rest k args →
  wp (scan strs emsg (S fuel) nargc options fl)
    (λ found s', optarg s' = optarg s ∧
      match args with
      | [] => found = Some (-1) ∧ At k o s'
      | (p, t) :: _ => ArgFound k o p t found s'
      end) s.
Proof.
  intros (El & Ei & Eo & Er & E1 & E2) HR. cbn [scan]. wsteps. rewrite Ei.
  pose proof HR as [Hn _]. destruct args as [|[p t] rest].
  { simpl in Hn. rewrite (proj2 (Z.leb_le _ _)) by lia. wsteps. rewrite E1, E2. wsteps. done. }
  simpl in Hn. rewrite (proj2 (Z.leb_gt _ _)) by lia.
  pose proof (rest_head _ _ _ _ HR) as [Hk Ht]. wstep.
  eapply wp_get_arg; [lia|simpl; by rewrite El, at_nat|]. wsteps.
  assert (HA : ∀ q, At k o (GetoptState (opterr s) (Z.of_nat k) (optopt s) 0 (optarg s) q
    (nonopt_start s) (nonopt_end s) (posixly_correct s) (nargv s) (ints s) (warnings s))) by done.
  assert (HA' : ∀ q, At (S k) o (GetoptState (opterr s) (Z.of_nat k + 1) (optopt s) 0 (optarg s) q
    (-1) (-1) (posixly_correct s) (nargv s) (ints s) (warnings s))).
  { intros q. unfold At. simpl. split_and!; try done. lia. }
  eapply (wp_rd strs); [exact Ht|lia|]. cbn beta. simpl. unfold ArgFound.
  destruct t as [|d t].
  { simpl. wsteps. rewrite no_allargs_flag. simpl. rewrite no_permute_flag. simpl. wsteps. done. }
  change (chr (d :: t) 0) with d. destruct (Z.eqb_spec d cDASH) as [->|Hd]; simpl.
  2: { wsteps. rewrite no_allargs_flag. simpl. rewrite no_permute_flag. simpl. wsteps. destruct t; by split. }
  wsteps. eapply (wp_rd strs); [exact Ht|simpl; lia|]. cbn beta. simpl. wsteps.
  destruct t as [|c cl].
  { simpl. case_bool_decide; wsteps.
    - rewrite no_allargs_flag. simpl. rewrite no_permute_flag. simpl. wsteps. done.
    - rewrite E1. simpl. wsteps. eapply (wp_rd strs); [exact Ht|simpl; lia|]. cbn beta. simpl. wsteps.
      done. }
  assert (Hc : c ≠ NUL) by (by apply (chr_nul strs Hnul p (cDASH :: c :: cl) 1); [|simpl; lia]).
  change (chr (cDASH :: c :: cl) 1) with c. rewrite (proj2 (Z.eqb_neq c NUL)) by done. simpl.
  wsteps. rewrite E1. simpl. wsteps. eapply (wp_rd strs); [exact Ht|simpl; lia|]. cbn beta. simpl.
  change (chr (cDASH :: c :: cl) 1) with c. rewrite (proj2 (Z.eqb_neq c NUL)) by done. wsteps.
  destruct (Z.eqb_spec c cDASH) as [->|Hcd]; simpl; [|wsteps; by split_and!].
  wstep. eapply (wp_rd strs); [exact Ht|simpl; lia|]. cbn beta. simpl. wsteps.
  destruct cl as [|x cl].
  - simpl. wsteps. rewrite E2. simpl. wsteps. split_and!; [done..|apply HA'].
  - assert (Hx : x ≠ NUL) by (by apply (chr_nul strs Hnul p (cDASH :: cDASH :: x :: cl) 2); [|simpl; lia]).
    change (chr (cDASH :: cDASH :: x :: cl) 2) with x. rewrite (proj2 (Z.eqb_neq x NUL)) by done.
    wsteps. by split_and!.
Qed.

(** ** One call *)

Local Abbreviation call fuel := (getopt strs emsg posix_env fuel nargc (Some options0)).
Local Abbreviation Known s := (PosixKnown posix_env s).

(** The call up to the test for a new argument. *)
Lemma wp_call_start fuel k o s (Q : Z → getopt_state → Prop) :
  At k o s → (1 <= k)%nat → Known s →
  (∀ s1, At k o s1 → place s1 = place s → optarg s1 = None → Known s1 →
    wp (found ← (c ← rd strs (place s) 0;
                 if c =? NUL then scan strs emsg fuel nargc options fl else mret None);
        match found with
        | Some r => mret r
        | None => short_option strs emsg nargc options None None fl
        end) Q s1) →
  wp (call fuel) Q s.
Proof.
  intros (El & Ei & Eo & Er & E1 & E2) Hk Hpk HQ. unfold getopt, getopt_internal. wsteps.
  rewrite Ei, (proj2 (Z.eqb_neq _ 0)) by lia. wsteps. rewrite Er. simpl. rewrite orb_false_r.
  apply (wp_mono _ (λ _ s1, At k o s1 ∧ place s1 = place s ∧
    posixly_correct s1 = posix_val posix_env)).
  { destruct Hpk as [E|E]; rewrite E; [wsteps; by split_and!|].
    assert ((posix_val posix_env =? -1) = false) as -> by by destruct posix_env.
    wsteps. by split_and!. }
  intros _ s1 ((El1 & Ei1 & Eo1 & Er1 & E11 & E21) & Epl1 & Hp1). wsteps.
  assert (Efl : (if first_char options0 =? cDASH then Z.lor 0 FLAG_ALLARGS
    else if negb (posixly_correct s1 =? 0) || (first_char options0 =? cPLUS)
         then 0 else 0) = fl).
  { unfold eff_flags. rewrite Hp1. by destruct posix_env. }
  rewrite Efl. change (if _ || _ then _ else _) with options. rewrite Er1. wsteps. rewrite Epl1.
  match goal with |- wp _ _ ?s2 =>
    assert (wp (found ← (c ← rd strs (place s) 0;
                 if c =? NUL then scan strs emsg fuel nargc options fl else mret None);
        match found with
        | Some r => mret r
        | None => short_option strs emsg nargc options None None fl
        end) Q s2) as H end.
  { apply HQ; simpl; try done. by right. }
  revert H. unfold wp, mbind, ST_bind.
  repeat (case_match; simplify_eq/=; try done).
Qed.

(** A call between two arguments: the options are over, or a letter is done. *)
Definition CallDone (k : nat) (o : Z) (args : list arg) (r : Z) (s : getopt_state) : Prop :=
  match args with
  | [] => r = -1 ∧ At k o s
  | (p, t) :: rest =>
      match t with
      | d :: c :: cl =>
          if negb (d =? cDASH) then r = -1 ∧ At k o s
          else if (c =? cDASH) && bool_decide (cl = []) then r = -1 ∧ At (S k) o s
          else LetterDone k o p t 1 rest r s
      | [d] =>
          if negb (d =? cDASH) || bool_decide (strchr options cDASH = None)
          then r = -1 ∧ At k o s else LetterDone k o p t 0 rest r s
      | [] => r = -1 ∧ At k o s
      end
  end.

Lemma known_wp {A} (m : GM A) Q s :
  Keeps m → Known s → wp m Q s → wp m (λ a s', Q a s' ∧ Known s') s.
Proof.
  intros HK Hs HQ. eapply wp_mono; [by apply (keeps_wp m Q s)|]. intros a s' [? E]. split; [done|].
  unfold PosixKnown. by rewrite E.
Qed.

Lemma wp_letter_known k o p t n args s :
  At k o s → place s = (p, n) → (n < length t)%nat → Rest k ((p, t) :: args) → optarg s = None →
  Known s →
  wp (short_option strs emsg nargc options None None fl)
    (λ r s', LetterDone k o p t n args r s' ∧ Known s') s.
Proof.
  intros. apply known_wp; [apply keeps_short_option|done|]. by eapply wp_letter.
Qed.

Lemma wp_call_inside fuel k o p t n args s :
  At k o s → place s = (p, n) → (n < length t)%nat → Rest k ((p, t) :: args) → (1 <= k)%nat →
  Known s →
  wp (call (S fuel)) (λ r s', LetterDone k o p t n args r s' ∧ Known s') s.
Proof.
  intros HA Epl Hn HR Hk Hpk. eapply wp_call_start; [exact HA|done..|].
  intros s1 HA1 Epl1 Ea Hpk1. pose proof (rest_head _ _ _ _ HR) as [_ Ht]. rewrite Epl.
  do 2 wstep. eapply (wp_rd strs); [exact Ht|lia|]. cbn beta.
  rewrite (proj2 (Z.eqb_neq _ NUL)) by (by eapply (chr_nul strs); [|exact Ht|lia]). wstep.
  eapply wp_letter_known; try done. congruence.
Qed.

Lemma wp_call_idle fuel k o args s :
  At k o s → AtEnd s → Rest k args → (1 <= k)%nat → Known s →
  wp (call (S fuel)) (λ r s', CallDone k o args r s' ∧ Known s') s.
Proof.
  intros HA (t & Ht & Hlen) HR Hk Hpk. eapply wp_call_start; [exact HA|done..|].
  intros s1 HA1 Epl1 Ea Hpk1. destruct (place s) as [p n] eqn:Epl. simpl in Ht, Hlen. subst n.
  do 2 wstep. eapply (wp_rd strs); [exact Ht|lia|]. cbn beta. rewrite Nat.add_0_r, chr_end, Z.eqb_refl.
  eapply wp_mono; [apply known_wp; [apply keeps_scan|done|by eapply wp_scan_ref]|].
  intros found s2 [[Ea2 HF] Hk2]. rewrite Ea in Ea2. unfold CallDone.
  assert (∀ r, r = -1 → found = Some (-1) → wp (match found with
    | Some r => mret r
    | None => short_option strs emsg nargc options None None fl end) (λ r s', (r = -1 ∧ s' = s2)) s2).
  { by intros r -> ->. }
  destruct args as [|[q u] rest].
  { destruct HF as [-> HF]. by wsteps. }
  unfold ArgFound in HF. destruct u as [|d [|c cl]].
  - destruct HF as [-> HF]. by wsteps.
  - destruct (_ || _); [destruct HF as [-> HF]; by wsteps|]. destruct HF as (-> & HF & Epl2).
    eapply wp_letter_known; [exact HF|done|simpl; lia|done..].
  - destruct (negb _); [destruct HF as [-> HF]; by wsteps|].
    destruct (_ && _); [destruct HF as [-> HF]; by wsteps|]. destruct HF as (-> & HF & Epl2).
    eapply wp_letter_known; [exact HF|done|simpl; lia|done..].
Qed.

(** ** All calls *)

(** Characters and arguments. *)
Definition weight (args : list arg) : nat := sum_list_with (λ a : arg, S (length a.2)) args.

(** The calls have returned what the reference says. *)
Definition Agrees (ref : list call_result * nat) (rs : list call_result) (s : getopt_state) : Prop :=
  rs = ref.1 ∧ optind s = nargc - Z.of_nat ref.2 ∧ nargv s = argv.

(** The loop goes on after a call that returned an option. *)
Lemma wp_go_on fuel n r a o ref s :
  r ≠ -1 → optarg s = a → optopt s = o →
  wp (call_results n (call fuel)) (Agrees ref) s →
  wp (if r =? -1 then mret []
      else
        a ← gets optarg;
        o ← gets optopt;
        rs ← call_results n (call fuel); mret ((r, a, o) :: rs))
    (Agrees (result_cons (r, a, o) ref)) s.
Proof.
  intros Hr Ea Eo HW. rewrite (proj2 (Z.eqb_neq _ _)) by done. wsteps.
  eapply wp_mono; [exact HW|]. intros rs s' (-> & Ei & El). wsteps.
  split_and!; [by rewrite Ea, Eo|done..].
Qed.

(** Every state the loop comes by. *)
Definition LoopRuns (fuel n : nat) : Prop :=
  (∀ k o args s, At k o s → AtEnd s → Rest k args → (1 <= k)%nat → Known s →
     (weight args < n)%nat →
     wp (call_results n (call fuel)) (Agrees (reference options o args)) s) ∧
  (∀ k o p t m args s, At k o s → place s = (p, m) → (m < length t)%nat →
     Rest k ((p, t) :: args) → (1 <= k)%nat → Known s → (length t - m + weight args < n)%nat →
     wp (call_results n (call fuel))
       (Agrees (letters options (λ o, reference options o args)
          (λ c o, match args with
                  | [] => ([(BADARG options, None, c)], O)
                  | (q, _) :: rest => result_cons (c, Some (q, O), o) (reference options o rest)
                  end) p o m (drop m t))) s).

Lemma chr_ne t p n : strs !! p = Some t → (n < length t)%nat → chr t n ≠ -1.
Proof.
  intros Ht Hn. unfold chr. destruct (lookup_lt_is_Some_2 t n Hn) as [c Hc]. rewrite Hc. simpl.
  intros ->. eapply Hend; [exact Ht|]. by eapply list_elem_of_lookup_2.
Qed.

Lemma drop_chr t n : (n < length t)%nat → drop n t = chr t n :: drop (S n) t.
Proof.
  intros Hn. unfold chr. destruct (lookup_lt_is_Some_2 t n Hn) as [c Hc]. rewrite Hc. simpl.
  by erewrite drop_S.
Qed.

(** After a letter. *)
Lemma loop_letter fuel n k o p t m args r s :
  LoopRuns fuel n → (m < length t)%nat → Rest k ((p, t) :: args) → (1 <= k)%nat → Known s →
  (length t - m + weight args <= n)%nat → LetterDone k o p t m args r s →
  wp (if r =? -1 then mret []
      else
        a ← gets optarg;
        o ← gets optopt;
        rs ← call_results n (call fuel); mret ((r, a, o) :: rs))
    (Agrees (letters options (λ o, reference options o args)
      (λ c o, match args with
              | [] => ([(BADARG options, None, c)], O)
              | (q, _) :: rest => result_cons (c, Some (q, O), o) (reference options o rest)
              end) p o m (drop m t))) s.
Proof.
  intros [Hidle Hin] Hm HR Hk Hpk Hw HL. pose proof (rest_head _ _ _ _ HR) as [_ Ht].
  pose proof (rest_tail _ _ _ HR) as HR'. pose proof (chr_ne _ _ _ Ht Hm) as Hne.
  rewrite (drop_chr t m Hm). cbn [letters]. unfold LetterDone in HL.
  (* the letters that follow, or the next argument *)
  assert (∀ o, Stop k o p t (S m) s → optopt s = o ∧
    wp (call_results n (call fuel)) (Agrees (letters options (λ o, reference options o args)
      (λ c o, match args with
              | [] => ([(BADARG options, None, c)], O)
              | (q, _) :: rest => result_cons (c, Some (q, O), o) (reference options o rest)
              end) p o (S m) (drop (S m) t))) s) as HS.
  { intros o' HS. unfold Stop in HS. case_decide as E.
    - destruct HS as [HA Epl]. split; [apply HA|]. rewrite drop_ge by lia.
      eapply Hidle; [exact HA|by exists t; rewrite Epl, E|done|lia|done|lia].
    - destruct HS as [HA Epl]. split; [apply HA|]. eapply Hin; [exact HA|done|lia|done..|lia]. }
  assert (∀ o, At (S k) o s → AtEnd s → optopt s = o ∧
    wp (call_results n (call fuel)) (Agrees (reference options o args)) s) as HN.
  { intros o' HA HE. split; [apply HA|]. eapply Hidle; [exact HA|done..|lia|done|lia]. }
  destruct (letter_of options (chr t m)).
  - destruct HL as (-> & Ea & HL). apply HS in HL as [Eo HW]. by apply wp_go_on.
  - destruct HL as (-> & Ea & HL). apply HS in HL as [Eo HW]. by apply wp_go_on.
  - case_decide as E.
    + rewrite drop_ge by lia. destruct args as [|[q u] rest].
      * destruct HL as (-> & Ea & HA & HE). apply (wp_go_on fuel n _ _ _ ([], O)); [apply badarg_ne|done|apply HA|].
        pose proof HR as [Hn _]. simpl in Hn. eapply wp_mono; [by eapply (Hidle (S k)); [exact HA|..]; try done; simpl; lia|].
        done.
      * destruct HL as (-> & Ea & HA & HE). apply wp_go_on; [done|done|apply HA|].
        eapply Hidle; [exact HA|done|by eapply rest_tail|lia|done|unfold weight in *; simpl in *; lia].
    + destruct HL as (-> & Ea & HA & HE). apply HN in HA as [Eo HW]; [|done].
      rewrite (drop_chr t (S m)) by lia. by apply wp_go_on.
  - destruct HL as (-> & Ea & HA & HE). apply HN in HA as [Eo HW]; [|done].
    apply wp_go_on; try done. rewrite Ea. case_decide as E.
    + by rewrite drop_ge by lia.
    + by rewrite (drop_chr t (S m)) by lia.
Qed.

Lemma loop_runs fuel n : LoopRuns (S fuel) n.
Proof.
  induction n as [|n IH]; split; try (intros; lia).
  - intros k o args s HA HE HR Hk Hpk Hw. cbn [call_results]. wstep.
    eapply wp_mono; [by eapply wp_call_idle|]. intros r s1 [HC Hk1].
    destruct args as [|[p t] rest].
    { destruct HC as [-> (El & Ei & _)]. wsteps. destruct HR as [Hn _]. split_and!; [done| |done].
      rewrite Ei. simpl in *. lia. }
    assert (Hstop : ∀ j, r = -1 ∧ At (k + j) o s1 → (j <= S (length rest))%nat →
      wp (if r =? -1 then mret []
          else a ← gets optarg; o ← gets optopt;
               rs ← call_results n (call (S fuel)); mret ((r, a, o) :: rs))
        (Agrees ([], (S (length rest) - j)%nat)) s1).
    { intros j [-> (El & Ei & _)] Hj. wsteps. destruct HR as [Hn _]. split_and!; [done| |done].
      rewrite Ei. simpl in *. lia. }
    cbn [reference]. unfold CallDone in HC. unfold weight in Hw. simpl in Hw. fold (weight rest) in Hw.
    destruct t as [|d [|c cl]].
    + apply (Hstop O); [by rewrite Nat.add_0_r|lia].
    + destruct (_ || _); [apply (Hstop O); [by rewrite Nat.add_0_r|lia]|].
      eapply (loop_letter (S fuel) n k o p [d] 0); try done; simpl in *; lia.
    + destruct (negb _); [apply (Hstop O); [by rewrite Nat.add_0_r|lia]|].
      destruct (_ && _).
      * replace (length rest) with (S (length rest) - 1)%nat by lia.
        apply (Hstop 1%nat); [by rewrite Nat.add_1_r|lia].
      * eapply (loop_letter (S fuel) n k o p (d :: c :: cl) 1); try done; simpl in *; lia.
  - intros k o p t m args s HA Epl Hm HR Hk Hpk Hw. cbn [call_results]. wstep.
    eapply wp_mono; [by eapply wp_call_inside|]. intros r s1 [HL Hk1].
    eapply loop_letter; try done. lia.
Qed.
End reference.
