(* ===== verification/GetoptProperties.v ===== *)
(** The option parser: properties. *)
From Stdlib Require Import ZArith Lia.
From stdpp Require Import prelude gmap.
From S2P Require Import Prelude Getopt GetoptPermute GetoptInvariant GetoptProof.
From S2P Require Import GetoptCalls GetoptReference.

Local Open Scope Z_scope.

(** ** The argument vector *)

(** [permute_args] exchanges the block of non-options [A] with the block of
    options [B] behind it, keeping the order inside the blocks, and changes no
    other argument; every access is inside the vector. *)
Theorem permute_args_exchanges s pre A B post :
  A ≠ [] → B ≠ [] → nargv s = pre ++ A ++ B ++ post →
  permute_args (Z.of_nat (length pre)) (Z.of_nat (length pre + length A))
    (Z.of_nat (length pre + length A + length B)) s
  = Some (tt, with_nargv (pre ++ B ++ A ++ post) s).
Proof. apply permute_blocks. Qed.

(** The state a program starts with: the initialisers of the globals. *)
Definition init_state (l : list (option cptr)) (emsg : positive) : getopt_state :=
  GetoptState 1 1 cQUEST 0 None (emsg, O) (-1) (-1) (-1) l ∅ [].

(** ** An example *)

(** [prog -a file --long=x -b v -- -c] *)
Definition ex_strs : gmap positive str := list_to_map
  [(1%positive, []); (2%positive, [112; 114; 111; 103]); (3%positive, [45; 97]);
   (4%positive, [102; 105; 108; 101]); (5%positive, [45; 45; 108; 111; 110; 103; 61; 120]);
   (6%positive, [45; 98]); (7%positive, [118]); (8%positive, [45; 45]); (9%positive, [45; 99])].
Definition ex_args : list (option cptr) :=
  (λ p, Some (p, O)) <$> [2; 3; 4; 5; 6; 7; 8; 9]%positive.
(** [ab:] *)
Definition ex_options : str := [97; 98; 58].
Definition ex_longs : list longopt := [LongOpt [108; 111; 110; 103] required_argument None 300].

Lemma permute_args_exchanges_witness :
  permute_args 1 3 6 (init_state (take 8 ex_args) 1)
  = Some (tt, with_nargv ((λ p, Some (p, O)) <$> [2; 5; 6; 7; 3; 4; 8; 9]%positive)
      (init_state (take 8 ex_args) 1)).
Proof.
  apply (permute_args_exchanges _ [Some (2%positive, O)]
    [Some (3%positive, O); Some (4%positive, O)]
    [Some (5%positive, O); Some (6%positive, O); Some (7%positive, O)]
    [Some (8%positive, O); Some (9%positive, O)]); done.
Defined.

Section properties.
Context (strs : gmap positive str) (emsg : positive) (posix_env : bool).
Context (args0 : list (option cptr)).

(** What the parser is given: strings without NUL in them, among them the empty
    constant, and an argument vector of pointers to strings. *)
Record Given (longs : option (list longopt)) : Prop := {
  given_emsg : strs !! emsg = Some [];
  given_nul : map_Forall (λ _ t, NUL ∉ t) strs;
  given_args : Forall (IsArg strs) args0;
  given_prog : args0 ≠ [];
  given_longs : from_option NoMinusOne True longs
}.

Lemma between_init perm longs :
  Given longs →
  Between strs args0 perm (lens strs args0) (init_state (args0 ++ [None]) emsg).
Proof.
  intros [He _ HA Hp _]. left. exists plain, (take 1 args0), [], [], (drop 1 args0), [].
  destruct args0 as [|a l]; [done|].
  split_and!; try done; simpl.
  - by apply (pieces_fresh strs (a :: l) 1); [done|done|simpl; lia].
  - by left.
  - rewrite drop_0. pose proof (lens_cons strs a l). lia.
Qed.
End properties.

(** C11: [getopt_internal] is safe from every state between two calls and from
    every fresh one: it returns, without reading outside the vector or a
    string; the vector stays a permutation of the arguments, [optind] stays
    inside it, and either the options are over or fewer characters are left. *)
Theorem getopt_internal_safe strs emsg posix_env args0 options longs idx flags fuel w s :
  Given strs emsg args0 longs →
  Fresh strs args0 w s ∨
    Between strs args0 (skips (eff_flags options posix_env flags)) w s →
  PosixKnown posix_env s → (length args0 < fuel)%nat →
  ∃ r s', getopt_internal strs emsg posix_env fuel (Z.of_nat (length args0)) (Some options)
            longs idx flags s = Some (r, s') ∧
    nargv s' ≡ₚ args0 ++ [None] ∧
    1 <= optind s' <= Z.of_nat (length args0) ∧ PosixKnown posix_env s' ∧
    (r = -1 ∧ Finished strs emsg args0 (goes_on (eff_flags options posix_env flags)) s' ∨
     ∃ w', (w' < w)%nat ∧
       Between strs args0 (skips (eff_flags options posix_env flags)) w' s').
Proof.
  intros [He Hn HA Hp Hl] Hs Hpk Hf.
  destruct (wp_elim _ _ _ (getopt_internal_run strs emsg posix_env He Hn args0 options longs idx
    flags Hl fuel w s Hs Hpk Hf)) as (r & s' & E & Hp' & HC).
  exists r, s'. split; [done|].
  destruct HC as [[-> HF]|[_ (w' & Hw & HB)]].
  - split_and!; [by eapply finished_perm|by eapply finished_optind..|by right|by left].
  - split_and!; [by eapply between_perm|by eapply between_optind_bound..|by right|].
    right. by exists w'.
Qed.

Lemma ex_given : Given ex_strs 1 ex_args (Some ex_longs).
Proof.
  split.
  - done.
  - apply (bool_decide_unpack _). by vm_compute.
  - repeat constructor; by eexists _, _.
  - done.
  - by constructor.
Qed.

Definition ex_init : getopt_state := init_state (ex_args ++ [None]) 1.

Lemma getopt_internal_safe_witness :
  ∃ r s', getopt_internal ex_strs 1 false 9 8 (Some ex_options) (Some ex_longs) None 1 ex_init
    = Some (r, s') ∧ nargv s' ≡ₚ ex_args ++ [None].
Proof.
  destruct (getopt_internal_safe ex_strs 1 false ex_args ex_options (Some ex_longs) None 1 9
    (lens ex_strs ex_args) ex_init) as (r & s' & E & HP & _).
  - apply ex_given.
  - right. eapply between_init, ex_given.
  - by left.
  - simpl. lia.
  - exists r, s'. split; [exact E|exact HP].
Defined.



(** C13: the loop around [getopt], [getopt_long] or [getopt_long_only] ends: at
    most one call per character and argument that is left returns an option. *)
Theorem getopt_loop_terminates strs emsg posix_env args0 options longs idx flags fuel w n s :
  Given strs emsg args0 longs → NoEnd strs →
  Fresh strs args0 w s ∨
    Between strs args0 (skips (eff_flags options posix_env flags)) w s →
  PosixKnown posix_env s → (length args0 < fuel)%nat → (w < n)%nat →
  ∃ rs s', call_until_end n (getopt_internal strs emsg posix_env fuel (Z.of_nat (length args0))
      (Some options) longs idx flags) s = Some (rs, s') ∧
    (length rs <= w)%nat ∧ optreset s' = 0 ∧ 1 <= optind s' <= Z.of_nat (length args0).
Proof.
  intros [He Hnul HA Hp Hl] Hne Hs Hpk Hf Hn.
  destruct (wp_elim _ _ _ (call_until_end_run strs emsg posix_env He Hnul args0 options longs idx
    flags Hl fuel w n s Hne Hs Hpk Hf Hn)) as (rs & s' & E & Hlen & HF).
  exists rs, s'. split_and!; [done|done| |by eapply finished_optind..].
  by destruct HF as (? & ? & ? & ? & _ & _ & _ & _ & _ & _ & _ & _ & ? & _).
Qed.

Lemma getopt_loop_terminates_witness :
  ∃ rs s', call_until_end 40 (getopt ex_strs 1 true 9 8 (Some ex_options)) ex_init = Some (rs, s') ∧
    (length rs <= 35)%nat.
Proof.
  destruct (getopt_loop_terminates ex_strs 1 true ex_args ex_options None None 0 9
    (lens ex_strs ex_args) 40 ex_init) as (rs & s' & E & Hl & _).
  - destruct ex_given; by split.
  - apply (bool_decide_unpack _). by vm_compute.
  - right. eapply between_init, ex_given.
  - by left.
  - simpl. lia.
  - apply Nat.ltb_lt. by vm_compute.
  - exists rs, s'. split; [exact E|]. etransitivity; [exact Hl|]. apply Nat.leb_le. by vm_compute.
Defined.

(** ** Long names *)

Section long_names.
Context (cur : str) (short_too : bool) (flags : Z).

(** The name is the argument; the argument abbreviates the name.  A single
    letter that is a short option is no abbreviation. *)
Definition Exact (o : longopt) : Prop := name o = cur.
Definition Abbreviates (o : longopt) : Prop :=
  cur `prefix_of` name o ∧ name o ≠ cur ∧ (short_too = true → length cur ≠ 1%nat).

#[export] Instance exact_dec o : Decision (Exact o).
Proof. unfold Exact. apply _. Defined.
#[export] Instance abbreviates_dec o : Decision (Abbreviates o).
Proof. unfold Abbreviates. apply _. Defined.

(** Two options an abbreviation must not confuse. *)
Definition Differ (o1 o2 : longopt) : Prop :=
  has_flag flags FLAG_LONGONLY = true ∨ has_arg o1 ≠ has_arg o2 ∨ flag o1 ≠ flag o2 ∨
  val o1 ≠ val o2.

Lemma strncmp_prefix (k l : str) : strncmp_ne (length k) k l = negb (bool_decide (k `prefix_of` l)).
Proof.
  revert l; induction k as [|x k IH]; intros l; cbn [length strncmp_ne].
  { rewrite bool_decide_true; [done|apply prefix_nil]. }
  destruct l as [|y l].
  { rewrite bool_decide_false; [done|]. apply prefix_nil_not. }
  destruct (Z.eqb_spec x y) as [->|Hne].
  - rewrite IH. f_equal. apply bool_decide_ext. split; [apply prefix_cons|apply prefix_cons_inv_2].
  - rewrite bool_decide_false; [done|]. by intros ?%prefix_cons_inv_1.
Qed.

(** What the search says of the option it looks at. *)
Lemma long_match_cons o opts i m second :
  long_match (o :: opts) cur short_too flags i m second =
  if decide (Exact o) then (Some (i, o), true, second)
  else if decide (Abbreviates o) then
    match m with
    | None => long_match opts cur short_too flags (i + 1) (Some (i, o)) second
    | Some (_, o1) =>
        long_match opts cur short_too flags (i + 1) m
          (second || (has_flag flags FLAG_LONGONLY || negb (has_arg o =? has_arg o1)
             || negb (bool_decide (flag o = flag o1)) || negb (val o =? val o1)))
    end
  else long_match opts cur short_too flags (i + 1) m second.
Proof.
  cbn [long_match]. rewrite strncmp_prefix. case_bool_decide as Hpre; simpl.
  - destruct (decide (length (name o) = length cur)) as [El|Nl].
    + rewrite decide_True; [done|]. symmetry. by apply prefix_length_eq; [|lia].
    + rewrite (decide_False (P := Exact o)) by (intros ?; congruence).
      destruct (short_too && bool_decide (length cur = 1%nat)) eqn:E.
      * apply andb_true_iff in E as [Es E%bool_decide_eq_true].
        rewrite decide_False; [done|]. intros (_ & _ & Hn). by apply Hn.
      * rewrite decide_True; [done|]. split_and!; [done|congruence|].
        intros Es. rewrite Es in E. by apply bool_decide_eq_false in E.
  - rewrite (decide_False (P := Exact o)); [|by intros E; apply Hpre; rewrite E].
    rewrite decide_False; [done|]. by intros [? _].
Qed.

Lemma differ_spec o o1 :
  has_flag flags FLAG_LONGONLY || negb (has_arg o =? has_arg o1)
    || negb (bool_decide (flag o = flag o1)) || negb (val o =? val o1) = true ↔ Differ o o1.
Proof.
  unfold Differ. rewrite !orb_true_iff, !negb_true_iff, bool_decide_eq_false, !Z.eqb_neq. tauto.
Qed.

(** The search from option number [i] on, after a first abbreviation [o1]. *)
Lemma long_match_after opts i j o1 second :
  let '(m', exact, second') := long_match opts cur short_too flags i (Some (j, o1)) second in
  match list_find Exact opts with
  | Some (k, o) => exact = true ∧ m' = Some (i + Z.of_nat k, o)
  | None => exact = false ∧ m' = Some (j, o1) ∧
      (second' = true ↔ second = true ∨ Exists (λ o, Abbreviates o ∧ Differ o o1) opts)
  end.
Proof.
  revert i second; induction opts as [|o opts IH]; intros i second.
  { simpl. rewrite Exists_nil. tauto. }
  rewrite long_match_cons. cbn [list_find]. destruct (decide (Exact o)) as [He|He].
  { split; [done|]. do 2 f_equal. lia. }
  assert (∀ second, let '(m', exact, second') :=
    long_match opts cur short_too flags (i + 1) (Some (j, o1)) second in
    match prod_map S id <$> list_find Exact opts with
    | Some (k, o) => exact = true ∧ m' = Some (i + Z.of_nat k, o)
    | None => exact = false ∧ m' = Some (j, o1) ∧
        (second' = true ↔ second = true ∨ Exists (λ o, Abbreviates o ∧ Differ o o1) opts)
    end) as IH'.
  { intros sec. specialize (IH (i + 1) sec). destruct (long_match _ _ _ _ _ _ _) as [[m' ex] sec'].
    destruct (list_find Exact opts) as [[k o']|]; simpl; [|done].
    destruct IH as [-> ->]. split; [done|]. do 2 f_equal. lia. }
  destruct (decide (Abbreviates o)) as [Ha|Ha].
  - specialize (IH' (second || (has_flag flags FLAG_LONGONLY || negb (has_arg o =? has_arg o1)
      || negb (bool_decide (flag o = flag o1)) || negb (val o =? val o1)))).
    destruct (long_match _ _ _ _ _ _ _) as [[m' ex] sec'].
    destruct (prod_map S id <$> _) as [[k o']|]; [done|]. destruct IH' as (-> & -> & ->).
    split_and!; [done..|]. rewrite orb_true_iff, differ_spec, Exists_cons. tauto.
  - specialize (IH' second). destruct (long_match _ _ _ _ _ _ _) as [[m' ex] sec'].
    destruct (prod_map S id <$> _) as [[k o']|]; [done|]. destruct IH' as (-> & -> & ->).
    split_and!; [done..|]. rewrite Exists_cons. tauto.
Qed.

(** The search from option number [i] on, nothing found so far. *)
Lemma long_match_from opts i :
  let '(m, exact, second) := long_match opts cur short_too flags i None false in
  match list_find Exact opts with
  | Some (k, o) => exact = true ∧ m = Some (i + Z.of_nat k, o)
  | None => exact = false ∧
      match list_find Abbreviates opts with
      | Some (k, o1) => m = Some (i + Z.of_nat k, o1) ∧
          (second = true ↔ Exists (λ o, Abbreviates o ∧ Differ o o1) (drop (S k) opts))
      | None => m = None ∧ second = false
      end
  end.
Proof.
  revert i; induction opts as [|o opts IH]; intros i; [done|].
  rewrite long_match_cons. cbn [list_find]. destruct (decide (Exact o)) as [He|He].
  { split; [done|]. do 2 f_equal. lia. }
  destruct (decide (Abbreviates o)) as [Ha|Ha].
  - pose proof (long_match_after opts (i + 1) i o false) as H.
    destruct (long_match _ _ _ _ _ _ _) as [[m' ex] sec'].
    destruct (list_find Exact opts) as [[k o']|]; simpl.
    + destruct H as [-> ->]. split; [done|]. do 2 f_equal. lia.
    + destruct H as (-> & -> & ->). rewrite drop_0. split_and!; [done|do 2 f_equal; lia|].
      naive_solver.
  - specialize (IH (i + 1)). destruct (long_match _ _ _ _ _ _ _) as [[m' ex] sec'].
    destruct (list_find Exact opts) as [[k o']|]; simpl.
    + destruct IH as [-> ->]. split; [done|]. do 2 f_equal. lia.
    + destruct IH as [-> IH]. split; [done|]. destruct (list_find Abbreviates opts) as [[k o']|]; simpl.
      * destruct IH as [-> IH]. split; [do 2 f_equal; lia|done].
      * done.
Qed.
End long_names.

(** C14: a long option is looked up as documented: the first option with
    exactly that name; without one, the first option the name abbreviates,
    which is ambiguous when a later one it abbreviates too differs from it. *)
Theorem long_match_correct longs cur short_too flags :
  let '(m, exact, second) := long_match longs cur short_too flags 0 None false in
  match list_find (Exact cur) longs with
  | Some (k, o) => exact = true ∧ m = Some (Z.of_nat k, o)
  | None => exact = false ∧
      match list_find (Abbreviates cur short_too) longs with
      | Some (k, o1) => m = Some (Z.of_nat k, o1) ∧
          (second = true ↔
           Exists (λ o, Abbreviates cur short_too o ∧ Differ flags o o1) (drop (S k) longs))
      | None => m = None ∧ second = false
      end
  end.
Proof. apply long_match_from. Qed.

(** ** [getopt] *)

(** C15: the values, arguments and [optopt]s of the calls of [getopt] on a
    command line are those of one pass over its strings, for every option
    string, whether letters come alone or clustered and arguments attached or
    apart, with the errors at the letters unknown or without their argument;
    [optind] is left at the first operand and the vector as it was. *)
Theorem getopt_matches_reference strs emsg posix_env options prog args fuel n :
  strs !! emsg = Some [] → map_Forall (λ _ t, NUL ∉ t) strs → NoEnd strs →
  first_char options ≠ cDASH →
  Forall (λ a : arg, strs !! a.1 = Some a.2) args → (weight args < n)%nat →
  let argv := (Some (prog, O) :: ((λ a : arg, Some (a.1, O)) <$> args)) ++ [None] in
  let expected := reference (eff_options options) cQUEST args in
  ∃ s', call_results n (getopt strs emsg posix_env (S fuel) (Z.of_nat (S (length args))) (Some options))
      (init_state argv emsg) = Some (expected.1, s') ∧
    optind s' = Z.of_nat (S (length args)) - Z.of_nat expected.2 ∧ nargv s' = argv.
Proof.
  intros He Hnul Hne Hd HA Hn argv expected.
  destruct (loop_runs strs emsg posix_env He Hnul Hne argv (Z.of_nat (S (length args))) options Hd
    fuel n) as [Hidle _].
  destruct (wp_elim _ _ _ (Hidle 1%nat cQUEST args (init_state argv emsg) ltac:(done)
    ltac:(by exists []) ltac:(split; [lia|]; intros i p t Hi; split;
      [unfold argv; simpl; rewrite lookup_app_l by
         (rewrite length_fmap; by eapply lookup_lt_Some); by rewrite list_lookup_fmap, Hi
      |rewrite Forall_lookup in HA; by apply HA in Hi]) ltac:(lia) ltac:(by left) Hn))
    as (rs & s' & E & -> & Hi & Hl).
  by exists s'.
Qed.

(** [prog -xaf -bval -b val -z -- -a] with the options [ab:] *)
Lemma getopt_matches_reference_witness :
  let strs : gmap positive str := list_to_map
    [(1%positive, []); (3%positive, [45; 97; 98; 122]); (4%positive, [45; 98]);
     (5%positive, [118]); (6%positive, [45; 120; 97]); (7%positive, [45; 45]);
     (8%positive, [45; 97])] in
  let args : list arg := [(3%positive, [45; 97; 98; 122]); (4%positive, [45; 98]);
    (5%positive, [118]); (6%positive, [45; 120; 97]); (7%positive, [45; 45]);
    (8%positive, [45; 97])] in
  ∃ s', call_results 30 (getopt strs 1 false 9 7 (Some ex_options))
      (init_state ((Some (2%positive, O) :: ((λ a : arg, Some (a.1, O)) <$> args)) ++ [None]) 1)
    = Some ([(97, None, 63); (98, Some (3%positive, 3%nat), 63);
             (98, Some (5%positive, O), 63); (63, None, 120); (97, None, 120)], s') ∧
    optind s' = 6.
Proof.
  intros strs args.
  destruct (getopt_matches_reference strs 1 false ex_options 2 args 8 30)
    as (s' & E & Hi & _).
  - done.
  - apply (bool_decide_unpack _). by vm_compute.
  - apply (bool_decide_unpack _). by vm_compute.
  - done.
  - repeat constructor.
  - apply Nat.ltb_lt. by vm_compute.
  - exists s'. split; [exact E|exact Hi].
Defined.
