(* ===== verification/CInt.v ===== *)
(** Machine integers: a value of a C integer type is a [Z] in its range, and the
    conversions wrap around (two's complement).  Arrays of them, indexed by a
    [Z] that has to be inside. *)
From Stdlib Require Import ZArith Lia.
From stdpp Require Import prelude.

Local Open Scope Z_scope.

Definition u8 (z : Z) : Z := z mod 2 ^ 8.
Definition u16 (z : Z) : Z := z mod 2 ^ 16.
Definition u32 (z : Z) : Z := z mod 2 ^ 32.
Definition u64 (z : Z) : Z := z mod 2 ^ 64.

(** Conversion to [int] (and to [long] on Windows). *)
Definition s32 (z : Z) : Z := (z + 2 ^ 31) mod 2 ^ 32 - 2 ^ 31.

Definition INT_MAX : Z := 2 ^ 31 - 1.

Definition is_int (z : Z) : Prop := - 2 ^ 31 <= z < 2 ^ 31.
Definition is_u32 (z : Z) : Prop := 0 <= z < 2 ^ 32.
Definition is_u64 (z : Z) : Prop := 0 <= z < 2 ^ 64.

Lemma u32_small z : is_u32 z → u32 z = z.
Proof. intros H. by apply Z.mod_small. Qed.

Lemma u64_small z : is_u64 z → u64 z = z.
Proof. intros H. by apply Z.mod_small. Qed.

Lemma s32_small z : is_int z → s32 z = z.
Proof. intros H. unfold s32, is_int in *. rewrite Z.mod_small by lia. lia. Qed.

Lemma s32_range z : is_int (s32 z).
Proof. unfold s32, is_int. pose proof (Z.mod_pos_bound (z + 2 ^ 31) (2 ^ 32)). lia. Qed.

(** A negative [int] converted to [unsigned int]. *)
Lemma u32_neg z : is_int z → z < 0 → u32 z = z + 2 ^ 32.
Proof.
  intros H Hz. unfold u32, is_int in *. rewrite <-(Z_mod_plus_full z 1 (2 ^ 32)).
  rewrite Z.mod_small; lia.
Qed.

(** The top bit of a word. *)
Lemma land_low_31 z : Z.land z (2 ^ 31 - 1) = z mod 2 ^ 31.
Proof. rewrite <-Z.land_ones by lia. done. Qed.

Lemma land_top_bit z : is_u32 z → Z.land z (2 ^ 31) = if z <? 2 ^ 31 then 0 else 2 ^ 31.
Proof.
  intros Hz. unfold is_u32 in Hz.
  assert (Hb : Z.land z (2 ^ 31) = if Z.testbit z 31 then 2 ^ 31 else 0).
  { apply Z.bits_inj'. intros n Hn. rewrite Z.land_spec, Z.pow2_bits_eqb by lia.
    destruct (Z.eqb_spec 31 n) as [<-|Hne]; rewrite ?andb_true_r, ?andb_false_r.
    - destruct (Z.testbit z 31); [by rewrite Z.pow2_bits_true|by rewrite Z.bits_0].
    - destruct (Z.testbit z 31); [by rewrite Z.pow2_bits_false by lia|by rewrite Z.bits_0]. }
  rewrite Hb, Z.testbit_eqb by lia.
  destruct (Z.ltb_spec z (2 ^ 31)).
  - by rewrite Z.div_small by lia.
  - replace (z / 2 ^ 31) with 1; [done|].
    apply Z.div_unique with (z - 2 ^ 31); lia.
Qed.

(** [flags & f] as a condition. *)
Definition flagged (flags f : Z) : bool := negb (Z.land flags f =? 0).

Lemma flagged_lor a f : f ≠ 0 → flagged (Z.lor a f) f = true.
Proof.
  intros Hf. unfold flagged. rewrite Z.land_lor_distr_l, Z.land_diag.
  apply negb_true_iff, Z.eqb_neq. intros [_ ?]%Z.lor_eq_0_iff. done.
Qed.

(** ** Arrays *)

(** [b[i] = c], inside the array. *)
Definition set_char (b : list Z) (i c : Z) : option (list Z) :=
  if (0 <=? i) && (i <? Z.of_nat (length b)) then Some (<[Z.to_nat i := c]> b) else None.

(** [b[i]], inside the array. *)
Definition get_char (b : list Z) (i : Z) : option Z :=
  if 0 <=? i then b !! Z.to_nat i else None.

Lemma set_char_run b i c :
  0 <= i < Z.of_nat (length b) → set_char b i c = Some (<[Z.to_nat i := c]> b).
Proof.
  intros Hi. unfold set_char. destruct (Z.leb_spec 0 i); [|lia].
  by destruct (Z.ltb_spec i (Z.of_nat (length b))); [|lia].
Qed.

Lemma get_char_Some b i :
  0 <= i < Z.of_nat (length b) → ∃ c, get_char b i = Some c.
Proof.
  intros Hi. unfold get_char. rewrite (proj2 (Z.leb_le 0 i)) by lia.
  apply lookup_lt_is_Some_2. lia.
Qed.

Lemma get_set_char b i c j :
  0 <= i < Z.of_nat (length b) →
  get_char (<[Z.to_nat i := c]> b) j = if j =? i then Some c else get_char b j.
Proof.
  intros Hi. unfold get_char. destruct (Z.eqb_spec j i) as [->|Hj].
  - rewrite (proj2 (Z.leb_le 0 i)) by lia. apply list_lookup_insert_eq. lia.
  - destruct (Z.leb_spec 0 j); [|done]. apply list_lookup_insert_ne. lia.
Qed.
