(* ===== verification/PosixWin.v ===== *)
(** [crypto/compat/posix_win.c]: POSIX file and socket calls on Windows.

    The C runtime, Winsock and the Win32 functions are arguments: computations
    on the state, [errno] and the rest of the system, which the source only
    calls.  Error codes are the names the source switches on; a code it does
    not name is [WSA_other] or [WIN_other]. *)
From Stdlib Require Import ZArith Lia.
From stdpp Require Import prelude.
From S2P Require Import Prelude CInt.

Local Open Scope Z_scope.

Inductive errno_code :=
  | EPERM | ENOENT | EINTR | EIO | EBADF | EAGAIN | ENOMEM | EACCES | EFAULT | EEXIST | EXDEV
  | EINVAL | EFBIG | ENOTEMPTY | EPIPE | EINPROGRESS | ENOTSOCK | ENOTSUP | ENOPROTOOPT
  | ECONNREFUSED | EAFNOSUPPORT | errno_other (z : Z).

Inductive wsa_code :=
  | WSAENOBUFS | WSAEACCES | WSANOTINITIALISED | WSAEHOSTUNREACH | WSAENETDOWN | WSAEFAULT
  | WSAEINTR | WSAEINVAL | WSAEINPROGRESS | WSAEWOULDBLOCK | WSAEOPNOTSUPP | WSAEMSGSIZE
  | WSAENOTSOCK | WSAENOPROTOOPT | WSAECONNREFUSED | WSAEAFNOSUPPORT | WSAEBADF | WSAENETRESET
  | WSAENOTCONN | WSAECONNABORTED | WSAECONNRESET | WSAESHUTDOWN | WSAETIMEDOUT
  | WSA_other (z : Z).

Inductive win32_code :=
  | ERROR_FILE_NOT_FOUND | ERROR_PATH_NOT_FOUND | ERROR_BAD_PATHNAME
  | ERROR_FILENAME_EXCED_RANGE | ERROR_ACCESS_DENIED | ERROR_SHARING_VIOLATION
  | ERROR_LOCK_VIOLATION | ERROR_FILE_EXISTS | ERROR_ALREADY_EXISTS | ERROR_NOT_SAME_DEVICE
  | ERROR_DIR_NOT_EMPTY | ERROR_NOT_ENOUGH_MEMORY | ERROR_INVALID_PARAMETER
  | WIN_other (z : Z).

#[global] Instance errno_eq_dec : EqDecision errno_code.
Proof. solve_decision. Defined.
#[global] Instance wsa_eq_dec : EqDecision wsa_code.
Proof. solve_decision. Defined.

(** [errno], and everything the arguments below read and change. *)
Record sys (W : Type) := Sys { errno : errno_code; world : W }.
Arguments Sys {_} _ _.
Arguments errno {_} _.
Arguments world {_} _.

Definition set_errno {W} (e : errno_code) : ST (sys W) unit := modify (λ s, Sys e (world s)).

Definition SOCKET_ERROR : Z := -1.

(** ** Descriptors *)

Definition is_socket (fd : Z) : bool :=
  if fd <? 3 then false else Z.land (u32 fd) (2 ^ 31) =? 0.

Definition get_real_fd (fd : Z) : Z := s32 (Z.land (u32 fd) (2 ^ 31 - 1)).

(** [fh + 0x80000000], an [unsigned int], returned as an [int]. *)
Definition mark_fd (fh : Z) : Z := s32 (u32 (u32 fh + 2 ^ 31)).

(** ** Error codes *)

Definition win32_errno_of (err : win32_code) : errno_code :=
  match err with
  | ERROR_FILE_NOT_FOUND | ERROR_PATH_NOT_FOUND | ERROR_BAD_PATHNAME
  | ERROR_FILENAME_EXCED_RANGE => ENOENT
  | ERROR_ACCESS_DENIED | ERROR_SHARING_VIOLATION | ERROR_LOCK_VIOLATION => EACCES
  | ERROR_FILE_EXISTS | ERROR_ALREADY_EXISTS => EEXIST
  | ERROR_NOT_SAME_DEVICE => EXDEV
  | ERROR_DIR_NOT_EMPTY => ENOTEMPTY
  | ERROR_NOT_ENOUGH_MEMORY => ENOMEM
  | ERROR_INVALID_PARAMETER => EINVAL
  | WIN_other _ => EIO
  end.

Definition wsa_errno_of (err : wsa_code) : errno_code :=
  match err with
  | WSAENOBUFS => ENOMEM
  | WSAEACCES => EACCES
  | WSANOTINITIALISED => EPERM
  | WSAEHOSTUNREACH | WSAENETDOWN => EIO
  | WSAEFAULT => EFAULT
  | WSAEINTR => EINTR
  | WSAEINVAL => EINVAL
  | WSAEINPROGRESS => EINPROGRESS
  | WSAEWOULDBLOCK => EAGAIN
  | WSAEOPNOTSUPP => ENOTSUP
  | WSAEMSGSIZE => EFBIG
  | WSAENOTSOCK => ENOTSOCK
  | WSAENOPROTOOPT => ENOPROTOOPT
  | WSAECONNREFUSED => ECONNREFUSED
  | WSAEAFNOSUPPORT => EAFNOSUPPORT
  | WSAEBADF => EBADF
  | WSAENETRESET | WSAENOTCONN | WSAECONNABORTED | WSAECONNRESET | WSAESHUTDOWN
  | WSAETIMEDOUT => EPIPE
  | WSA_other _ => EIO
  end.

Definition win32_errno {W} (err : win32_code) : ST (sys W) Z :=
  set_errno (win32_errno_of err);; mret (-1).

Definition wsa_errno {W} (err : wsa_code) : ST (sys W) Z :=
  set_errno (wsa_errno_of err);; mret (-1).

(** ** The calls *)

(** The functions of the C runtime, of Winsock and of Win32.  Buffers, paths,
    streams and socket addresses are pointers passed on. *)
Record os_calls (W : Type) := OsCalls {
  os_open : positive → Z → Z → ST (sys W) Z;
  os_close : Z → ST (sys W) Z;
  os_read : Z → ptr → Z → ST (sys W) Z;
  os_write : Z → ptr → Z → ST (sys W) Z;
  os_fdopen : Z → positive → ST (sys W) ptr;
  os_fstat : Z → ptr → ST (sys W) Z;
  os_chsize : Z → Z → ST (sys W) Z;
  os_MoveFileEx : positive → positive → ST (sys W) bool;
  os_GetLastError : ST (sys W) win32_code;
  os_connect : Z → ptr → Z → ST (sys W) Z;
  os_closesocket : Z → ST (sys W) Z;
  os_recv : Z → ptr → Z → ST (sys W) Z;
  os_send : Z → ptr → Z → ST (sys W) Z;
  os_getsockopt : Z → Z → Z → ptr → ptr → ST (sys W) Z;
  os_setsockopt : Z → Z → Z → ptr → Z → ST (sys W) Z;
  os_WSAGetLastError : ST (sys W) wsa_code
}.
Arguments os_open {_} _.
Arguments os_close {_} _.
Arguments os_read {_} _.
Arguments os_write {_} _.
Arguments os_fdopen {_} _.
Arguments os_fstat {_} _.
Arguments os_chsize {_} _.
Arguments os_MoveFileEx {_} _.
Arguments os_GetLastError {_} _.
Arguments os_connect {_} _.
Arguments os_closesocket {_} _.
Arguments os_recv {_} _.
Arguments os_send {_} _.
Arguments os_getsockopt {_} _.
Arguments os_setsockopt {_} _.
Arguments os_WSAGetLastError {_} _.

Section posix.
Context {W : Type} (os : os_calls W).
Local Abbreviation M := (ST (sys W)).

(** The flags of [open] in the C runtime; the other two are in [fcntl.h]. *)
Context (O_CREAT O_BINARY O_NOINHERIT : Z).
Definition O_NONBLOCK : Z := 0x100000.
Definition O_CLOEXEC : Z := 0x200000.

Definition posix_fdopen (fd : Z) (mode : positive) : M ptr := os_fdopen os (get_real_fd fd) mode.

Definition libressl_fstat (fd : Z) (statbuf : ptr) : M Z := os_fstat os (get_real_fd fd) statbuf.

Definition ftruncate (fd length : Z) : M Z := os_chsize os (get_real_fd fd) length.

Definition open_flags (flags : Z) : Z :=
  let flags := Z.lor flags O_BINARY in
  let flags := if Z.land flags O_CLOEXEC =? 0 then flags
               else Z.lor (Z.land flags (Z.lnot O_CLOEXEC)) O_NOINHERIT in
  Z.land flags (Z.lnot O_NONBLOCK).

(** [mode] is the third argument, read when there is one. *)
Definition posix_open (path : positive) (flags mode : Z) : M Z :=
  let mode := if Z.land flags O_CREAT =? 0 then 0 else mode in
  fh ← os_open os path (open_flags flags) mode;
  if fh =? -1 then mret fh else mret (mark_fd fh).

Definition posix_rename (oldpath newpath : positive) : M Z :=
  ok ← os_MoveFileEx os oldpath newpath;
  if (ok : bool) then mret 0 else err ← os_GetLastError os; win32_errno err.

Definition posix_connect (sockfd : Z) (addr : ptr) (addrlen : Z) : M Z :=
  rc ← os_connect os sockfd addr addrlen;
  if rc =? SOCKET_ERROR then
    err ← os_WSAGetLastError os;
    if decide (err = WSAEWOULDBLOCK) then set_errno EINPROGRESS;; mret (-1)
    else wsa_errno err
  else mret rc.

Definition posix_close (fd : Z) : M Z :=
  if is_socket fd then
    rc ← os_closesocket os fd;
    if rc =? SOCKET_ERROR then err ← os_WSAGetLastError os; wsa_errno err else mret rc
  else os_close os (get_real_fd fd).

Definition posix_read (fd : Z) (buf : ptr) (count : Z) : M Z :=
  let count := if INT_MAX <? count then INT_MAX else count in
  if is_socket fd then
    rc ← os_recv os fd buf count;
    if rc =? SOCKET_ERROR then err ← os_WSAGetLastError os; wsa_errno err else mret rc
  else os_read os (get_real_fd fd) buf count.

Definition posix_write (fd : Z) (buf : ptr) (count : Z) : M Z :=
  let count := if INT_MAX <? count then INT_MAX else count in
  if is_socket fd then
    rc ← os_send os fd buf count;
    if rc =? SOCKET_ERROR then err ← os_WSAGetLastError os; wsa_errno err else mret rc
  else os_write os (get_real_fd fd) buf count.

Definition posix_getsockopt (sockfd level optname : Z) (optval optlen : ptr) : M Z :=
  if is_socket sockfd then
    rc ← os_getsockopt os sockfd level optname optval optlen;
    if negb (rc =? 0) then err ← os_WSAGetLastError os; wsa_errno err else mret rc
  else mret (-1).

Definition posix_setsockopt (sockfd level optname : Z) (optval : ptr) (optlen : Z) : M Z :=
  if is_socket sockfd then
    rc ← os_setsockopt os sockfd level optname optval optlen;
    if negb (rc =? 0) then err ← os_WSAGetLastError os; wsa_errno err else mret rc
  else mret (-1).

Definition getuid : Z := 0.
End posix.

(** ** Text *)

(** [strlen]: the index of the first NUL; there has to be one. *)
Fixpoint strlen (s : list Z) : option nat :=
  match s with
  | [] => None
  | c :: s => if c =? 0 then Some O else n ← strlen s; Some (S n)
  end.

Definition cCR : Z := 13.
Definition cLF : Z := 10.

(** What [posix_fgets] does to the buffer [fgets] has filled. *)
Definition fix_line (ret : list Z) : option (list Z) :=
  end_ ← strlen ret;
  if decide (2 <= end_)%nat then
    a ← ret !! (end_ - 2)%nat;
    b ← ret !! (end_ - 1)%nat;
    if (a =? cCR) && (b =? cLF)
    then Some (<[(end_ - 1)%nat := 0]> (<[(end_ - 2)%nat := cLF]> ret)) else Some ret
  else Some ret.

(** [fgets] gives the buffer it has filled, or [None] for NULL. *)
Definition posix_fgets {W} (fgets : ST W (option (list Z))) : ST W (option (list Z)) :=
  ret ← fgets;
  match ret with
  | None => mret None
  | Some buf => buf' ← of_option (fix_line buf); mret (Some buf')
  end.

Definition cB : Z := 98.

(** [fopen] and [asprintf(&bin_mode, "%sb", mode)], which may fail, are
    arguments. *)
Definition posix_fopen {W} (fopen : positive → list Z → ST W ptr)
    (asprintf_b : list Z → ST W (option (list Z))) (path : positive) (mode : list Z) : ST W ptr :=
  if decide (cB ∉ mode) then
    bin_mode ← asprintf_b mode;
    match bin_mode with
    | None => mret None
    | Some m => fopen path m
    end
  else fopen path mode.

(** ** Time *)

Definition EPOCH : Z := 116444736000000000.

(** [system_time.wMilliseconds] and the words of [file_time] give [tp]. *)
Definition gettimeofday (wMilliseconds dwLowDateTime dwHighDateTime : Z) : Z * Z :=
  let time := u64 dwLowDateTime in
  let time := u64 (time + u64 (Z.shiftl dwHighDateTime 32)) in
  (s32 (u64 (time - EPOCH) / 10000000), s32 (wMilliseconds * 1000)).
