(* ===== verification/PosixWinProperties.v ===== *)
(** POSIX calls on Windows: properties. *)
From Stdlib Require Import ZArith Lia.
From stdpp Require Import prelude.
From S2P Require Import Prelude CInt PosixWin.

Local Open Scope Z_scope.

(** ** Descriptors *)

(** A file descriptor of the C runtime; [open] never gives the largest [int]. *)
Definition is_fh (fh : Z) : Prop := 0 <= fh < 2 ^ 31 - 1.

Lemma mark_fd_value fh : is_fh fh → mark_fd fh = fh - 2 ^ 31.
Proof.
  intros H. unfold is_fh in H. unfold mark_fd.
  rewrite (u32_small fh) by (unfold is_u32; lia).
  rewrite (u32_small (fh + _)) by (unfold is_u32; lia).
  unfold s32. replace (fh + 2 ^ 31 + 2 ^ 31) with (fh + 1 * 2 ^ 32) by lia.
  rewrite Z_mod_plus_full, Z.mod_small by lia. done.
Qed.

Lemma mark_fd_file fh : is_fh fh → is_socket (mark_fd fh) = false.
Proof.
  intros H. unfold is_socket. rewrite mark_fd_value by done. unfold is_fh in H.
  by rewrite (proj2 (Z.ltb_lt _ _)) by lia.
Qed.

Lemma mark_fd_real fh : is_fh fh → get_real_fd (mark_fd fh) = fh.
Proof.
  intros H. unfold get_real_fd. rewrite mark_fd_value by done. unfold is_fh in H.
  rewrite land_low_31, u32_neg by (unfold is_int; lia).
  replace (fh - 2 ^ 31 + 2 ^ 32) with (fh + 1 * 2 ^ 31) by lia.
  rewrite Z_mod_plus_full, Z.mod_small by lia. apply s32_small. unfold is_int. lia.
Qed.

Lemma real_fd_id fd : 0 <= fd < 2 ^ 31 → get_real_fd fd = fd.
Proof.
  intros H. unfold get_real_fd. rewrite land_low_31, u32_small by (unfold is_u32; lia).
  rewrite Z.mod_small by lia. apply s32_small. unfold is_int. lia.
Qed.

Lemma is_socket_std fd : 0 <= fd < 3 → is_socket fd = false.
Proof. intros H. unfold is_socket. by rewrite (proj2 (Z.ltb_lt _ _)) by lia. Qed.

Lemma is_socket_socket fd : 3 <= fd < 2 ^ 31 → is_socket fd = true.
Proof.
  intros H. unfold is_socket. rewrite (proj2 (Z.ltb_ge _ _)) by lia.
  rewrite u32_small, land_top_bit by (unfold is_u32; lia).
  by rewrite (proj2 (Z.ltb_lt _ _)) by lia.
Qed.

(** A call on [fd] is the call of the C runtime on [fh]. *)
Definition CallsRuntime {W} (os : os_calls W) (fd fh : Z) : Prop :=
  posix_close os fd = os_close os fh ∧
  (∀ buf n, n <= INT_MAX → posix_read os fd buf n = os_read os fh buf n) ∧
  (∀ buf n, n <= INT_MAX → posix_write os fd buf n = os_write os fh buf n) ∧
  (∀ mode, posix_fdopen os fd mode = os_fdopen os fh mode) ∧
  (∀ st, libressl_fstat os fd st = os_fstat os fh st) ∧
  (∀ len, ftruncate os fd len = os_chsize os fh len).

Lemma calls_runtime {W} (os : os_calls W) fd fh :
  is_socket fd = false → get_real_fd fd = fh → CallsRuntime os fd fh.
Proof.
  intros Hs Hr. unfold CallsRuntime, posix_close, posix_read, posix_write, posix_fdopen,
    libressl_fstat, ftruncate. rewrite Hs, Hr.
  split_and!; try done; intros buf n Hn; by rewrite (proj2 (Z.ltb_ge _ _)).
Qed.

(** The descriptor [posix_open] returns for the runtime's [fh] is a negative
    [int] other than -1, and every later call on it reaches the runtime with
    [fh]; the standard descriptors are passed on as they are; and a socket,
    which is at least 3, is closed, read and written by Winsock, at most
    [INT_MAX] bytes at a time. *)
Theorem posix_fd_dispatch W (os : os_calls W) O_CREAT O_BINARY O_NOINHERIT path flags mode s fh s' :
  os_open os path (open_flags O_BINARY O_NOINHERIT flags)
    (if Z.land flags O_CREAT =? 0 then 0 else mode) s = Some (fh, s') →
  (fh = -1 → posix_open os O_CREAT O_BINARY O_NOINHERIT path flags mode s = Some (-1, s')) ∧
  (is_fh fh →
     posix_open os O_CREAT O_BINARY O_NOINHERIT path flags mode s = Some (mark_fd fh, s') ∧
     - 2 ^ 31 <= mark_fd fh < -1 ∧ CallsRuntime os (mark_fd fh) fh) ∧
  (∀ fd, 0 <= fd < 3 → CallsRuntime os fd fd) ∧
  (∀ fd buf n r s1 s2, 3 <= fd < 2 ^ 31 → 0 <= r →
     (os_closesocket os fd s1 = Some (r, s2) → posix_close os fd s1 = Some (r, s2)) ∧
     (os_recv os fd buf (Z.min n INT_MAX) s1 = Some (r, s2) →
      posix_read os fd buf n s1 = Some (r, s2)) ∧
     (os_send os fd buf (Z.min n INT_MAX) s1 = Some (r, s2) →
      posix_write os fd buf n s1 = Some (r, s2))).
Proof.
  intros Ho. unfold posix_open. rewrite (bind_run _ _ _ _ _ Ho). split_and!.
  - by intros ->.
  - intros Hfh. unfold is_fh in Hfh. rewrite (proj2 (Z.eqb_neq _ _)) by lia. split; [done|].
    split; [rewrite mark_fd_value by done; lia|].
    apply calls_runtime; [by apply mark_fd_file|by apply mark_fd_real].
  - intros fd Hfd. apply calls_runtime; [by apply is_socket_std|apply real_fd_id; lia].
  - intros fd buf n r s1 s2 Hfd Hr. unfold posix_close, posix_read, posix_write.
    assert (Hmin : (if INT_MAX <? n then INT_MAX else n) = Z.min n INT_MAX).
    { destruct (Z.ltb_spec INT_MAX n); lia. }
    rewrite (is_socket_socket fd Hfd), Hmin.
    split_and!; intros E; rewrite (bind_run _ _ _ _ _ E); unfold SOCKET_ERROR;
      by rewrite (proj2 (Z.eqb_neq r _)) by lia.
Qed.

(** An operating system for the examples: descriptor 7 for a file, nothing to
    read on socket 5. *)
Definition demo_os : os_calls (list (Z * Z)) := {|
  os_open _ _ _ := mret 7;
  os_close fd := modify (λ s, Sys (errno s) (world s ++ [(1, fd)]));; mret 0;
  os_read fd _ n := modify (λ s, Sys (errno s) (world s ++ [(2, fd)]));; mret n;
  os_write fd _ n := mret n;
  os_fdopen _ _ := mret None;
  os_fstat _ _ := mret 0;
  os_chsize _ _ := mret 0;
  os_MoveFileEx _ _ := mret true;
  os_GetLastError := mret ERROR_ACCESS_DENIED;
  os_connect _ _ _ := mret (-1);
  os_closesocket fd := modify (λ s, Sys (errno s) (world s ++ [(3, fd)]));; mret 0;
  os_recv _ _ _ := mret (-1);
  os_send _ _ n := mret n;
  os_getsockopt _ _ _ _ _ := mret 0;
  os_setsockopt _ _ _ _ _ := mret 0;
  os_WSAGetLastError := mret WSAEWOULDBLOCK
|}.

Lemma posix_fd_dispatch_witness :
  posix_open demo_os 256 32768 128 1 0x200000 0 (Sys EIO []) = Some (mark_fd 7, Sys EIO []) ∧
  posix_close demo_os (mark_fd 7) (Sys EIO []) = Some (0, Sys EIO [(1, 7)]) ∧
  posix_close demo_os 5 (Sys EIO []) = Some (0, Sys EIO [(3, 5)]).
Proof.
  destruct (posix_fd_dispatch _ demo_os 256 32768 128 1 0x200000 0 (Sys EIO []) 7 (Sys EIO []))
    as (_ & Hfh & _ & Hsock); [done|].
  destruct Hfh as (Ho & _ & Hc & _); [unfold is_fh; lia|].
  split; [exact Ho|]. split; [by rewrite Hc|].
  destruct (Hsock 5 None 0 0 (Sys EIO []) (Sys EIO [(3, 5)])) as (H & _); [lia..|]. by apply H.
Defined.

(** The flags the runtime's [open] is given: those of the caller, binary,
    with [O_CLOEXEC] turned into [O_NOINHERIT] and without [O_NONBLOCK], which
    the runtime does not know. *)
Theorem open_flags_correct O_BINARY O_NOINHERIT b ni flags n :
  O_BINARY = 2 ^ b → O_NOINHERIT = 2 ^ ni → 0 <= b → 0 <= ni → 0 <= n →
  b ≠ 20 → b ≠ 21 → ni ≠ 20 → ni ≠ 21 →
  Z.testbit (open_flags O_BINARY O_NOINHERIT flags) n =
    if decide (n = 20) then false
    else if decide (n = 21) then false
    else Z.testbit flags n || bool_decide (n = b)
         || (bool_decide (n = ni) && Z.testbit flags 21).
Proof.
  intros -> -> Hb Hni Hn Hb20 Hb21 Hn20 Hn21. unfold open_flags.
  assert (HC : O_CLOEXEC = 2 ^ 21) by done. assert (HN : O_NONBLOCK = 2 ^ 20) by done.
  rewrite HC, HN. set (f := Z.lor flags (2 ^ b)).
  assert (Hf : ∀ m, 0 <= m → Z.testbit f m = Z.testbit flags m || bool_decide (m = b)).
  { intros m Hm. unfold f. rewrite Z.lor_spec, Z.pow2_bits_eqb by done. f_equal.
    rewrite Z.eqb_sym. by destruct (Z.eqb_spec m b); [rewrite bool_decide_true|rewrite bool_decide_false]. }
  assert (H21 : Z.testbit f 21 = Z.testbit flags 21).
  { rewrite Hf by lia. by rewrite bool_decide_false, orb_false_r by lia. }
  assert (Hz : (Z.land f (2 ^ 21) =? 0) = negb (Z.testbit flags 21)).
  { rewrite <-H21. destruct (Z.testbit f 21) eqn:E.
    - apply Z.eqb_neq. intros H0. apply (f_equal (λ z, Z.testbit z 21)) in H0.
      rewrite Z.land_spec, Z.pow2_bits_true, E, Z.bits_0 in H0 by lia. done.
    - apply Z.eqb_eq, Z.bits_inj'. intros m Hm. rewrite Z.land_spec, Z.pow2_bits_eqb, Z.bits_0 by lia.
      destruct (Z.eqb_spec 21 m) as [<-|]; [by rewrite E|apply andb_false_r]. }
  rewrite Hz. clear Hz.
  assert (Hlow : ∀ g m, 0 <= m → Z.testbit (Z.land g (Z.lnot (2 ^ m))) n = Z.testbit g n && negb (m =? n)).
  { intros g m Hm. rewrite Z.land_spec, Z.lnot_spec, Z.pow2_bits_eqb by lia. done. }
  rewrite Hlow by lia. destruct (decide (n = 20)) as [->|H20]; [apply andb_false_r|].
  rewrite (proj2 (Z.eqb_neq 20 n)), andb_true_r by lia.
  destruct (Z.testbit flags 21) eqn:E21; cbn [negb]; cbv iota.
  - rewrite Z.lor_spec, Hlow, Z.pow2_bits_eqb by lia. rewrite Hf by done.
    destruct (decide (n = 21)) as [->|Hn21'].
    + rewrite andb_false_r. apply Z.eqb_neq. lia.
    + rewrite (proj2 (Z.eqb_neq 21 n)), !andb_true_r by lia. f_equal.
      rewrite Z.eqb_sym. by destruct (Z.eqb_spec n ni); [rewrite bool_decide_true|rewrite bool_decide_false].
  - rewrite Hf, andb_false_r, orb_false_r by done.
    destruct (decide (n = 21)) as [->|]; [|done]. rewrite E21. by rewrite bool_decide_false by lia.
Qed.

Lemma open_flags_correct_witness : Z.testbit (open_flags 32768 128 0x300001) 7 = true.
Proof. by rewrite (open_flags_correct 32768 128 15 7). Defined.

(** ** Errors *)

Section errors.
Context {W : Type} (os : os_calls W).

(** After a failed Winsock call the last error is [err]. *)
Definition Fails (m : ST (sys W) Z) (s : sys W) (err : wsa_code) (s' : sys W) : Prop :=
  ∃ s1, m s = Some (SOCKET_ERROR, s1) ∧ os_WSAGetLastError os s1 = Some (err, s').

Lemma fails_run m err s s' (k : Z → ST (sys W) Z) :
  Fails m s err s' →
  (m ≫= λ rc, if rc =? SOCKET_ERROR then err ← os_WSAGetLastError os; wsa_errno err else k rc) s
  = Some (-1, Sys (wsa_errno_of err) (world s')).
Proof.
  intros (s1 & Hm & He). rewrite (bind_run _ _ _ _ _ Hm), Z.eqb_refl.
  by rewrite (bind_run _ _ _ _ _ He).
Qed.

Lemma fails_nonzero m err s s' :
  Fails m s err s' →
  (m ≫= λ rc, if negb (rc =? 0) then err ← os_WSAGetLastError os; wsa_errno err else mret rc) s
  = Some (-1, Sys (wsa_errno_of err) (world s')).
Proof.
  intros (s1 & Hm & He). rewrite (bind_run _ _ _ _ _ Hm). simpl.
  by rewrite (bind_run _ _ _ _ _ He).
Qed.

(** A call that succeeds. *)
Lemma passes_run m s s' r :
  0 <= r → m s = Some (r, s') →
  (m ≫= λ rc, if rc =? SOCKET_ERROR then err ← os_WSAGetLastError os; wsa_errno err else mret rc) s
  = Some (r, s').
Proof.
  intros Hr E. rewrite (bind_run _ _ _ _ _ E). unfold SOCKET_ERROR.
  by rewrite (proj2 (Z.eqb_neq r _)) by lia.
Qed.

Lemma passes_zero m s s' :
  m s = Some (0, s') →
  (m ≫= λ rc, if negb (rc =? 0) then err ← os_WSAGetLastError os; wsa_errno err else mret rc) s
  = Some (0, s').
Proof. intros E. by rewrite (bind_run _ _ _ _ _ E). Qed.

(** The code is the would-block one when [errno] is [EAGAIN], and no other is. *)
Lemma wsa_errno_again err : wsa_errno_of err = EAGAIN ↔ err = WSAEWOULDBLOCK.
Proof. by destruct err. Qed.
End errors.

(** C30: what a POSIX caller is told of a socket, a number from 3 up.  A call that
    succeeds has the value of the call of Winsock, which is given at most
    [INT_MAX] bytes.  A call that fails returns -1, with [errno] from the last
    error of Winsock: [posix_close], [posix_read], [posix_write],
    [posix_getsockopt], [posix_setsockopt] and [posix_connect].  That is [EAGAIN]
    exactly when the call would block; but a connection attempt that goes on
    fails with [EINPROGRESS] and never with [EAGAIN].  The option calls refuse
    what is not a socket. *)
Theorem posix_socket_errors W (os : os_calls W) fd buf n level optname optval optlen len err
    (s s' : sys W) :
  3 <= fd < 2 ^ 31 → 0 <= n →
  let Fails m := Fails os m s err s' in
  let Passes (m m' : ST (sys W) Z) := ∀ r, 0 <= r → m s = Some (r, s') → m' s = Some (r, s') in
  let Succeeds (m m' : ST (sys W) Z) := m s = Some (0, s') → m' s = Some (0, s') in
  let failure := Some (-1, Sys (wsa_errno_of err) (world s')) in
  (wsa_errno_of err = EAGAIN ↔ err = WSAEWOULDBLOCK) ∧
  (let m := os_closesocket os fd in
   Passes m (posix_close os fd) ∧ (Fails m → posix_close os fd s = failure)) ∧
  (let m := os_recv os fd buf (Z.min n INT_MAX) in
   Passes m (posix_read os fd buf n) ∧ (Fails m → posix_read os fd buf n s = failure)) ∧
  (let m := os_send os fd buf (Z.min n INT_MAX) in
   Passes m (posix_write os fd buf n) ∧ (Fails m → posix_write os fd buf n s = failure)) ∧
  (let m := os_getsockopt os fd level optname optval optlen in
   let m' := posix_getsockopt os fd level optname optval optlen in
   Succeeds m m' ∧ (Fails m → m' s = failure)) ∧
  (let m := os_setsockopt os fd level optname optval len in
   let m' := posix_setsockopt os fd level optname optval len in
   Succeeds m m' ∧ (Fails m → m' s = failure)) ∧
  (let m := os_connect os fd buf n in
   Passes m (posix_connect os fd buf n) ∧
   (Fails m → ∃ e, posix_connect os fd buf n s = Some (-1, Sys e (world s')) ∧ e ≠ EAGAIN ∧
     (e = EINPROGRESS ↔ err = WSAEWOULDBLOCK ∨ err = WSAEINPROGRESS) ∧
     (err ≠ WSAEWOULDBLOCK → e = wsa_errno_of err))) ∧
  ∀ fh, is_fh fh →
    posix_getsockopt os (mark_fd fh) level optname optval optlen s = Some (-1, s) ∧
    posix_setsockopt os (mark_fd fh) level optname optval len s = Some (-1, s).
Proof.
  intros Hfd Hn. cbv zeta. unfold posix_close, posix_read, posix_write, posix_getsockopt, posix_setsockopt.
  assert (Hmin : (if INT_MAX <? n then INT_MAX else n) = Z.min n INT_MAX).
  { destruct (Z.ltb_spec INT_MAX n); lia. }
  rewrite (is_socket_socket fd Hfd), Hmin. split; [apply wsa_errno_again|].
  split_and!; try (intros HF; by (apply fails_run || apply fails_nonzero));
    try (intros r Hr E; by apply passes_run); try apply passes_zero.
  - intros r Hr E. unfold posix_connect. rewrite (bind_run _ _ _ _ _ E).
    unfold SOCKET_ERROR. by rewrite (proj2 (Z.eqb_neq r _)) by lia.
  - intros (s1 & Hm & He). unfold posix_connect.
    rewrite (bind_run _ _ _ _ _ Hm), Z.eqb_refl, (bind_run _ _ _ _ _ He). case_decide as Hw.
    + exists EINPROGRESS. split_and!; [done..| |done]. split; auto.
    + exists (wsa_errno_of err). split; [done|]. split; [by rewrite wsa_errno_again|].
      split; [|done]. split; [destruct err; by auto|intros [?| ->]; [done|done]].
  - intros fh Hfh. by rewrite mark_fd_file.
Qed.

Lemma posix_socket_errors_witness :
  posix_read demo_os 5 None 10 (Sys EIO []) = Some (-1, Sys EAGAIN []).
Proof.
  destruct (posix_socket_errors _ demo_os 5 None 10 0 0 None None 0 WSAEWOULDBLOCK (Sys EIO []) (Sys EIO []))
    as (_ & _ & (_ & Hr) & _); [lia|lia|].
  apply Hr. by exists (Sys EIO []).
Defined.

(** ** Text *)

Lemma strlen_line l rest : 0 ∉ l → strlen (l ++ 0 :: rest) = Some (length l).
Proof.
  induction l as [|c l IH]; intros H; [done|]. simpl.
  apply not_elem_of_cons in H as [Hc H]. rewrite (proj2 (Z.eqb_neq c 0)) by done.
  by rewrite IH.
Qed.

Lemma fix_line_short l rest :
  0 ∉ l → (length l < 2)%nat → fix_line (l ++ 0 :: rest) = Some (l ++ 0 :: rest).
Proof.
  intros Hl Hlen. unfold fix_line. rewrite strlen_line by done. simpl. by rewrite decide_False by lia.
Qed.

Lemma fix_line_two m a b rest :
  0 ∉ m ++ [a; b] →
  fix_line ((m ++ [a; b]) ++ 0 :: rest) = Some (
    if (a =? cCR) && (b =? cLF) then (m ++ [cLF]) ++ 0 :: 0 :: rest
    else (m ++ [a; b]) ++ 0 :: rest).
Proof.
  intros Hl. unfold fix_line. rewrite strlen_line by done. simpl.
  rewrite decide_True by (rewrite length_app; simpl; lia). rewrite length_app. simpl.
  replace (length m + 2 - 2)%nat with (length m) by lia.
  replace (length m + 2 - 1)%nat with (length m + 1)%nat by lia.
  rewrite <-!app_assoc. simpl.
  assert (H0 : (m ++ a :: b :: 0 :: rest) !! length m = Some a) by by apply list_lookup_middle.
  assert (H1 : (m ++ a :: b :: 0 :: rest) !! (length m + 1)%nat = Some b).
  { rewrite lookup_app_r by lia. by replace (length m + 1 - length m)%nat with 1%nat by lia. }
  rewrite H0. simpl. rewrite H1. simpl. case_match; [|done]. f_equal.
  rewrite insert_app_r_alt, Nat.sub_diag by lia. simpl.
  rewrite insert_app_r_alt by lia. by replace (length m + 1 - length m)%nat with 1%nat by lia.
Qed.

(** [posix_fgets] gives the line [fgets] has read, with a line end of
    carriage return and line feed turned into a line feed; it changes nothing
    else of the buffer, and reads and writes inside it. *)
Theorem posix_fgets_line W (fgets : ST W (option (list Z))) s s' l rest :
  fgets s = Some (Some (l ++ 0 :: rest), s') → 0 ∉ l →
  ∃ l' rest', posix_fgets fgets s = Some (Some (l' ++ 0 :: rest'), s') ∧ (0 ∉ l') ∧
    length (l' ++ 0 :: rest') = length (l ++ 0 :: rest) ∧
    ((∃ m, l = m ++ [cCR; cLF] ∧ l' = m ++ [cLF]) ∨
     (∀ m, l ≠ m ++ [cCR; cLF]) ∧ l' = l ∧ rest' = rest).
Proof.
  intros Hf Hl. unfold posix_fgets. rewrite (bind_run _ _ _ _ _ Hf).
  destruct l as [|b l1 _] using rev_ind; [|destruct l1 as [|a m _] using rev_ind].
  - exists [], rest. rewrite fix_line_short by (done || simpl; lia). split_and!; [done..|]. right.
    split_and!; [|done..]. by intros [].
  - exists [b], rest. rewrite fix_line_short by (done || simpl; lia). split_and!; [done..|]. right.
    split_and!; [|done..]. by intros [|? []].
  - replace ((m ++ [a]) ++ [b]) with (m ++ [a; b]) in * by by rewrite <-app_assoc.
    rewrite fix_line_two by done.
    destruct ((a =? cCR) && (b =? cLF)) eqn:E.
    + apply andb_true_iff in E as [->%Z.eqb_eq ->%Z.eqb_eq].
      exists (m ++ [cLF]), (0 :: rest). split_and!; [done| |by rewrite !length_app; simpl; lia|].
      * apply not_elem_of_app. split; [|by rewrite list_elem_of_singleton].
        intros Hm. apply Hl, elem_of_app. by left.
      * left. by exists m.
    + exists (m ++ [a; b]), rest. split_and!; [done..|]. right. split_and!; [|done..].
      intros m' E'. apply app_inj_2 in E' as [_ E2]; [|done]. simplify_eq/=.
Qed.

Lemma posix_fgets_line_witness :
  ∃ l' rest', posix_fgets (λ s : unit, Some (Some [104; 105; 13; 10; 0; 7], s)) tt
    = Some (Some (l' ++ 0 :: rest'), tt) ∧ l' = [104; 105; 10].
Proof.
  destruct (posix_fgets_line unit (λ s, Some (Some [104; 105; 13; 10; 0; 7], s)) tt tt
    [104; 105; 13; 10] [7]) as (l' & rest' & E & _ & _ & H).
  - done.
  - by apply (bool_decide_unpack _).
  - exists l', rest'. split; [exact E|].
    destruct H as [(m & Em & ->)|(Hn & _)]; [|by destruct (Hn [104; 105])].
    by apply (app_inj_2 [104; 105] m [13; 10] [13; 10]) in Em as [<- _].
Defined.

(** ** Time *)

(** C31: [gettimeofday] gives the microseconds since 1970 of a [FILETIME] of
    whole milliseconds, split into seconds and a remainder below a million,
    until 2038. *)
Theorem gettimeofday_correct time :
  EPOCH <= time < EPOCH + 2 ^ 31 * 10000000 → time mod 10000 = 0 →
  let '(tv_sec, tv_usec) :=
    gettimeofday (time / 10000 mod 1000) (time mod 2 ^ 32) (time / 2 ^ 32) in
  tv_sec * 1000000 + tv_usec = (time - EPOCH) / 10 ∧ 0 <= tv_usec < 1000000 ∧ 0 <= tv_sec.
Proof.
  intros Ht Hms. unfold gettimeofday. cbv zeta.
  assert (HE : EPOCH = 11644473600000 * 10000) by done.
  assert (Htime : u64 (u64 (time mod 2 ^ 32) + u64 (Z.shiftl (time / 2 ^ 32) 32)) = time).
  { assert (0 <= time < 2 ^ 64) as Hr.
    { rewrite HE in Ht. change (2 ^ 64) with 18446744073709551616. lia. }
    rewrite Z.shiftl_mul_pow2 by lia. change (2 ^ 64) with 18446744073709551616 in Hr.
    change (2 ^ 32) with 4294967296.
    pose proof (Z.div_mod time 4294967296 ltac:(lia)).
    pose proof (Z.mod_pos_bound time 4294967296 ltac:(lia)).
    pose proof (Z.div_pos time 4294967296 ltac:(lia) ltac:(lia)).
    assert (∀ z, 0 <= z < 18446744073709551616 → u64 z = z) as Hu by (intros; by apply u64_small).
    rewrite !(Hu (_ mod _)), !(Hu (_ * _)), Hu by lia. lia. }
  rewrite Htime. rewrite (u64_small (time - EPOCH)).
  2: { unfold is_u64. change (2 ^ 64) with 18446744073709551616. lia. }
  set (d := time - EPOCH) in *.
  assert (Hd : time / 10000 mod 1000 = d / 10000 mod 1000).
  { unfold d. rewrite HE. replace (time - 11644473600000 * 10000)
      with (time + (-11644473600000) * 10000) by lia.
    rewrite Z_div_plus_full by lia.
    replace (-11644473600000) with (-11644473600 * 1000) by lia. by rewrite Z_mod_plus_full. }
  assert (Hd0 : d mod 10000 = 0).
  { unfold d. rewrite HE. replace (time - 11644473600000 * 10000)
      with (time + (-11644473600000) * 10000) by lia. by rewrite Z_mod_plus_full. }
  rewrite Hd. assert (0 <= d < 2 ^ 31 * 10000000) as Hb by lia.
  assert (Hdd : d = 10000 * (d / 10000)) by (pose proof (Z.div_mod d 10000); lia).
  set (q := d / 10000) in *. pose proof (Z.mod_pos_bound q 1000 ltac:(lia)) as Hq.
  pose proof (Z.div_mod q 1000 ltac:(lia)) as Hqd.
  assert (Hsec : d / 10000000 = q / 1000).
  { rewrite Hdd. replace 10000000 with (10000 * 1000) by lia. by rewrite Z.div_mul_cancel_l by lia. }
  assert (Hten : d / 10 = q * 1000).
  { rewrite Hdd. replace (10000 * q) with (q * 1000 * 10) by lia. by rewrite Z.div_mul by lia. }
  rewrite Hsec, Hten. rewrite (s32_small (q / 1000)), (s32_small (q mod 1000 * 1000));
    unfold is_int; lia.
Qed.

Lemma gettimeofday_correct_witness :
  let '(sec, usec) := gettimeofday (126444736002500000 / 10000 mod 1000)
    (126444736002500000 mod 2 ^ 32) (126444736002500000 / 2 ^ 32) in
  sec = 1000000000 ∧ usec = 250000 ∧ sec * 1000000 + usec = 1000000000250000.
Proof.
  pose proof (gettimeofday_correct 126444736002500000 ltac:(by vm_compute) eq_refl) as H.
  split; [done|]. split; [done|]. exact (proj1 H).
Defined.
