(* ===== verification/Poll.v ===== *)
(** [apps/openssl/compat/poll_win.c]: [poll] on Windows, with [select] for
    sockets and [WaitForMultipleObjects] for everything else. *)
From Stdlib Require Import ZArith Lia.
From stdpp Require Import prelude gmap.
From S2P Require Import Prelude CInt PosixWin.

Local Open Scope Z_scope.

Record pollfd := PollFd { fd : Z; events : Z; revents : Z }.

Definition POLLIN : Z := 0x001.
Definition POLLPRI : Z := 0x002.
Definition POLLOUT : Z := 0x004.
Definition POLLERR : Z := 0x008.
Definition POLLHUP : Z := 0x010.
Definition POLLRDNORM : Z := 0x040.
Definition POLLRDBAND : Z := 0x080.
Definition POLLWRNORM : Z := 0x100.
Definition POLLWRBAND : Z := 0x200.

(** [events & mask] as a condition. *)
Definition asks (events mask : Z) : bool := negb (Z.land events mask =? 0).
Definition in_mask : Z := Z.lor (Z.lor POLLIN POLLRDNORM) POLLRDBAND.
Definition out_mask : Z := Z.lor (Z.lor POLLOUT POLLWRNORM) POLLWRBAND.

(** [fd_set], and the three of them [select] is given. *)
Abbreviation fd_set := (gset Z).
Record fd_sets := FdSets { rfds : fd_set; wfds : fd_set; efds : fd_set }.

Definition WAIT_OBJECT_0 : Z := 0.
Definition WAIT_FAILED : Z := 2 ^ 32 - 1.

(** A console event: a key event, and the key going down. *)
Record input_record := InputRecord { is_key_event : bool; bKeyDown : bool }.

(** The calls of Winsock, of Win32 and of the C runtime.  A handle is a number;
    [select] gives its result and the sets it leaves. *)
Record poll_calls (W : Type) := PollCalls {
  p_recv_peek : Z → bool → ST (sys W) Z;
  p_WSAGetLastError : ST (sys W) wsa_code;
  p_WSAEnumNetworkEvents : Z → ST (sys W) Z;
  p_get_osfhandle : Z → ST (sys W) Z;
  p_WaitForMultipleObjects : list Z → ST (sys W) Z;
  p_select : fd_sets → Z → ST (sys W) (Z * fd_sets);
  p_stdin_handle : ST (sys W) Z;
  p_PeekConsoleInput : Z → ST (sys W) (Z * input_record);
  p_ReadConsoleInput : Z → ST (sys W) unit
}.
Arguments p_recv_peek {_} _.
Arguments p_WSAGetLastError {_} _.
Arguments p_WSAEnumNetworkEvents {_} _.
Arguments p_get_osfhandle {_} _.
Arguments p_WaitForMultipleObjects {_} _.
Arguments p_select {_} _.
Arguments p_stdin_handle {_} _.
Arguments p_PeekConsoleInput {_} _.
Arguments p_ReadConsoleInput {_} _.

Section poll.
Context {W : Type} (os : poll_calls W) (FD_SETSIZE : Z).
Local Abbreviation M := (ST (sys W)).

Definition conn_is_closed (fd : Z) : M bool :=
  ret ← p_recv_peek os fd false;
  if ret =? -1 then
    err ← p_WSAGetLastError os;
    mret (match err with
          | WSAECONNABORTED | WSAECONNRESET | WSAENETRESET | WSAESHUTDOWN => true
          | _ => false
          end)
  else mret false.

Definition conn_has_oob_data (fd : Z) : M bool :=
  ret ← p_recv_peek os fd true; mret (ret =? 1).

Definition poll_is_socket (fd : Z) : M bool :=
  if fd <? 3 then mret false
  else r ← p_WSAEnumNetworkEvents os fd; mret (r =? 0).

Definition compute_select_revents (fd events : Z) (sets : fd_sets) : M Z :=
  rc ← (if asks events in_mask && bool_decide (fd ∈ rfds sets) then
          closed ← conn_is_closed fd;
          mret (if closed : bool then POLLHUP else Z.lor POLLIN POLLRDNORM)
        else mret 0);
  let rc := if asks events out_mask && bool_decide (fd ∈ wfds sets) then Z.lor rc POLLOUT else rc in
  if bool_decide (fd ∈ efds sets) then
    closed ← conn_is_closed fd;
    if closed : bool then mret (Z.lor rc POLLHUP)
    else
      oob ← conn_has_oob_data fd;
      mret (if oob : bool then Z.lor rc (Z.lor POLLRDBAND POLLPRI) else Z.lor rc POLLERR)
  else mret rc.

(** [wait_rc] and [object] are compared as [DWORD]s. *)
Definition compute_wait_revents (h events object wait_rc : Z) : M Z :=
  let rc := if asks events (Z.lor POLLOUT POLLWRNORM) then POLLOUT else 0 in
  if (WAIT_OBJECT_0 <=? u32 wait_rc) && (u32 object =? u32 (wait_rc - WAIT_OBJECT_0))
     && asks events (Z.lor POLLIN POLLRDNORM) then
    stdin ← p_stdin_handle os;
    console ← (if h =? stdin then
                 r ← p_PeekConsoleInput os h;
                 mret (if r.1 =? 1 then Some r.2 else None)
               else mret None);
    match console with
    | Some record =>
        if is_key_event record && bKeyDown record then mret (Z.lor rc POLLIN)
        else p_ReadConsoleInput os h;; mret rc
    | None => mret (Z.lor rc POLLIN)
    end
  else mret rc.

Definition wsa_select_errno_of (err : wsa_code) : errno_code :=
  match err with
  | WSAEINTR | WSAEINPROGRESS => EINTR
  | WSAEFAULT => EFAULT
  | WSAEINVAL => EINVAL
  | WSANOTINITIALISED => EPERM
  | WSAENETDOWN => ENOMEM
  | _ => EIO
  end.

Definition wsa_select_errno (err : wsa_code) : M Z :=
  set_errno (wsa_select_errno_of err);; mret (-1).

(** The first loop: the sets, the number of sockets and the handles, or [None]
    when there are too many. *)
Fixpoint collect (pfds : list pollfd) (sets : fd_sets) (num_sockets : Z) (handles : list Z) :
    M (option (fd_sets * Z * list Z)) :=
  match pfds with
  | [] => mret (Some (sets, num_sockets, handles))
  | p :: pfds =>
      if fd p <? 0 then collect pfds sets num_sockets handles
      else
        sock ← poll_is_socket (fd p);
        if sock : bool then
          if FD_SETSIZE <=? num_sockets then mret None
          else
            let s' := FdSets
              (if asks (events p) in_mask then {[fd p]} ∪ rfds sets else rfds sets)
              (if asks (events p) out_mask then {[fd p]} ∪ wfds sets else wfds sets)
              ({[fd p]} ∪ efds sets) in
            collect pfds s' (num_sockets + 1) handles
        else
          if FD_SETSIZE <=? Z.of_nat (length handles) then mret None
          else
            h ← p_get_osfhandle os (fd p);
            collect pfds sets num_sockets (handles ++ [h])
  end.

(** The value of an operation on [int]s; an overflow is undefined. *)
Definition in_int (z : Z) : M Z :=
  if decide (- 2 ^ 31 <= z < 2 ^ 31) then mret z else fail.

(** The waiting loop, at most [fuel] passes: the value of [poll] when it fails,
    or the sets [select] has left and [wait_rc]. *)
Fixpoint wait_loop (fuel : nat) (sets : fd_sets) (num_sockets : Z) (handles : list Z)
    (timeout_ms timespent_ms looptime_ms wait_rc : Z) : M (Z + fd_sets * Z) :=
  match fuel with
  | O => fail
  | S fuel =>
      let looptime_ms :=
        if negb (timeout_ms =? -1) && (timeout_ms - timespent_ms <? looptime_ms)
        then timeout_ms - timespent_ms else looptime_ms in
      usec ← in_int (looptime_ms * 1000);
      let num_handles := Z.of_nat (length handles) in
      wait_rc ← (if negb (num_handles =? 0) then p_WaitForMultipleObjects os handles
                 else mret wait_rc);
      if negb (num_handles =? 0) && (wait_rc =? WAIT_FAILED) then
        set_errno ENOMEM;; mret (inl (-1))
      else
        let handle_signaled := negb (num_handles =? 0) && (WAIT_OBJECT_0 <=? wait_rc)
          && (wait_rc <=? WAIT_OBJECT_0 + num_handles - 1) in
        let tv_usec := if handle_signaled then 0 else usec in
        res ← p_select os sets tv_usec;
        let '(rc, sets') := res in
        if negb handle_signaled && (rc =? SOCKET_ERROR) then
          err ← p_WSAGetLastError os;
          r ← wsa_select_errno err; mret (inl r)
        else if handle_signaled || (negb (num_sockets =? 0) && (0 <? rc)) then
          mret (inr (sets', wait_rc))
        else
          timespent_ms ← in_int (timespent_ms + looptime_ms);
          if (timeout_ms =? -1) || (timespent_ms <? timeout_ms) then
            wait_loop fuel sets num_sockets handles timeout_ms timespent_ms looptime_ms wait_rc
          else mret (inr (sets', wait_rc))
  end.

(** The last loop: the entries with their [revents], and how many are not 0. *)
Fixpoint report (pfds : list pollfd) (sets : fd_sets) (handles : list Z) (wait_rc object : Z) :
    M (list pollfd * Z) :=
  match pfds with
  | [] => mret ([], 0)
  | p :: pfds =>
      if fd p <? 0 then
        r ← report pfds sets handles wait_rc object;
        mret (PollFd (fd p) (events p) 0 :: r.1, r.2)
      else
        sock ← poll_is_socket (fd p);
        rv ← (if sock : bool then
                rv ← compute_select_revents (fd p) (events p) sets; mret (rv, object)
              else
                h ← of_option (handles !! Z.to_nat object);
                rv ← compute_wait_revents h (events p) object wait_rc; mret (rv, object + 1));
        r ← report pfds sets handles wait_rc rv.2;
        mret (PollFd (fd p) (events p) rv.1 :: r.1, r.2 + (if rv.1 =? 0 then 0 else 1))
  end.

(** [pfds] is [None] for NULL; the value and what it points to afterwards. *)
Definition poll (fuel : nat) (pfds : option (list pollfd)) (timeout_ms : Z) :
    M (Z * option (list pollfd)) :=
  match pfds with
  | None => set_errno EINVAL;; mret (-1, None)
  | Some [] => mret (0, Some [])
  | Some l =>
      c ← collect l (FdSets ∅ ∅ ∅) 0 [];
      match c with
      | None => set_errno EINVAL;; mret (-1, Some l)
      | Some (sets, num_sockets, handles) =>
          let looptime_ms := if (100 <? timeout_ms) || (timeout_ms =? -1) then 100 else timeout_ms in
          w ← wait_loop fuel sets num_sockets handles timeout_ms 0 looptime_ms WAIT_FAILED;
          match w with
          | inl r => mret (r, Some l)
          | inr (sets', wait_rc) =>
              r ← report l sets' handles wait_rc 0;
              mret (r.2, Some r.1)
          end
      end
  end.
End poll.
