(* ===== verification/PollSpec.v ===== *)
(** What [poll] on Windows may return: a description of its value, of [errno] and
    of the entries it leaves, by the answers of the system alone; and that every
    value it returns is one of these. *)
From Stdlib Require Import ZArith Lia.
From stdpp Require Import prelude gmap.
From S2P Require Import Prelude CInt PosixWin Poll.

Local Open Scope Z_scope.

(** ** Partial correctness *)

(** What a computation that returns gives. *)
Definition Gives {W A} (m : ST (sys W) A) (Q : A → sys W → Prop) : Prop :=
  ∀ s a s', m s = Some (a, s') → Q a s'.

(** The value a call has, in some state. *)
Definition Answer {W A} (m : ST (sys W) A) (a : A) : Prop := ∃ s s', m s = Some (a, s').

Section gives.
Context {W : Type}.

Lemma bind_inv {A B} (m : ST (sys W) A) (f : A → ST (sys W) B) s b s' :
  (m ≫= f) s = Some (b, s') → ∃ a s1, m s = Some (a, s1) ∧ f a s1 = Some (b, s').
Proof.
  unfold mbind, ST_bind. destruct (m s) as [[a s1]|] eqn:E; [|done]. intros Ef. by exists a, s1.
Qed.

Lemma gives_bind {A B} (m : ST (sys W) A) (f : A → ST (sys W) B) (P : A → Prop) Q :
  Gives m (λ a _, P a) → (∀ a, P a → Gives (f a) Q) → Gives (m ≫= f) Q.
Proof. intros Hm Hf s b s' (a & s1 & Ea & Eb)%bind_inv. by eapply Hf; [eapply Hm|]. Qed.

Lemma gives_ret {A} (a : A) (Q : A → sys W → Prop) : (∀ s, Q a s) → Gives (mret a) Q.
Proof. by intros HQ s ? s' [= <- <-]. Qed.

Lemma gives_answer {A} (m : ST (sys W) A) : Gives m (λ a _, Answer m a).
Proof. intros s a s' E. by exists s, s'. Qed.

Lemma gives_any {A} (m : ST (sys W) A) : Gives m (λ _ _, True).
Proof. done. Qed.

Lemma gives_mono {A} (m : ST (sys W) A) (P Q : A → sys W → Prop) :
  Gives m P → (∀ a s, P a s → Q a s) → Gives m Q.
Proof. intros Hm HPQ s a s' E. by eapply HPQ, Hm. Qed.

Lemma gives_errno {A} e (a : A) (Q : A → sys W → Prop) :
  (∀ s, errno s = e → Q a s) → Gives (set_errno e;; mret a) Q.
Proof. intros HQ s ? s' [= <- <-]. by apply HQ. Qed.

Lemma gives_in_int z : Gives (W := W) (in_int z) (λ a _, a = z).
Proof. intros s a s'. unfold in_int. case_decide; [|done]. by intros [= <- <-]. Qed.
End gives.

(** [!num] for the length of a list. *)
Lemma length_eqb {A} (l : list A) : (Z.of_nat (length l) =? 0) = bool_decide (l = []).
Proof. destruct l; [done|]. rewrite bool_decide_false by done. apply Z.eqb_neq. cbn [length]. lia. Qed.

(** ** The description *)

Section spec.
Context {W : Type} (os : poll_calls W) (FD_SETSIZE : Z).
(** Which descriptors from 3 up are sockets. *)
Context (sock : Z → bool).

Definition is_sock (f : Z) : bool := if f <? 3 then false else sock f.

Definition sockets : list pollfd → list pollfd := filter (λ p, 0 <= fd p ∧ is_sock (fd p) = true).
Definition others : list pollfd → list pollfd := filter (λ p, 0 <= fd p ∧ is_sock (fd p) = false).

(** The first entry is ignored, a socket, or a handle. *)
Lemma ignored_cons p l : fd p < 0 → sockets (p :: l) = sockets l ∧ others (p :: l) = others l.
Proof. intros Hp. unfold sockets, others. by rewrite !filter_cons_False by lia. Qed.

Lemma sockets_cons p l :
  0 <= fd p → is_sock (fd p) = true → sockets (p :: l) = p :: sockets l ∧ others (p :: l) = others l.
Proof.
  intros Hp Hs. split; [by apply filter_cons_True|].
  apply filter_cons_False. intros []; congruence.
Qed.

Lemma others_cons p l :
  0 <= fd p → is_sock (fd p) = false → sockets (p :: l) = sockets l ∧ others (p :: l) = p :: others l.
Proof.
  intros Hp Hs. split; [|by apply filter_cons_True].
  apply filter_cons_False. intros []; congruence.
Qed.

(** The descriptors that ask for some of the events of [mask]. *)
Definition asking (mask : Z) (l : list pollfd) : fd_set :=
  list_to_set (fd <$> filter (λ p, asks (events p) mask = true) l).

(** What [select] is asked for. *)
Definition asked (l : list pollfd) : fd_sets :=
  FdSets (asking in_mask (sockets l)) (asking out_mask (sockets l)) (list_to_set (fd <$> sockets l)).

Definition Handles (l : list pollfd) (hs : list Z) : Prop :=
  Forall2 (λ p h, Answer (p_get_osfhandle os (fd p)) h) (others l) hs.

(** The last answer of [WaitForMultipleObjects], if it is called. *)
Definition Waited (hs : list Z) (w : Z) : Prop :=
  if decide (hs = []) then w = WAIT_FAILED
  else Answer (p_WaitForMultipleObjects os hs) w ∧ w ≠ WAIT_FAILED.

Definition Selected (l : list pollfd) (tv rc : Z) (F : fd_sets) : Prop :=
  Answer (p_select os (asked l) tv) (rc, F).

(** *** Entries *)

(** Whether a look at what there is to read finds the connection closed. *)
Definition Closed (f : Z) (b : bool) : Prop :=
  ∃ s r s1, p_recv_peek os f false s = Some (r, s1) ∧
    if decide (r = -1) then
      ∃ err s2, p_WSAGetLastError os s1 = Some (err, s2) ∧
        b = bool_decide (err ∈ [WSAECONNABORTED; WSAECONNRESET; WSAENETRESET; WSAESHUTDOWN])
    else b = false.

Definition OutOfBand (f : Z) (b : bool) : Prop :=
  ∃ r, Answer (p_recv_peek os f true) r ∧ b = bool_decide (r = 1).

Definition flag (b : bool) (x : Z) : Z := if b then x else 0.

(** The events of a socket, when [select] has left [F]: data and room only where
    they are asked for; the others of an exceptional condition always. *)
Definition SocketEvents (F : fd_sets) (p : pollfd) (rv : Z) : Prop :=
  let readable := asks (events p) in_mask && bool_decide (fd p ∈ rfds F) in
  let writable := asks (events p) out_mask && bool_decide (fd p ∈ wfds F) in
  let exceptional := bool_decide (fd p ∈ efds F) in
  ∃ closed1 closed2 oob : bool,
    (readable = true → Closed (fd p) closed1) ∧
    (exceptional = true → Closed (fd p) closed2) ∧
    (exceptional && negb closed2 = true → OutOfBand (fd p) oob) ∧
    rv = Z.lor (flag (readable && negb closed1) (Z.lor POLLIN POLLRDNORM))
        (Z.lor (flag writable POLLOUT)
        (Z.lor (flag (readable && closed1 || exceptional && closed2) POLLHUP)
        (Z.lor (flag (exceptional && negb closed2 && oob) (Z.lor POLLRDBAND POLLPRI))
               (flag (exceptional && negb closed2 && negb oob) POLLERR)))).

(** Whether there is something to read behind a handle that is signaled: for the
    console of the standard input, whether a key goes down. *)
Definition KeyDown (h : Z) (b : bool) : Prop :=
  ∃ stdin, Answer (p_stdin_handle os) stdin ∧
    if decide (h = stdin) then
      ∃ r record, Answer (p_PeekConsoleInput os h) (r, record) ∧
        b = negb (r =? 1) || is_key_event record && bKeyDown record
    else b = true.

Definition HandleEvents (signaled : bool) (h : Z) (p : pollfd) (rv : Z) : Prop :=
  let readable := signaled && asks (events p) (Z.lor POLLIN POLLRDNORM) in
  ∃ key : bool, (readable = true → KeyDown h key) ∧
    rv = Z.lor (flag (asks (events p) (Z.lor POLLOUT POLLWRNORM)) POLLOUT) (flag (readable && key) POLLIN).

(** The entries [k] for [l]: descriptors and requested events are unchanged.
    [hs] has the handles of [l], the first with number [i]; [w] is the number of
    the one that is signaled. *)
Fixpoint Reported (F : fd_sets) (w i : Z) (hs : list Z) (l k : list pollfd) : Prop :=
  match l, k with
  | [], [] => True
  | p :: l, q :: k =>
      fd q = fd p ∧ events q = events p ∧
      if fd p <? 0 then revents q = 0 ∧ Reported F w i hs l k
      else if is_sock (fd p) then SocketEvents F p (revents q) ∧ Reported F w i hs l k
      else match hs with
           | h :: hs => HandleEvents (w =? i) h p (revents q) ∧ Reported F w (i + 1) hs l k
           | [] => False
           end
  | _, _ => False
  end.

Definition count_ready (l : list pollfd) : Z :=
  Z.of_nat (length (filter (λ p, revents p ≠ 0) l)).

(** *** The end of the loop *)

(** [select] has waited for the whole timeout, and nothing became ready. *)
Definition Idle (l : list pollfd) (timeout : Z) : Prop :=
  ∃ tvs, foldr Z.add 0 tvs = timeout * 1000 ∧
    Forall (λ tv, ∃ rc F, Selected l tv rc F ∧ (sockets l = [] ∨ rc <= 0)) tvs.

Definition Stopped (l : list pollfd) (hs : list Z) (timeout rc w : Z) : Prop :=
  0 <= w < Z.of_nat (length hs) ∨ sockets l ≠ [] ∧ 0 < rc ∨ timeout ≠ -1 ∧ Idle l timeout.

(** Why [poll] fails, with [errno]. *)
Definition Failure (l : list pollfd) (e : errno_code) : Prop :=
  (FD_SETSIZE < Z.of_nat (length (sockets l)) ∨ FD_SETSIZE < Z.of_nat (length (others l))) ∧ e = EINVAL
  ∨ (∃ hs, Handles l hs ∧ hs ≠ [] ∧ Answer (p_WaitForMultipleObjects os hs) WAIT_FAILED) ∧ e = ENOMEM
  ∨ ∃ tv s F s1 err s2, p_select os (asked l) tv s = Some ((SOCKET_ERROR, F), s1) ∧
      p_WSAGetLastError os s1 = Some (err, s2) ∧ e = wsa_select_errno_of err.

Definition Success (l : list pollfd) (timeout : Z) (k : list pollfd) : Prop :=
  Z.of_nat (length (sockets l)) <= FD_SETSIZE ∧ Z.of_nat (length (others l)) <= FD_SETSIZE ∧
  ∃ hs w tv rc F, Handles l hs ∧ Waited hs w ∧ Selected l tv rc F ∧ Stopped l hs timeout rc w ∧
    Reported F w 0 hs l k.

(** The value, the entries and [errno] afterwards. *)
Definition Outcome (l : list pollfd) (timeout : Z) (r : Z * option (list pollfd)) (s' : sys W) : Prop :=
  r = (-1, Some l) ∧ Failure l (errno s') ∨
  ∃ k, r = (count_ready k, Some k) ∧ Success l timeout k.

(** What is used of the system: a descriptor stays a socket or not, and
    [WaitForMultipleObjects] gives a [DWORD]. *)
Record Consistent : Prop := {
  c_socket f : Gives (p_WSAEnumNetworkEvents os f) (λ r _, (r =? 0) = sock f);
  c_wait hs : Gives (p_WaitForMultipleObjects os hs) (λ w _, 0 <= w < 2 ^ 32)
}.
Context (HC : Consistent).

(** *** Parts of [poll] *)

Lemma gives_is_socket f : Gives (poll_is_socket os f) (λ b _, b = is_sock f).
Proof.
  unfold poll_is_socket, is_sock. destruct (f <? 3); [by apply gives_ret|].
  eapply gives_bind; [by apply c_socket|]. intros r Hr. by apply gives_ret.
Qed.

Lemma gives_closed f : Gives (conn_is_closed os f) (λ b _, Closed f b).
Proof.
  intros s b s' (r & s1 & Er & E)%bind_inv. exists s, r, s1. split; [done|].
  destruct (Z.eqb_spec r (-1)) as [->|Hr].
  - rewrite decide_True by done. apply bind_inv in E as (err & s2 & Ee & [= <- <-]).
    exists err, s2. split; [done|]. symmetry.
    destruct err; (by apply bool_decide_eq_true_2; set_solver) || (apply bool_decide_eq_false_2; set_solver).
  - rewrite decide_False by done. by injection E as <- <-.
Qed.

Lemma gives_oob f : Gives (conn_has_oob_data os f) (λ b _, OutOfBand f b).
Proof.
  eapply gives_bind; [apply gives_answer|]. intros r Hr. apply gives_ret. intros _. exists r.
  split; [done|]. destruct (Z.eqb_spec r 1); [by rewrite bool_decide_true|by rewrite bool_decide_false].
Qed.

Lemma gives_select_revents F p :
  Gives (compute_select_revents os (fd p) (events p) F) (λ rv _, SocketEvents F p rv).
Proof.
  unfold compute_select_revents, SocketEvents.
  set (readable := asks (events p) in_mask && _). set (writable := asks (events p) out_mask && _).
  set (exceptional := bool_decide (fd p ∈ efds F)).
  eapply gives_bind with (P := λ rc, ∃ b, (readable = true → Closed (fd p) b) ∧
    rc = flag readable (if b : bool then POLLHUP else Z.lor POLLIN POLLRDNORM)).
  { destruct readable; [|by apply gives_ret; exists false].
    eapply gives_bind; [apply gives_closed|]. intros b Hb. apply gives_ret. by exists b. }
  intros rc (b1 & Hb1 & ->). cbv zeta. destruct exceptional.
  - eapply gives_bind; [apply gives_closed|]. intros b2 Hb2. destruct b2.
    + apply gives_ret. intros _. exists b1, true, false. split_and!; [done..|].
      by destruct readable, b1, writable.
    + eapply gives_bind; [apply gives_oob|]. intros oob Hoob. apply gives_ret. intros _.
      exists b1, false, oob. split_and!; [done..|]. by destruct readable, b1, writable, oob.
  - apply gives_ret. intros _. exists b1, false, false. split_and!; [done..|].
    by destruct readable, b1, writable.
Qed.

Lemma gives_wait_revents h p i w :
  0 <= i < 2 ^ 32 → 0 <= w < 2 ^ 32 →
  Gives (compute_wait_revents os h (events p) i w) (λ rv _, HandleEvents (w =? i) h p rv).
Proof.
  intros Hi Hw. unfold compute_wait_revents, HandleEvents, WAIT_OBJECT_0. cbv zeta.
  rewrite Z.sub_0_r, !u32_small by done. rewrite (proj2 (Z.leb_le 0 w)) by lia. cbn [andb].
  rewrite (Z.eqb_sym i w). destruct (_ && asks (events p) (Z.lor POLLIN POLLRDNORM)).
  2: { apply gives_ret. intros _. exists false. split; [done|]. by rewrite Z.lor_0_r. }
  eapply gives_bind; [apply gives_answer|]. intros stdin Hstdin.
  eapply gives_bind with (P := λ c, KeyDown h (match c with
    | Some record => is_key_event record && bKeyDown record | None => true end)).
  { destruct (Z.eqb_spec h stdin) as [Eh|Hne].
    - eapply gives_bind; [apply gives_answer|]. intros [r record] Hpeek. apply gives_ret. intros _.
      exists stdin. rewrite decide_True by done. split; [done|]. exists r, record. split; [done|].
      cbn [fst snd]. by destruct (r =? 1).
    - apply gives_ret. intros _. exists stdin. by rewrite decide_False. }
  intros c Hc. destruct c as [record|].
  - destruct (is_key_event record && bKeyDown record) eqn:Ekey.
    + apply gives_ret. intros _. by exists true.
    + eapply gives_bind; [apply gives_any|]. intros u _. apply gives_ret. intros _. exists false.
      split; [done|]. by rewrite Z.lor_0_r.
  - apply gives_ret. intros _. by exists true.
Qed.

(** Two sets of sets. *)
Definition with_sets (a b : fd_sets) : fd_sets :=
  FdSets (rfds a ∪ rfds b) (wfds a ∪ wfds b) (efds a ∪ efds b).

Lemma asked_socket p l sets :
  0 <= fd p → is_sock (fd p) = true →
  with_sets (FdSets
    (if asks (events p) in_mask then {[fd p]} ∪ rfds sets else rfds sets)
    (if asks (events p) out_mask then {[fd p]} ∪ wfds sets else wfds sets)
    ({[fd p]} ∪ efds sets)) (asked l) = with_sets sets (asked (p :: l)).
Proof.
  intros H0 Hs. unfold asked, with_sets, asking, sockets. cbn [rfds wfds efds].
  rewrite !(filter_cons_True (λ p, 0 <= fd p ∧ is_sock (fd p) = true)) by done.
  rewrite !filter_cons. destruct (asks (events p) in_mask), (asks (events p) out_mask);
    rewrite ?(decide_True (P := true = true)), ?(decide_False (P := false = true)) by done;
    rewrite ?fmap_cons; f_equal; apply leibniz_equiv; set_solver.
Qed.

(** What [collect] has of [l], after what it had. *)
Definition Collected (l : list pollfd) (sets : fd_sets) (n : Z) (hs : list Z)
    (r : option (fd_sets * Z * list Z)) : Prop :=
  match r with
  | None => FD_SETSIZE < n + Z.of_nat (length (sockets l)) ∨
            FD_SETSIZE < Z.of_nat (length hs + length (others l))
  | Some (sets', n', hs') =>
      (n <= FD_SETSIZE → n' <= FD_SETSIZE) ∧
      (Z.of_nat (length hs) <= FD_SETSIZE → Z.of_nat (length hs') <= FD_SETSIZE) ∧
      n' = n + Z.of_nat (length (sockets l)) ∧ sets' = with_sets sets (asked l) ∧
      ∃ k, hs' = hs ++ k ∧ Handles l k
  end.

Lemma gives_collect l sets n hs :
  Gives (collect os FD_SETSIZE l sets n hs) (λ r _, Collected l sets n hs r).
Proof.
  revert sets n hs. induction l as [|p l IH]; intros sets n hs; cbn [collect].
  { apply gives_ret. intros _. split; [done|]. split; [done|]. cbn. split; [lia|]. split.
    - destruct sets. unfold with_sets, asked. cbn. f_equal; apply leibniz_equiv; set_solver.
    - exists []. split; [by rewrite app_nil_r|constructor]. }
  destruct (Z.ltb_spec (fd p) 0) as [Hneg|Hpos].
  { replace (Collected (p :: l)) with (Collected l); [apply IH|].
    unfold Collected, Handles, asked. by destruct (ignored_cons p l Hneg) as [-> ->]. }
  eapply gives_bind; [apply gives_is_socket|]. intros b ->. destruct (is_sock (fd p)) eqn:Hs.
  - destruct (sockets_cons p l Hpos Hs) as [Hso Hot].
    destruct (Z.leb_spec FD_SETSIZE n) as [Hfull|Hroom].
    + apply gives_ret. intros _. left. rewrite Hso. cbn [length]. lia.
    + eapply gives_mono; [apply IH|]. intros r s1. unfold Collected, Handles.
      rewrite asked_socket, Hso, Hot by done. cbn [length].
      destruct r as [[[sets' n'] hs']|]; [|intros [?|?]; [left; lia|by right]].
      intros (H1 & H2 & -> & -> & H4). split; [lia|]. split; [done|]. split; [lia|done].
  - destruct (others_cons p l Hpos Hs) as [Hso Hot].
    destruct (Z.leb_spec FD_SETSIZE (Z.of_nat (length hs))) as [Hfull|Hroom].
    + apply gives_ret. intros _. right. rewrite Hot. cbn [length]. lia.
    + eapply gives_bind; [apply gives_answer|]. intros h Hh.
      eapply gives_mono; [apply IH|]. intros r s1. unfold Collected, Handles, asked.
      rewrite Hso, Hot, length_app. cbn [length].
      destruct r as [[[sets' n'] hs']|]; [|intros [?|?]; [by left|right; lia]].
      intros (H1 & H2 & -> & -> & k & -> & Hk). split; [done|]. split; [intros _; apply H2; lia|].
      split; [done|]. split; [done|]. exists (h :: k). split; [by rewrite <-app_assoc|by constructor].
Qed.

(** What the waiting loop leaves; it has waited for [tvs] before. *)
Definition Waiting (l : list pollfd) (hs : list Z) (timeout : Z) (r : Z + fd_sets * Z) (s' : sys W) : Prop :=
  match r with
  | inl r => r = -1 ∧ (Handles l hs → Failure l (errno s'))
  | inr (F, w) => ∃ tv rc, Waited hs w ∧ Selected l tv rc F ∧ Stopped l hs timeout rc w
  end.

Lemma gives_failed_select l tv F s1 s r s' :
  p_select os (asked l) tv s = Some ((SOCKET_ERROR, F), s1) →
  (err ← p_WSAGetLastError os; r ← wsa_select_errno err; mret (inl (B := fd_sets * Z) r)) s1 = Some (r, s') →
  r = inl (-1) ∧ Failure l (errno s').
Proof.
  intros E (err & s2 & Ee & [= <- <-])%bind_inv. split; [done|]. right. right.
  by exists tv, s, F, s1, err, s2.
Qed.

(** The answer that the loop works with after a pass. *)
Lemma gives_waited hs w0 :
  (hs = [] → w0 = WAIT_FAILED) →
  Gives (if negb (Z.of_nat (length hs) =? 0) then p_WaitForMultipleObjects os hs else mret w0)
    (λ w _, if decide (hs = []) then w = WAIT_FAILED else Answer (p_WaitForMultipleObjects os hs) w).
Proof.
  intros H0. destruct hs as [|h hs].
  - apply gives_ret. intros _. by apply H0.
  - rewrite length_eqb, bool_decide_false by done. apply gives_answer.
Qed.

Lemma gives_wait_loop fuel l hs timeout tvs spent loop w0 :
  (hs = [] → w0 = WAIT_FAILED) → foldr Z.add 0 tvs = spent * 1000 →
  Forall (λ tv, ∃ rc F, Selected l tv rc F ∧ (sockets l = [] ∨ rc <= 0)) tvs →
  Gives (wait_loop os fuel (asked l) (Z.of_nat (length (sockets l))) hs timeout spent loop w0)
    (Waiting l hs timeout).
Proof.
  revert tvs spent loop w0. induction fuel as [|fuel IH]; intros tvs spent loop w0 H0 Hsum Htvs; [done|].
  cbn [wait_loop]. cbv zeta.
  set (wait := if _ && (timeout - spent <? loop) then _ else _).
  assert (Hwait : timeout ≠ -1 → spent + wait <= timeout).
  { intros Ht. unfold wait. rewrite (proj2 (Z.eqb_neq _ _) Ht). cbn [negb andb].
    destruct (Z.ltb_spec (timeout - spent) loop); lia. }
  clearbody wait. eapply gives_bind; [apply gives_in_int|]. intros ? ->.
  eapply gives_bind; [by apply gives_waited|]. intros w Hw.
  rewrite length_eqb. destruct (negb (bool_decide (hs = [])) && (w =? WAIT_FAILED)) eqn:Efailed.
  { apply andb_true_iff in Efailed as [Ehs%negb_true_iff%bool_decide_eq_false ->%Z.eqb_eq].
    apply gives_errno. intros s' He. split; [done|]. intros Hhs. right. left.
    rewrite decide_False in Hw by done. split; [by exists hs|done]. }
  assert (HW : Waited hs w).
  { unfold Waited. case_decide as Hhs; [done|]. split; [done|].
    rewrite bool_decide_false in Efailed by done. by apply Z.eqb_neq. }
  set (signaled := _ && (w <=? _)).
  intros s r s' ([rc F] & s1 & Es & E)%bind_inv.
  destruct (negb signaled && (rc =? SOCKET_ERROR)) eqn:Eerr.
  { apply andb_true_iff in Eerr as [_ ->%Z.eqb_eq].
    destruct (gives_failed_select _ _ _ _ _ _ _ Es E) as [-> HF]. by split. }
  assert (HS : Selected l (if signaled then 0 else wait * 1000) rc F) by (by exists s, s1).
  assert (Hdone : signaled = true ∨ sockets l ≠ [] ∧ 0 < rc → Waiting l hs timeout (inr (F, w)) s').
  { intros Hstop. exists (if signaled then 0 else wait * 1000), rc. split; [done|]. split; [done|].
    destruct Hstop as [Hsig|Hstop]; [left|by right; left]. unfold signaled, WAIT_OBJECT_0 in Hsig.
    apply andb_true_iff in Hsig as [[_ H1%Z.leb_le]%andb_true_iff H2%Z.leb_le]. lia. }
  rewrite length_eqb in E.
  destruct (signaled || (negb (bool_decide (sockets l = [])) && (0 <? rc))) eqn:Estop.
  { injection E as <- <-. apply Hdone. apply orb_true_iff in Estop as [?|Estop]; [by left|right].
    by apply andb_true_iff in Estop as [?%negb_true_iff%bool_decide_eq_false ?%Z.ltb_lt]. }
  apply orb_false_iff in Estop as [Hsig Hidle]. rewrite Hsig in *.
  assert (Hrc : sockets l = [] ∨ rc <= 0).
  { apply andb_false_iff in Hidle as [?%negb_false_iff%bool_decide_eq_true|?%Z.ltb_ge]; auto. }
  assert (Hsum' : foldr Z.add 0 ((wait * 1000) :: tvs) = (spent + wait) * 1000) by (cbn; lia).
  assert (Htvs' : Forall (λ tv, ∃ rc F, Selected l tv rc F ∧ (sockets l = [] ∨ rc <= 0)) ((wait * 1000) :: tvs)).
  { constructor; [by exists rc, F|done]. }
  apply bind_inv in E as (t & s2 & ->%gives_in_int & E).
  destruct ((timeout =? -1) || (spent + wait <? timeout)) eqn:Eagain.
  - eapply IH; [|exact Hsum'|exact Htvs'|exact E]. intros ->. done.
  - injection E as <- <-. exists (wait * 1000), rc. split; [done|]. split; [done|]. right. right.
    apply orb_false_iff in Eagain as [Ht%Z.eqb_neq Hge%Z.ltb_ge]. split; [done|].
    exists ((wait * 1000) :: tvs). split; [|done]. rewrite Hsum'. specialize (Hwait Ht). nia.
Qed.

Lemma count_ready_cons p l :
  count_ready (p :: l) = count_ready l + (if revents p =? 0 then 0 else 1).
Proof.
  unfold count_ready. rewrite filter_cons. destruct (Z.eqb_spec (revents p) 0) as [E|E].
  - rewrite decide_False by auto. lia.
  - rewrite decide_True by done. cbn [length]. lia.
Qed.

Lemma gives_report F w hs i l :
  0 <= w < 2 ^ 32 → 0 <= i → Z.of_nat (length hs) <= 2 ^ 32 →
  Gives (report os l F hs w i)
    (λ r _, Reported F w i (drop (Z.to_nat i) hs) l r.1 ∧ r.2 = count_ready r.1).
Proof.
  intros Hw Hi Hhs. revert i Hi. induction l as [|p l IH]; intros i Hi; cbn [report].
  { by apply gives_ret. }
  assert (Hrest : ∀ rv j, 0 <= j → (∀ k, Reported F w j (drop (Z.to_nat j) hs) l k →
      Reported F w i (drop (Z.to_nat i) hs) (p :: l) (PollFd (fd p) (events p) rv :: k)) →
    Gives (r ← report os l F hs w j;
           mret (PollFd (fd p) (events p) rv :: r.1, r.2 + (if rv =? 0 then 0 else 1)))
      (λ r _, Reported F w i (drop (Z.to_nat i) hs) (p :: l) r.1 ∧ r.2 = count_ready r.1)).
  { intros rv j Hj Hk. eapply gives_bind; [by apply IH|]. intros r [HR Hr]. apply gives_ret. intros _.
    split; [by apply Hk|]. cbn [fst snd]. by rewrite count_ready_cons, Hr. }
  destruct (Z.ltb_spec (fd p) 0) as [Hneg|Hpos].
  { eapply gives_bind; [by apply IH|]. intros r [HR Hr]. apply gives_ret. intros _.
    cbn [fst snd]. rewrite count_ready_cons, Hr. cbn [Reported fd events revents Z.eqb].
    by rewrite (proj2 (Z.ltb_lt _ _) Hneg), Z.add_0_r. }
  eapply gives_bind; [apply gives_is_socket|]. intros b ->.
  eapply gives_bind with (P := λ x, ∃ j, x.2 = j ∧ 0 <= j ∧ ∀ k,
    Reported F w j (drop (Z.to_nat j) hs) l k →
    if is_sock (fd p) then SocketEvents F p x.1 ∧ Reported F w i (drop (Z.to_nat i) hs) l k
    else match drop (Z.to_nat i) hs with
         | h :: hs => HandleEvents (w =? i) h p x.1 ∧ Reported F w (i + 1) hs l k
         | [] => False
         end).
  - destruct (is_sock (fd p)).
    + eapply gives_bind; [apply gives_select_revents|]. intros rv Hrv. apply gives_ret. intros _.
      by exists i.
    + eapply gives_bind with (P := λ h, hs !! Z.to_nat i = Some h).
      { intros s h s'. destruct (hs !! Z.to_nat i); [by intros [= -> <-]|done]. }
      intros h Hh. pose proof (lookup_lt_Some _ _ _ Hh) as Hlt.
      eapply gives_bind; [apply (gives_wait_revents h p i w); lia|]. intros rv Hrv.
      apply gives_ret. intros _. exists (i + 1). split; [done|]. split; [lia|]. intros k Hk.
      rewrite (drop_S _ h) by done. split; [done|].
      by replace (S (Z.to_nat i)) with (Z.to_nat (i + 1)) by lia.
  - intros [rv j] (? & <- & Hj & Hk). cbn [fst snd] in *. apply (Hrest rv j Hj). intros k HR.
    cbn [Reported fd events revents]. rewrite (proj2 (Z.ltb_ge _ _) Hpos).
    by split_and!; [..|apply Hk].
Qed.

Lemma waited_range hs w : Waited hs w → 0 <= w < 2 ^ 32.
Proof.
  unfold Waited. case_decide; [intros ->; unfold WAIT_FAILED; lia|].
  intros [(s & s' & E) _]. by eapply c_wait.
Qed.

Lemma with_no_sets l : with_sets (FdSets ∅ ∅ ∅) (asked l) = asked l.
Proof. unfold with_sets, asked. cbn. f_equal; apply leibniz_equiv; set_solver. Qed.

Lemma gives_poll fuel l timeout :
  l ≠ [] → 0 <= FD_SETSIZE <= 2 ^ 32 →
  Gives (poll os FD_SETSIZE fuel (Some l) timeout) (Outcome l timeout).
Proof.
  intros Hl HF. unfold poll. destruct l as [|p l]; [done|]. clear Hl.
  eapply gives_bind; [apply gives_collect|]. intros c HC1. unfold Collected in HC1.
  destruct c as [[[sets n] hs]|].
  2: { apply gives_errno. intros s' He. left. split; [done|]. left. rewrite He. split; [|done].
       cbn [length] in HC1. destruct HC1; [left|right]; lia. }
  destruct HC1 as (H1 & H2 & -> & -> & k & -> & Hk). rewrite with_no_sets, Z.add_0_l in *.
  cbn [app length] in *.
  intros s r s' (w & s1 & Ew & E)%bind_inv.
  assert (HW : Waiting (p :: l) k timeout w s1).
  { eapply (gives_wait_loop fuel _ k timeout []); [| | |exact Ew]; done. }
  destruct w as [r1|[F w]].
  - injection E as <- <-. left. destruct HW as [-> HW]. auto.
  - destruct HW as (tv & rc & Hw & HS & Hstop).
    apply bind_inv in E as (q & s2 & Eq & [= <- <-]).
    apply gives_report in Eq as [HR Hq]; [|by eapply waited_range|done|lia].
    right. exists q.1. rewrite Hq. split; [done|]. split; [lia|]. split.
    + apply Forall2_length in Hk. lia.
    + by exists k, w, tv, rc, F.
Qed.
End spec.
