(* ===== verification/PollProperties.v ===== *)
(** [poll] on Windows: properties. *)
From Stdlib Require Import ZArith Lia.
From stdpp Require Import prelude gmap.
From S2P Require Import Prelude CInt PosixWin Poll PollSpec.

Local Open Scope Z_scope.

(** ** Time *)

Lemma in_int_run {W} z (s : sys W) : - 2 ^ 31 <= z < 2 ^ 31 → in_int z s = Some (z, s).
Proof. intros Hz. unfold in_int. by rewrite decide_True. Qed.

Lemma in_int_inv {W} z (s : sys W) a s' : in_int z s = Some (a, s') → a = z ∧ s' = s.
Proof. unfold in_int. case_decide; [|done]. by intros [= <- <-]. Qed.

(** What returns has every property of what returns. *)
Lemma wp_gives {W A} (m : ST (sys W) A) P Q s : wp m P s → Gives m Q → wp m (λ a s', P a s' ∧ Q a s') s.
Proof. unfold wp. intros HP HQ. destruct (m s) as [[a s']|] eqn:E; [|done]. split; [done|by eapply HQ]. Qed.

Section time.
Context {W : Type} (os : poll_calls W) (FD_SETSIZE : Z).
(** Microseconds, the sockets, those of them that do not block, and the handles
    that are no console or have input that has not been read. *)
Context (clock : W → Z) (sock nonblocking : Z → bool) (unread : W → Z → Prop).

(** No input is read. *)
Definition Keeps (s s' : sys W) : Prop := ∀ h, unread (world s) h → unread (world s') h.

(** [m] always returns, after at most [t], and reads no input. *)
Definition Takes {A} (t : Z) (m : ST (sys W) A) (Q : A → Prop) : Prop :=
  ∀ s, wp m (λ a s', clock (world s') <= clock (world s) + t ∧ Keeps s s' ∧ Q a) s.

Lemma takes_bind {A B} t1 t2 t (m : ST (sys W) A) (f : A → ST (sys W) B) P Q :
  Takes t1 m P → (∀ a, P a → Takes t2 (f a) Q) → t = t1 + t2 → Takes t (m ≫= f) Q.
Proof.
  intros Hm Hf -> s. wp_step. eapply wp_mono; [apply Hm|]. intros a s1 (Hc & HK & HP).
  eapply wp_mono; [by apply Hf|]. intros b s2 (Hc2 & HK2 & HQ).
  split_and!; [lia| |done]. intros h Hh. by apply HK2, HK.
Qed.

Lemma takes_ret {A} (a : A) (Q : A → Prop) : Q a → Takes 0 (mret a) Q.
Proof. intros HQ s. wp_step. split_and!; [lia|by intros h|done]. Qed.

Lemma takes_errno e (Q : unit → Prop) : Q tt → Takes 0 (set_errno e) Q.
Proof. intros HQ s. unfold set_errno. wp_step. split_and!; [simpl; lia|by intros h|done]. Qed.

Lemma takes_weaken {A} t t' (m : ST (sys W) A) (P Q : A → Prop) :
  Takes t m P → t <= t' → (∀ a, P a → Q a) → Takes t' m Q.
Proof.
  intros Hm Ht HPQ s. eapply wp_mono; [apply Hm|]. intros a s' (Hc & HK & HP).
  split_and!; [lia|done|auto].
Qed.

(** The documented behaviour: [select] waits at most as long as it is told;
    [recv] does not wait on a socket that does not block; [ReadConsoleInput] does
    not when there is input, and a console is signaled when there is; the other
    calls do not wait.  A descriptor stays what it is. *)
Record Timely : Prop := {
  t_select sets tv : 0 <= tv → Takes tv (p_select os sets tv) (λ _, True);
  t_keeps sets tv s r s' : p_select os sets tv s = Some (r, s') → Keeps s s';
  t_wait hs : Takes 0 (p_WaitForMultipleObjects os hs) (λ w, 0 <= w < 2 ^ 32);
  t_signaled hs : Gives (p_WaitForMultipleObjects os hs)
    (λ w s', ∀ h, hs !! Z.to_nat w = Some h → unread (world s') h);
  t_recv f oob : nonblocking f = true → Takes 0 (p_recv_peek os f oob) (λ _, True);
  t_error : Takes 0 (p_WSAGetLastError os) (λ _, True);
  t_socket f : Takes 0 (p_WSAEnumNetworkEvents os f) (λ r, (r =? 0) = sock f);
  t_handle f : Takes 0 (p_get_osfhandle os f) (λ _, True);
  t_stdin : Takes 0 (p_stdin_handle os) (λ _, True);
  t_peek h : Takes 0 (p_PeekConsoleInput os h) (λ _, True);
  t_input h s : unread (world s) h →
    wp (p_ReadConsoleInput os h) (λ _ s', clock (world s') <= clock (world s)) s
}.
Context (HT : Timely).

(** What returns with [Q] gives it. *)
Lemma takes_gives {A} t (m : ST (sys W) A) Q : Takes t m Q → Gives m (λ a _, Q a).
Proof. intros Hm s a s' E. specialize (Hm s). unfold wp in Hm. rewrite E in Hm.
by destruct Hm as (_ & _ & ?). Qed.

Lemma timely_consistent : Consistent os sock.
Proof. split; intros; eapply takes_gives; [by apply t_socket|by apply t_wait]. Qed.

(** Sequences of calls that do not wait. *)
Ltac takes H x := eapply (takes_bind 0 0); [apply H; try exact HT; try done|intros x _|done].

Lemma takes_is_socket f : Takes 0 (poll_is_socket os f) (λ b, b = is_sock sock f).
Proof.
  unfold poll_is_socket, is_sock. destruct (f <? 3); [by apply takes_ret|].
  eapply (takes_bind 0 0); [by apply t_socket|intros r Hr|done]. by apply takes_ret.
Qed.

Lemma takes_closed f : nonblocking f = true → Takes 0 (conn_is_closed os f) (λ _, True).
Proof.
  intros Hf. unfold conn_is_closed. takes t_recv ret. destruct (_ =? _); [|by apply takes_ret].
  takes t_error err. by apply takes_ret.
Qed.

Lemma takes_select_revents f ev sets :
  nonblocking f = true → Takes 0 (compute_select_revents os f ev sets) (λ _, True).
Proof.
  intros Hf. unfold compute_select_revents. eapply (takes_bind 0 0 _ _ _ (λ _, True)); [|intros rc _|done].
  { destruct (_ && _); [takes takes_closed c|]; by apply takes_ret. }
  cbv zeta. case_bool_decide; [|by apply takes_ret].
  takes takes_closed c. destruct c; [by apply takes_ret|].
  unfold conn_has_oob_data.
  eapply (takes_bind 0 0 _ _ _ (λ _, True)); [|intros oob _; by apply takes_ret|done].
  takes t_recv r. by apply takes_ret.
Qed.

(** A handle that is not signaled. *)
Lemma takes_wait_revents h ev object wait_rc :
  u32 object ≠ u32 (wait_rc - WAIT_OBJECT_0) →
  Takes 0 (compute_wait_revents os h ev object wait_rc) (λ _, True).
Proof.
  intros Hne. unfold compute_wait_revents. cbv zeta.
  rewrite (proj2 (Z.eqb_neq _ _) Hne), andb_false_r. by apply takes_ret.
Qed.

(** The one that is. *)
Lemma wait_revents_signaled h ev object wait_rc s :
  unread (world s) h →
  wp (compute_wait_revents os h ev object wait_rc) (λ _ s', clock (world s') <= clock (world s)) s.
Proof.
  intros Hh. unfold compute_wait_revents. cbv zeta. destruct (_ && _); [|by wp_step].
  wp_step. eapply wp_mono; [by apply t_stdin|]. intros stdin s1 (H1 & K1 & _).
  wp_step. apply (wp_mono _ (λ _ s', clock (world s') <= clock (world s1) ∧ Keeps s1 s')).
  { destruct (_ =? _); [|wp_step; split; [done|by intros k]].
    wp_step. eapply wp_mono; [by apply t_peek|]. intros r s2 (H2 & K2 & _). wp_step. split; [lia|done]. }
  intros [record|] s2 [H2 K2]; [|wp_step; lia]. destruct (_ && _); [wp_step; lia|].
  wp_step. eapply wp_mono; [by apply t_input, K2, K1|]. cbn beta. intros u s3 H3. wp_step. lia.
Qed.

Lemma takes_collect l sets n handles :
  Takes 0 (collect os FD_SETSIZE l sets n handles) (λ _, True).
Proof.
  revert sets n handles; induction l as [|p l IH]; intros sets n handles; cbn [collect].
  { by apply takes_ret. }
  destruct (fd p <? 0); [apply IH|]. takes takes_is_socket b. destruct b.
  - destruct (_ <=? _); [by apply takes_ret|apply IH].
  - destruct (_ <=? _); [by apply takes_ret|]. takes t_handle h. apply IH.
Qed.

(** The sockets do not block. *)
Definition Nonblocking (l : list pollfd) : Prop :=
  ∀ p, p ∈ l → is_sock sock (fd p) = true → nonblocking (fd p) = true.

(** The handle [w], if the last loop comes to it, has input. *)
Definition Pending (handles : list Z) (object w : Z) (s : sys W) : Prop :=
  object <= w → ∀ h, handles !! Z.to_nat w = Some h → unread (world s) h.

Lemma report_takes l sets handles w object s :
  Nonblocking l → 0 <= object → object + Z.of_nat (length (others sock l)) <= Z.of_nat (length handles) <= 2 ^ 32 →
  0 <= w < 2 ^ 32 → Pending handles object w s →
  wp (report os l sets handles w object) (λ _ s', clock (world s') <= clock (world s)) s.
Proof.
  intros Hnb H0 Hlen Hw. revert object s H0 Hlen.
  induction l as [|p l IH]; intros object s H0 Hlen HP; cbn [report]; [by wp_step|].
  assert (Hnb' : Nonblocking l) by (intros q Hq; apply Hnb; by right).
  assert (Hrest : ∀ object s1 rv, 0 <= object → object + Z.of_nat (length (others sock l)) <= Z.of_nat (length handles) <= 2 ^ 32 →
    clock (world s1) <= clock (world s) → Pending handles object w s1 →
    wp (r ← report os l sets handles w object;
        mret (PollFd (fd p) (events p) rv :: r.1, r.2 + (if rv =? 0 then 0 else 1)))
      (λ _ s', clock (world s') <= clock (world s)) s1).
  { intros o s1 rv Ho Hl Hc HP1. wp_step. eapply wp_mono; [by apply IH|]. cbn beta. intros r s2 H2.
    wp_step. lia. }
  destruct (Z.ltb_spec (fd p) 0) as [Hneg|Hpos].
  { destruct (ignored_cons sock p l Hneg) as [_ Ho]. rewrite Ho in Hlen. wp_step.
    eapply wp_mono; [by apply IH|]. cbn beta. intros r s2 H2. by wp_step. }
  wp_step. eapply wp_mono; [apply takes_is_socket|]. intros b s1 (H1 & K1 & ->).
  destruct (is_sock sock (fd p)) eqn:Es.
  - destruct (sockets_cons sock p l Hpos Es) as [_ Ho]. rewrite Ho in Hlen.
    do 2 wp_step. eapply wp_mono; [apply takes_select_revents, Hnb; [by left|done]|].
    intros rv s2 (H2 & K2 & _). wp_step. cbn [fst snd]. apply Hrest; [done|lia|lia|].
    intros Hle h Hh. by eapply K2, K1, HP.
  - destruct (others_cons sock p l Hpos Es) as [_ Ho]. rewrite Ho in Hlen. cbn [length] in Hlen.
    destruct (lookup_lt_is_Some_2 handles (Z.to_nat object)) as [h Hh]; [lia|].
    do 2 wp_step. rewrite Hh. wp_step. wp_step. destruct (decide (object = w)) as [->|Hne].
    + eapply wp_mono; [apply wait_revents_signaled; by apply K1, HP|]. cbn beta. intros rv s2 H2. wp_step.
      cbn [fst snd]. apply Hrest; [lia..|]. intros ?. lia.
    + eapply wp_mono; [apply takes_wait_revents|].
      { unfold WAIT_OBJECT_0. rewrite Z.sub_0_r, !u32_small by (unfold is_u32; lia). done. }
      intros rv s2 (H2 & K2 & _). wp_step. cbn [fst snd]. apply Hrest; [lia..|].
      intros Hle k Hk. eapply K2, K1, HP; [lia|done].
Qed.

Lemma takes_in_int z : - 2 ^ 31 <= z < 2 ^ 31 → Takes 0 (in_int z) (λ a, a = z).
Proof.
  intros Hz s. unfold in_int. rewrite decide_True by done. wp_step.
  split_and!; [lia|by intros h|done].
Qed.

(** A handle is signaled because it has input. *)
Lemma wait_loop_pending fuel sets n handles timeout spent loop w0 :
  (handles = [] → w0 = WAIT_FAILED) →
  Gives (wait_loop os fuel sets n handles timeout spent loop w0) (λ r s',
    match r with
    | inl _ => True
    | inr (_, w) => 0 <= w < 2 ^ 32 ∧ Pending handles 0 w s'
    end).
Proof.
  revert spent loop w0. induction fuel as [|fuel IH]; intros spent loop w0 H0; [done|].
  cbn [wait_loop]. cbv zeta. set (wait := if _ && (timeout - spent <? loop) then _ else _). clearbody wait.
  eapply gives_bind; [apply gives_in_int|]. intros ? ->.
  intros s r s' (w & s1 & Ew & E)%bind_inv.
  assert (Hw : 0 <= w < 2 ^ 32 ∧ Pending handles 0 w s1 ∧ (handles = [] → w = WAIT_FAILED)).
  { rewrite length_eqb in Ew. case_bool_decide as Eh; cbn [negb] in Ew.
    - injection Ew as <- <-. subst handles. rewrite H0 by done. split; [unfold WAIT_FAILED; lia|].
      split; [by intros _ h|done].
    - split; [by eapply (takes_gives _ _ _ (t_wait HT handles))|]. split; [|done].
      intros _ h Hh. by eapply (t_signaled HT). }
  destruct Hw as (Hw & HP & Hempty).
  destruct (_ && (w =? WAIT_FAILED)); [by apply bind_inv in E as (? & ? & _ & [= <- _])|].
  apply bind_inv in E as ([rc F] & s2 & Es & E).
  set (signaled := _ && _ && _) in *.
  destruct (_ && (rc =? SOCKET_ERROR)).
  { apply bind_inv in E as (err & s3 & _ & E). by apply bind_inv in E as (k & s4 & _ & [= <- _]). }
  destruct (_ || _).
  { injection E as <- <-. split; [done|]. intros Ho h Hh.
    by eapply (t_keeps HT), HP. }
  apply bind_inv in E as (t & s3 & [-> ->]%in_int_inv & E).
  destruct (_ || _); [by eapply IH|]. injection E as <- <-. split; [done|]. intros Ho h Hh.
  by eapply (t_keeps HT), HP.
Qed.

Lemma takes_wait_loop fuel sets n handles timeout spent loop wait_rc :
  timeout < 2 ^ 31 → 0 <= spent → (spent < timeout ∨ spent = timeout ∧ loop = 0) →
  0 <= loop <= 100 → (1 <= fuel)%nat → timeout - spent <= loop * Z.of_nat fuel →
  Takes ((timeout - spent) * 1000)
    (wait_loop os fuel sets n handles timeout spent loop wait_rc) (λ _, True).
Proof.
  intros Hmax. revert spent wait_rc.
  induction fuel as [|fuel IH]; intros spent wait_rc Hs Hlt Hloop Hf Hw; [lia|].
  cbn [wait_loop]. cbv zeta. rewrite (proj2 (Z.eqb_neq timeout (-1))) by lia. simpl.
  set (wait := if timeout - spent <? loop then timeout - spent else loop).
  assert (Hwait : wait = Z.min loop (timeout - spent)).
  { unfold wait. destruct (Z.ltb_spec (timeout - spent) loop); lia. }
  clearbody wait.
  eapply (takes_bind 0 ((timeout - spent) * 1000)); [apply takes_in_int; lia|intros ? ->|done].
  eapply (takes_bind 0 ((timeout - spent) * 1000) _ _ _ (λ _, True)); [|intros wrc _|done].
  { destruct (negb _); [by eapply takes_weaken; [by apply t_wait|..]|by apply takes_ret]. }
  destruct (_ && (wrc =? WAIT_FAILED)).
  { eapply (takes_weaken 0 _ _ (λ _, True)); [|lia|done].
    eapply (takes_bind 0 0); [by apply (takes_errno _ (λ _, True))|intros u _; by apply takes_ret|done]. }
  set (signaled := negb _ && _ && _).
  eapply (takes_bind (wait * 1000) ((timeout - spent - wait) * 1000) _ _ _ (λ _, True)); [| |lia].
  { eapply takes_weaken; [apply t_select; [exact HT|]| |done]; destruct signaled; lia. }
  intros [rc sets'] _. destruct (_ && (rc =? SOCKET_ERROR)).
  { eapply (takes_weaken 0 _ _ (λ _, True)); [|lia|done].
    takes t_error err. unfold wsa_select_errno.
    eapply (takes_bind 0 0 _ _ _ (λ _, True)); [|intros r _; by apply takes_ret|done].
    eapply (takes_bind 0 0); [by apply (takes_errno _ (λ _, True))|intros u _; by apply takes_ret|done]. }
  destruct (_ || _).
  { eapply (takes_weaken 0 _ _ (λ _, True)); [by apply takes_ret|lia|done]. }
  eapply (takes_bind 0 ((timeout - spent - wait) * 1000) _ _ _ (λ z, z = spent + wait));
    [apply takes_in_int; lia|intros ? ->|done].
  destruct (Z.ltb_spec (spent + wait) timeout) as [Hmore|Hdone].
  - assert (wait = loop) as -> by lia.
    replace (timeout - spent - loop) with (timeout - (spent + loop)) by lia.
    apply IH; [lia|left; lia|done| |].
    + destruct fuel; [lia|lia].
    + rewrite Nat2Z.inj_succ in Hw. lia.
  - eapply (takes_weaken 0 _ _ (λ _, True)); [by apply takes_ret|lia|done].
Qed.

Lemma poll_takes fuel l timeout s :
  0 <= FD_SETSIZE <= 2 ^ 32 → Nonblocking l → 0 <= timeout < 2 ^ 31 → (Z.to_nat (timeout / 100) < fuel)%nat →
  wp (poll os FD_SETSIZE fuel (Some l) timeout)
    (λ _ s', clock (world s') <= clock (world s) + timeout * 1000) s.
Proof.
  intros HF Hnb Ht Hfuel.
  assert (Hf : timeout < 100 * Z.of_nat fuel).
  { pose proof (Z.div_mod timeout 100 ltac:(lia)). pose proof (Z.mod_pos_bound timeout 100 ltac:(lia)).
    pose proof (Z.div_pos timeout 100 ltac:(lia) ltac:(lia)). lia. }
  unfold poll. destruct l as [|p l]; [wp_step; lia|]. wp_step.
  eapply wp_mono; [apply wp_gives; [apply (takes_collect _ _ _ _)|]|].
  { apply (gives_collect os FD_SETSIZE sock timely_consistent). }
  intros c s1 [(H1 & _ & _) Hc]. destruct c as [[[sets n] handles]|].
  2: { unfold set_errno. do 3 wp_step. cbn [world]. lia. }
  destruct Hc as (_ & Hlen & _ & _ & k & -> & Hk%Forall2_length). cbn [app length] in *.
  rewrite (proj2 (Z.eqb_neq timeout (-1))), orb_false_r by lia.
  set (loop := if 100 <? timeout then 100 else timeout).
  assert (Hloop : loop = Z.min 100 timeout).
  { unfold loop. destruct (Z.ltb_spec 100 timeout); lia. }
  clearbody loop. wp_step. eapply wp_mono; [apply wp_gives|].
  - apply (takes_wait_loop fuel sets n k timeout 0 loop); try lia.
    destruct (Z.le_gt_cases 100 timeout); [lia|]. assert (loop = timeout) as -> by lia.
    assert (1 <= Z.of_nat fuel) by lia. nia.
  - by apply wait_loop_pending.
  - intros [r|[sets' w]] s2 [(H2 & _ & _) HP]; [wp_step; lia|]. destruct HP as [Hw HP]. wp_step.
    eapply wp_mono; [apply report_takes; [done|lia|lia|done|done]|]. cbn beta. intros r s3 H3. wp_step. lia.
Qed.
End time.


(** C36: With a timeout of [T] milliseconds [poll] returns, after at most
    [T / 100 + 1] passes, and has waited for at most [T] milliseconds in all, for
    any mix of handles and sockets that do not block, and whatever becomes
    ready. *)
Theorem poll_returns_in_time W (os : poll_calls W) FD_SETSIZE clock sock nonblocking unread fuel l timeout s :
  Timely os clock sock nonblocking unread → 0 <= FD_SETSIZE <= 2 ^ 32 →
  Nonblocking sock nonblocking l → 0 <= timeout < 2 ^ 31 → (Z.to_nat (timeout / 100) < fuel)%nat →
  ∃ r l' s', poll os FD_SETSIZE fuel (Some l) timeout s = Some ((r, l'), s') ∧
    clock (world s') <= clock (world s) + timeout * 1000.
Proof.
  intros HT HF Hnb Ht Hfuel.
  destruct (wp_elim _ _ _ (poll_takes os FD_SETSIZE clock sock nonblocking unread HT fuel l timeout s
    HF Hnb Ht Hfuel)) as ([r l'] & s' & E & Hc).
  by exists r, l', s'.
Qed.

(** A system with one idle socket, number 5, and a console: [select] waits as
    long as it may, or fails when it is given nothing to wait for. *)
Definition idle_os : poll_calls Z := {|
  p_recv_peek _ _ := mret (-1);
  p_WSAGetLastError := mret WSAEINVAL;
  p_WSAEnumNetworkEvents f := mret (if f =? 5 then 0 else -1);
  p_get_osfhandle f := mret (100 + f);
  p_WaitForMultipleObjects _ := mret 258;
  p_select sets tv :=
    if bool_decide (efds sets = ∅) then mret (SOCKET_ERROR, sets)
    else modify (λ s, Sys (errno s) (world s + tv));; mret (0, FdSets ∅ ∅ ∅);
  p_stdin_handle := mret 100;
  p_PeekConsoleInput _ := mret (0, InputRecord false false);
  p_ReadConsoleInput _ := mret tt
|}.

Lemma idle_timely : Timely idle_os id (λ f, f =? 5) (λ _, true) (λ _ _, True).
Proof.
  split; simpl.
  3: intros hs; eapply takes_weaken; [by apply (takes_ret id (λ _ _, True) 258 (λ w, w = 258))|done|by intros ? ->].
  2: by intros sets tv s r s' _ h.
  2: by intros hs s w s' _ h.
  2-7: intros; apply takes_ret; repeat case_match; done.
  - intros sets tv Htv s. unfold id, wp, modify, mbind, ST_bind. cbn.
    case_bool_decide; cbn; split_and!; (done || lia).
  - intros h s _. by wp_step.
Qed.

Lemma idle_nonblocking l : Nonblocking (λ f, f =? 5) (λ _, true) l.
Proof. done. Qed.

Lemma poll_returns_in_time_witness :
  ∃ s', poll idle_os 64 3 (Some [PollFd 5 POLLIN 0; PollFd 0 POLLOUT 0]) 250 (Sys EIO 0)
    = Some ((1, Some [PollFd 5 POLLIN 0; PollFd 0 POLLOUT POLLOUT]), s') ∧ world s' = 250000.
Proof.
  destruct (poll_returns_in_time _ idle_os 64 id (λ f, f =? 5) (λ _, true) (λ _ _, True) 3
    [PollFd 5 POLLIN 0; PollFd 0 POLLOUT 0] 250 (Sys EIO 0)) as (r & l' & s' & E & _).
  - apply idle_timely.
  - lia.
  - apply idle_nonblocking.
  - lia.
  - apply Nat.ltb_lt. by vm_compute.
  - exists s'. rewrite E. vm_compute in E. by injection E as <- <- <-.
Defined.


(** ** Urgent data *)

(** A blocking socket, number 5, with urgent data: [select] says so at once.
    [recv] waits for other data, which comes after a day. *)
Definition urgent_os : poll_calls Z := {|
  p_recv_peek _ oob :=
    (if oob : bool then mret tt else modify (λ s, Sys (errno s) (world s + 86400000000)));; mret 1;
  p_WSAGetLastError := mret WSAEINVAL;
  p_WSAEnumNetworkEvents _ := mret 0;
  p_get_osfhandle f := mret (100 + f);
  p_WaitForMultipleObjects _ := mret 258;
  p_select sets _ := mret (1, FdSets ∅ ∅ (efds sets));
  p_stdin_handle := mret 100;
  p_PeekConsoleInput _ := mret (0, InputRecord false false);
  p_ReadConsoleInput _ := mret tt
|}.

(** [poll] waits for that day, whatever the timeout, and reports urgent data that
    it was not asked for. *)
Lemma urgent_data_blocks :
  poll urgent_os 64 3 (Some [PollFd 5 POLLIN 0]) 250 (Sys EIO 0)
  = Some ((1, Some [PollFd 5 POLLIN (Z.lor POLLRDBAND POLLPRI)]), Sys EIO 86400000000).
Proof. by vm_compute. Qed.

(** ** Nothing but handles *)

(** No entry is a socket and no handle is signaled (258 is [WAIT_TIMEOUT]);
    [select], given three empty sets, fails as it is documented to. *)
Record NothingReady {W} (os : poll_calls W) (l : list pollfd) : Prop := {
  n_socket p s : p ∈ l → fd p < 3 ∨
    ∃ r s', p_WSAEnumNetworkEvents os (fd p) s = Some (r, s') ∧ r ≠ 0;
  n_handle f s : ∃ h s', p_get_osfhandle os f s = Some (h, s');
  n_wait hs s : ∃ s', p_WaitForMultipleObjects os hs s = Some (258, s');
  n_select tv s : ∃ sets s1 s2, p_select os (FdSets ∅ ∅ ∅) tv s = Some ((SOCKET_ERROR, sets), s1) ∧
    p_WSAGetLastError os s1 = Some (WSAEINVAL, s2)
}.

Lemma collect_handles {W} (os : poll_calls W) FD_SETSIZE all l handles s :
  NothingReady os all → (∀ p, p ∈ l → p ∈ all) →
  Z.of_nat (length handles + length l) <= FD_SETSIZE →
  ∃ handles' s', collect os FD_SETSIZE l (FdSets ∅ ∅ ∅) 0 handles s
    = Some (Some (FdSets ∅ ∅ ∅, 0, handles'), s') ∧ Z.of_nat (length handles') <= FD_SETSIZE.
Proof.
  intros HN. revert handles s; induction l as [|p l IH]; intros handles s Hin Hlen; cbn [collect].
  { exists handles, s. simpl in Hlen. split; [done|lia]. }
  assert (∀ q, q ∈ l → q ∈ all) as Hin' by (intros; apply Hin; by right).
  simpl in Hlen. destruct (Z.ltb_spec (fd p) 0); [apply IH; [done|lia]|].
  assert (∃ s1, poll_is_socket os (fd p) s = Some (false, s1)) as [s1 E1].
  { unfold poll_is_socket. destruct (Z.ltb_spec (fd p) 3); [by eexists|].
    destruct (n_socket _ _ HN p s) as [?|(r & s1 & E & Hr)]; [apply Hin; by left|lia|].
    exists s1. rewrite (bind_run _ _ _ _ _ E). by rewrite (proj2 (Z.eqb_neq r 0)). }
  rewrite (bind_run _ _ _ _ _ E1). rewrite (proj2 (Z.leb_gt _ _)) by lia.
  destruct (n_handle _ _ HN (fd p) s1) as (h & s2 & E2). rewrite (bind_run _ _ _ _ _ E2).
  apply IH; [done|]. rewrite length_app. simpl. lia.
Qed.

(** Without a socket among its entries and with none of the handles
    signaled, [poll] does not wait: it fails with [EINVAL] at once, whatever the
    timeout (of those whose microseconds an [int] holds), because the first
    [select] is given three empty sets. *)
Theorem poll_handles_only_fails W (os : poll_calls W) FD_SETSIZE fuel l timeout s :
  NothingReady os l → l ≠ [] → Z.of_nat (length l) <= FD_SETSIZE <= 258 →
  -2147483 <= timeout →
  ∃ s', poll os FD_SETSIZE (S fuel) (Some l) timeout s = Some ((-1, Some l), s') ∧
    errno s' = EINVAL.
Proof.
  intros HN Hl Hlen Ht. unfold poll. destruct l as [|p l]; [done|].
  destruct (collect_handles os FD_SETSIZE (p :: l) (p :: l) [] s HN) as (handles & s1 & E & Hh);
    [done|simpl in *; lia|].
  rewrite (bind_run _ _ _ _ _ E). cbn [wait_loop]. cbv zeta.
  set (wait := (if _ && _ then _ else _)).
  assert (- 2 ^ 31 <= wait * 1000 < 2 ^ 31) as Hwait.
  { unfold wait. destruct (Z.ltb_spec 100 timeout), (Z.eqb_spec timeout (-1)); simpl;
      try (case_match; lia); lia. }
  rewrite !bind_assoc, (bind_run _ _ _ _ _ (in_int_run _ s1 Hwait)).
  assert (∃ wrc s2, (if negb (Z.of_nat (length handles) =? 0) then p_WaitForMultipleObjects os handles
    else mret WAIT_FAILED) s1 = Some (wrc, s2) ∧
    (negb (Z.of_nat (length handles) =? 0) && (wrc =? WAIT_FAILED)) = false ∧
    (negb (Z.of_nat (length handles) =? 0) && (WAIT_OBJECT_0 <=? wrc) &&
      (wrc <=? WAIT_OBJECT_0 + Z.of_nat (length handles) - 1)) = false) as (wrc & s2 & Ew & Hf & Hs).
  { destruct (Z.eqb_spec (Z.of_nat (length handles)) 0); simpl; [by eexists _, _|].
    destruct (n_wait _ _ HN handles s1) as [s2 E2]. exists 258, s2. split_and!; [done..|].
    apply Z.leb_gt. unfold WAIT_OBJECT_0. lia. }
  rewrite !bind_assoc, (bind_run _ _ _ _ _ Ew), Hf, Hs.
  destruct (n_select _ _ HN (wait * 1000) s2) as (sets & s3 & s4 & E3 & E4).
  rewrite !bind_assoc, (bind_run _ _ _ _ _ E3). simpl.
  rewrite !bind_assoc, (bind_run _ _ _ _ _ E4). by eexists.
Qed.

(** [poll] of standard input alone. *)
Lemma poll_handles_only_fails_witness :
  ∃ s', poll idle_os 64 1 (Some [PollFd 0 POLLIN 0]) (-1) (Sys EIO 0)
    = Some ((-1, Some [PollFd 0 POLLIN 0]), s') ∧ errno s' = EINVAL.
Proof.
  apply (poll_handles_only_fails Z idle_os 64 0 [PollFd 0 POLLIN 0] (-1) (Sys EIO 0)).
  - split.
    + intros p s ->%list_elem_of_singleton. by left.
    + intros f s. by eexists _, _.
    + intros hs s. by eexists.
    + intros tv s. by eexists _, _, _.
  - done.
  - simpl. lia.
  - lia.
Defined.
