(* ===== verification/Lock.v ===== *)
(** [include/compat/pthread.h] and [crypto/compat/crypto_lock_win.c]: mutexes
    made from Win32 critical sections on first use.

    Threads run the operations interleaved, one access to shared memory at a
    time.  A program counter names the statement a thread is at; a pointer read
    from a slot stays in the program counter, as it does in a register. *)
From Stdlib Require Import ZArith Lia.
From stdpp Require Import prelude gmap functions fin_maps.
From S2P Require Import Prelude CInt.

(** A thread: what [pthread_self] returns. *)
Abbreviation tid := nat.
Abbreviation addr := positive.

(** [t1 == t2]. *)
Definition pthread_equal (t1 t2 : tid) : bool := Nat.eqb t1 t2.

(** ** Critical sections *)

(** The calls of Win32 on a [CRITICAL_SECTION]; [None] from
    [EnterCriticalSection] is a thread that waits. *)
Class CriticalSection (CS : Type) := {
  InitializeCriticalSection : CS;
  EnterCriticalSection : tid → CS → option CS;
  LeaveCriticalSection : tid → CS → CS;
  owner : CS → option (tid * nat)
}.

(** What is documented of them: one thread owns a section at a time, may enter
    it again, and leaves it as often as it entered. *)
Class CriticalSectionLaws (CS : Type) `{!CriticalSection CS} := {
  initialize_free : owner InitializeCriticalSection = None;
  enter_free t c : owner c = None →
    ∃ c', EnterCriticalSection t c = Some c' ∧ owner c' = Some (t, 1);
  enter_again t c n : owner c = Some (t, n) →
    ∃ c', EnterCriticalSection t c = Some c' ∧ owner c' = Some (t, S n);
  enter_waits t t' c n : owner c = Some (t', n) → t ≠ t' → EnterCriticalSection t c = None;
  leave_outer t c : owner c = Some (t, 1) → owner (LeaveCriticalSection t c) = None;
  leave_inner t c n : owner c = Some (t, S (S n)) →
    owner (LeaveCriticalSection t c) = Some (t, S n)
}.

(** ** Memory *)

(** A slot that holds a pointer to a section: [mutex->lock], or [locks[type]]. *)
Inductive key := Mutex (m : Z) | Crypto (type : Z).

#[global] Instance key_eq_dec : EqDecision key.
Proof. solve_decision. Defined.
#[global] Instance key_countable : Countable key.
Proof.
  refine (inj_countable' (λ k, match k with Mutex z => inl z | Crypto z => inr z end)
            (λ x, match x with inl z => Mutex z | inr z => Crypto z end) _); by intros [|].
Defined.

(** The slots that are not NULL, and the allocated sections: one that is
    allocated and not initialized, or deleted, is [None]. *)
Record memory (CS : Type) := Memory { slots : gmap key addr; heap : gmap addr (option CS) }.
Arguments Memory {_} _ _.
Arguments slots {_} _.
Arguments heap {_} _.

(** ** Statements *)

Inductive action := Enter | Leave.

Inductive pc :=
  | Idle
  (* pthread_mutex_lock, CRYPTO_lock *)
  | LockTest (k : key) (a : action)
  | LockMalloc (k : key) (a : action)
  | LockInitialize (k : key) (a : action) (lcs : addr)
  | LockExchange (k : key) (a : action) (lcs : addr)
  | LockDelete (k : key) (a : action) (lcs : addr)
  | LockFree (k : key) (a : action) (lcs : addr)
  (* and pthread_mutex_unlock *)
  | LockRead (k : key) (a : action)
  | LockCall (k : key) (a : action) (lock : addr)
  (* pthread_mutex_init *)
  | InitMalloc (k : key)
  | InitInitialize (k : key)
  (* pthread_mutex_destroy *)
  | DestroyTest (k : key)
  | DestroyDelete (k : key)
  | DestroyFree (k : key)
  | DestroyClear (k : key).

#[global] Instance action_eq_dec : EqDecision action.
Proof. solve_decision. Defined.
#[global] Instance pc_eq_dec : EqDecision pc.
Proof. solve_decision. Defined.

(** The effect of a statement: the next one; [exit]; a wait; or an access with
    no meaning (NULL, freed or uninitialized memory).  [Moved] is [Next] for a
    thread that entered or left the section of [k]. *)
Inductive outcome (CS : Type) :=
  | Next (p : pc) (m : memory CS)
  | Moved (a : action) (k : key) (m : memory CS)
  | Exit (code : Z)
  | Waits
  | Fault.
Arguments Next {_} _ _.
Arguments Moved {_} _ _ _.
Arguments Exit {_} _.
Arguments Waits {_}.
Arguments Fault {_}.

(** [sizeof(CRITICAL_SECTION)] bytes at a fresh address, or NULL. *)
Definition malloc_gives {CS} (r : option addr) (m : memory CS) : Prop :=
  match r with Some a => heap m !! a = None | None => True end.

(** [exit(ENOMEM)]. *)
Definition ENOMEM_code : Z := 12.

Section statements.
Context {CS : Type} `{!CriticalSection CS}.
Implicit Types (m : memory CS) (k : key) (a : action) (l : addr).

Definition set_heap l (c : option CS) m : memory CS := Memory (slots m) (<[l := c]> (heap m)).
Definition set_slot k l m : memory CS := Memory (<[k := l]> (slots m)) (heap m).

(** [DeleteCriticalSection], [free], of what [l] points to. *)
Definition delete_section l m (p : pc) : outcome CS :=
  match heap m !! l with
  | Some (Some _) => Next p (set_heap l None m)
  | _ => Fault
  end.
Definition free_section l m (p : pc) : outcome CS :=
  match heap m !! l with
  | Some _ => Next p (Memory (slots m) (delete l (heap m)))
  | None => Fault
  end.
Definition initialize_section l m (p : pc) : outcome CS :=
  match heap m !! l with
  | Some None => Next p (set_heap l (Some InitializeCriticalSection) m)
  | _ => Fault
  end.

(** [EnterCriticalSection(l)] or [LeaveCriticalSection(l)] by thread [t]. *)
Definition call_section (t : tid) k a l m : outcome CS :=
  match heap m !! l, a with
  | Some (Some c), Enter =>
      match EnterCriticalSection t c with
      | Some c' => Moved Enter k (set_heap l (Some c') m)
      | None => Waits
      end
  | Some (Some c), Leave => Moved Leave k (set_heap l (Some (LeaveCriticalSection t c)) m)
  | _, _ => Fault
  end.

(** Do something with the pointer a slot holds. *)
Definition with_slot k m (f : addr → outcome CS) : outcome CS :=
  match slots m !! k with Some l => f l | None => Fault end.

(** The whole of [pthread_mutex_lock] and of [CRYPTO_lock]: [a] is the call at
    the end.  [r] is what [malloc] returns at this step. *)
Definition lock_step (t : tid) (r : option addr) (p : pc) m : outcome CS :=
  match p with
  | LockTest k a =>
      match slots m !! k with
      | None => Next (LockMalloc k a) m
      | Some _ => Next (LockRead k a) m
      end
  | LockMalloc k a =>
      match r with
      | None => Exit ENOMEM_code
      | Some lcs => Next (LockInitialize k a lcs) (set_heap lcs None m)
      end
  | LockInitialize k a lcs => initialize_section lcs m (LockExchange k a lcs)
  | LockExchange k a lcs =>
      match slots m !! k with
      | None => Next (LockRead k a) (set_slot k lcs m)
      | Some _ => Next (LockDelete k a lcs) m
      end
  | LockDelete k a lcs => delete_section lcs m (LockFree k a lcs)
  | LockFree k a lcs => free_section lcs m (LockRead k a)
  | LockRead k a => with_slot k m (λ lock, Next (LockCall k a lock) m)
  | LockCall k a lock => call_section t k a lock m
  | _ => Fault
  end.

(** [pthread_mutex_init]. *)
Definition pthread_mutex_init_step (r : option addr) (p : pc) m : outcome CS :=
  match p with
  | InitMalloc k =>
      match r with
      | None => Exit ENOMEM_code
      | Some l => Next (InitInitialize k) (set_slot k l (set_heap l None m))
      end
  | InitInitialize k => with_slot k m (λ l, initialize_section l m Idle)
  | _ => Fault
  end.

(** [pthread_mutex_destroy]. *)
Definition pthread_mutex_destroy_step (p : pc) m : outcome CS :=
  match p with
  | DestroyTest k =>
      match slots m !! k with Some _ => Next (DestroyDelete k) m | None => Next Idle m end
  | DestroyDelete k => with_slot k m (λ l, delete_section l m (DestroyFree k))
  | DestroyFree k => with_slot k m (λ l, free_section l m (DestroyClear k))
  | DestroyClear k => Next Idle (Memory (delete k (slots m)) (heap m))
  | _ => Fault
  end.

Definition pc_step (t : tid) (r : option addr) (p : pc) m : outcome CS :=
  match p with
  | Idle => Fault
  | InitMalloc _ | InitInitialize _ => pthread_mutex_init_step r p m
  | DestroyTest _ | DestroyDelete _ | DestroyFree _ | DestroyClear _ =>
      pthread_mutex_destroy_step p m
  | _ => lock_step t r p m
  end.
End statements.

(** ** Calls *)

Inductive call :=
  | Pthread_mutex_init (mutex : Z)
  | Pthread_mutex_lock (mutex : Z)
  | Pthread_mutex_unlock (mutex : Z)
  | Pthread_mutex_destroy (mutex : Z)
  | CRYPTO_lock (mode type : Z).

Section threads.
Context {CS : Type} `{!CriticalSection CS} (CRYPTO_NUM_LOCKS CRYPTO_LOCK : Z).

(** [CRYPTO_lock]: a type out of range returns; otherwise the statements are
    those of [lock_step] on [locks[type]], and the mode says which call is the
    last one. *)
Definition CRYPTO_lock_start (mode type : Z) : pc :=
  if ((type <? 0) || (CRYPTO_NUM_LOCKS <=? type))%Z then Idle
  else LockTest (Crypto type)
         (if (Z.land mode CRYPTO_LOCK =? 0)%Z then Leave else Enter).

(** The first statement of a call. *)
Definition start (c : call) : pc :=
  match c with
  | Pthread_mutex_init m => InitMalloc (Mutex m)
  | Pthread_mutex_lock m => LockTest (Mutex m) Enter
  | Pthread_mutex_unlock m => LockRead (Mutex m) Leave
  | Pthread_mutex_destroy m => DestroyTest (Mutex m)
  | CRYPTO_lock mode type => CRYPTO_lock_start mode type
  end.

Inductive process_status := Running | Exited (code : Z) | Faulted.

(** [held] is a history: how often a thread has entered the section of a slot
    and not left it. *)
Record process := Process {
  mem : memory CS;
  pcs : tid → pc;
  held : tid → key → nat;
  status : process_status
}.

Definition set_held (t : tid) (k : key) (n : nat) (h : tid → key → nat) : tid → key → nat :=
  <[t := <[k := n]> (h t)]> h.

(** The process after thread [t] ran a statement with this outcome. *)
Definition after_statement (t : tid) (o : outcome CS) (s : process) : process :=
  match o with
  | Next p m => Process m (<[t := p]> (pcs s)) (held s) (status s)
  | Moved Enter k m =>
      Process m (<[t := Idle]> (pcs s)) (set_held t k (S (held s t k)) (held s)) (status s)
  | Moved Leave k m =>
      Process m (<[t := Idle]> (pcs s)) (set_held t k (pred (held s t k)) (held s)) (status s)
  | Exit code => Process (mem s) (pcs s) (held s) (Exited code)
  | Waits => s
  | Fault => Process (mem s) (pcs s) (held s) Faulted
  end.

Definition initial : process :=
  Process (Memory ∅ ∅) (λ _, Idle) (λ _ _, 0) Running.

Definition key_of (p : pc) : option key :=
  match p with
  | Idle => None
  | LockTest k _ | LockMalloc k _ | LockInitialize k _ _ | LockExchange k _ _
  | LockDelete k _ _ | LockFree k _ _ | LockRead k _ | LockCall k _ _
  | InitMalloc k | InitInitialize k
  | DestroyTest k | DestroyDelete k | DestroyFree k | DestroyClear k => Some k
  end.

(** The slot a thread initializes or destroys. *)
Definition sole (p : pc) : option key :=
  match p with
  | InitMalloc k | InitInitialize k
  | DestroyTest k | DestroyDelete k | DestroyFree k | DestroyClear k => Some k
  | _ => None
  end.

Definition unused (s : process) (k : key) : Prop :=
  ∀ t, key_of (pcs s t) ≠ Some k ∧ held s t k = 0.

(** What POSIX asks of the caller: a mutex is unlocked by the thread that holds
    it, and is initialized and destroyed while no thread uses it. *)
Definition allowed (s : process) (t : tid) (c : call) : Prop :=
  match start c with
  | LockTest k Enter => ∀ t', sole (pcs s t') ≠ Some k
  | LockTest k Leave | LockRead k Leave => 0 < held s t k
  | InitMalloc k => unused s k ∧ slots (mem s) !! k = None
  | DestroyTest k => unused s k
  | _ => True
  end.

Definition begin_call (t : tid) (c : call) (s : process) : process :=
  Process (mem s) (<[t := start c]> (pcs s)) (held s) (status s).

Inductive step : process → process → Prop :=
  | step_call s t c :
      status s = Running → pcs s t = Idle → allowed s t c → step s (begin_call t c s)
  | step_run s t r :
      status s = Running → pcs s t ≠ Idle → malloc_gives r (mem s) →
      step s (after_statement t (pc_step t r (pcs s t) (mem s)) s).

(** Thread [t] runs a statement that does not wait. *)
Inductive run_by (t : tid) : process → process → Prop :=
  | run_by_intro s r :
      status s = Running → pcs s t ≠ Idle → malloc_gives r (mem s) →
      pc_step t r (pcs s t) (mem s) ≠ Waits →
      run_by t s (after_statement t (pc_step t r (pcs s t) (mem s)) s).

(** The statements a call has left. *)
Definition rank (p : pc) : nat :=
  match p with
  | Idle => 0
  | LockCall _ _ _ => 1 | LockRead _ _ => 2 | LockFree _ _ _ => 3 | LockDelete _ _ _ => 4
  | LockExchange _ _ _ => 5 | LockInitialize _ _ _ => 6 | LockMalloc _ _ => 7
  | LockTest _ _ => 8
  | InitInitialize _ => 1 | InitMalloc _ => 2
  | DestroyClear _ => 1 | DestroyFree _ => 2 | DestroyDelete _ => 3 | DestroyTest _ => 4
  end.
End threads.

(** ** Counters *)

(** [CRYPTO_add_lock]: one atomic [InterlockedExchangeAdd] of 32 bits, and the
    sum of its result and [amount], which no [int] overflow may reach.  The
    state is [*pointer]. *)
Definition InterlockedExchangeAdd (amount : Z) : ST Z Z := λ v, Some (v, s32 (v + amount)).

Definition CRYPTO_add_lock (amount : Z) : ST Z Z :=
  ret ← InterlockedExchangeAdd amount;
  if ((- 2 ^ 31 <=? ret + amount) && (ret + amount <? 2 ^ 31))%Z then mret (ret + amount)%Z
  else fail.

(** ** Once *)

Section once.
Context {W once : Type}.
(** [InitOnceExecuteOnce(once, callback)]: its BOOL. *)
Variable InitOnceExecuteOnce : once → ST W Z → ST W Z.

Definition _pthread_once_win32_cb (cb : ST W unit) : ST W Z := cb;; mret 1%Z.

Definition pthread_once (o : once) (cb : ST W unit) : ST W Z :=
  rc ← InitOnceExecuteOnce o (_pthread_once_win32_cb cb);
  mret (if (rc =? 0)%Z then 22%Z else 0%Z).
End once.
