(* ===== verification/LockProof.v ===== *)
(** The invariant of the lazily made mutexes of [Lock], kept by every statement
    of every thread. *)
From Stdlib Require Import ZArith Lia.
From stdpp Require Import prelude gmap functions fin_maps relations.
From S2P Require Import Prelude CInt Lock.

(** ** What a program counter says *)

(** The section only this thread has a pointer to, and whether it is initialized. *)
Definition private (p : pc) : option (addr * bool) :=
  match p with
  | LockInitialize _ _ l | LockFree _ _ l => Some (l, false)
  | LockExchange _ _ l | LockDelete _ _ l => Some (l, true)
  | _ => None
  end.

(** A slot whose section is not initialized, or freed. *)
Inductive stage := Raw | Gone.

Definition stage_of (p : pc) : option (key * stage) :=
  match p with
  | InitInitialize k | DestroyFree k => Some (k, Raw)
  | DestroyClear k => Some (k, Gone)
  | _ => None
  end.

(** The slot whose section the call leaves. *)
Definition leaving (p : pc) : option key :=
  match p with
  | LockTest k Leave | LockMalloc k Leave | LockInitialize k Leave _ | LockExchange k Leave _
  | LockDelete k Leave _ | LockFree k Leave _ | LockRead k Leave | LockCall k Leave _ => Some k
  | _ => None
  end.

(** What the program counter requires of a slot. *)
Definition slot_ok (p : pc) (lock : key → option addr) : Prop :=
  match p with
  | LockRead k _ | LockDelete k _ _ | LockFree k _ _
  | InitInitialize k | DestroyDelete k | DestroyFree k | DestroyClear k => is_Some (lock k)
  | LockCall k _ l => lock k = Some l
  | InitMalloc k => lock k = None
  | _ => True
  end.

Definition staged (f : tid → pc) (k : key) (g : stage) : Prop :=
  ∃ t, stage_of (f t) = Some (k, g).

Lemma stage_sole p k g : stage_of p = Some (k, g) → sole p = Some k.
Proof. destruct p; naive_solver. Qed.

Lemma sole_key p k : sole p = Some k → key_of p = Some k.
Proof. by destruct p. Qed.

Lemma leaving_key p k : leaving p = Some k → key_of p = Some k ∧ sole p = None.
Proof. destruct p as [|? []|? []|? []|? []|? []|? []|? []|? []| | | | | |]; naive_solver. Qed.

Lemma private_sole p x : private p = Some x → sole p = None.
Proof. by destruct p. Qed.

Lemma staged_same f t p k g :
  stage_of p = stage_of (f t) → staged (<[t := p]> f) k g ↔ staged f k g.
Proof.
  intros E. split; intros [t' H]; exists t'; destruct (decide (t' = t)) as [->|Ht].
  - by rewrite fn_lookup_insert, E in H.
  - by rewrite fn_lookup_insert_ne in H.
  - by rewrite fn_lookup_insert, E.
  - by rewrite fn_lookup_insert_ne.
Qed.

(** ** The invariant *)

Section invariant.
Context {CS : Type} `{!CriticalSection CS}.
Implicit Types (m : memory CS) (f : tid → pc) (h : tid → key → nat) (l : addr) (k : key).

(** Who has the pointer to an allocated section: a thread or a slot. *)
Definition Refers m f l (x : tid + key) : Prop :=
  match x with
  | inl t => ∃ b, private (f t) = Some (l, b)
  | inr k => slots m !! k = Some l ∧ ¬ staged f k Gone
  end.

(** How deep [t] is in a section. *)
Definition depth (c : CS) (t : tid) : nat :=
  match owner c with Some (t', n) => if decide (t' = t) then n else 0 | None => 0 end.

Definition Section_ok (c : CS) h k : Prop :=
  (∀ t, h t k = depth c t) ∧ ∀ t n, owner c = Some (t, n) → 0 < n.

(** The cells, and what refers to them. *)
Record Cells m f h : Prop := {
  inv_heap l : is_Some (heap m !! l) ↔ ∃ x, Refers m f l x;
  inv_unique l x y : Refers m f l x → Refers m f l y → x = y;
  inv_private t l b : private (f t) = Some (l, b) →
    heap m !! l = Some (if b then Some InitializeCriticalSection else None);
  inv_slot k l : slots m !! k = Some l → ¬ staged f k Gone →
    (staged f k Raw ∧ heap m !! l = Some None) ∨
    (¬ staged f k Raw ∧ ∃ c, heap m !! l = Some (Some c) ∧ Section_ok c h k)
}.

(** The threads. *)
Record Threads m f h : Prop := {
  inv_null k t : slots m !! k = None → h t k = 0;
  inv_sole t k : sole (f t) = Some k →
    (∀ t', h t' k = 0) ∧ ∀ t', key_of (f t') = Some k → t' = t;
  inv_leaving t k : leaving (f t) = Some k → 0 < h t k;
  inv_pc t : slot_ok (f t) (λ k, slots m !! k)
}.

Definition MutexInv m f h : Prop := Cells m f h ∧ Threads m f h.

Lemma initial_inv : MutexInv (Memory ∅ ∅) (λ _, Idle) (λ _ _, 0).
Proof.
  split; split; cbn; try done.
  - intros l. split; [intros [? H]; done|]. by intros [[t|k] [? ?]].
  - intros l [t|k] y [? ?]; done.
Qed.

Section facts.
Context m f h (C : Cells m f h) (T : Threads m f h).

(** A thread that locks keeps every other thread from the slot's stages. *)
Lemma not_staged t k g : key_of (f t) = Some k → sole (f t) = None → ¬ staged f k g.
Proof.
  intros Hk Hs [t' Hg]. apply stage_sole in Hg.
  destruct (inv_sole _ _ _ T t' k Hg) as [_ H]. specialize (H t Hk). congruence.
Qed.

Lemma staged_here t k g g' : stage_of (f t) = Some (k, g) → staged f k g' → g' = g.
Proof.
  intros Hg [t' Hg']. pose proof (sole_key _ _ (stage_sole _ _ _ Hg')).
  destruct (inv_sole _ _ _ T t k (stage_sole _ _ _ Hg)) as [_ H0].
  rewrite (H0 t') in Hg' by done. congruence.
Qed.

Lemma not_staged_sole t k g : sole (f t) = Some k → stage_of (f t) = None → ¬ staged f k g.
Proof.
  intros Hs Hn [t' Hg]. pose proof (sole_key _ _ (stage_sole _ _ _ Hg)).
  destruct (inv_sole _ _ _ T t k Hs) as [_ H0]. rewrite (H0 t') in Hg by done. congruence.
Qed.

(** The section of a slot no thread initializes or destroys. *)
Lemma slot_section k l :
  slots m !! k = Some l → (∀ g, ¬ staged f k g) →
  ∃ c, heap m !! l = Some (Some c) ∧ Section_ok c h k.
Proof. intros Hk Hg. destruct (inv_slot _ _ _ C k l Hk (Hg Gone)) as [[? _]|[_ ?]]; naive_solver. Qed.

(** A freshly allocated address is nobody's. *)
Lemma fresh_refers l x : heap m !! l = None → ¬ Refers m f l x.
Proof.
  intros Hl Hx. assert (is_Some (heap m !! l)) as [? ?] by (apply (inv_heap _ _ _ C); eauto).
  congruence.
Qed.

(** A section that is private is in no slot, and no other thread's. *)
Lemma private_refers t l b x : private (f t) = Some (l, b) → Refers m f l x → x = inl t.
Proof. intros Hp Hx. apply (inv_unique _ _ _ C l); [done|by exists b]. Qed.
End facts.

(** ** Updates *)

Section updates.
Context m f h (C : Cells m f h) (T : Threads m f h).
Context (t : tid) (p : pc).

(** Thread [t] moves to [p]: what has to be known of [p], and of the others. *)
Lemma threads_step m' h' :
  (∀ t' k, t' ≠ t → h' t' k = h t' k) →
  (∀ t' k, slots m' !! k = None → h' t' k = 0) →
  (∀ k, sole p = Some k → (∀ t', h' t' k = 0) ∧ ∀ t', t' ≠ t → key_of (f t') ≠ Some k) →
  (∀ k, leaving p = Some k → 0 < h' t k) →
  slot_ok p (λ k, slots m' !! k) →
  (∀ t' k, t' ≠ t → sole (f t') = Some k → key_of p ≠ Some k ∧ h' t k = 0) →
  (∀ t', t' ≠ t → slot_ok (f t') (λ k, slots m !! k) → slot_ok (f t') (λ k, slots m' !! k)) →
  Threads m' (<[t := p]> f) h'.
Proof using T.
  intros Hh Hnull Hsole Hleave Hok Hothers Hslots. split.
  - auto.
  - intros t' k Hs. destruct (decide (t' = t)) as [->|Ht].
    + rewrite fn_lookup_insert in Hs. destruct (Hsole k Hs) as [H0 Hk]. split; [done|].
      intros t''. destruct (decide (t'' = t)) as [->|]; [done|].
      rewrite fn_lookup_insert_ne by done. intros ?. by destruct (Hk t'').
    + rewrite fn_lookup_insert_ne in Hs by done.
      destruct (Hothers t' k Ht Hs) as [Hp Ht0], (inv_sole _ _ _ T t' k Hs) as [H0 Hk]. split.
      * intros t''. destruct (decide (t'' = t)) as [->|]; [done|]. by rewrite Hh.
      * intros t''. destruct (decide (t'' = t)) as [->|].
        -- by rewrite fn_lookup_insert.
        -- rewrite fn_lookup_insert_ne by done. apply Hk.
  - intros t' k. destruct (decide (t' = t)) as [->|Ht].
    + rewrite fn_lookup_insert. auto.
    + rewrite fn_lookup_insert_ne, Hh by done. apply (inv_leaving _ _ _ T).
  - intros t'. destruct (decide (t' = t)) as [->|Ht].
    + by rewrite fn_lookup_insert.
    + rewrite fn_lookup_insert_ne by done. apply Hslots, (inv_pc _ _ _ T); done.
Qed.

(** The common case: a lock operation goes on, and no slot or history changes. *)
Lemma threads_lock m' :
  slots m' = slots m → sole (f t) = None → key_of p = key_of (f t) → leaving p = leaving (f t) →
  sole p = None → slot_ok p (λ k, slots m !! k) → Threads m' (<[t := p]> f) h.
Proof using T.
  intros Hm Hs Hk Hl Hp Hok. apply threads_step; rewrite ?Hm; try done.
  - intros t' k. apply (inv_null _ _ _ T).
  - intros k H. congruence.
  - intros k. rewrite Hl. apply (inv_leaving _ _ _ T).
  - intros t' k Ht Hs'. destruct (inv_sole _ _ _ T t' k Hs') as [H0 H1]. split; [|apply H0].
    rewrite Hk. intros H. specialize (H1 t H). congruence.
Qed.

(** Its slot is not being initialized or destroyed. *)
Lemma refers_step m' l x :
  slots m' = slots m → stage_of p = stage_of (f t) →
  Refers m' (<[t := p]> f) l x ↔
  match x with
  | inl t' => if decide (t' = t) then ∃ b, private p = Some (l, b) else Refers m f l x
  | inr _ => Refers m f l x
  end.
Proof using.
  intros Hm Hs. destruct x as [t'|k]; cbn.
  - destruct (decide (t' = t)) as [->|Ht].
    + by rewrite fn_lookup_insert.
    + by rewrite fn_lookup_insert_ne.
  - by rewrite Hm, (staged_same _ _ _ _ _ Hs).
Qed.

Lemma slot_step k l :
  stage_of p = stage_of (f t) → slots m !! k = Some l → ¬ staged (<[t := p]> f) k Gone →
  (staged (<[t := p]> f) k Raw ∧ heap m !! l = Some None) ∨
  (¬ staged (<[t := p]> f) k Raw ∧ ∃ c, heap m !! l = Some (Some c) ∧ Section_ok c h k).
Proof using C. intros Hs. rewrite !(staged_same _ _ _ _ _ Hs). apply (inv_slot _ _ _ C). Qed.

(** The same cells: nothing private is gained or lost. *)
Lemma cells_same :
  private p = private (f t) → stage_of p = stage_of (f t) → Cells m (<[t := p]> f) h.
Proof using C.
  intros Hp Hs.
  assert (HR : ∀ l x, Refers m (<[t := p]> f) l x ↔ Refers m f l x).
  { intros l x. rewrite refers_step by done. destruct x as [t'|k]; [|done].
    destruct (decide (t' = t)) as [->|]; [by rewrite Hp|done]. }
  split.
  - intros l. rewrite (inv_heap _ _ _ C l). by setoid_rewrite HR.
  - intros l x y. rewrite !HR. apply (inv_unique _ _ _ C).
  - intros t' l b. destruct (decide (t' = t)) as [->|].
    + rewrite fn_lookup_insert, Hp. apply (inv_private _ _ _ C).
    + rewrite fn_lookup_insert_ne by done. apply (inv_private _ _ _ C).
  - intros k l Hk. by apply slot_step.
Qed.

(** A private section is allocated, initialized, deleted or freed: no one else
    refers to its cell. *)
Lemma cells_private m' l :
  slots m' = slots m → stage_of p = stage_of (f t) →
  (∀ l', l' ≠ l → heap m' !! l' = heap m !! l') →
  (∀ l' b, private (f t) = Some (l', b) → l' = l) →
  (∀ l' b, private p = Some (l', b) →
    l' = l ∧ heap m' !! l = Some (if b then Some InitializeCriticalSection else None)) →
  (is_Some (heap m' !! l) → ∃ b, private p = Some (l, b)) →
  (∀ x, Refers m f l x → x = inl t) →
  Cells m' (<[t := p]> f) h.
Proof using C.
  intros Hm Hs Hne Hold Hnew Hback Hl.
  assert (HR : ∀ l' x, l' ≠ l → Refers m' (<[t := p]> f) l' x ↔ Refers m f l' x).
  { intros l' x Hl'. rewrite refers_step by done. destruct x as [t'|k]; [|done].
    destruct (decide (t' = t)) as [->|]; [|done]. split; intros [b Hb].
    - by destruct (Hnew _ _ Hb).
    - by destruct (Hold _ _ Hb). }
  assert (HR' : ∀ x, Refers m' (<[t := p]> f) l x → x = inl t ∧ ∃ b, private p = Some (l, b)).
  { intros x. rewrite refers_step by done. destruct x as [t'|k].
    - destruct (decide (t' = t)) as [->|Ht]; [done|]. intros H. apply Hl in H. congruence.
    - intros H. by apply Hl in H. }
  split.
  - intros l'. destruct (decide (l' = l)) as [->|Hl'].
    + split.
      * intros H. exists (inl t). apply refers_step; [done|done|]. rewrite decide_True by done. auto.
      * intros [x Hx]. destruct (HR' x Hx) as [_ [b Hb]]. destruct (Hnew _ _ Hb). eauto.
    + rewrite Hne by done. rewrite (inv_heap _ _ _ C l'). by setoid_rewrite (λ x, HR l' x Hl').
  - intros l' x y. destruct (decide (l' = l)) as [->|Hl'].
    + intros Hx Hy. destruct (HR' x Hx), (HR' y Hy). congruence.
    + rewrite !HR by done. apply (inv_unique _ _ _ C).
  - intros t' l' b. destruct (decide (t' = t)) as [->|Ht].
    + rewrite fn_lookup_insert. intros Hb. by destruct (Hnew _ _ Hb) as [-> ?].
    + rewrite fn_lookup_insert_ne by done. intros Hb. rewrite Hne.
      * by apply (inv_private _ _ _ C t').
      * intros ->. assert (Hx : Refers m f l (inl t')) by (by exists b). apply Hl in Hx. congruence.
  - intros k l'. rewrite Hm. intros Hk Hg. rewrite Hne; [by apply slot_step|].
    intros ->. rewrite (staged_same _ _ _ _ _ Hs) in Hg.
    assert (Hx : Refers m f l (inr k)) by done. by apply Hl in Hx.
Qed.

(** The compare-and-exchange succeeds: a private section is put into a slot. *)
Lemma cells_install k l :
  private (f t) = Some (l, true) → private p = None → stage_of p = stage_of (f t) →
  slots m !! k = None → (∀ g, ¬ staged f k g) → (∀ t', h t' k = 0) →
  owner (InitializeCriticalSection (CS := CS)) = None →
  Cells (set_slot k l m) (<[t := p]> f) h.
Proof using C.
  intros Hold Hnew Hs Hk Hst Hh Hfree.
  assert (HR : ∀ l' x, Refers (set_slot k l m) (<[t := p]> f) l' x ↔
    if decide (x = inr k) then l' = l else if decide (x = inl t) then False else Refers m f l' x).
  { intros l' [t'|k']; cbn.
    - rewrite decide_False by done. destruct (decide (t' = t)) as [->|Ht].
      + rewrite decide_True, fn_lookup_insert, Hnew by done. split; [by intros [? ?]|done].
      + rewrite decide_False, fn_lookup_insert_ne by congruence. done.
    - rewrite (staged_same _ _ _ _ _ Hs). destruct (decide (k' = k)) as [->|Hk'].
      + rewrite decide_True, lookup_insert_eq by done. naive_solver.
      + rewrite !decide_False, lookup_insert_ne by congruence. done. }
  assert (Hl : ∀ x, Refers m f l x → x = inl t) by (intros x; by eapply private_refers).
  split.
  - intros l'. cbn. rewrite (inv_heap _ _ _ C l'). setoid_rewrite HR. split; intros [x Hx].
    + destruct (decide (l' = l)) as [->|Hl'].
      * exists (inr k). by rewrite decide_True.
      * exists x. rewrite !decide_False; [done| |].
        -- intros ->. destruct Hx as [b Hb]. congruence.
        -- intros ->. destruct Hx. congruence.
    + repeat case_decide; [|done|by eauto]. subst. exists (inl t). by exists true.
  - intros l' x y. rewrite !HR. repeat case_decide; try done; subst.
    + congruence.
    + intros -> Hy. apply Hl in Hy. congruence.
    + intros Hx ->. apply Hl in Hx. congruence.
    + apply (inv_unique _ _ _ C).
  - intros t' l' b. cbn. destruct (decide (t' = t)) as [->|Ht].
    + rewrite fn_lookup_insert. congruence.
    + rewrite fn_lookup_insert_ne by done. apply (inv_private _ _ _ C).
  - intros k' l'. rewrite !(staged_same _ _ _ _ _ Hs). cbn.
    destruct (decide (k' = k)) as [->|Hk'].
    + rewrite lookup_insert_eq. intros [= <-] _. right. split; [done|].
      eexists. split; [by apply (inv_private _ _ _ C) in Hold|].
      split; unfold depth; rewrite Hfree; [done|congruence].
    + rewrite lookup_insert_ne by done. apply (inv_slot _ _ _ C).
Qed.

(** The section of a slot changes, and how deep [t] is in it. *)
Lemma cells_call k l c c' h' :
  private p = private (f t) → stage_of p = stage_of (f t) →
  slots m !! k = Some l → heap m !! l = Some (Some c) → (∀ g, ¬ staged f k g) →
  Section_ok c' h' k → (∀ t' k', k' ≠ k → h' t' k' = h t' k') →
  Cells (set_heap l (Some c') m) (<[t := p]> f) h'.
Proof using C.
  intros Hp Hs Hk Hl Hst Hc Hh.
  assert (HR : ∀ l' x, Refers (set_heap l (Some c') m) (<[t := p]> f) l' x ↔ Refers m f l' x).
  { intros l' x. rewrite refers_step by done. destruct x as [t'|k']; [|done].
    destruct (decide (t' = t)) as [->|]; [by rewrite Hp|done]. }
  assert (HRk : ∀ x, Refers m f l x → x = inr k).
  { intros x Hx. apply (inv_unique _ _ _ C l); [done|]. by split. }
  split.
  - intros l'. setoid_rewrite HR. cbn [heap set_heap]. rewrite <-(inv_heap _ _ _ C l').
    destruct (decide (l' = l)) as [->|]; [|by rewrite lookup_insert_ne].
    rewrite lookup_insert_eq, Hl. by split; eexists.
  - intros l' x y. rewrite !HR. apply (inv_unique _ _ _ C).
  - intros t' l' b Hb. cbn.
    assert (Hx : Refers m f l' (inl t')).
    { exists b. revert Hb. destruct (decide (t' = t)) as [->|].
      - by rewrite fn_lookup_insert, Hp.
      - by rewrite fn_lookup_insert_ne. }
    rewrite lookup_insert_ne; [|intros <-; by apply HRk in Hx].
    apply (inv_private _ _ _ C t'). destruct Hx as [b' Hb'].
    revert Hb. destruct (decide (t' = t)) as [->|].
    + by rewrite fn_lookup_insert, Hp.
    + by rewrite fn_lookup_insert_ne.
  - intros k' l'. rewrite !(staged_same _ _ _ _ _ Hs). cbn. intros Hk' Hg.
    destruct (decide (k' = k)) as [->|Hne].
    + assert (l' = l) as -> by congruence. right. split; [done|].
      rewrite lookup_insert_eq. eauto.
    + rewrite lookup_insert_ne.
      * destruct (inv_slot _ _ _ C k' l' Hk' Hg) as [?|[? (c0 & ? & [H1 H2])]]; [by left|right].
        split; [done|]. exists c0. split; [done|]. split; [|done]. intros t'. by rewrite Hh.
      * intros <-. assert (Hx : Refers m f l (inr k')) by done. apply HRk in Hx. congruence.
Qed.

(** Thread [t] initializes or destroys [k]: only it sees the stages of [k]. *)
Lemma staged_sole k k' g :
  sole (f t) = Some k → (∀ k' g, stage_of p = Some (k', g) → k' = k) →
  staged (<[t := p]> f) k' g ↔
  if decide (k' = k) then stage_of p = Some (k, g) else staged f k' g.
Proof using T.
  intros Hs Hp. destruct (decide (k' = k)) as [->|Hk]; split.
  - intros [t' Ht]. destruct (decide (t' = t)) as [->|Hne]; [by rewrite fn_lookup_insert in Ht|].
    rewrite fn_lookup_insert_ne in Ht by done.
    destruct (inv_sole _ _ _ T t k Hs) as [_ H]. destruct Hne. apply H, sole_key.
    by eapply stage_sole.
  - intros H. exists t. by rewrite fn_lookup_insert.
  - intros [t' Ht]. exists t'. destruct (decide (t' = t)) as [->|Hne].
    + rewrite fn_lookup_insert in Ht. by apply Hp in Ht.
    + by rewrite fn_lookup_insert_ne in Ht.
  - intros [t' Ht]. exists t'. destruct (decide (t' = t)) as [->|Hne].
    + apply stage_sole in Ht. congruence.
    + by rewrite fn_lookup_insert_ne.
Qed.

(** It may change that slot and its cell, as the stage it goes to says. *)
Lemma cells_sole k l m' :
  sole (f t) = Some k → private p = None → (∀ k' g, stage_of p = Some (k', g) → k' = k) →
  (∀ k', k' ≠ k → slots m' !! k' = slots m !! k') →
  (∀ l', l' ≠ l → heap m' !! l' = heap m !! l') →
  (∀ x, Refers m f l x → x = inr k) →
  (∀ l', Refers m f l' (inr k) → l' = l) →
  (∀ l', slots m' !! k = Some l' → stage_of p ≠ Some (k, Gone) →
    l' = l ∧ (stage_of p = Some (k, Raw) ∧ heap m' !! l = Some None ∨
              stage_of p = None ∧ heap m' !! l = Some (Some InitializeCriticalSection))) →
  (is_Some (heap m' !! l) → slots m' !! k = Some l ∧ stage_of p ≠ Some (k, Gone)) →
  owner (InitializeCriticalSection (CS := CS)) = None →
  Cells m' (<[t := p]> f) h.
Proof using C T.
  intros Hs Hp Hg Hm Hh Hl Hk Hcell Hheap Hfree.
  pose proof (λ k' g, staged_sole k k' g Hs Hg) as Hst.
  assert (Hpriv : ∀ t' l b, private ((<[t := p]> f) t') = Some (l, b) ↔ private (f t') = Some (l, b)).
  { intros t' l' b. destruct (decide (t' = t)) as [->|].
    - rewrite fn_lookup_insert, Hp. split; [done|]. intros H. apply private_sole in H. congruence.
    - by rewrite fn_lookup_insert_ne. }
  assert (HR : ∀ l' x, Refers m' (<[t := p]> f) l' x ↔
    if decide (x = inr k) then slots m' !! k = Some l' ∧ stage_of p ≠ Some (k, Gone)
    else Refers m f l' x).
  { intros l' [t'|k']; cbn.
    - rewrite decide_False by done. by setoid_rewrite Hpriv.
    - rewrite Hst. destruct (decide (k' = k)) as [->|]; [by rewrite decide_True|].
      by rewrite decide_False, Hm by congruence. }
  split.
  - intros l'. destruct (decide (l' = l)) as [->|Hl'].
    + split.
      * intros H%Hheap. exists (inr k). rewrite HR. by rewrite decide_True.
      * intros [x Hx]. rewrite HR in Hx. case_decide.
        -- destruct Hx as [Hx Hx']. destruct (Hcell _ Hx Hx') as [_ [[_ ->]|[_ ->]]]; eauto.
        -- by apply Hl in Hx.
    + rewrite Hh by done. rewrite (inv_heap _ _ _ C l'). split; intros [x Hx]; exists x.
      * rewrite HR. rewrite decide_False; [done|]. intros ->. by apply Hk in Hx.
      * rewrite HR in Hx. case_decide; [|done]. destruct Hx as [Hx Hx'].
        by destruct (Hcell _ Hx Hx').
  - intros l' x y. rewrite !HR. repeat case_decide; try congruence.
    + intros [Hx Hx'] Hy. destruct (Hcell _ Hx Hx') as [-> _]. by apply Hl in Hy.
    + intros Hy [Hx Hx']. destruct (Hcell _ Hx Hx') as [-> _]. by apply Hl in Hy.
    + apply (inv_unique _ _ _ C).
  - intros t' l' b. rewrite Hpriv. intros Hb. rewrite Hh; [by apply (inv_private _ _ _ C t')|].
    intros ->. assert (Hx : Refers m f l (inl t')) by (by exists b). by apply Hl in Hx.
  - intros k' l'. rewrite !Hst. destruct (decide (k' = k)) as [->|Hk'].
    + intros Hx Hx'. destruct (Hcell _ Hx Hx') as [-> [[H1 H2]|[H1 H2]]]; [by left|right].
      split; [by rewrite H1|]. eexists. split; [done|].
      destruct (inv_sole _ _ _ T t k Hs) as [H0 _].
      split; unfold depth; rewrite Hfree; [done|congruence].
    + rewrite Hm by done. intros Hx Hx'. rewrite Hh; [by apply (inv_slot _ _ _ C)|].
      intros ->. assert (Hy : Refers m f l (inr k')) by done. apply Hl in Hy. congruence.
Qed.
End updates.

(** A thread that initializes or destroys [k] goes on with that, or is done. *)
Lemma threads_sole m f h t p k m' :
  Threads m f h → sole (f t) = Some k → (sole p = Some k ∨ p = Idle) →
  (∀ k', k' ≠ k → slots m' !! k' = slots m !! k') → slot_ok p (λ k, slots m' !! k) →
  Threads m' (<[t := p]> f) h.
Proof.
  intros T Hs Hp Hm Hok. destruct (inv_sole _ _ _ T t k Hs) as [H0 Hk].
  assert (Hpk : ∀ k', key_of p = Some k' → k' = k).
  { intros k' H. destruct Hp as [Hp| ->]; [|done]. apply sole_key in Hp. congruence. }
  eapply threads_step; [done|done|..].
  - intros t' k' Hk'. destruct (decide (k' = k)) as [->|]; [done|].
    rewrite Hm in Hk' by done. by apply (inv_null _ _ _ T).
  - intros k' Hs'. assert (k' = k) as -> by (by apply Hpk, sole_key).
    split; [done|]. intros t' Ht Hk'. by destruct Ht; apply Hk.
  - intros k' Hl. destruct Hp as [Hp| ->]; [|done]. apply leaving_key in Hl as [_ Hl]. congruence.
  - done.
  - intros t' k' Ht Hs'. split.
    + intros H. apply Hpk in H as ->. destruct Ht. by apply Hk, sole_key.
    + destruct (inv_sole _ _ _ T t' k' Hs') as [H _]. apply H.
  - intros t' Ht. assert (Hne : key_of (f t') ≠ Some k) by (intros H; by apply Ht, Hk).
    destruct (f t'); cbn in *; try done; rewrite Hm by congruence; done.
Qed.

(** ** Steps *)

Section steps.
Context `{!CriticalSectionLaws CS}.

(** What the invariant says after an outcome. *)
Definition MutexKeeps (t : tid) f h (o : outcome CS) : Prop :=
  match o with
  | Next p m => MutexInv m (<[t := p]> f) h
  | Moved a k m =>
      MutexInv m (<[t := Idle]> f)
        (set_held t k (match a with Enter => S (h t k) | Leave => pred (h t k) end) h)
  | Exit _ | Waits => True
  | Fault => False
  end.

Lemma set_held_same t k n h : set_held t k n h t k = n.
Proof. unfold set_held. by rewrite !fn_lookup_insert. Qed.

Lemma set_held_ne t k n h t' k' : t' ≠ t ∨ k' ≠ k → set_held t k n h t' k' = h t' k'.
Proof.
  unfold set_held. intros H. destruct (decide (t' = t)) as [->|Ht].
  - rewrite fn_lookup_insert, fn_lookup_insert_ne; [done|]. by destruct H.
  - by rewrite fn_lookup_insert_ne.
Qed.

(** A thread that enters or leaves the section [c] of a slot. *)
Lemma moved_inv m f h t k l c c' n :
  MutexInv m f h → (∃ a, f t = LockCall k a l) → slots m !! k = Some l → heap m !! l = Some (Some c) →
  (∀ t', t' ≠ t → h t' k = depth c' t') → depth c' t = n →
  (∀ t' i, owner c' = Some (t', i) → 0 < i) →
  MutexInv (set_heap l (Some c') m) (<[t := Idle]> f) (set_held t k n h).
Proof.
  intros [C T] [a Hpc] Hk Hl Hothers Hn Hpos.
  assert (Hst : ∀ g, ¬ staged f k g) by (intros g; eapply not_staged; eauto; by rewrite Hpc).
  split.
  - eapply cells_call; eauto; try (by rewrite Hpc).
    + split; [|done]. intros t'. destruct (decide (t' = t)) as [->|Ht].
      * by rewrite set_held_same.
      * rewrite set_held_ne by auto. auto.
    + intros t' k' Hk'. rewrite set_held_ne by auto. done.
  - eapply threads_step; eauto; cbn.
    + intros t' k' Ht. by rewrite set_held_ne by auto.
    + intros t' k' Hk'. rewrite set_held_ne; [by apply (inv_null _ _ _ T)|]. right. congruence.
    + done.
    + done.
    + done.
    + intros t' k' Ht Hs. split; [done|]. rewrite set_held_ne.
      * by apply (inv_sole _ _ _ T t' k' Hs).
      * right. intros ->. destruct (inv_sole _ _ _ T t' k Hs) as [_ H].
        specialize (H t). rewrite Hpc in H. naive_solver.
Qed.

Lemma call_inv m f h t k a l :
  MutexInv m f h → f t = LockCall k a l → MutexKeeps t f h (call_section t k a l m).
Proof.
  intros I Hpc. pose proof I as [C T].
  assert (Hst : ∀ g, ¬ staged f k g) by (intros g; eapply not_staged; eauto; by rewrite Hpc).
  pose proof (inv_pc _ _ _ T t) as Hk. rewrite Hpc in Hk. cbn in Hk.
  destruct (slot_section _ _ _ C k l Hk Hst) as (c & Hl & Hd & Hpos).
  unfold call_section. rewrite Hl. destruct a.
  - destruct (owner c) as [[t' n]|] eqn:Ho.
    + destruct (decide (t' = t)) as [->|Ht].
      * destruct (enter_again t c n Ho) as (c' & -> & Ho'). cbn.
        eapply moved_inv; eauto.
        -- intros t' Ht. rewrite Hd. unfold depth. rewrite Ho, Ho'. by rewrite !decide_False.
        -- rewrite Hd. unfold depth. rewrite Ho, Ho'. by rewrite !decide_True.
        -- intros ? ? [= <- <-]%(eq_trans (eq_sym Ho')). lia.
      * rewrite (enter_waits t t' c n Ho) by done. done.
    + destruct (enter_free t c Ho) as (c' & -> & Ho'). cbn.
      eapply moved_inv; eauto.
      * intros t' Ht. rewrite Hd. unfold depth. rewrite Ho, Ho'. by rewrite decide_False.
      * rewrite Hd. unfold depth. rewrite Ho, Ho'. by rewrite decide_True.
      * intros ? ? [= <- <-]%(eq_trans (eq_sym Ho')). lia.
  - cbn. assert (Hh : 0 < h t k) by (apply (inv_leaving _ _ _ T); by rewrite Hpc).
    rewrite Hd in Hh |- *. unfold depth in Hh.
    destruct (owner c) as [[t' n]|] eqn:Ho; [|lia].
    case_decide; [subst t'|lia]. destruct n as [|[|n]]; [lia|..].
    + pose proof (leave_outer t c Ho) as Ho'. eapply moved_inv; eauto.
      * intros t' Ht. rewrite Hd. unfold depth. rewrite Ho, Ho'. by rewrite decide_False.
      * unfold depth. rewrite Ho, Ho'. by rewrite decide_True.
      * intros ? ?. by rewrite Ho'.
    + pose proof (leave_inner t c n Ho) as Ho'. eapply moved_inv; eauto.
      * intros t' Ht. rewrite Hd. unfold depth. rewrite Ho, Ho'. by rewrite !decide_False.
      * unfold depth. rewrite Ho, Ho'. by rewrite !decide_True.
      * intros ? ? [= <- <-]%(eq_trans (eq_sym Ho')). lia.
Qed.

(** The statements before the last one of a lock operation. *)
Lemma lock_continues m m' f h t p :
  MutexInv m f h → slots m' = slots m → sole (f t) = None → key_of p = key_of (f t) →
  leaving p = leaving (f t) → sole p = None → slot_ok p (λ k, slots m !! k) →
  Cells m' (<[t := p]> f) h → MutexInv m' (<[t := p]> f) h.
Proof. intros [C T] **. split; [done|]. by eapply threads_lock. Qed.

(** The thread's own section is initialized, deleted or freed. *)
Lemma private_continues m m' f h t p l b :
  MutexInv m f h → private (f t) = Some (l, b) → slots m' = slots m → key_of p = key_of (f t) →
  leaving p = leaving (f t) → sole p = None → stage_of (f t) = None → stage_of p = None →
  slot_ok p (λ k, slots m !! k) →
  (∀ l', l' ≠ l → heap m' !! l' = heap m !! l') →
  (∀ l' b', private p = Some (l', b') →
    l' = l ∧ heap m' !! l = Some (if b' then Some InitializeCriticalSection else None)) →
  (is_Some (heap m' !! l) → ∃ b', private p = Some (l, b')) →
  MutexInv m' (<[t := p]> f) h.
Proof.
  intros I Hb Hm Hk Hlv Hs Hg Hg' Hok Hne Hnew Hback.
  eapply lock_continues; eauto; [by eapply private_sole|].
  destruct I as [C T]. eapply cells_private; eauto.
  - by rewrite Hg, Hg'.
  - intros l' b' H. congruence.
  - intros x. by eapply private_refers.
Qed.

(** The compare-and-exchange that finds NULL. *)
Lemma install_inv m f h t k a l :
  MutexInv m f h → f t = LockExchange k a l → slots m !! k = None →
  MutexInv (set_slot k l m) (<[t := LockRead k a]> f) h.
Proof.
  intros [C T] Hpc Hk.
  assert (Hst : ∀ g, ¬ staged f k g) by (intros g; eapply not_staged; eauto; by rewrite Hpc).
  pose proof (λ t', inv_null _ _ _ T k t' Hk) as Hh.
  assert (Hmine : ∀ t' k', sole (f t') = Some k' → k' ≠ k).
  { intros t' k' Hs ->. destruct (inv_sole _ _ _ T t' k Hs) as [_ H].
    assert (t = t') as <- by (apply H; by rewrite Hpc). by rewrite Hpc in Hs. }
  split.
  - apply cells_install; try done; try (by rewrite Hpc). apply initialize_free.
  - eapply threads_step; eauto; cbn.
    + intros t' k' Hk'. destruct (decide (k' = k)) as [->|]; [done|].
      rewrite lookup_insert_ne in Hk' by done. by apply (inv_null _ _ _ T).
    + done.
    + intros k' Hl. apply (inv_leaving _ _ _ T). by rewrite Hpc.
    + by rewrite lookup_insert_eq.
    + intros t' k' Ht Hs. pose proof (Hmine t' k' Hs). split; [congruence|].
      by apply (inv_sole _ _ _ T t' k' Hs).
    + intros t' Ht. specialize (Hmine t').
      destruct (f t') as [|k' ?|k' ?|k' ? ?|k' ? ?|k' ? ?|k' ? ?|k' ?|k' ? ?|k'|k'|k'|k'|k'|k'];
        cbn in *; try done; destruct (decide (k' = k)) as [->|];
        rewrite ?lookup_insert_eq, ?lookup_insert_ne by done; try done; try congruence.
      by destruct (Hmine k).
Qed.

Lemma lock_step_inv m f h t r :
  MutexInv m f h → f t ≠ Idle → sole (f t) = None → malloc_gives r m →
  MutexKeeps t f h (lock_step t r (f t) m).
Proof.
  intros I Hidle Hsole Hr. pose proof I as [C T]. pose proof (inv_pc _ _ _ T t) as Hok.
  pose proof (inv_private _ _ _ C t) as Hpr.
  destruct (f t) as [|k a|k a|k a l|k a l|k a l|k a l|k a|k a l|k|k|k|k|k|k] eqn:Hpc;
    cbn in *; try done.
  - destruct (slots m !! k) eqn:Hk; cbn; (eapply lock_continues; eauto; cbn; rewrite ?Hpc, ?Hk; try done;
      apply cells_same; eauto; by rewrite Hpc).
  - destruct r as [l|]; [|done]. cbn. eapply lock_continues; eauto; rewrite ?Hpc; try done.
    eapply (cells_private _ _ _ C _ _ _ l); rewrite ?Hpc; cbn; try done.
    + intros l' Hl'. by rewrite lookup_insert_ne.
    + intros l' b [= <- <-]. by rewrite lookup_insert_eq.
    + intros _. by exists false.
    + intros x Hx. by apply (fresh_refers _ _ _ C l x Hr) in Hx.
  - unfold initialize_section. rewrite (Hpr l false eq_refl). cbn.
    eapply (private_continues _ _ _ _ _ _ l); eauto; rewrite ?Hpc; cbn; try done.
    + intros l' Hl'. by rewrite lookup_insert_ne.
    + intros l' b [= <- <-]. by rewrite lookup_insert_eq.
  - destruct (slots m !! k) eqn:Hk; cbn.
    + eapply lock_continues; eauto; cbn; rewrite ?Hpc, ?Hk; try done.
      apply cells_same; eauto; by rewrite Hpc.
    + by apply install_inv.
  - unfold delete_section. rewrite (Hpr l true eq_refl). cbn.
    eapply (private_continues _ _ _ _ _ _ l); eauto; rewrite ?Hpc; cbn; try done.
    + intros l' Hl'. by rewrite lookup_insert_ne.
    + intros l' b [= <- <-]. by rewrite lookup_insert_eq.
  - unfold free_section. rewrite (Hpr l false eq_refl). cbn.
    eapply (private_continues _ _ _ _ _ _ l); eauto; rewrite ?Hpc; cbn; try done.
    + intros l' Hl'. by rewrite lookup_delete_ne.
    + rewrite lookup_delete_eq. by intros [? ?].
  - destruct Hok as [l Hk]. unfold with_slot. rewrite Hk. cbn.
    eapply lock_continues; eauto; rewrite ?Hpc; try done. apply cells_same; eauto; by rewrite Hpc.
  - by apply call_inv.
Qed.

(** The statements of the two that need the slot for themselves. *)
Lemma sole_continues m m' f h t p k l :
  MutexInv m f h → sole (f t) = Some k → (sole p = Some k ∨ p = Idle) →
  slot_ok p (λ k, slots m' !! k) → private p = None →
  (∀ k', k' ≠ k → slots m' !! k' = slots m !! k') →
  (∀ l', l' ≠ l → heap m' !! l' = heap m !! l') →
  (∀ x, Refers m f l x → x = inr k) →
  (∀ l', Refers m f l' (inr k) → l' = l) →
  (∀ l', slots m' !! k = Some l' → stage_of p ≠ Some (k, Gone) →
    l' = l ∧ (stage_of p = Some (k, Raw) ∧ heap m' !! l = Some None ∨
              stage_of p = None ∧ heap m' !! l = Some (Some InitializeCriticalSection))) →
  (is_Some (heap m' !! l) → slots m' !! k = Some l ∧ stage_of p ≠ Some (k, Gone)) →
  MutexInv m' (<[t := p]> f) h.
Proof.
  intros [C T] Hs Hp Hok Hpr Hm Hl Hl1 Hl2 Hc Hh. split.
  - eapply cells_sole; eauto; [|apply initialize_free].
    intros k' g Hg%stage_sole. destruct Hp as [Hp| ->]; [congruence|done].
  - by eapply threads_sole.
Qed.

(** Its section, while the slot points to one. *)
Lemma sole_refers m f h t k l :
  MutexInv m f h → sole (f t) = Some k → slots m !! k = Some l → ¬ staged f k Gone →
  (∀ x, Refers m f l x → x = inr k) ∧ ∀ l', Refers m f l' (inr k) → l' = l.
Proof.
  intros [C T] Hs Hk Hg. split.
  - intros x Hx. apply (inv_unique _ _ _ C l); [done|]. by split.
  - intros l' [Hl' _]. congruence.
Qed.

(** [pthread_mutex_init]. *)
Lemma pthread_mutex_init_inv m f h t r k :
  MutexInv m f h → (f t = InitMalloc k ∨ f t = InitInitialize k) → malloc_gives r m →
  MutexKeeps t f h (pthread_mutex_init_step r (f t) m).
Proof.
  intros I Hpc Hr. pose proof I as [C T]. pose proof (inv_pc _ _ _ T t) as Hok.
  assert (Hs : sole (f t) = Some k) by (by destruct Hpc as [-> | ->]).
  destruct Hpc as [Hpc|Hpc]; rewrite Hpc in Hok; cbn in Hok.
  - rewrite Hpc. cbn. destruct r as [l|]; [|done]. cbn in *.
    eapply (sole_continues _ _ _ _ _ _ k l); eauto; cbn; rewrite ?lookup_insert_eq; eauto.
    + intros k' Hk'. by rewrite lookup_insert_ne.
    + intros l' Hl'. by rewrite lookup_insert_ne.
    + intros x Hx. by apply (fresh_refers _ _ _ C l x Hr) in Hx.
    + intros l' [Hl' _]. congruence.
    + intros l' [= <-] _. auto.
  - destruct Hok as [l Hk].
    assert (Hraw : staged f k Raw) by (exists t; by rewrite Hpc).
    assert (Hg : ¬ staged f k Gone).
    { intros H. by eapply (staged_here _ _ _ T t k Raw) in H; [|by rewrite Hpc]. }
    destruct (inv_slot _ _ _ C k l Hk Hg) as [[_ Hl]|[H _]]; [|done].
    rewrite Hpc. cbn. unfold with_slot. rewrite Hk. unfold initialize_section. rewrite Hl. cbn.
    destruct (sole_refers m f h t k l I Hs Hk Hg) as [H1 H2].
    eapply (sole_continues _ _ _ _ _ _ k l); eauto; cbn; rewrite ?lookup_insert_eq; try done.
    + intros l' Hl'. by rewrite lookup_insert_ne.
    + intros l' Hl' _. split; [congruence|auto].
Qed.

(** [pthread_mutex_destroy]. *)
Lemma destroy_delete_inv m f h t k :
  MutexInv m f h → f t = DestroyDelete k → MutexKeeps t f h (pthread_mutex_destroy_step (f t) m).
Proof.
  intros I Hpc. pose proof I as [C T]. pose proof (inv_pc _ _ _ T t) as Hok.
  rewrite Hpc in Hok |- *. destruct Hok as [l Hk].
  assert (Hs : sole (f t) = Some k) by (by rewrite Hpc).
  assert (Hg : ∀ g, ¬ staged f k g) by (intros g; eapply not_staged_sole; eauto; by rewrite Hpc).
  destruct (slot_section _ _ _ C k l Hk Hg) as (c & Hl & _).
  cbn. unfold with_slot. rewrite Hk. unfold delete_section. rewrite Hl. cbn.
  destruct (sole_refers m f h t k l I Hs Hk (Hg Gone)) as [H1 H2].
  eapply (sole_continues _ _ _ _ _ _ k l); eauto; cbn; rewrite ?lookup_insert_eq; eauto.
  - intros l' Hl'. by rewrite lookup_insert_ne.
  - intros l' Hl' _. split; [congruence|auto].
Qed.

Lemma destroy_free_inv m f h t k :
  MutexInv m f h → f t = DestroyFree k → MutexKeeps t f h (pthread_mutex_destroy_step (f t) m).
Proof.
  intros I Hpc. pose proof I as [C T]. pose proof (inv_pc _ _ _ T t) as Hok.
  rewrite Hpc in Hok |- *. destruct Hok as [l Hk].
  assert (Hs : sole (f t) = Some k) by (by rewrite Hpc).
  assert (Hraw : staged f k Raw) by (exists t; by rewrite Hpc).
  assert (Hg : ¬ staged f k Gone).
  { intros H. by eapply (staged_here _ _ _ T t k Raw) in H; [|by rewrite Hpc]. }
  destruct (inv_slot _ _ _ C k l Hk Hg) as [[_ Hl]|[H _]]; [|done].
  cbn. unfold with_slot. rewrite Hk. unfold free_section. rewrite Hl. cbn.
  destruct (sole_refers m f h t k l I Hs Hk Hg) as [H1 H2].
  eapply (sole_continues _ _ _ _ _ _ k l); eauto; cbn; rewrite ?lookup_delete_eq; eauto.
  - intros l' Hl'. by rewrite lookup_delete_ne.
  - by intros l' _ [].
  - by intros [? ?].
Qed.

Lemma destroy_clear_inv m f h t k :
  MutexInv m f h → f t = DestroyClear k → MutexKeeps t f h (pthread_mutex_destroy_step (f t) m).
Proof.
  intros I Hpc. pose proof I as [C T].
  assert (Hs : sole (f t) = Some k) by (by rewrite Hpc).
  assert (Hgone : staged f k Gone) by (exists t; by rewrite Hpc).
  set (l := fresh (dom (heap m))).
  assert (Hl : heap m !! l = None) by (apply not_elem_of_dom, is_fresh).
  clearbody l. rewrite Hpc. cbn.
  eapply (sole_continues _ _ _ _ _ _ k l); eauto; cbn; rewrite ?lookup_delete_eq; try done.
  - intros k' Hk'. by rewrite lookup_delete_ne.
  - intros x Hx. by apply (fresh_refers _ _ _ C l x Hl) in Hx.
  - by intros l' [_ []].
  - rewrite Hl. by intros [? ?].
Qed.

Lemma destroy_test_inv m f h t k :
  MutexInv m f h → f t = DestroyTest k → MutexKeeps t f h (pthread_mutex_destroy_step (f t) m).
Proof.
  intros I Hpc. pose proof I as [C T]. rewrite Hpc. cbn.
  assert (Hs : sole (f t) = Some k) by (by rewrite Hpc).
  destruct (slots m !! k) eqn:Hk; cbn.
  - split; [apply cells_same; eauto; by rewrite Hpc|].
    eapply threads_sole; eauto. cbn. by rewrite Hk.
  - split; [apply cells_same; eauto; by rewrite Hpc|]. by eapply threads_sole; eauto.
Qed.

Theorem pc_step_inv m f h t r :
  MutexInv m f h → f t ≠ Idle → malloc_gives r m → MutexKeeps t f h (pc_step t r (f t) m).
Proof.
  intros I Hidle Hr.
  pose proof (lock_step_inv m f h t r I Hidle) as HL.
  pose proof (λ k, pthread_mutex_init_inv m f h t r k I) as HI.
  pose proof (λ k, destroy_test_inv m f h t k I) as HT.
  pose proof (λ k, destroy_delete_inv m f h t k I) as HD.
  pose proof (λ k, destroy_free_inv m f h t k I) as HF.
  pose proof (λ k, destroy_clear_inv m f h t k I) as HC.
  destruct (f t) as [|k a|k a|k a l|k a l|k a l|k a l|k a|k a l|k|k|k|k|k|k]; cbn [pc_step]; try done;
    try (by apply HL); eauto.
Qed.

(** ** Calls *)

Context (CRYPTO_NUM_LOCKS CRYPTO_LOCK : Z).

Definition SInv (s : process) : Prop :=
  status s ≠ Faulted ∧ MutexInv (mem s) (pcs s) (held s).

Lemma begin_inv m f h t p :
  MutexInv m f h → f t = Idle → private p = None → stage_of p = None → slot_ok p (λ k, slots m !! k) →
  (∀ k, leaving p = Some k → 0 < h t k) →
  (∀ k, sole p = Some k → ∀ t', key_of (f t') ≠ Some k ∧ h t' k = 0) →
  (∀ k t', key_of p = Some k → sole (f t') ≠ Some k) →
  MutexInv m (<[t := p]> f) h.
Proof.
  intros [C T] Hpc Hp Hg Hok Hl Hs Hk. split.
  - apply cells_same; rewrite ?Hpc; done.
  - eapply threads_step; eauto.
    + intros t' k. apply (inv_null _ _ _ T).
    + intros k Hk'. split; intros t'; by destruct (Hs k Hk' t').
    + intros t' k Ht Hs'. split; [intros H; by apply (Hk k t' H)|]. by apply (inv_sole _ _ _ T t' k Hs').
Qed.

Lemma begin_call_inv s t c :
  SInv s → pcs s t = Idle → allowed CRYPTO_NUM_LOCKS CRYPTO_LOCK s t c →
  SInv (begin_call CRYPTO_NUM_LOCKS CRYPTO_LOCK t c s).
Proof.
  intros [Hst I] Hpc Ha. split; [done|]. pose proof I as [C T]. cbn.
  assert (Hheld : ∀ k, 0 < held s t k → ∀ t', sole (pcs s t') ≠ Some k).
  { intros k Hk t' Hs. destruct (inv_sole _ _ _ T t' k Hs) as [H _]. specialize (H t). lia. }
  unfold allowed in Ha.
  assert (Hstart : start CRYPTO_NUM_LOCKS CRYPTO_LOCK c = Idle ∨
    (∃ k a, start CRYPTO_NUM_LOCKS CRYPTO_LOCK c = LockTest k a) ∨
    (∃ k, start CRYPTO_NUM_LOCKS CRYPTO_LOCK c = LockRead k Leave) ∨
    (∃ k, start CRYPTO_NUM_LOCKS CRYPTO_LOCK c = InitMalloc k) ∨
    (∃ k, start CRYPTO_NUM_LOCKS CRYPTO_LOCK c = DestroyTest k)).
  { destruct c; cbn [start]; unfold CRYPTO_lock_start; repeat case_match; eauto 10. }
  destruct Hstart as [E|[(k & a & E)|[[k E]|[[k E]|[k E]]]]]; rewrite E in *.
  - by apply begin_inv.
  - destruct a; apply begin_inv; try done; cbn; intros; naive_solver.
  - apply begin_inv; try done; cbn.
    + destruct (slots (mem s) !! k) eqn:Hk; [done|].
      rewrite (inv_null _ _ _ T k t Hk) in Ha. lia.
    + naive_solver.
    + naive_solver.
  - destruct Ha as [Hu Hk]. apply begin_inv; try done; cbn.
    + by intros k' [= <-].
    + intros k' t' [= <-] Hs. by apply (proj1 (Hu t')), sole_key.
  - apply begin_inv; try done; cbn.
    + by intros k' [= <-].
    + intros k' t' [= <-] Hs. by apply (proj1 (Ha t')), sole_key.
Qed.

Lemma step_inv s s' :
  SInv s → step CRYPTO_NUM_LOCKS CRYPTO_LOCK s s' → SInv s'.
Proof.
  intros I Hstep. destruct Hstep as [s t c Hrun Hpc Ha|s t r Hrun Hpc Hr].
  - by apply begin_call_inv.
  - destruct I as [Hs I]. pose proof (pc_step_inv _ _ _ t r I Hpc Hr) as HK.
    destruct (pc_step t r (pcs s t) (mem s)) as [p m|[|] k m|code| |]; cbn in *; done.
Qed.

Lemma reachable_inv s : rtc (step CRYPTO_NUM_LOCKS CRYPTO_LOCK) initial s → SInv s.
Proof.
  intros H. assert (HI : SInv initial) by (split; [done|apply initial_inv]).
  induction H as [|s s1 s2 Hs _ IH]; [done|]. by apply IH, (step_inv s).
Qed.
End steps.
End invariant.
