(* ===== verification/LockProperties.v ===== *)
(** The theorems of the mutexes: what every interleaving of the threads keeps,
    and that a call ends unless it waits for another thread. *)
From Stdlib Require Import ZArith Lia.
From stdpp Require Import prelude gmap functions fin_maps relations.
From S2P Require Import Prelude CInt Lock LockProof.

(** ** Schedules *)

(** A call that thread [t] begins, or one statement of it, at which [malloc]
    returns [r]. *)
Inductive turn := Begin (t : tid) (c : call) | Run (t : tid) (r : option addr).

(** The slot whose section a call is going to enter. *)
Definition entering (p : pc) : option key :=
  match p with
  | LockTest k Enter | LockMalloc k Enter | LockInitialize k Enter _ | LockExchange k Enter _
  | LockDelete k Enter _ | LockFree k Enter _ | LockRead k Enter | LockCall k Enter _ => Some k
  | _ => None
  end.

Section properties.
Context {CS : Type} `{!CriticalSection CS} (CRYPTO_NUM_LOCKS CRYPTO_LOCK : Z).
Local Abbreviation step := (step (CS := CS) CRYPTO_NUM_LOCKS CRYPTO_LOCK).
Local Abbreviation process := (process (CS := CS)).

Definition take_turn (w : turn) (s : process) : process :=
  match w with
  | Begin t c => begin_call CRYPTO_NUM_LOCKS CRYPTO_LOCK t c s
  | Run t r => after_statement t (pc_step t r (pcs s t) (mem s)) s
  end.

Definition may_turn (w : turn) (s : process) : Prop :=
  status s = Running ∧
  match w with
  | Begin t c => pcs s t = Idle ∧ allowed CRYPTO_NUM_LOCKS CRYPTO_LOCK s t c
  | Run t r => pcs s t ≠ Idle ∧ malloc_gives r (mem s)
  end.

Fixpoint may_turns (ws : list turn) (s : process) : Prop :=
  match ws with [] => True | w :: ws => may_turn w s ∧ may_turns ws (take_turn w s) end.

Lemma turns_reach ws s :
  may_turns ws s → rtc step s (foldl (λ s w, take_turn w s) s ws).
Proof.
  revert s. induction ws as [|w ws IH]; intros s; [constructor|].
  intros [[Hrun Hw] Hws]. cbn. eapply rtc_l; [|by apply IH].
  destruct w as [t c|t r], Hw; by constructor.
Qed.

Context `{!CriticalSectionLaws CS}.

(** *** Progress *)

(** What a statement of thread [t] does when no other thread is in the section:
    it brings the call nearer to its end. *)
Definition Advances (t : tid) (p : pc) (o : outcome CS) : Prop :=
  match o with
  | Next p' _ =>
      rank p' < rank p ∧ entering p' = entering p ∧ (p' = Idle ∨ key_of p' = key_of p)
  | Moved Enter k _ => entering p = Some k
  | Moved Leave _ _ => entering p = None
  | _ => False
  end.

Lemma enters_now h t k c :
  Section_ok c h k → (∀ t', t' ≠ t → h t' k = 0) →
  ∃ c', EnterCriticalSection t c = Some c'.
Proof.
  intros [Hd Hpos] Hh. destruct (owner c) as [[t' n]|] eqn:Ho.
  - destruct (decide (t' = t)) as [->|Ht].
    + destruct (enter_again t c n Ho) as (c' & ? & _). eauto.
    + specialize (Hh t' Ht). rewrite Hd in Hh. unfold depth in Hh. rewrite Ho in Hh.
      rewrite decide_True in Hh by done. specialize (Hpos t' n eq_refl). lia.
  - destruct (enter_free t c Ho) as (c' & ? & _). eauto.
Qed.

Lemma advances m f h t l :
  MutexInv m f h → f t ≠ Idle → heap m !! l = None →
  (∀ k t', entering (f t) = Some k → t' ≠ t → h t' k = 0) →
  Advances t (f t) (pc_step t (Some l) (f t) m).
Proof.
  intros I Hidle Hl Hh. pose proof (pc_step_inv m f h t (Some l) I Hidle Hl) as HK.
  destruct (f t) as [|k a|k a|k a lcs|k a lcs|k a lcs|k a lcs|k a|k a lock|k|k|k|k|k|k] eqn:Hpc;
    cbn in *; unfold initialize_section, delete_section, free_section, with_slot in *;
    try done; try (repeat case_match; cbn in *; by eauto with lia).
  destruct I as [C T].
  assert (Hst : ∀ g, ¬ staged f k g) by (intros g; eapply not_staged; eauto; by rewrite Hpc).
  pose proof (inv_pc _ _ _ T t) as Hk. rewrite Hpc in Hk. cbn in Hk.
  destruct (slot_section _ _ _ C k lock Hk Hst) as (c & Hc & Hok).
  unfold call_section. rewrite Hc. destruct a; [|done].
  destruct (enters_now h t k c) as [c' ->]; [done| |done].
  intros t' Ht. by apply (Hh k).
Qed.

Lemma completes n s t :
  SInv s → status s = Running → pcs s t ≠ Idle → rank (pcs s t) ≤ n →
  (∀ k t', entering (pcs s t) = Some k → t' ≠ t → held s t' k = 0) →
  ∃ i s', i ≤ rank (pcs s t) ∧ nsteps (run_by t) i s s' ∧ status s' = Running ∧
    pcs s' t = Idle ∧ ∀ k, entering (pcs s t) = Some k → 0 < held s' t k.
Proof using CRYPTO_NUM_LOCKS CRYPTO_LOCK CriticalSectionLaws0.
  revert s. induction n as [|n IH]; intros s I Hrun Hidle Hn Hh.
  { destruct (pcs s t); cbn in *; by try lia. }
  set (l := fresh (dom (heap (mem s)))).
  assert (Hl : heap (mem s) !! l = None) by (apply not_elem_of_dom, is_fresh).
  pose proof (advances _ _ _ t l (proj2 I) Hidle Hl Hh) as Ha. clearbody l.
  assert (I' : SInv (after_statement t (pc_step t (Some l) (pcs s t) (mem s)) s)).
  { eapply (step_inv CRYPTO_NUM_LOCKS CRYPTO_LOCK); [done|]. by apply step_run. }
  assert (Hby : run_by t s (after_statement t (pc_step t (Some l) (pcs s t) (mem s)) s)).
  { apply run_by_intro; try done. by destruct (pc_step t (Some l) (pcs s t) (mem s)). }
  destruct (pc_step t (Some l) (pcs s t) (mem s)) as [p m|a k m| | |]; try done; cbn in *.
  - destruct Ha as (Hrank & He & Hk). destruct (decide (p = Idle)) as [->|Hp].
    + eexists 1, _. split; [lia|]. split; [by apply nsteps_once|]. cbn.
      rewrite fn_lookup_insert, <-He. done.
    + destruct (IH _ I') as (i & s' & Hi & Hs & ? & ? & He'); cbn; rewrite ?fn_lookup_insert;
        try done; [lia|by rewrite He|].
      cbn in *. rewrite fn_lookup_insert in Hi, He'. exists (S i), s'. split; [lia|].
      split; [by econstructor|]. by rewrite <-He.
  - eexists 1, _. split; [destruct (pcs s t); cbn in *; by try lia|].
    split; [by apply nsteps_once|].
    destruct a; cbn; rewrite ?fn_lookup_insert.
    + split; [done|]. split; [done|]. rewrite Ha. intros k' [= <-]. rewrite set_held_same. lia.
    + rewrite Ha. done.
Qed.

(** *** The theorems *)

(** C19: whatever calls the threads make and however their statements are
    interleaved, no statement touches a NULL, freed or uninitialized section;
    every allocated section belongs to exactly one slot or to exactly one
    thread that is about to install or free it; a slot that is neither being
    initialized nor destroyed holds NULL or an initialized section; and when
    every call has returned the slots hold all the sections there are. *)
Theorem mutexes_well_formed (s : process) :
  rtc step initial s →
  status s ≠ Faulted ∧
  (∀ l, is_Some (heap (mem s) !! l) →
    ∃ x, Refers (mem s) (pcs s) l x ∧ ∀ y, Refers (mem s) (pcs s) l y → y = x) ∧
  (∀ k l, slots (mem s) !! k = Some l → (∀ t, sole (pcs s t) ≠ Some k) →
    ∃ c, heap (mem s) !! l = Some (Some c)) ∧
  ((∀ t, pcs s t = Idle) →
    (∀ l, is_Some (heap (mem s) !! l) ↔ ∃ k, slots (mem s) !! k = Some l) ∧
    ∀ k k' l, slots (mem s) !! k = Some l → slots (mem s) !! k' = Some l → k = k').
Proof.
  intros Hr. apply reachable_inv in Hr as [Hs [C T]].
  assert (Hstaged : ∀ k g, (∀ t, sole (pcs s t) ≠ Some k) → ¬ staged (pcs s) k g).
  { intros k g H [t Ht]. apply stage_sole in Ht. by destruct (H t). }
  split; [done|]. split; [|split].
  - intros l Hl. apply (inv_heap _ _ _ C) in Hl as [x Hx]. exists x. split; [done|].
    intros y Hy. by apply (inv_unique _ _ _ C l).
  - intros k l Hk Hsole.
    destruct (slot_section _ _ _ C k l Hk) as (c & ? & _); [|by exists c].
    intros g. by apply Hstaged.
  - intros Hidle.
    assert (Hno : ∀ k g, ¬ staged (pcs s) k g) by (intros k g; apply Hstaged; intros t; by rewrite Hidle).
    split.
    + intros l. rewrite (inv_heap _ _ _ C l). split.
      * intros [[t|k] [? ?]]; [by rewrite Hidle in *|eauto].
      * intros [k Hk]. exists (inr k). by split.
    + intros k k' l Hk Hk'.
      assert (E : inr k = inr k' :> tid + key) by (apply (inv_unique _ _ _ C l); by split).
      by injection E.
Qed.

(** C20: two threads are never in the section of one mutex, or of one lock
    type, at the same time: while a thread has entered it and not left it,
    a thread that calls [EnterCriticalSection] for that slot waits. *)
Theorem mutual_exclusion (s : process) (t : tid) (k : key) :
  rtc step initial s → 0 < held s t k →
  (∀ t', 0 < held s t' k → t' = t) ∧
  ∀ t' r l, t' ≠ t → pcs s t' = LockCall k Enter l → pc_step t' r (pcs s t') (mem s) = Waits.
Proof.
  intros Hr Hh. apply reachable_inv in Hr as [_ [C T]].
  destruct (slots (mem s) !! k) as [l|] eqn:Hk; [|by rewrite (inv_null _ _ _ T k t Hk) in Hh; lia].
  assert (Hst : ∀ g, ¬ staged (pcs s) k g).
  { intros g [t' Hg]. apply stage_sole in Hg.
    destruct (inv_sole _ _ _ T t' k Hg) as [H0 _]. specialize (H0 t). lia. }
  destruct (slot_section _ _ _ C k l Hk Hst) as (c & Hc & Hd & Hpos).
  assert (Ho : ∃ n, owner c = Some (t, n)).
  { rewrite Hd in Hh. unfold depth in Hh.
    destruct (owner c) as [[t' n]|]; [case_decide; [subst; eauto|lia]|lia]. }
  destruct Ho as [n Ho]. split.
  - intros t' Ht'. rewrite Hd in Ht'. unfold depth in Ht'. rewrite Ho in Ht'.
    case_decide; [done|lia].
  - intros t' r l' Ht Hpc. pose proof (inv_pc _ _ _ T t') as Hok. rewrite Hpc in Hok |- *.
    cbn in *. assert (l' = l) as -> by congruence.
    unfold call_section. by rewrite Hc, (enter_waits t' t c n).
Qed.

(** C21: in every state that can be reached, a call that no other thread's hold
    on its section keeps waiting ends, with [malloc] succeeding, after at most
    eight of its own statements, whatever the other threads are in the middle
    of; a call that locks then holds the section. *)
Theorem mutex_call_completes (s : process) (t : tid) :
  rtc step initial s → status s = Running → pcs s t ≠ Idle →
  (∀ k t', entering (pcs s t) = Some k → t' ≠ t → held s t' k = 0) →
  ∃ n s', n ≤ 8 ∧ nsteps (run_by t) n s s' ∧ status s' = Running ∧ pcs s' t = Idle ∧
    ∀ k, entering (pcs s t) = Some k → 0 < held s' t k.
Proof.
  intros Hr%reachable_inv Hrun Hidle Hh.
  destruct (completes (rank (pcs s t)) s t) as (n & s' & Hn & H); try done.
  exists n, s'. split; [|done]. destruct (pcs s t); cbn in Hn; lia.
Qed.
End properties.

(** ** Witnesses *)

(** A section that is its owner. *)
Definition owned : Type := option (tid * nat).

#[global] Instance owned_section : CriticalSection owned := {|
  InitializeCriticalSection := None;
  EnterCriticalSection t c :=
    match c with
    | None => Some (Some (t, 1))
    | Some (t', n) => if decide (t' = t) then Some (Some (t, S n)) else None
    end;
  LeaveCriticalSection t c :=
    match c with Some (t', S (S n)) => Some (t', S n) | _ => None end;
  owner c := c
|}.

#[global] Instance owned_laws : CriticalSectionLaws owned.
Proof.
  split; cbn; try done.
  - intros t c ->. eauto.
  - intros t c n ->. rewrite decide_True by done. eauto.
  - intros t t' c n -> Ht. by rewrite decide_False.
  - by intros t c ->.
  - by intros t c n ->.
Qed.

(** Two threads find NULL; the first installs its section and enters it, the
    second frees its own and waits for the first one's. *)
Definition race : list turn :=
  [Begin 0 (Pthread_mutex_lock 7); Begin 1 (Pthread_mutex_lock 7); Run 0 None; Run 1 None;
   Run 0 (Some 1%positive); Run 1 (Some 2%positive); Run 0 None; Run 1 None;
   Run 0 None; Run 1 None; Run 1 None; Run 1 None; Run 1 None; Run 0 None; Run 0 None].

Definition raced : process := foldl (λ s w, take_turn (CS := owned) 41 1 w s) initial race.

Lemma raced_reachable : rtc (step (CS := owned) 41 1) initial raced.
Proof.
  apply turns_reach. vm_compute. repeat split; try done; by intros [|[|t]].
Qed.

Lemma mutexes_well_formed_witness :
  rtc (step (CS := owned) 41 1) initial raced ∧
  slots (mem raced) !! Mutex 7 = Some 1%positive ∧ heap (mem raced) !! 2%positive = None ∧
  status raced ≠ Faulted.
Proof.
  split; [apply raced_reachable|]. split; [by vm_compute|]. split; [by vm_compute|].
  apply (mutexes_well_formed 41 1 raced raced_reachable).
Defined.

Lemma mutual_exclusion_witness :
  0 < held raced 0 (Mutex 7) ∧ pcs raced 1 = LockCall (Mutex 7) Enter 1 ∧
  pc_step 1 None (pcs raced 1) (mem raced) = Waits.
Proof.
  assert (Hh : 0 < held raced 0 (Mutex 7)) by (vm_compute; lia).
  assert (Hpc : pcs raced 1 = LockCall (Mutex 7) Enter 1) by by vm_compute.
  split; [done|]. split; [done|].
  by apply (mutual_exclusion 41 1 raced 0 (Mutex 7) raced_reachable Hh) with 1%positive.
Defined.

(** The thread that waited goes on once the first one has left. *)
Definition released : process :=
  foldl (λ s w, take_turn (CS := owned) 41 1 w s) raced
    [Begin 0 (Pthread_mutex_unlock 7); Run 0 None; Run 0 None].

Lemma released_reachable : rtc (step (CS := owned) 41 1) initial released.
Proof.
  transitivity raced; [apply raced_reachable|]. apply turns_reach. vm_compute.
  repeat split; try done.
Qed.

Lemma mutex_call_completes_witness :
  pcs released 1 ≠ Idle ∧
  ∃ n s', n ≤ 8 ∧ nsteps (run_by 1) n released s' ∧ pcs s' 1 = Idle ∧ 0 < held s' 1 (Mutex 7).
Proof.
  assert (Hrun : status released = Running) by by vm_compute.
  assert (Hpc : pcs released 1 = LockCall (Mutex 7) Enter 1) by by vm_compute.
  assert (Hh : held released 0 (Mutex 7) = 0) by by vm_compute.
  assert (Hn : ∀ t, held released (S (S t)) (Mutex 7) = 0) by (intros t; by vm_compute).
  split; [by rewrite Hpc|].
  destruct (mutex_call_completes 41 1 released 1 released_reachable Hrun)
    as (n & s' & Hi & Hs & _ & Hidle & Hk); rewrite ?Hpc in *; [done| |].
  - intros k [|[|t]] [= <-] Ht; [exact Hh|done|apply Hn].
  - exists n, s'. repeat split; [done|done|done|]. by apply Hk.
Defined.
