(* ===== verification/Dirent.v ===== *)
(** [include/compat/dirent_msvc.h]: directory streams on Windows, over the
    search handles of Win32.

    The streams, the entries they return and the search patterns are objects in
    a heap: an access to one that is not allocated, and an index outside a
    buffer, are failures. *)
From Stdlib Require Import ZArith Lia.
From stdpp Require Import prelude gmap.
From S2P Require Import Prelude CInt PosixWin.

Local Open Scope Z_scope.

(** ** Data *)

(** [WIN32_FIND_DATAW]: the names are arrays of [WCHAR]. *)
Record find_data := FindData {
  cFileName : list Z;
  cAlternateFileName : list Z;
  dwFileAttributes : Z
}.

Inductive d_type_code := DT_UNKNOWN | DT_CHR | DT_DIR | DT_REG.

Definition FILE_ATTRIBUTE_DIRECTORY : Z := 0x10.
Definition FILE_ATTRIBUTE_DEVICE : Z := 0x40.
Definition INVALID_HANDLE_VALUE : Z := -1.

(** [struct _wdirent] and [struct dirent] differ in the type of the characters. *)
Record dirent := Dirent {
  d_ino : Z;
  d_reclen : Z;
  d_namlen : Z;
  d_type : d_type_code;
  d_name : list Z
}.

Record _WDIR := WDIR {
  went : dirent;
  data : find_data;
  cached : Z;
  handle : Z;
  patt : ptr
}.

Record DIR := MkDIR { ent : dirent; wdirp : ptr }.

(** The system, the heap, and what the next calls of [malloc] return: NULL for
    [false], and memory once the list is used up. *)
Record dworld (W : Type) := DWorld {
  fs : W;
  mallocs : list bool;
  wdirs : gmap positive _WDIR;
  dirs : gmap positive DIR;
  bufs : gmap positive (list Z)
}.
Arguments DWorld {_} _ _ _ _ _.
Arguments fs {_} _.
Arguments mallocs {_} _.
Arguments wdirs {_} _.
Arguments dirs {_} _.
Arguments bufs {_} _.

(** The string in an array: what comes before its NUL. *)
Fixpoint c_string (l : list Z) : option (list Z) :=
  match l with
  | [] => None
  | c :: l => if c =? 0 then Some [] else cons c <$> c_string l
  end.

(** ** The calls of Win32 and of the C runtime *)

(** The results of [GetFullPathNameW] and of the two conversions come with what
    they wrote to the front of the buffer they were given; the conversions say
    0 for success and how many characters they wrote, the NUL included. *)
Class FindFile (W : Type) := {
  FindFirstFileW : list Z → W → Z * find_data * W;
  FindNextFileW : Z → W → option find_data * W;
  FindClose : Z → W → W;
  GetFullPathNameW : list Z → Z → W → Z * list Z * W;
  wcstombs_s : Z → list Z → Z → Z * Z * list Z;
  mbstowcs_s : Z → list Z → Z → Z * Z * list Z
}.

(** The limits and sizes the source takes from its includes, and the contents
    of memory fresh from [malloc]. *)
Record dirent_params := DirentParams {
  PATH_MAX : Z;
  SIZE_MAX : Z;
  sizeof_wdirent : Z;
  sizeof_dirent : Z;
  junk_char : Z;
  junk_wdir : _WDIR;
  junk_dir : DIR
}.

Section dirent.
Context {W : Type} `{!FindFile W} (par : dirent_params).
Local Abbreviation M := (ST (sys (dworld W))).

(** ** Memory *)

Definition upd (f : dworld W → dworld W) : M unit :=
  modify (λ s, Sys (errno s) (f (world s))).

Definition set_fs (w : W) (s : dworld W) : dworld W :=
  DWorld w (mallocs s) (wdirs s) (dirs s) (bufs s).
Definition set_wdirs m (s : dworld W) : dworld W :=
  DWorld (fs s) (mallocs s) m (dirs s) (bufs s).
Definition set_dirs m (s : dworld W) : dworld W :=
  DWorld (fs s) (mallocs s) (wdirs s) m (bufs s).
Definition set_bufs m (s : dworld W) : dworld W :=
  DWorld (fs s) (mallocs s) (wdirs s) (dirs s) m.

(** Whether this call of [malloc] succeeds. *)
Definition malloc_succeeds : M bool :=
  l ← gets (λ s, mallocs (world s));
  upd (λ s, DWorld (fs s) (tail l) (wdirs s) (dirs s) (bufs s));;
  mret (match l with [] => true | b :: _ => b end).

Definition get_wdir (p : ptr) : M _WDIR :=
  a ← of_option p; w ← gets (λ s, wdirs (world s) !! a); of_option w.
Definition put_wdir (p : ptr) (w : _WDIR) : M unit :=
  a ← of_option p; get_wdir p;; upd (λ s, set_wdirs (<[a := w]> (wdirs s)) s).
Definition malloc_wdir : M ptr :=
  ok ← malloc_succeeds;
  if ok : bool then
    a ← gets (λ s, fresh (dom (wdirs (world s))));
    upd (λ s, set_wdirs (<[a := junk_wdir par]> (wdirs s)) s);; mret (Some a)
  else mret None.
Definition free_wdir (p : ptr) : M unit :=
  a ← of_option p; get_wdir p;; upd (λ s, set_wdirs (delete a (wdirs s)) s).

Definition get_dir (p : ptr) : M DIR :=
  a ← of_option p; d ← gets (λ s, dirs (world s) !! a); of_option d.
Definition put_dir (p : ptr) (d : DIR) : M unit :=
  a ← of_option p; get_dir p;; upd (λ s, set_dirs (<[a := d]> (dirs s)) s).
Definition malloc_dir : M ptr :=
  ok ← malloc_succeeds;
  if ok : bool then
    a ← gets (λ s, fresh (dom (dirs (world s))));
    upd (λ s, set_dirs (<[a := junk_dir par]> (dirs s)) s);; mret (Some a)
  else mret None.
Definition free_dir (p : ptr) : M unit :=
  a ← of_option p; get_dir p;; upd (λ s, set_dirs (delete a (dirs s)) s).

(** A buffer of [n] wide characters. *)
Definition get_buf (p : ptr) : M (list Z) :=
  a ← of_option p; b ← gets (λ s, bufs (world s) !! a); of_option b.
Definition put_buf (p : ptr) (b : list Z) : M unit :=
  a ← of_option p; get_buf p;; upd (λ s, set_bufs (<[a := b]> (bufs s)) s).
Definition malloc_buf (n : Z) : M ptr :=
  ok ← malloc_succeeds;
  if ok : bool then
    a ← gets (λ s, fresh (dom (bufs (world s))));
    upd (λ s, set_bufs (<[a := replicate (Z.to_nat n) (junk_char par)]> (bufs s)) s);;
    mret (Some a)
  else mret None.
Definition free_buf (p : ptr) : M unit :=
  a ← of_option p; get_buf p;; upd (λ s, set_bufs (delete a (bufs s)) s).

(** [b[i]], and [b[i] = c]. *)
Definition read_at (b : list Z) (i : Z) : M Z :=
  if i <? 0 then fail else of_option (b !! Z.to_nat i).
Definition write_at (b : list Z) (i c : Z) : M (list Z) :=
  read_at b i;; mret (<[Z.to_nat i := c]> b).

(** What a call wrote to the front of a buffer. *)
Definition write_front (b out : list Z) : M (list Z) :=
  if Nat.ltb (length b) (length out) then fail else mret (out ++ drop (length out) b).

(** A call that changes the system. *)
Definition call_fs {A} (f : W → A * W) : M A :=
  r ← gets (λ s, f (fs (world s))); upd (set_fs r.2);; mret r.1.

(** ** Internal functions *)

(** Both return whether [data] holds an entry: [&dirp->data], or NULL. *)
Definition dirent_first (dirp : ptr) : M bool :=
  w ← get_wdir dirp;
  b ← get_buf (patt w);
  p ← of_option (c_string b);
  r ← call_fs (FindFirstFileW p);
  let '(h, d) := r in
  if negb (h =? INVALID_HANDLE_VALUE) then
    put_wdir dirp (WDIR (went w) d 1 h (patt w));; mret true
  else
    put_wdir dirp (WDIR (went w) (data w) 0 h (patt w));; mret false.

Definition dirent_next (dirp : ptr) : M bool :=
  w ← get_wdir dirp;
  if negb (cached w =? 0) then
    put_wdir dirp (WDIR (went w) (data w) 0 (handle w) (patt w));; mret true
  else if negb (handle w =? INVALID_HANDLE_VALUE) then
    r ← call_fs (FindNextFileW (handle w));
    match r with
    | Some d => put_wdir dirp (WDIR (went w) d (cached w) (handle w) (patt w));; mret true
    | None =>
        call_fs (λ s, (tt, FindClose (handle w) s));;
        put_wdir dirp (WDIR (went w) (data w) (cached w) INVALID_HANDLE_VALUE (patt w));;
        mret false
    end
  else mret false.

Definition file_type (attr : Z) : d_type_code :=
  if negb (Z.land attr FILE_ATTRIBUTE_DEVICE =? 0) then DT_CHR
  else if negb (Z.land attr FILE_ATTRIBUTE_DIRECTORY =? 0) then DT_DIR
  else DT_REG.

(** ** Wide-character streams *)

Definition _wclosedir (dirp : ptr) : M Z :=
  if nonnull dirp then
    w ← get_wdir dirp;
    w ← (if negb (handle w =? INVALID_HANDLE_VALUE) then
           call_fs (λ s, (tt, FindClose (handle w) s));;
           mret (WDIR (went w) (data w) (cached w) INVALID_HANDLE_VALUE (patt w))
         else mret w);
    w ← (if nonnull (patt w) then
           free_buf (patt w);;
           mret (WDIR (went w) (data w) (cached w) (handle w) None)
         else mret w);
    put_wdir dirp w;;
    free_wdir dirp;;
    mret 0
  else set_errno EBADF;; mret (-1).

(** [\ / :], and the other characters of the pattern. *)
Definition is_separator (c : Z) : bool := (c =? 92) || (c =? 47) || (c =? 58).

(** The pattern: the full path in [b], of [len] characters, and [\*]. *)
Definition append_pattern (b : list Z) (len : Z) : M (list Z) :=
  bp ← (if 0 <? len then
          c ← read_at b (len - 1);
          if is_separator c then mret (b, len)
          else b ← write_at b len 92; mret (b, len + 1)
        else mret (b, len));
  b ← write_at bp.1 bp.2 42;
  write_at b (bp.2 + 1) 0.

(** The part of [_wopendir] that finds the path and opens the search: whether
    it failed. *)
Definition open_search (dirname : list Z) (dirp : ptr) : M bool :=
  r ← call_fs (GetFullPathNameW dirname 0);
  let n := u32 r.1 in
  w ← get_wdir dirp;
  (if n <=? (SIZE_MAX par - 16) / 2 then
     b ← malloc_buf ((2 * n + 16) / 2);
     put_wdir dirp (WDIR (went w) (data w) (cached w) (handle w) b)
   else mret tt);;
  w ← get_wdir dirp;
  if nonnull (patt w) then
    r ← call_fs (GetFullPathNameW dirname n);
    let len := u32 r.1 in
    b ← get_buf (patt w);
    b ← write_front b r.2;
    put_buf (patt w) b;;
    if (0 <? len) && (len <? n) then
      b ← append_pattern b len;
      put_buf (patt w) b;;
      ok ← dirent_first dirp;
      if ok : bool then mret false else set_errno ENOENT;; mret true
    else set_errno ENOENT;; mret true
  else set_errno ENOMEM;; mret true.

Definition _wopendir (dirname : option (list Z)) : M ptr :=
  match dirname with
  | None | Some [] => set_errno ENOENT;; mret None
  | Some dirname =>
      dirp ← malloc_wdir;
      if nonnull dirp then
        w ← get_wdir dirp;
        put_wdir dirp (WDIR (went w) (data w) 0 INVALID_HANDLE_VALUE None);;
        error ← open_search dirname dirp;
        if error : bool then _wclosedir dirp;; mret None else mret dirp
      else mret None
  end.

(** [while (n + 1 < PATH_MAX && datap->cFileName[n] != 0)]: the name copied to
    [name], and its length; [k] is at least [PATH_MAX - n]. *)
Fixpoint copy_name (k : nat) (src name : list Z) (n : Z) : M (list Z * Z) :=
  match k with
  | O => fail
  | S k =>
      if n + 1 <? PATH_MAX par then
        c ← read_at src n;
        if c =? 0 then mret (name, n)
        else name ← write_at name n c; copy_name k src name (n + 1)
      else mret (name, n)
  end.

(** [true]: the entry is in [went] ([&dirp->ent]); [false]: NULL. *)
Definition _wreaddir (dirp : ptr) : M bool :=
  datap ← dirent_next dirp;
  if datap : bool then
    w ← get_wdir dirp;
    r ← copy_name (Z.to_nat (PATH_MAX par)) (cFileName (data w)) (d_name (went w)) 0;
    name ← write_at r.1 r.2 0;
    put_wdir dirp
      (WDIR (Dirent 0 (u16 (sizeof_wdirent par)) r.2 (file_type (dwFileAttributes (data w))) name)
         (data w) (cached w) (handle w) (patt w));;
    mret true
  else mret false.

Definition _wrewinddir (dirp : ptr) : M unit :=
  if nonnull dirp then
    w ← get_wdir dirp;
    (if negb (handle w =? INVALID_HANDLE_VALUE) then
       call_fs (λ s, (tt, FindClose (handle w) s))
     else mret tt);;
    dirent_first dirp;;
    mret tt
  else mret tt.

(** ** Streams *)

Definition opendir (dirname : option (list Z)) : M ptr :=
  match dirname with
  | None | Some [] => set_errno ENOENT;; mret None
  | Some dirname =>
      dirp ← malloc_dir;
      if nonnull dirp then
        let '(error, n, out) := mbstowcs_s (PATH_MAX par) dirname (PATH_MAX par) in
        error ← (if error =? 0 then
                   wname ← write_front (replicate (Z.to_nat (PATH_MAX par)) (junk_char par)) out;
                   wname ← of_option (c_string wname);
                   wd ← _wopendir (Some wname);
                   d ← get_dir dirp;
                   put_dir dirp (MkDIR (ent d) wd);;
                   mret (negb (nonnull wd))
                 else mret true);
        if error : bool then free_dir dirp;; mret None else mret dirp
      else mret None
  end.

(** [dirent_wcstombs_s(&n, dirp->ent.d_name, PATH_MAX, name, PATH_MAX)]: the
    error, [n], and [d_name] afterwards. *)
Definition convert_name (d_name name : list Z) : M (Z * Z * list Z) :=
  let '(error, n, out) := wcstombs_s (PATH_MAX par) name (PATH_MAX par) in
  b ← write_front d_name out; mret (error, n, b).

(** [true]: the entry is in [ent]; [false]: NULL. *)
Definition readdir (dirp : ptr) : M bool :=
  d ← get_dir dirp;
  datap ← dirent_next (wdirp d);
  if datap : bool then
    w ← get_wdir (wdirp d);
    r ← convert_name (d_name (ent d)) (cFileName (data w));
    r ← (if r.1.1 =? 0 then mret r
         else
           c ← read_at (cAlternateFileName (data w)) 0;
           if c =? 0 then mret r else convert_name r.2 (cAlternateFileName (data w)));
    let '(error, n, name) := r in
    (if error =? 0 then
       put_dir dirp
         (MkDIR (Dirent 0 (u16 (sizeof_dirent par)) (u64 (n - 1))
                   (file_type (dwFileAttributes (data w))) name) (wdirp d))
     else
       name ← write_at name 0 63;
       name ← write_at name 1 0;
       put_dir dirp (MkDIR (Dirent 0 0 1 DT_UNKNOWN name) (wdirp d)));;
    mret true
  else mret false.

Definition closedir (dirp : ptr) : M Z :=
  if nonnull dirp then
    d ← get_dir dirp;
    ok ← _wclosedir (wdirp d);
    put_dir dirp (MkDIR (ent d) None);;
    free_dir dirp;;
    mret ok
  else set_errno EBADF;; mret (-1).

Definition rewinddir (dirp : ptr) : M unit :=
  d ← get_dir dirp; _wrewinddir (wdirp d).
End dirent.
