(* ===== verification/DirentSpec.v ===== *)
(** What a directory stream is: the laws of the calls of Win32 it is made of,
    the stream as the entries it has left to return, and what an operation
    may change. *)
From Stdlib Require Import ZArith Lia.
From stdpp Require Import prelude gmap.
From S2P Require Import Prelude CInt PosixWin Dirent.

Local Open Scope Z_scope.

(** ** The file system *)

(** What is documented of the calls: [listing] are the entries that match a
    pattern, [remaining] is what an open search handle has left ([None]: the
    handle is not open), and [full_path] the absolute path of a name, empty
    when there is none. *)
Class FindFileLaws (W : Type) `{!FindFile W} := {
  listing : list Z → W → list find_data;
  remaining : Z → W → option (list find_data);
  full_path : list Z → W → list Z;
  (** [w'] differs from [w] at most in handle [h], which is now as [o] says. *)
  changes (h : Z) (o : option (list find_data)) (w w' : W) : Prop :=
    remaining h w' = o ∧ (∀ h', h' ≠ h → remaining h' w' = remaining h' w) ∧
    (∀ p, listing p w' = listing p w) ∧ (∀ n, full_path n w' = full_path n w);
  invalid_closed w : remaining INVALID_HANDLE_VALUE w = None;
  find_first p w :
    match listing p w with
    | [] => ∃ d w', FindFirstFileW p w = (INVALID_HANDLE_VALUE, d, w') ∧
                    changes INVALID_HANDLE_VALUE None w w'
    | d :: ds => ∃ h w', FindFirstFileW p w = (h, d, w') ∧ remaining h w = None ∧
                    h ≠ INVALID_HANDLE_VALUE ∧ changes h (Some ds) w w'
    end;
  find_next h w ds : remaining h w = Some ds →
    ∃ w', FindNextFileW h w = (head ds, w') ∧ changes h (Some (tail ds)) w w';
  find_close h w ds : remaining h w = Some ds → changes h None w (FindClose h w);
  get_full_path n k w : 0 <= k →
    let path := full_path n w in
    let len := Z.of_nat (length path) in
    ∃ out w', Z.of_nat (length out) <= k ∧ changes INVALID_HANDLE_VALUE None w w' ∧
      if len =? 0 then GetFullPathNameW n k w = (0, out, w')
      else if len <? k then GetFullPathNameW n k w = (len, path ++ [0], w')
      else GetFullPathNameW n k w = (len + 1, out, w');
  full_path_ok n w : Z.of_nat (length (full_path n w)) < 2 ^ 32 - 1 ∧ 0 ∉ full_path n w;
  listing_names p w d : d ∈ listing p w → 0 ∈ cFileName d ∧ 0 ∈ cAlternateFileName d;
  wcstombs_s_ok size name k : 0 <= size →
    let '(error, n, out) := wcstombs_s size name k in
    Z.of_nat (length out) <= size ∧
    (error = 0 → n = Z.of_nat (length out) ∧ ∃ str, out = str ++ [0] ∧ 0 ∉ str);
  mbstowcs_s_ok size name k : 0 <= size →
    let '(error, n, out) := mbstowcs_s size name k in
    Z.of_nat (length out) <= size ∧
    (error = 0 → n = Z.of_nat (length out) ∧ ∃ str, out = str ++ [0] ∧ 0 ∉ str)
}.

(** ** Strings *)

Lemma c_string_app str rest : 0 ∉ str → c_string (str ++ 0 :: rest) = Some str.
Proof.
  induction str as [|c str IH]; intros Hz; [done|]. cbn.
  rewrite not_elem_of_cons in Hz. destruct Hz as [Hc Hz].
  destruct (Z.eqb_spec c 0); [by subst|]. by rewrite IH.
Qed.

Lemma c_string_split l str : c_string l = Some str → ∃ rest, l = str ++ 0 :: rest ∧ 0 ∉ str.
Proof.
  revert str. induction l as [|c l IH]; intros str H; cbn in H; [done|].
  destruct (Z.eqb_spec c 0) as [->|Hc].
  - injection H as <-. exists l. split; [done|]. apply not_elem_of_nil.
  - destruct (c_string l) as [str'|]; [|done]. injection H as <-.
    destruct (IH str' eq_refl) as (rest & -> & Hz). exists rest. split; [done|].
    rewrite not_elem_of_cons. auto.
Qed.

Lemma c_string_in l : 0 ∈ l → ∃ str, c_string l = Some str.
Proof.
  induction l as [|c l IH]; [by intros ?%not_elem_of_nil|]. cbn.
  destruct (Z.eqb_spec c 0) as [->|Hc]; [eauto|].
  intros [?|Hl]%elem_of_cons; [congruence|]. destruct (IH Hl) as [str ->]. eauto.
Qed.

(** The pattern that lists the directory [path]. *)
Definition pattern (path : list Z) : list Z :=
  path ++ (if is_separator (default 0 (last path)) then [] else [92]) ++ [42].

(** ** Streams *)

Section streams.
Context {W : Type} `{!FindFile W} `{!FindFileLaws W} (par : dirent_params).
Local Abbreviation state := (sys (dworld W)).

(** The sizes are those of real arrays: fresh structures have a name buffer of
    [PATH_MAX] characters. *)
Record params_ok : Prop := {
  path_max : 2 <= PATH_MAX par < 2 ^ 31;
  wname_length : Z.of_nat (length (d_name (went (junk_wdir par)))) = PATH_MAX par;
  name_length : Z.of_nat (length (d_name (ent (junk_dir par)))) = PATH_MAX par
}.

(** The file system as it was: the same handles are open, in the same place. *)
Definition same_fs (w w' : W) : Prop :=
  (∀ h, remaining h w' = remaining h w) ∧ (∀ p, listing p w' = listing p w) ∧
  ∀ n, full_path n w' = full_path n w.

(** All of the heap and of the handles is as it was. *)
Definition restored (s0 s : state) : Prop :=
  wdirs (world s) = wdirs (world s0) ∧ dirs (world s) = dirs (world s0) ∧
  bufs (world s) = bufs (world s0) ∧ same_fs (fs (world s0)) (fs (world s)).

(** The entries a stream has left. *)
Definition pending (w : _WDIR) (f : W) (l : list find_data) : Prop :=
  if decide (handle w = INVALID_HANDLE_VALUE) then cached w = 0 ∧ l = []
  else ∃ ds, remaining (handle w) f = Some ds ∧
    l = if decide (cached w = 0) then ds else data w :: ds.

(** The handle of a stream is its own: the other handles are as in [f0]. *)
Definition own_handle (h : Z) (f0 f : W) : Prop :=
  remaining h f0 = None ∧ (∀ h', h' ≠ h → remaining h' f = remaining h' f0) ∧
  (∀ p, listing p f = listing p f0) ∧ (∀ n, full_path n f = full_path n f0).

(** The stream [w] at [a], with its pattern [p] in the buffer [chars] at [b], has
    [l] left; the rest of the wide-character heap and of the system is as in [s0]. *)
Record wide_at (s0 s : state) (a : positive) (w : _WDIR) (b : positive) (chars p : list Z)
    (l : list find_data) : Prop := {
  wa_wdirs : wdirs (world s) = <[a := w]> (wdirs (world s0));
  wa_fresh : wdirs (world s0) !! a = None;
  wa_patt : patt w = Some b;
  wa_bufs : bufs (world s) = <[b := chars]> (bufs (world s0));
  wa_buf_fresh : bufs (world s0) !! b = None;
  wa_string : c_string chars = Some p;
  wa_name : Z.of_nat (length (d_name (went w))) = PATH_MAX par;
  wa_handle : own_handle (handle w) (fs (world s0)) (fs (world s));
  wa_pending : pending w (fs (world s)) l;
  wa_valid : Forall (λ d, 0 ∈ cFileName d ∧ 0 ∈ cAlternateFileName d) l
}.

Definition wide_stream (s0 s : state) (dirp : ptr) (p : list Z) (l : list find_data) : Prop :=
  ∃ a w b chars, dirp = Some a ∧ wide_at s0 s a w b chars p l.

(** A stream of [opendir]: [struct DIR] at [dirp], over a wide-character stream. *)
Definition stream (s0 s : state) (dirp : ptr) (p : list Z) (l : list find_data) : Prop :=
  ∃ a d, dirp = Some a ∧ dirs (world s) = <[a := d]> (dirs (world s0)) ∧
    dirs (world s0) !! a = None ∧ Z.of_nat (length (d_name (ent d))) = PATH_MAX par ∧
    wide_stream s0 s (wdirp d) p l.

(** The stream [w] at [a], open or not, with or without its pattern. *)
Record owns (s0 s : state) (a : positive) (w : _WDIR) : Prop := {
  ow_wdirs : wdirs (world s) = <[a := w]> (wdirs (world s0));
  ow_fresh : wdirs (world s0) !! a = None;
  ow_bufs : match patt w with
            | None => bufs (world s) = bufs (world s0)
            | Some b => bufs (world s0) !! b = None ∧
                        ∃ chars, bufs (world s) = <[b := chars]> (bufs (world s0))
            end;
  ow_handle : own_handle (handle w) (fs (world s0)) (fs (world s));
  ow_open : handle w ≠ INVALID_HANDLE_VALUE → is_Some (remaining (handle w) (fs (world s)))
}.

(** ** What [opendir] opens *)

(** The next [k] calls of [malloc] succeed. *)
Definition granted (k : nat) (ms : list bool) : bool := forallb id (take k ms).

(** The pattern of the stream that [_wopendir] opens, if it opens one. *)
Definition wide_opens (name : list Z) (ms : list bool) (f : W) : option (list Z) :=
  let path := full_path name f in
  let p := pattern path in
  if negb (bool_decide (name = [])) && granted 2 ms && negb (bool_decide (path = []))
     && (Z.of_nat (length path) + 1 <=? (SIZE_MAX par - 16) / 2)
     && negb (bool_decide (length (listing p f) = 0%nat))
  then Some p else None.

(** And of the one that [opendir] opens. *)
Definition opens (dirname : option (list Z)) (ms : list bool) (f : W) : option (list Z) :=
  match dirname with
  | None | Some [] => None
  | Some dirname =>
      let '(error, _, out) := mbstowcs_s (PATH_MAX par) dirname (PATH_MAX par) in
      if granted 1 ms && (error =? 0) then
        match c_string out with Some name => wide_opens name (tail ms) f | None => None end
      else None
  end.

(** ** What [readdir] returns *)

(** What a caller reads of an entry. *)
Definition view (e : dirent) : option (list Z) * Z * d_type_code :=
  (c_string (d_name e), d_namlen e, d_type e).

(** The multi-byte name of a file: of its long name or else of its short one. *)
Definition converted (name : list Z) : option (list Z) :=
  let '(error, _, out) := wcstombs_s (PATH_MAX par) name (PATH_MAX par) in
  if error =? 0 then c_string out else None.

Definition multibyte_name (d : find_data) : option (list Z) :=
  match converted (cFileName d) with
  | Some str => Some str
  | None => if decide (head (cAlternateFileName d) = Some 0) then None
            else converted (cAlternateFileName d)
  end.

Definition entry_of (d : find_data) : option (list Z) * Z * d_type_code :=
  match multibyte_name d with
  | Some str => (Some str, Z.of_nat (length str), file_type (dwFileAttributes d))
  | None => (Some [63], 1, DT_UNKNOWN)
  end.

(** The wide-character entry: the name cut to fit. *)
Definition wide_entry_of (d : find_data) : option (list Z) * Z * d_type_code :=
  let str := take (Z.to_nat (PATH_MAX par) - 1) (default [] (c_string (cFileName d))) in
  (Some str, Z.of_nat (length str), file_type (dwFileAttributes d)).
End streams.
