(* ===== verification/DirentProof.v ===== *)
(** The operations on directory streams, proved against [DirentSpec]. *)
From Stdlib Require Import ZArith Lia.
From stdpp Require Import prelude gmap.
From S2P Require Import Prelude CInt PosixWin Dirent DirentSpec.

Local Open Scope Z_scope.

#[local] Arguments wp : simpl never.

Section memory.
Context {W : Type} `{!FindFile W} `{!FindFileLaws W} (par : dirent_params).
Local Abbreviation state := (sys (dworld W)).
Implicit Types (s : state).

Lemma wp_upd f (Q : unit → state → Prop) s : Q tt (Sys (errno s) (f (world s))) → wp (upd f) Q s.
Proof. done. Qed.

Ltac dstep := first [wp_step | apply wp_upd; cbn [errno world]].

(** The stream that has just been stored. *)
Ltac this_wdir :=
  match goal with |- context [set_wdirs (<[_ := ?w']> _) _] => exists w' end.

Lemma wp_get_wdir a w (Q : _WDIR → state → Prop) s :
  wdirs (world s) !! a = Some w → Q w s → wp (get_wdir (Some a)) Q s.
Proof.
  intros H HQ. unfold get_wdir. wp_step. wp_step. do 2 wp_step. rewrite H.
  by wp_step.
Qed.

Lemma wp_put_wdir a w w0 (Q : unit → state → Prop) s :
  wdirs (world s) !! a = Some w0 →
  Q tt (Sys (errno s) (set_wdirs (<[a := w]> (wdirs (world s))) (world s))) →
  wp (put_wdir (Some a) w) Q s.
Proof.
  intros H HQ. unfold put_wdir. wp_step. wp_step. wp_step.
  by eapply wp_get_wdir.
Qed.

Lemma wp_free_wdir a w (Q : unit → state → Prop) s :
  wdirs (world s) !! a = Some w →
  Q tt (Sys (errno s) (set_wdirs (delete a (wdirs (world s))) (world s))) →
  wp (free_wdir (Some a)) Q s.
Proof.
  intros H HQ. unfold free_wdir. wp_step. wp_step. wp_step.
  by eapply wp_get_wdir.
Qed.

Lemma wp_get_dir a d (Q : DIR → state → Prop) s :
  dirs (world s) !! a = Some d → Q d s → wp (get_dir (Some a)) Q s.
Proof.
  intros H HQ. unfold get_dir. wp_step. wp_step. do 2 wp_step. rewrite H.
  by wp_step.
Qed.

Lemma wp_put_dir a d d0 (Q : unit → state → Prop) s :
  dirs (world s) !! a = Some d0 →
  Q tt (Sys (errno s) (set_dirs (<[a := d]> (dirs (world s))) (world s))) →
  wp (put_dir (Some a) d) Q s.
Proof.
  intros H HQ. unfold put_dir. wp_step. wp_step. wp_step. by eapply wp_get_dir.
Qed.

Lemma wp_free_dir a d (Q : unit → state → Prop) s :
  dirs (world s) !! a = Some d →
  Q tt (Sys (errno s) (set_dirs (delete a (dirs (world s))) (world s))) →
  wp (free_dir (Some a)) Q s.
Proof.
  intros H HQ. unfold free_dir. wp_step. wp_step. wp_step. by eapply wp_get_dir.
Qed.

Lemma wp_get_buf a b (Q : list Z → state → Prop) s :
  bufs (world s) !! a = Some b → Q b s → wp (get_buf (Some a)) Q s.
Proof.
  intros H HQ. unfold get_buf. wp_step. wp_step. do 2 wp_step. rewrite H.
  by wp_step.
Qed.

Lemma wp_put_buf a b b0 (Q : unit → state → Prop) s :
  bufs (world s) !! a = Some b0 →
  Q tt (Sys (errno s) (set_bufs (<[a := b]> (bufs (world s))) (world s))) →
  wp (put_buf (Some a) b) Q s.
Proof.
  intros H HQ. unfold put_buf. wp_step. wp_step. wp_step. by eapply wp_get_buf.
Qed.

Lemma wp_free_buf a b (Q : unit → state → Prop) s :
  bufs (world s) !! a = Some b →
  Q tt (Sys (errno s) (set_bufs (delete a (bufs (world s))) (world s))) →
  wp (free_buf (Some a)) Q s.
Proof.
  intros H HQ. unfold free_buf. wp_step. wp_step. wp_step. by eapply wp_get_buf.
Qed.

Lemma wp_call_fs {A} (f : W → A * W) a f' (Q : A → state → Prop) s :
  f (fs (world s)) = (a, f') → Q a (Sys (errno s) (set_fs f' (world s))) → wp (call_fs f) Q s.
Proof. intros H HQ. unfold call_fs. do 2 wp_step. rewrite H. by repeat wp_step. Qed.

(** Arrays. *)
Lemma wp_read_at b i c (Q : Z → state → Prop) s :
  0 <= i → b !! Z.to_nat i = Some c → Q c s → wp (read_at b i) Q s.
Proof. intros Hi H HQ. unfold read_at. destruct (Z.ltb_spec i 0); [lia|]. by rewrite H. Qed.

Lemma wp_write_at b i c (Q : list Z → state → Prop) s :
  0 <= i < Z.of_nat (length b) → Q (<[Z.to_nat i := c]> b) s → wp (write_at b i c) Q s.
Proof.
  intros Hi HQ. unfold write_at. wp_step.
  destruct (lookup_lt_is_Some_2 b (Z.to_nat i)) as [c0 H0]; [lia|].
  eapply wp_read_at; [lia|done|]. by wp_step.
Qed.

Lemma wp_write_front b out (Q : list Z → state → Prop) s :
  (length out <= length b)%nat → Q (out ++ drop (length out) b) s → wp (write_front b out) Q s.
Proof. intros Hl HQ. unfold write_front. destruct (Nat.ltb_spec (length b) (length out)); [lia|]. by wp_step. Qed.

(** Allocation: a fresh object, or NULL, and one answer of [malloc] used up. *)
Definition next_mallocs s : state :=
  Sys (errno s) (DWorld (fs (world s)) (tail (mallocs (world s)))
    (wdirs (world s)) (dirs (world s)) (bufs (world s))).

Definition malloc_ok s : bool := match mallocs (world s) with [] => true | b :: _ => b end.

Lemma wp_malloc_wdir (Q : ptr → state → Prop) s :
  (if malloc_ok s then ∀ a, wdirs (world s) !! a = None →
     Q (Some a) (Sys (errno s) (set_wdirs (<[a := junk_wdir par]> (wdirs (world s))) (world (next_mallocs s))))
   else Q None (next_mallocs s)) →
  wp (malloc_wdir par) Q s.
Proof using.
  intros H. unfold malloc_wdir, malloc_succeeds. repeat dstep.
  unfold malloc_ok in H. destruct (match mallocs (world s) with [] => true | b :: _ => b end).
  - repeat dstep. apply H. apply not_elem_of_dom, is_fresh.
  - by dstep.
Qed.

Lemma wp_malloc_dir (Q : ptr → state → Prop) s :
  (if malloc_ok s then ∀ a, dirs (world s) !! a = None →
     Q (Some a) (Sys (errno s) (set_dirs (<[a := junk_dir par]> (dirs (world s))) (world (next_mallocs s))))
   else Q None (next_mallocs s)) →
  wp (malloc_dir par) Q s.
Proof using.
  intros H. unfold malloc_dir, malloc_succeeds. repeat dstep.
  unfold malloc_ok in H. destruct (match mallocs (world s) with [] => true | b :: _ => b end).
  - repeat dstep. apply H. apply not_elem_of_dom, is_fresh.
  - by dstep.
Qed.

Lemma wp_malloc_buf n (Q : ptr → state → Prop) s :
  (if malloc_ok s then ∀ a, bufs (world s) !! a = None →
     Q (Some a) (Sys (errno s) (set_bufs (<[a := replicate (Z.to_nat n) (junk_char par)]> (bufs (world s)))
       (world (next_mallocs s))))
   else Q None (next_mallocs s)) →
  wp (malloc_buf par n) Q s.
Proof using.
  intros H. unfold malloc_buf, malloc_succeeds. repeat dstep.
  unfold malloc_ok in H. destruct (match mallocs (world s) with [] => true | b :: _ => b end).
  - repeat dstep. apply H. apply not_elem_of_dom, is_fresh.
  - by dstep.
Qed.

(** ** Handles *)

Implicit Types (f : W).

Lemma same_fs_refl f : same_fs f f.
Proof. done. Qed.

Lemma changes_same f f0 f' :
  same_fs f0 f → changes INVALID_HANDLE_VALUE None f f' → same_fs f0 f'.
Proof.
  intros (H1 & H2 & H3) (H0 & Hr & Hl & Hf). repeat split.
  - intros h. destruct (decide (h = INVALID_HANDLE_VALUE)) as [->|Hh].
    + by rewrite H0, invalid_closed.
    + by rewrite Hr.
  - intros p. by rewrite Hl.
  - intros n. by rewrite Hf.
Qed.

(** A stream whose handle is closed or none has changed nothing. *)
Lemma own_closed h f0 f : own_handle h f0 f → remaining h f = None → same_fs f0 f.
Proof.
  intros (H0 & Hr & Hl & Hf) Hn. repeat split; [|done|done].
  intros h'. destruct (decide (h' = h)) as [->|]; [by rewrite H0|by apply Hr].
Qed.

Lemma own_changes h o f0 f f' : own_handle h f0 f → changes h o f f' → own_handle h f0 f'.
Proof.
  intros (H0 & Hr & Hl & Hf) (Ho & Hr' & Hl' & Hf'). repeat split; [done|..].
  - intros h' Hh. by rewrite Hr', Hr.
  - intros p. by rewrite Hl'.
  - intros n. by rewrite Hf'.
Qed.

Lemma same_own h o f0 f f' :
  same_fs f0 f → remaining h f = None → changes h o f f' → own_handle h f0 f'.
Proof.
  intros (H1 & H2 & H3) Hn. apply own_changes. repeat split; [by rewrite <-H1| |done|done].
  intros h' _. apply H1.
Qed.

Lemma same_own_invalid f0 f : same_fs f0 f → own_handle INVALID_HANDLE_VALUE f0 f.
Proof. intros (H1 & H2 & H3). repeat split; [apply invalid_closed|by intros; apply H1|done|done]. Qed.

(** ** Internal functions *)

(** [dirent_first] opens a search for the pattern. *)
Lemma dirent_first_run a w b chars p s :
  wdirs (world s) !! a = Some w → patt w = Some b → bufs (world s) !! b = Some chars →
  c_string chars = Some p →
  wp (dirent_first (Some a)) (λ ok s', ∃ d h f',
    s' = Sys (errno s) (set_wdirs
      (<[a := WDIR (went w) d (if ok then 1 else 0) h (patt w)]> (wdirs (world s)))
      (set_fs f' (world s))) ∧
    match listing p (fs (world s)) with
    | [] => ok = false ∧ h = INVALID_HANDLE_VALUE ∧
            changes INVALID_HANDLE_VALUE None (fs (world s)) f'
    | d' :: ds => ok = true ∧ d = d' ∧ h ≠ INVALID_HANDLE_VALUE ∧
            remaining h (fs (world s)) = None ∧ changes h (Some ds) (fs (world s)) f'
    end) s.
Proof.
  intros Hw Hb Hc Hp. unfold dirent_first.
  wp_step. eapply wp_get_wdir; [done|]. rewrite Hb.
  wp_step. eapply wp_get_buf; [done|]. rewrite Hp.
  wp_step. wp_step. wp_step. pose proof (find_first p (fs (world s))) as HF.
  destruct (listing p (fs (world s))) as [|d' ds].
  - destruct HF as (d & f' & HF & Hch). eapply wp_call_fs; [exact HF|]. cbn.
    wp_step. eapply wp_put_wdir; [done|]. wp_step. eexists (data w), _, f'. done.
  - destruct HF as (h & f' & HF & Hn & Hh & Hch). eapply wp_call_fs; [exact HF|]. cbn.
    destruct (Z.eqb_spec h INVALID_HANDLE_VALUE); [done|]. cbn.
    wp_step. eapply wp_put_wdir; [done|]. wp_step. eexists d', h, f'. done.
Qed.

(** [dirent_next] returns the next entry. *)
Lemma dirent_next_run s0 s a w b chars p l :
  wide_at par s0 s a w b chars p l →
  wp (dirent_next (Some a)) (λ ok s', ∃ w',
    wide_at par s0 s' a w' b chars p (tail l) ∧ dirs (world s') = dirs (world s) ∧
    went w' = went w ∧
    match l with [] => ok = false | d :: _ => ok = true ∧ data w' = d end) s.
Proof.
  intros [Hwd Hfresh Hpt Hbufs Hbf Hstr Hname Hown Hpend Hvalid].
  assert (Hw : wdirs (world s) !! a = Some w) by (by rewrite Hwd, lookup_insert_eq).
  unfold dirent_next. wp_step. eapply wp_get_wdir; [done|].
  unfold pending in Hpend. apply Forall_tail in Hvalid as Hvalid'.
  destruct (decide (handle w = INVALID_HANDLE_VALUE)) as [Hh|Hh].
  - destruct Hpend as [Hc ->]. rewrite Hc, Hh. cbn. wp_step. exists w.
    split; [|done]. split; try done. unfold pending. by rewrite decide_True.
  - destruct Hpend as (ds & Hds & ->).
    destruct (Z.eqb_spec (cached w) 0) as [Hc|Hc]; cbn [negb].
    + rewrite decide_True by done. destruct (Z.eqb_spec (handle w) INVALID_HANDLE_VALUE); [done|].
      cbn [negb]. wp_step. destruct (find_next _ _ _ Hds) as (f' & HF & Hch).
      eapply wp_call_fs; [exact HF|]. pose proof (own_changes _ _ _ _ _ Hown Hch) as Hown'.
      rewrite decide_True in Hvalid, Hvalid' by done.
      destruct ds as [|d ds]; cbn [head].
      * wp_step. eapply wp_call_fs; [done|]. cbn.
        wp_step. eapply wp_put_wdir; [done|]. wp_step. this_wdir. split; [|by split_and!].
        assert (Hcl := find_close _ _ _ (proj1 Hch)).
        split; cbn; try done.
        -- by rewrite Hwd, insert_insert_eq.
        -- apply same_own_invalid. eapply own_closed; [eapply own_changes; eauto|]. apply Hcl.
      * wp_step. eapply wp_put_wdir; [done|]. wp_step. this_wdir. split; [|by split_and!].
        split; cbn; try done; [by rewrite Hwd, insert_insert_eq|].
        unfold pending. cbn. rewrite decide_False by done. exists ds.
        rewrite decide_True by done. split; [apply Hch|done].
    + rewrite decide_False in Hvalid, Hvalid' |- * by done.
      wp_step. eapply wp_put_wdir; [done|]. wp_step. this_wdir. split; [|by split_and!].
      split; cbn; try done; [by rewrite Hwd, insert_insert_eq|].
      unfold pending. cbn. rewrite decide_False by done. exists ds. by rewrite decide_True.
Qed.

Lemma wide_owns s0 s a w b chars p l : wide_at par s0 s a w b chars p l → owns s0 s a w.
Proof.
  intros [Hwd Hfresh Hpt Hbufs Hbf Hstr Hname Hown Hpend Hvalid]. split; try done.
  - rewrite Hpt. eauto.
  - intros Hh. unfold pending in Hpend. rewrite decide_False in Hpend by done.
    destruct Hpend as (ds & -> & _). eauto.
Qed.

(** [_wclosedir] frees the stream, its pattern and its handle. *)
Lemma wclosedir_run s0 s a w :
  owns s0 s a w →
  wp (_wclosedir (Some a)) (λ r s', r = 0 ∧ wdirs (world s') = wdirs (world s0) ∧
    bufs (world s') = bufs (world s0) ∧ dirs (world s') = dirs (world s) ∧
    same_fs (fs (world s0)) (fs (world s'))) s.
Proof.
  intros [Hwd Hfresh Hbufs Hown Hopen].
  unfold _wclosedir. cbn [nonnull]. wp_step. eapply wp_get_wdir; [by rewrite Hwd, lookup_insert_eq|].
  wp_step. apply (wp_mono _ (λ w' s', patt w' = patt w ∧ wdirs (world s') = wdirs (world s) ∧
    bufs (world s') = bufs (world s) ∧ dirs (world s') = dirs (world s) ∧
    same_fs (fs (world s0)) (fs (world s')))).
  { destruct (Z.eqb_spec (handle w) INVALID_HANDLE_VALUE) as [Hh|Hh]; cbn [negb].
    - wp_step. repeat split; try done; apply (own_closed _ _ _ Hown); rewrite Hh; apply invalid_closed.
    - wp_step. eapply wp_call_fs; [done|]. wp_step. split_and!; try done.
      destruct (Hopen Hh) as [ds Hds]. apply find_close in Hds.
      eapply own_closed; [eapply own_changes; eauto|]. apply Hds. }
  intros w' s' (Hp & Hwd' & Hb' & Hd' & Hfs'). wp_step.
  apply (wp_mono _ (λ w'' s'', wdirs (world s'') = wdirs (world s) ∧
    bufs (world s'') = bufs (world s0) ∧ dirs (world s'') = dirs (world s) ∧
    same_fs (fs (world s0)) (fs (world s'')))).
  { rewrite Hp. destruct (patt w) as [b|]; cbn [nonnull].
    - destruct Hbufs as [Hbf [chars Hbufs]]. wp_step.
      eapply wp_free_buf; [by rewrite Hb', Hbufs, lookup_insert_eq|]. wp_step. cbn.
      split_and!; try done. rewrite Hb', Hbufs, delete_insert_eq. by rewrite delete_id.
    - wp_step. split_and!; try done. by rewrite Hb'. }
  intros w'' s'' (Hwd'' & Hb'' & Hd'' & Hfs'').
  wp_step. eapply wp_put_wdir; [by rewrite Hwd'', Hwd, lookup_insert_eq|].
  wp_step. eapply wp_free_wdir; [cbn; by rewrite lookup_insert_eq|].
  wp_step. cbn. split_and!; try done.
  rewrite delete_insert_eq, Hwd'', Hwd, delete_insert_eq. by rewrite delete_id.
Qed.

(** [_wrewinddir] opens the search again. *)
Lemma wrewinddir_run s0 s a w b chars p l :
  wide_at par s0 s a w b chars p l →
  wp (_wrewinddir (Some a)) (λ _ s', ∃ w',
    wide_at par s0 s' a w' b chars p (listing p (fs (world s0))) ∧
    dirs (world s') = dirs (world s) ∧ went w' = went w) s.
Proof.
  intros Hat. pose proof (wide_owns _ _ _ _ _ _ _ _ Hat) as Ho.
  destruct Hat as [Hwd Hfresh Hpt Hbufs Hbf Hstr Hname Hown Hpend Hvalid].
  unfold _wrewinddir. cbn [nonnull]. wp_step.
  eapply wp_get_wdir; [by rewrite Hwd, lookup_insert_eq|]. wp_step.
  apply (wp_mono _ (λ _ s', wdirs (world s') = wdirs (world s) ∧
    bufs (world s') = bufs (world s) ∧ dirs (world s') = dirs (world s) ∧
    same_fs (fs (world s0)) (fs (world s')))).
  { destruct (Z.eqb_spec (handle w) INVALID_HANDLE_VALUE) as [Hh|Hh]; cbn [negb].
    - wp_step. split_and!; try done. apply (own_closed _ _ _ Hown). rewrite Hh. apply invalid_closed.
    - eapply wp_call_fs; [done|]. split_and!; try done.
      destruct (ow_open _ _ _ _ Ho Hh) as [ds Hds]. apply find_close in Hds.
      eapply own_closed; [eapply own_changes; eauto|]. apply Hds. }
  intros _ s' (Hwd' & Hb' & Hd' & Hfs'). wp_step.
  eapply wp_mono; [eapply (dirent_first_run a w b chars p);
    [by rewrite Hwd', Hwd, lookup_insert_eq|done|by rewrite Hb', Hbufs, lookup_insert_eq|done]|].
  intros ok s'' (d & h & f' & -> & HF). wp_step.
  rewrite (proj1 (proj2 Hfs')) in HF.
  this_wdir. split; [|by split]. split; cbn; try done.
  - by rewrite Hwd', Hwd, insert_insert_eq.
  - by rewrite Hb'.
  - destruct (listing p (fs (world s0))) as [|d' ds].
    + destruct HF as (-> & -> & Hch). apply same_own_invalid. by eapply changes_same.
    + destruct HF as (-> & -> & Hh & Hn & Hch). by eapply same_own.
  - unfold pending. cbn. destruct (listing p (fs (world s0))) as [|d' ds].
    + destruct HF as (-> & -> & Hch). by rewrite decide_True.
    + destruct HF as (-> & -> & Hh & Hn & Hch). rewrite decide_False by done.
      exists ds. split; [apply Hch|]. by rewrite decide_False.
  - apply Forall_forall. intros x Hx. by eapply listing_names.
Qed.

(** ** Opening *)

Lemma insert_at_front {A} (l r : list A) x y : <[length l := x]> (l ++ y :: r) = l ++ x :: r.
Proof. by rewrite <-(Nat.add_0_r (length l)), insert_app_r. Qed.

(** The characters after the path are the pattern's and a NUL. *)
Lemma append_pattern_run path x y z rest (s : state) :
  path ≠ [] →
  wp (append_pattern (path ++ x :: y :: z :: rest) (Z.of_nat (length path)))
    (λ b s', s' = s ∧ ∃ rest', b = pattern path ++ 0 :: rest' ∧
      length b = length (path ++ x :: y :: z :: rest)) s.
Proof.
  intros Hp. assert (Hl : (0 < length path)%nat) by (by destruct path; cbn; [done|lia]).
  unfold append_pattern, pattern. destruct (Z.ltb_spec 0 (Z.of_nat (length path))); [|lia].
  assert (Hlast : (path ++ x :: y :: z :: rest) !! Z.to_nat (Z.of_nat (length path) - 1) =
    Some (default 0 (last path))).
  { rewrite lookup_app_l by lia. rewrite last_lookup.
    replace (Z.to_nat (Z.of_nat (length path) - 1)) with (pred (length path)) by lia.
    destruct (lookup_lt_is_Some_2 path (pred (length path))) as [c ->]; [lia|done]. }
  do 2 wp_step. eapply wp_read_at; [lia|exact Hlast|].
  destruct (is_separator (default 0 (last path))).
  - wp_step. cbn [fst snd]. wp_step. apply wp_write_at; [rewrite length_app; cbn; lia|].
    rewrite Nat2Z.id, insert_at_front.
    apply wp_write_at; [rewrite length_app; cbn; lia|].
    replace (Z.to_nat (Z.of_nat (length path) + 1)) with (length (path ++ [42]))
      by (rewrite length_app; cbn; lia).
    replace (path ++ 42 :: y :: z :: rest) with ((path ++ [42]) ++ y :: z :: rest)
      by (by rewrite <-app_assoc).
    rewrite insert_at_front. split; [done|]. exists (z :: rest). split.
    + done.
    + rewrite !length_app. cbn. lia.
  - wp_step. apply wp_write_at; [rewrite length_app; cbn; lia|]. wp_step. cbn [fst snd].
    rewrite Nat2Z.id, insert_at_front. wp_step.
    apply wp_write_at; [rewrite length_app; cbn; lia|].
    replace (Z.to_nat (Z.of_nat (length path) + 1)) with (length (path ++ [92]))
      by (rewrite length_app; cbn; lia).
    replace (path ++ 92 :: y :: z :: rest) with ((path ++ [92]) ++ y :: z :: rest)
      by (by rewrite <-app_assoc).
    rewrite insert_at_front. apply wp_write_at; [rewrite !length_app; cbn; lia|].
    replace (Z.to_nat (Z.of_nat (length path) + 1 + 1)) with (length ((path ++ [92]) ++ [42]))
      by (rewrite !length_app; cbn; lia).
    replace ((path ++ [92]) ++ 42 :: z :: rest) with (((path ++ [92]) ++ [42]) ++ z :: rest)
      by (by rewrite <-!app_assoc).
    rewrite insert_at_front. split; [done|]. exists rest. split.
    + by rewrite <-!app_assoc.
    + rewrite !length_app. cbn. lia.
Qed.

Lemma pattern_no_nul path : 0 ∉ path → 0 ∉ pattern path.
Proof.
  intros H. unfold pattern. destruct (is_separator _); rewrite !not_elem_of_app; set_solver by lia.
Qed.

(** Both results of [GetFullPathNameW]. *)
Lemma full_path_size name f k : 0 <= k →
  ∃ len out f', GetFullPathNameW name k f = (len, out, f') ∧ u32 len = len ∧
    Z.of_nat (length out) <= k ∧ changes INVALID_HANDLE_VALUE None f f' ∧
    len = (if bool_decide (full_path name f = []) then 0
           else if Z.of_nat (length (full_path name f)) <? k then Z.of_nat (length (full_path name f))
           else Z.of_nat (length (full_path name f)) + 1) ∧
    (full_path name f ≠ [] → Z.of_nat (length (full_path name f)) < k → out = full_path name f ++ [0]).
Proof.
  intros Hk. destruct (get_full_path name k f Hk) as (out & f' & Hout & Hch & HG).
  destruct (full_path_ok name f) as [Hlen _]. set (path := full_path name f) in *. clearbody path.
  assert (Hu : ∀ z, 0 <= z < 2 ^ 32 → u32 z = z) by (intros z Hz; by apply u32_small).
  destruct (Z.eqb_spec (Z.of_nat (length path)) 0) as [H0|H0].
  - destruct path; [|cbn in H0; lia]. eexists 0, out, f'. split_and!; try done.
  - rewrite bool_decide_false by (by destruct path).
    destruct (Z.ltb_spec (Z.of_nat (length path)) k).
    + eexists _, _, f'. split_and!; try done; [apply Hu; lia|]. rewrite length_app. cbn. lia.
    + eexists _, out, f'. split_and!; try done; [apply Hu; lia|lia].
Qed.

(** A buffer for the pattern of a directory of [n] characters with the NUL. *)
Definition pattern_buffer (n : Z) : list Z := replicate (Z.to_nat (n + 8)) (junk_char par).

(** The stream before its pattern is there. *)
Definition blank s0 s a w : Prop :=
  owns s0 s a w ∧ handle w = INVALID_HANDLE_VALUE ∧ cached w = 0 ∧
  Z.of_nat (length (d_name (went w))) = PATH_MAX par.

Lemma blank_same s0 s a w : blank s0 s a w → same_fs (fs (world s0)) (fs (world s)).
Proof.
  intros (Ho & Hh & _). eapply own_closed; [apply (ow_handle _ _ _ _ Ho)|].
  rewrite Hh. apply invalid_closed.
Qed.

(** The first part of [open_search]: the buffer is allocated, or not. *)
Lemma allocate_pattern s0 s a w n (Q : unit → state → Prop) :
  blank s0 s a w → patt w = None → 0 <= n →
  (∀ s', dirs (world s') = dirs (world s) → fs (world s') = fs (world s) →
    (if (n <=? (SIZE_MAX par - 16) / 2) && malloc_ok s then
       ∃ w' b, blank s0 s' a w' ∧ patt w' = Some b ∧ bufs (world s') !! b = Some (pattern_buffer n)
     else ∃ w', blank s0 s' a w' ∧ patt w' = None) → Q tt s') →
  wp (if n <=? (SIZE_MAX par - 16) / 2 then
        b ← malloc_buf par ((2 * n + 16) / 2);
        put_wdir (Some a) (WDIR (went w) (data w) (cached w) (handle w) b)
      else mret tt) Q s.
Proof using.
  intros Hblank Hp Hn0 HQ. pose proof Hblank as (Ho & Hh & Hc & Hn).
  destruct Ho as [Hwd Hfr Hb Hown Hop].
  rewrite Hp in Hb. destruct (n <=? (SIZE_MAX par - 16) / 2).
  - cbn [andb] in HQ. wp_step. apply wp_malloc_buf. destruct (malloc_ok s).
    + intros b Hbf. eapply wp_put_wdir; [cbn; by rewrite Hwd, lookup_insert_eq|].
      apply HQ; [done|done|]. cbn.
      replace ((2 * n + 16) / 2) with (n + 8) by (apply Z.div_unique with 0; lia).
      this_wdir. exists b. split; [|split]; [|done|by rewrite lookup_insert_eq].
      split; [|done]. split; cbn; try done.
      * by rewrite Hwd, insert_insert_eq.
      * rewrite <-Hb. eauto.
    + eapply wp_put_wdir; [cbn; by rewrite Hwd, lookup_insert_eq|].
      apply HQ; [done|done|]. cbn. this_wdir. split; [|done].
      split; [|done]. split; cbn; try done. by rewrite Hwd, insert_insert_eq.
  - wp_step. apply HQ; [done|done|]. by exists w.
Qed.

(** A call that only reads the file system. *)
Lemma blank_call s0 s a w f' :
  blank s0 s a w → changes INVALID_HANDLE_VALUE None (fs (world s)) f' →
  blank s0 (Sys (errno s) (set_fs f' (world s))) a w.
Proof.
  intros (Ho & Hh & Hc & Hn) Hch. split; [|done]. destruct Ho as [Hwd Hfr Hb Hown Hop].
  split; cbn; try done. rewrite Hh in *. by eapply own_changes.
Qed.

(** The search for the pattern in the buffer. *)
Lemma search_run s0 s a w b chars p :
  blank s0 s a w → patt w = Some b → bufs (world s) !! b = Some chars → c_string chars = Some p →
  wp (ok ← dirent_first (Some a);
      if ok : bool then mret false else set_errno ENOENT;; mret true)
    (λ err s', dirs (world s') = dirs (world s) ∧
      match listing p (fs (world s0)) with
      | [] => err = true ∧ ∃ w', owns s0 s' a w'
      | l => err = false ∧ ∃ w' b' chars', wide_at par s0 s' a w' b' chars' p l
      end) s.
Proof.
  intros Hblank Hp Hb Hs. pose proof (blank_same _ _ _ _ Hblank) as Hsame.
  destruct Hblank as (Ho & Hh & Hc & Hn). destruct Ho as [Hwd Hfr Hbufs Hown Hop].
  rewrite Hp in Hbufs. destruct Hbufs as [Hbf [chars0 Hbufs]].
  rewrite Hbufs, lookup_insert_eq in Hb. injection Hb as ->.
  wp_step. eapply wp_mono; [eapply (dirent_first_run a w b chars p); try done;
    [by rewrite Hwd, lookup_insert_eq|by rewrite Hbufs, lookup_insert_eq]|].
  intros ok s' (d & h & f' & -> & HF). rewrite (proj1 (proj2 Hsame)) in HF.
  pose proof (listing_names p (fs (world s0))) as Hnames.
  destruct (listing p (fs (world s0))) as [|d' ds].
  - destruct HF as (-> & -> & Hch). unfold set_errno. do 3 wp_step.
    split; [done|]. split; [done|]. this_wdir. split; cbn; try done.
    + by rewrite Hwd, insert_insert_eq.
    + rewrite Hp. split; [done|]. by exists chars.
    + apply same_own_invalid. by eapply changes_same.
  - destruct HF as (-> & -> & Hh' & Hn' & Hch). wp_step.
    split; [done|]. split; [done|]. this_wdir. exists b, chars. split; cbn; try done.
    + by rewrite Hwd, insert_insert_eq.
    + by eapply same_own.
    + unfold pending. cbn. rewrite decide_False by done. exists ds. split; [apply Hch|].
      by rewrite decide_False.
    + apply Forall_forall. intros x Hx. by apply Hnames.
Qed.

(** The pattern replaces the contents of its buffer. *)
Lemma put_pattern s0 s a w b chars chars' (Q : unit → state → Prop) :
  blank s0 s a w → patt w = Some b → bufs (world s) !! b = Some chars →
  (∀ s', blank s0 s' a w → bufs (world s') !! b = Some chars' → dirs (world s') = dirs (world s) →
    fs (world s') = fs (world s) → Q tt s') →
  wp (put_buf (Some b) chars') Q s.
Proof.
  intros (Ho & Hrest) Hp Hb HQ. destruct Ho as [Hwd Hfr Hbufs Hown Hop].
  rewrite Hp in Hbufs. destruct Hbufs as [Hbf [chars0 Hbufs]].
  eapply wp_put_buf; [done|]. apply HQ; try done.
  - split; [|done]. split; cbn; try done. rewrite Hp. split; [done|]. exists chars'.
    by rewrite Hbufs, insert_insert_eq.
  - cbn. by rewrite lookup_insert_eq.
Qed.

(** What the second call leaves in the buffer. *)
Lemma full_path_buffer (path : list Z) :
  (path ++ [0]) ++ drop (length (path ++ [0])) (pattern_buffer (Z.of_nat (length path) + 1)) =
  path ++ 0 :: replicate 8 (junk_char par).
Proof.
  unfold pattern_buffer. rewrite drop_replicate, <-app_assoc, length_app. cbn.
  by replace (Z.to_nat _ - _)%nat with 8%nat by lia.
Qed.

(** The second part: the path, the pattern and the search. *)
Lemma open_pattern s0 s a w b name n :
  blank s0 s a w → patt w = Some b → bufs (world s) !! b = Some (pattern_buffer n) →
  n = (if bool_decide (full_path name (fs (world s)) = []) then 0
       else Z.of_nat (length (full_path name (fs (world s)))) + 1) →
  wp (r ← call_fs (GetFullPathNameW name n);
      let len := u32 r.1 in
      b ← get_buf (patt w);
      b ← write_front b r.2;
      put_buf (patt w) b;;
      if (0 <? len) && (len <? n) then
        b ← append_pattern b len;
        put_buf (patt w) b;;
        ok ← dirent_first (Some a);
        if ok : bool then mret false else set_errno ENOENT;; mret true
      else set_errno ENOENT;; mret true)
    (λ err s', dirs (world s') = dirs (world s) ∧
      let path := full_path name (fs (world s)) in
      if bool_decide (path = []) then err = true ∧ ∃ w', owns s0 s' a w'
      else match listing (pattern path) (fs (world s0)) with
           | [] => err = true ∧ ∃ w', owns s0 s' a w'
           | l => err = false ∧ ∃ w' b' chars', wide_at par s0 s' a w' b' chars' (pattern path) l
           end) s.
Proof.
  intros Hblank Hp Hb Hn.
  assert (Hn0 : 0 <= n) by (rewrite Hn; case_bool_decide; lia).
  destruct (full_path_size name (fs (world s)) n Hn0)
    as (len & out & f' & HG & Hu & Hout & Hch & Hlen & Hpath).
  destruct (full_path_ok name (fs (world s))) as [_ Hnul].
  set (path := full_path name (fs (world s))) in *. clearbody path.
  wp_step. eapply wp_call_fs; [exact HG|]. apply (blank_call _ _ _ _ f') in Hblank; [|done].
  cbn [fst snd]. rewrite Hp, Hu. wp_step. eapply wp_get_buf; [exact Hb|]. wp_step.
  apply wp_write_front.
  { unfold pattern_buffer. rewrite length_replicate. lia. }
  wp_step. eapply put_pattern; [exact Hblank|done|exact Hb|].
  intros s1 Hblank1 Hb1 Hd1 Hf1. cbn in Hd1. case_bool_decide as Hnil.
  - subst n len. cbn. unfold set_errno. do 3 wp_step. split; [done|]. split; [done|].
    exists w. destruct Hblank1 as [Ho _]. by destruct Ho; split.
  - assert (Hpos : 0 < Z.of_nat (length path)) by (destruct path; [done|cbn; lia]).
    destruct (Z.ltb_spec (Z.of_nat (length path)) n) as [Hlt|]; [|lia]. subst len.
    rewrite Hpath in Hb1 |- * by (done || lia). rewrite Hn, full_path_buffer in Hb1 |- *.
    rewrite (proj2 (Z.ltb_lt _ _)) by lia. rewrite (proj2 (Z.ltb_lt _ _)) by lia. cbn [andb].
    wp_step. eapply wp_mono; [by apply append_pattern_run|].
    intros chars s2 (-> & rest & -> & _). wp_step.
    eapply put_pattern; [done|done|exact Hb1|]. intros s2 Hblank2 Hb2 Hd2 Hf2.
    eapply wp_mono; [eapply search_run; [done..|apply c_string_app, pattern_no_nul, Hnul]|].
    intros err s3 [Hd3 H3]. split; [by rewrite Hd3, Hd2|done].
Qed.

(** The search of [_wopendir]. *)
Lemma open_search_run s0 s a w name :
  blank s0 s a w → patt w = None →
  wp (open_search par name (Some a)) (λ err s', dirs (world s') = dirs (world s) ∧
    let path := full_path name (fs (world s0)) in
    if malloc_ok s && negb (bool_decide (path = []))
       && (Z.of_nat (length path) + 1 <=? (SIZE_MAX par - 16) / 2)
       && negb (bool_decide (length (listing (pattern path) (fs (world s0))) = 0%nat))
    then err = false ∧ ∃ w' b' chars', wide_at par s0 s' a w' b' chars' (pattern path)
                         (listing (pattern path) (fs (world s0)))
    else err = true ∧ ∃ w', owns s0 s' a w') s.
Proof.
  intros Hblank Hp. pose proof (blank_same _ _ _ _ Hblank) as Hsame.
  assert (Hpath : full_path name (fs (world s)) = full_path name (fs (world s0))) by apply Hsame.
  destruct (full_path_size name (fs (world s)) 0) as (len & out & f' & HG & Hu & Hout & Hch & Hlen & _);
    [lia|].
  assert (Hlen' : len = (if bool_decide (full_path name (fs (world s)) = []) then 0
    else Z.of_nat (length (full_path name (fs (world s)))) + 1)).
  { rewrite Hlen. case_bool_decide; [done|]. by rewrite (proj2 (Z.ltb_ge _ _)) by lia. }
  assert (Hlen0 : 0 <= len) by (rewrite Hlen'; case_bool_decide; lia). clear Hlen.
  unfold open_search. wp_step. eapply wp_call_fs; [exact HG|].
  apply (blank_call _ _ _ _ f') in Hblank as Hblank1; [|done]. cbn [fst snd]. rewrite Hu.
  assert (Hpath1 : full_path name f' = full_path name (fs (world s))) by apply Hch.
  wp_step. eapply wp_get_wdir; [destruct Hblank1 as ([-> _ _ _ _] & _); by rewrite lookup_insert_eq|].
  wp_step. eapply allocate_pattern; [exact Hblank1|done|done|]. cbn.
  intros s1 Hd1 Hf1. change (malloc_ok _) with (malloc_ok s).
  destruct ((len <=? (SIZE_MAX par - 16) / 2) && malloc_ok s) eqn:Hok.
  - intros (w1 & b & Hblank2 & Hp1 & Hb1). apply andb_prop in Hok as [Hle Hm].
    wp_step. eapply wp_get_wdir; [destruct Hblank2 as ([-> _ _ _ _] & _); by rewrite lookup_insert_eq|].
    pose proof (open_pattern s0 s1 a w1 b name len) as HO. rewrite Hp1 in *. cbn [nonnull].
    eapply wp_mono; [apply HO; try done; by rewrite Hf1, Hpath1|].
    clear HO. intros err s2 [Hd2 H2]. split; [by rewrite Hd2|]. rewrite Hf1, Hpath1, Hpath in H2.
    rewrite Hm. cbn [andb]. rewrite Hpath in Hlen'. cbn zeta in H2.
    revert H2 Hlen'. case_bool_decide; intros H2 Hlen'; cbn [negb andb]; [done|].
    rewrite <-Hlen', Hle. cbn [andb]. by destruct (listing _ _).
  - intros (w1 & Hblank2 & Hp1). wp_step.
    eapply wp_get_wdir; [destruct Hblank2 as ([-> _ _ _ _] & _); by rewrite lookup_insert_eq|].
    rewrite Hp1. cbn [nonnull]. unfold set_errno. do 3 wp_step. split; [done|].
    rewrite Hpath in Hlen'. revert Hlen'. cbn zeta. case_bool_decide; intros Hlen'; cbn [negb].
    + rewrite andb_false_r. split; [done|]. exists w1. destruct Hblank2 as [[] _]. by split.
    + rewrite <-Hlen'. rewrite (andb_comm (malloc_ok s && _)), andb_assoc, Hok. cbn [andb].
      split; [done|]. exists w1. destruct Hblank2 as [[] _]. by split.
Qed.

Lemma granted_S k ms :
  granted (S k) ms = (match ms with [] => true | b :: _ => b end) && granted k (tail ms).
Proof. destruct ms as [|b ms]; [by destruct k|done]. Qed.

Context (Hpar : params_ok par).

(** A fresh stream, after its fields are reset. *)
Lemma fresh_blank s s' a :
  wdirs (world s) !! a = None →
  wdirs (world s') = <[a := WDIR (went (junk_wdir par)) (data (junk_wdir par)) 0 INVALID_HANDLE_VALUE None]>
                       (wdirs (world s)) →
  bufs (world s') = bufs (world s) → fs (world s') = fs (world s) →
  blank s s' a (WDIR (went (junk_wdir par)) (data (junk_wdir par)) 0 INVALID_HANDLE_VALUE None).
Proof using FindFileLaws0 Hpar.
  intros Ha Hw Hb Hf. split; [|split_and!; [done|done|apply (wname_length _ Hpar)]].
  split; cbn; try done. rewrite Hf. by apply same_own_invalid, same_fs_refl.
Qed.

(** [_wopendir] opens what [wide_opens] says, or leaves everything as it was. *)
Lemma wopendir_run name s :
  wp (_wopendir par (Some name)) (λ r s', dirs (world s') = dirs (world s) ∧
    match wide_opens par name (mallocs (world s)) (fs (world s)) with
    | Some p => wide_stream par s s' r p (listing p (fs (world s)))
    | None => r = None ∧ restored s s'
    end) s.
Proof using FindFileLaws0 Hpar.
  unfold wide_opens. destruct name as [|c name]; [by cbn|].
  rewrite (bool_decide_false (c :: name = [])) by done. rewrite !granted_S.
  unfold _wopendir. wp_step. apply wp_malloc_wdir.
  change (match mallocs (world s) with [] => true | b :: _ => b end) with (malloc_ok s).
  destruct (malloc_ok s); [|by cbn; wp_step].
  intros a Ha. cbn [nonnull negb andb]. wp_step. eapply wp_get_wdir; [cbn; by rewrite lookup_insert_eq|].
  wp_step. eapply wp_put_wdir; [cbn; by rewrite lookup_insert_eq|]. cbn [errno world]. wp_step.
  match goal with |- wp _ _ ?s1 => assert (Hblank : blank s s1 a
    (WDIR (went (junk_wdir par)) (data (junk_wdir par)) 0 INVALID_HANDLE_VALUE None));
    [apply fresh_blank; try done; cbn; by rewrite insert_insert_eq|] end.
  eapply wp_mono; [by eapply (open_search_run s)|]. intros err s' [Hd H]. cbn in Hd.
  change (malloc_ok _) with (match tail (mallocs (world s)) with [] => true | b :: _ => b end) in H.
  rewrite andb_true_r. cbn zeta in *.
  destruct (_ && _ && _ && _) in H |- *.
  - destruct H as (-> & w' & b' & chars' & H). wp_step. split; [done|]. by exists a, w', b', chars'.
  - destruct H as (-> & w' & Ho). wp_step. eapply wp_mono; [by eapply wclosedir_run|].
    intros r s'' (_ & Hw'' & Hb'' & Hd'' & Hf''). wp_step.
    split; [by rewrite Hd''|]. split; [done|]. split_and!; try done. by rewrite Hd''.
Qed.

(** [opendir]. *)
Lemma opendir_run dirname s :
  wp (opendir par dirname) (λ r s',
    match opens par dirname (mallocs (world s)) (fs (world s)) with
    | Some p => stream par s s' r p (listing p (fs (world s)))
    | None => r = None ∧ restored s s'
    end) s.
Proof using FindFileLaws0 Hpar.
  unfold opens. destruct dirname as [[|c name]|]; [by cbn| |by cbn].
  unfold opendir. wp_step. apply wp_malloc_dir. rewrite granted_S.
  change (match mallocs (world s) with [] => true | b :: _ => b end) with (malloc_ok s).
  pose proof (path_max _ Hpar) as HP.
  pose proof (mbstowcs_s_ok (PATH_MAX par) (c :: name) (PATH_MAX par)) as Hmb.
  destruct (mbstowcs_s (PATH_MAX par) (c :: name) (PATH_MAX par)) as [[error n] out].
  destruct Hmb as [Hout Hstr]; [lia|].
  destruct (malloc_ok s); [|by cbn; wp_step].
  intros a Ha. cbn [nonnull granted take forallb andb]. wp_step.
  destruct (Z.eqb_spec error 0) as [He|He].
  - destruct (Hstr He) as (_ & str & -> & Hz).
    rewrite (c_string_app str [] Hz).
    wp_step. apply wp_write_front; [rewrite length_replicate; lia|].
    rewrite <-app_assoc. cbn [app]. rewrite c_string_app by done.
    wp_step. wp_step. wp_step.
    match goal with |- wp _ _ ?s1 => pose proof (wopendir_run str s1) as HW end.
    eapply wp_mono; [exact HW|]. clear HW. cbn. intros r s' [Hd H].
    wp_step. eapply wp_get_dir; [by rewrite Hd, lookup_insert_eq|].
    wp_step. eapply wp_put_dir; [by rewrite Hd, lookup_insert_eq|]. wp_step.
    destruct (wide_opens par str (tail (mallocs (world s))) (fs (world s))) as [p|].
    + destruct H as (wa & w & b & chars & -> & Hat). cbn [nonnull negb]. wp_step.
      exists a. eexists. split_and!; try done.
      * cbn. by rewrite Hd, insert_insert_eq.
      * cbn. apply (name_length _ Hpar).
      * exists wa, w, b, chars. split; [done|]. destruct Hat. by split.
    + destruct H as (-> & Hw & Hd' & Hb & Hf). cbn [nonnull negb].
      wp_step. eapply wp_free_dir; [cbn; by rewrite lookup_insert_eq|]. wp_step.
      split; [done|]. split_and!; try done. cbn.
      by rewrite Hd, delete_insert_eq, delete_insert_eq, delete_id.
  - wp_step. wp_step. eapply wp_free_dir; [cbn; by rewrite lookup_insert_eq|]. wp_step.
    split; [done|]. split_and!; try done. cbn. by rewrite delete_insert_eq, delete_id.
Qed.

(** [closedir]. *)
Lemma closedir_run s0 s dirp p l :
  stream par s0 s dirp p l → wp (closedir dirp) (λ r s', r = 0 ∧ restored s0 s') s.
Proof using.
  intros (a & d & -> & Hd & Ha & Hn & wa & w & b & chars & Hw & Hat).
  unfold closedir. cbn [nonnull]. wp_step. eapply wp_get_dir; [by rewrite Hd, lookup_insert_eq|].
  wp_step. rewrite Hw. eapply wp_mono; [by eapply wclosedir_run, wide_owns|].
  intros r s' (-> & Hw' & Hb' & Hd' & Hf').
  wp_step. eapply wp_put_dir; [by rewrite Hd', Hd, lookup_insert_eq|].
  wp_step. eapply wp_free_dir; [cbn; by rewrite lookup_insert_eq|]. wp_step.
  split; [done|]. split_and!; try done. cbn.
  by rewrite Hd', Hd, delete_insert_eq, delete_insert_eq, delete_id.
Qed.

(** [rewinddir]. *)
Lemma rewinddir_run s0 s dirp p l :
  stream par s0 s dirp p l →
  wp (rewinddir dirp) (λ _ s', stream par s0 s' dirp p (listing p (fs (world s0)))) s.
Proof using.
  intros (a & d & -> & Hd & Ha & Hn & wa & w & b & chars & Hw & Hat).
  unfold rewinddir. wp_step. eapply wp_get_dir; [by rewrite Hd, lookup_insert_eq|].
  rewrite Hw. eapply wp_mono; [by eapply wrewinddir_run|].
  intros _ s' (w' & Hat' & Hd' & _). exists a, d. split_and!; try done; [by rewrite Hd'|].
  by exists wa, w', b, chars.
Qed.

(** ** Reading *)

Lemma convert_run b name s :
  Z.of_nat (length b) = PATH_MAX par →
  wp (convert_name par b name) (λ r s', s' = s ∧ Z.of_nat (length r.2) = PATH_MAX par ∧
    match converted par name with
    | Some str => r.1.1 = 0 ∧ r.1.2 = Z.of_nat (length str) + 1 ∧
                  Z.of_nat (length str) < PATH_MAX par ∧ c_string r.2 = Some str
    | None => r.1.1 ≠ 0
    end) s.
Proof using FindFileLaws0 Hpar.
  intros Hb. pose proof (path_max _ Hpar) as HP. unfold convert_name, converted.
  pose proof (wcstombs_s_ok (PATH_MAX par) name (PATH_MAX par)) as Hwc.
  destruct (wcstombs_s (PATH_MAX par) name (PATH_MAX par)) as [[error n] out].
  destruct Hwc as [Hout Hstr]; [lia|].
  wp_step. apply wp_write_front; [lia|]. wp_step. cbn [fst snd]. split; [done|].
  rewrite length_app, length_drop. split; [lia|].
  destruct (Z.eqb_spec error 0) as [He|He]; [|done].
  destruct (Hstr He) as (-> & str & -> & Hz). rewrite (c_string_app str [] Hz).
  rewrite length_app in *. cbn in *. rewrite <-app_assoc. cbn.
  rewrite c_string_app by done. split_and!; [done|lia|lia|done].
Qed.

(** The two names a file has, tried in turn. *)
Lemma names_run b d s :
  Z.of_nat (length b) = PATH_MAX par → 0 ∈ cAlternateFileName d →
  wp (r ← convert_name par b (cFileName d);
      if r.1.1 =? 0 then mret r
      else
        c ← read_at (cAlternateFileName d) 0;
        if c =? 0 then mret r else convert_name par r.2 (cAlternateFileName d))
    (λ r s', s' = s ∧ Z.of_nat (length r.2) = PATH_MAX par ∧
    match multibyte_name par d with
    | Some str => r.1.1 = 0 ∧ r.1.2 = Z.of_nat (length str) + 1 ∧
                  Z.of_nat (length str) < PATH_MAX par ∧ c_string r.2 = Some str
    | None => r.1.1 ≠ 0
    end) s.
Proof using FindFileLaws0 Hpar.
  intros Hb Halt. unfold multibyte_name. wp_step. eapply wp_mono; [by apply convert_run|].
  intros r s' (-> & Hr & H). destruct (converted par (cFileName d)) as [str|].
  - destruct H as (He & H). rewrite He. cbn. by wp_step.
  - destruct (Z.eqb_spec r.1.1 0); [done|].
    destruct (cAlternateFileName d) as [|c alt] eqn:Ealt; [by apply not_elem_of_nil in Halt|].
    wp_step. eapply wp_read_at; [lia|done|]. cbn [head].
    destruct (Z.eqb_spec c 0) as [->|Hc].
    + rewrite decide_True by done. by wp_step.
    + rewrite decide_False by congruence. by apply convert_run.
Qed.

(** [readdir] returns the next entry, or NULL at the end. *)
Lemma readdir_run s0 s dirp p l :
  stream par s0 s dirp p l →
  wp (readdir par dirp) (λ ok s', stream par s0 s' dirp p (tail l) ∧
    match l with
    | [] => ok = false
    | x :: _ => ok = true ∧ ∃ a d, dirp = Some a ∧ dirs (world s') !! a = Some d ∧
                 view (ent d) = entry_of par x
    end) s.
Proof using FindFileLaws0 Hpar.
  intros (a & d & -> & Hd & Ha & Hn & wa & w & b & chars & Hw & Hat).
  pose proof (path_max _ Hpar) as HP.
  unfold readdir. wp_step. eapply wp_get_dir; [by rewrite Hd, lookup_insert_eq|].
  wp_step. rewrite Hw. eapply wp_mono; [by eapply dirent_next_run|].
  intros ok s' (w' & Hat' & Hd' & _ & Hok).
  assert (Hst : ∀ s'' d', world s'' = set_dirs (<[a := d']> (dirs (world s'))) (world s') →
    wdirp d' = Some wa → Z.of_nat (length (d_name (ent d'))) = PATH_MAX par →
    stream par s0 s'' (Some a) p (tail l)).
  { intros s'' d' Hs'' Hw' Hlen. exists a, d'. rewrite Hs''. cbn. rewrite Hd', Hd, insert_insert_eq.
    split_and!; try done. exists wa, w', b, chars. split; [done|].
    destruct Hat'. by split; rewrite ?Hs''. }
  destruct l as [|x l].
  { subst ok. wp_step. split; [|done]. exists a, d. rewrite Hd'. split_and!; try done.
    by exists wa, w', b, chars. }
  destruct Hok as [-> Hx]. wp_step. eapply wp_get_wdir; [by rewrite (wa_wdirs _ _ _ _ _ _ _ _ _ Hat'), lookup_insert_eq|].
  rewrite Hx. apply wp_bind, wp_join. eapply wp_mono; [apply names_run; [done|]|].
  { pose proof (wa_valid _ _ _ _ _ _ _ _ _ Hat) as Hv. by apply Forall_inv in Hv as [_ ?]. }
  intros [[error n] name] s'' (-> & Hlen & H). cbn [fst snd] in *. wp_step.
  unfold entry_of. destruct (multibyte_name par x) as [str|].
  - destruct H as (-> & -> & Hstr & Hc). cbn [Z.eqb].
    eapply wp_put_dir; [by rewrite Hd', Hd, lookup_insert_eq|]. wp_step. split; [by eapply Hst|].
    split; [done|]. eexists a, _. split; [done|]. cbn. rewrite lookup_insert_eq. split; [done|].
    unfold view. cbn. rewrite Hc. rewrite u64_small by (unfold is_u64; lia).
    by replace (Z.of_nat (length str) + 1 - 1) with (Z.of_nat (length str)) by lia.
  - destruct (Z.eqb_spec error 0); [done|].
    destruct name as [|c0 [|c1 name]]; [cbn in Hlen; lia|cbn in Hlen; lia|].
    wp_step. apply wp_write_at; [cbn [length]; lia|].
    wp_step. apply wp_write_at; [rewrite length_insert; cbn [length]; lia|]. cbn.
    eapply wp_put_dir; [by rewrite Hd', Hd, lookup_insert_eq|]. wp_step. split; [by eapply Hst|].
    split; [done|]. eexists a, _. split; [done|]. cbn. by rewrite lookup_insert_eq.
Qed.

(** The loop of [_wreaddir] copies the name, or what fits of it. *)
Lemma copy_name_run k pre pre' str rest tl n s :
  0 ∉ str → length pre = n → length pre' = n → Z.of_nat (length (pre' ++ tl)) = PATH_MAX par →
  Z.of_nat n + 1 <= PATH_MAX par <= Z.of_nat (n + k) →
  wp (copy_name par k (pre ++ str ++ 0 :: rest) (pre' ++ tl) (Z.of_nat n))
    (λ r s', s' = s ∧ let str' := take (Z.to_nat (PATH_MAX par) - 1 - n) str in
      r.2 = Z.of_nat (n + length str') ∧ Z.of_nat (length r.1) = PATH_MAX par ∧
      ∃ tl', r.1 = pre' ++ str' ++ tl') s.
Proof using.
  revert pre pre' str tl n. induction k as [|k IH]; intros pre pre' str tl n Hz Hp Hp' Hlen Hk; [lia|].
  cbn [copy_name]. destruct (Z.ltb_spec (Z.of_nat n + 1) (PATH_MAX par)).
  - wp_step. destruct str as [|c str]; cbn [app].
    + eapply wp_read_at; [lia|by rewrite Nat2Z.id, <-Hp, list_lookup_middle|]. cbn [Z.eqb]. wp_step.
      split; [done|]. rewrite take_nil. cbn [fst snd length app]. split_and!; [lia|done|by exists tl].
    + apply not_elem_of_cons in Hz as [Hc Hz].
      eapply wp_read_at; [lia|by rewrite Nat2Z.id, <-Hp, list_lookup_middle|].
      destruct (Z.eqb_spec c 0); [by subst|].
      destruct tl as [|x tl]; [rewrite app_nil_r in Hlen; lia|].
      wp_step. apply wp_write_at; [lia|]. rewrite Nat2Z.id.
      replace (<[n := c]> (pre' ++ x :: tl)) with (pre' ++ c :: tl)
        by (rewrite <-Hp'; symmetry; apply insert_at_front).
      replace (pre ++ c :: str ++ 0 :: rest) with ((pre ++ [c]) ++ str ++ 0 :: rest)
        by (by rewrite <-app_assoc).
      replace (pre' ++ c :: tl) with ((pre' ++ [c]) ++ tl) by (by rewrite <-app_assoc).
      replace (Z.of_nat n + 1) with (Z.of_nat (S n)) by lia.
      eapply wp_mono; [apply IH|]; rewrite ?length_app in *; cbn [length] in *; try done; try lia.
      intros r s' (-> & Hr & Hr1 & tl' & Htl). split; [done|].
      replace (Z.to_nat (PATH_MAX par) - 1 - n)%nat with (S (Z.to_nat (PATH_MAX par) - 1 - S n)) by lia.
      cbn [take length]. split; [rewrite Hr; lia|]. split; [done|]. exists tl'.
      by rewrite Htl, <-app_assoc.
  - wp_step. split; [done|].
    replace (Z.to_nat (PATH_MAX par) - 1 - n)%nat with 0%nat by lia.
    rewrite take_0. cbn [length app fst snd]. split_and!; [lia|done|by exists tl].
Qed.

(** [_wreaddir]. *)
Lemma wreaddir_run s0 s dirp p l :
  wide_stream par s0 s dirp p l →
  wp (_wreaddir par dirp) (λ ok s', wide_stream par s0 s' dirp p (tail l) ∧
    match l with
    | [] => ok = false
    | x :: _ => ok = true ∧ ∃ a w, dirp = Some a ∧ wdirs (world s') !! a = Some w ∧
                 view (went w) = wide_entry_of par x ∧
                 Z.of_nat (length (d_name (went w))) = PATH_MAX par
    end) s.
Proof using FindFileLaws0 Hpar.
  intros (a & w & b & chars & -> & Hat). pose proof (path_max _ Hpar) as HP.
  unfold _wreaddir. wp_step. eapply wp_mono; [by eapply dirent_next_run|].
  intros ok s' (w' & Hat' & Hd' & Hwent & Hok).
  destruct l as [|x l].
  { subst ok. wp_step. split; [|done]. by exists a, w', b, chars. }
  destruct Hok as [-> Hx]. wp_step.
  pose proof (wa_wdirs _ _ _ _ _ _ _ _ _ Hat') as Hw'.
  pose proof (wa_name _ _ _ _ _ _ _ _ _ Hat') as Hname.
  eapply wp_get_wdir; [by rewrite Hw', lookup_insert_eq|]. rewrite Hx.
  pose proof (wa_valid _ _ _ _ _ _ _ _ _ Hat) as Hv. apply Forall_inv in Hv as [Hv _].
  unfold wide_entry_of. destruct (c_string_in _ Hv) as [str Hstr]. rewrite Hstr. unfold default, from_option, id.
  destruct (c_string_split _ _ Hstr) as (rest & Hsrc & Hz).
  pose proof (copy_name_run (Z.to_nat (PATH_MAX par)) [] [] str rest (d_name (went w')) 0 s' Hz
    eq_refl eq_refl) as HC. rewrite Hsrc.
  wp_step. eapply wp_mono; [apply HC; [done|lia]|]. clear HC.
  intros [name n] s'' (-> & Hn & Hlen & tl' & Hr). cbn [fst snd app] in *.
  rewrite Nat.add_0_l in Hn. subst n name. rewrite Nat.sub_0_r in *. set (str' := take (Z.to_nat (PATH_MAX par) - 1) str) in *.
  assert (Hshort : (length str' <= Z.to_nat (PATH_MAX par) - 1)%nat)
    by (subst str'; rewrite length_take; lia).
  assert (Hz' : 0 ∉ str') by (intros Hin; by apply Hz, (subseteq_take (Z.to_nat (PATH_MAX par) - 1))).
  clearbody str'. rewrite length_app in Hlen.
  destruct tl' as [|y tl']; [cbn [length] in Hlen; lia|].
  wp_step. apply wp_write_at; [rewrite length_app; cbn [length]; lia|].
  rewrite Nat2Z.id, insert_at_front.
  wp_step. eapply wp_put_wdir; [by rewrite Hw', lookup_insert_eq|]. wp_step. split.
  - exists a. this_wdir. exists b, chars. split; [done|]. destruct Hat'. split; cbn; try done.
    + by rewrite Hw', insert_insert_eq.
    + rewrite length_app. cbn [length] in *. lia.
    + unfold pending in *. cbn. by rewrite <-Hx.
  - split; [done|]. eexists a, _. split; [done|]. cbn. rewrite lookup_insert_eq. split; [done|].
    unfold view. cbn. rewrite c_string_app by done. split; [done|].
    rewrite length_app in *. cbn [length] in *. lia.
Qed.
End memory.
