(* ===== verification/DirentProperties.v ===== *)
(** The theorems of the directory streams. *)
From Stdlib Require Import ZArith Lia.
From stdpp Require Import prelude gmap.
From S2P Require Import Prelude CInt PosixWin Dirent DirentSpec DirentProof.

Local Open Scope Z_scope.

(** ** Sessions *)

Inductive dir_op := Read | Rewind.

Section session.
Context {W : Type} `{!FindFile W} (par : dirent_params).
Local Abbreviation M := (ST (sys (dworld W))).

(** What a caller sees of its calls of [readdir], between calls of [rewinddir]. *)
Fixpoint session (dirp : ptr) (ops : list dir_op) :
    M (list (option (option (list Z) * Z * d_type_code))) :=
  match ops with
  | [] => mret []
  | Read :: ops =>
      ok ← readdir par dirp;
      v ← (if ok : bool then d ← get_dir dirp; mret (Some (view (ent d))) else mret None);
      vs ← session dirp ops; mret (v :: vs)
  | Rewind :: ops => rewinddir dirp;; session dirp ops
  end.

(** A stream opened, used and closed. *)
Definition open_use_close (dirname : option (list Z)) (ops : list dir_op) :
    M (list (option (option (list Z) * Z * d_type_code)) * Z) :=
  dirp ← opendir par dirname; vs ← session dirp ops; r ← closedir dirp; mret (vs, r).

(** The same of a directory with the entries [all], of which [l] are left. *)
Fixpoint listed (all l : list find_data) (ops : list dir_op) :
    list (option (option (list Z) * Z * d_type_code)) :=
  match ops with
  | [] => []
  | Read :: ops => (entry_of par <$> head l) :: listed all (tail l) ops
  | Rewind :: ops => listed all all ops
  end.

Context `{!FindFileLaws W} (Hpar : params_ok par).

Lemma session_run s0 s dirp p l ops :
  stream par s0 s dirp p l →
  wp (session dirp ops) (λ vs s', vs = listed (listing p (fs (world s0))) l ops ∧
    ∃ l', stream par s0 s' dirp p l') s.
Proof using Hpar.
  revert s l. induction ops as [|[] ops IH]; intros s l Hs; cbn [session listed].
  - wp_step. eauto.
  - wp_step. eapply wp_mono; [by eapply (readdir_run par Hpar)|]. intros ok s1 [Hs1 Hok].
    destruct l as [|x l]; cbn [head tail fmap option_fmap option_map] in *.
    + subst ok. do 3 wp_step. eapply wp_mono; [by eapply IH|]. intros vs s2 (-> & l' & H).
      wp_step. eauto.
    + destruct Hok as (-> & a & d & -> & Hd & Hv). do 2 wp_step.
      eapply wp_get_dir; [done|]. wp_step. rewrite Hv.
      wp_step. eapply wp_mono; [by eapply IH|]. intros vs s2 (-> & l' & H). wp_step. eauto.
  - wp_step. eapply wp_mono; [by eapply rewinddir_run|]. intros [] s1 Hs1. by apply IH.
Qed.

(** ** The theorems *)

(** C24: [opendir] always runs, whatever calls of [malloc] fail.  It opens a
    stream over the entries that match [path\*] exactly when the name can be
    converted, has a full path, the three allocations succeed and the search
    finds an entry; otherwise it returns NULL and has freed all it allocated
    and closed every handle it opened. *)
Theorem opendir_opens (dirname : option (list Z)) (s : sys (dworld W)) :
  ∃ r s', opendir par dirname s = Some (r, s') ∧
    match opens par dirname (mallocs (world s)) (fs (world s)) with
    | Some p => stream par s s' r p (listing p (fs (world s)))
    | None => r = None ∧ restored s s'
    end.
Proof using FindFileLaws0 Hpar. by apply wp_elim, (opendir_run par Hpar). Qed.

(** C25: a stream that [opendir] opens gives, to any sequence of [readdir] and
    [rewinddir], the entries of the directory in order, each once, NULL after
    the last one as often as it is called, and all of them again after
    [rewinddir]; [closedir] then returns 0 and leaves the heap and the search
    handles as they were before [opendir]. *)
Theorem directory_session (dirname : option (list Z)) (ops : list dir_op) (p : list Z)
    (s : sys (dworld W)) :
  opens par dirname (mallocs (world s)) (fs (world s)) = Some p →
  let all := listing p (fs (world s)) in
  ∃ s', open_use_close dirname ops s = Some ((listed all all ops, 0), s') ∧ restored s s'.
Proof using FindFileLaws0 Hpar.
  intros Ho all. enough (H : wp (open_use_close dirname ops) (λ r s', r = (listed all all ops, 0) ∧ restored s s') s).
  { apply wp_elim in H as (r & s' & ? & -> & ?). eauto. }
  unfold open_use_close. wp_step. eapply wp_mono; [by apply (opendir_run par Hpar)|].
  intros dirp s1 H1. rewrite Ho in H1. wp_step.
  eapply wp_mono; [by eapply session_run|].
  intros vs s2 (-> & l' & H2). wp_step. eapply wp_mono; [by eapply closedir_run|].
  intros r s3 (-> & H3). by wp_step.
Qed.

(** [_wreaddir] gives the next entry of a wide-character stream: in the
    array of [PATH_MAX] characters of [d_name] it stores the longest prefix of
    the file's name that leaves room for the NUL, the NUL, and in [d_namlen]
    the length of what it stored; at the end of the stream it returns NULL. *)
Theorem wreaddir_fits (s0 s : sys (dworld W)) (dirp : ptr) (p : list Z) (l : list find_data) :
  wide_stream par s0 s dirp p l →
  ∃ ok s', _wreaddir par dirp s = Some (ok, s') ∧ wide_stream par s0 s' dirp p (tail l) ∧
    match l with
    | [] => ok = false
    | x :: _ => ok = true ∧ ∃ a w, dirp = Some a ∧ wdirs (world s') !! a = Some w ∧
                 Z.of_nat (length (d_name (went w))) = PATH_MAX par ∧
                 view (went w) = wide_entry_of par x ∧
                 0 <= d_namlen (went w) < PATH_MAX par
    end.
Proof using FindFileLaws0 Hpar.
  intros Hs. apply wp_elim. eapply wp_mono; [by apply (wreaddir_run par Hpar)|].
  intros ok s' [Hs' H]. split; [done|]. destruct l as [|x l]; [done|].
  destruct H as (-> & a & w & -> & Hw & Hv & Hlen). split; [done|]. exists a, w. split_and!; try done.
  - unfold wide_entry_of, view in Hv. injection Hv as _ -> _. lia.
  - unfold wide_entry_of, view in Hv. injection Hv as _ -> _. rewrite length_take.
    pose proof (path_max _ Hpar). lia.
Qed.
End session.

(** ** Witnesses *)

(** A file system with one directory, and its open handles. *)
Abbreviation demo := (gmap positive (list find_data)).

Definition demo_entries : list find_data :=
  [FindData [46; 0] [0] 0x10; FindData [97; 46; 99; 0; 5] [0] 0x20;
   FindData [0x263a; 0] [88; 126; 49; 0] 0x20; FindData [0x263a; 0] [0] 0x20].

Definition demo_find (h : Z) (w : demo) : option (list find_data) :=
  match h with Z.pos h => w !! h | _ => None end.

Definition demo_path (n : list Z) : list Z := [67; 58; 92] ++ filter (λ c, c ≠ 0) (take 64 n).

(** Characters of one byte are converted as they are. *)
Definition demo_convert (size : Z) (name : list Z) : Z * Z * list Z :=
  match c_string name with
  | Some str =>
      if (Z.of_nat (length str) <? size) && forallb (λ c, c <? 256) str
      then (0, Z.of_nat (length str) + 1, str ++ [0]) else (42, 0, [])
  | None => (42, 0, [])
  end.

#[global] Instance demo_file : FindFile demo := {|
  FindFirstFileW _ w :=
    let h := fresh (dom w) in (Z.pos h, FindData [46; 0] [0] 0x10, <[h := tail demo_entries]> w);
  FindNextFileW h w :=
    match demo_find h w with
    | Some (d :: ds) => (Some d, match h with Z.pos h => <[h := ds]> w | _ => w end)
    | _ => (None, w)
    end;
  FindClose h w := match h with Z.pos h => delete h w | _ => w end;
  GetFullPathNameW n k w :=
    let len := Z.of_nat (length (demo_path n)) in
    if len <? k then (len, demo_path n ++ [0], w) else (len + 1, [], w);
  wcstombs_s size name _ := demo_convert size name;
  mbstowcs_s size name _ := demo_convert size (name ++ [0])
|}.

Lemma demo_convert_ok size name :
  0 <= size →
  let '(error, n, out) := demo_convert size name in
  Z.of_nat (length out) <= size ∧
  (error = 0 → n = Z.of_nat (length out) ∧ ∃ str, out = str ++ [0] ∧ 0 ∉ str).
Proof.
  intros Hs. unfold demo_convert. destruct (c_string name) as [str|] eqn:E; [|by cbn].
  destruct (Z.ltb_spec (Z.of_nat (length str)) size); cbn [andb]; [|by cbn].
  destruct (forallb _ str); [|by cbn]. rewrite length_app. cbn [length]. split; [lia|].
  intros _. split; [lia|]. exists str. split; [done|]. by apply c_string_split in E as (? & _ & ?).
Qed.

Lemma demo_insert h ds w :
  demo_find (Z.pos h) (<[h := ds]> w) = Some ds ∧
  ∀ h', h' ≠ Z.pos h → demo_find h' (<[h := ds]> w) = demo_find h' w.
Proof.
  unfold demo_find. split; [by rewrite lookup_insert_eq|].
  intros [|h'|h'] Hh; try done. rewrite lookup_insert_ne; [done|]. intros E. by rewrite E in Hh.
Qed.

Lemma demo_delete h w :
  demo_find (Z.pos h) (delete h w) = None ∧
  ∀ h', h' ≠ Z.pos h → demo_find h' (delete h w) = demo_find h' w.
Proof.
  unfold demo_find. split; [by rewrite lookup_delete_eq|].
  intros [|h'|h'] Hh; try done. rewrite lookup_delete_ne; [done|]. intros E. by rewrite E in Hh.
Qed.

#[global] Instance demo_laws : FindFileLaws demo.
Proof.
  refine {| listing _ _ := demo_entries; remaining := demo_find; full_path n _ := demo_path n |}.
  - done.
  - intros p w. eexists _, _. split; [done|]. split; [apply not_elem_of_dom, is_fresh|].
    split; [done|]. destruct (demo_insert (fresh (dom w)) (tail demo_entries) w). by split_and!.
  - intros [|h|h] w ds Hr; try done. cbn [FindNextFileW demo_file]. rewrite Hr.
    destruct ds as [|d ds]; (eexists; split; [done|]).
    + by split_and!.
    + destruct (demo_insert h ds w). by split_and!.
  - intros [|h|h] w ds Hr; try done. destruct (demo_delete h w). by split_and!.
  - intros n k w Hk path len. exists [], w. split; [done|]. split; [done|].
    assert (len ≠ 0) by (subst len path; unfold demo_path; rewrite length_app; cbn [length]; lia).
    destruct (Z.eqb_spec len 0); [done|].
    change (GetFullPathNameW n k w) with
      (if len <? k then (len, path ++ [0], w) else (len + 1, [], w)).
    by destruct (len <? k).
  - intros n w. unfold demo_path. split.
    + rewrite length_app. cbn [length].
      pose proof (length_filter (λ c, c ≠ 0) (take 64 n)) as H1. rewrite length_take in H1. lia.
    + rewrite not_elem_of_app. split; [apply (bool_decide_unpack _); by vm_compute|].
      rewrite list_elem_of_filter. naive_solver.
  - intros p w d Hd. apply (proj1 (Forall_forall (λ d, 0 ∈ cFileName d ∧ 0 ∈ cAlternateFileName d) demo_entries)); [|done].
    apply (bool_decide_unpack _). by vm_compute.
  - intros size name k. apply demo_convert_ok.
  - intros size name k. apply demo_convert_ok.
Defined.

(** [PATH_MAX] is 8 here, so that a long name is cut. *)
Definition demo_par : dirent_params :=
  let e := Dirent 7 7 7 DT_UNKNOWN (replicate 8 65) in
  DirentParams 8 (2 ^ 64 - 1) 560 296 66 (WDIR e (FindData [] [] 0) 9 9 None) (MkDIR e None).

Lemma demo_params_ok : params_ok demo_par.
Proof. split; cbn; lia. Qed.

(** One search handle is open already; [ms] is what [malloc] will do. *)
Definition demo_state (ms : list bool) : sys (dworld demo) :=
  Sys EIO (DWorld {[3%positive := demo_entries]} ms ∅ ∅ ∅).

(** The third allocation fails: nothing is left behind. *)
Lemma opendir_opens_witness :
  params_ok demo_par ∧
  ∃ s', opendir demo_par (Some [120]) (demo_state [true; true; false]) = Some (None, s') ∧
    restored (demo_state [true; true; false]) s'.
Proof.
  split; [apply demo_params_ok|].
  destruct (opendir_opens demo_par demo_params_ok (Some [120]) (demo_state [true; true; false]))
    as (r & s' & Hr & H).
  exists s'. rewrite Hr. replace (opens _ _ _ _) with (@None (list Z)) in H by by vm_compute.
  destruct H as [-> H]. done.
Defined.

(** Three entries, again from the first, to the end and past it. *)
Lemma directory_session_witness :
  params_ok demo_par ∧
  ∃ s', open_use_close demo_par (Some [120]) [Read; Read; Rewind; Read; Read; Read; Read; Read; Read]
      (demo_state []) =
    Some (([Some (Some [46], 1, DT_DIR); Some (Some [97; 46; 99], 3, DT_REG);
            Some (Some [46], 1, DT_DIR); Some (Some [97; 46; 99], 3, DT_REG);
            Some (Some [88; 126; 49], 3, DT_REG); Some (Some [63], 1, DT_UNKNOWN); None; None], 0), s') ∧
    restored (demo_state []) s'.
Proof.
  split; [apply demo_params_ok|].
  destruct (directory_session demo_par demo_params_ok (Some [120])
    [Read; Read; Rewind; Read; Read; Read; Read; Read; Read] [67; 58; 92; 120; 92; 42] (demo_state []))
    as (s' & Hs & H); [by vm_compute|].
  exists s'. split; [|exact H]. rewrite Hs. by vm_compute.
Defined.

(** A stream of [_wopendir]. *)
Lemma demo_wide_stream :
  ∃ s r, wide_stream demo_par (demo_state []) s r [67; 58; 92; 120; 92; 42] demo_entries.
Proof.
  pose proof (wopendir_run demo_par demo_params_ok [120] (demo_state [])) as H.
  apply wp_elim in H as (r & s & _ & _ & H). exists s, r. exact H.
Qed.

Lemma wreaddir_fits_witness :
  params_ok demo_par ∧ ∃ s0 s s' r p a w, wide_stream demo_par s0 s r p demo_entries ∧
    _wreaddir demo_par r s = Some (true, s') ∧ wdirs (world s') !! a = Some w ∧
    view (went w) = (Some [46], 1, DT_DIR).
Proof.
  split; [apply demo_params_ok|]. destruct demo_wide_stream as (s & r & Hs).
  destruct (wreaddir_fits demo_par demo_params_ok _ _ _ _ _ Hs)
    as (ok & s' & Hr & _ & -> & a & w & _ & Hw & _ & Hv & _).
  exists (demo_state []), s, s', r, [67; 58; 92; 120; 92; 42], a, w. by split_and!.
Defined.
