(* ===== verification/Stdio.v ===== *)
(** [crypto/compat/getdelim.c], [getline.c], [bsd-asprintf.c] and [freezero.c]:
    reading lines and formatting into memory that grows. *)
From Stdlib Require Import ZArith Lia.
From stdpp Require Import prelude gmap.
From S2P Require Import Prelude CInt PosixWin.

Local Open Scope Z_scope.

(** ** Lines *)

(** A stream open for reading: the characters to come, whether reading past
    them is an error or the end of the file, and the end-of-file indicator. *)
Record FILE := MkFILE { chars : list Z; read_error : bool; eof : bool }.

(** [*buf] and the memory it points to, [*bufsiz], the stream, and what the next
    calls of [realloc] return: NULL for [false], memory once the list is used up. *)
Record line_state := LineState {
  buf : option (list Z);
  bufsiz : Z;
  fp : FILE;
  reallocs : list bool
}.

Section getdelim.
Context (BUFSIZ SIZE_MAX : Z) (EOVERFLOW : errno_code) (junk : Z).
Local Abbreviation M := (ST (sys line_state)).

Definition upd_line (f : line_state → line_state) : M unit :=
  modify (λ s, Sys (errno s) (f (world s))).

Definition fgetc : M Z :=
  f ← gets (λ s, fp (world s));
  match chars f with
  | c :: cs =>
      upd_line (λ s, LineState (buf s) (bufsiz s) (MkFILE cs (read_error f) (eof f)) (reallocs s));;
      mret c
  | [] =>
      upd_line (λ s, LineState (buf s) (bufsiz s)
        (MkFILE [] (read_error f) (eof f || negb (read_error f))) (reallocs s));;
      mret (-1)
  end.

Definition feof : M bool := gets (λ s, eof (fp (world s))).

(** [nbuf = realloc( *buf, nbufsiz)] and, when it is not NULL, [*buf = nbuf] and
    [*bufsiz = nbufsiz]: whether it is not NULL. *)
Definition realloc_buf (nbufsiz : Z) : M bool :=
  l ← gets (λ s, reallocs (world s));
  let ok := match l with [] => true | b :: _ => b end in
  upd_line (λ s,
    let old := default [] (buf s) in
    let n := Z.to_nat nbufsiz in
    if ok then LineState (Some (take n old ++ replicate (n - length old) junk)) nbufsiz (fp s) (tail l)
    else LineState (buf s) (bufsiz s) (fp s) (tail l));;
  mret ok.

(** [*ptr = c]; [ptr] is an offset into [*buf]. *)
Definition put_char (ptr c : Z) : M unit :=
  b ← gets (λ s, buf (world s));
  b ← of_option b;
  b ← of_option (set_char b ptr c);
  upd_line (λ s, LineState (Some b) (bufsiz s) (fp s) (reallocs s)).

(** The loop; [ptr] and [eptr] are offsets into [*buf]. *)
Fixpoint getdelim_loop (fuel : nat) (delimiter ptr eptr : Z) : M Z :=
  match fuel with
  | O => fail
  | S fuel =>
      c ← fgetc;
      if c =? -1 then
        e ← feof;
        if (e : bool) && negb (ptr =? 0) then put_char ptr 0;; mret ptr else mret (-1)
      else
        put_char ptr c;;
        let ptr := ptr + 1 in
        if c =? delimiter then put_char ptr 0;; mret ptr
        else if eptr <=? ptr + 2 then
          siz ← gets (λ s, bufsiz (world s));
          if SIZE_MAX / 2 <? siz then
            modify (λ s, Sys EOVERFLOW (world s));; mret (-1)
          else
            ok ← realloc_buf (siz * 2);
            if ok : bool then getdelim_loop fuel delimiter ptr (siz * 2) else mret (-1)
        else getdelim_loop fuel delimiter ptr eptr
  end.

(** The loop reads one character a round. *)
Definition getdelim (delimiter : Z) : M Z :=
  s ← gets world;
  ok ← (if negb (bool_decide (is_Some (buf s))) || (bufsiz s <? 2) then realloc_buf BUFSIZ
        else mret true);
  if ok : bool then
    siz ← gets (λ s, bufsiz (world s));
    getdelim_loop (S (length (chars (fp s)))) delimiter 0 siz
  else mret (-1).

(** The newline is 10. *)
Definition getline : M Z := getdelim 10.
End getdelim.

(** ** Formatted strings *)

(** Allocated blocks, what the next calls of [malloc] and [realloc] return, and
    [*str]. *)
Record heap_state := HeapState {
  blocks : gmap positive (list Z);
  allocs : list bool;
  str : ptr
}.

Section vasprintf.
(** [text]: what the format and its arguments are formatted to, if they can be. *)
Context (junk : Z) (text : option (list Z)).
Local Abbreviation M := (ST (sys heap_state)).

Definition INIT_SZ : Z := 128.

Definition upd_heap (f : heap_state → heap_state) : M unit :=
  modify (λ s, Sys (errno s) (f (world s))).

Definition alloc_succeeds : M bool :=
  l ← gets (λ s, allocs (world s));
  upd_heap (λ s, HeapState (blocks s) (tail l) (str s));;
  mret (match l with [] => true | b :: _ => b end).

Definition set_blocks (m : gmap positive (list Z)) (s : heap_state) : heap_state :=
  HeapState m (allocs s) (str s).

Definition malloc_block (n : Z) : M ptr :=
  ok ← alloc_succeeds;
  if ok : bool then
    a ← gets (λ s, fresh (dom (blocks (world s))));
    upd_heap (λ s, set_blocks (<[a := replicate (Z.to_nat n) junk]> (blocks s)) s);; mret (Some a)
  else mret None.

Definition get_block (p : ptr) : M (list Z) :=
  a ← of_option p; b ← gets (λ s, blocks (world s) !! a); of_option b.

Definition free_block (p : ptr) : M unit :=
  a ← of_option p; get_block p;; upd_heap (λ s, set_blocks (delete a (blocks s)) s).

(** A new block with the contents of the old one, which is freed. *)
Definition realloc_block (p : ptr) (n : Z) : M ptr :=
  old ← get_block p;
  ok ← alloc_succeeds;
  if ok : bool then
    a ← gets (λ s, fresh (dom (blocks (world s))));
    free_block p;;
    upd_heap (λ s, set_blocks
      (<[a := take (Z.to_nat n) old ++ replicate (Z.to_nat n - length old) junk]> (blocks s)) s);;
    mret (Some a)
  else mret None.

(** [vsnprintf(p, size, fmt, ap)] of the C library: the length of the text, of
    which as much is stored as fits with a NUL, or a negative result. *)
Definition vsnprintf (p : ptr) (size : Z) : M Z :=
  b ← get_block p;
  a ← of_option p;
  match text with
  | None => mret (-1)
  | Some t =>
      if INT_MAX <? Z.of_nat (length t) then mret (-1)
      else
        let out := take (Z.to_nat size - 1) t ++ [0] in
        if Nat.ltb (length b) (length out) then fail
        else
          upd_heap (λ s, set_blocks (<[a := out ++ drop (length out) b]> (blocks s)) s);;
          mret (Z.of_nat (length t))
  end.

Definition set_str (p : ptr) : M unit :=
  upd_heap (λ s, HeapState (blocks s) (allocs s) p).

(** [fail:] *)
Definition vasprintf_fail : M Z := set_str None;; set_errno ENOMEM;; mret (-1).

Definition vasprintf : M Z :=
  string ← malloc_block INIT_SZ;
  if nonnull string then
    ret ← vsnprintf string INIT_SZ;
    if (0 <=? ret) && (ret <? INIT_SZ) then set_str string;; mret ret
    else if (ret =? INT_MAX) || (ret <? 0) then free_block string;; vasprintf_fail
    else
      let len := ret + 1 in
      newstr ← realloc_block string len;
      if nonnull newstr then
        ret ← vsnprintf newstr len;
        if (ret <? 0) || (len <=? ret) then free_block newstr;; vasprintf_fail
        else set_str newstr;; mret ret
      else free_block string;; vasprintf_fail
  else vasprintf_fail.

Definition asprintf : M Z := set_str None;; vasprintf.

End vasprintf.

(** ** Clearing memory *)

(** [memset(p, 0, n)]: a size beyond the block is an access outside it. *)
Definition clear_block (p : ptr) (n : Z) : ST (sys heap_state) unit :=
  b ← get_block p;
  a ← of_option p;
  if Nat.ltb (length b) (Z.to_nat n) then fail
  else upd_heap (λ s, set_blocks (<[a := replicate (Z.to_nat n) 0 ++ drop (Z.to_nat n) b]> (blocks s)) s).

(** [explicit_bzero] on Windows, [explicit_bzero_win.c]. *)
Definition explicit_bzero (SecureZeroMemory : ptr → Z → ST (sys heap_state) unit) (buf : ptr) (len : Z) :
    ST (sys heap_state) unit :=
  SecureZeroMemory buf len.

(** [freezero.c], with the [explicit_bzero] of the system, and [free] an argument
    as well, since what it is given is what matters. *)
Definition freezero (explicit_bzero : ptr → Z → ST (sys heap_state) unit)
    (free : ptr → ST (sys heap_state) unit) (p : ptr) (sz : Z) : ST (sys heap_state) unit :=
  if nonnull p then explicit_bzero p sz;; free p else mret tt.
