(* ===== verification/StdioProperties.v ===== *)
(** Lines are read whole and into bounds; formatted strings are whole or nothing. *)
From Stdlib Require Import ZArith Lia.
From stdpp Require Import prelude gmap.
From S2P Require Import Prelude CInt PosixWin Stdio.

Local Open Scope Z_scope.
#[local] Arguments wp : simpl never.

(** ** Lines *)

(** The next line of a stream: up to the delimiter, or all there is. *)
Fixpoint line_of (delimiter : Z) (l : list Z) : list Z :=
  match l with
  | [] => []
  | c :: l => if c =? delimiter then [c] else c :: line_of delimiter l
  end.

(** What is left of it. *)
Definition after_line (delimiter : Z) (l : list Z) : list Z := drop (length (line_of delimiter l)) l.

(** Whether there is a line to return: one that ends with the delimiter, or one
    that the end of the file ends. *)
Definition complete (delimiter : Z) (f : FILE) : Prop :=
  delimiter ∈ chars f ∨ (chars f ≠ [] ∧ read_error f = false).

Lemma line_of_length delimiter l : (length (line_of delimiter l) <= length l)%nat.
Proof. induction l as [|c l IH]; cbn; [done|]. case_match; cbn; lia. Qed.

Section lines.
Context (BUFSIZ SIZE_MAX : Z) (EOVERFLOW : errno_code) (junk : Z).
Context (Hsizes : 2 <= BUFSIZ <= SIZE_MAX).
Local Abbreviation state := (sys line_state).

(** [*bufsiz] is no larger than the memory [*buf] points to. *)
Definition buf_ok (s : state) : Prop :=
  0 <= bufsiz (world s) <= SIZE_MAX ∧
  match buf (world s) with Some b => bufsiz (world s) <= Z.of_nat (length b) | None => True end.

(** The buffer holds the characters read so far, and has room for one more and a NUL. *)
Definition reading (s : state) (got : list Z) (eptr : Z) : Prop :=
  bufsiz (world s) = eptr ∧ eptr <= SIZE_MAX ∧ Z.of_nat (length got) + 1 < eptr ∧
  ∃ tail, buf (world s) = Some (got ++ tail) ∧ eptr <= Z.of_nat (length (got ++ tail)).

Lemma insert_after (got : list Z) x c tail :
  <[Z.to_nat (Z.of_nat (length got)) := c]> (got ++ x :: tail) = (got ++ [c]) ++ tail.
Proof.
  rewrite Nat2Z.id, <-(Nat.add_0_r (length got)), insert_app_r. by rewrite <-app_assoc.
Qed.

(** A character is stored after those read so far. *)
Lemma put_char_run s got eptr c (Q : unit → state → Prop) :
  bufsiz (world s) = eptr →
  (∃ tail, buf (world s) = Some (got ++ tail) ∧ eptr <= Z.of_nat (length (got ++ tail))) →
  Z.of_nat (length got) < eptr →
  (∀ s', chars (fp (world s')) = chars (fp (world s)) → fp (world s') = fp (world s) →
    reallocs (world s') = reallocs (world s) → bufsiz (world s') = eptr →
    (∃ tail, buf (world s') = Some ((got ++ [c]) ++ tail) ∧
       eptr <= Z.of_nat (length ((got ++ [c]) ++ tail))) → Q tt s') →
  wp (put_char (Z.of_nat (length got)) c) Q s.
Proof.
  intros Hsz (tail & Hb & Hl) Hg HQ. unfold put_char. do 2 wp_step. rewrite Hb.
  wp_step. wp_step. wp_step. rewrite length_app in Hl.
  rewrite set_char_run by (rewrite length_app; lia).
  destruct tail as [|x tail]; [cbn in Hl; lia|]. rewrite insert_after.
  wp_step. unfold upd_line. wp_step. apply HQ; try done. cbn.
  exists tail. split; [done|]. rewrite !length_app in *. cbn [length] in *. lia.
Qed.

(** The buffer grows: what was read is kept. *)
Lemma realloc_run s got old n (Q : bool → state → Prop) :
  default [] (buf (world s)) = got ++ old → Z.of_nat (length got) <= n →
  (∀ s', fp (world s') = fp (world s) → bufsiz (world s') = n →
    reallocs (world s') = tail (reallocs (world s)) →
    (∃ rest, buf (world s') = Some (got ++ rest) ∧ n <= Z.of_nat (length (got ++ rest))) → Q true s') →
  (false ∈ reallocs (world s) → ∀ s', buf (world s') = buf (world s) →
    bufsiz (world s') = bufsiz (world s) → Q false s') →
  wp (realloc_buf junk n) Q s.
Proof.
  intros Hold Hn Htrue Hfalse. unfold realloc_buf. wp_step. wp_step.
  destruct (reallocs (world s)) as [|[|] l] eqn:Hl.
  all: unfold upd_line; do 2 wp_step; wp_step.
  all: try (apply Hfalse; [rewrite elem_of_cons; by left|done|done]).
  all: apply Htrue; try done; cbn; rewrite Hold.
  all: rewrite take_app_ge, <-app_assoc by lia.
  all: eexists; split; [done|]; rewrite app_assoc, !length_app, length_replicate, length_take.
  all: lia.
Qed.

(** What a call that has read [got] makes of the rest of the stream. *)
Definition reads (delimiter : Z) (s : state) (got : list Z) (r : Z) (s' : state) : Prop :=
  let line := got ++ line_of delimiter (chars (fp (world s))) in
  buf_ok s' ∧
  ((r = -1 ∧
    (¬ (delimiter ∈ chars (fp (world s)) ∨ (line ≠ [] ∧ read_error (fp (world s)) = false)) ∨
     false ∈ reallocs (world s) ∨ SIZE_MAX / 2 < Z.of_nat (length line) + 2)) ∨
   (r = Z.of_nat (length line) ∧ line ≠ [] ∧
    (∃ rest, buf (world s') = Some (line ++ 0 :: rest)) ∧
    chars (fp (world s')) = after_line delimiter (chars (fp (world s))) ∧
    (delimiter ∈ chars (fp (world s)) ∨ eof (fp (world s')) = true))).

Lemma after_line_cons delimiter c l : c ≠ delimiter → after_line delimiter (c :: l) = after_line delimiter l.
Proof. intros Hc. unfold after_line. cbn. by destruct (Z.eqb_spec c delimiter). Qed.

(** One character is read that does not end the line. *)
Lemma reads_cons delimiter s s1 got c r s' :
  chars (fp (world s)) = c :: chars (fp (world s1)) → c ≠ delimiter →
  read_error (fp (world s1)) = read_error (fp (world s)) →
  (∀ b, b ∈ reallocs (world s1) → b ∈ reallocs (world s)) →
  reads delimiter s1 (got ++ [c]) r s' → reads delimiter s got r s'.
Proof.
  intros Hc Hne He Hr [Hok H]. unfold reads. rewrite Hc. cbn [line_of].
  destruct (Z.eqb_spec c delimiter); [done|]. rewrite after_line_cons by done.
  rewrite <-app_assoc, He in H. cbn [app] in H.
  assert (Hin : delimiter ∈ c :: chars (fp (world s1)) ↔ delimiter ∈ chars (fp (world s1))).
  { rewrite elem_of_cons. naive_solver. }
  split; [done|]. destruct H as [(Hm & H)|H]; [left|right].
  - split; [done|]. rewrite Hin. destruct H as [?|[?|?]]; auto.
  - rewrite Hin. destruct H as (? & ? & ? & ? & ?). split_and!; try done.
Qed.

Lemma reads_mono delimiter s s1 got r s' :
  fp (world s1) = fp (world s) → (∀ b, b ∈ reallocs (world s1) → b ∈ reallocs (world s)) →
  reads delimiter s1 got r s' → reads delimiter s got r s'.
Proof. unfold reads. intros -> Hre [Hok [(Hr & [?|[?|?]])|H]]; split; auto 6. Qed.

Lemma reading_ok s got eptr s' :
  reading s got eptr → buf (world s') = buf (world s) → bufsiz (world s') = eptr → buf_ok s'.
Proof.
  intros (Hsz & Hmax & Hroom & tail & Hb & Hl) Hb' Hs'. unfold buf_ok. rewrite Hb', Hs', Hb. lia.
Qed.

(** The end of the stream. *)
Lemma eof_run s got eptr delimiter f :
  reading s got eptr → chars (fp (world s)) = [] →
  f = MkFILE [] (read_error (fp (world s))) (eof (fp (world s)) || negb (read_error (fp (world s)))) →
  wp (e ← feof; if (e : bool) && negb (Z.of_nat (length got) =? 0)
                then put_char (Z.of_nat (length got)) 0;; mret (Z.of_nat (length got)) else mret (-1))
    (reads delimiter s got)
    (Sys (errno s) (LineState (buf (world s)) (bufsiz (world s)) f (reallocs (world s)))).
Proof using Hsizes.
  intros Hread Hcs Hf. pose proof Hread as (Hsz & Hmax & Hroom & Hbuf).
  assert (Hline : got ++ line_of delimiter [] = got) by (cbn; apply app_nil_r).
  wp_step. unfold feof. wp_step. cbn [world fp eof]. destruct (eof f) eqn:He; cbn [andb].
  - destruct (Z.eqb_spec (Z.of_nat (length got)) 0) as [H0|H0]; cbn [negb].
    + wp_step. split; [by eapply reading_ok|]. left. split; [done|]. left.
      rewrite Hcs, Hline. destruct got; [|cbn in H0; lia].
      by intros [?%not_elem_of_nil|[? _]].
    + wp_step. eapply put_char_run; [done|done|cbn; lia|].
      intros s' Hch Hfp _ Hsz' (tail & Hb' & Hl'). cbn in Hsz', Hl', Hfp.
      wp_step. split; [unfold buf_ok; rewrite Hb', Hsz'; lia|]. right.
      rewrite Hcs, Hline, Hch, Hfp. subst f. split_and!; try done.
      * by destruct got.
      * exists tail. by rewrite Hb', <-app_assoc.
      * by right.
  - wp_step. split; [by eapply reading_ok|]. left. split; [done|]. left.
    rewrite Hcs. subst f. apply orb_false_iff in He as [_ He].
    intros [?%not_elem_of_nil|[_ ?]]; [done|]. by destruct (read_error _).
Qed.

(** A buffer that is full grows before the loop goes on. *)
Lemma grow_run s got eptr delimiter (k : Z → ST state Z) :
  bufsiz (world s) = eptr → Z.of_nat (length got) < eptr <= Z.of_nat (length got) + 2 →
  2 <= eptr <= SIZE_MAX →
  (∃ tail, buf (world s) = Some (got ++ tail) ∧ eptr <= Z.of_nat (length (got ++ tail))) →
  (∀ s2, reading s2 got (eptr * 2) → fp (world s2) = fp (world s) →
    wp (k (eptr * 2)) (reads delimiter s2 got) s2) →
  wp (siz ← gets (λ s, bufsiz (world s));
      if SIZE_MAX / 2 <? siz then modify (λ s, Sys EOVERFLOW (world s));; mret (-1)
      else ok ← realloc_buf junk (siz * 2); if ok : bool then k (siz * 2) else mret (-1))
    (reads delimiter s got) s.
Proof using Hsizes.
  intros Hsz Hg He (tail & Hb & Hl) Hk. do 2 wp_step. rewrite Hsz.
  destruct (Z.ltb_spec (SIZE_MAX / 2) eptr).
  - do 3 wp_step. split; [unfold buf_ok; cbn; rewrite Hb, Hsz; lia|].
    left. split; [done|]. right. right. rewrite length_app. lia.
  - assert (Hle : eptr * 2 <= SIZE_MAX) by (pose proof (Z.div_mod SIZE_MAX 2);
      pose proof (Z.mod_pos_bound SIZE_MAX 2); lia).
    wp_step. apply (realloc_run _ got tail); [by rewrite Hb|lia|..].
    + intros s2 Hfp2 Hsz2 Hre2 Hb2. cbn iota.
      eapply wp_mono; [apply Hk; [split_and!; try done; lia|done]|].
      intros r s'. apply reads_mono; [done|]. rewrite Hre2. intros b Hb'.
      destruct (reallocs (world s)); [done|]. rewrite elem_of_cons. by right.
    + intros Hfail s2 Hb2 Hsz2. wp_step.
      split; [unfold buf_ok; rewrite Hb2, Hb, Hsz2, Hsz; lia|]. left. split; [done|]. by right; left.
Qed.

Lemma loop_run fuel s got eptr delimiter :
  reading s got eptr → (length (chars (fp (world s))) < fuel)%nat →
  Forall (λ c, 0 <= c) (chars (fp (world s))) →
  wp (getdelim_loop SIZE_MAX EOVERFLOW junk fuel delimiter (Z.of_nat (length got)) eptr)
    (reads delimiter s got) s.
Proof using Hsizes.
  revert s got eptr. induction fuel as [|fuel IH]; intros s got eptr Hread Hf Hpos; [lia|].
  pose proof Hread as (Hsz & Hmax & Hroom & Hbuf).
  cbn [getdelim_loop]. wp_step. unfold fgetc. do 2 wp_step.
  destruct (chars (fp (world s))) as [|c cs] eqn:Hcs; wp_step; unfold upd_line; do 2 wp_step.
  - change (-1 =? -1) with true. cbn iota. by eapply eof_run.
  - inversion Hpos as [|? ? Hc Hcs']; subst. cbn [length] in Hf.
    destruct (Z.eqb_spec c (-1)); [lia|].
    wp_step. eapply put_char_run; [done|done|cbn; lia|].
    intros s1 Hch1 Hfp1 Hre1 Hsz1 Hb1.
    cbn [world fp chars read_error reallocs bufsiz buf eof] in *.
    replace (Z.of_nat (length got) + 1) with (Z.of_nat (length (got ++ [c])))
      by (rewrite length_app; cbn; lia).
    assert (Hlen : Z.of_nat (length (got ++ [c])) = Z.of_nat (length got) + 1)
      by (rewrite length_app; cbn [length]; lia).
    destruct (Z.eqb_spec c delimiter) as [->|Hd].
    + wp_step. eapply put_char_run; [done|done|lia|].
      intros s2 Hch2 Hfp2 _ Hsz2 (tail & Hb2 & Hl2). wp_step.
      split; [unfold buf_ok; rewrite Hb2, Hsz2; lia|]. right.
      rewrite Hcs. cbn [line_of]. rewrite Z.eqb_refl, elem_of_cons, Hch2, Hch1.
      split_and!; try done; [by destruct got| |by unfold after_line; cbn; rewrite Z.eqb_refl|by left; left].
      exists tail. by rewrite Hb2, <-app_assoc.
    + eapply wp_mono; [|intros r s' Hr; apply (reads_cons _ s s1 got c); rewrite ?Hch1, ?Hfp1, ?Hre1;
        try done; exact Hr].
      destruct (Z.leb_spec (bufsiz (world s)) (Z.of_nat (length (got ++ [c])) + 2)).
      * apply (grow_run s1 _ (bufsiz (world s)) _
          (getdelim_loop SIZE_MAX EOVERFLOW junk fuel delimiter _)); [done|lia|lia|done|].
        intros s2 Hread2 Hfp2. apply IH; rewrite ?Hfp2, ?Hch1; [done|lia|done].
      * apply IH; rewrite ?Hch1; [|lia|done]. split_and!; try done; lia.
Qed.
(** A call without a buffer to use begins with a new one. *)
Lemma new_buffer_run fuel s delimiter :
  buf_ok s → (length (chars (fp (world s))) < fuel)%nat →
  Forall (λ c, 0 <= c) (chars (fp (world s))) →
  wp (ok ← realloc_buf junk BUFSIZ;
      if ok : bool then
        siz ← gets (λ s, bufsiz (world s));
        getdelim_loop SIZE_MAX EOVERFLOW junk fuel delimiter 0 siz
      else mret (-1)) (reads delimiter s []) s.
Proof using Hsizes.
  intros Hok Hf Hpos. wp_step.
  apply (realloc_run _ [] (default [] (buf (world s)))); [done|cbn; lia|..].
  - intros s1 Hfp1 Hsz1 Hre1 Hb1. do 2 wp_step. rewrite Hsz1.
    eapply wp_mono; [apply (loop_run _ s1 []); rewrite ?Hfp1; [|done|done]|].
    + split_and!; try done; cbn; lia.
    + intros r s'. apply reads_mono; [done|]. rewrite Hre1. intros x Hx.
      destruct (reallocs (world s)); [done|]. rewrite elem_of_cons. by right.
  - intros Hfail s1 Hb1 Hsz1. wp_step. split; [unfold buf_ok in *; by rewrite Hb1, Hsz1|].
    left. split; [done|]. by right; left.
Qed.

(** C37: from a buffer that is as large as [*bufsiz] says, or none, [getdelim]
    always returns, and leaves such a buffer.  It returns -1 only at the end of
    the stream, on a read error, when [realloc] fails or when the line is too
    long to double the buffer for; otherwise it returns the length of the line
    up to and with the first delimiter, or up to the end of the file, the buffer
    holds exactly that line and a NUL, and the stream is behind it. *)
Theorem getdelim_reads_line (delimiter : Z) (s : state) :
  buf_ok s → Forall (λ c, 0 <= c) (chars (fp (world s))) →
  let line := line_of delimiter (chars (fp (world s))) in
  ∃ r s', getdelim BUFSIZ SIZE_MAX EOVERFLOW junk delimiter s = Some (r, s') ∧ buf_ok s' ∧
    ((r = -1 ∧
      (¬ (delimiter ∈ chars (fp (world s)) ∨ (line ≠ [] ∧ read_error (fp (world s)) = false)) ∨
       false ∈ reallocs (world s) ∨ SIZE_MAX / 2 < Z.of_nat (length line) + 2)) ∨
     (r = Z.of_nat (length line) ∧ line ≠ [] ∧
      (∃ rest, buf (world s') = Some (line ++ 0 :: rest)) ∧
      chars (fp (world s')) = after_line delimiter (chars (fp (world s))) ∧
      (delimiter ∈ chars (fp (world s)) ∨ eof (fp (world s')) = true))).
Proof using Hsizes.
  intros Hok Hpos line. apply wp_elim. change (wp (getdelim BUFSIZ SIZE_MAX EOVERFLOW junk delimiter)
    (reads delimiter s []) s).
  unfold getdelim. do 2 wp_step.
  destruct (negb (bool_decide (is_Some (buf (world s)))) || (bufsiz (world s) <? 2))%bool eqn:Hc.
  - apply new_buffer_run; [done|lia|done].
  - apply orb_false_iff in Hc as [Hb Hsz]. apply negb_false_iff, bool_decide_eq_true in Hb as [b Hb].
    apply Z.ltb_ge in Hsz. do 3 wp_step. wp_step. apply (loop_run _ s []); [|lia|done].
    destruct Hok as [Hok Hl]. rewrite Hb in Hl. split_and!; try done; [lia|cbn; lia|by exists b].
Qed.
End lines.

(** A line longer than the buffer of four characters, ended by the end of the
    file. *)
Lemma getdelim_reads_line_witness :
  let s := Sys EIO (LineState None 0 (MkFILE [97; 98; 99; 100; 101] false false) []) in
  buf_ok (2 ^ 64 - 1) s ∧
  ∃ s', getdelim 4 (2 ^ 64 - 1) EFBIG 66 10 s = Some (5, s') ∧
    ∃ rest, buf (world s') = Some ([97; 98; 99; 100; 101; 0] ++ rest).
Proof.
  intros s. assert (Hok : buf_ok (2 ^ 64 - 1) s) by (split; cbn; [lia|done]). split; [done|].
  destruct (getdelim_reads_line 4 (2 ^ 64 - 1) EFBIG 66 ltac:(lia) 10 s Hok) as (r & s' & Hr & _ & H).
  { apply (bool_decide_unpack _). by vm_compute. }
  exists s'. destruct H as [(_ & [H|[H|H]])|(-> & _ & (rest & Hrest) & _)].
  - exfalso. apply H. by right.
  - by apply not_elem_of_nil in H.
  - by vm_compute in H.
  - split; [done|]. by exists rest.
Defined.

(** ** Formatted strings *)

Section formatted.
Context (junk : Z) (text : option (list Z)).
Local Abbreviation state := (sys heap_state).

(** The text that [vasprintf] returns: it can be formatted, its length is below
    [INT_MAX], and the one or two allocations succeed. *)
Definition formats (ms : list bool) : option (list Z) :=
  match text with
  | Some t =>
      if (Z.of_nat (length t) <? INT_MAX) && default true (head ms)
         && ((Z.of_nat (length t) <? INIT_SZ) || default true (head (tail ms)))
      then Some t else None
  | None => None
  end.

Lemma alloc_run (Q : bool → state → Prop) s :
  Q (default true (head (allocs (world s))))
    (Sys (errno s) (HeapState (blocks (world s)) (tail (allocs (world s))) (str (world s)))) →
  wp alloc_succeeds Q s.
Proof.
  intros HQ. unfold alloc_succeeds. do 2 wp_step. wp_step. unfold upd_heap. do 2 wp_step.
  by destruct (allocs (world s)).
Qed.

Lemma malloc_block_run n (Q : ptr → state → Prop) s :
  (if default true (head (allocs (world s))) then ∀ a, blocks (world s) !! a = None →
     Q (Some a) (Sys (errno s) (HeapState (<[a := replicate (Z.to_nat n) junk]> (blocks (world s)))
       (tail (allocs (world s))) (str (world s))))
   else Q None (Sys (errno s) (HeapState (blocks (world s)) (tail (allocs (world s))) (str (world s))))) →
  wp (malloc_block junk n) Q s.
Proof.
  intros H. unfold malloc_block. wp_step. apply alloc_run.
  destruct (default true (head (allocs (world s)))); [|by wp_step].
  do 2 wp_step. wp_step. unfold upd_heap. do 2 wp_step. apply H, not_elem_of_dom, is_fresh.
Qed.

Lemma get_block_run a b (Q : list Z → state → Prop) s :
  blocks (world s) !! a = Some b → Q b s → wp (get_block (Some a)) Q s.
Proof.
  intros Hb HQ. unfold get_block. wp_step. wp_step. do 2 wp_step. rewrite Hb. exact HQ.
Qed.

Lemma free_block_run a b (Q : unit → state → Prop) s :
  blocks (world s) !! a = Some b →
  Q tt (Sys (errno s) (set_blocks (delete a (blocks (world s))) (world s))) →
  wp (free_block (Some a)) Q s.
Proof.
  intros Hb HQ. unfold free_block. wp_step. wp_step. wp_step.
  eapply get_block_run; [done|]. unfold upd_heap. by wp_step.
Qed.

Lemma realloc_block_run a b n (Q : ptr → state → Prop) s :
  blocks (world s) !! a = Some b →
  (if default true (head (allocs (world s))) then ∀ a', blocks (world s) !! a' = None →
     Q (Some a') (Sys (errno s) (HeapState
       (<[a' := take (Z.to_nat n) b ++ replicate (Z.to_nat n - length b) junk]>
         (delete a (blocks (world s)))) (tail (allocs (world s))) (str (world s))))
   else Q None (Sys (errno s) (HeapState (blocks (world s)) (tail (allocs (world s))) (str (world s))))) →
  wp (realloc_block junk (Some a) n) Q s.
Proof.
  intros Hb H. unfold realloc_block. wp_step. eapply get_block_run; [done|]. wp_step. apply alloc_run.
  destruct (default true (head (allocs (world s)))); [|by wp_step].
  do 2 wp_step. wp_step. eapply free_block_run; [done|]. wp_step. unfold upd_heap. do 2 wp_step.
  apply H, not_elem_of_dom, is_fresh.
Qed.

(** Text that cannot be formatted, and text of which all that fits is stored. *)
Lemma vsnprintf_fails a b size (Q : Z → state → Prop) s :
  blocks (world s) !! a = Some b →
  match text with Some t => INT_MAX < Z.of_nat (length t) | None => True end →
  Q (-1) s → wp (vsnprintf text (Some a) size) Q s.
Proof.
  intros Hb Ht HQ. unfold vsnprintf. wp_step. eapply get_block_run; [done|].
  wp_step. wp_step. destruct text as [t|]; [|by wp_step].
  destruct (Z.ltb_spec INT_MAX (Z.of_nat (length t))); [by wp_step|lia].
Qed.

Lemma vsnprintf_run a b size t (Q : Z → state → Prop) s :
  text = Some t → Z.of_nat (length t) <= INT_MAX → 0 < size <= Z.of_nat (length b) →
  blocks (world s) !! a = Some b →
  (∀ b', length b' = length b → (Z.of_nat (length t) < size → ∃ rest, b' = t ++ 0 :: rest) →
    Q (Z.of_nat (length t)) (Sys (errno s) (set_blocks (<[a := b']> (blocks (world s))) (world s)))) →
  wp (vsnprintf text (Some a) size) Q s.
Proof.
  intros Ht Hlen Hsz Hb HQ. unfold vsnprintf. wp_step. eapply get_block_run; [done|].
  wp_step. wp_step. rewrite Ht.
  destruct (Z.ltb_spec INT_MAX (Z.of_nat (length t))); [lia|].
  destruct (Nat.ltb_spec (length b) (length (take (Z.to_nat size - 1) t ++ [0]))) as [Hb'|Hb'].
  { rewrite length_app, length_take in Hb'. cbn [length] in Hb'. lia. }
  wp_step. unfold upd_heap. do 2 wp_step. apply HQ.
  - rewrite length_app, length_drop. lia.
  - intros Ht'. rewrite take_ge, <-app_assoc by lia. eauto.
Qed.

(** [free(p); goto fail]. *)
Lemma free_fail_run a b m (s : state) (R : Z → state → Prop) :
  m !! a = None → blocks (world s) = <[a := b]> m →
  (∀ s', blocks (world s') = m → str (world s') = None → errno s' = ENOMEM → R (-1) s') →
  wp (free_block (Some a);; vasprintf_fail) R s.
Proof.
  intros Ha Hb HR. wp_step. eapply free_block_run; [by rewrite Hb, lookup_insert_eq|].
  unfold vasprintf_fail, set_str, upd_heap, set_errno. do 5 wp_step.
  apply HR; [|done|done]. cbn. by rewrite Hb, delete_insert_eq, delete_id.
Qed.

(** The text does not fit into the first block. *)
Lemma second_try_run a b m t (s : state) (R : Z → state → Prop) :
  text = Some t → INIT_SZ <= Z.of_nat (length t) < INT_MAX → length b = Z.to_nat INIT_SZ →
  m !! a = None → blocks (world s) = <[a := b]> m →
  (if default true (head (allocs (world s))) then
     ∀ s' a' rest, m !! a' = None → blocks (world s') = <[a' := t ++ 0 :: rest]> m →
       str (world s') = Some a' → R (Z.of_nat (length t)) s'
   else ∀ s', blocks (world s') = m → str (world s') = None → errno s' = ENOMEM → R (-1) s') →
  wp (newstr ← realloc_block junk (Some a) (Z.of_nat (length t) + 1);
      if nonnull newstr then
        ret ← vsnprintf text newstr (Z.of_nat (length t) + 1);
        if (ret <? 0) || (Z.of_nat (length t) + 1 <=? ret) then free_block newstr;; vasprintf_fail
        else set_str newstr;; mret ret
      else free_block (Some a);; vasprintf_fail) R s.
Proof.
  intros Ht Hlen Hb Ha Hm HR. wp_step. eapply realloc_block_run; [by rewrite Hm, lookup_insert_eq|].
  destruct (default true (head (allocs (world s)))); cbn [nonnull].
  - intros a' Ha'. rewrite Hm in Ha'. apply lookup_insert_None in Ha' as [Ha' Hne].
    unfold INIT_SZ in *. wp_step.
    eapply vsnprintf_run; [done|lia| |cbn; by rewrite lookup_insert_eq|].
    { rewrite length_app, length_take, length_replicate. lia. }
    intros b' _ Hb'. destruct Hb' as [rest ->]; [lia|].
    destruct (Z.ltb_spec (Z.of_nat (length t)) 0); [lia|].
    destruct (Z.leb_spec (Z.of_nat (length t) + 1) (Z.of_nat (length t))); [lia|]. cbn [orb].
    unfold set_str, upd_heap. do 3 wp_step. eapply HR; [done| |done]. cbn.
    by rewrite Hm, insert_insert_eq, delete_insert_eq, (delete_id m).
  - eapply free_fail_run; [done|cbn; exact Hm|done].
Qed.

(** [vasprintf] returns the whole text with its length in a block of its own, or
    -1, [ENOMEM] and NULL with every block as it was. *)
Theorem vasprintf_whole_or_nothing (s : state) :
  wp (vasprintf junk text) (λ r s',
    match formats (allocs (world s)) with
    | Some t => r = Z.of_nat (length t) ∧ ∃ a rest, blocks (world s) !! a = None ∧
        blocks (world s') = <[a := t ++ 0 :: rest]> (blocks (world s)) ∧ str (world s') = Some a
    | None => r = -1 ∧ blocks (world s') = blocks (world s) ∧ str (world s') = None ∧
        errno s' = ENOMEM
    end) s.
Proof.
  pose proof (eq_refl (formats (allocs (world s)))) as HF.
  set (F := formats (allocs (world s))) in HF at 1 |- *. clearbody F. unfold formats in HF.
  unfold vasprintf. wp_step. apply malloc_block_run.
  destruct (default true (head (allocs (world s)))).
  2: { assert (F = None) as -> by (rewrite HF; destruct text as [t|]; [by rewrite andb_false_r|done]).
    cbn [nonnull]. unfold vasprintf_fail, set_str, upd_heap, set_errno. do 5 wp_step. by split_and!. }
  intros a Ha. cbn [nonnull]. wp_step.
  assert (Hc : text = None ∨ ∃ t, text = Some t) by (destruct text; eauto).
  destruct Hc as [Ht|[t Ht]]; rewrite Ht in HF; rewrite ?andb_true_r in HF.
  { eapply vsnprintf_fails; [cbn; by rewrite lookup_insert_eq|by rewrite Ht|].
    change ((0 <=? -1) && (-1 <? INIT_SZ))%bool with false. cbn iota.
    eapply free_fail_run; [exact Ha|done|]. intros. subst F. by split_and!. }
  destruct (Z.ltb_spec (Z.of_nat (length t)) INT_MAX) as [Hmax|Hmax]; cbn [andb] in HF.
  2: { destruct (Z.eqb_spec (Z.of_nat (length t)) INT_MAX) as [He|He].
    - eapply vsnprintf_run; [exact Ht|lia| |cbn; by rewrite lookup_insert_eq|].
      { by rewrite length_replicate. }
      intros b _ _. rewrite He. change ((0 <=? INT_MAX) && (INT_MAX <? INIT_SZ))%bool with false.
      rewrite Z.eqb_refl. cbn [orb].
      eapply free_fail_run; [exact Ha|cbn; by rewrite insert_insert_eq|]. intros. subst F. by split_and!.
    - eapply vsnprintf_fails; [cbn; by rewrite lookup_insert_eq|rewrite Ht; cbn iota; lia|].
      change ((0 <=? -1) && (-1 <? INIT_SZ))%bool with false. cbn iota.
      eapply free_fail_run; [exact Ha|done|]. intros. subst F. by split_and!. }
  eapply vsnprintf_run; [exact Ht|lia| |cbn; by rewrite lookup_insert_eq|].
  { by rewrite length_replicate. }
  intros b Hb Hfit. rewrite length_replicate in Hb.
  rewrite (proj2 (Z.leb_le 0 (Z.of_nat (length t)))) by lia.
  destruct (Z.ltb_spec (Z.of_nat (length t)) INIT_SZ) as [Hs|Hs]; cbn [andb orb] in *.
  - destruct (Hfit Hs) as [rest ->]. unfold set_str, upd_heap. do 3 wp_step. subst F.
    split; [done|]. exists a, rest. cbn. by rewrite insert_insert_eq.
  - destruct (Z.eqb_spec (Z.of_nat (length t)) INT_MAX); [lia|].
    destruct (Z.ltb_spec (Z.of_nat (length t)) 0); [lia|]. cbn [orb].
    eapply (second_try_run a b (blocks (world s)) t); [exact Ht|lia|done|exact Ha
      |cbn; by rewrite insert_insert_eq|].
    cbn. destruct (default true (head (tail (allocs (world s))))); subst F.
    + intros s' a' rest ???. eauto 6.
    + by intros; split_and!.
Qed.
End formatted.

(** ** Clearing memory *)

(** Memory is given back to the allocator with its first [n] bytes zero and the
    others as they were, on Windows as elsewhere, and nothing else is written;
    for NULL nothing is done. *)
Theorem freezero_clears (free : ptr → ST (sys heap_state) unit) (s : sys heap_state) a b n :
  blocks (world s) !! a = Some b → 0 <= n <= Z.of_nat (length b) →
  freezero (explicit_bzero clear_block) free (Some a) n s =
    free (Some a) (Sys (errno s) (set_blocks
      (<[a := replicate (Z.to_nat n) 0 ++ drop (Z.to_nat n) b]> (blocks (world s))) (world s))) ∧
  freezero clear_block free (Some a) n s = freezero (explicit_bzero clear_block) free (Some a) n s ∧
  freezero clear_block free None n s = Some (tt, s).
Proof.
  intros Hb Hn. split_and!; [|done|done].
  unfold freezero, explicit_bzero. cbn [nonnull]. erewrite bind_run; [done|].
  unfold clear_block, get_block, mbind, ST_bind, gets. cbn -[Nat.ltb]. rewrite Hb. cbn -[Nat.ltb].
  by rewrite (proj2 (Nat.ltb_ge _ _)) by lia.
Qed.

Lemma freezero_clears_witness :
  let s := Sys ENOMEM (HeapState {[1%positive := [7; 8; 9]]} [] None) in
  ∃ s', freezero (explicit_bzero clear_block) (λ _, mret tt) (Some 1%positive) 2 s = Some (tt, s') ∧
    blocks (world s') !! 1%positive = Some [0; 0; 9].
Proof.
  intros s.
  destruct (freezero_clears (λ _, mret tt) s 1%positive [7; 8; 9] 2) as [E _];
    [done|cbn; lia|].
  eexists. split; [exact E|]. by vm_compute.
Defined.
