(* ===== verification/Endian.v ===== *)
(** [include/compat/endian.h]: byte orders on AIX, Windows, macOS and Solaris.  An
    integer in memory is the list of its bytes. *)
From Stdlib Require Import ZArith Lia.
From stdpp Require Import prelude.
From S2P Require Import Prelude CInt.

Local Open Scope Z_scope.

#[local] Infix "|c|" := Z.lor (at level 50, left associativity) : c_scope.
Local Open Scope c_scope.

(** ** Memory *)

Inductive order := LITTLE_ENDIAN | BIG_ENDIAN.

(** Byte [i] of an integer, [(unsigned char)(x >> 8 * i)]. *)
Definition byte (x : Z) (i : nat) : Z := Z.land (Z.shiftr x (8 * Z.of_nat i)) 0xFF.

Definition bytes_of (n : nat) (x : Z) : list Z := byte x <$> seq 0 n.

Fixpoint of_bytes (l : list Z) : Z :=
  match l with [] => 0 | b :: l => Z.lor b (Z.shiftl (of_bytes l) 8) end.

(** The bytes in memory of an integer of [n] bytes, and the integer they are. *)
Definition store_bytes (host : order) (n : nat) (x : Z) : list Z :=
  match host with LITTLE_ENDIAN => bytes_of n x | BIG_ENDIAN => reverse (bytes_of n x) end.
Definition load_bytes (host : order) (l : list Z) : Z :=
  match host with LITTLE_ENDIAN => of_bytes l | BIG_ENDIAN => of_bytes (reverse l) end.

(** The order of the host, from what the compiler says ([__BYTE_ORDER__]) or else
    the build system. *)
Definition BYTE_ORDER (byte_order : option order) (HAVE_LITTLE_ENDIAN HAVE_BIG_ENDIAN : bool) :
    option order :=
  match byte_order with
  | Some o => Some o
  | None =>
      if HAVE_LITTLE_ENDIAN then Some LITTLE_ENDIAN
      else if HAVE_BIG_ENDIAN then Some BIG_ENDIAN
      else None
  end.

(** The functions that the header gives a program. *)
Class Conversions := {
  be16toh : Z → Z; htobe16 : Z → Z;
  be32toh : Z → Z; htobe32 : Z → Z; le32toh : Z → Z; htole32 : Z → Z;
  be64toh : Z → Z; htobe64 : Z → Z; le64toh : Z → Z; htole64 : Z → Z
}.

(** What they promise to it: [f], on a host, is the number of [k] bytes that the
    bytes of [x] in order [o] are there. *)
Definition Converts (host o : order) (k : nat) (f : Z → Z) : Prop :=
  ∀ x, 0 <= x < 2 ^ (8 * Z.of_nat k) → f x = load_bytes host (store_bytes o k x).

Class ConversionsLaws (host : order) (C : Conversions) : Prop := {
  be16toh_law : Converts host BIG_ENDIAN 2 be16toh; htobe16_law : Converts host BIG_ENDIAN 2 htobe16;
  be32toh_law : Converts host BIG_ENDIAN 4 be32toh; htobe32_law : Converts host BIG_ENDIAN 4 htobe32;
  le32toh_law : Converts host LITTLE_ENDIAN 4 le32toh; htole32_law : Converts host LITTLE_ENDIAN 4 htole32;
  be64toh_law : Converts host BIG_ENDIAN 8 be64toh; htobe64_law : Converts host BIG_ENDIAN 8 htobe64;
  le64toh_law : Converts host LITTLE_ENDIAN 8 le64toh; htole64_law : Converts host LITTLE_ENDIAN 8 htole64
}.

(** The other names of three of them, on Linux, FreeBSD and NetBSD. *)
Section betoh.
Context `{C : Conversions}.

Definition betoh16 (x : Z) : Z := be16toh x.
Definition betoh32 (x : Z) : Z := be32toh x.
Definition betoh64 (x : Z) : Z := be64toh x.
End betoh.

(** ** AIX *)

Module Aix.
(** The branch for [__BYTE_ORDER__] big. *)
Definition swap64 (x : Z) : Z :=
  u64 (Z.shiftl x 56)
  |c| u64 (Z.shiftl (Z.land x 0xFF00) 40)
  |c| u64 (Z.shiftl (Z.land x 0xFF0000) 24)
  |c| u64 (Z.shiftl (Z.land x 0xFF000000) 8)
  |c| Z.shiftr (Z.land x 0xFF00000000) 8
  |c| Z.shiftr (Z.land x 0xFF0000000000) 24
  |c| Z.shiftr (Z.land x 0xFF000000000000) 40
  |c| Z.shiftr x 56.

(** [byte_order] is [__BYTE_ORDER__], when the compiler defines it; without it
    the bytes are stored one by one into a union. *)
Definition htole64 (byte_order : option order) (host : order) (x : Z) : Z :=
  match byte_order with
  | Some LITTLE_ENDIAN => x
  | Some BIG_ENDIAN => swap64 x
  | None => load_bytes host [byte x 0; byte x 1; byte x 2; byte x 3; byte x 4; byte x 5; byte x 6; byte x 7]
  end.

Definition be64toh (x : Z) : Z := x.
Definition be32toh (x : Z) : Z := x.
Definition be16toh (x : Z) : Z := x.

Definition le32toh (x : Z) : Z :=
  u32 (Z.shiftl (Z.land x 0xff) 24)
  |c| u32 (Z.shiftl (Z.land x 0xff00) 8)
  |c| Z.shiftr (Z.land x 0xff0000) 8
  |c| Z.shiftr (Z.land x 0xff000000) 24.

Definition le64toh (x : Z) : Z :=
  u64 (Z.shiftl (Z.land x 0x00000000000000ff) 56)
  |c| u64 (Z.shiftl (Z.land x 0x000000000000ff00) 40)
  |c| u64 (Z.shiftl (Z.land x 0x0000000000ff0000) 24)
  |c| u64 (Z.shiftl (Z.land x 0x00000000ff000000) 8)
  |c| Z.shiftr (Z.land x 0x000000ff00000000) 8
  |c| Z.shiftr (Z.land x 0x0000ff0000000000) 24
  |c| Z.shiftr (Z.land x 0x00ff000000000000) 40
  |c| Z.shiftr (Z.land x 0xff00000000000000) 56.

Definition htobe64 (x : Z) : Z := be64toh x.
Definition htobe32 (x : Z) : Z := be32toh x.
Definition htobe16 (x : Z) : Z := be16toh x.
Definition htole32 (x : Z) : Z := le32toh x.
End Aix.

Definition aix (byte_order : option order) (host : order) : Conversions := {|
  be16toh := Aix.be16toh; htobe16 := Aix.htobe16;
  be32toh := Aix.be32toh; htobe32 := Aix.htobe32; le32toh := Aix.le32toh; htole32 := Aix.htole32;
  be64toh := Aix.be64toh; htobe64 := Aix.htobe64;
  le64toh := Aix.le64toh; htole64 := Aix.htole64 byte_order host |}.

(** ** Windows *)

Module Windows.
Section windows.
(** The calls of Winsock. *)
Context (winsock_ntohl winsock_htonl winsock_ntohs winsock_htons : Z → Z).

Definition be16toh (x : Z) : Z := winsock_ntohs x.
Definition htobe16 (x : Z) : Z := winsock_htons x.
Definition le32toh (x : Z) : Z := x.
Definition be32toh (x : Z) : Z := winsock_ntohl x.
Definition htole32 (x : Z) : Z := x.
Definition htobe32 (x : Z) : Z := winsock_ntohl x.

(** The argument of [ntohl] is converted to 32 bits. *)
Definition ntohll (x : Z) : Z :=
  if 1 =? winsock_htonl 1 then x
  else u64 (Z.shiftl (winsock_ntohl (u32 (Z.land x 0xFFFFFFFF))) 32)
       |c| winsock_ntohl (u32 (Z.shiftr x 32)).
Definition htonll (x : Z) : Z :=
  if 1 =? winsock_ntohl 1 then x
  else u64 (Z.shiftl (winsock_htonl (u32 (Z.land x 0xFFFFFFFF))) 32)
       |c| winsock_htonl (u32 (Z.shiftr x 32)).

Definition be64toh (x : Z) : Z := ntohll x.
Definition htobe64 (x : Z) : Z := ntohll x.
Definition htole64 (x : Z) : Z := x.
Definition le64toh (x : Z) : Z := x.
End windows.
End Windows.

Definition windows (ntohl htonl ntohs htons : Z → Z) : Conversions := {|
  be16toh := Windows.be16toh ntohs; htobe16 := Windows.htobe16 htons;
  be32toh := Windows.be32toh ntohl; htobe32 := Windows.htobe32 ntohl;
  le32toh := Windows.le32toh; htole32 := Windows.htole32;
  be64toh := Windows.be64toh ntohl htonl; htobe64 := Windows.htobe64 ntohl htonl;
  le64toh := Windows.le64toh; htole64 := Windows.htole64 |}.

(** ** macOS *)

(** The functions of [libkern/OSByteOrder.h]. *)
Class OSByteOrder := {
  OSSwapBigToHostInt16 : Z → Z; OSSwapHostToBigInt16 : Z → Z;
  OSSwapBigToHostInt32 : Z → Z; OSSwapHostToBigInt32 : Z → Z;
  OSSwapLittleToHostInt32 : Z → Z; OSSwapHostToLittleInt32 : Z → Z;
  OSSwapBigToHostInt64 : Z → Z; OSSwapHostToBigInt64 : Z → Z;
  OSSwapLittleToHostInt64 : Z → Z; OSSwapHostToLittleInt64 : Z → Z
}.

Module Apple.
Section apple.
Context {os : OSByteOrder}.

Definition be16toh (x : Z) : Z := OSSwapBigToHostInt16 x.
Definition htobe16 (x : Z) : Z := OSSwapHostToBigInt16 x.
Definition le32toh (x : Z) : Z := OSSwapLittleToHostInt32 x.
Definition be32toh (x : Z) : Z := OSSwapBigToHostInt32 x.
Definition htole32 (x : Z) : Z := OSSwapHostToLittleInt32 x.
Definition htobe32 (x : Z) : Z := OSSwapHostToBigInt32 x.
Definition htole64 (x : Z) : Z := OSSwapHostToLittleInt64 x.
Definition htobe64 (x : Z) : Z := OSSwapHostToBigInt64 x.
Definition le64toh (x : Z) : Z := OSSwapLittleToHostInt64 x.
Definition be64toh (x : Z) : Z := OSSwapBigToHostInt64 x.
End apple.
End Apple.

Definition apple {os : OSByteOrder} : Conversions := {|
  be16toh := Apple.be16toh; htobe16 := Apple.htobe16;
  be32toh := Apple.be32toh; htobe32 := Apple.htobe32; le32toh := Apple.le32toh; htole32 := Apple.htole32;
  be64toh := Apple.be64toh; htobe64 := Apple.htobe64; le64toh := Apple.le64toh; htole64 := Apple.htole64 |}.

(** ** Solaris *)

Module Sun.
Section sun.
(** The macros of [sys/byteorder.h]. *)
Context (BE_16 BE_32 BE_64 LE_32 LE_64 : Z → Z).

Definition be16toh (x : Z) : Z := BE_16 x.
Definition htobe16 (x : Z) : Z := BE_16 x.
Definition le32toh (x : Z) : Z := LE_32 x.
Definition be32toh (x : Z) : Z := BE_32 x.
Definition htole32 (x : Z) : Z := LE_32 x.
Definition htobe32 (x : Z) : Z := BE_32 x.
Definition be64toh (x : Z) : Z := BE_64 x.
Definition le64toh (x : Z) : Z := LE_64 x.
Definition htole64 (x : Z) : Z := LE_64 x.
Definition htobe64 (x : Z) : Z := BE_64 x.
End sun.
End Sun.

Definition sun (BE_16 BE_32 BE_64 LE_32 LE_64 : Z → Z) : Conversions := {|
  be16toh := Sun.be16toh BE_16; htobe16 := Sun.htobe16 BE_16;
  be32toh := Sun.be32toh BE_32; htobe32 := Sun.htobe32 BE_32;
  le32toh := Sun.le32toh LE_32; htole32 := Sun.htole32 LE_32;
  be64toh := Sun.be64toh BE_64; htobe64 := Sun.htobe64 BE_64;
  le64toh := Sun.le64toh LE_64; htole64 := Sun.htole64 LE_64 |}.
