(* ===== verification/EndianProperties.v ===== *)
(** The byte orders of [Endian]: what is stored in memory, and round trips. *)
From Stdlib Require Import ZArith Lia.
From stdpp Require Import prelude.
From S2P Require Import Prelude CInt Endian.

Local Open Scope Z_scope.

(** ** Bits of the pieces *)

Lemma mask_bits a n : 0 <= a → Z.testbit (255 * 2 ^ a) n = ((a <=? n) && (n <? a + 8))%bool.
Proof.
  intros Ha. change 255 with (Z.ones 8). rewrite <-Z.shiftl_mul_pow2 by lia.
  destruct (Z.ltb_spec n 0).
  - rewrite Z.testbit_neg_r by lia. destruct (Z.leb_spec a n); [lia|done].
  - rewrite Z.shiftl_spec, Z.testbit_ones by lia. lia.
Qed.

Lemma left_bits x a k n : 0 <= a → 0 <= k → 0 <= n →
  Z.testbit (Z.shiftl (Z.land x (255 * 2 ^ a)) k) n =
  ((a + k <=? n) && (n <? a + k + 8) && Z.testbit x (n - k))%bool.
Proof.
  intros Ha Hk Hn. rewrite Z.shiftl_spec, Z.land_spec, mask_bits by lia.
  rewrite andb_comm. f_equal. lia.
Qed.

Lemma right_bits x a k n : 0 <= a → 0 <= k → 0 <= n →
  Z.testbit (Z.shiftr (Z.land x (255 * 2 ^ a)) k) n =
  ((a <=? n + k) && (n + k <? a + 8) && Z.testbit x (n + k))%bool.
Proof.
  intros Ha Hk Hn. rewrite Z.shiftr_spec, Z.land_spec, mask_bits by lia. by rewrite andb_comm.
Qed.

Lemma u64_bits z n : 0 <= n → Z.testbit (u64 z) n = ((n <? 64) && Z.testbit z n)%bool.
Proof. intros Hn. unfold u64. by rewrite Z.testbit_mod_pow2 by lia. Qed.

Lemma u32_bits z n : 0 <= n → Z.testbit (u32 z) n = ((n <? 32) && Z.testbit z n)%bool.
Proof. intros Hn. unfold u32. by rewrite Z.testbit_mod_pow2 by lia. Qed.

(** A number of [w] bits has no other ones, and is known by those it has. *)
Lemma high_bit w x n : 0 <= w → 0 <= x < 2 ^ w → w <= n → Z.testbit x n = false.
Proof.
  intros Hw Hx Hn. rewrite <-(Z.mod_small x (2 ^ w)) by done.
  rewrite Z.testbit_mod_pow2 by lia. by rewrite (proj2 (Z.ltb_ge _ _)).
Qed.

Lemma same_bits w x y : 0 <= w → 0 <= x < 2 ^ w → 0 <= y < 2 ^ w →
  (∀ n, 0 <= n < w → Z.testbit x n = Z.testbit y n) → x = y.
Proof.
  intros Hw Hx Hy H. apply Z.bits_inj'. intros n Hn. destruct (Z.ltb_spec n w); [by apply H|].
  by rewrite !(high_bit w).
Qed.

Lemma lor_range w x y : 0 <= w → 0 <= x < 2 ^ w → 0 <= y < 2 ^ w → 0 <= Z.lor x y < 2 ^ w.
Proof.
  intros Hw Hx Hy. split; [apply Z.lor_nonneg; lia|].
  rewrite <-(Z.mod_small x (2 ^ w)), <-(Z.mod_small y (2 ^ w)) by done.
  rewrite <-!Z.land_ones, <-Z.land_lor_distr_l, Z.land_ones by done.
  apply Z.mod_pos_bound. lia.
Qed.

Lemma shiftr_range w x k : 0 <= k → 0 <= x < 2 ^ w → 0 <= Z.shiftr x k < 2 ^ w.
Proof.
  intros Hk Hx. rewrite Z.shiftr_div_pow2 by done. split; [apply Z.div_pos; lia|].
  apply Z.div_lt_upper_bound; [lia|].
  assert (1 <= 2 ^ k) by (apply (Z.pow_le_mono_r 2 0 k); lia). nia.
Qed.

Lemma land_range w x y : 0 <= w → 0 <= x < 2 ^ w → 0 <= Z.land x y < 2 ^ w.
Proof.
  intros Hw Hx. rewrite <-(Z.mod_small x (2 ^ w)) by done.
  rewrite <-Z.land_ones, <-Z.land_assoc, (Z.land_comm (Z.ones w)), Z.land_assoc, Z.land_ones by done.
  apply Z.mod_pos_bound. lia.
Qed.

(** ** Mirrored bytes *)

(** The bit that bit [n] of a number of [k] bytes comes from. *)
Definition mirror (k n : Z) : Z := 8 * (k - 1 - n / 8) + n mod 8.

Lemma mirror_range k n : 0 <= n < 8 * k → 0 <= mirror k n < 8 * k.
Proof. unfold mirror. intros. pose proof (Z.div_mod n 8). pose proof (Z.mod_pos_bound n 8).
  assert (n / 8 < k) by (apply Z.div_lt_upper_bound; lia).
  assert (0 <= n / 8) by (apply Z.div_pos; lia). lia.
Qed.

Lemma mirror_mirror k n : 0 <= n < 8 * k → mirror k (mirror k n) = n.
Proof.
  intros Hn. unfold mirror at 1. pose proof (Z.mod_pos_bound n 8).
  assert (Hd : mirror k n / 8 = k - 1 - n / 8)
    by (symmetry; apply Z.div_unique with (n mod 8); [lia|unfold mirror; lia]).
  assert (Hm : mirror k n mod 8 = n mod 8)
    by (symmetry; apply Z.mod_unique with (k - 1 - n / 8); [lia|unfold mirror; lia]).
  rewrite Hd, Hm. pose proof (Z.div_mod n 8). lia.
Qed.

(** [y] is [x] with its [k] bytes in the other order. *)
Definition Mirrored (k x y : Z) : Prop :=
  0 <= y < 2 ^ (8 * k) ∧ ∀ n, 0 <= n < 8 * k → Z.testbit y n = Z.testbit x (mirror k n).

Lemma mirrored_twice k x y z :
  0 <= k → 0 <= x < 2 ^ (8 * k) → Mirrored k x y → Mirrored k y z → z = x.
Proof.
  intros Hk Hx [Hy1 Hy] [Hz1 Hz]. apply (same_bits (8 * k)); [lia|done|done|].
  intros n Hn. rewrite Hz, Hy by (done || by apply mirror_range). by rewrite mirror_mirror.
Qed.

Lemma mirrored_unique k x y z : 0 <= k → Mirrored k x y → Mirrored k x z → y = z.
Proof.
  intros Hk [Hy1 Hy] [Hz1 Hz]. apply (same_bits (8 * k)); [lia|done|done|].
  intros n Hn. by rewrite Hy, Hz.
Qed.

(** Bit by bit: in each of the bytes of the result one piece counts. *)
Ltac mirror_bits :=
  repeat first
    [ rewrite Z.lor_spec | rewrite u64_bits by lia | rewrite u32_bits by lia
    | rewrite left_bits by lia | rewrite right_bits by lia
    | rewrite Z.shiftl_spec by lia | rewrite Z.shiftr_spec by lia ].

Ltac decide_ranges :=
  repeat match goal with
  | |- context [?a <=? ?b] =>
      first [ rewrite (proj2 (Z.leb_le a b)) by lia | rewrite (proj2 (Z.leb_gt a b)) by lia ]
  | |- context [?a <? ?b] =>
      first [ rewrite (proj2 (Z.ltb_lt a b)) by lia | rewrite (proj2 (Z.ltb_ge a b)) by lia ]
  end; cbn [andb orb].

Lemma le64toh_mirrored x : is_u64 x → Mirrored 8 x (Aix.le64toh x).
Proof.
  intros Hx. change (8 * 8) with 64. unfold is_u64 in Hx. split.
  - unfold Aix.le64toh. repeat (apply (lor_range 64); [lia|..]);
      first [ apply Z.mod_pos_bound; lia | apply shiftr_range; [lia|apply land_range; lia] ].
  - intros n Hn. unfold mirror, Aix.le64toh.
    change 0xff with (255 * 2 ^ 0). change 0xff00 with (255 * 2 ^ 8).
    change 0xff0000 with (255 * 2 ^ 16). change 0xff000000 with (255 * 2 ^ 24).
    change 0xff00000000 with (255 * 2 ^ 32). change 0xff0000000000 with (255 * 2 ^ 40).
    change 0xff000000000000 with (255 * 2 ^ 48). change 0xff00000000000000 with (255 * 2 ^ 56).
    mirror_bits.
    assert (Hi : 0 <= n / 8 < 8) by (split; [apply Z.div_pos|apply Z.div_lt_upper_bound]; lia).
    pose proof (Z.div_mod n 8). pose proof (Z.mod_pos_bound n 8).
    assert (Hc : n / 8 = 0 ∨ n / 8 = 1 ∨ n / 8 = 2 ∨ n / 8 = 3 ∨ n / 8 = 4 ∨ n / 8 = 5 ∨
      n / 8 = 6 ∨ n / 8 = 7) by lia.
    destruct_or? Hc; decide_ranges; rewrite ?orb_false_r; f_equal; lia.
Qed.

Lemma swap64_mirrored x : is_u64 x → Mirrored 8 x (Aix.swap64 x).
Proof.
  intros Hx. replace (Aix.swap64 x) with (Aix.le64toh x); [by apply le64toh_mirrored|].
  unfold is_u64 in Hx.
  assert (E1 : u64 (Z.shiftl (Z.land x 0xff) 56) = u64 (Z.shiftl x 56)).
  { apply Z.bits_inj'. intros n Hn. rewrite !u64_bits by lia. change 0xff with (255 * 2 ^ 0).
    rewrite left_bits, Z.shiftl_spec by lia. destruct (Z.ltb_spec n 64); [|done]. cbn [andb].
    destruct (Z.leb_spec (0 + 56) n); [by decide_ranges|].
    by rewrite Z.testbit_neg_r by lia. }
  assert (E2 : Z.shiftr (Z.land x 0xff00000000000000) 56 = Z.shiftr x 56).
  { apply Z.bits_inj'. intros n Hn. change 0xff00000000000000 with (255 * 2 ^ 56).
    rewrite right_bits, Z.shiftr_spec by lia. destruct (Z.ltb_spec (n + 56) 64).
    - by decide_ranges.
    - by rewrite (high_bit 64), andb_false_r by lia. }
  unfold Aix.le64toh, Aix.swap64. by rewrite E1, E2.
Qed.

Lemma le32toh_mirrored x : is_u32 x → Mirrored 4 x (Aix.le32toh x).
Proof.
  intros Hx. change (8 * 4) with 32. unfold is_u32 in Hx. split.
  - unfold Aix.le32toh. repeat (apply (lor_range 32); [lia|..]);
      first [ apply Z.mod_pos_bound; lia | apply shiftr_range; [lia|apply land_range; lia] ].
  - intros n Hn. unfold mirror, Aix.le32toh.
    change 0xff with (255 * 2 ^ 0). change 0xff00 with (255 * 2 ^ 8).
    change 0xff0000 with (255 * 2 ^ 16). change 0xff000000 with (255 * 2 ^ 24).
    mirror_bits.
    assert (Hi : 0 <= n / 8 < 4) by (split; [apply Z.div_pos|apply Z.div_lt_upper_bound]; lia).
    pose proof (Z.div_mod n 8). pose proof (Z.mod_pos_bound n 8).
    assert (Hc : n / 8 = 0 ∨ n / 8 = 1 ∨ n / 8 = 2 ∨ n / 8 = 3) by lia.
    destruct_or? Hc; decide_ranges; rewrite ?orb_false_r; f_equal; lia.
Qed.

(** ** Bytes *)

Lemma byte_bits x i n : 0 <= n →
  Z.testbit (byte x i) n = ((n <? 8) && Z.testbit x (8 * Z.of_nat i + n))%bool.
Proof.
  intros Hn. unfold byte. change 0xFF with (255 * 2 ^ 0).
  rewrite Z.land_spec, mask_bits, Z.shiftr_spec by lia. rewrite andb_comm.
  rewrite (proj2 (Z.leb_le 0 n)) by lia. cbn [andb]. f_equal. f_equal. lia.
Qed.

Lemma byte_range x i : 0 <= byte x i < 2 ^ 8.
Proof. unfold byte. change 0xFF with (Z.ones 8). rewrite Z.land_ones by lia. apply Z.mod_pos_bound. lia. Qed.

Lemma length_bytes k x : length (bytes_of k x) = k.
Proof. unfold bytes_of. by rewrite length_fmap, length_seq. Qed.

Lemma lookup_bytes k x i : (i < k)%nat → bytes_of k x !! i = Some (byte x i).
Proof. intros Hi. unfold bytes_of. by rewrite list_lookup_fmap, lookup_seq_lt. Qed.

Lemma lookup_bytes_reverse k x i : (i < k)%nat →
  reverse (bytes_of k x) !! i = Some (byte x (k - S i)).
Proof.
  intros Hi. rewrite reverse_lookup by (by rewrite length_bytes).
  rewrite length_bytes. by rewrite lookup_bytes by lia.
Qed.

(** The bytes of a number in the other order. *)
Lemma mirrored_bytes k x y :
  Mirrored (Z.of_nat k) x y ↔
  0 <= y < 2 ^ (8 * Z.of_nat k) ∧ bytes_of k y = reverse (bytes_of k x).
Proof.
  unfold Mirrored. split; intros [Hy H]; (split; [done|]).
  - apply list_eq_same_length with k; rewrite ?length_reverse, ?length_bytes; [done..|].
    intros i b b' Hi. rewrite lookup_bytes, lookup_bytes_reverse by done. intros [= <-] [= <-].
    apply (same_bits 8); [lia|apply byte_range|apply byte_range|].
    intros n Hn. rewrite !byte_bits, H by lia. decide_ranges. unfold mirror. f_equal.
    replace ((8 * Z.of_nat i + n) / 8) with (Z.of_nat i) by (apply Z.div_unique with n; lia).
    replace ((8 * Z.of_nat i + n) mod 8) with n by (apply Z.mod_unique with (Z.of_nat i); lia). lia.
  - intros n Hn. pose proof (Z.div_mod n 8). pose proof (Z.mod_pos_bound n 8).
    assert (Hi : 0 <= n / 8 < Z.of_nat k) by (split; [apply Z.div_pos|apply Z.div_lt_upper_bound]; lia).
    apply (f_equal (λ l, l !! Z.to_nat (n / 8))) in H.
    rewrite lookup_bytes, lookup_bytes_reverse in H by lia. injection H as H.
    apply (f_equal (λ z, Z.testbit z (n mod 8))) in H. rewrite !byte_bits in H by lia.
    rewrite (proj2 (Z.ltb_lt _ _)) in H by lia. cbn [andb] in H. unfold mirror.
    rewrite <-(Z2Nat.id (n / 8)) at 1 by lia.
    replace n with (8 * Z.of_nat (Z.to_nat (n / 8)) + n mod 8) at 1 by lia.
    rewrite H. f_equal. lia.
Qed.

Lemma bytes_inj k x y :
  0 <= x < 2 ^ (8 * Z.of_nat k) → 0 <= y < 2 ^ (8 * Z.of_nat k) → bytes_of k x = bytes_of k y → x = y.
Proof.
  intros Hx Hy H. apply (same_bits (8 * Z.of_nat k)); [lia|done|done|].
  intros n Hn. pose proof (Z.div_mod n 8). pose proof (Z.mod_pos_bound n 8).
  assert (Hi : 0 <= n / 8 < Z.of_nat k) by (split; [apply Z.div_pos|apply Z.div_lt_upper_bound]; lia).
  apply (f_equal (λ l, l !! Z.to_nat (n / 8))) in H. rewrite !lookup_bytes in H by lia. injection H as H.
  apply (f_equal (λ z, Z.testbit z (n mod 8))) in H. rewrite !byte_bits in H by lia.
  rewrite !(proj2 (Z.ltb_lt _ _)) in H by lia. cbn [andb] in H.
  by replace n with (8 * Z.of_nat (Z.to_nat (n / 8)) + n mod 8) by lia.
Qed.

(** Loading what bytes there are. *)
Lemma of_bytes_bytes l :
  Forall (λ b, 0 <= b < 2 ^ 8) l →
  0 <= of_bytes l < 2 ^ (8 * Z.of_nat (length l)) ∧ bytes_of (length l) (of_bytes l) = l.
Proof.
  induction 1 as [|b l Hb _ [IHr IH]]; [done|]. cbn [of_bytes length].
  assert (Hbit : ∀ n, 0 <= n → Z.testbit (Z.lor b (Z.shiftl (of_bytes l) 8)) n =
    if n <? 8 then Z.testbit b n else Z.testbit (of_bytes l) (n - 8)).
  { intros n Hn. rewrite Z.lor_spec, Z.shiftl_spec by lia. destruct (Z.ltb_spec n 8).
    - by rewrite (Z.testbit_neg_r (of_bytes l)), orb_false_r by lia.
    - by rewrite (high_bit 8 b) by lia. }
  split.
  - replace (8 * Z.of_nat (S (length l))) with (8 * Z.of_nat (length l) + 8) by lia.
    apply lor_range; [lia| |].
    + split; [lia|]. eapply Z.lt_le_trans; [apply Hb|]. apply Z.pow_le_mono_r; lia.
    + rewrite Z.shiftl_mul_pow2, Z.pow_add_r by lia. lia.
  - unfold bytes_of in *. cbn [seq fmap list_fmap]. f_equal.
    + apply (same_bits 8); [lia|apply byte_range|done|]. intros n Hn.
      rewrite byte_bits, Hbit by lia. by decide_ranges.
    + transitivity (byte (of_bytes l) <$> seq 0 (length l)); [|done].
      rewrite <-(fmap_S_seq 0 (length l)), <-list_fmap_compose.
      apply list_fmap_ext. intros i b' _. unfold compose.
      apply (same_bits 8); [lia|apply byte_range|apply byte_range|]. intros n Hn.
      rewrite !byte_bits, Hbit by lia. decide_ranges. f_equal. lia.
Qed.

(** ** Round trips *)

Lemma bytes_range k x : Forall (λ b, 0 <= b < 2 ^ 8) (bytes_of k x).
Proof. apply Forall_fmap, Forall_forall. intros i _. apply byte_range. Qed.

(** The union of [htole64]. *)
Lemma load_mirrored k x :
  Mirrored (Z.of_nat k) x (load_bytes BIG_ENDIAN (bytes_of k x)).
Proof.
  apply mirrored_bytes. cbn. destruct (of_bytes_bytes (reverse (bytes_of k x))) as [H1 H2].
  { apply Forall_reverse, bytes_range. }
  by rewrite length_reverse, length_bytes in H1, H2.
Qed.

Lemma htole64_mirrored byte_order x :
  byte_order ≠ Some LITTLE_ENDIAN → is_u64 x → Mirrored 8 x (Aix.htole64 byte_order BIG_ENDIAN x).
Proof.
  intros Hb Hx. destruct byte_order as [[]|]; [done|by apply swap64_mirrored|apply (load_mirrored 8)].
Qed.

Section winsock.
(** What is documented of Winsock on a little-endian host: network byte order. *)
Context (winsock_ntohl winsock_htonl : Z → Z).
Context (ntohl_swaps : ∀ v, is_u32 v → winsock_ntohl v = load_bytes BIG_ENDIAN (bytes_of 4 v)).
Context (htonl_swaps : ∀ v, is_u32 v → winsock_htonl v = load_bytes BIG_ENDIAN (bytes_of 4 v)).

(** Two halves, each mirrored and in the place of the other. *)
Lemma halves_mirrored x lo hi :
  is_u64 x → Mirrored 4 (Z.land x 0xFFFFFFFF) lo → Mirrored 4 (Z.shiftr x 32) hi →
  Mirrored 8 x (Z.lor (u64 (Z.shiftl lo 32)) hi).
Proof using.
  intros Hx [Hlo Blo] [Hhi Bhi]. change (8 * 4) with 32 in *. change (8 * 8) with 64. split.
  - apply lor_range; [lia|apply Z.mod_pos_bound; lia|lia].
  - intros n Hn. rewrite Z.lor_spec, u64_bits, Z.shiftl_spec by lia. decide_ranges.
    pose proof (Z.div_mod n 8). pose proof (Z.mod_pos_bound n 8).
    destruct (Z.ltb_spec n 32).
    + rewrite (Z.testbit_neg_r lo), Bhi by lia. cbn [orb].
      pose proof (mirror_range 4 n). rewrite Z.shiftr_spec by lia. f_equal. unfold mirror. lia.
    + rewrite (high_bit 32 hi), orb_false_r, Blo by lia. pose proof (mirror_range 4 (n - 32)).
      rewrite Z.land_spec. change 0xFFFFFFFF with (Z.ones 32). rewrite Z.testbit_ones by lia.
      decide_ranges. rewrite andb_true_r. f_equal. unfold mirror.
      replace ((n - 32) / 8) with (n / 8 - 4) by (apply Z.div_unique with (n mod 8); lia).
      replace ((n - 32) mod 8) with (n mod 8) by (apply Z.mod_unique with (n / 8 - 4); lia). lia.
Qed.

Lemma half_range x : is_u64 x → is_u32 (Z.land x 0xFFFFFFFF) ∧ is_u32 (Z.shiftr x 32).
Proof using.
  unfold is_u64, is_u32. intros Hx. change 0xFFFFFFFF with (Z.ones 32).
  rewrite Z.land_ones, Z.shiftr_div_pow2 by lia. split; [apply Z.mod_pos_bound; lia|].
  split; [apply Z.div_pos; lia|]. apply Z.div_lt_upper_bound; lia.
Qed.

Lemma ntohll_mirrored x : is_u64 x → Mirrored 8 x (Windows.ntohll winsock_ntohl winsock_htonl x).
Proof using ntohl_swaps htonl_swaps.
  intros Hx. destruct (half_range x Hx) as [Hlo Hhi]. unfold Windows.ntohll.
  rewrite htonl_swaps by (by unfold is_u32). cbn [Z.eqb].
  change (1 =? load_bytes BIG_ENDIAN (bytes_of 4 1)) with false. cbn iota.
  rewrite !u32_small, !ntohl_swaps by done.
  apply halves_mirrored; [done|apply (load_mirrored 4)..].
Qed.

Lemma htonll_mirrored x : is_u64 x → Mirrored 8 x (Windows.htonll winsock_ntohl winsock_htonl x).
Proof using ntohl_swaps htonl_swaps.
  intros Hx. destruct (half_range x Hx) as [Hlo Hhi]. unfold Windows.htonll.
  rewrite ntohl_swaps by (by unfold is_u32).
  change (1 =? load_bytes BIG_ENDIAN (bytes_of 4 1)) with false. cbn iota.
  rewrite !u32_small, !htonl_swaps by done.
  apply halves_mirrored; [done|apply (load_mirrored 4)..].
Qed.
End winsock.

(** ** The interface and its implementations *)

Lemma load_store h k x :
  0 <= x < 2 ^ (8 * Z.of_nat k) → load_bytes h (store_bytes h k x) = x.
Proof.
  intros Hx. assert (H : of_bytes (bytes_of k x) = x).
  { destruct (of_bytes_bytes (bytes_of k x) (bytes_range k x)) as [Hr Hb].
    rewrite length_bytes in Hr, Hb. by apply (bytes_inj k). }
  destruct h; unfold load_bytes, store_bytes; by rewrite ?reverse_involutive.
Qed.

(** Storing what bytes were loaded. *)
Lemma store_load h l :
  Forall (λ b, 0 <= b < 2 ^ 8) l → store_bytes h (length l) (load_bytes h l) = l.
Proof.
  intros Hl. destruct h; cbn; [by apply of_bytes_bytes|].
  destruct (of_bytes_bytes (reverse l) (proj2 (Forall_reverse _ _) Hl)) as [_ Hb].
  rewrite length_reverse in Hb. by rewrite Hb, reverse_involutive.
Qed.

Lemma length_store h k x : length (store_bytes h k x) = k.
Proof. destruct h; cbn; by rewrite ?length_reverse, length_bytes. Qed.

Lemma store_range h k x : Forall (λ b, 0 <= b < 2 ^ 8) (store_bytes h k x).
Proof. destruct h; cbn; [|apply Forall_reverse]; apply bytes_range. Qed.

Lemma converts_same host k f : (∀ x, f x = x) → Converts host host k f.
Proof. intros Hf x Hx. by rewrite Hf, load_store. Qed.

(** The other order is the mirrored number. *)
Lemma converts_mirrored host o k f :
  host ≠ o → (∀ x, 0 <= x < 2 ^ (8 * Z.of_nat k) → Mirrored (Z.of_nat k) x (f x)) → Converts host o k f.
Proof.
  intros Ho Hf x Hx. apply (mirrored_unique (Z.of_nat k) x); [lia|by apply Hf|].
  destruct host, o; [done| | |done]; apply (load_mirrored k).
Qed.

Lemma converts_ext host o k f g :
  (∀ x, 0 <= x < 2 ^ (8 * Z.of_nat k) → f x = g x) → Converts host o k g → Converts host o k f.
Proof. intros H Hg x Hx. by rewrite H, Hg. Qed.

(** What is stored, and what is read of it on the same or another host. *)
Lemma converts_stores host o k f x :
  Converts host o k f → 0 <= x < 2 ^ (8 * Z.of_nat k) → store_bytes host k (f x) = store_bytes o k x.
Proof.
  intros Hf Hx. rewrite Hf by done. rewrite <-(length_store o k x) at 1.
  apply store_load, store_range.
Qed.

Lemma load_range host l :
  Forall (λ b, 0 <= b < 2 ^ 8) l → 0 <= load_bytes host l < 2 ^ (8 * Z.of_nat (length l)).
Proof.
  intros Hl. destruct host; cbn; [by apply of_bytes_bytes|].
  rewrite <-length_reverse. by apply of_bytes_bytes, Forall_reverse.
Qed.

Lemma converts_reads host o k g x :
  Converts host o k g → 0 <= x < 2 ^ (8 * Z.of_nat k) → g (load_bytes host (store_bytes o k x)) = x.
Proof.
  intros Hg Hx. set (l := store_bytes o k x).
  pose proof (store_range o k x : Forall _ l) as Hl. pose proof (length_store o k x : length l = k) as Hk.
  rewrite Hg by (rewrite <-Hk; by apply load_range).
  replace (store_bytes o k (load_bytes host l)) with (store_bytes host k x); [by apply load_store|].
  pose proof (store_load host l Hl) as H. rewrite Hk in H.
  destruct host, o; try (by unfold l in *; rewrite load_store by done).
  - unfold store_bytes in *. rewrite H. unfold l. by rewrite reverse_involutive.
  - unfold store_bytes in *. by rewrite <-(reverse_involutive (bytes_of k (load_bytes _ _))), H.
Qed.

(** What Apple documents. *)
Class OSByteOrderLaws (host : order) (os : OSByteOrder) : Prop := {
  OSSwapBigToHostInt16_law : Converts host BIG_ENDIAN 2 OSSwapBigToHostInt16;
  OSSwapHostToBigInt16_law : Converts host BIG_ENDIAN 2 OSSwapHostToBigInt16;
  OSSwapBigToHostInt32_law : Converts host BIG_ENDIAN 4 OSSwapBigToHostInt32;
  OSSwapHostToBigInt32_law : Converts host BIG_ENDIAN 4 OSSwapHostToBigInt32;
  OSSwapLittleToHostInt32_law : Converts host LITTLE_ENDIAN 4 OSSwapLittleToHostInt32;
  OSSwapHostToLittleInt32_law : Converts host LITTLE_ENDIAN 4 OSSwapHostToLittleInt32;
  OSSwapBigToHostInt64_law : Converts host BIG_ENDIAN 8 OSSwapBigToHostInt64;
  OSSwapHostToBigInt64_law : Converts host BIG_ENDIAN 8 OSSwapHostToBigInt64;
  OSSwapLittleToHostInt64_law : Converts host LITTLE_ENDIAN 8 OSSwapLittleToHostInt64;
  OSSwapHostToLittleInt64_law : Converts host LITTLE_ENDIAN 8 OSSwapHostToLittleInt64
}.

(** The systems for which the header has functions of its own, and what it uses
    of them.  AIX is big-endian; the functions for Windows are for what
    [BYTE_ORDER] finds there. *)
Inductive system : order → Conversions → Prop :=
  | system_aix byte_order :
      byte_order ≠ Some LITTLE_ENDIAN → system BIG_ENDIAN (aix byte_order BIG_ENDIAN)
  | system_windows byte_order little big ntohl htonl ntohs htons :
      BYTE_ORDER byte_order little big = Some LITTLE_ENDIAN →
      Converts LITTLE_ENDIAN BIG_ENDIAN 4 ntohl → Converts LITTLE_ENDIAN BIG_ENDIAN 4 htonl →
      Converts LITTLE_ENDIAN BIG_ENDIAN 2 ntohs → Converts LITTLE_ENDIAN BIG_ENDIAN 2 htons →
      system LITTLE_ENDIAN (windows ntohl htonl ntohs htons)
  | system_apple host os : OSByteOrderLaws host os → system host (@apple os)
  | system_sun host BE_16 BE_32 BE_64 LE_32 LE_64 :
      Converts host BIG_ENDIAN 2 BE_16 → Converts host BIG_ENDIAN 4 BE_32 →
      Converts host BIG_ENDIAN 8 BE_64 → Converts host LITTLE_ENDIAN 4 LE_32 →
      Converts host LITTLE_ENDIAN 8 LE_64 → system host (sun BE_16 BE_32 BE_64 LE_32 LE_64).

Lemma aix_laws byte_order :
  byte_order ≠ Some LITTLE_ENDIAN → ConversionsLaws BIG_ENDIAN (aix byte_order BIG_ENDIAN).
Proof.
  intros Hb. split; cbn; try (by apply converts_same); apply converts_mirrored; try done; intros x Hx.
  - by apply le32toh_mirrored.
  - by apply le32toh_mirrored.
  - by apply le64toh_mirrored.
  - by apply htole64_mirrored.
Qed.

Lemma windows_laws ntohl htonl ntohs htons :
  Converts LITTLE_ENDIAN BIG_ENDIAN 4 ntohl → Converts LITTLE_ENDIAN BIG_ENDIAN 4 htonl →
  Converts LITTLE_ENDIAN BIG_ENDIAN 2 ntohs → Converts LITTLE_ENDIAN BIG_ENDIAN 2 htons →
  ConversionsLaws LITTLE_ENDIAN (windows ntohl htonl ntohs htons).
Proof.
  intros Hnl Hhl Hns Hhs. split; cbn; try (by apply converts_same); try done;
    apply converts_mirrored; try done; intros x Hx; by apply ntohll_mirrored.
Qed.

Lemma system_laws host C : system host C → ConversionsLaws host C.
Proof.
  intros [bo Hb|bo l b ntohl htonl ntohs htons _ H1 H2 H3 H4|h os []|h B2 B4 B8 L4 L8 H1 H2 H3 H4 H5].
  - by apply aix_laws.
  - by apply windows_laws.
  - by split.
  - by split.
Qed.

(** C38: On every system for which the header has functions of its own, [htobe]
    and [htole] make numbers that are in memory in big- and little-endian order,
    for 16, 32 and 64 bits; and [be..toh], [le..toh] and [betoh..] read them
    again, on that host and on any other whose functions keep the same promise,
    whatever the byte orders of the two.  The same holds of [htonll] on Windows. *)
Theorem byte_orders_round_trip host C host' C' x y z :
  system host C → ConversionsLaws host' C' → is_u64 x → is_u32 y → 0 <= z < 2 ^ 16 →
  ConversionsLaws host C ∧
  (store_bytes host 8 (@htobe64 C x) = reverse (bytes_of 8 x) ∧
   @betoh64 C' (load_bytes host' (store_bytes host 8 (@htobe64 C x))) = x) ∧
  (store_bytes host 8 (@htole64 C x) = bytes_of 8 x ∧
   @le64toh C' (load_bytes host' (store_bytes host 8 (@htole64 C x))) = x) ∧
  (store_bytes host 4 (@htobe32 C y) = reverse (bytes_of 4 y) ∧
   @betoh32 C' (load_bytes host' (store_bytes host 4 (@htobe32 C y))) = y) ∧
  (store_bytes host 4 (@htole32 C y) = bytes_of 4 y ∧
   @le32toh C' (load_bytes host' (store_bytes host 4 (@htole32 C y))) = y) ∧
  (store_bytes host 2 (@htobe16 C z) = reverse (bytes_of 2 z) ∧
   @betoh16 C' (load_bytes host' (store_bytes host 2 (@htobe16 C z))) = z) ∧
  (∀ ntohl htonl,
   Converts LITTLE_ENDIAN BIG_ENDIAN 4 ntohl → Converts LITTLE_ENDIAN BIG_ENDIAN 4 htonl →
   Windows.be64toh ntohl htonl (Windows.htonll ntohl htonl x) = x).
Proof.
  intros Hs HL' Hx Hy Hz. pose proof (system_laws _ _ Hs) as HL. split; [done|].
  destruct HL as [_ A2 _ A4 _ A6 _ A8 _ A10], HL' as [B1 _ B3 _ B5 _ B7 _ B9 _].
  split_and!; try (erewrite converts_stores by done; first [done|by eapply converts_reads]).
  intros ntohl htonl Hn Hh.
  pose proof (htonll_mirrored ntohl htonl Hn Hh x Hx) as Hm.
  by apply (mirrored_twice 8 x _ _ ltac:(done) Hx Hm), ntohll_mirrored, Hm.
Qed.

(** From a big-endian host of one system to a little-endian one of another. *)
Definition to_network (k : nat) (x : Z) : Z := load_bytes LITTLE_ENDIAN (store_bytes BIG_ENDIAN k x).
Definition demo_windows : Conversions := windows (to_network 4) (to_network 4) (to_network 2) (to_network 2).

Lemma byte_orders_round_trip_witness :
  store_bytes BIG_ENDIAN 8 (htole64 (Conversions := aix None BIG_ENDIAN) 0x0102030405060708) =
    [8; 7; 6; 5; 4; 3; 2; 1] ∧
  le64toh (Conversions := demo_windows) (load_bytes LITTLE_ENDIAN [8; 7; 6; 5; 4; 3; 2; 1]) = 0x0102030405060708 ∧
  htobe64 (Conversions := demo_windows) 0x0102030405060708 = 0x0807060504030201 ∧
  betoh64 (C := demo_windows) (load_bytes LITTLE_ENDIAN
    (store_bytes BIG_ENDIAN 8 (htobe64 (Conversions := aix None BIG_ENDIAN) 0x0102030405060708))) = 0x0102030405060708.
Proof.
  split; [by vm_compute|]. split; [by vm_compute|]. split; [by vm_compute|].
  assert (HW : ConversionsLaws LITTLE_ENDIAN demo_windows) by (by apply windows_laws).
  destruct (byte_orders_round_trip BIG_ENDIAN (aix None BIG_ENDIAN) LITTLE_ENDIAN demo_windows
    0x0102030405060708 1 1) as (_ & [_ H] & _);
    [by apply system_aix|exact HW|by unfold is_u64|by unfold is_u32|done|exact H].
Defined.
