(* ===== verification/Readpass.v ===== *)
(** [apps/nc/compat/readpassphrase.c], with the flags of
    [include/compat/readpassphrase.h]: a line read from the terminal, with the
    echo off and with handlers for the signals that could leave it off. *)
From Stdlib Require Import ZArith Lia.
From stdpp Require Import functions prelude gmap.
From S2P Require Import Prelude CInt PosixWin.

Local Open Scope Z_scope.

Definition RPP_ECHO_OFF : Z := 0x00.
Definition RPP_ECHO_ON : Z := 0x01.
Definition RPP_REQUIRE_TTY : Z := 0x02.
Definition RPP_FORCELOWER : Z := 0x04.
Definition RPP_FORCEUPPER : Z := 0x08.
Definition RPP_SEVENBIT : Z := 0x10.
Definition RPP_STDIN : Z := 0x20.

(** [flags & f] as a condition. *)
Definition has (flags f : Z) : bool := negb (Z.land flags f =? 0).

(** The constants of [<signal.h>], [<termios.h>] and [<errno.h>], which differ
    from system to system.  [VSTATUS] is only defined on some. *)
Class Platform := {
  SIGHUP : Z; SIGINT : Z; SIGQUIT : Z; SIGPIPE : Z; SIGALRM : Z; SIGTERM : Z;
  SIGTSTP : Z; SIGTTIN : Z; SIGTTOU : Z;
  NSIG : nat;
  ECHO : Z; ECHONL : Z;
  VSTATUS : option nat; VDISABLE : Z; NCCS : nat;
  ENOTTY : errno_code
}.

Definition STDIN_FILENO : Z := 0.
Definition STDERR_FILENO : Z := 2.

(** ** The process and its terminal *)

(** [Catch] is the function [handler] of this file, [Other] a handler of the
    application. *)
Inductive sighandler := SIG_DFL | SIG_IGN | Catch | Other (n : Z).

#[global] Instance sighandler_eq_dec : EqDecision sighandler.
Proof. solve_decision. Defined.

(** [struct sigaction]. *)
Record sigact := Sigaction { sa_handler : sighandler; sa_mask : gset Z; sa_flags : Z }.

(** [struct termios]. *)
Record termios := Termios {
  c_iflag : Z; c_oflag : Z; c_cflag : Z; c_lflag : Z; c_cc : list Z
}.

#[global] Instance termios_eq_dec : EqDecision termios.
Proof. solve_decision. Defined.

(** What a descriptor refers to. *)
Inductive file := Tty | OtherFile (n : Z).

(** What happens during one system call: the signals that arrive, and the error
    it fails with.  [read] has its own results. *)
Record turn := Turn { signals : list Z; fails : option errno_code }.

Inductive key := Char (c : Z) | EndOfFile | Error (e : errno_code).

(** A signal that arrives, and one that [kill] sends, with what is done about
    it; what is written; and whether the terminal echoes while a character is
    read. *)
Inductive event :=
  | Arrived (signum : Z) (h : sighandler)
  | Sent (signum : Z) (h : sighandler)
  | Wrote (fd : Z) (text : list Z)
  | Reads (echo : bool).

(** The actions on signals, the array [signo], the open descriptors with their
    close-on-exec flag, the mode of the terminal, the memory at [buf], what the
    next system calls and the next calls of [read] meet, and what happened. *)
Record process := Process {
  disposition : Z → sigact;
  signo : list Z;
  files : gmap Z (file * bool);
  tty : termios;
  buf : list Z;
  turns : list turn;
  keyboard : list key;
  log : list event
}.

Section readpassphrase.
Context `{Platform}.
Local Abbreviation M := (ST (sys process)).

Definition set_process (f : process → process) : M unit := modify (λ s, Sys (errno s) (f (world s))).
Definition look {A} (f : process → A) : M A := gets (λ s, f (world s)).

Definition set_disposition d p :=
  Process d (signo p) (files p) (tty p) (buf p) (turns p) (keyboard p) (log p).
Definition set_signo l p :=
  Process (disposition p) l (files p) (tty p) (buf p) (turns p) (keyboard p) (log p).
Definition set_files m p :=
  Process (disposition p) (signo p) m (tty p) (buf p) (turns p) (keyboard p) (log p).
Definition set_tty t p :=
  Process (disposition p) (signo p) (files p) t (buf p) (turns p) (keyboard p) (log p).
Definition set_buf b p :=
  Process (disposition p) (signo p) (files p) (tty p) b (turns p) (keyboard p) (log p).
Definition set_turns l p :=
  Process (disposition p) (signo p) (files p) (tty p) (buf p) l (keyboard p) (log p).
Definition set_keyboard l p :=
  Process (disposition p) (signo p) (files p) (tty p) (buf p) (turns p) l (log p).
Definition add_event e p :=
  Process (disposition p) (signo p) (files p) (tty p) (buf p) (turns p) (keyboard p) (log p ++ [e]).

(** [signo[i]] and [signo[i] = v]. *)
Definition get_signo (i : Z) : M Z := l ← look signo; of_option (get_char l i).
Definition put_signo (i v : Z) : M unit :=
  l ← look signo; l ← of_option (set_char l i v); set_process (set_signo l).

Definition handler (s : Z) : M unit := put_signo s 1.

(** A signal runs the handler; a handler of the application, and the default
    action, leave what is modelled here alone. *)
Definition deliver (ev : Z → sighandler → event) (s : Z) : M unit :=
  d ← look disposition;
  let h := sa_handler (d s) in
  set_process (add_event (ev s h));;
  match h with Catch => handler s | _ => mret tt end.

Fixpoint deliver_all (l : list Z) : M unit :=
  match l with
  | [] => mret tt
  | s :: l => deliver Arrived s;; deliver_all l
  end.

(** ** System calls *)

(** Every system call begins with the signals that arrive; its value is the
    error it fails with.  Nothing happens any more when the list is used up. *)
Definition enter : M (option errno_code) :=
  l ← look turns;
  set_process (set_turns (tail l));;
  match l with
  | [] => mret None
  | t :: _ => deliver_all (signals t);; mret (fails t)
  end.

Definition failing {A} (e : errno_code) (r : A) : M A := set_errno e;; mret r.

Definition sigaction (signum : Z) (act : sigact) : M sigact :=
  enter;;
  d ← look disposition;
  set_process (set_disposition (<[signum := act]> d));;
  mret (d signum).

Definition kill_self (signum : Z) : M unit := enter;; deliver Sent signum.

(** The lowest descriptor that is not open. *)
Definition lowest_free (m : gmap Z (file * bool)) : option Z :=
  head (filter (λ fd, m !! fd = None) (seqZ 0 (Z.of_nat (S (size m))))).

Definition open_tty : M Z :=
  e ← enter;
  match e with
  | Some e => failing e (-1)
  | None =>
      m ← look files;
      fd ← of_option (lowest_free m);
      set_process (set_files (<[fd := (Tty, false)]> m));; mret fd
  end.

Definition fcntl_cloexec (fd : Z) : M unit :=
  enter;;
  m ← look files;
  match m !! fd with
  | Some (f, _) => set_process (set_files (<[fd := (f, true)]> m))
  | None => set_errno EBADF
  end.

Definition close (fd : Z) : M unit := enter;; m ← look files; set_process (set_files (delete fd m)).

Definition is_tty (m : gmap Z (file * bool)) (fd : Z) : bool :=
  match m !! fd with Some (Tty, _) => true | _ => false end.

Definition tcgetattr (fd : Z) : M (option termios) :=
  e ← enter;
  m ← look files;
  match e with
  | Some e => failing e None
  | None => if is_tty m fd then t ← look tty; mret (Some t) else failing ENOTTY None
  end.

Definition tcsetattr (fd : Z) (t : termios) : M Z :=
  e ← enter;
  m ← look files;
  match e with
  | Some e => failing e (-1)
  | None => if is_tty m fd then set_process (set_tty t);; mret 0 else failing ENOTTY (-1)
  end.

Definition write (fd : Z) (text : list Z) : M Z :=
  e ← enter;
  match e with
  | Some e => failing e (-1)
  | None => set_process (add_event (Wrote fd text));; mret (Z.of_nat (length text))
  end.

(** The result, and the character if there is one. *)
Definition read (fd : Z) : M (Z * Z) :=
  enter;;
  m ← look files;
  t ← look tty;
  l ← look keyboard;
  if bool_decide (is_Some (m !! fd)) then
    (if is_tty m fd then set_process (add_event (Reads (has (c_lflag t) ECHO))) else mret tt);;
    set_process (set_keyboard (tail l));;
    match l with
    | Char c :: _ => mret (1, c)
    | Error e :: _ => failing e (-1, 0)
    | _ => mret (0, 0)
    end
  else failing EBADF (-1, 0).

(** ** The function *)

(** [sigaction_except_ign(signum, act, old)], returning [*old]. *)
Definition sigaction_except_ign (signum : Z) (act : sigact) : M sigact :=
  old ← sigaction signum act;
  (if bool_decide (sa_handler old = SIG_IGN) && negb (bool_decide (sa_handler act = SIG_IGN))
   then sigaction signum old;; mret tt else mret tt);;
  mret old.

(** Up to the descriptors [input] and [output]; [None] is the return for want
    of a terminal. *)
Definition open_input (flags : Z) : M (option (Z * Z)) :=
  input ← (if has flags RPP_STDIN then mret (-1) else open_tty);
  if input =? -1 then
    if has flags RPP_REQUIRE_TTY then failing ENOTTY None
    else mret (Some (STDIN_FILENO, STDERR_FILENO))
  else fcntl_cloexec input;; mret (Some (input, input)).

(** [term]: [oterm] as it is set for reading. *)
Definition quiet_termios (flags : Z) (oterm : termios) : termios :=
  let lflag := if has flags RPP_ECHO_ON then c_lflag oterm
               else Z.land (c_lflag oterm) (Z.lnot (Z.lor ECHO ECHONL)) in
  let cc := match VSTATUS with
            | Some v => if bool_decide (c_cc oterm !! v = Some VDISABLE) then c_cc oterm
                        else <[v := VDISABLE]> (c_cc oterm)
            | None => c_cc oterm
            end in
  Termios (c_iflag oterm) (c_oflag oterm) (c_cflag oterm) lflag cc.

(** [memset] to 0 and [ECHO]. *)
Definition zero_termios : termios := Termios 0 0 0 (Z.lor 0 ECHO) (replicate NCCS 0).

(** [term] and [oterm]. *)
Definition echo_off (input flags : Z) : M (termios * termios) :=
  o ← (if input =? STDIN_FILENO then mret None else tcgetattr input);
  match o with
  | Some oterm =>
      let term := quiet_termios flags oterm in
      tcsetattr input term;; mret (term, oterm)
  | None => mret (zero_termios, zero_termios)
  end.

Definition sa : sigact := Sigaction Catch ∅ 0.

Definition except_ign : list Z := [SIGALRM; SIGHUP; SIGPIPE; SIGTERM; SIGTSTP; SIGTTIN; SIGTTOU].

(** The calls of [sigaction_except_ign] on these signals, in order. *)
Fixpoint catch_all (l : list Z) : M (list (Z * sigact)) :=
  match l with
  | [] => mret []
  | s :: l => old ← sigaction_except_ign s sa; k ← catch_all l; mret ((s, old) :: k)
  end.

Definition catch_signals : M (sigact * sigact * list (Z * sigact)) :=
  saveint ← sigaction SIGINT sa;
  savequit ← sigaction SIGQUIT sa;
  k ← catch_all except_ign;
  mret (saveint, savequit, k).

Fixpoint uncatch_all (k : list (Z * sigact)) : M unit :=
  match k with
  | [] => mret tt
  | (s, old) :: k => sigaction_except_ign s old;; uncatch_all k
  end.

Definition isupper (c : Z) : bool := (65 <=? c) && (c <=? 90).
Definition islower (c : Z) : bool := (97 <=? c) && (c <=? 122).
Definition isalpha (c : Z) : bool := isupper c || islower c.
Definition tolower (c : Z) : Z := if isupper c then c + 32 else c.
Definition toupper (c : Z) : Z := if islower c then c - 32 else c.

(** What is stored of a character. *)
Definition convert (flags ch : Z) : Z :=
  let ch := if has flags RPP_SEVENBIT then Z.land ch 0x7f else ch in
  if isalpha ch then
    let ch := if has flags RPP_FORCELOWER then tolower ch else ch in
    if has flags RPP_FORCEUPPER then toupper ch else ch
  else ch.

Definition is_newline (ch : Z) : bool := (ch =? 10) || (ch =? 13).

(** [*p = ch]; [p] is an offset into [buf]. *)
Definition store_char (p ch : Z) : M unit :=
  b ← look buf; b ← of_option (set_char b p ch); set_process (set_buf b).

(** The loop: [nr] and [p] at its end.  [p] and [end_] are offsets. *)
Fixpoint read_loop (fuel : nat) (input flags end_ p : Z) : M (Z * Z) :=
  match fuel with
  | O => fail
  | S fuel =>
      r ← read input;
      if (r.1 =? 1) && negb (is_newline r.2) then
        if p <? end_ then
          store_char p (convert flags r.2);; read_loop fuel input flags end_ (p + 1)
        else read_loop fuel input flags end_ p
      else mret (r.1, p)
  end.

(** From the prompt to the newline: [nr] and [save_errno]. *)
Definition read_line (prompt : list Z) (bufsiz flags input output : Z) (term : termios) :
    M (Z * errno_code) :=
  (if has flags RPP_STDIN then mret 0 else write output prompt);;
  l ← look keyboard;
  r ← read_loop (S (length l)) input flags (bufsiz - 1) 0;
  let '(nr, p) := r in
  store_char p 0;;
  save_errno ← gets errno;
  (if negb (has (c_lflag term) ECHO) && negb ((nr =? -1) && bool_decide (save_errno = EINTR))
   then write output [10] else mret 0);;
  mret (nr, save_errno).

Fixpoint restore_loop (fuel : nat) (input : Z) (oterm : termios) : M unit :=
  match fuel with
  | O => fail
  | S fuel =>
      r ← tcsetattr input oterm;
      e ← gets errno;
      ttou ← get_signo SIGTTOU;
      if (r =? -1) && bool_decide (e = EINTR) && (ttou =? 0) then restore_loop fuel input oterm
      else mret tt
  end.

Definition restore_tty (input : Z) (term oterm : termios) : M unit :=
  if bool_decide (term = oterm) then mret tt
  else
    sigttou ← get_signo SIGTTOU;
    l ← look turns;
    restore_loop (S (length l)) input oterm;;
    put_signo SIGTTOU sigttou.

(** From the installation of the handlers until they are taken back: [nr] and
    [save_errno]. *)
Definition guarded (prompt : list Z) (bufsiz flags input output : Z) (term oterm : termios) :
    M (Z * errno_code) :=
  saves ← catch_signals;
  let '(saveint, savequit, k) := saves in
  r ← read_line prompt bufsiz flags input output term;
  restore_tty input term oterm;;
  sigaction SIGINT saveint;;
  sigaction SIGQUIT savequit;;
  uncatch_all k;;
  mret r.

(** From [open] to [close]: [nr] and [save_errno], or [None] for want of a
    terminal. *)
Definition attempt (prompt : list Z) (bufsiz flags : Z) : M (option (Z * errno_code)) :=
  io ← open_input flags;
  match io with
  | None => mret None
  | Some (input, output) =>
      t ← echo_off input flags;
      let '(term, oterm) := t in
      r ← guarded prompt bufsiz flags input output term oterm;
      (if input =? STDIN_FILENO then mret tt else close input);;
      mret (Some r)
  end.

(** The last loop over the signals [l], with [need_restart]. *)
Fixpoint resend (l : list Z) (need_restart : bool) : M bool :=
  match l with
  | [] => mret need_restart
  | i :: l =>
      b ← get_signo i;
      if b =? 0 then resend l need_restart
      else
        kill_self i;;
        resend l (if bool_decide (i ∈ [SIGTSTP; SIGTTIN; SIGTTOU]) then true else need_restart)
  end.

(** From the label [restart] to the end; [None] is the jump back to it. *)
Definition round (prompt : list Z) (bufsiz flags : Z) : M (option bool) :=
  set_process (λ p, set_signo (map (λ _, 0) (signo p)) p);;
  r ← attempt prompt bufsiz flags;
  match r with
  | None => mret (Some false)
  | Some (nr, save_errno) =>
      need_restart ← resend (seqZ 0 (Z.of_nat NSIG)) false;
      if need_restart : bool then mret None
      else
        (if bool_decide (save_errno = errno_other 0) then mret tt else set_errno save_errno);;
        mret (Some (negb (nr =? -1)))
  end.

Fixpoint all_rounds (fuel : nat) (prompt : list Z) (bufsiz flags : Z) : M bool :=
  match fuel with
  | O => fail
  | S fuel =>
      r ← round prompt bufsiz flags;
      match r with
      | Some b => mret b
      | None => all_rounds fuel prompt bufsiz flags
      end
  end.

(** Whether the value is [buf], not NULL.  A round that is followed by another
    has met a signal, so there are no more rounds than system calls that meet
    anything, and one. *)
Definition readpassphrase (prompt : list Z) (bufsiz flags : Z) : M bool :=
  if bufsiz =? 0 then failing EINVAL false
  else
    l ← look turns;
    all_rounds (S (length l)) prompt bufsiz flags.
End readpassphrase.
