(* ===== verification/ReadpassProof.v ===== *)
(** What each part of [readpassphrase] does, one lemma each, with what its
    system calls have in common: signals that arrive, and events. *)
From Stdlib Require Import ZArith Lia.
From stdpp Require Import functions prelude gmap.
From S2P Require Import Prelude CInt PosixWin Readpass.

Local Open Scope Z_scope.
#[local] Arguments wp : simpl never.

(** What is used of the constants. *)
Definition handled `{Platform} : list Z := SIGINT :: SIGQUIT :: except_ign.

Class PlatformLaws `{Platform} : Prop := {
  handled_NoDup : NoDup handled;
  handled_range : Forall (λ i, 0 <= i < Z.of_nat NSIG) handled;
  ECHO_nonzero : ECHO ≠ 0;
  ENOTTY_EINTR : ENOTTY ≠ EINTR
}.

(** ** Lines *)

(** The characters before the first newline, end or error. *)
Fixpoint line (l : list key) : list Z :=
  match l with
  | Char c :: l => if is_newline c then [] else c :: line l
  | _ => []
  end.

(** What ends the line. *)
Definition line_end (l : list key) : key := default EndOfFile (l !! length (line l)).

(** ** Steps *)

Abbreviation disp s := (disposition (world s)).

Definition raised (s : sys process) (i : Z) : Prop :=
  ∃ v, get_char (signo (world s)) i = Some v ∧ v ≠ 0.

Section steps.
Context `{PlatformLaws}.
(** What is allowed of the echo while a character is read. *)
Context (R : bool → Prop).

(** From [s] to [s'] with the events [l], none of them a signal sent.  The
    array [signo] has the signals that were caught, though [SIGTTOU] may be
    taken back. *)
Record Step (s s' : sys process) (l : list event) : Prop := {
  st_log : log (world s') = log (world s) ++ l;
  st_signo : length (signo (world s')) = length (signo (world s));
  st_unsent i h : Sent i h ∉ l;
  st_raised i : raised s' i → raised s i ∨ Arrived i Catch ∈ l;
  st_kept i : i ≠ SIGTTOU → raised s i ∨ Arrived i Catch ∈ l → raised s' i;
  st_turns : turns (world s') `suffix_of` turns (world s);
  st_arrived i h : Arrived i h ∈ l → ∃ t, t ∈ turns (world s) ∧ i ∈ signals t;
  st_shorter i h : Arrived i h ∈ l →
    (length (turns (world s')) < length (turns (world s)))%nat;
  st_reads b : Reads b ∈ l → R b
}.

Lemma step_refl s : Step s s [].
Proof.
  split; try done; try (by intros; set_solver).
  by rewrite app_nil_r.
Qed.

Lemma step_trans s1 s2 s3 l1 l2 : Step s1 s2 l1 → Step s2 s3 l2 → Step s1 s3 (l1 ++ l2).
Proof.
  intros [a1 b1 c1 d1 e1 f1 g1 h1 i1] [a2 b2 c2 d2 e2 f2 g2 h2 i2]. split.
  - by rewrite a2, a1, app_assoc.
  - congruence.
  - intros i h [?|?]%elem_of_app; [by apply (c1 i h)|by apply (c2 i h)].
  - intros i [Hr|?]%d2; [apply d1 in Hr as [?|?]|]; set_solver.
  - intros i Hi Hr. apply e2; [done|]. rewrite elem_of_app in Hr.
    destruct Hr as [?|[?|?]]; [left; apply e1; auto..|by right].
  - by etrans.
  - intros i h [?|(t & Ht & ?)%g2]%elem_of_app; [by eapply g1|].
    exists t. split; [|done]. destruct f1 as [k ->]. set_solver.
  - intros i h [?%h1|?%h2]%elem_of_app; apply suffix_length in f1, f2; lia.
  - set_solver.
Qed.

(** Only what no step looks at changes. *)
Lemma step_silent s s' :
  log (world s') = log (world s) → signo (world s') = signo (world s) →
  turns (world s') = turns (world s) → Step s s' [].
Proof.
  intros E1 E2 E3.
  assert (Hr : ∀ i, raised s' i ↔ raised s i) by (intros i; unfold raised; by rewrite E2).
  split; rewrite ?E1, ?E2, ?E3, ?app_nil_r; try done; intros i; try (by intros; set_solver).
Qed.

Lemma step_after s s1 s2 l :
  Step s s1 l →
  log (world s2) = log (world s1) → signo (world s2) = signo (world s1) →
  turns (world s2) = turns (world s1) → Step s s2 l.
Proof. intros HS E1 E2 E3. rewrite <-(app_nil_r l). eapply step_trans; [done|by apply step_silent]. Qed.

(** One event that is no signal. *)
Lemma step_event s s' e :
  log (world s') = log (world s) ++ [e] → signo (world s') = signo (world s) →
  turns (world s') = turns (world s) →
  match e with Arrived _ _ | Sent _ _ => False | Reads b => R b | Wrote _ _ => True end →
  Step s s' [e].
Proof.
  intros E1 E2 E3 He.
  assert (Hr : ∀ i, raised s' i ↔ raised s i) by (intros i; unfold raised; by rewrite E2).
  split; rewrite ?E1, ?E2, ?E3; try done.
  - by intros i h <-%list_elem_of_singleton.
  - intros i ?. left. by apply Hr.
  - intros i _ [?|<-%list_elem_of_singleton]; [by apply Hr|done].
  - by intros i h <-%list_elem_of_singleton.
  - by intros i h <-%list_elem_of_singleton.
  - by intros b <-%list_elem_of_singleton.
Qed.

(** The handler is only installed for the nine signals. *)
Definition Handling (s : sys process) : Prop :=
  length (signo (world s)) = NSIG ∧ ∀ i, sa_handler (disp s i) = Catch → i ∈ handled.

(** Nothing changes but the signals and the events. *)
Record Same (s s' : sys process) : Prop := {
  same_disp : disposition (world s') = disposition (world s);
  same_files : files (world s') = files (world s);
  same_tty : tty (world s') = tty (world s);
  same_buf : buf (world s') = buf (world s);
  same_keyboard : keyboard (world s') = keyboard (world s)
}.

Lemma same_refl s : Same s s.
Proof. done. Qed.

Lemma same_trans s1 s2 s3 : Same s1 s2 → Same s2 s3 → Same s1 s3.
Proof. intros [] []. split; congruence. Qed.

Lemma inv_same s s' l : Handling s → Step s s' l → Same s s' → Handling s'.
Proof. intros [Hl Hd] HS HK. split; [by rewrite (st_signo _ _ _ HS)|by rewrite (same_disp _ _ HK)]. Qed.

(** The handler is not installed. *)
Definition Uncaught (s : sys process) : Prop := ∀ i, sa_handler (disp s i) ≠ Catch.

(** *** Signals that arrive *)

Lemma in_range i : i ∈ handled → 0 <= i < Z.of_nat NSIG.
Proof. apply (proj1 (Forall_forall _ _) handled_range). Qed.

Lemma get_signo_wp i s (Q : Z → sys process → Prop) :
  length (signo (world s)) = NSIG → 0 <= i < Z.of_nat NSIG →
  (∀ v, get_char (signo (world s)) i = Some v → Q v s) → wp (get_signo i) Q s.
Proof.
  intros Hl Hi HQ. unfold get_signo. wp_step. unfold look. wp_step.
  destruct (get_char_Some (signo (world s)) i) as [v Hv]; [lia|]. rewrite Hv.
  wp_step. by apply HQ.
Qed.

Lemma put_signo_wp i v s (Q : unit → sys process → Prop) :
  length (signo (world s)) = NSIG → 0 <= i < Z.of_nat NSIG →
  (Q tt (Sys (errno s) (set_signo (<[Z.to_nat i := v]> (signo (world s))) (world s)))) →
  wp (put_signo i v) Q s.
Proof.
  intros Hl Hi HQ. unfold put_signo. wp_step. unfold look. wp_step. wp_step.
  rewrite set_char_run by lia. wp_step. by unfold set_process; wp_step.
Qed.

(** The state after [deliver], before [signo] is set. *)
Lemma deliver_wp (ev : Z → sighandler → event) i s (Q : unit → sys process → Prop) :
  Handling s →
  (∀ s', log (world s') = log (world s) ++ [ev i (sa_handler (disp s i))] →
    turns (world s') = turns (world s) → errno s' = errno s → Same s s' →
    length (signo (world s')) = length (signo (world s)) →
    (∀ j, raised s' j ↔ raised s j ∨ j = i ∧ sa_handler (disp s i) = Catch) → Q tt s') →
  wp (deliver ev i) Q s.
Proof.
  intros [Hl Hd] HQ. unfold deliver, look. wp_step. wp_step. wp_step. unfold set_process. wp_step.
  destruct (sa_handler (disp s i)) eqn:Eh;
    try (wp_step; apply HQ; try done; intros j; split; [by left|by intros [?|[_ ?]]]).
  apply put_signo_wp; [done|by apply in_range, Hd|].
  pose proof (in_range i (Hd i Eh)) as Hi.
  apply HQ; simpl; try done.
  - apply length_insert.
  - intros j. unfold raised; simpl. rewrite get_set_char by lia.
    destruct (Z.eqb_spec j i) as [->|Hj]; split.
    + intros _. by right.
    + intros _. by exists 1.
    + by left.
    + by intros [?|[? _]].
Qed.

Lemma deliver_all_wp ss s (Q : unit → sys process → Prop) :
  Handling s →
  (∀ s' l, log (world s') = log (world s) ++ l →
    turns (world s') = turns (world s) → errno s' = errno s → Same s s' →
    length (signo (world s')) = length (signo (world s)) →
    Forall (λ e, match e with
      Arrived i h => i ∈ ss ∧ h = sa_handler (disp s i) | _ => False end) l →
    (∀ j, raised s' j ↔ raised s j ∨ Arrived j Catch ∈ l) → Q tt s') →
  wp (deliver_all ss) Q s.
Proof.
  revert s; induction ss as [|i ss IH]; intros s HI HQ; cbn [deliver_all].
  { wp_step. apply (HQ s []); try done; [by rewrite app_nil_r|]. intros j. set_solver. }
  wp_step. apply deliver_wp; [done|]. intros s1 E1 E2 E3 E4 E5 E6.
  apply IH.
  { destruct HI as [? Hd]. split; [congruence|]. by rewrite (same_disp _ _ E4). }
  intros s2 l F1 F2 F3 F4 F5 F6 F7. apply (HQ s2 (Arrived i (sa_handler (disp s i)) :: l)).
  - by rewrite F1, E1, <-app_assoc.
  - congruence.
  - congruence.
  - by eapply same_trans.
  - congruence.
  - constructor; [set_solver|]. eapply Forall_impl; [exact F6|].
    rewrite (same_disp _ _ E4). intros [] ?; set_solver.
  - intros j. rewrite F7, E6, elem_of_cons. split.
    + intros [[?|[-> Hc]]|?]; [by left| |by right; right].
      right; left. by rewrite Hc.
    + intros [?|[[= -> Hc]|?]]; [by left; left|left; right; by rewrite <-Hc|by right].
Qed.

(** *** [enter] *)

(** The error the system call number [n] from here fails with, if it does. *)
Definition call_fails (n : nat) (s : sys process) : option errno_code :=
  turns (world s) !! n ≫= fails.

(** The signals that arrive find the action there is. *)
Definition Arrivals (s s' : sys process) (l : list event) : Prop :=
  (∀ i h, Arrived i h ∈ l → h = sa_handler (disp s i)) ∧
  (∀ i, raised s' i ↔ raised s i ∨ Arrived i Catch ∈ l).

Lemma enter_arrivals_wp s (Q : option errno_code → sys process → Prop) :
  Handling s →
  (∀ e s' l, Step s s' l → Same s s' → errno s' = errno s →
    e = call_fails 0 s →
    turns (world s') = tail (turns (world s)) → Arrivals s s' l → Q e s') →
  wp enter Q s.
Proof.
  intros HI HQ. unfold enter, look, set_process. wp_step. wp_step. wp_step. wp_step.
  destruct (turns (world s)) as [|t ts] eqn:Et.
  { wp_step. apply (HQ _ _ []); [apply step_silent; by rewrite ?Et|done|done|unfold call_fails; by rewrite Et|done|].
    split; [by intros ?? ?%not_elem_of_nil|]. intros i. set_solver. }
  wp_step. apply deliver_all_wp; [done|]. intros s' l E1 E2 E3 E4 E5 E6 E7. simpl in *.
  rewrite Forall_forall in E6. wp_step. apply (HQ _ _ l); try done.
  - split; rewrite ?E1, ?E2, ?Et; try done.
    + intros i h Hi. by apply E6 in Hi.
    + intros i Hi. by apply E7 in Hi.
    + intros i _ Hi. by apply E7.
    + by exists [t].
    + intros i h Hi. exists t. split; [set_solver|]. by apply E6 in Hi as [? _].
    + intros i h _. simpl. lia.
    + intros b Hb. by apply E6 in Hb.
  - by destruct E4.
  - unfold call_fails. by rewrite Et.
  - split; [by intros i h [_ ?]%E6|done].
Qed.

Lemma enter_wp s (Q : option errno_code → sys process → Prop) :
  Handling s →
  (∀ e s' l, Step s s' l → Same s s' → errno s' = errno s →
    e = call_fails 0 s → turns (world s') = tail (turns (world s)) → Q e s') →
  wp enter Q s.
Proof. intros HI HQ. apply enter_arrivals_wp; [done|]. intros. by eapply HQ. Qed.

(** *** Actions *)

(** Nothing changes but the actions, the signals and the events. *)
Record SameIO (s s' : sys process) : Prop := {
  io_files : files (world s') = files (world s);
  io_tty : tty (world s') = tty (world s);
  io_buf : buf (world s') = buf (world s);
  io_keyboard : keyboard (world s') = keyboard (world s)
}.

Lemma same_io s s' : Same s s' → SameIO s s'.
Proof. by intros []. Qed.

Lemma io_trans s1 s2 s3 : SameIO s1 s2 → SameIO s2 s3 → SameIO s1 s3.
Proof. intros [] []. split; congruence. Qed.

Ltac steps := repeat (eapply step_trans; [eassumption|]); eassumption.

Lemma sigaction_wp i a s (Q : sigact → sys process → Prop) :
  Handling s → (sa_handler a = Catch → i ∈ handled) →
  (∀ s' l, Step s s' l → Handling s' → SameIO s s' →
    disposition (world s') = <[i := a]> (disposition (world s)) → Q (disp s i) s') →
  wp (sigaction i a) Q s.
Proof.
  intros HI Ha HQ. unfold sigaction. wp_step. apply enter_wp; [done|].
  intros e s1 l HS HK _ _ _. unfold look, set_process. do 3 wp_step. rewrite (same_disp _ _ HK).
  apply (HQ _ l); try done; simpl; [by eapply step_after| |].
  - destruct HI as [Hl Hd]. split; simpl; [by rewrite (st_signo _ _ _ HS)|].
    intros j. destruct (decide (i = j)) as [->|Hj].
    + by rewrite fn_lookup_insert.
    + rewrite fn_lookup_insert_ne by done. apply Hd.
  - by apply same_io in HK as [].
Qed.

Lemma sigaction_except_ign_wp i a s (Q : sigact → sys process → Prop) :
  Handling s → (sa_handler a = Catch → i ∈ handled) →
  (∀ s' l, Step s s' l → Handling s' → SameIO s s' →
    (∀ j, j ≠ i → disp s' j = disp s j) →
    disp s' i = (if bool_decide (sa_handler (disp s i) = SIG_IGN) &&
                    negb (bool_decide (sa_handler a = SIG_IGN)) then disp s i else a) →
    Q (disp s i) s') →
  wp (sigaction_except_ign i a) Q s.
Proof.
  intros HI Ha HQ. unfold sigaction_except_ign. wp_step. apply sigaction_wp; [done..|].
  intros s1 l1 S1 I1 K1 D1. wp_step. destruct (_ && _) eqn:E.
  - wp_step. apply sigaction_wp; [done| |].
    { intros Hc. by apply HI. }
    intros s2 l2 S2 I2 K2 D2. do 2 wp_step. apply (HQ s2 (l1 ++ l2)); try done.
    + steps.
    + by eapply io_trans.
    + intros j Hj. by rewrite D2, D1, !fn_lookup_insert_ne by done.
    + by rewrite D2, fn_lookup_insert.
  - do 2 wp_step. apply (HQ s1 l1); try done.
    + intros j Hj. by rewrite D1, fn_lookup_insert_ne by done.
    + by rewrite D1, fn_lookup_insert.
Qed.

(** What is installed: the handler, unless the signal is ignored. *)
Definition Caught (a b : sigact) : Prop :=
  b = sa ∨ sa_handler a = SIG_IGN ∧ b = a.

Lemma catch_all_wp ss s (Q : list (Z * sigact) → sys process → Prop) :
  Handling s → NoDup ss → (∀ i, i ∈ ss → i ∈ handled) →
  (∀ s' l, Step s s' l → Handling s' → SameIO s s' →
    (∀ i, i ∉ ss → disp s' i = disp s i) → (∀ i, i ∈ ss → Caught (disp s i) (disp s' i)) →
    Q (map (λ i, (i, disp s i)) ss) s') →
  wp (catch_all ss) Q s.
Proof.
  revert s Q; induction ss as [|i ss IH]; intros s Q HI Hnd Hin HQ; cbn [catch_all].
  { wp_step. apply (HQ s []); try done; [apply step_refl|]. by intros i ?%not_elem_of_nil. }
  apply NoDup_cons in Hnd as [Hi Hnd].
  wp_step. apply sigaction_except_ign_wp; [done|intros _; apply Hin; set_solver|].
  intros s1 l1 S1 I1 K1 D1 E1. wp_step. apply IH; [done..|intros; apply Hin; set_solver|].
  intros s2 l2 S2 I2 K2 D2 E2. wp_step.
  assert (Hmap : map (λ j, (j, disp s1 j)) ss = map (λ j, (j, disp s j)) ss).
  { apply list_fmap_ext. intros n j Hj. apply list_elem_of_lookup_2 in Hj.
    rewrite D1; [done|]. by intros ->. }
  rewrite Hmap. apply (HQ s2 (l1 ++ l2)); try done.
  - steps.
  - by eapply io_trans.
  - intros j [Hj1 Hj2]%not_elem_of_cons. by rewrite D2, D1.
  - intros j [->|Hj]%elem_of_cons.
    + rewrite D2, E1 by done. unfold Caught. destruct (_ && _) eqn:E; [|by left].
      right. apply andb_true_iff in E as [E _]. by apply bool_decide_eq_true in E.
    + rewrite <-(D1 j) by (by intros ->). by apply E2.
Qed.

Lemma handled_split : (SIGINT ∉ SIGQUIT :: except_ign) ∧ (SIGQUIT ∉ except_ign) ∧ NoDup except_ign.
Proof.
  pose proof handled_NoDup as Hd. unfold handled in Hd.
  rewrite !NoDup_cons in Hd. by destruct Hd as (? & ? & ?).
Qed.

Lemma catch_signals_wp s (Q : sigact * sigact * list (Z * sigact) → sys process → Prop) :
  Handling s →
  (∀ s' l, Step s s' l → Handling s' → SameIO s s' →
    (∀ i, i ∉ handled → disp s' i = disp s i) →
    (∀ i, i ∈ except_ign → Caught (disp s i) (disp s' i)) →
    Q (disp s SIGINT, disp s SIGQUIT, map (λ i, (i, disp s i)) except_ign) s') →
  wp catch_signals Q s.
Proof.
  intros HI HQ. destruct handled_split as (Hint & Hquit & Hnd). unfold catch_signals.
  wp_step. apply sigaction_wp; [done|set_solver|]. intros s1 l1 S1 I1 K1 D1.
  wp_step. apply sigaction_wp; [done|set_solver|]. intros s2 l2 S2 I2 K2 D2.
  wp_step. apply catch_all_wp; [done..|set_solver|]. intros s3 l3 S3 I3 K3 D3 E3. wp_step.
  assert (Hother : ∀ i, i ≠ SIGINT → i ≠ SIGQUIT → disp s2 i = disp s i).
  { intros i ??. by rewrite D2, D1, !fn_lookup_insert_ne by done. }
  assert (Hex : ∀ i, i ∈ except_ign → disp s2 i = disp s i).
  { intros i Hi. apply Hother; intros ->; set_solver. }
  assert (Hmap : map (λ j, (j, disp s2 j)) except_ign = map (λ j, (j, disp s j)) except_ign).
  { apply list_fmap_ext. intros n j Hj. apply list_elem_of_lookup_2 in Hj. by rewrite Hex. }
  rewrite Hmap. replace (disp s1 SIGQUIT) with (disp s SIGQUIT)
    by (rewrite D1, fn_lookup_insert_ne; [done|set_solver]).
  apply (HQ s3 (l1 ++ l2 ++ l3)); try done.
  - steps.
  - eapply io_trans; [|done]. by eapply io_trans.
  - intros i [Hi1 [Hi2 Hi3]%not_elem_of_cons]%not_elem_of_cons. by rewrite D3, Hother.
  - intros i Hi. rewrite <-Hex by done. by apply E3.
Qed.

Lemma uncatch_all_wp k s (Q : unit → sys process → Prop) :
  Handling s → NoDup k.*1 → Forall (λ x, sa_handler x.2 ≠ Catch) k →
  (∀ i a, (i, a) ∈ k → Caught a (disp s i)) →
  (∀ s' l, Step s s' l → Handling s' → SameIO s s' →
    (∀ i, i ∉ k.*1 → disp s' i = disp s i) → (∀ i a, (i, a) ∈ k → disp s' i = a) → Q tt s') →
  wp (uncatch_all k) Q s.
Proof.
  revert s; induction k as [|[i a] k IH]; intros s HI Hnd Hc Hk HQ; cbn [uncatch_all].
  { wp_step. apply (HQ s []); try done; [apply step_refl|]. by intros ?? ?%not_elem_of_nil. }
  rewrite fmap_cons, NoDup_cons in Hnd. destruct Hnd as [Hi Hnd]. simpl in Hi.
  apply Forall_cons in Hc as [Hc1 Hc2]. simpl in Hc1.
  wp_step. apply sigaction_except_ign_wp; [done..|].
  intros s1 l1 S1 I1 K1 D1 E1. apply IH; [done..| |].
  { intros j b Hj. rewrite D1; [apply Hk; set_solver|]. intros ->.
    apply Hi, list_elem_of_fmap. by exists (i, b). }
  intros s2 l2 S2 I2 K2 D2 E2. apply (HQ s2 (l1 ++ l2)); try done.
  - steps.
  - by eapply io_trans.
  - intros j Hj. rewrite fmap_cons, not_elem_of_cons in Hj. destruct Hj as [? ?]. by rewrite D2, D1.
  - intros j b [[= -> ->]|Hj]%elem_of_cons; [|by apply E2].
    rewrite D2, E1 by done. destruct (_ && _) eqn:E; [|done].
    apply andb_true_iff in E as [E1' E2'].
    apply bool_decide_eq_true in E1'. apply negb_true_iff, bool_decide_eq_false in E2'.
    destruct (Hk i a) as [Hsa|[? ?]]; [set_solver| |done]. by rewrite Hsa in E1'.
Qed.

(** *** The terminal *)

(** A system call may fail with [e]. *)
Definition MayFail (s : sys process) (e : errno_code) : Prop :=
  ∃ t, t ∈ turns (world s) ∧ fails t = Some e.

Lemma may_fail_step s s' l e : Step s s' l → MayFail s' e → MayFail s e.
Proof.
  intros HS (t & Ht & He). exists t. split; [|done].
  destruct (st_turns _ _ _ HS) as [k ->]. set_solver.
Qed.

Lemma call_fails_may n s e : call_fails n s = Some e → MayFail s e.
Proof.
  unfold call_fails. intros (t & Ht & He)%bind_Some. exists t. split; [|done].
  by eapply list_elem_of_lookup_2.
Qed.

Lemma call_fails_next n s s' :
  turns (world s') = tail (turns (world s)) → call_fails n s' = call_fails (S n) s.
Proof. intros E. unfold call_fails. rewrite E. by destruct (turns (world s)). Qed.

Lemma lowest_free_Some m : ∃ fd, lowest_free m = Some fd ∧ m !! fd = None ∧ 0 <= fd.
Proof.
  unfold lowest_free. destruct (filter _ _) as [|fd l] eqn:E.
  - exfalso. assert (Hsub : list_to_set (seqZ 0 (Z.of_nat (S (size m)))) ⊆ dom m).
    { intros fd Hfd%elem_of_list_to_set. apply elem_of_dom. apply not_eq_None_Some. intros Hm.
      assert (Hin : fd ∈ filter (λ fd, m !! fd = None) (seqZ 0 (Z.of_nat (S (size m)))))
        by by apply list_elem_of_filter.
      rewrite E in Hin. by apply not_elem_of_nil in Hin. }
    apply subseteq_size in Hsub. rewrite size_list_to_set in Hsub by apply NoDup_seqZ.
    rewrite length_seqZ, size_dom, Nat2Z.id in Hsub. lia.
  - exists fd. assert (Hin : fd ∈ fd :: l) by set_solver.
    rewrite <-E in Hin. apply list_elem_of_filter in Hin as [Hm [? ?]%elem_of_seqZ]. done.
Qed.

(** Nothing changes but the descriptors, the signals and the events. *)
Record SameTty (s s' : sys process) : Prop := {
  tty_disp : disposition (world s') = disposition (world s);
  tty_tty : tty (world s') = tty (world s);
  tty_buf : buf (world s') = buf (world s);
  tty_keyboard : keyboard (world s') = keyboard (world s)
}.

Lemma same_tty_of s s' : Same s s' → SameTty s s'.
Proof. by intros []. Qed.

(** The descriptors [open_input] returns. *)
Definition Opened (flags : Z) (s s' : sys process) (io : option (Z * Z)) : Prop :=
  match io with
  | None =>
      has flags RPP_REQUIRE_TTY = true ∧ files (world s') = files (world s) ∧ errno s' = ENOTTY
      ∧ (has flags RPP_STDIN = true ∨ ∃ e, MayFail s e)
  | Some (i, o) =>
      i = STDIN_FILENO ∧ o = STDERR_FILENO ∧ files (world s') = files (world s)
      ∧ has flags RPP_REQUIRE_TTY = false ∧ (has flags RPP_STDIN = true ∨ is_Some (call_fails 0 s))
      ∨ i = o ∧ files (world s) !! i = None ∧ files (world s') = <[i := (Tty, true)]> (files (world s))
        ∧ ∀ n, call_fails n s' = call_fails (S (S n)) s
  end.

Lemma open_tty_wp s (Q : Z → sys process → Prop) :
  Handling s →
  (∀ fd s' l, Step s s' l → Handling s' → SameTty s s' → (Uncaught s → ∀ i, Arrived i Catch ∉ l) →
    turns (world s') = tail (turns (world s)) →
    (fd = -1 ∧ files (world s') = files (world s) ∧ is_Some (call_fails 0 s)
     ∨ 0 <= fd ∧ files (world s) !! fd = None
       ∧ files (world s') = <[fd := (Tty, false)]> (files (world s))) → Q fd s') →
  wp open_tty Q s.
Proof.
  intros HI HQ. unfold open_tty. wp_step. apply enter_arrivals_wp; [done|].
  intros e s1 l HS HK _ He Ht [HA _].
  assert (HC : Uncaught s → ∀ i, Arrived i Catch ∉ l) by (intros HU i Hi; by apply HA, eq_sym, HU in Hi).
  pose proof (inv_same _ _ _ HI HS HK) as HI'.
  destruct e as [e|].
  - unfold failing, set_errno. do 3 wp_step. apply (HQ _ _ l); try done.
    + by eapply step_after.
    + by apply same_tty_of in HK as [].
    + left. split; [done|]. split; [by apply HK|]. by rewrite <-He.
  - unfold look, set_process. do 2 wp_step. rewrite (same_files _ _ HK).
    destruct (lowest_free_Some (files (world s))) as (fd & Hfd & Hm & Hpos). rewrite Hfd.
    do 4 wp_step. apply (HQ _ _ l); try done.
    + by eapply step_after.
    + by apply same_tty_of in HK as [].
    + right. by rewrite Hm.
Qed.

Lemma open_input_wp flags s (Q : option (Z * Z) → sys process → Prop) :
  Handling s →
  (∀ io s' l, Step s s' l → Handling s' → SameTty s s' → Opened flags s s' io →
    (io = None → Uncaught s → ∀ i, Arrived i Catch ∉ l) → Q io s') →
  wp (open_input flags) Q s.
Proof.
  intros HI HQ. unfold open_input. wp_step.
  assert (Hstdin : ∀ s1 l, Step s s1 l → Handling s1 → SameTty s s1 →
    files (world s1) = files (world s) → (has flags RPP_STDIN = true ∨ is_Some (call_fails 0 s)) →
    (Uncaught s → ∀ i, Arrived i Catch ∉ l) →
    wp (if has flags RPP_REQUIRE_TTY then failing ENOTTY None
        else mret (Some (STDIN_FILENO, STDERR_FILENO))) Q s1).
  { intros s1 l S1 I1 K1 F1 Hwhy HC. destruct (has flags RPP_REQUIRE_TTY) eqn:Hreq.
    - unfold failing, set_errno. do 3 wp_step. apply (HQ _ _ l); try done.
      + by eapply step_after.
      + by destruct K1.
      + split_and!; [done..|].
        destruct Hwhy as [?|[e He]]; [by left|right; exists e; by eapply call_fails_may].
    - wp_step. apply (HQ _ _ l); try done. left. by rewrite Hreq. }
  destruct (has flags RPP_STDIN) eqn:Hs.
  { wp_step. apply (Hstdin s []); try done; [apply step_refl|by left|].
    by intros _ i ?%not_elem_of_nil. }
  apply open_tty_wp; [done|]. intros fd s1 l S1 I1 K1 HC T1 [(-> & F1 & He)|(Hpos & Hm & F1)].
  { cbn. by apply (Hstdin s1 l); [..|right|]. }
  rewrite (proj2 (Z.eqb_neq fd (-1))) by lia.
  wp_step. unfold fcntl_cloexec. wp_step. apply enter_wp; [done|].
  intros e s2 l2 S2 K2 _ _ T2. pose proof (inv_same _ _ _ I1 S2 K2) as I2.
  unfold look, set_process. do 2 wp_step. rewrite (same_files _ _ K2), F1, lookup_insert_eq.
  do 2 wp_step. apply (HQ _ _ (l ++ l2)); try done.
  - eapply step_trans; [done|]. by eapply step_after.
  - destruct K1, K2. split; simpl; congruence.
  - right. simpl. split_and!; [done..|by rewrite insert_insert_eq|]. intros n.
    rewrite <-(call_fails_next _ s s1), <-(call_fails_next _ s1 s2) by done. done.
Qed.

(** Nothing changes but the mode of the terminal, the signals and the events. *)
Record SameFiles (s s' : sys process) : Prop := {
  files_disp : disposition (world s') = disposition (world s);
  files_files : files (world s') = files (world s);
  files_buf : buf (world s') = buf (world s);
  files_keyboard : keyboard (world s') = keyboard (world s)
}.

Lemma same_files_of s s' : Same s s' → SameFiles s s'.
Proof. by intros []. Qed.

Lemma files_trans s1 s2 s3 : SameFiles s1 s2 → SameFiles s2 s3 → SameFiles s1 s3.
Proof. intros [] []. split; congruence. Qed.

Lemma inv_files s s' l : Handling s → Step s s' l → SameFiles s s' → Handling s'.
Proof. intros [Hl Hd] HS HK. split; [by rewrite (st_signo _ _ _ HS)|by rewrite (files_disp _ _ HK)]. Qed.

Lemma tcgetattr_wp fd s (Q : option termios → sys process → Prop) :
  Handling s →
  (∀ o s' l, Step s s' l → Same s s' → turns (world s') = tail (turns (world s)) →
    match o with
    | Some t => t = tty (world s) ∧ is_tty (files (world s)) fd = true
    | None => is_tty (files (world s)) fd = false ∨ is_Some (call_fails 0 s)
    end → Q o s') →
  wp (tcgetattr fd) Q s.
Proof.
  intros HI HQ. unfold tcgetattr. wp_step. apply enter_wp; [done|].
  intros e s1 l HS HK _ He Hturns. unfold look. do 2 wp_step. rewrite (same_files _ _ HK).
  unfold failing, set_errno. destruct e as [e|]; [|destruct (is_tty _ fd) eqn:Ht]; do 3 wp_step.
  - apply (HQ _ _ l); [by eapply step_after|by destruct HK|done|right]. by rewrite <-He.
  - apply (HQ _ _ l); try done. by rewrite (same_tty _ _ HK).
  - apply (HQ _ _ l); [by eapply step_after|by destruct HK|done|by left].
Qed.

Lemma tcsetattr_wp fd t s (Q : Z → sys process → Prop) :
  Handling s →
  (∀ r s' l, Step s s' l → SameFiles s s' → turns (world s') = tail (turns (world s)) →
    (r = 0 ∧ tty (world s') = t ∧ is_tty (files (world s)) fd = true
     ∨ r = -1 ∧ tty (world s') = tty (world s)
       ∧ (is_tty (files (world s)) fd = false ∧ errno s' = ENOTTY
          ∨ call_fails 0 s = Some (errno s'))) → Q r s') →
  wp (tcsetattr fd t) Q s.
Proof.
  intros HI HQ. unfold tcsetattr. wp_step. apply enter_wp; [done|].
  intros e s1 l HS HK _ He Ht. apply same_files_of in HK as HF.
  pose proof (same_tty _ _ HK) as Htty. unfold look, set_process. do 2 wp_step.
  rewrite (files_files _ _ HF).
  unfold failing, set_errno.
  destruct e as [e|]; [|destruct (is_tty _ fd) eqn:Htt]; do 3 wp_step;
    (apply (HQ _ _ l); [by eapply step_after|by destruct HF|done|]).
  - right. by split_and!; [..|right].
  - by left.
  - right. split_and!; [done..|by left].
Qed.

(** What [echo_off] returns and does: nothing without a terminal to set;
    otherwise [oterm] is its mode, which is now [term], unless a call failed. *)
Definition EchoOff (flags input : Z) (s s' : sys process) (t : termios * termios) : Prop :=
  t = (zero_termios, zero_termios) ∧ tty (world s') = tty (world s)
    ∧ (input = STDIN_FILENO ∨ is_tty (files (world s)) input = false ∨ is_Some (call_fails 0 s))
  ∨ t = (quiet_termios flags (tty (world s)), tty (world s))
    ∧ input ≠ STDIN_FILENO ∧ is_tty (files (world s)) input = true
    ∧ (tty (world s') = quiet_termios flags (tty (world s))
       ∨ tty (world s') = tty (world s) ∧ is_Some (call_fails 1 s)).

Lemma echo_off_wp input flags s (Q : termios * termios → sys process → Prop) :
  Handling s →
  (∀ t s' l, Step s s' l → SameFiles s s' → EchoOff flags input s s' t → Q t s') →
  wp (echo_off input flags) Q s.
Proof.
  intros HI HQ. unfold echo_off. wp_step. destruct (Z.eqb_spec input STDIN_FILENO) as [->|Hin].
  { do 2 wp_step. apply (HQ _ _ []); [apply step_refl|done|]. left. by split_and!; [..|left]. }
  apply tcgetattr_wp; [done|]. intros [t|] s1 l S1 K1 T1 H1.
  - destruct H1 as [-> Htt]. wp_step. pose proof (inv_same _ _ _ HI S1 K1) as I1.
    apply tcsetattr_wp; [done|]. intros r s2 l2 S2 K2 _ H2. wp_step.
    pose proof (same_files_of _ _ K1) as F1. rewrite (files_files _ _ F1) in H2.
    apply (HQ _ _ (l ++ l2)); [steps|by eapply files_trans|]. right. split_and!; [done..|].
    destruct H2 as [(_ & H2 & _)|(_ & H2 & [Hf|Hf])]; [by left|destruct Hf; congruence|right].
    rewrite H2. split; [by apply K1|]. rewrite <-(call_fails_next 0 s s1), Hf by done. done.
  - wp_step. apply (HQ _ _ l); [done|by apply same_files_of|]. left.
    split_and!; [done|by apply K1|by right].
Qed.

(** *** Reading *)

(** Nothing changes but the memory, the characters to come, the signals and the
    events. *)
Record SameSetup (s s' : sys process) : Prop := {
  setup_disp : disposition (world s') = disposition (world s);
  setup_files : files (world s') = files (world s);
  setup_tty : tty (world s') = tty (world s)
}.

Lemma same_setup s s' : Same s s' → SameSetup s s'.
Proof. by intros []. Qed.

Lemma setup_trans s1 s2 s3 : SameSetup s1 s2 → SameSetup s2 s3 → SameSetup s1 s3.
Proof. intros [] []. split; congruence. Qed.

Lemma inv_setup s s' l : Handling s → Step s s' l → SameSetup s s' → Handling s'.
Proof. intros [Hl Hd] HS HK. split; [by rewrite (st_signo _ _ _ HS)|by rewrite (setup_disp _ _ HK)]. Qed.

Definition key_result (k : key) : Z * Z :=
  match k with Char c => (1, c) | EndOfFile => (0, 0) | Error _ => (-1, 0) end.

Definition errno_after (k : key) (e : errno_code) : errno_code :=
  match k with Error e => e | _ => e end.

Definition next_key (l : list key) : key := default EndOfFile (head l).

(** The descriptor is open, and the echo is as it may be. *)
Definition Readable (input : Z) (s : sys process) : Prop :=
  is_Some (files (world s) !! input) ∧
  (is_tty (files (world s)) input = true → R (has (c_lflag (tty (world s))) ECHO)).

Lemma readable_setup input s s' : Readable input s → SameSetup s s' → Readable input s'.
Proof. intros Hr []. unfold Readable in *. congruence. Qed.

Lemma read_wp fd s (Q : Z * Z → sys process → Prop) :
  Handling s → Readable fd s →
  (∀ s' l, Step s s' l → SameSetup s s' → buf (world s') = buf (world s) →
    keyboard (world s') = tail (keyboard (world s)) →
    errno s' = errno_after (next_key (keyboard (world s))) (errno s) →
    Q (key_result (next_key (keyboard (world s)))) s') →
  wp (read fd) Q s.
Proof.
  intros HI [Hfd HR] HQ. unfold read. wp_step. apply enter_wp; [done|].
  intros e s1 l HS HK He _ _. unfold look, set_process. do 6 wp_step.
  rewrite (same_files _ _ HK), (same_tty _ _ HK), (same_keyboard _ _ HK), bool_decide_eq_true_2 by done.
  apply same_setup in HK as HU. pose proof (same_buf _ _ HK) as Hb.
  wp_step. apply wp_mono with (Q := λ _ s2, ∃ l2, Step s s2 l2 ∧ SameSetup s s2 ∧
    buf (world s2) = buf (world s) ∧ errno s2 = errno s).
  { destruct (is_tty _ fd) eqn:Ht; wp_step.
    - exists (l ++ [Reads (has (c_lflag (tty (world s))) ECHO)]).
      split; [eapply step_trans; [exact HS|apply step_event; auto]|].
      split; [by destruct HU|done].
    - by exists l. }
  intros [] s2 (l2 & S2 & U2 & B2 & E2). do 2 wp_step. unfold next_key in HQ.
  destruct (keyboard (world s)) as [|[c| |e'] ks]; simpl in HQ;
    unfold failing, set_errno; repeat wp_step;
    (apply (HQ _ l2); [by eapply step_after|by destruct U2|done..]).
Qed.

Lemma line_end_cons c l : is_newline c = false → line_end (Char c :: l) = line_end l.
Proof. intros Hc. unfold line_end. simpl. by rewrite Hc. Qed.

Lemma line_end_head k l : line (k :: l) = [] → line_end (k :: l) = k.
Proof. intros Hk. unfold line_end. by rewrite Hk. Qed.

Lemma insert_middle {A} (pre : list A) x c rest :
  <[length pre := c]> (pre ++ x :: rest) = pre ++ c :: rest.
Proof. by induction pre; simpl; f_equal. Qed.

Lemma store_char_wp p c s pre x rest (Q : unit → sys process → Prop) :
  buf (world s) = pre ++ x :: rest → p = Z.of_nat (length pre) →
  Q tt (Sys (errno s) (set_buf (pre ++ c :: rest) (world s))) → wp (store_char p c) Q s.
Proof.
  intros Hb -> HQ. unfold store_char, look, set_process. do 2 wp_step. rewrite Hb.
  rewrite set_char_run by (rewrite length_app; cbn [length]; lia).
  do 3 wp_step. by rewrite Nat2Z.id, insert_middle.
Qed.

(** What is stored of the keys [l] before offset [E], from offset [n]. *)
Definition stored (flags : Z) (l : list key) (E n : nat) : list Z :=
  convert flags <$> take (E - n) (line l).

Lemma read_loop_wp input flags E fuel pre rest s (Q : Z * Z → sys process → Prop) :
  Handling s → Readable input s → (length (keyboard (world s)) < fuel)%nat →
  buf (world s) = pre ++ rest → (length pre <= E < length pre + length rest)%nat →
  (∀ s' l, Step s s' l → SameSetup s s' →
    let ks := keyboard (world s) in let got := stored flags ks E (length pre) in
    buf (world s') = pre ++ got ++ drop (length got) rest →
    keyboard (world s') = drop (S (length (line ks))) ks →
    errno s' = errno_after (line_end ks) (errno s) →
    Q ((key_result (line_end ks)).1, Z.of_nat (length pre + length got)) s') →
  wp (read_loop fuel input flags (Z.of_nat E) (Z.of_nat (length pre))) Q s.
Proof.
  revert pre rest s Q; induction fuel as [|fuel IH]; intros pre rest s Q HI HR Hfuel Hb HE HQ; [lia|].
  cbn [read_loop]. wp_step. apply read_wp; [done..|]. intros s1 l1 S1 U1 B1 K1 E1.
  pose proof (inv_setup _ _ _ HI S1 U1) as I1. pose proof (readable_setup _ _ _ HR U1) as R1.
  assert (Hstop : line (keyboard (world s)) = [] →
    wp (mret ((key_result (next_key (keyboard (world s)))).1, Z.of_nat (length pre))) Q s1).
  { intros Hl. wp_step. specialize (HQ s1 l1 S1 U1). unfold stored in HQ. rewrite Hl in HQ.
    rewrite take_nil in HQ. cbn [fmap list_fmap length app drop] in HQ. rewrite Nat.add_0_r in HQ.
    assert (Hend : line_end (keyboard (world s)) = next_key (keyboard (world s))).
    { destruct (keyboard (world s)) as [|k ks]; [done|by apply line_end_head]. }
    rewrite Hend, drop_0 in HQ. apply HQ; [congruence| |done]. rewrite K1.
    by destruct (keyboard (world s)). }
  destruct (keyboard (world s)) as [|[c| |e] ks]; try by apply Hstop.
  change (key_result (next_key (Char c :: ks))) with (1, c) in *. cbn [fst snd] in *.
  simpl in K1, E1, Hfuel.
  destruct (is_newline c) eqn:Hc; cbn [negb andb Z.eqb Pos.eqb].
  { apply Hstop. cbn [line]. by rewrite Hc. }
  rewrite line_end_cons in HQ by done. unfold stored in HQ. cbn [line] in HQ. rewrite Hc in HQ.
  destruct (Z.ltb_spec (Z.of_nat (length pre)) (Z.of_nat E)) as [Hlt|Hge].
  - destruct rest as [|x rest]; [cbn [length] in HE; lia|]. wp_step.
    eapply store_char_wp; [by rewrite B1|done|].
    replace (Z.of_nat (length pre) + 1) with (Z.of_nat (length (pre ++ [convert flags c])))
      by (rewrite length_app; cbn [length]; lia).
    set (s2 := Sys (errno s1) (set_buf _ (world s1))).
    assert (S2 : Step s s2 l1) by by eapply step_after.
    assert (U2 : SameSetup s s2) by by destruct U1.
    apply (IH _ rest).
    + exact (inv_setup _ _ _ HI S2 U2).
    + exact (readable_setup _ _ _ HR U2).
    + simpl. rewrite K1. lia.
    + simpl. by rewrite <-app_assoc.
    + rewrite length_app. cbn [length] in HE |- *. lia.
    + intros s3 l3 S3 U3. cbv zeta. unfold s2. cbn [world keyboard set_buf errno].
      rewrite K1. unfold stored. rewrite length_app. cbn [length]. intros B3 K3 E3.
      replace (E - length pre)%nat with (S (E - (length pre + 1))) in HQ by lia.
      cbn [take fmap list_fmap length] in HQ.
      rewrite <-(Nat.add_assoc _ 1). apply (HQ s3 (l1 ++ l3)).
      * steps.
      * by eapply setup_trans.
      * rewrite B3, <-app_assoc. cbn [app drop]. by do 2 f_equal.
      * done.
      * by rewrite E3, E1.
  - rewrite <-K1 in *. eapply IH; [done..|lia|by rewrite B1|done|].
    intros s3 l3 S3 U3. cbv zeta. unfold stored.
    replace (E - length pre)%nat with 0%nat in * by lia.
    rewrite !take_0 in *. cbn [fmap list_fmap length] in *. intros B3 K3 E3.
    apply (HQ s3 (l1 ++ l3)); [steps|by eapply setup_trans|done| |by rewrite E3, E1].
    by rewrite K3, K1.
Qed.

Lemma write_wp fd text s (Q : Z → sys process → Prop) :
  Handling s → (∀ r s' l, Step s s' l → Same s s' → Q r s') → wp (write fd text) Q s.
Proof.
  intros HI HQ. unfold write. wp_step. apply enter_wp; [done|]. intros e s1 l HS HK _ _ _.
  unfold failing, set_errno, set_process. destruct e as [e|]; do 3 wp_step.
  - apply (HQ _ _ l); [by eapply step_after|by destruct HK].
  - apply (HQ _ _ (l ++ [Wrote fd text])); [|by destruct HK].
    eapply step_trans; [done|by apply step_event].
Qed.

(** A NUL after what was stored. *)
Definition Terminated (flags : Z) (ks : list key) (E : nat) (b : list Z) : Prop :=
  ∃ rest, b = stored flags ks E 0 ++ 0 :: rest ∧ length b = S E.

Lemma length_stored flags ks E : (length (stored flags ks E 0) <= E)%nat.
Proof. unfold stored. rewrite length_fmap, length_take. lia. Qed.

Lemma read_line_wp prompt flags E input output term s (Q : Z * errno_code → sys process → Prop) :
  Handling s → Readable input s → length (buf (world s)) = S E →
  (∀ s' l e, let ks := keyboard (world s) in
    Step s s' l → SameSetup s s' → Terminated flags ks E (buf (world s')) →
    keyboard (world s') = drop (S (length (line ks))) ks →
    (∀ e', line_end ks = Error e' → e = e') →
    Q ((key_result (line_end ks)).1, e) s') →
  wp (read_line prompt (Z.of_nat (S E)) flags input output term) Q s.
Proof.
  intros HI HR HE HQ. unfold read_line. wp_step.
  apply wp_mono with (Q := λ _ s1, ∃ l, Step s s1 l ∧ Same s s1).
  { destruct (has flags RPP_STDIN); [wp_step; exists []; split; [apply step_refl|done]|].
    apply write_wp; [done|eauto]. }
  intros _ s1 (l1 & S1 & K1). pose proof (inv_same _ _ _ HI S1 K1) as I1.
  unfold look. do 2 wp_step. wp_step.
  replace (Z.of_nat (S E) - 1) with (Z.of_nat E) by lia.
  eapply (read_loop_wp input flags E _ [] (buf (world s))); [done| |lia| | |].
  { by eapply readable_setup, same_setup. }
  { by rewrite (same_buf _ _ K1). }
  { cbn [length]. lia. }
  intros s2 l2 S2 U2. cbv zeta. cbn [app length Nat.add].
  rewrite (same_keyboard _ _ K1). set (ks := keyboard (world s)) in *. intros B2 Ks2 E2.
  pose proof (inv_setup _ _ _ I1 S2 U2) as I2. pose proof (length_stored flags ks E) as Hlen.
  destruct (drop (length (stored flags ks E 0)) (buf (world s))) as [|x rest] eqn:Hrest.
  { apply (f_equal length) in Hrest. rewrite length_drop in Hrest. cbn [length] in Hrest. lia. }
  cbn beta iota. wp_step. eapply store_char_wp; [done|done|]. wp_step. wp_step.
  set (s3 := Sys _ _).
  assert (S3 : Step s s3 (l1 ++ l2)) by (eapply step_after; [by eapply step_trans|done..]).
  assert (U3 : SameSetup s s3) by (destruct K1, U2; split; simpl; congruence).
  assert (HT : Terminated flags ks E (stored flags ks E 0 ++ 0 :: rest)).
  { exists rest. split; [done|]. apply (f_equal length) in Hrest.
    rewrite length_drop in Hrest. cbn [length] in Hrest. rewrite length_app. cbn [length]. lia. }
  assert (He : ∀ e', line_end ks = Error e' → errno s3 = e').
  { intros e' He. simpl. by rewrite E2, He. }
  wp_step. destruct (_ && _).
  - apply write_wp; [exact (inv_setup _ _ _ HI S3 U3)|]. intros r s4 l4 S4 K4. wp_step.
    apply (HQ s4 ((l1 ++ l2) ++ l4)); [by eapply step_trans| | | |done].
    + eapply setup_trans; [done|by apply same_setup].
    + by rewrite (same_buf _ _ K4).
    + by rewrite (same_keyboard _ _ K4).
  - do 2 wp_step. by apply (HQ s3 (l1 ++ l2)).
Qed.

(** *** Restoring *)

Lemma raised_signo s i v : get_char (signo (world s)) i = Some v → ¬ raised s i → v = 0.
Proof. intros Hv Hn. destruct (decide (v = 0)) as [|Hne]; [done|]. destruct Hn. by exists v. Qed.

(** The only signal or failure there is is an interruption that is not
    [SIGTTOU]. *)
Definition Benign (s : sys process) : Prop :=
  (∀ e, MayFail s e → e = EINTR) ∧ (∀ t, t ∈ turns (world s) → SIGTTOU ∉ signals t).

Lemma benign_step s s' l : Step s s' l → Benign s → Benign s'.
Proof.
  intros HS [H1 H2]. split.
  - intros e He. by eapply H1, may_fail_step.
  - intros t Ht. apply H2. destruct (st_turns _ _ _ HS) as [k ->]. set_solver.
Qed.

Lemma benign_raised s s' l :
  Step s s' l → Benign s → ¬ raised s SIGTTOU → ¬ raised s' SIGTTOU.
Proof.
  intros HS [_ H2] Hn [?|Ha]%(st_raised _ _ _ HS); [done|].
  apply (st_arrived _ _ _ HS) in Ha as (t & Ht & Hi). by apply (H2 t).
Qed.

Lemma ttou_handled : SIGTTOU ∈ handled.
Proof. unfold handled, except_ign. set_solver. Qed.

Lemma restore_loop_wp fuel input oterm s (Q : unit → sys process → Prop) :
  Handling s → (length (turns (world s)) < fuel)%nat →
  (∀ s' l, Step s s' l → SameFiles s s' →
    (tty (world s') = oterm ∨ tty (world s') = tty (world s)) →
    (Benign s → ¬ raised s SIGTTOU → is_tty (files (world s)) input = true →
      tty (world s') = oterm) → Q tt s') →
  wp (restore_loop fuel input oterm) Q s.
Proof.
  revert s; induction fuel as [|fuel IH]; intros s HI Hfuel HQ; [lia|]. cbn [restore_loop].
  wp_step. apply tcsetattr_wp; [done|]. intros r s1 l1 S1 F1 T1 H1.
  pose proof (inv_files _ _ _ HI S1 F1) as I1. do 2 wp_step. wp_step.
  apply get_signo_wp; [by destruct I1|apply in_range, ttou_handled|]. intros v Hv.
  destruct (_ && _) eqn:Eif.
  - apply andb_true_iff in Eif as [[Hr%Z.eqb_eq Hintr%bool_decide_eq_true]%andb_true_iff _].
    destruct H1 as [(Hr0 & _)|(_ & H1 & [[_ He]|Hf])]; [lia|destruct ENOTTY_EINTR; congruence|].
    apply IH; [done| |].
    { rewrite T1. apply call_fails_may in Hf as (t & Ht & _).
      destruct (turns (world s)); [by apply not_elem_of_nil in Ht|]. simpl in *. lia. }
    intros s2 l2 S2 F2 H2 B2. apply (HQ s2 (l1 ++ l2)); [steps|by eapply files_trans| |].
    + destruct H2 as [?|H2]; [by left|right; congruence].
    + intros HB Hn Htt. apply B2; [by eapply benign_step|by eapply benign_raised|].
      by rewrite (files_files _ _ F1).
  - wp_step. apply (HQ s1 l1); [done..| |].
    + destruct H1 as [(_ & ? & _)|(_ & ? & _)]; [by left|by right].
    + intros HB Hn Htt. destruct H1 as [(_ & ? & _)|(-> & _ & [[? _]|Hf])]; [done|congruence|].
      assert (Hv0 : v = 0) by (eapply raised_signo; [done|by eapply benign_raised]).
      apply call_fails_may, HB in Hf. by rewrite Hf, Hv0, bool_decide_eq_true_2 in Eif.
Qed.

Lemma restore_tty_wp input term oterm s (Q : unit → sys process → Prop) :
  Handling s →
  (∀ s' l, Step s s' l → SameFiles s s' →
    (tty (world s') = tty (world s) ∨ term ≠ oterm ∧ tty (world s') = oterm) →
    (Benign s → ¬ raised s SIGTTOU → is_tty (files (world s)) input = true → term ≠ oterm →
      tty (world s') = oterm) → Q tt s') →
  wp (restore_tty input term oterm) Q s.
Proof.
  intros HI HQ. unfold restore_tty. case_bool_decide as Hterm.
  { wp_step. apply (HQ s []); [apply step_refl|done|by left|done]. }
  pose proof (in_range _ ttou_handled) as Hr.
  wp_step. apply get_signo_wp; [by destruct HI|done|]. intros v Hv. unfold look. do 2 wp_step. wp_step.
  apply restore_loop_wp; [done|lia|]. intros s1 l1 S1 F1 H1 B1.
  destruct (inv_files _ _ _ HI S1 F1) as [L1 D1]. apply put_signo_wp; [done..|].
  apply (HQ _ l1); [|by destruct F1|destruct H1; [right|left]; done|by intros; apply B1].
  assert (Hother : ∀ i, i ≠ SIGTTOU →
    raised (Sys (errno s1) (set_signo (<[Z.to_nat SIGTTOU := v]> (signo (world s1))) (world s1))) i
    ↔ raised s1 i).
  { intros i Hi. unfold raised; simpl. rewrite get_set_char by lia.
    by rewrite (proj2 (Z.eqb_neq _ _) Hi). }
  destruct S1 as [a b c d e f g h k]. split; simpl; try done.
  - by rewrite length_insert.
  - intros i Hi. destruct (decide (i = SIGTTOU)) as [->|Hne]; [|by apply d, Hother].
    left. exists v. split; [done|]. destruct Hi as (w & Hw & Hw0). simpl in Hw.
    rewrite get_set_char, Z.eqb_refl in Hw by lia. congruence.
  - intros i Hi HA. apply Hother; [done|]. by apply e.
Qed.

Lemma close_wp fd s (Q : unit → sys process → Prop) :
  Handling s →
  (∀ s' l, Step s s' l → SameTty s s' →
    files (world s') = delete fd (files (world s)) → Q tt s') →
  wp (close fd) Q s.
Proof.
  intros HI HQ. unfold close. wp_step. apply enter_wp; [done|]. intros e s1 l HS HK _ _ _.
  unfold look, set_process. do 3 wp_step. apply (HQ _ l); [by eapply step_after|by destruct HK|].
  simpl. by rewrite (same_files _ _ HK).
Qed.

(** *** Sending the signals again *)

(** The events of [resend] for the signals in [ss]: each that was raised is
    sent, and nothing else. *)
Record Sends (ss : list Z) (s s' : sys process) (l : list event) : Prop := {
  sn_same : Same s s';
  sn_log : log (world s') = log (world s) ++ l;
  sn_signo : length (signo (world s')) = length (signo (world s));
  sn_raised i : raised s' i ↔ raised s i;
  sn_sent i h : Sent i h ∈ l ↔ i ∈ ss ∧ raised s i ∧ h = sa_handler (disp s i);
  sn_caught i : Arrived i Catch ∉ l;
  sn_turns : turns (world s') `suffix_of` turns (world s);
  sn_reads b : Reads b ∈ l → R b
}.

Lemma kill_self_wp i s (Q : unit → sys process → Prop) :
  Handling s → Uncaught s → raised s i →
  (∀ s' l, Sends [i] s s' l → Handling s' → Q tt s') →
  wp (kill_self i) Q s.
Proof.
  intros HI HU Hi HQ. unfold kill_self. wp_step. apply enter_arrivals_wp; [done|].
  intros e s1 l1 S1 K1 _ _ _ [A1 R1]. pose proof (inv_same _ _ _ HI S1 K1) as I1.
  assert (Hnc : ∀ j, Arrived j Catch ∉ l1) by (intros j Hj; by apply A1, eq_sym, HU in Hj).
  apply deliver_wp; [done|]. intros s2 E2 T2 _ K2 L2 R2. rewrite (same_disp _ _ K1) in E2, R2.
  pose proof (same_trans _ _ _ K1 K2) as K. apply (HQ s2 (l1 ++ [Sent i (sa_handler (disp s i))])).
  - split; [done|by rewrite E2, (st_log _ _ _ S1), app_assoc|by rewrite L2, (st_signo _ _ _ S1)|..].
    + intros j. rewrite R2, R1. split; [|by left; left].
      intros [[?|?]|[_ ?]]; [done|by destruct (Hnc j)|by destruct (HU i)].
    + intros j h. rewrite elem_of_app, list_elem_of_singleton. split.
      * intros [?|[= -> ->]]; [by destruct (st_unsent _ _ _ S1 j h)|]. set_solver.
      * intros (->%list_elem_of_singleton & _ & ->). by right.
    + intros j. rewrite elem_of_app, list_elem_of_singleton. by intros [?|?]; [destruct (Hnc j)|].
    + rewrite T2. by apply S1.
    + intros b. rewrite elem_of_app, list_elem_of_singleton. intros [?|?]; [|done].
      by apply S1.
  - destruct HI as [? Hd]. split; [by rewrite L2, (st_signo _ _ _ S1)|by rewrite (same_disp _ _ K)].
Qed.

Definition stops : list Z := [SIGTSTP; SIGTTIN; SIGTTOU].

Lemma sends_nil s : Sends [] s s [].
Proof.
  split; try done; try (by intros; set_solver).
  by rewrite app_nil_r.
Qed.

(** One signal that was raised, then the others. *)
Lemma sends_cons i ss s1 s2 s3 l1 l2 :
  raised s1 i → Sends [i] s1 s2 l1 → Sends ss s2 s3 l2 → Sends (i :: ss) s1 s3 (l1 ++ l2).
Proof.
  intros Hi [K1 E1 L1 R1 N1 C1 T1 D1] [K2 E2 L2 R2 N2 C2 T2 D2]. split.
  - by eapply same_trans.
  - by rewrite E2, E1, app_assoc.
  - congruence.
  - intros j. by rewrite R2, R1.
  - intros j h. rewrite elem_of_app, N1, N2, R1, (same_disp _ _ K1). set_solver.
  - set_solver.
  - by etrans.
  - set_solver.
Qed.

(** One signal that was not raised. *)
Lemma sends_skip i ss s s' l : ¬ raised s i → Sends ss s s' l → Sends (i :: ss) s s' l.
Proof.
  intros Hi [K E L HR N C T D]. split; try done.
  intros j h. rewrite N, elem_of_cons. split; [by intros (? & ?); split; [right|]|].
  intros ([->|?] & ? & ?); done.
Qed.

Lemma resend_wp ss need s (Q : bool → sys process → Prop) :
  Handling s → Uncaught s → (∀ i, i ∈ ss → 0 <= i < Z.of_nat NSIG) →
  (∀ b s' l, Sends ss s s' l → Handling s' →
    (b = true ↔ need = true ∨ ∃ i, i ∈ ss ∧ i ∈ stops ∧ raised s i) → Q b s') →
  wp (resend ss need) Q s.
Proof.
  revert need s Q; induction ss as [|i ss IH]; intros need s Q HI HU Hss HQ; cbn [resend].
  { wp_step. apply (HQ _ _ []); [apply sends_nil|done|]. set_solver. }
  wp_step. apply get_signo_wp; [by destruct HI|apply Hss; set_solver|]. intros v Hv.
  assert (Hc : ∀ j, j ∈ i :: ss ↔ j = i ∨ j ∈ ss) by (intros j; apply elem_of_cons).
  destruct (Z.eqb_spec v 0) as [->|Hv0].
  - assert (Hi : ¬ raised s i) by (intros (w & Hw & Hw0); congruence).
    apply IH; [done..|set_solver|]. intros b s' l HS HI' Hb.
    apply (HQ _ _ l); [by apply sends_skip|done|]. rewrite Hb.
    setoid_rewrite Hc. clear -Hi. naive_solver.
  - assert (Hi : raised s i) by by exists v.
    wp_step. apply kill_self_wp; [done..|]. intros s1 l1 HS1 HI1.
    pose proof (sn_same _ _ _ _ HS1) as K1.
    apply IH; [done| |set_solver|].
    { intros j. rewrite (same_disp _ _ K1). apply HU. }
    intros b s2 l2 HS2 HI2 Hb. apply (HQ _ _ (l1 ++ l2)); [by eapply sends_cons|done|].
    rewrite Hb. setoid_rewrite (sn_raised _ _ _ _ HS1). setoid_rewrite Hc.
    fold stops. 
    clear Hb. case_bool_decide as Hstop; split.
    + intros _. right. exists i. auto.
    + intros _. by left.
    + intros [?|(j & ? & ? & ?)]; [by left|right; exists j; auto].
    + intros [?|(j & [->|?] & ? & ?)]; [by left|done|right; by exists j].
Qed.

(** ** A round *)

(** The echo while characters are read in a round from [s]: anything may be, or
    the terminal is to be used without it and its first system calls that
    matter do not fail: [open], [tcgetattr] and [tcsetattr], the others being
    [fcntl] and those after them. *)
Definition Silent (flags : Z) (s : sys process) : Prop :=
  has flags RPP_STDIN = false ∧ has flags RPP_ECHO_ON = false ∧
  call_fails 0 s = None ∧ call_fails 2 s = None ∧ call_fails 3 s = None.

Definition EchoAllowed (flags : Z) (s : sys process) : Prop :=
  R false ∧ (R true ∨ Silent flags s).

Lemma quiet_no_echo flags t :
  has flags RPP_ECHO_ON = false → has (c_lflag (quiet_termios flags t)) ECHO = false.
Proof.
  intros He. unfold quiet_termios. rewrite He. cbn [c_lflag]. unfold has.
  apply negb_false_iff, Z.eqb_eq. rewrite <-Z.land_assoc, (Z.land_comm (Z.lnot _)).
  apply Z.bits_inj'. intros n Hn.
  rewrite !Z.land_spec, Z.lnot_spec, Z.lor_spec, Z.bits_0 by done.
  by destruct (Z.testbit ECHO n), (Z.testbit (c_lflag t) n).
Qed.

(** Every signal that the handler caught is sent again, apart from [SIGTTOU],
    and only those; they find the action there was. *)
Definition Resends (s : sys process) (l : list event) : Prop :=
  (∀ l1 i l2, l = l1 ++ Arrived i Catch :: l2 → i ≠ SIGTTOU →
    Sent i (sa_handler (disp s i)) ∈ l2) ∧
  (∀ l1 i h l2, l = l1 ++ Sent i h :: l2 →
    h = sa_handler (disp s i) ∧ Arrived i Catch ∈ l1).
End steps.
