(* ===== verification/ReadpassRound.v ===== *)
(** A round of [readpassphrase], from the label [restart] to the end, and all
    of them. *)
From Stdlib Require Import ZArith Lia.
From stdpp Require Import functions prelude gmap.
From S2P Require Import Prelude CInt PosixWin Readpass ReadpassProof.

Local Open Scope Z_scope.
#[local] Arguments wp : simpl never.

Section round.
Context `{PlatformLaws} (R : bool → Prop).

(** An element of a concatenation is in one part. *)
Lemma split_app {A} (la lb l1 l2 : list A) x :
  la ++ lb = l1 ++ x :: l2 →
  (∃ k, la = l1 ++ x :: k ∧ l2 = k ++ lb) ∨ (∃ k, l1 = la ++ k ∧ lb = k ++ x :: l2).
Proof.
  intros [(k & -> & E)|(k & -> & E)]%app_eq_inv.
  - destruct k as [|y k]; simpl in E; [right; exists []; by rewrite !app_nil_r|].
    injection E as <- ->. left. by exists k.
  - right. by exists k.
Qed.

Lemma resends_app s s' la lb :
  (∀ i, disp s' i = disp s i) → Resends s la → Resends s' lb → Resends s (la ++ lb).
Proof.
  intros HD [A1 A2] [B1 B2]. split.
  - intros l1 i l2 [(k & -> & ->)|(k & -> & ->)]%split_app Hi.
    + apply elem_of_app. left. by eapply A1.
    + rewrite <-HD. by eapply B1.
  - intros l1 i h l2 [(k & -> & ->)|(k & -> & ->)]%split_app.
    + by eapply A2.
    + rewrite <-HD. destruct (B2 k i h l2 eq_refl) as [??]. split; [done|set_solver].
Qed.

(** The signals caught since none was raised, and sent at the end. *)
Lemma resends_round s0 s1 s2 la lb :
  (∀ i, ¬ raised s0 i) → Step R s0 s1 la → Handling s1 →
  Sends R (seqZ 0 (Z.of_nat NSIG)) s1 s2 lb → (∀ i, disp s1 i = disp s0 i) →
  Resends s0 (la ++ lb).
Proof.
  intros Hn HS [HL _] HN HD.
  assert (Hr : ∀ i, raised s1 i → i ∈ seqZ 0 (Z.of_nat NSIG)).
  { intros i (v & Hv & _). unfold get_char in Hv. destruct (Z.leb_spec 0 i); [|done].
    apply lookup_lt_Some in Hv. rewrite HL in Hv. apply elem_of_seqZ. lia. }
  split.
  - intros l1 i l2 [(k & -> & ->)|(k & -> & ->)]%split_app Hi.
    + assert (Hi1 : raised s1 i) by (eapply st_kept; [done..|right; set_solver]).
      apply elem_of_app. right. apply (sn_sent _ _ _ _ _ HN). by rewrite HD; auto.
    + destruct (sn_caught _ _ _ _ _ HN i). set_solver.
  - intros l1 i h l2 [(k & -> & ->)|(k & -> & ->)]%split_app.
    + destruct (st_unsent _ _ _ _ HS i h). set_solver.
    + assert (Hs : Sent i h ∈ k ++ Sent i h :: l2) by set_solver.
      apply (sn_sent _ _ _ _ _ HN) in Hs as (_ & Hs & ->). split; [by rewrite HD|].
      apply (st_raised _ _ _ _ HS) in Hs as [?|?]; [by destruct (Hn i)|set_solver].
Qed.

(** ** With the handlers installed *)

Lemma guarded_wp prompt flags E input output term oterm s
    (Q : Z * errno_code → sys process → Prop) :
  Handling s → Uncaught s → Readable R input s → length (buf (world s)) = S E →
  (∀ s' l e, let ks := keyboard (world s) in
    Step R s s' l → Handling s' → (∀ i, disp s' i = disp s i) →
    files (world s') = files (world s) →
    (tty (world s') = tty (world s) ∨ term ≠ oterm ∧ tty (world s') = oterm) →
    (Benign s → ¬ raised s SIGTTOU → is_tty (files (world s)) input = true → term ≠ oterm →
      tty (world s') = oterm) →
    Terminated flags ks E (buf (world s')) →
    keyboard (world s') = drop (S (length (line ks))) ks →
    (∀ e', line_end ks = Error e' → e = e') →
    Q ((key_result (line_end ks)).1, e) s') →
  wp (guarded prompt (Z.of_nat (S E)) flags input output term oterm) Q s.
Proof.
  intros HI HU HR HE HQ. unfold guarded. wp_step. apply (catch_signals_wp R); [done|].
  intros s1 l1 S1 I1 K1 D1 C1. cbn beta iota.
  wp_step. apply (read_line_wp R); [done| |by rewrite (io_buf _ _ K1)|].
  { destruct HR as [Hf Ht]. split; [by rewrite (io_files _ _ K1)|].
    by rewrite (io_files _ _ K1), (io_tty _ _ K1). }
  intros s2 l2 e. cbv zeta. intros S2 U2 T2 Ks2 E2. rewrite (io_keyboard _ _ K1) in *.
  pose proof (inv_setup _ _ _ _ I1 S2 U2) as I2.
  wp_step. apply (restore_tty_wp R); [done|]. intros s3 l3 S3 F3 H3 B3.
  pose proof (inv_files _ _ _ _ I2 S3 F3) as I3.
  assert (HDeq : disposition (world s3) = disposition (world s1)).
  { by rewrite (files_disp _ _ F3), (setup_disp _ _ U2). }
  wp_step. apply (sigaction_wp R); [done|by intros ?%HU|]. intros s4 l4 S4 I4 K4 D4.
  wp_step. apply (sigaction_wp R); [done|by intros ?%HU|]. intros s5 l5 S5 I5 K5 D5.
  destruct handled_split as (Hint & Hquit & Hnd).
  assert (Hk1 : (map (λ i, (i, disp s i)) except_ign).*1 = except_ign) by done.
  assert (Hkin : ∀ i a, (i, a) ∈ map (λ i, (i, disp s i)) except_ign → i ∈ except_ign ∧ a = disp s i).
  { intros i a Hi. apply list_elem_of_fmap in Hi as (j & [= -> ->] & Hj). done. }
  assert (Hex : ∀ i, i ≠ SIGINT → i ≠ SIGQUIT → disp s5 i = disp s1 i).
  { intros i ??. by rewrite D5, D4, !fn_lookup_insert_ne, HDeq by done. }
  wp_step. apply (uncatch_all_wp R); [done|by rewrite Hk1| | |].
  { apply Forall_forall. intros [i a] [_ ->]%Hkin. apply HU. }
  { intros i a [Hi ->]%Hkin. rewrite Hex; [by apply C1|intros ->; set_solver..]. }
  rewrite Hk1. intros s6 l6 S6 I6 K6 D6 R6. wp_step.
  assert (K36 : SameIO s3 s6) by (eapply io_trans; [done|]; by eapply io_trans).
  apply (HQ s6 (l1 ++ l2 ++ l3 ++ l4 ++ l5 ++ l6)).
  - repeat (eapply step_trans; [eassumption|]). done.
  - done.
  - intros i. destruct (decide (i ∈ except_ign)) as [Hi|Hi].
    + apply R6, list_elem_of_fmap. by exists i.
    + rewrite D6 by done. rewrite D5. destruct (decide (i = SIGQUIT)) as [->|Hq].
      { by rewrite fn_lookup_insert. }
      rewrite fn_lookup_insert_ne, D4 by done. destruct (decide (i = SIGINT)) as [->|Hn].
      { by rewrite fn_lookup_insert. }
      rewrite fn_lookup_insert_ne, HDeq by done. apply D1. unfold handled. set_solver.
  - by rewrite (io_files _ _ K36), (files_files _ _ F3), (setup_files _ _ U2), (io_files _ _ K1).
  - rewrite (io_tty _ _ K36), <-(io_tty _ _ K1), <-(setup_tty _ _ U2). done.
  - intros HB Hn Htt Hne. rewrite (io_tty _ _ K36). apply B3; [| | |done].
    + eapply benign_step; [done|]. by eapply benign_step.
    + eapply benign_raised; [done|by eapply benign_step|]. by eapply benign_raised.
    + by rewrite (setup_files _ _ U2), (io_files _ _ K1).
  - by rewrite (io_buf _ _ K36), (files_buf _ _ F3).
  - by rewrite (io_keyboard _ _ K36), (files_keyboard _ _ F3).
  - done.
Qed.

(** ** A round *)

(** The value and the memory for the keys [ks]: a line in the memory, unless
    there is no terminal and one is required. *)
Definition Unavailable (flags : Z) (s : sys process) : Prop :=
  has flags RPP_REQUIRE_TTY = true ∧ (has flags RPP_STDIN = true ∨ ∃ e, MayFail s e).

Definition Answer (flags : Z) (E : nat) (s s' : sys process) (b : bool) : Prop :=
  let ks := keyboard (world s) in
  Terminated flags ks E (buf (world s')) ∧
  keyboard (world s') = drop (S (length (line ks))) ks ∧
  match line_end ks with
  | Error e => b = false ∧ (e ≠ errno_other 0 → errno s' = e)
  | _ => b = true
  end.

(** What a round, or all of them, leave. *)
Record Restored (flags : Z) (s s' : sys process) (l : list event) : Prop := {
  rs_disp i : disp s' i = disp s i;
  rs_files : files (world s') = files (world s);
  rs_mode : tty (world s') = tty (world s) ∨ tty (world s') = quiet_termios flags (tty (world s));
  rs_tty : Benign s → tty (world s') = tty (world s);
  rs_signo : length (signo (world s')) = length (signo (world s));
  rs_log : log (world s') = log (world s) ++ l;
  rs_resends : Resends s l;
  rs_reads b : Reads b ∈ l → R b;
  rs_turns : turns (world s') `suffix_of` turns (world s);
  rs_buf : length (buf (world s')) = length (buf (world s))
}.

Definition Ends (flags : Z) (E : nat) (s s' : sys process) (l : list event) (r : option bool) : Prop :=
  match r with
  | None =>
      (length (turns (world s')) < length (turns (world s)))%nat ∧
      ∃ i, i ∈ stops ∧ Arrived i Catch ∈ l
  | Some b =>
      (Unavailable flags s ∧ b = false ∧ errno s' = ENOTTY ∨ Answer flags E s s' b) ∧
      (Arrived SIGTSTP Catch ∉ l) ∧ (Arrived SIGTTIN Catch ∉ l)
  end.

(** The state with [signo] cleared. *)
Definition cleared (s : sys process) : sys process :=
  Sys (errno s) (set_signo (map (λ _, 0) (signo (world s))) (world s)).

Lemma cleared_unraised s i : ¬ raised (cleared s) i.
Proof.
  intros (v & Hv & Hne). apply Hne. unfold get_char in Hv. destruct (0 <=? i); [|done].
  apply list_lookup_fmap_Some in Hv as (w & -> & _). done.
Qed.

Lemma cleared_inv s : Handling s → Handling (cleared s).
Proof. intros [HL HD]. split; [|done]. simpl. by rewrite length_map. Qed.

(** The input is open, and reading from it echoes no more than it may. *)
Lemma readable_echo_off flags input output t s s1 s2 l :
  EchoAllowed R flags s → is_Some (files (world s) !! STDIN_FILENO) → Step R s s1 l →
  Opened flags s s1 (Some (input, output)) → EchoOff flags input s1 s2 t →
  files (world s2) = files (world s1) → Readable R input s2.
Proof.
  intros [HRf HRt] Hin0 HS HO HE HF. unfold Readable. rewrite HF.
  assert (Hfd : is_Some (files (world s1) !! input)).
  { destruct HO as [(-> & _ & -> & _)|(_ & _ & -> & _)]; [done|]. rewrite lookup_insert_eq. by eexists. }
  split; [done|]. intros Htty.
  destruct HRt as [HRt|(Hstdin & Hecho & Hnf)].
  { by destruct (has (c_lflag (tty (world s2))) ECHO). }
  destruct Hnf as (Hn0 & Hn2 & Hn3).
  destruct HO as [(_ & _ & _ & _ & [?|Hf])|(_ & Hm & _ & Hcalls)];
    [congruence|rewrite Hn0 in Hf; by destruct Hf|].
  assert (Hin : input ≠ STDIN_FILENO) by (intros ->; rewrite Hm in Hin0; by destruct Hin0).
  destruct HE as [(_ & _ & [?|[?|Hf]])|(_ & _ & _ & [->|[_ Hf]])];
    [done|congruence|rewrite Hcalls, Hn2 in Hf; by destruct Hf| |rewrite Hcalls, Hn3 in Hf; by destruct Hf].
  by rewrite quiet_no_echo.
Qed.

(** The mode of the terminal after [echo_off] and [restore_tty]. *)
Lemma tty_restored flags input s1 s2 s3 term oterm l :
  EchoOff flags input s1 s2 (term, oterm) → Step R s1 s2 l →
  files (world s2) = files (world s1) →
  (tty (world s3) = tty (world s2) ∨ term ≠ oterm ∧ tty (world s3) = oterm) →
  (Benign s2 → ¬ raised s2 SIGTTOU → is_tty (files (world s2)) input = true → term ≠ oterm →
    tty (world s3) = oterm) →
  Benign s1 → ¬ raised s1 SIGTTOU → tty (world s3) = tty (world s1).
Proof.
  intros HE HS HF Hone Hres HB Hn.
  destruct HE as [([= -> ->] & Ht & _)|([= -> ->] & _ & Htty & Ht)].
  { by destruct Hone as [->|[Hne _]]; [|destruct Hne]. }
  destruct (decide (quiet_termios flags (tty (world s1)) = tty (world s1))) as [E|Hne].
  - destruct Hone as [->|[? _]]; [|done]. destruct Ht as [->|[-> _]]; [done|done].
  - apply Hres; [by eapply benign_step|by eapply benign_raised|by rewrite HF|done].
Qed.

(** Whatever happens, the mode of the terminal is the one it was or the one for
    reading. *)
Lemma tty_mode flags input s1 s2 s3 term oterm :
  EchoOff flags input s1 s2 (term, oterm) →
  (tty (world s3) = tty (world s2) ∨ term ≠ oterm ∧ tty (world s3) = oterm) →
  tty (world s3) = tty (world s1) ∨ tty (world s3) = quiet_termios flags (tty (world s1)).
Proof.
  intros [([= -> ->] & Ht & _)|([= -> ->] & _ & _ & Ht)] [->|[Hne ->]]; [by left|done| |by left].
  destruct Ht as [->|[-> _]]; auto.
Qed.

Lemma quiet_twice flags t : quiet_termios flags (quiet_termios flags t) = quiet_termios flags t.
Proof.
  unfold quiet_termios. destruct t as [i o c l cc]. cbn [c_iflag c_oflag c_cflag c_lflag c_cc]. f_equal.
  - destruct (has flags RPP_ECHO_ON); [done|]. by rewrite <-Z.land_assoc, Z.land_diag.
  - destruct VSTATUS as [v|]; [|done]. repeat case_bool_decide; try done. by rewrite list_insert_insert_eq.
Qed.

(** The descriptors after [close], if there is something to close. *)
Lemma close_input_wp flags input output s0 s1 s (Q : unit → sys process → Prop) :
  Handling s → is_Some (files (world s0) !! STDIN_FILENO) →
  Opened flags s0 s1 (Some (input, output)) → files (world s) = files (world s1) →
  (∀ s' l, Step R s s' l → SameTty s s' → files (world s') = files (world s0) → Q tt s') →
  wp (if input =? STDIN_FILENO then mret tt else close input) Q s.
Proof.
  intros HI Hin0 HO HF HQ. destruct (Z.eqb_spec input STDIN_FILENO) as [->|Hin].
  - wp_step. apply (HQ s []); [apply step_refl|done|].
    destruct HO as [(_ & _ & HO & _)|(_ & Hm & _ & _)]; [congruence|].
    rewrite Hm in Hin0. by destruct Hin0.
  - apply (close_wp R); [done|]. intros s' l HS HK HF'. apply (HQ s' l); [done..|].
    destruct HO as [(-> & _)|(_ & Hm & HO & _)]; [done|].
    by rewrite HF', HF, HO, delete_insert_id.
Qed.

(** A signal that stops the process is sent again exactly when the round is to
    be followed by another. *)
Lemma restart_events s0 s1 l b :
  (∀ i, ¬ raised s0 i) → Step R s0 s1 l → Handling s1 →
  (b = true ↔ false = true ∨ ∃ i, i ∈ seqZ 0 (Z.of_nat NSIG) ∧ i ∈ stops ∧ raised s1 i) →
  if b then (length (turns (world s1)) < length (turns (world s0)))%nat ∧
            ∃ i, i ∈ stops ∧ Arrived i Catch ∈ l
  else (Arrived SIGTSTP Catch ∉ l) ∧ (Arrived SIGTTIN Catch ∉ l).
Proof.
  intros Hn HS HI Hb. destruct b.
  - destruct (proj1 Hb eq_refl) as [?|(i & _ & Hi & Hr)]; [done|].
    apply (st_raised _ _ _ _ HS) in Hr as [?|Hr]; [by destruct (Hn i)|].
    split; [by eapply st_shorter|by exists i].
  - assert (Hno : ∀ i, i ∈ stops → i ∈ handled → i ≠ SIGTTOU → Arrived i Catch ∉ l).
    { intros i Hi Hh Hne Ha. assert (false = true) as [=]. apply Hb. right. exists i.
      split_and!; [|done|by eapply st_kept; [..|right]].
      apply elem_of_seqZ. pose proof (in_range i Hh). lia. }
    pose proof handled_NoDup as Hnd. unfold handled, except_ign in Hnd.
    rewrite !NoDup_cons in Hnd. destruct_and! Hnd.
    split; apply Hno; unfold stops, handled, except_ign; try set_solver; intros E; rewrite E in *; set_solver.
Qed.

(** What [attempt] returns; [None] comes before any handler is installed. *)
Definition Attempted (flags : Z) (E : nat) (s s' : sys process) (l : list event)
    (r : option (Z * errno_code)) : Prop :=
  let ks := keyboard (world s) in
  match r with
  | None =>
      Unavailable flags s ∧ errno s' = ENOTTY ∧ length (buf (world s')) = S E ∧
      ∀ i, Arrived i Catch ∉ l
  | Some (nr, e) =>
      Terminated flags ks E (buf (world s')) ∧
      keyboard (world s') = drop (S (length (line ks))) ks ∧
      nr = (key_result (line_end ks)).1 ∧ ∀ e', line_end ks = Error e' → e = e'
  end.

Lemma attempt_wp prompt flags E s (Q : option (Z * errno_code) → sys process → Prop) :
  Handling s → Uncaught s → is_Some (files (world s) !! STDIN_FILENO) →
  EchoAllowed R flags s → length (buf (world s)) = S E →
  (∀ r s' l, Step R s s' l → Handling s' → (∀ i, disp s' i = disp s i) →
    files (world s') = files (world s) →
    (tty (world s') = tty (world s) ∨ tty (world s') = quiet_termios flags (tty (world s))) →
    (Benign s → ¬ raised s SIGTTOU → tty (world s') = tty (world s)) →
    Attempted flags E s s' l r → Q r s') →
  wp (attempt prompt (Z.of_nat (S E)) flags) Q s.
Proof.
  intros HI HU Hin0 HR HE HQ. unfold attempt.
  wp_step. apply (open_input_wp R); [done|]. intros io s1 l1 S1 I1 K1 HO HC.
  destruct io as [[input output]|].
  2:{ wp_step. destruct HO as (Hreq & HF & Herr & Hwhy). destruct K1.
      apply (HQ _ _ l1); [done..|intros i; congruence|done|by left|done|].
      split; [done|]. split; [done|]. split; [congruence|auto]. }
  wp_step. apply (echo_off_wp R); [done|]. intros [term oterm] s2 l2 S2 F2 HEO.
  pose proof (inv_files _ _ _ _ I1 S2 F2) as I2.
  assert (HD2 : disposition (world s2) = disposition (world s)).
  { by rewrite (files_disp _ _ F2), (tty_disp _ _ K1). }
  assert (HR2 : Readable R input s2).
  { eapply (readable_echo_off flags input output _ s s1 s2); [done..|by apply F2]. }
  wp_step. apply guarded_wp; [done|unfold Uncaught; by rewrite HD2|done| |].
  { by rewrite (files_buf _ _ F2), (tty_buf _ _ K1). }
  intros s3 l3 e. cbv zeta. rewrite (files_keyboard _ _ F2), (tty_keyboard _ _ K1).
  intros S3 I3 D3 F3 H3 B3 T3 Ks3 E3.
  wp_step. eapply (close_input_wp flags input output s s1); [done..| |].
  { by rewrite F3, (files_files _ _ F2). }
  intros s4 l4 S4 K4 F4. wp_step. apply (HQ _ _ (l1 ++ l2 ++ l3 ++ l4)).
  - repeat (eapply step_trans; [eassumption|]). done.
  - destruct I3 as [? Hd]. split; [by rewrite (st_signo _ _ _ _ S4)|by rewrite (tty_disp _ _ K4)].
  - intros i. by rewrite (tty_disp _ _ K4), D3, HD2.
  - done.
  - rewrite (tty_tty _ _ K4), <-(tty_tty _ _ K1). by eapply tty_mode.
  - intros HB Hn. rewrite (tty_tty _ _ K4), <-(tty_tty _ _ K1).
    eapply (tty_restored flags input s1 s2); [done|done|by apply F2|done..| |].
    + by eapply benign_step.
    + by eapply benign_raised.
  - unfold Attempted. by rewrite (tty_buf _ _ K4), (tty_keyboard _ _ K4).
Qed.

(** A round up to [resend], and [resend]. *)
Lemma restored_round flags s s1 s2 la lb :
  Step R (cleared s) s1 la → Handling s1 → (∀ i, disp s1 i = disp s i) →
  files (world s1) = files (world s) →
  (tty (world s1) = tty (world s) ∨ tty (world s1) = quiet_termios flags (tty (world s))) →
  (Benign (cleared s) → ¬ raised (cleared s) SIGTTOU → tty (world s1) = tty (world s)) →
  length (buf (world s1)) = length (buf (world s)) →
  Sends R (seqZ 0 (Z.of_nat NSIG)) s1 s2 lb → Restored flags s s2 (la ++ lb).
Proof.
  intros HS HI HD HF HM HT HB HN. pose proof (sn_same _ _ _ _ _ HN) as HK. split.
  - intros i. by rewrite (same_disp _ _ HK).
  - by rewrite (same_files _ _ HK).
  - by rewrite (same_tty _ _ HK).
  - intros HBe. rewrite (same_tty _ _ HK). apply HT; [done|apply cleared_unraised].
  - rewrite (sn_signo _ _ _ _ _ HN), (st_signo _ _ _ _ HS). simpl. by rewrite length_map.
  - by rewrite (sn_log _ _ _ _ _ HN), (st_log _ _ _ _ HS), <-app_assoc.
  - exact (resends_round _ _ _ _ _ (cleared_unraised s) HS HI HN HD).
  - intros c [?|?]%elem_of_app; [by eapply st_reads|by eapply sn_reads].
  - etrans; [by eapply sn_turns|by apply (st_turns _ _ _ _ HS)].
  - by rewrite (same_buf _ _ HK).
Qed.

(** Where no handler was installed nothing is sent. *)
Lemma sends_none s s1 l ss : (∀ i, ¬ raised s i) → Step R s s1 l → (∀ i, Arrived i Catch ∉ l) →
  Sends R ss s1 s1 [].
Proof.
  intros Hn HS Hc. split; try done; [by rewrite app_nil_r| |by intros ? ?%not_elem_of_nil..].
  intros i h. split; [by intros ?%not_elem_of_nil|]. intros (_ & Hr & _).
  apply (st_raised _ _ _ _ HS) in Hr as [?|?]; [by destruct (Hn i)|by destruct (Hc i)].
Qed.

Lemma restored_world flags s s1 s2 l : Restored flags s s1 l → world s2 = world s1 → Restored flags s s2 l.
Proof. intros [] E. split; by rewrite ?E. Qed.

Lemma round_wp prompt flags E s (Q : option bool → sys process → Prop) :
  Handling s → Uncaught s → is_Some (files (world s) !! STDIN_FILENO) →
  EchoAllowed R flags s → length (buf (world s)) = S E →
  (∀ r s' l, Restored flags s s' l → Handling s' → Ends flags E s s' l r → Q r s') →
  wp (round prompt (Z.of_nat (S E)) flags) Q s.
Proof.
  intros HI HU Hin0 HR HE HQ. unfold round, set_process. do 2 wp_step. fold (cleared s).
  pose proof (cleared_unraised s) as Hn0.
  wp_step. apply attempt_wp; [by apply cleared_inv|done..|]. intros r s1 l1 S1 I1 D1 F1 M1 T1 HA.
  destruct r as [[nr e]|].
  2:{ destruct HA as (Hun & Herr & Hb & Hc). wp_step. apply (HQ _ _ (l1 ++ [])); [|done|].
      - eapply restored_round; [done..|congruence|by eapply sends_none].
      - rewrite app_nil_r. by split; [left|split]. }
  destruct HA as (HT & HK & -> & He). change (keyboard (world (cleared s))) with (keyboard (world s)) in *.
  wp_step. apply (resend_wp R); [done|intros i; rewrite D1; apply HU|by intros i ?%elem_of_seqZ|].
  intros b s2 l2 N2 I2 Hb. pose proof (sn_same _ _ _ _ _ N2) as K2.
  pose proof (restart_events _ _ _ b Hn0 S1 I1 Hb) as Hev.
  assert (HRes : Restored flags s s2 (l1 ++ l2)).
  { eapply restored_round; [done..| |done]. destruct HT as (? & _ & HT). congruence. }
  rewrite <-(same_buf _ _ K2) in HT. rewrite <-(same_keyboard _ _ K2) in HK. destruct b.
  { destruct Hev as [Hlt (i & Hi & Hc)]. wp_step. apply (HQ _ _ _ HRes); [done|].
    split; [|by exists i; split; [|set_solver]].
    pose proof (suffix_length _ _ (sn_turns _ _ _ _ _ N2)) as Hle. simpl in *. lia. }
  wp_step. apply wp_mono with (Q := λ _ s', world s' = world s2 ∧
    errno s' = if bool_decide (e = errno_other 0) then errno s2 else e).
  { case_bool_decide; unfold set_errno; wp_step; done. }
  intros _ s3 [W3 E3]. wp_step. apply (HQ _ _ _ (restored_world _ _ _ _ _ HRes W3)).
  { unfold Handling. by rewrite W3. }
  pose proof (sn_caught _ _ _ _ _ N2) as Hc2. split; [right|set_solver].
  rewrite <-W3 in HT, HK. split; [done|]. split; [done|].
  destruct (line_end (keyboard (world s))) as [c| |e'] eqn:Hend; [done..|].
  split; [done|]. intros Hne. rewrite E3, (He e' eq_refl). by rewrite bool_decide_eq_false_2.
Qed.

(** ** All the rounds *)

Lemma may_fail_suffix s s' e :
  turns (world s') `suffix_of` turns (world s) → MayFail s' e → MayFail s e.
Proof. intros [k Hk] (t & Ht & He). exists t. split; [|done]. rewrite Hk. set_solver. Qed.

Lemma benign_suffix s s' : turns (world s') `suffix_of` turns (world s) → Benign s → Benign s'.
Proof.
  intros Hs [H1 H2]. split.
  - intros e He. by eapply H1, may_fail_suffix.
  - intros t Ht. apply H2. destruct Hs as [k ->]. set_solver.
Qed.

Lemma restored_trans flags s1 s2 s3 l1 l2 :
  Restored flags s1 s2 l1 → Restored flags s2 s3 l2 → Restored flags s1 s3 (l1 ++ l2).
Proof.
  intros [a1 b1 m1 c1 d1 e1 f1 g1 h1 i1] [a2 b2 m2 c2 d2 e2 f2 g2 h2 i2]. split.
  - intros i. by rewrite a2.
  - congruence.
  - destruct m2 as [->| ->]; [done|]. destruct m1 as [->| ->]; [by right|right; apply quiet_twice].
  - intros HB. rewrite c2, c1; [done..|by eapply benign_suffix].
  - congruence.
  - by rewrite e2, e1, app_assoc.
  - by eapply resends_app.
  - intros b [?|?]%elem_of_app; auto.
  - by etrans.
  - congruence.
Qed.

(** Where the function can be called from. *)
Record Callable (E : nat) (s : sys process) : Prop := {
  cl_inv : Handling s;
  cl_uncaught : Uncaught s;
  cl_stdin : is_Some (files (world s) !! STDIN_FILENO);
  cl_buf : length (buf (world s)) = S E
}.

Lemma callable_restored flags E s s' l : Callable E s → Restored flags s s' l → Handling s' → Callable E s'.
Proof.
  intros [HI HU Hin HB] HR HI'. split; [done|..].
  - intros i. rewrite (rs_disp _ _ _ _ HR). apply HU.
  - by rewrite (rs_files _ _ _ _ HR).
  - by rewrite (rs_buf _ _ _ _ HR).
Qed.

(** From [s], a round that is followed by another leads to [s']. *)
Definition restarts (prompt : list Z) (E : nat) (flags : Z) (s s' : sys process) : Prop :=
  round prompt (Z.of_nat (S E)) flags s = Some (None, s').

Lemma rounds_run prompt flags E fuel s :
  Callable E s → (∀ s1, rtc (restarts prompt E flags) s s1 → EchoAllowed R flags s1) →
  (length (turns (world s)) < fuel)%nat →
  ∃ b s' l, all_rounds fuel prompt (Z.of_nat (S E)) flags s = Some (b, s') ∧ Restored flags s s' l ∧
    ∃ s1 l1 l2, rtc (restarts prompt E flags) s s1 ∧ Restored flags s s1 l1 ∧ l = l1 ++ l2 ∧
      Ends flags E s1 s' l2 (Some b).
Proof.
  revert s; induction fuel as [|fuel IH]; intros s HC HE Hf; [lia|]. cbn [all_rounds].
  assert (Hrefl : Restored flags s s []).
  { split; try done; [by left|by rewrite app_nil_r|split|by intros b ?%not_elem_of_nil].
    - by intros [] ????.
    - by intros [] ????. }
  assert (Hround : wp (round prompt (Z.of_nat (S E)) flags)
    (λ r s1, ∃ l, Restored flags s s1 l ∧ Handling s1 ∧ Ends flags E s s1 l r) s).
  { destruct HC. apply round_wp; eauto using rtc_refl. }
  apply wp_elim in Hround as (r & s1 & Er & l1 & HR1 & HI1 & HD1).
  rewrite (bind_run _ _ _ _ _ Er). destruct r as [b|].
  - exists b, s1, l1. split_and!; [done..|]. by exists s, [], l1; split_and!; [apply rtc_refl|..].
  - destruct HD1 as [Hlt _].
    destruct (IH s1) as (b & s2 & l2 & E2 & HR2 & s3 & l3 & l4 & Hrtc & HR3 & -> & HD2).
    + by eapply callable_restored.
    + intros s2 Hs2. apply HE. by eapply rtc_l.
    + lia.
    + exists b, s2, (l1 ++ l3 ++ l4). split_and!; [done|by eapply restored_trans|].
      exists s3, (l1 ++ l3), l4. split_and!; [by eapply rtc_l|by eapply restored_trans|by rewrite app_assoc|done].
Qed.

Lemma readpassphrase_run prompt flags E s :
  Callable E s → (∀ s1, rtc (restarts prompt E flags) s s1 → EchoAllowed R flags s1) →
  ∃ b s' l, readpassphrase prompt (Z.of_nat (S E)) flags s = Some (b, s') ∧ Restored flags s s' l ∧
    ∃ s1 l1 l2, rtc (restarts prompt E flags) s s1 ∧ Restored flags s s1 l1 ∧ l = l1 ++ l2 ∧
      Ends flags E s1 s' l2 (Some b).
Proof. intros HC HE. unfold readpassphrase. apply rounds_run; [done..|lia]. Qed.
End round.
