(* ===== verification/ReadpassProperties.v ===== *)
(** Properties of [readpassphrase]. *)
From Stdlib Require Import ZArith Lia.
From stdpp Require Import functions prelude gmap.
From S2P Require Import Prelude CInt PosixWin Readpass ReadpassProof ReadpassRound.

Local Open Scope Z_scope.

(** ** Linux *)

#[local] Instance linux : Platform := {|
  SIGHUP := 1; SIGINT := 2; SIGQUIT := 3; SIGPIPE := 13; SIGALRM := 14; SIGTERM := 15;
  SIGTSTP := 20; SIGTTIN := 21; SIGTTOU := 22; NSIG := 65;
  ECHO := 8; ECHONL := 64; VSTATUS := None; VDISABLE := 0; NCCS := 32;
  ENOTTY := errno_other 25
|}.

#[local] Instance linux_laws : PlatformLaws.
Proof. split; [vm_compute; repeat constructor; set_solver|repeat constructor; done|done|done]. Qed.

(** A process with its three descriptors on the terminal, where [SIGTSTP] and
    [SIGHUP] have their default action and [SIGTERM] is ignored.  At the second
    character [SIGTERM] and [SIGTSTP] arrive. *)
Definition demo_turns : list turn :=
  replicate 23 (Turn [] None) ++ [Turn [15; 20] (Some EINTR)].

Definition demo_process (fds : list Z) : sys process := Sys (errno_other 0) (Process
  (λ i, if bool_decide (i = 15) then Sigaction SIG_IGN ∅ 0 else Sigaction SIG_DFL ∅ 0)
  (replicate 65 0)
  (list_to_map ((λ fd, (fd, (Tty, false))) <$> fds))
  (Termios 0 0 0 (8 + 3) (replicate 32 0))
  (replicate 6 7) demo_turns
  [Char 97; Error EINTR; Char 98; Char 99; Char 100; Char 101; Char 102; Char 103; Char 10] []).

Lemma demo_callable : Callable 5 (demo_process [0; 1; 2]).
Proof.
  split; [split; [done|]| |done|done].
  - intros i. simpl. by case_bool_decide.
  - intros i. simpl. by case_bool_decide.
Qed.

Section properties.
Context `{PlatformLaws}.

Lemma echo_allowed_any flags s : EchoAllowed (λ _, True) flags s.
Proof. by split; [|left]. Qed.
End properties.

(** C16: [readpassphrase] always returns, and accesses nothing outside [buf] and
    [signo].  Without memory it fails with [EINVAL].  Otherwise the last of its
    rounds stores, in [buf] and within its size, the characters up to the first
    newline, those that do not fit left out, converted as the flags say and
    terminated by NUL, and leaves what comes after the newline; the value is
    NULL when reading failed, with its error in [errno].  Or a terminal is
    required, there is none, and the error is [ENOTTY]. *)
Theorem readpassphrase_reads_line `{PlatformLaws} prompt E flags s :
  Callable E s →
  readpassphrase prompt 0 flags s = Some (false, Sys EINVAL (world s)) ∧
  ∃ b s', readpassphrase prompt (Z.of_nat (S E)) flags s = Some (b, s') ∧
    ∃ s1, rtc (restarts prompt E flags) s s1 ∧
      (Unavailable flags s1 ∧ b = false ∧ errno s' = ENOTTY ∨ Answer flags E s1 s' b).
Proof.
  intros HC. split; [done|].
  destruct (readpassphrase_run (λ _, True) prompt flags E s HC (λ s1 _, echo_allowed_any flags s1))
    as (b & s' & l & Er & _ & s1 & l1 & l2 & Hrtc & _ & _ & [HA _]).
  exists b, s'. split; [done|]. by exists s1.
Qed.

Lemma readpassphrase_reads_line_witness :
  Callable 5 (demo_process [0; 1; 2]) ∧
  ∃ b s', readpassphrase [] 6 RPP_FORCEUPPER (demo_process [0; 1; 2]) = Some (b, s') ∧ b = true ∧
    buf (world s') = [66; 67; 68; 69; 70; 0] ∧ keyboard (world s') = [] ∧
    ∃ s1, rtc (restarts [] 5 RPP_FORCEUPPER) (demo_process [0; 1; 2]) s1 ∧
      Answer RPP_FORCEUPPER 5 s1 s' b.
Proof.
  split; [apply demo_callable|].
  destruct (readpassphrase_reads_line [] 5 RPP_FORCEUPPER (demo_process [0; 1; 2]) demo_callable)
    as (_ & b & s' & E & s1 & Hrtc & HA).
  exists b, s'. pose proof E as E'.
  assert (Hv : match readpassphrase [] 6 RPP_FORCEUPPER (demo_process [0; 1; 2]) with
    | Some (b, s') => b = true ∧ buf (world s') = [66; 67; 68; 69; 70; 0] ∧ keyboard (world s') = []
    | None => False end) by (vm_compute; repeat split).
  change (Z.of_nat 6) with 6 in E. rewrite E in Hv. destruct Hv as (-> & Hb & Hk).
  split_and!; [done..|]. exists s1. split; [done|].
  destruct HA as [(_ & [=] & _)|HA]. done.
Defined.




(** C18: [readpassphrase] sends itself, after each round, every signal that its
    handler caught in that round, so that it finds the action of the caller;
    only a [SIGTTOU] can be dropped.  It sends nothing else.  The round it
    returns from, which starts at [s1] and has the events [l2], caught neither
    [SIGTSTP] nor [SIGTTIN]: after those it starts again. *)
Theorem readpassphrase_resends `{PlatformLaws} prompt E flags s :
  Callable E s →
  ∃ b s' s1 l1 l2, readpassphrase prompt (Z.of_nat (S E)) flags s = Some (b, s') ∧
    rtc (restarts prompt E flags) s s1 ∧ log (world s1) = log (world s) ++ l1 ∧
    log (world s') = log (world s1) ++ l2 ∧ Resends s (l1 ++ l2) ∧
    (Arrived SIGTSTP Catch ∉ l2) ∧ (Arrived SIGTTIN Catch ∉ l2).
Proof.
  intros HC.
  destruct (readpassphrase_run (λ _, True) prompt flags E s HC (λ s1 _, echo_allowed_any flags s1))
    as (b & s' & l & Er & HR & s1 & l1 & l2 & Hrtc & HR1 & -> & [_ [Htstp Httin]]).
  exists b, s', s1, l1, l2. split_and!; try done.
  - by eapply rs_log.
  - by rewrite (rs_log _ _ _ _ _ HR1), (rs_log _ _ _ _ _ HR), <-app_assoc.
  - by eapply rs_resends.
Qed.

(** [SIGTERM] finds itself ignored; [SIGTSTP] is caught, and sent again. *)
Lemma readpassphrase_resends_witness :
  Callable 5 (demo_process [0; 1; 2]) ∧
  ∃ b s' l, readpassphrase [] 6 RPP_ECHO_OFF (demo_process [0; 1; 2]) = Some (b, s') ∧
    log (world s') = log (world (demo_process [0; 1; 2])) ++ l ∧ Resends (demo_process [0; 1; 2]) l ∧
    Arrived 20 Catch ∈ l ∧ Sent 20 SIG_DFL ∈ l ∧ Arrived 15 SIG_IGN ∈ l.
Proof.
  split; [apply demo_callable|].
  destruct (readpassphrase_resends [] 5 RPP_ECHO_OFF (demo_process [0; 1; 2]) demo_callable)
    as (b & s' & s1 & l1 & l2 & E & _ & HL1 & HL2 & HR & _).
  exists b, s', (l1 ++ l2). split; [exact E|]. split; [by rewrite HL2, HL1, <-app_assoc|].
  split; [exact HR|].
  assert (Hv : match readpassphrase [] 6 RPP_ECHO_OFF (demo_process [0; 1; 2]) with
    | Some (_, s') => log (world s') =
        [Wrote 3 []; Reads false; Reads false; Arrived 15 SIG_IGN; Arrived 20 Catch;
         Sent 20 SIG_DFL; Wrote 3 []] ++ replicate 7 (Reads false) ++ [Wrote 3 [10]]
    | None => False end) by (by vm_compute).
  change (Z.of_nat 6) with 6 in E. rewrite E, HL2, HL1 in Hv.
  change (log (world (demo_process [0; 1; 2]))) with (@nil event) in Hv. rewrite app_nil_l in Hv.
  rewrite Hv. split_and!; repeat (left || right).
Defined.

(** When descriptor 0 is closed [open] returns it, and it is taken for the
    standard input: the terminal echoes the passphrase and stays open. *)
Lemma stdin_closed_echoes :
  let s := Sys EINVAL (set_turns [] (world (demo_process [1; 2]))) in
  ∃ s', readpassphrase [] 6 RPP_ECHO_OFF s = Some (false, s') ∧
    files (world s) !! 0 = None ∧ files (world s') !! 0 = Some (Tty, true) ∧
    Reads true ∈ log (world s') ∧ Reads false ∉ log (world s').
Proof.
  eexists. split; [vm_compute; reflexivity|]. split_and!; [done|done|by right; left|].
  cbn [log world]. set_unfold. naive_solver.
Qed.

(** [SIGALRM], for which the application has a handler, interrupts the call that
    turns the echo off: the passphrase is echoed. *)
Lemma interrupted_tcsetattr_echoes :
  let s := Sys EINVAL (set_turns (replicate 3 (Turn [] None) ++ [Turn [14] (Some EINTR)])
    (set_disposition (λ i, Sigaction (if bool_decide (i = 14) then Other 1 else SIG_DFL) ∅ 0)
      (world (demo_process [0; 1; 2])))) in
  Callable 5 s ∧ Benign s ∧
  ∃ s', readpassphrase [] 6 RPP_ECHO_OFF s = Some (false, s') ∧
    Reads true ∈ log (world s') ∧ Reads false ∉ log (world s').
Proof.
  intros s. split; [|split].
  - split; [split; [done|]| |done|done]; intros i; simpl; by case_bool_decide.
  - split.
    + intros e (t & Ht & He). simpl in Ht. set_unfold in Ht. naive_solver.
    + intros t Ht. simpl in Ht. set_unfold in Ht. destruct_or!; subst; simpl; set_solver.
  - eexists. split; [vm_compute; reflexivity|]. split; [by right; right; left|].
    cbn [log world]. set_unfold. naive_solver.
Qed.
