(* ===== verification/UiWin.v ===== *)
(** [crypto/compat/ui_openssl_win.c]: the user interface that asks for
    passphrases on the console of Windows. *)
From Stdlib Require Import ZArith Lia.
From stdpp Require Import prelude.
From S2P Require Import Prelude CInt.

Local Open Scope Z_scope.

(** ** The console and its streams *)

(** Standard input: the characters to come, whether reading past them is an
    error or the end of the file, and the two indicators. *)
Record stream := Stream { chars : list Z; fails_at_end : bool; eof : bool; error : bool }.

(** What [GetStdHandle] and [GetFileType] say of standard input. *)
Inductive std_handle := NoHandle | Console | OtherType.

#[global] Instance std_handle_eq_dec : EqDecision std_handle.
Proof. solve_decision. Defined.

(** The functions of the UI library on a [UI_STRING], of type [U]. *)
Inductive string_type := UIT_NONE | UIT_PROMPT | UIT_VERIFY | UIT_BOOLEAN | UIT_INFO | UIT_ERROR.

Record ui_calls (U : Type) := UICalls {
  UI_get_string_type : U → string_type;
  UI_get_input_flags : U → Z;
  UI_get0_output_string : U → list Z;
  UI_get0_action_string : U → list Z;
  UI_get0_result_string : U → list Z;
  UI_get0_test_string : U → list Z;
  UI_set_result : list Z → U → Z * U
}.
Arguments UI_get_string_type {_} _.
Arguments UI_get_input_flags {_} _.
Arguments UI_get0_output_string {_} _.
Arguments UI_get0_action_string {_} _.
Arguments UI_get0_result_string {_} _.
Arguments UI_get0_test_string {_} _.
Arguments UI_set_result {_} _.

(** The console's mode, [console_mode], which next calls of [GetConsoleMode] and
    [SetConsoleMode] succeed, how often [CRYPTO_LOCK_UI] is taken, [stdin] and
    [stderr], the characters the console showed while they were typed, the
    memory of [result], and the string being read. *)
Record console (U : Type) := MkConsole {
  mode : Z;
  console_mode : Z;
  works : list bool;
  lock_UI : Z;
  tty_in : stream;
  tty_out : list Z;
  shown : list Z;
  result : list Z;
  uis : U
}.
Arguments MkConsole {_}.
Arguments mode {_} _.
Arguments console_mode {_} _.
Arguments works {_} _.
Arguments lock_UI {_} _.
Arguments tty_in {_} _.
Arguments tty_out {_} _.
Arguments shown {_} _.
Arguments result {_} _.
Arguments uis {_} _.

Definition ENABLE_ECHO_INPUT : Z := 4.
Definition UI_INPUT_FLAG_ECHO : Z := 1.
Definition NEWLINE : Z := 10.

(** A C string: up to the first NUL. *)
Fixpoint cstr (l : list Z) : list Z :=
  match l with
  | [] => []
  | c :: l => if c =? 0 then [] else c :: cstr l
  end.

(** At most [n] characters, up to a newline, and what comes after them. *)
Fixpoint take_line (n : nat) (l : list Z) : list Z * list Z :=
  match n, l with
  | S n, c :: l =>
      if c =? NEWLINE then ([c], l) else let r := take_line n l in (c :: r.1, r.2)
  | _, _ => ([], l)
  end.

Definition has_newline (l : list Z) : bool := bool_decide (NEWLINE ∈ l).

Section ui.
Context {U : Type} (os : ui_calls U) (handle : std_handle) (BUFSIZ : nat).
Local Abbreviation M := (ST (console U)).

Definition set_mode m (s : console U) :=
  MkConsole m (console_mode s) (works s) (lock_UI s) (tty_in s) (tty_out s) (shown s) (result s) (uis s).
Definition set_console_mode m (s : console U) :=
  MkConsole (mode s) m (works s) (lock_UI s) (tty_in s) (tty_out s) (shown s) (result s) (uis s).
Definition set_works l (s : console U) :=
  MkConsole (mode s) (console_mode s) l (lock_UI s) (tty_in s) (tty_out s) (shown s) (result s) (uis s).
Definition set_lock n (s : console U) :=
  MkConsole (mode s) (console_mode s) (works s) n (tty_in s) (tty_out s) (shown s) (result s) (uis s).
Definition set_in f (s : console U) :=
  MkConsole (mode s) (console_mode s) (works s) (lock_UI s) f (tty_out s) (shown s) (result s) (uis s).
Definition set_out l (s : console U) :=
  MkConsole (mode s) (console_mode s) (works s) (lock_UI s) (tty_in s) l (shown s) (result s) (uis s).
Definition set_shown l (s : console U) :=
  MkConsole (mode s) (console_mode s) (works s) (lock_UI s) (tty_in s) (tty_out s) l (result s) (uis s).
Definition set_result l (s : console U) :=
  MkConsole (mode s) (console_mode s) (works s) (lock_UI s) (tty_in s) (tty_out s) (shown s) l (uis s).
Definition set_uis (u : U) (s : console U) :=
  MkConsole (mode s) (console_mode s) (works s) (lock_UI s) (tty_in s) (tty_out s) (shown s) (result s) u.

(** ** The calls of Win32 and of the C library *)

(** Whether the next call works; all do when the list is used up. *)
Definition next_works : M bool :=
  l ← gets works; modify (set_works (tail l));; mret (default true (head l)).

Definition GetConsoleMode : M bool :=
  ok ← next_works;
  (if ok : bool then modify (λ s, set_console_mode (mode s) s) else mret tt);; mret ok.

Definition SetConsoleMode (m : Z) : M bool :=
  ok ← next_works;
  (if ok : bool then modify (set_mode m) else mret tt);; mret ok.

Definition echoing (m : Z) : bool := negb (Z.land m ENABLE_ECHO_INPUT =? 0).

(** [fgets]: the characters read, or NULL. *)
Definition fgets (size : nat) : M (option (list Z)) :=
  f ← gets tty_in;
  m ← gets mode;
  let r := take_line (size - 1) (chars f) in
  let short := (length r.1 <? size - 1)%nat && negb (has_newline r.1) in
  modify (set_in (Stream r.2 (fails_at_end f) (eof f || short && negb (fails_at_end f))
    (error f || short && fails_at_end f)));;
  (if match handle with Console => echoing m | _ => false end
   then modify (λ s, set_shown (shown s ++ r.1) s) else mret tt);;
  mret (if short && (fails_at_end f || bool_decide (r.1 = [])) then None else Some r.1).

Definition fputs (l : list Z) : M unit := modify (λ s, set_out (tty_out s ++ l) s).

(** [fgets] stores in [result] what it reads and a NUL. *)
Definition fgets_result (size : nat) : M bool :=
  r ← fgets size;
  match r with
  | None => mret false
  | Some l =>
      b ← gets result;
      if (length l <? length b)%nat then
        modify (set_result (l ++ 0 :: drop (S (length l)) b));; mret true
      else fail
  end.

(** ** The functions *)

(** "Verifying - " and "Verify failure" with a newline. *)
Context (verifying failure : list Z).

Definition write_string : M Z :=
  u ← gets uis;
  (match UI_get_string_type os u with
   | UIT_ERROR | UIT_INFO => fputs (UI_get0_output_string os u)
   | _ => mret tt
   end);;
  mret 1.

(** The loop has as many rounds as there are characters, and one. *)
Fixpoint read_till_nl_loop (fuel : nat) : M bool :=
  match fuel with
  | O => fail
  | S fuel =>
      r ← fgets 4;
      match r with
      | None => mret false
      | Some l => if has_newline (cstr l) then mret true else read_till_nl_loop fuel
      end
  end.

Definition read_till_nl : M bool :=
  f ← gets tty_in; read_till_nl_loop (S (length (chars f))).

Definition open_console : M bool :=
  modify (λ s, set_lock (lock_UI s + 1) s);;
  match handle with
  | Console => GetConsoleMode
  | OtherType => mret true
  | NoHandle => mret false
  end.

Definition noecho_console : M bool :=
  match handle with
  | Console =>
      m ← gets console_mode; SetConsoleMode (Z.land m (Z.lnot ENABLE_ECHO_INPUT))
  | OtherType => mret true
  | NoHandle => mret false
  end.

Definition echo_console : M bool :=
  match handle with
  | Console => m ← gets console_mode; SetConsoleMode m
  | OtherType => mret true
  | NoHandle => mret false
  end.

(** The streams are always [stdin] and [stderr]. *)
Definition close_console : M Z := modify (λ s, set_lock (lock_UI s - 1) s);; mret 1.

(** The first newline becomes a NUL. *)
Fixpoint strip_newline (l : list Z) : list Z :=
  match l with
  | [] => []
  | c :: l => if c =? NEWLINE then 0 :: l else c :: strip_newline l
  end.

(** From [fgets] to the label [error]: [ok]. *)
Definition read_result (strip_nl : bool) : M Z :=
  b ← gets result;
  (if (0 <? length b)%nat then modify (set_result (0 :: tail b)) else fail);;
  p ← fgets_result (BUFSIZ - 1);
  f ← gets tty_in;
  if negb p || eof f || error f then mret 0
  else
    b ← gets result;
    go ← (if has_newline (cstr b) then
            (if strip_nl then modify (set_result (strip_newline b)) else mret tt);; mret true
          else read_till_nl);
    if go : bool then
      b ← gets result;
      u ← gets uis;
      let r := UI_set_result os (cstr b) u in
      modify (set_uis r.2);; mret (if 0 <=? r.1 then 1 else 0)
    else mret 0.

Definition read_string_inner (echo strip_nl : bool) : M Z :=
  go ← (if echo then mret true else noecho_console);
  ok ← (if go : bool then read_result strip_nl else mret 0);
  (if echo then mret tt else fputs [NEWLINE]);;
  ok ← (if (go : bool) && negb echo then
          e ← echo_console; mret (if e : bool then ok else 0)
        else mret ok);
  modify (set_result (replicate BUFSIZ 0));;
  mret ok.

Definition echo_flag (u : U) : bool := negb (Z.land (UI_get_input_flags os u) UI_INPUT_FLAG_ECHO =? 0).

Definition read_string : M Z :=
  u ← gets uis;
  match UI_get_string_type os u with
  | UIT_BOOLEAN =>
      fputs (UI_get0_output_string os u);; fputs (UI_get0_action_string os u);;
      read_string_inner (echo_flag u) false
  | UIT_PROMPT => fputs (UI_get0_output_string os u);; read_string_inner (echo_flag u) true
  | UIT_VERIFY =>
      fputs (verifying ++ UI_get0_output_string os u);;
      ok ← read_string_inner (echo_flag u) true;
      if ok <=? 0 then mret ok
      else
        u ← gets uis;
        if bool_decide (cstr (UI_get0_result_string os u) = cstr (UI_get0_test_string os u))
        then mret 1
        else fputs failure;; mret 0
  | _ => mret 1
  end.
End ui.
