(* ===== verification/UiWinProof.v ===== *)
(** Reading a line with [fgets], and what each function of the console
    interface leaves as it was. *)
From Stdlib Require Import ZArith Lia.
From stdpp Require Import prelude.
From S2P Require Import Prelude CInt UiWin.

Local Open Scope Z_scope.
#[local] Arguments wp : simpl never.

(** ** Lines *)

(** The characters before the first newline and those after it. *)
Fixpoint split_line (l : list Z) : option (list Z * list Z) :=
  match l with
  | [] => None
  | c :: l =>
      if c =? NEWLINE then Some ([], l)
      else match split_line l with Some (a, b) => Some (c :: a, b) | None => None end
  end.

Lemma split_line_Some l a b : split_line l = Some (a, b) → l = a ++ NEWLINE :: b ∧ NEWLINE ∉ a.
Proof.
  revert a; induction l as [|c l IH]; intros a; simpl; [done|].
  destruct (Z.eqb_spec c NEWLINE) as [->|Hc].
  - intros [= <- <-]. split; [done|by apply not_elem_of_nil].
  - destruct (split_line l) as [[a' b']|]; [|done]. intros [= <- <-].
    destruct (IH a' eq_refl) as [-> Ha]. split; [done|]. set_solver.
Qed.

Lemma split_line_None l : split_line l = None → NEWLINE ∉ l.
Proof.
  induction l as [|c l IH]; simpl; [intros _; apply not_elem_of_nil|].
  destruct (Z.eqb_spec c NEWLINE) as [->|Hc]; [done|].
  destruct (split_line l) as [[a b]|]; [done|]. intros _. specialize (IH eq_refl). set_solver.
Qed.

Lemma take_line_plain n l : NEWLINE ∉ take n l → take_line n l = (take n l, drop n l).
Proof.
  revert l; induction n as [|n IH]; intros [|c l] Hl; try done. simpl in *.
  destruct (Z.eqb_spec c NEWLINE) as [->|Hc]; [set_solver|].
  rewrite IH by set_solver. done.
Qed.

Lemma take_line_newline n a b :
  NEWLINE ∉ a → (length a < n)%nat → take_line n (a ++ NEWLINE :: b) = (a ++ [NEWLINE], b).
Proof.
  revert n; induction a as [|c a IH]; intros [|n] Ha Hn; try (cbn [length] in Hn; lia).
  { done. }
  simpl. destruct (Z.eqb_spec c NEWLINE) as [->|Hc]; [set_solver|].
  cbn [length] in Hn. rewrite IH; [done|set_solver|lia].
Qed.

Lemma take_line_app n l : (take_line n l).1 ++ (take_line n l).2 = l.
Proof.
  revert l; induction n as [|n IH]; intros [|c l]; simpl; try done.
  destruct (c =? NEWLINE); simpl; [done|]. by rewrite IH.
Qed.

Lemma take_line_length n l : (length (take_line n l).1 <= n)%nat.
Proof.
  revert l; induction n as [|n IH]; intros [|c l]; simpl; try lia.
  destruct (c =? NEWLINE); simpl; [lia|]. specialize (IH l). lia.
Qed.

Lemma has_newline_app l k : has_newline (l ++ k) = has_newline l || has_newline k.
Proof.
  unfold has_newline. case_bool_decide as H1; case_bool_decide as H2; case_bool_decide as H3;
    simpl; set_solver.
Qed.

Lemma has_newline_false l : NEWLINE ∉ l → has_newline l = false.
Proof. apply bool_decide_eq_false_2. Qed.

Lemma cstr_app l k : 0 ∉ l → cstr (l ++ 0 :: k) = l.
Proof.
  induction l as [|c l IH]; intros Hl; simpl; [done|].
  destruct (Z.eqb_spec c 0) as [->|Hc]; [set_solver|]. f_equal. apply IH. set_solver.
Qed.

Lemma cstr_plain l : 0 ∉ l → cstr l = l.
Proof.
  induction l as [|c l IH]; intros Hl; simpl; [done|].
  destruct (Z.eqb_spec c 0) as [->|Hc]; [set_solver|]. f_equal. apply IH. set_solver.
Qed.

Lemma strip_newline_app l k :
  NEWLINE ∉ l → strip_newline (l ++ NEWLINE :: k) = l ++ 0 :: k.
Proof.
  induction l as [|c l IH]; intros Hl; simpl; [done|].
  destruct (Z.eqb_spec c NEWLINE) as [->|Hc]; [set_solver|]. f_equal. apply IH. set_solver.
Qed.

Lemma strip_newline_length l : length (strip_newline l) = length l.
Proof. induction l as [|c l IH]; simpl; [done|]. destruct (c =? NEWLINE); simpl; [done|by f_equal]. Qed.

(** ** Frames *)

Section frames.
Context {U : Type} (os : ui_calls U) (handle : std_handle) (BUFSIZ : nat).
Implicit Types s : console U.

(** Whether the characters typed are shown. *)
Definition visible s : bool := match handle with Console => echoing (mode s) | _ => false end.

(** Only standard input, the characters shown, [result] and the string being
    read change. *)
Record Reads s s' : Prop := {
  rd_mode : mode s' = mode s;
  rd_console_mode : console_mode s' = console_mode s;
  rd_works : works s' = works s;
  rd_lock : lock_UI s' = lock_UI s;
  rd_out : tty_out s' = tty_out s;
  rd_shown : visible s = false → shown s' = shown s;
  rd_result : length (result s') = length (result s)
}.

Lemma reads_refl s : Reads s s.
Proof. done. Qed.

Lemma reads_trans s1 s2 s3 : Reads s1 s2 → Reads s2 s3 → Reads s1 s3.
Proof.
  intros [a1 b1 c1 d1 e1 f1 g1] [a2 b2 c2 d2 e2 f2 g2]. split; try congruence.
  intros Hv. rewrite f2, f1; [done..|]. unfold visible in *. by rewrite a1.
Qed.

(** [fgets] leaves the stream [f]. *)
Definition stream_after (size : nat) (f : stream) : stream :=
  let r := take_line (size - 1) (chars f) in
  let short := (length r.1 <? size - 1)%nat && negb (has_newline r.1) in
  Stream r.2 (fails_at_end f) (eof f || short && negb (fails_at_end f))
    (error f || short && fails_at_end f).

Definition fgets_value (size : nat) (f : stream) : option (list Z) :=
  let r := take_line (size - 1) (chars f) in
  let short := (length r.1 <? size - 1)%nat && negb (has_newline r.1) in
  if short && (fails_at_end f || bool_decide (r.1 = [])) then None else Some r.1.

Lemma fgets_wp size s (Q : option (list Z) → console U → Prop) :
  (∀ s', Reads s s' → result s' = result s → uis s' = uis s →
    tty_in s' = stream_after size (tty_in s) → Q (fgets_value size (tty_in s)) s') →
  wp (fgets handle size) Q s.
Proof.
  intros HQ. unfold fgets. do 4 wp_step. wp_step.
  destruct handle eqn:Hh; [by do 2 wp_step; apply HQ| |by do 2 wp_step; apply HQ].
  destruct (echoing (mode s)) eqn:He.
  - do 2 wp_step. apply HQ; try done. split; try done. unfold visible. rewrite Hh, He. done.
  - do 2 wp_step. by apply HQ.
Qed.

Lemma fgets_value_length size f l : fgets_value size f = Some l → (length l <= size - 1)%nat.
Proof.
  unfold fgets_value. destruct (_ && _); [done|]. intros [= <-]. apply take_line_length.
Qed.

(** What [fgets] makes of a line that fits, of one that does not, and of no
    line. *)
Lemma fgets_fits size f a b :
  split_line (chars f) = Some (a, b) → (length a < size - 1)%nat →
  fgets_value size f = Some (a ++ [NEWLINE]) ∧
  stream_after size f = Stream b (fails_at_end f) (eof f) (error f).
Proof.
  intros [E Ha]%split_line_Some Hl. unfold fgets_value, stream_after.
  rewrite E, take_line_newline by done. cbn [fst snd]. rewrite has_newline_app.
  change (has_newline [NEWLINE]) with true. rewrite orb_true_r, andb_false_r, !andb_false_l, !orb_false_r.
  done.
Qed.

Lemma fgets_long size f a b :
  split_line (chars f) = Some (a, b) → (size - 1 <= length a)%nat →
  fgets_value size f = Some (take (size - 1) a) ∧
  stream_after size f
    = Stream (drop (size - 1) a ++ NEWLINE :: b) (fails_at_end f) (eof f) (error f).
Proof.
  intros [E Ha]%split_line_Some Hl. unfold fgets_value, stream_after.
  assert (Hp : take_line (size - 1) (chars f)
    = (take (size - 1) a, drop (size - 1) a ++ NEWLINE :: b)).
  { assert (Ht : take (size - 1) (chars f) = take (size - 1) a)
      by (rewrite E, take_app_le by lia; done).
    rewrite take_line_plain.
    - by rewrite Ht, E, drop_app_le by lia.
    - rewrite Ht. intros Hin. apply Ha. by eapply subseteq_take. }
  rewrite Hp. cbn [fst snd]. rewrite length_take, (proj2 (Nat.ltb_ge _ _)) by lia.
  by rewrite !andb_false_l, !orb_false_r.
Qed.

Lemma fgets_none size f :
  split_line (chars f) = None → (0 < size - 1)%nat →
  match fgets_value size f with
  | None => True
  | Some l => (length l <= size - 1)%nat ∧ (NEWLINE ∉ l) ∧ l ≠ []
  end ∧
  (eof (stream_after size f) || error (stream_after size f) = true ∨
   chars (stream_after size f) = drop (size - 1) (chars f) ∧
   ∃ l, fgets_value size f = Some l ∧ length l = (size - 1)%nat).
Proof.
  intros Hn%split_line_None Hs. unfold fgets_value, stream_after.
  rewrite take_line_plain by (intros ?%subseteq_take; done). cbn [fst snd].
  assert (Ht : NEWLINE ∉ take (size - 1) (chars f)) by (intros ?%subseteq_take; done).
  rewrite has_newline_false, andb_true_r by done.
  destruct (Nat.ltb_spec (length (take (size - 1) (chars f))) (size - 1)) as [Hlt|Hge].
  - split; [|left; simpl; by destruct (eof f), (error f), (fails_at_end f)].
    destruct (_ && _) eqn:E; [done|]. split; [lia|]. split; [done|].
    intros Hnil. rewrite Hnil in E. by rewrite bool_decide_eq_true_2, orb_true_r in E.
  - rewrite length_take in Hge. cbn [andb]. split.
    + rewrite length_take. split; [lia|]. split; [done|]. intros Hnil.
      apply (f_equal length) in Hnil. rewrite length_take in Hnil. cbn [length] in Hnil. lia.
    + right. split; [done|]. eexists. split; [done|]. rewrite length_take. lia.
Qed.

Lemma fgets_value_chars size f l :
  fgets_value size f = Some l → chars f = l ++ chars (stream_after size f).
Proof.
  unfold fgets_value, stream_after. destruct (_ && (_ || _)); [done|]. intros [= <-].
  by rewrite take_line_app.
Qed.

Lemma fgets_value_nonempty size f l :
  (1 < size)%nat → fgets_value size f = Some l → l ≠ [].
Proof.
  intros Hs. unfold fgets_value. destruct (_ && (_ || _)) eqn:E; [done|].
  intros [= <-] Hnil. rewrite Hnil in E. cbn [length] in E.
  rewrite (proj2 (Nat.ltb_lt _ _)), bool_decide_eq_true_2, orb_true_r in E by (done || lia). done.
Qed.

Lemma split_line_app a b : NEWLINE ∉ a → split_line (a ++ NEWLINE :: b) = Some (a, b).
Proof.
  induction a as [|c a IH]; intros Ha; simpl; [done|].
  destruct (Z.eqb_spec c NEWLINE) as [->|Hc]; [set_solver|]. rewrite IH; [done|set_solver].
Qed.

Lemma split_line_not_in l : NEWLINE ∉ l → split_line l = None.
Proof.
  intros Hl. destruct (split_line l) as [[a b]|] eqn:E; [|done].
  apply split_line_Some in E as [-> _]. set_solver.
Qed.

(** The rest of a line is dropped, when no NUL hides its newline. *)
Definition Skips (f f' : stream) (r : bool) : Prop :=
  match split_line (chars f) with
  | Some (_, b) => r = true ∧ f' = Stream b (fails_at_end f) (eof f) (error f)
  | None => r = false
  end.

Lemma read_till_nl_loop_wp fuel s (Q : bool → console U → Prop) :
  (length (chars (tty_in s)) < fuel)%nat →
  (∀ r s', Reads s s' → result s' = result s → uis s' = uis s →
    (0 ∉ chars (tty_in s) → Skips (tty_in s) (tty_in s') r) → Q r s') →
  wp (read_till_nl_loop handle fuel) Q s.
Proof.
  revert s; induction fuel as [|fuel IH]; intros s Hf HQ; [lia|]. cbn [read_till_nl_loop].
  wp_step. apply fgets_wp. intros s1 R1 B1 U1 T1.
  destruct (fgets_value 4 (tty_in s)) as [l|] eqn:Ev.
  2:{ wp_step. apply HQ; try done. intros _. unfold Skips.
      destruct (split_line (chars (tty_in s))) as [[a b]|] eqn:E; [|done].
      destruct (Nat.lt_ge_cases (length a) 3) as [Hl|Hl].
      - destruct (fgets_fits 4 _ a b E) as [? _]; [lia|congruence].
      - destruct (fgets_long 4 _ a b E) as [? _]; [lia|congruence]. }
  pose proof (fgets_value_chars _ _ _ Ev) as Hch. rewrite <-T1 in Hch.
  pose proof (fgets_value_nonempty 4 _ _ ltac:(lia) Ev) as Hne.
  assert (H0l : 0 ∉ chars (tty_in s) → (0 ∉ l) ∧ 0 ∉ chars (tty_in s1))
    by (rewrite Hch; apply not_elem_of_app).
  destruct (has_newline (cstr l)) eqn:Hnl.
  - wp_step. apply HQ; try done. intros [H0 _]%H0l.
    rewrite cstr_plain in Hnl by done. apply bool_decide_eq_true in Hnl. unfold Skips.
    destruct (split_line (chars (tty_in s))) as [[a b]|] eqn:E.
    + destruct (Nat.lt_ge_cases (length a) 3) as [Hl|Hl].
      * destruct (fgets_fits 4 _ a b E) as [_ Hst]; [lia|]. by rewrite T1.
      * destruct (fgets_long 4 _ a b E) as [Hv _]; [lia|]. rewrite Ev in Hv. injection Hv as ->.
        apply split_line_Some in E as [_ Ha]. by apply subseteq_take in Hnl.
    + apply split_line_None in E. rewrite Hch in E. set_solver.
  - apply IH.
    { rewrite Hch in Hf. rewrite length_app in Hf. destruct l; [done|]. cbn [length] in Hf. lia. }
    intros r s2 R2 B2 U2 D2. apply HQ; [by eapply reads_trans|congruence..|].
    intros [H0 H0']%H0l. specialize (D2 H0').
    rewrite cstr_plain in Hnl by done. apply bool_decide_eq_false in Hnl.
    unfold Skips in *. destruct (split_line (chars (tty_in s))) as [[a b]|] eqn:E.
    + destruct (Nat.lt_ge_cases (length a) 3) as [Hl|Hl].
      * destruct (fgets_fits 4 _ a b E) as [Hv _]; [lia|]. rewrite Ev in Hv. injection Hv as ->. set_solver.
      * destruct (fgets_long 4 _ a b E) as [_ Hst]; [lia|].
        apply split_line_Some in E as [_ Ha]. rewrite T1, Hst in D2. cbn [chars fails_at_end eof error] in D2.
        rewrite split_line_app in D2; [done|]. intros Hin. apply Ha. by eapply subseteq_drop.
    + apply split_line_None in E. rewrite Hch in E.
      rewrite split_line_not_in in D2 by set_solver. done.
Qed.

Lemma read_till_nl_wp s (Q : bool → console U → Prop) :
  (∀ r s', Reads s s' → result s' = result s → uis s' = uis s →
    (0 ∉ chars (tty_in s) → Skips (tty_in s) (tty_in s') r) → Q r s') →
  wp (read_till_nl handle) Q s.
Proof. intros HQ. unfold read_till_nl. wp_step. wp_step. apply read_till_nl_loop_wp; [lia|done]. Qed.

(** ** The line *)

(** The characters of a line that [result] has room for, with the newline if
    it is one of them and is to be kept. *)
Definition entered (strip_nl : bool) (a : list Z) : list Z :=
  if (length a <? BUFSIZ - 2)%nat then a ++ (if strip_nl then [] else [NEWLINE])
  else take (BUFSIZ - 2) a.

(** What [read_result] does with the characters to come. *)
Definition Entered (strip_nl : bool) (s s' : console U) (ok : Z) : Prop :=
  match split_line (chars (tty_in s)) with
  | Some (a, b) =>
      let r := UI_set_result os (entered strip_nl a) (uis s) in
      ok = (if 0 <=? r.1 then 1 else 0) ∧ uis s' = r.2 ∧
      tty_in s' = Stream b (fails_at_end (tty_in s)) false false
  | None => ok = 0 ∧ uis s' = uis s
  end.

Definition fresh (f : stream) : Prop := eof f = false ∧ error f = false ∧ 0 ∉ chars f.

Lemma fgets_result_wp size s (Q : bool → console U → Prop) :
  (size <= length (result s))%nat → (1 < size)%nat →
  (∀ s', Reads s s' → uis s' = uis s → tty_in s' = stream_after size (tty_in s) →
    (∀ l, fgets_value size (tty_in s) = Some l → ∃ rest, result s' = l ++ 0 :: rest) →
    Q (match fgets_value size (tty_in s) with Some _ => true | None => false end) s') →
  wp (fgets_result handle size) Q s.
Proof.
  intros Hs Hs1 HQ. unfold fgets_result. wp_step. apply fgets_wp. intros s1 R1 B1 U1 T1.
  destruct (fgets_value size (tty_in s)) as [l|] eqn:E.
  - do 2 wp_step. apply fgets_value_length in E as Hl. rewrite B1.
    rewrite (proj2 (Nat.ltb_lt _ _)) by lia. do 3 wp_step.
    apply HQ; [destruct R1; split; try done|done..|]; simpl.
    + rewrite length_app. cbn [length]. rewrite length_drop. lia.
    + intros l' [= ->]. by eexists.
  - wp_step. by apply HQ.
Qed.

(** What [fgets] has read when it has neither failed nor met the end. *)
Definition LineRead (size : nat) (f f' : stream) (l : list Z) : Prop :=
  match split_line (chars f) with
  | Some (a, b) =>
      (length a < size - 1)%nat ∧ l = a ++ [NEWLINE] ∧ f' = Stream b (fails_at_end f) false false
      ∨ (size - 1 <= length a)%nat ∧ l = take (size - 1) a ∧
        f' = Stream (drop (size - 1) a ++ NEWLINE :: b) (fails_at_end f) false false
  | None => True
  end.

Lemma line_read size f l :
  fresh f → fgets_value size f = Some l → LineRead size f (stream_after size f) l.
Proof.
  intros (He & Hr & _) Hl. unfold LineRead.
  destruct (split_line (chars f)) as [[a b]|] eqn:E; [|done].
  destruct (Nat.lt_ge_cases (length a) (size - 1)) as [Ha|Ha]; [left|right].
  - destruct (fgets_fits size f a b E Ha) as [Hv ->]. rewrite He, Hr. split_and!; [done|congruence|done].
  - destruct (fgets_long size f a b E Ha) as [Hv ->]. rewrite He, Hr. split_and!; [done|congruence|done].
Qed.

(** A line of which the newline was read. *)
Lemma line_fits f l :
  fresh f → fgets_value (BUFSIZ - 1) f = Some l → NEWLINE ∈ l →
  ∃ a b, split_line (chars f) = Some (a, b) ∧ l = a ++ [NEWLINE] ∧ (NEWLINE ∉ a) ∧
    (length a < BUFSIZ - 2)%nat ∧
    stream_after (BUFSIZ - 1) f = Stream b (fails_at_end f) false false.
Proof.
  intros HF Hl Hnl. pose proof (line_read _ _ _ HF Hl) as HL. unfold LineRead in HL.
  destruct (split_line (chars f)) as [[a b]|] eqn:E.
  - apply split_line_Some in E as [_ Ha]. exists a, b.
    destruct HL as [(? & ? & ?)|(_ & -> & _)]; [by split_and!; [|..|lia|]|].
    by apply subseteq_take in Hnl.
  - apply split_line_None in E. apply fgets_value_chars in Hl. rewrite Hl in E. set_solver.
Qed.

(** A line of which it was not, and the rest of which is dropped. *)
Lemma line_skipped strip_nl f f' l r :
  fresh f → fgets_value (BUFSIZ - 1) f = Some l → NEWLINE ∉ l →
  Skips (stream_after (BUFSIZ - 1) f) f' r →
  match split_line (chars f) with
  | Some (a, b) => r = true ∧ l = entered strip_nl a ∧ f' = Stream b (fails_at_end f) false false
  | None => r = false
  end.
Proof.
  intros HF Hl Hnl HS. pose proof (line_read _ _ _ HF Hl) as HL. unfold LineRead in HL.
  unfold Skips in HS. destruct (split_line (chars f)) as [[a b]|] eqn:E.
  - apply split_line_Some in E as [_ Ha].
    destruct HL as [(_ & -> & _)|(Hla & -> & HT)]; [set_solver|]. rewrite HT in HS.
    cbn [chars fails_at_end eof error] in HS.
    rewrite split_line_app in HS by (intros ?%subseteq_drop; done). destruct HS as [-> ->].
    split; [done|]. split; [|done]. unfold entered. rewrite (proj2 (Nat.ltb_ge _ _)) by lia.
    f_equal. lia.
  - apply split_line_None in E. apply fgets_value_chars in Hl. rewrite Hl in E.
    by rewrite split_line_not_in in HS by set_solver.
Qed.

(** What is kept of a line that fits, of the memory [l] it was read into. *)
Lemma entered_fits (strip_nl : bool) (a rest : list Z) :
  0 ∉ a → NEWLINE ∉ a → (length a < BUFSIZ - 2)%nat →
  let l := (a ++ [NEWLINE]) ++ 0 :: rest in
  cstr (if strip_nl then strip_newline l else l) = entered strip_nl a.
Proof.
  intros H0 Ha Hl. cbv zeta. unfold entered. rewrite (proj2 (Nat.ltb_lt _ _)) by lia.
  destruct strip_nl.
  - rewrite <-app_assoc. cbn [app]. by rewrite strip_newline_app, cstr_app, app_nil_r.
  - apply cstr_app. rewrite not_elem_of_app. split; [done|]. by intros ?%list_elem_of_singleton.
Qed.

(** Keeping the characters read as the result. *)
Definition store_result : ST (console U) Z :=
  b ← gets result;
  u ← gets uis;
  let r := UI_set_result os (cstr b) u in
  modify (set_uis r.2);; mret (if 0 <=? r.1 then 1 else 0).

Lemma store_result_wp s s1 strip_nl (Q : Z → console U → Prop) :
  Reads s s1 → uis s1 = uis s →
  (fresh (tty_in s) → ∃ a b, split_line (chars (tty_in s)) = Some (a, b) ∧
    cstr (result s1) = entered strip_nl a ∧
    tty_in s1 = Stream b (fails_at_end (tty_in s)) false false) →
  (∀ ok s', Reads s s' → (ok = 0 ∨ ok = 1) →
    (fresh (tty_in s) → Entered strip_nl s s' ok) → Q ok s') →
  wp store_result Q s1.
Proof.
  intros HR HU HE HQ. unfold store_result. do 6 wp_step. apply HQ.
  - by destruct HR.
  - destruct (0 <=? _); [by right|by left].
  - intros HF. destruct (HE HF) as (a & b & E & Hc & HT). unfold Entered. rewrite E, Hc, HU. done.
Qed.

(** The characters passed on and what is left of the stream, from a line. *)
Lemma read_result_wp strip_nl s (Q : Z → console U → Prop) :
  length (result s) = BUFSIZ → (3 <= BUFSIZ)%nat →
  (∀ ok s', Reads s s' → (ok = 0 ∨ ok = 1) →
    (fresh (tty_in s) → Entered strip_nl s s' ok) → Q ok s') →
  wp (read_result os handle BUFSIZ strip_nl) Q s.
Proof.
  intros Hb HB HQ. unfold read_result. do 2 wp_step. wp_step.
  rewrite (proj2 (Nat.ltb_lt _ _)) by lia. wp_step.
  set (s0 := set_result (0 :: tail (result s)) s).
  assert (R0 : Reads s s0).
  { split; try done. simpl. destruct (result s); [cbn [length] in Hb; lia|done]. }
  assert (L0 : length (result s0) = BUFSIZ) by (rewrite (rd_result _ _ R0); done).
  wp_step. apply fgets_result_wp; [lia|lia|]. intros s1 R1 U1 T1 B1. do 2 wp_step.
  change (tty_in s0) with (tty_in s) in *. change (uis s0) with (uis s) in *.
  pose proof (reads_trans _ _ _ R0 R1) as R01.
  destruct (negb _ || eof (tty_in s1) || error (tty_in s1)) eqn:Estop.
  { wp_step. apply HQ; [done|by left|]. intros (He & Hr & H0). unfold Entered.
    destruct (split_line (chars (tty_in s))) as [[a b]|] eqn:E; [|done]. exfalso.
    destruct (Nat.lt_ge_cases (length a) (BUFSIZ - 2)) as [Hl|Hl].
    - destruct (fgets_fits (BUFSIZ - 1) _ a b E) as [Hv Hst]; [lia|].
      rewrite Hv, T1, Hst in Estop. cbn in Estop. by rewrite He, Hr in Estop.
    - destruct (fgets_long (BUFSIZ - 1) _ a b E) as [Hv Hst]; [lia|].
      rewrite Hv, T1, Hst in Estop. cbn in Estop. by rewrite He, Hr in Estop. }
  apply orb_false_iff in Estop as [[Hsome%negb_false_iff He1]%orb_false_iff Hr1].
  destruct (fgets_value (BUFSIZ - 1) (tty_in s)) as [l|] eqn:Hl; [|done].
  destruct (B1 l eq_refl) as [rest Hres].
  apply fgets_value_chars in Hl as Hch. rewrite <-T1 in Hch.
  assert (H0l : fresh (tty_in s) → (0 ∉ l) ∧ 0 ∉ chars (tty_in s1))
    by (intros (_ & _ & H0); by rewrite Hch, not_elem_of_app in H0).
  do 2 wp_step. fold store_result. wp_step. destruct (has_newline (cstr (result s1))) eqn:Hnl.
  - assert (Hstored : ∀ s2, Reads s1 s2 → uis s2 = uis s1 → tty_in s2 = tty_in s1 →
      result s2 = (if strip_nl then strip_newline (result s1) else result s1) →
      wp store_result Q s2).
    { intros s2 R2 U2 T2 B2.
      apply (store_result_wp s s2 strip_nl); [by eapply reads_trans|congruence| |done].
      intros HF. destruct (H0l HF) as [H0 _].
      rewrite Hres, cstr_app in Hnl by done. apply bool_decide_eq_true in Hnl.
      destruct (line_fits _ _ HF Hl Hnl) as (a & b & E & -> & Ha & Hla & HT).
      exists a, b. split; [done|]. split; [|congruence]. rewrite B2, Hres.
      apply entered_fits; [set_solver|done..]. }
    wp_step. destruct strip_nl; repeat wp_step; apply Hstored; try done.
    split; try done. apply strip_newline_length.
  - apply read_till_nl_wp. intros r s2 R2 B2 U2 D2. pose proof (reads_trans _ _ _ R01 R2) as R02.
    assert (Hskip : fresh (tty_in s) → (0 ∉ l) ∧
      match split_line (chars (tty_in s)) with
      | Some (a, b) => r = true ∧ l = entered strip_nl a ∧
          tty_in s2 = Stream b (fails_at_end (tty_in s)) false false
      | None => r = false
      end).
    { intros HF. destruct (H0l HF) as [H0 H1]. split; [done|].
      rewrite Hres, cstr_app in Hnl by done. apply bool_decide_eq_false in Hnl.
      rewrite T1 in D2, H1. eapply line_skipped; auto. }
    destruct r.
    + apply (store_result_wp s s2 strip_nl); [done|congruence| |done].
      intros HF. destruct (Hskip HF) as [H0 HS].
      destruct (split_line (chars (tty_in s))) as [[a b]|]; [|done]. destruct HS as (_ & -> & HT).
      exists a, b. split; [done|]. split; [|done]. by rewrite B2, Hres, cstr_app.
    + wp_step. apply HQ; [done|by left|]. intros HF. destruct (Hskip HF) as [_ HS]. unfold Entered.
      destruct (split_line (chars (tty_in s))) as [[a b]|]; [by destruct HS|].
      split; [done|congruence].
Qed.

(** ** Asking *)

(** No call of the console fails. *)
Definition Works s : Prop := Forall (λ b, b = true) (works s).

Definition Ready s : Prop := length (result s) = BUFSIZ ∧ (3 <= BUFSIZ)%nat.

Lemma SetConsoleMode_wp m s (Q : bool → console U → Prop) :
  (∀ b, (Works s → b = true) →
    Q b (set_works (tail (works s)) (if b then set_mode m s else s))) →
  wp (SetConsoleMode m) Q s.
Proof.
  intros HQ. unfold SetConsoleMode, next_works. do 5 wp_step.
  assert (Hb : Works s → default true (head (works s)) = true).
  { unfold Works. destruct (works s) as [|b l]; [done|]. by intros [? _]%Forall_cons. }
  specialize (HQ _ Hb). destruct (default true (head (works s))); by repeat wp_step.
Qed.

Lemma works_tail s s' : works s' = works s ∨ works s' = tail (works s) → Works s → Works s'.
Proof.
  unfold Works. intros [->| ->] HW; [done|]. destruct (works s); [done|]. by apply Forall_cons in HW as [_ ?].
Qed.

Lemma quiet_mode m : echoing (Z.land m (Z.lnot ENABLE_ECHO_INPUT)) = false.
Proof.
  unfold echoing. apply negb_false_iff, Z.eqb_eq. rewrite <-Z.land_assoc.
  by replace (Z.land (Z.lnot ENABLE_ECHO_INPUT) ENABLE_ECHO_INPUT) with 0; [rewrite Z.land_0_r|].
Qed.

(** After a string has been asked for. *)
Record Asked (echo : bool) s s' (ok : Z) : Prop := {
  as_result : result s' = replicate BUFSIZ 0;
  as_lock : lock_UI s' = lock_UI s;
  as_console_mode : console_mode s' = console_mode s;
  as_works : Works s → Works s';
  as_ok : ok = 0 ∨ ok = 1;
  as_mode_kept : echo = true ∨ handle ≠ Console → mode s' = mode s;
  as_mode : echo = false → handle = Console → ok = 1 ∨ Works s → mode s' = console_mode s;
  as_shown : echo = false → shown s' = shown s
}.

Lemma read_string_inner_wp echo strip_nl s (Q : Z → console U → Prop) :
  Ready s →
  (∀ ok s', Asked echo s s' ok →
    (Works s → fresh (tty_in s) → echo = true ∨ handle ≠ NoHandle → Entered strip_nl s s' ok) →
    Q ok s') →
  wp (read_string_inner os handle BUFSIZ echo strip_nl) Q s.
Proof.
  intros [Hb HB] HQ. unfold read_string_inner, fputs. wp_step. destruct echo; cbn [andb negb].
  - do 2 wp_step. apply read_result_wp; [done..|]. intros ok s1 R1 Hok HE.
    repeat wp_step. apply HQ.
    + destruct R1. split; simpl; try done. apply works_tail. by left.
    + intros _ HF _. specialize (HE HF). unfold Entered in *.
      by destruct (split_line _) as [[a b]|].
  - unfold noecho_console, echo_console. destruct handle eqn:Hh.
    + repeat wp_step. apply HQ; [split; simpl; try done; [by left|congruence]|]. by intros _ _ [?|?].
    + do 2 wp_step. apply SetConsoleMode_wp. intros b Hbw. destruct b.
      2:{ repeat wp_step. apply HQ.
          - split; simpl; try done; [|by left|]; [by apply works_tail; right|].
            intros _ _ [?|HW]; [done|by specialize (Hbw HW)].
          - intros HW. by specialize (Hbw HW). }
      wp_step. rewrite <-Hh. apply read_result_wp; [done..|]. intros ok s1 R1 Hok HE.
      assert (Hv : visible (set_works (tail (works s))
        (set_mode (Z.land (console_mode s) (Z.lnot ENABLE_ECHO_INPUT)) s)) = false)
        by (unfold visible; rewrite Hh; apply quiet_mode).
      repeat wp_step. cbn [andb]. repeat wp_step. apply SetConsoleMode_wp. intros b Hbw2.
      repeat wp_step.
      assert (HW1 : Works s → Works s1).
      { apply works_tail. right. by rewrite (rd_works _ _ R1). }
      destruct R1 as [r1 r2 r3 r4 r5 r6 r7]. simpl in *. apply HQ.
      * split; simpl; [done|by destruct b|by destruct b| |destruct b; [done|by left]|by intros [?|?]| |].
        -- intros HW%HW1. eapply works_tail; [|exact HW]. right. by destruct b.
        -- intros _ _ Hwhy. destruct b; [done|]. destruct Hwhy as [?|HW%HW1%Hbw2]; done.
        -- intros _. destruct b; by apply r6.
      * intros HW HF _. specialize (HE HF). rewrite (Hbw2 (HW1 HW)). unfold Entered in *. simpl in *.
        by destruct (split_line _) as [[a b']|].
    + do 2 wp_step. rewrite <-Hh. apply read_result_wp; [done..|]. intros ok s1 R1 Hok HE.
      rewrite ?Hh in *. repeat wp_step. cbn [andb]. repeat wp_step. apply HQ.
      * destruct R1. split; simpl; try done; [apply works_tail; by left|congruence|].
        intros _. apply rd_shown0. unfold visible. by rewrite Hh.
      * intros _ HF _. specialize (HE HF). unfold Entered in *.
        by destruct (split_line _) as [[a b]|].
Qed.
End frames.
