(* ===== verification/UiWinProperties.v ===== *)
(** Properties of the console interface. *)
From Stdlib Require Import ZArith Lia.
From stdpp Require Import prelude.
From S2P Require Import Prelude CInt UiWin UiWinProof.

Local Open Scope Z_scope.
#[local] Arguments wp : simpl never.

Section properties.
Context {U : Type} (os : ui_calls U) (handle : std_handle) (BUFSIZ : nat) (verifying failure : list Z).
Implicit Types s : console U.

(** Only standard error changes. *)
Lemma fputs_wp l s (Q : unit → console U → Prop) :
  Q tt (set_out (tty_out s ++ l) s) → wp (fputs l) Q s.
Proof. done. Qed.

(** What [read_string] answers, and does with the characters to come. *)
Definition StringRead s s' (ok : Z) : Prop :=
  match UI_get_string_type os (uis s) with
  | UIT_PROMPT => Entered os BUFSIZ true s s' ok
  | UIT_BOOLEAN => Entered os BUFSIZ false s s' ok
  | UIT_VERIFY =>
      ∃ ok1, Entered os BUFSIZ true s s' ok1 ∧
        ok = if ok1 <=? 0 then ok1
             else if bool_decide (cstr (UI_get0_result_string os (uis s')) =
                                  cstr (UI_get0_test_string os (uis s'))) then 1 else 0
  | _ => ok = 1 ∧ s' = s
  end.

(** What every use of the console leaves. *)
Record Kept (quiet : Prop) s s' : Prop := {
  kp_result : result s' = result s ∨ result s' = replicate BUFSIZ 0;
  kp_lock : lock_UI s' = lock_UI s;
  kp_console_mode : console_mode s' = console_mode s;
  kp_works : Works s → Works s';
  kp_mode : Works s → (handle = Console → mode s = console_mode s) → mode s' = mode s;
  kp_shown : quiet → shown s' = shown s
}.

Lemma kept_refl quiet s : Kept quiet s s.
Proof. split; try done. by left. Qed.

Lemma kept_trans (P1 P2 P : Prop) s1 s2 s3 :
  (P → P1) → (P → P2) → Kept P1 s1 s2 → Kept P2 s2 s3 → Kept P s1 s3.
Proof.
  intros H1 H2 [a1 b1 c1 d1 e1 f1] [a2 b2 c2 d2 e2 f2]. split; try congruence; auto.
  - destruct a2 as [->| ->]; [done|by right].
  - intros HW Hm. rewrite e2, e1; auto. intros Hc. rewrite e1, c1; auto.
  - intros HP. rewrite f2, f1; auto.
Qed.

Lemma asked_kept echo s s' ok : Asked handle BUFSIZ echo s s' ok → Kept (echo = false) s s'.
Proof.
  intros [a b c d e f g h]. split; try done; [by right|].
  intros HW Hm. destruct echo; [by rewrite f by (by left)|].
  destruct (decide (handle = Console)) as [Hc|Hc]; [by rewrite (g eq_refl Hc (or_intror HW)), (Hm Hc)|].
  by rewrite f by (by right).
Qed.

Lemma ready_kept quiet s s' : Ready BUFSIZ s → Kept quiet s s' → Ready BUFSIZ s'.
Proof.
  intros [Hl HB] HK. split; [|done].
  destruct (kp_result _ _ _ HK) as [->| ->]; [done|apply length_replicate].
Qed.

(** [read_string] with the prompt it prints first. *)
Lemma prompted_wp out echo strip_nl s (Q : Z → console U → Prop) :
  Ready BUFSIZ s →
  (∀ ok s', Kept (echo = false) s s' → (ok = 0 ∨ ok = 1) → result s' = replicate BUFSIZ 0 →
    (Works s → fresh (tty_in s) → handle ≠ NoHandle → Entered os BUFSIZ strip_nl s s' ok) →
    Q ok s') →
  wp (read_string_inner os handle BUFSIZ echo strip_nl) Q (set_out out s).
Proof.
  intros HR HQ. apply read_string_inner_wp; [done|]. intros ok s' HA HE. apply HQ.
  - apply asked_kept in HA. by destruct HA.
  - apply HA.
  - apply HA.
  - intros HW HF Hh. specialize (HE HW HF (or_intror Hh)). unfold Entered in *.
    by destruct (split_line _) as [[a b]|].
Qed.

Lemma read_string_wp s (Q : Z → console U → Prop) :
  Ready BUFSIZ s →
  (∀ ok s', Kept (echo_flag os (uis s) = false) s s' →
    (Works s → fresh (tty_in s) → handle ≠ NoHandle → StringRead s s' ok) → Q ok s') →
  wp (read_string os handle BUFSIZ verifying failure) Q s.
Proof.
  intros HR HQ. unfold read_string. do 2 wp_step.
  assert (Hnone : UI_get_string_type os (uis s) = UIT_NONE ∨ UI_get_string_type os (uis s) = UIT_INFO ∨
    UI_get_string_type os (uis s) = UIT_ERROR → Q 1 s).
  { intros Ht. apply HQ; [apply kept_refl|]. intros _ _ _. unfold StringRead. by destruct Ht as [->|[->| ->]]. }
  destruct (UI_get_string_type os (uis s)) eqn:Ht; try (wp_step; apply Hnone; auto).
  - wp_step. apply fputs_wp, prompted_wp; [done|]. intros ok s' HK _ _ HE. apply HQ; [done|].
    unfold StringRead. by rewrite Ht.
  - wp_step. apply fputs_wp. wp_step. apply prompted_wp; [done|]. intros ok s1 HK Hok _ HE.
    assert (HS : ∀ ok' s', (if ok <=? 0 then ok' = ok else ok' =
        if bool_decide (cstr (UI_get0_result_string os (uis s1)) =
                        cstr (UI_get0_test_string os (uis s1))) then 1 else 0) →
      uis s' = uis s1 → tty_in s' = tty_in s1 →
      Works s → fresh (tty_in s) → handle ≠ NoHandle → StringRead s s' ok').
    { intros ok' s' Hok' Hu Hi HW HF Hh. specialize (HE HW HF Hh). unfold StringRead. rewrite Ht.
      exists ok. split; [unfold Entered in *; destruct (split_line _) as [[a b]|]; by rewrite ?Hu, ?Hi|].
      rewrite Hu. by destruct (ok <=? 0). }
    destruct (ok <=? 0) eqn:El.
    + wp_step. apply HQ; [done|]. by apply HS.
    + do 2 wp_step. case_bool_decide as Hc.
      * wp_step. apply HQ; [done|]. by apply HS.
      * wp_step. apply fputs_wp. wp_step. apply HQ; [|by apply HS]. by destruct HK.
  - wp_step. apply fputs_wp. wp_step. apply fputs_wp, (prompted_wp _ _ _ s); [done|].
    intros ok s' HK _ _ HE. apply HQ; [done|]. unfold StringRead. by rewrite Ht.
Qed.

(** ** Sessions *)

(** The strings to be written and read between opening and closing. *)
Inductive op := WriteString (u : U) | ReadString (u : U).

Definition use_console (o : op) : ST (console U) Z :=
  match o with
  | WriteString u => modify (set_uis u);; write_string os
  | ReadString u => modify (set_uis u);; read_string os handle BUFSIZ verifying failure
  end.

Fixpoint use_console_all (l : list op) : ST (console U) unit :=
  match l with
  | [] => mret tt
  | o :: l => use_console o;; use_console_all l
  end.

Definition console_calls (l : list op) : ST (console U) bool :=
  ok ← open_console handle;
  if ok : bool then use_console_all l;; close_console;; mret true else mret false.

(** No string is to be echoed. *)
Definition quiet_op (o : op) : Prop :=
  match o with WriteString _ => True | ReadString u => echo_flag os u = false end.

Lemma use_console_wp o s (Q : Z → console U → Prop) :
  Ready BUFSIZ s → (∀ r s', Kept (quiet_op o) s s' → Q r s') → wp (use_console o) Q s.
Proof.
  intros HR HQ. destruct o as [u|u]; cbn [use_console]; do 2 wp_step.
  - unfold write_string. do 2 wp_step. wp_step.
    assert (HK : ∀ l, Kept True s (set_out l (set_uis u s))) by (intros l; split; try done; by left).
    destruct (UI_get_string_type os _); try (wp_step; wp_step; apply HQ; split; try done; by left);
      apply fputs_wp; wp_step; apply HQ, HK.
  - apply read_string_wp; [done|]. intros ok s' [] _. by apply HQ.
Qed.

Lemma use_console_all_wp l s (Q : unit → console U → Prop) :
  Ready BUFSIZ s → (∀ s', Kept (Forall quiet_op l) s s' → Q tt s') → wp (use_console_all l) Q s.
Proof.
  revert s; induction l as [|o l IH]; intros s HR HQ; cbn [use_console_all].
  { wp_step. apply HQ, kept_refl. }
  wp_step. apply use_console_wp; [done|]. intros r s1 H1. apply IH; [by eapply ready_kept|].
  intros s2 H2. apply HQ. eapply kept_trans; [..|done|done]; by intros [??]%Forall_cons.
Qed.
End properties.

(** Opening: the lock is taken and, when it succeeds, the mode is known. *)
Lemma open_console_wp {U} handle (s : console U) (Q : bool → console U → Prop) :
  (∀ ok s', (Works s → handle ≠ NoHandle → ok = true) → (Works s → Works s') →
    mode s' = mode s → lock_UI s' = lock_UI s + 1 → result s' = result s → shown s' = shown s →
    (ok = true → handle = Console → console_mode s' = mode s') → Q ok s') →
  wp (open_console handle) Q s.
Proof.
  intros HQ. unfold open_console. do 2 wp_step. destruct handle.
  - wp_step. by apply HQ.
  - unfold GetConsoleMode, next_works. do 5 wp_step.
    assert (HT : Works s → Works (set_works (tail (works s)) s)) by (apply works_tail; by right).
    assert (Hb : Works s → default true (head (works s)) = true).
    { unfold Works. destruct (works s) as [|b l]; [done|]. by intros [? _]%Forall_cons. }
    cbn [works set_lock] in *. destruct (default true (head (works s))); repeat wp_step; apply HQ; auto; done.
  - wp_step. by apply HQ.
Qed.

(** C28: [read_string] always returns, without an access outside [result].  When
    no call of the console fails and standard input is at no end or error and
    has no NUL, a prompt passes [UI_set_result] the line up to its newline, cut
    to what [result] holds, whatever its length takes the whole line from
    standard input, and without a line fails and sets nothing; a verification
    then compares the strings, and a boolean keeps the newline. *)
Theorem read_string_reads_line {U} (os : ui_calls U) handle BUFSIZ verifying failure s :
  Ready BUFSIZ s →
  ∃ ok s', read_string os handle BUFSIZ verifying failure s = Some (ok, s') ∧
    (Works s → fresh (tty_in s) → handle ≠ NoHandle → StringRead os BUFSIZ s s' ok).
Proof.
  intros HR.
  assert (Hw : wp (read_string os handle BUFSIZ verifying failure) (λ ok s',
    Works s → fresh (tty_in s) → handle ≠ NoHandle → StringRead os BUFSIZ s s' ok) s).
  { apply read_string_wp; [done|]. by intros ok s' _ HS. }
  apply wp_elim in Hw as (ok & s' & E & HS). by exists ok, s'.
Qed.

(** C29: from opening the console to closing it, whatever is written and read
    between and however it ends, the lock is released and the memory the strings
    were read into holds nothing of them; the console has its mode again when no
    call on it fails; and in a session in which no string is to be echoed
    nothing read is shown, even when calls fail.  When the console cannot be opened, the lock
    stays taken. *)
Theorem console_session {U} (os : ui_calls U) handle BUFSIZ verifying failure l s :
  Ready BUFSIZ s → result s = replicate BUFSIZ 0 →
  ∃ ok s', console_calls os handle BUFSIZ verifying failure l s = Some (ok, s') ∧
    result s' = replicate BUFSIZ 0 ∧ (Works s → mode s' = mode s) ∧
    lock_UI s' = (if ok : bool then lock_UI s else lock_UI s + 1) ∧
    (Works s → handle ≠ NoHandle → ok = true) ∧
    (Forall (quiet_op os) l → shown s' = shown s).
Proof.
  intros HR H0. unfold console_calls.
  assert (Hw : wp (ok ← open_console handle;
    if ok : bool then use_console_all os handle BUFSIZ verifying failure l;; close_console;; mret true
    else mret false) (λ ok s',
    result s' = replicate BUFSIZ 0 ∧ (Works s → mode s' = mode s) ∧
    lock_UI s' = (if ok : bool then lock_UI s else lock_UI s + 1) ∧
    (Works s → handle ≠ NoHandle → ok = true) ∧
    (Forall (quiet_op os) l → shown s' = shown s)) s); [|by apply wp_elim in Hw].
  wp_step. apply open_console_wp. intros ok s1 Hok HW1 Hm1 Hl1 Hr1 Hs1 Hc1.
  destruct ok.
  2:{ wp_step. split_and!; [congruence|done..]. }
  wp_step. apply use_console_all_wp; [unfold Ready; rewrite Hr1; done|]. intros s2 [a b c d e f].
  unfold close_console. repeat wp_step. cbn [result mode lock_UI shown set_lock]. split_and!.
  - destruct a as [->| ->]; congruence.
  - intros HW. rewrite e, Hm1; auto. intros Hc. by rewrite Hc1.
  - lia.
  - done.
  - intros Hq. by rewrite f.
Qed.

(** A UI string that is its type, its flags and the result it is given. *)
Definition demo_ui : ui_calls (string_type * Z * list Z) := {|
  UI_get_string_type := λ u, u.1.1;
  UI_get_input_flags := λ u, u.1.2;
  UI_get0_output_string := λ _, [80; 58];
  UI_get0_action_string := λ _, [63];
  UI_get0_result_string := λ u, u.2;
  UI_get0_test_string := λ _, [97; 98; 99; 100];
  UI_set_result := λ r u, (0, (u.1, r))
|}.

(** A line of ten characters, then one of four, for a [result] of eight. *)
Definition demo_console (t : string_type) : console (string_type * Z * list Z) :=
  MkConsole 7 0 [] 0 (Stream ([97; 98; 99; 100; 101; 102; 103; 104; 105; 106; 10]
    ++ [97; 98; 99; 100; 10]) false false false) [] [] (replicate 8 0) (t, 0, []).

Lemma demo_ready t : Ready 8 (demo_console t).
Proof. split; [done|lia]. Qed.

Lemma read_string_reads_line_witness :
  Ready 8 (demo_console UIT_PROMPT) ∧
  ∃ ok s', read_string demo_ui Console 8 [] [] (demo_console UIT_PROMPT) = Some (ok, s') ∧
    Entered demo_ui 8 true (demo_console UIT_PROMPT) s' ok ∧
    uis s' = (UIT_PROMPT, 0, [97; 98; 99; 100; 101; 102]) ∧ ok = 1 ∧
    chars (tty_in s') = [97; 98; 99; 100; 10].
Proof.
  split; [apply demo_ready|].
  destruct (read_string_reads_line demo_ui Console 8 [] [] (demo_console UIT_PROMPT) (demo_ready _))
    as (ok & s' & E & HS).
  assert (HE : Entered demo_ui 8 true (demo_console UIT_PROMPT) s' ok).
  { apply HS; [by apply Forall_nil|split_and!; [done|done|]|done].
    apply (bool_decide_unpack (0 ∉ chars (tty_in (demo_console UIT_PROMPT)))). by vm_compute. }
  exists ok, s'. split; [exact E|]. split; [exact HE|].
  assert (Hv : match read_string demo_ui Console 8 [] [] (demo_console UIT_PROMPT) with
    | Some (ok, s') => uis s' = (UIT_PROMPT, 0, [97; 98; 99; 100; 101; 102]) ∧ ok = 1 ∧
        chars (tty_in s') = [97; 98; 99; 100; 10]
    | None => False end) by (vm_compute; repeat split).
  by rewrite E in Hv.
Defined.

Lemma console_session_witness :
  Ready 8 (demo_console UIT_NONE) ∧
  ∃ s', console_calls demo_ui Console 8 [] [10] [WriteString (UIT_INFO, 0, []);
      ReadString (UIT_PROMPT, 0, []); ReadString (UIT_VERIFY, 0, [])]
      (demo_console UIT_NONE) = Some (true, s') ∧
    mode s' = 7 ∧ lock_UI s' = 0 ∧ result s' = replicate 8 0 ∧ shown s' = [].
Proof.
  split; [apply demo_ready|].
  destruct (console_session demo_ui Console 8 [] [10] [WriteString (UIT_INFO, 0, []);
      ReadString (UIT_PROMPT, 0, []); ReadString (UIT_VERIFY, 0, [])]
      (demo_console UIT_NONE) (demo_ready _) eq_refl) as (ok & s' & E & Hr & Hm & Hl & Hok & Hs).
  assert (HW : Works (demo_console UIT_NONE)) by apply Forall_nil_2.
  rewrite (Hok HW) in E, Hl by done. exists s'. split; [exact E|].
  split_and!; [by apply Hm|done|done|]. apply Hs. by repeat constructor.
Defined.
