(* ===== verification/Sockpair.v ===== *)
(** [tests/compat/socketpair.c] and [tests/compat/pipe2.c] on Windows: pairs of
    connected sockets, over Winsock and the descriptors of the C runtime. *)
From Stdlib Require Import ZArith Lia.
From stdpp Require Import prelude gmap.
From S2P Require Import Prelude CInt PosixWin.

Local Open Scope Z_scope.

(** [struct sockaddr_in]. *)
Record addr := Addr { sin_family : Z; sin_addr : Z; sin_port : Z }.

#[global] Instance addr_eq_dec : EqDecision addr.
Proof. solve_decision. Defined.

Definition AF_UNIX : Z := 1.
Definition AF_INET : Z := 2.
Definition PF_UNSPEC : Z := 0.
Definition SOCK_STREAM : Z := 1.
Definition SOCK_CLOEXEC : Z := 0x8000.
Definition SOCK_NONBLOCK : Z := 0x4000.
Definition FD_CLOEXEC : Z := 1.

(** ** Winsock *)

(** A socket: its own address and that of its peer, once it has them, whether
    it is non-blocking and whether child processes inherit it. *)
Record sock := Sock {
  local : option addr;
  peer : option addr;
  nonblock : bool;
  inherit : bool
}.

(** The open sockets, the open descriptors of the C runtime, whether [_open] has
    ever failed, and the last error of Winsock. *)
Record net := Net {
  socks : gmap Z sock;
  crt : gset Z;
  open_failed : bool;
  last_error : wsa_code
}.

(** The calls, on a system that can be seen as a [net].  A socket is its handle;
    [setsockopt] is called with [SO_EXCLUSIVEADDRUSE], [ioctlsocket] with
    [FIONBIO] and 1, and [SetHandleInformation] with [HANDLE_FLAG_INHERIT] and
    0. *)
Class Winsock (W : Type) := {
  view : W → net;
  ws_socket : ST (sys W) Z;
  ws_WSASocket : ST (sys W) Z;
  ws_setsockopt : Z → ST (sys W) Z;
  ws_bind : Z → addr → ST (sys W) Z;
  ws_getsockname : Z → ST (sys W) (Z * addr);
  ws_getpeername : Z → ST (sys W) (Z * addr);
  ws_listen : Z → ST (sys W) Z;
  ws_connect : Z → addr → ST (sys W) Z;
  ws_accept : Z → ST (sys W) Z;
  ws_closesocket : Z → ST (sys W) Z;
  ws_ioctlsocket : Z → ST (sys W) Z;
  ws_SetHandleInformation : Z → ST (sys W) bool;
  ws_WSAGetLastError : ST (sys W) wsa_code;
  ws_WSASetLastError : wsa_code → ST (sys W) unit;
  crt_open : ST (sys W) Z;
  crt_close : Z → ST (sys W) Z
}.

Section socketpair.
Context {W : Type} `{Winsock W} (LOOPBACK : Z).
Local Abbreviation M := (ST (sys W)).

(** [connect], [setsockopt] and [close] are those of [posix_win.c]. *)
Definition sock_connect (fd : Z) (a : addr) : M Z :=
  rc ← ws_connect fd a;
  if rc =? SOCKET_ERROR then
    err ← ws_WSAGetLastError;
    if decide (err = WSAEWOULDBLOCK) then set_errno EINPROGRESS;; mret (-1) else wsa_errno err
  else mret rc.

Definition sock_setsockopt (fd : Z) : M Z :=
  if is_socket fd then
    rc ← ws_setsockopt fd;
    if negb (rc =? 0) then err ← ws_WSAGetLastError; wsa_errno err else mret rc
  else mret (-1).

Definition sock_close (fd : Z) : M Z :=
  if is_socket fd then
    rc ← ws_closesocket fd;
    if rc =? SOCKET_ERROR then err ← ws_WSAGetLastError; wsa_errno err else mret rc
  else crt_close (get_real_fd fd).

Definition setfd (fd flags : Z) : M Z :=
  if flagged flags FD_CLOEXEC then
    ok ← ws_SetHandleInformation fd; mret (if ok : bool then 0 else -1)
  else mret (-1).

Definition setfl (fd flags : Z) : M Z :=
  if flagged flags O_NONBLOCK then ws_ioctlsocket fd else mret (-1).

(** Every level of the recursion opens another descriptor; the lowest that are
    free are given first, so that there are no more levels than numbers up to
    the sockets, and one. *)
Fixpoint sentinels (fuel : nat) (v : Z * Z) : M unit :=
  match fuel with
  | O => fail
  | S fuel =>
      fd ← crt_open;
      if (fd =? -1) || (v.1 <? fd) && (v.2 <? fd) then mret tt
      else
        sentinels fuel v;;
        if negb (fd =? v.1) && negb (fd =? v.2) then crt_close fd;; mret tt else mret tt
  end.

Definition create_issue_1069_sentinels (v : Z * Z) : M unit :=
  sentinels (S (S (Z.to_nat (Z.max v.1 v.2)))) v.

(** Whether [self] and [peer] are the same. *)
Definition same_addr (self peer : addr) : bool :=
  (sin_family self =? sin_family peer) && (sin_addr self =? sin_addr peer) &&
  (sin_port self =? sin_port peer).

(** From [setsockopt] to the label [err] or the closing of the listener:
    whether the label is not reached, and the vector. *)
Definition pair_up (listener : Z) : M (bool * (Z * Z)) :=
  let err (v : Z * Z) : M (bool * (Z * Z)) := mret (false, v) in
  r ← sock_setsockopt listener;
  if r =? -1 then err (-1, -1) else
  r ← ws_bind listener (Addr AF_INET LOOPBACK 0);
  if negb (r =? 0) then err (-1, -1) else
  r ← ws_getsockname listener;
  if negb (r.1 =? 0) then err (-1, -1) else
  let to := Addr AF_INET LOOPBACK (sin_port r.2) in
  r ← ws_listen listener;
  if negb (r =? 0) then err (-1, -1) else
  v0 ← ws_WSASocket;
  if v0 =? -1 then err (v0, -1) else
  r ← sock_connect v0 to;
  if negb (r =? 0) then err (v0, -1) else
  v1 ← ws_accept listener;
  if v1 =? -1 then err (v0, v1) else
  self ← ws_getsockname v0;
  if negb (self.1 =? 0) then err (v0, v1) else
  other ← ws_getpeername v1;
  if negb (other.1 =? 0) then err (v0, v1) else
  if same_addr self.2 other.2 then mret (true, (v0, v1))
  else ws_WSASetLastError WSAECONNREFUSED;; err (v0, v1).

(** The result, and what it leaves in [socket_vector] if it writes it. *)
Definition socketpair (domain type protocol : Z) : M (Z * option (Z * Z)) :=
  if negb (domain =? AF_UNIX) || negb (flagged type SOCK_STREAM) || negb (protocol =? PF_UNSPEC)
  then mret (-1, None)
  else
    listener ← ws_socket;
    if listener =? -1 then mret (-1, Some (-1, -1))
    else
      r ← pair_up listener;
      let '(ok, v) := r in
      if ok : bool then
        ws_closesocket listener;;
        create_issue_1069_sentinels v;;
        mret (0, Some v)
      else
        e ← ws_WSAGetLastError;
        ws_closesocket listener;;
        ws_closesocket v.1;;
        ws_closesocket v.2;;
        ws_WSASetLastError e;;
        mret (-1, Some (-1, -1)).

(** [rc |= f(fd)]: the values are 0 and -1. *)
Definition or_rc (rc : Z) (m : M Z) : M Z := r ← m; mret (Z.lor rc r).

(** What [bsd_socketpair] and [bsd_pipe2] do with the pair [v]. *)
Definition set_flags (v : Z * Z) (nb ce : bool) (rc : Z) : M Z :=
  rc ← (if nb then rc ← or_rc rc (setfl v.1 O_NONBLOCK); or_rc rc (setfl v.2 O_NONBLOCK)
        else mret rc);
  rc ← (if ce then rc ← or_rc rc (setfd v.1 FD_CLOEXEC); or_rc rc (setfd v.2 FD_CLOEXEC)
        else mret rc);
  if negb (rc =? 0) then
    e ← gets errno;
    sock_close v.1;; sock_close v.2;;
    set_errno e;; mret rc
  else mret rc.

Definition bsd_socketpair (domain type protocol : Z) : M (Z * option (Z * Z)) :=
  let flags := Z.land type (Z.lnot 0xf) in
  let type := Z.land type 0xf in
  r ← socketpair domain type protocol;
  match r with
  | (0, Some v) =>
      rc ← set_flags v (flagged flags SOCK_NONBLOCK) (flagged flags SOCK_CLOEXEC) 0;
      mret (rc, Some v)
  | _ => mret r
  end.

Definition pipe : M (Z * option (Z * Z)) :=
  socketpair AF_UNIX (Z.lor SOCK_STREAM SOCK_NONBLOCK) PF_UNSPEC.

Definition bsd_pipe2 (flags : Z) : M (Z * option (Z * Z)) :=
  r ← pipe;
  match r with
  | (0, Some v) =>
      rc ← set_flags v (flagged flags O_NONBLOCK) (flagged flags O_CLOEXEC) 0;
      mret (rc, Some v)
  | _ => mret r
  end.
End socketpair.
