(* ===== verification/SockpairProof.v ===== *)
(** What the calls of Winsock promise, and what the functions of
    [socketpair.c] do with them. *)
From Stdlib Require Import ZArith Lia.
From stdpp Require Import prelude gmap.
From S2P Require Import Prelude CInt PosixWin Sockpair.

Local Open Scope Z_scope.
#[local] Arguments wp : simpl never.

(** ** The promises of Winsock *)

Abbreviation net_of s := (view (world s)).

(** A number [is_socket] takes for a socket. *)
Definition is_handle (r : Z) : Prop := 3 <= r < 2 ^ 31.

Lemma handle_valid r : is_handle r → r ≠ -1.
Proof. unfold is_handle. lia. Qed.

(** A new socket, or -1 and nothing new. *)
Definition Created (m m' : gmap Z sock) (r : Z) (P : sock → Prop) : Prop :=
  r = -1 ∧ m' = m ∨
  is_handle r ∧ m !! r = None ∧ ∃ i, P i ∧ nonblock i = false ∧ m' = <[r := i]> m.

(** The socket [fd] is changed by [f]. *)
Definition Changed (fd : Z) (m m' : gmap Z sock) (f : sock → sock → Prop) : Prop :=
  ∃ i i', m !! fd = Some i ∧ f i i' ∧ m' = <[fd := i']> m.

(** The descriptors of the C runtime are as they were. *)
Definition SameCrt {W} `{Winsock W} (s s' : sys W) : Prop :=
  errno s' = errno s ∧ crt (net_of s') = crt (net_of s) ∧
  open_failed (net_of s') = open_failed (net_of s).

Definition SameSocks {W} `{Winsock W} (s s' : sys W) : Prop := socks (net_of s') = socks (net_of s).

(** A new socket that is not connected. *)
Definition unconnected (i : sock) : Prop := local i = None ∧ peer i = None.

(** The documented behaviour.  The handles of sockets fit in 31 bits and are
    none of the first three numbers; [accept] gives a socket with the address of
    the listener, connected to whoever asked first; [_open] gives the lowest
    descriptor that is free. *)
Class WinsockLaws (W : Type) `{Winsock W} : Prop := {
  law_socket s : wp ws_socket (λ r s', SameCrt s s' ∧
    Created (socks (net_of s)) (socks (net_of s')) r unconnected) s;
  law_WSASocket s : wp ws_WSASocket (λ r s', SameCrt s s' ∧
    Created (socks (net_of s)) (socks (net_of s')) r unconnected) s;
  law_setsockopt fd s : wp (ws_setsockopt fd) (λ _ s', SameCrt s s' ∧ SameSocks s s') s;
  law_listen fd s : wp (ws_listen fd) (λ _ s', SameCrt s s' ∧ SameSocks s s') s;
  law_bind fd a s : wp (ws_bind fd a) (λ r s', SameCrt s s' ∧
    (SameSocks s s' ∧ r ≠ 0 ∨
     r = 0 ∧ Changed fd (socks (net_of s)) (socks (net_of s')) (λ _ i',
       ∃ p, local i' = Some (Addr (sin_family a) (sin_addr a) p)))) s;
  law_getsockname fd s : wp (ws_getsockname fd) (λ r s', SameCrt s s' ∧ SameSocks s s' ∧
    (r.1 = 0 → ∃ i, socks (net_of s) !! fd = Some i ∧ local i = Some r.2)) s;
  law_getpeername fd s : wp (ws_getpeername fd) (λ r s', SameCrt s s' ∧ SameSocks s s' ∧
    (r.1 = 0 → ∃ i, socks (net_of s) !! fd = Some i ∧ peer i = Some r.2)) s;
  law_connect fd a s : wp (ws_connect fd a) (λ r s', SameCrt s s' ∧
    (SameSocks s s' ∧ r ≠ 0 ∨
     r = 0 ∧ Changed fd (socks (net_of s)) (socks (net_of s')) (λ i i',
       is_Some (local i') ∧ peer i' = Some a ∧ nonblock i' = nonblock i))) s;
  law_accept fd s : wp (ws_accept fd) (λ r s', SameCrt s s' ∧
    Created (socks (net_of s)) (socks (net_of s')) r (λ i,
      ∃ l, socks (net_of s) !! fd = Some l ∧ local i = local l ∧ is_Some (peer i))) s;
  law_closesocket fd s : wp (ws_closesocket fd) (λ _ s', SameCrt s s' ∧
    socks (net_of s') = delete fd (socks (net_of s))) s;
  law_ioctlsocket fd s : wp (ws_ioctlsocket fd) (λ r s', SameCrt s s' ∧
    (SameSocks s s' ∧ r = -1 ∨
     r = 0 ∧ Changed fd (socks (net_of s)) (socks (net_of s'))
       (λ i i', i' = Sock (local i) (peer i) true (inherit i)))) s;
  law_SetHandleInformation fd s : wp (ws_SetHandleInformation fd) (λ b s', SameCrt s s' ∧
    if b then Changed fd (socks (net_of s)) (socks (net_of s'))
      (λ i i', i' = Sock (local i) (peer i) (nonblock i) false)
    else SameSocks s s') s;
  law_WSAGetLastError s : wp ws_WSAGetLastError (λ e s', SameCrt s s' ∧ SameSocks s s' ∧
    e = last_error (net_of s) ∧ last_error (net_of s') = e) s;
  law_WSASetLastError e s : wp (ws_WSASetLastError e) (λ _ s', SameCrt s s' ∧ SameSocks s s' ∧
    last_error (net_of s') = e) s;
  law_open s : wp crt_open (λ r s', socks (net_of s') = socks (net_of s) ∧
    last_error (net_of s') = last_error (net_of s) ∧
    (r = -1 ∧ crt (net_of s') = crt (net_of s) ∧ open_failed (net_of s') = true ∨
     0 <= r ∧ (r ∉ crt (net_of s)) ∧ (∀ j, 0 <= j < r → j ∈ crt (net_of s)) ∧
     crt (net_of s') = {[r]} ∪ crt (net_of s) ∧
     open_failed (net_of s') = open_failed (net_of s))) s;
  law_close fd s : wp (crt_close fd) (λ _ s', socks (net_of s') = socks (net_of s) ∧
    last_error (net_of s') = last_error (net_of s) ∧
    crt (net_of s') = crt (net_of s) ∖ {[fd]} ∧
    open_failed (net_of s') = open_failed (net_of s)) s
}.

Section proof.
Context {W : Type} `{WinsockLaws W} (LOOPBACK : Z).
Implicit Types s : sys W.

Lemma same_crt_refl s : SameCrt s s.
Proof. done. Qed.

Lemma same_crt_trans s1 s2 s3 : SameCrt s1 s2 → SameCrt s2 s3 → SameCrt s1 s3.
Proof. unfold SameCrt. intuition congruence. Qed.

(** ** The descriptors that are left open *)

(** The descriptors above the sockets that are opened last, and those that
    would be taken for one of the sockets. *)
Definition Sentinels (v : Z * Z) (C C' : gset Z) : Prop :=
  C ⊆ C' ∧ ∃ m, (m = -1 ∨ Z.max v.1 v.2 < m ∧ m ∉ C) ∧
  ∀ j, j ∈ C' → j ∈ C ∨ j = v.1 ∨ j = v.2 ∨ j = m ∧ m ≠ -1.

Lemma sentinels_wp fuel v k s (Q : unit → sys W → Prop) :
  0 <= v.1 → 0 <= v.2 → (∀ j, 0 <= j < k → j ∈ crt (net_of s)) →
  (Z.to_nat (Z.max v.1 v.2 + 1 - k) < fuel)%nat →
  (∀ s', socks (net_of s') = socks (net_of s) → last_error (net_of s') = last_error (net_of s) →
    Sentinels v (crt (net_of s)) (crt (net_of s')) →
    (open_failed (net_of s') = false →
      v.1 ∈ crt (net_of s') ∧ v.2 ∈ crt (net_of s')) → Q tt s') →
  wp (sentinels fuel v) Q s.
Proof.
  intros H1 H2. revert k s Q; induction fuel as [|fuel IH]; intros k s Q Hk Hf HQ; [lia|].
  cbn [sentinels]. wp_step. eapply wp_mono; [apply law_open|].
  intros fd s1 (S1 & L1 & [(-> & C1 & F1)|(Hfd & Hfree & Hlow & C1 & F1)]).
  { cbn. wp_step. apply HQ; [done..| |congruence]. rewrite C1. split; [done|].
    exists (-1). split; [by left|]. by left. }
  rewrite (proj2 (Z.eqb_neq fd (-1))) by lia. cbn [orb].
  assert (Hfdk : k <= fd) by (destruct (decide (k <= fd)); [done|]; destruct Hfree; apply Hk; lia).
  destruct ((v.1 <? fd) && (v.2 <? fd)) eqn:Eout.
  - apply andb_true_iff in Eout as [Ev1%Z.ltb_lt Ev2%Z.ltb_lt]. wp_step. apply HQ; [done..| |].
    + rewrite C1. split; [set_solver|]. exists fd. split; [right; split; [lia|done]|].
      intros j [->%elem_of_singleton|?]%elem_of_union; [right; right; right; split; [done|lia]|by left].
    + intros _. rewrite C1. split; apply elem_of_union; right; apply Hlow; lia.
  - assert (Hle : fd <= Z.max v.1 v.2).
    { apply andb_false_iff in Eout as [?%Z.ltb_ge|?%Z.ltb_ge]; lia. }
    wp_step. apply (IH (fd + 1)).
    { intros j Hj. rewrite C1. destruct (decide (j = fd)) as [->|]; [set_solver|].
      apply elem_of_union. right. apply Hlow. lia. }
    { lia. }
    intros s2 S2 L2 [Hsub (m & Hm & Hin)] Hv. rewrite C1 in Hsub, Hm, Hin.
    destruct (negb (fd =? v.1) && negb (fd =? v.2)) eqn:Ekeep.
    + apply andb_true_iff in Ekeep as [E1%negb_true_iff%Z.eqb_neq E2%negb_true_iff%Z.eqb_neq].
      wp_step. eapply wp_mono; [apply law_close|]. intros r s3 (S3 & L3 & C3 & F3). wp_step.
      apply HQ; [congruence..| |].
      * rewrite C3. split; [set_solver|]. exists m. split; [destruct Hm; [by left|right; set_solver]|].
        intros j [[[->%elem_of_singleton|?]%elem_of_union|Hj]%Hin Hne]%elem_of_difference;
          [set_solver|by left|by right].
      * rewrite F3, C3. intros [??]%Hv. set_solver.
    + wp_step. apply HQ; [congruence..| |done]. split; [set_solver|].
      exists m. split; [destruct Hm; [by left|right; set_solver]|].
      intros j [[->%elem_of_singleton|?]%elem_of_union|Hj]%Hin; [|by left|by right].
      right. apply andb_false_iff in Ekeep as [?%negb_false_iff%Z.eqb_eq|?%negb_false_iff%Z.eqb_eq]; auto.
Qed.

Lemma create_sentinels_wp v s (Q : unit → sys W → Prop) :
  0 <= v.1 → 0 <= v.2 →
  (∀ s', socks (net_of s') = socks (net_of s) → last_error (net_of s') = last_error (net_of s) →
    Sentinels v (crt (net_of s)) (crt (net_of s')) →
    (open_failed (net_of s') = false →
      v.1 ∈ crt (net_of s') ∧ v.2 ∈ crt (net_of s')) → Q tt s') →
  wp (create_issue_1069_sentinels v) Q s.
Proof.
  intros H1 H2 HQ. unfold create_issue_1069_sentinels. apply (sentinels_wp _ v 0); [done..|lia|lia|done].
Qed.

(** ** The pair *)

(** The descriptors of the C runtime are as they were; [errno] may not be. *)
Definition SameFds s s' : Prop :=
  crt (net_of s') = crt (net_of s) ∧ open_failed (net_of s') = open_failed (net_of s).

Lemma same_fds s s' : SameCrt s s' → SameFds s s'.
Proof. by intros (_ & ? & ?). Qed.

Lemma same_fds_trans s1 s2 s3 : SameFds s1 s2 → SameFds s2 s3 → SameFds s1 s3.
Proof. unfold SameFds. intuition congruence. Qed.

(** Reporting an error sets [errno]. *)
Lemma report_wp (f : wsa_code → ST (sys W) Z) s (Q : Z → sys W → Prop) :
  (∀ e s1, wp (f e) (λ r s2, r = -1 ∧ world s2 = world s1) s1) →
  (∀ s', SameFds s s' → SameSocks s s' → Q (-1) s') →
  wp (err ← ws_WSAGetLastError; f err) Q s.
Proof.
  intros Hf HQ. wp_step. eapply wp_mono; [apply law_WSAGetLastError|]. intros e s1 (C1 & S1 & _).
  eapply wp_mono; [apply Hf|]. intros r s2 [-> E]. unfold SameFds, SameSocks in *. apply same_fds in C1.
  apply HQ; by rewrite E.
Qed.

Lemma sock_setsockopt_wp fd s (Q : Z → sys W → Prop) :
  (∀ r s', SameFds s s' → SameSocks s s' → Q r s') → wp (sock_setsockopt fd) Q s.
Proof.
  intros HQ. unfold sock_setsockopt. destruct (is_socket fd); [|wp_step; by apply HQ].
  wp_step. eapply wp_mono; [apply law_setsockopt|]. intros r s1 (C1 & S1). apply same_fds in C1.
  destruct (negb _); [|wp_step; by apply HQ].
  apply report_wp; [done|]. intros s2 F2 S2. unfold SameSocks in *.
  apply HQ; [by eapply same_fds_trans|congruence].
Qed.

Lemma sock_connect_wp fd a s (Q : Z → sys W → Prop) :
  (∀ r s', SameFds s s' →
    (SameSocks s s' ∧ r ≠ 0 ∨
     r = 0 ∧ Changed fd (socks (net_of s)) (socks (net_of s')) (λ i i',
       is_Some (local i') ∧ peer i' = Some a ∧ nonblock i' = nonblock i)) → Q r s') →
  wp (sock_connect fd a) Q s.
Proof.
  intros HQ. unfold sock_connect. wp_step. eapply wp_mono; [apply law_connect|].
  intros r s1 (C1 & HC). apply same_fds in C1.
  destruct (Z.eqb_spec r SOCKET_ERROR) as [->|Hr]; [|wp_step; by apply HQ].
  apply report_wp; [intros e s2; by destruct (decide _)|]. intros s2 F2 S2.
  apply HQ; [by eapply same_fds_trans|]. destruct HC as [[S1 _]|[[=] _]]. left.
  unfold SameSocks in *. split; [congruence|done].
Qed.

(** The sockets [m] and, of the vector, those there are: the listener [L], then
    the first and the second half. *)
Definition Halves (m : gmap Z sock) (L : Z) (v : Z * Z) (m' : gmap Z sock) : Prop :=
  ∃ l', v = (-1, -1) ∧ m' = <[L := l']> m
  ∨ ∃ v0 i0, is_handle v0 ∧ m !! v0 = None ∧ v0 ≠ L ∧
    (v = (v0, -1) ∧ m' = <[v0 := i0]> (<[L := l']> m)
     ∨ ∃ v1 i1, is_handle v1 ∧ m !! v1 = None ∧ v1 ≠ L ∧ v1 ≠ v0 ∧ v = (v0, v1) ∧
         m' = <[v1 := i1]> (<[v0 := i0]> (<[L := l']> m))).

(** The halves of the vector are connected to each other. *)
Definition Connected (v : Z * Z) (m : gmap Z sock) : Prop :=
  ∃ i0 i1, m !! v.1 = Some i0 ∧ m !! v.2 = Some i1 ∧
    is_Some (local i0) ∧ is_Some (local i1) ∧ local i0 = peer i1 ∧ local i1 = peer i0 ∧
    nonblock i0 = false ∧ nonblock i1 = false.

Lemma changed_insert m L l m' f :
  m !! L = None → Changed L (<[L := l]> m) m' f → ∃ l', f l l' ∧ m' = <[L := l']> m.
Proof.
  intros Hm (i & i' & Hi & Hf & ->). rewrite lookup_insert_eq in Hi. injection Hi as <-.
  exists i'. by rewrite insert_insert_eq.
Qed.

(** The last part, from [connect]: [to] is the address of the listener. *)
Definition join_pair (listener v0 : Z) (to : addr) : ST (sys W) (bool * (Z * Z)) :=
  r ← sock_connect v0 to;
  if negb (r =? 0) then mret (false, (v0, -1)) else
  v1 ← ws_accept listener;
  if v1 =? -1 then mret (false, (v0, v1)) else
  self ← ws_getsockname v0;
  if negb (self.1 =? 0) then mret (false, (v0, v1)) else
  other ← ws_getpeername v1;
  if negb (other.1 =? 0) then mret (false, (v0, v1)) else
  if same_addr self.2 other.2 then mret (true, (v0, v1))
  else ws_WSASetLastError WSAECONNREFUSED;; mret (false, (v0, v1)).

Lemma same_addr_eq a b : same_addr a b = true → a = b.
Proof.
  unfold same_addr. intros [[?%Z.eqb_eq ?%Z.eqb_eq]%andb_true_iff ?%Z.eqb_eq]%andb_true_iff.
  destruct a, b. simpl in *. congruence.
Qed.

Lemma join_pair_wp m L v0 i0 l to s (Q : bool * (Z * Z) → sys W → Prop) :
  m !! L = None → m !! v0 = None → v0 ≠ L → is_handle v0 → nonblock i0 = false → local l = Some to →
  socks (net_of s) = <[v0 := i0]> (<[L := l]> m) →
  (∀ ok v s', SameFds s s' → Halves m L v (socks (net_of s')) →
    (ok = true → v.1 ≠ -1 ∧ v.2 ≠ -1 ∧ Connected v (socks (net_of s'))) → Q (ok, v) s') →
  wp (join_pair L v0 to) Q s.
Proof.
  intros HL Hv0 H0L Hr0 Hnb0 Hto Hs HQ. unfold join_pair. wp_step.
  apply sock_connect_wp. intros r s2 F02 HC. unfold SameSocks in *.
  destruct HC as [[E2 Hr]|[-> HC]].
  { rewrite (proj2 (Z.eqb_neq r 0)) by done. cbn [negb]. wp_step. apply HQ; [done| |done]. rewrite E2, Hs.
    exists l. right. exists v0, i0. split_and!; [done..|by left]. }
  cbn beta. cbn [Z.eqb negb]. rewrite Hs in HC.
  apply changed_insert in HC as (i & ([a Hloc] & Hpeer & Hnb) & E2); [|by rewrite lookup_insert_ne].
  wp_step. eapply wp_mono; [apply law_accept|]. intros v1 s3 (C3 & HA). cbn beta.
  pose proof (same_fds_trans _ _ _ F02 (same_fds _ _ C3)) as F03. rewrite E2 in HA.
  destruct HA as [[-> S3]|(H31 & Hn1 & i1 & (l2 & Hl2 & Hloc1 & Hpeer1) & Hnb1 & S3)].
  { rewrite Z.eqb_refl. wp_step. apply HQ; [done| |done]. rewrite S3. exists l. right. exists v0, i.
    split_and!; [done..|by left]. }
  rewrite (proj2 (Z.eqb_neq v1 (-1))) by by apply handle_valid.
  rewrite lookup_insert_ne, lookup_insert_eq in Hl2 by done. injection Hl2 as <-.
  assert (Hv1 : m !! v1 = None ∧ v1 ≠ L ∧ v1 ≠ v0).
  { apply lookup_insert_None in Hn1 as [Hn1 ?]. apply lookup_insert_None in Hn1 as [? ?]. done. }
  destruct Hv1 as (Hm1 & H1L & H10).
  assert (HH : ∀ s', SameSocks s3 s' → Halves m L (v0, v1) (socks (net_of s'))).
  { intros s' ->. rewrite S3. exists l. right. exists v0, i. split_and!; [done..|right].
    by exists v1, i1. }
  wp_step. eapply wp_mono; [apply law_getsockname|]. intros [r4 self] s4 (C4 & S4 & N4). cbn [fst snd] in *.
  pose proof (same_fds_trans _ _ _ F03 (same_fds _ _ C4)) as F04.
  destruct (Z.eqb_spec r4 0) as [->|]; cbn [negb]; [|wp_step; by apply HQ; auto].
  wp_step. eapply wp_mono; [apply law_getpeername|]. intros [r5 other] s5 (C5 & S5 & N5). cbn [fst snd] in *.
  pose proof (same_fds_trans _ _ _ F04 (same_fds _ _ C5)) as F05.
  assert (S35 : SameSocks s3 s5) by (unfold SameSocks in *; congruence).
  destruct (Z.eqb_spec r5 0) as [->|]; cbn [negb]; [|wp_step; by apply HQ; auto].
  destruct (same_addr self other) eqn:Esame.
  - wp_step. apply HQ; [done|by apply HH|]. intros _. cbn [fst snd]. split_and!; [by apply handle_valid..|].
    apply same_addr_eq in Esame as ->. unfold SameSocks in *.
    destruct (N4 eq_refl) as (j0 & Hj0 & Hj0l). destruct (N5 eq_refl) as (j1 & Hj1 & Hj1p).
    rewrite S3, lookup_insert_ne, lookup_insert_eq in Hj0 by done. injection Hj0 as <-.
    rewrite S4, S3, lookup_insert_eq in Hj1. injection Hj1 as <-.
    exists i, i1. cbn [fst snd]. rewrite S35, S3.
    rewrite lookup_insert_eq, lookup_insert_ne, lookup_insert_eq by done.
    split_and!; try congruence; rewrite ?Hloc1, ?Hto; by eexists.
  - wp_step. eapply wp_mono; [apply law_WSASetLastError|]. intros u s6 (C6 & S6 & _). wp_step.
    apply HQ; [by eapply same_fds_trans, same_fds| |done]. apply HH. unfold SameSocks in *. congruence.
Qed.

Lemma pair_up_wp m L l s (Q : bool * (Z * Z) → sys W → Prop) :
  m !! L = None → socks (net_of s) = <[L := l]> m →
  (∀ ok v s', SameFds s s' → Halves m L v (socks (net_of s')) →
    (ok = true → v.1 ≠ -1 ∧ v.2 ≠ -1 ∧ Connected v (socks (net_of s'))) → Q (ok, v) s') →
  wp (pair_up LOOPBACK L) Q s.
Proof.
  intros HL Hs HQ. unfold pair_up. cbv zeta.
  assert (Hnone : ∀ s' l', SameFds s s' → socks (net_of s') = <[L := l']> m → Q (false, (-1, -1)) s').
  { intros s' l' HF HS. apply HQ; [done| |done]. rewrite HS. exists l'. by left. }
  wp_step. apply sock_setsockopt_wp. intros r s2 F02 S2. unfold SameSocks in *.
  assert (E2 : socks (net_of s2) = <[L := l]> m) by congruence. cbn beta.
  destruct (r =? -1); [wp_step; by eapply Hnone|].
  wp_step. eapply wp_mono; [apply law_bind|]. intros r3 s3 (C3 & HB). cbn beta.
  pose proof (same_fds_trans _ _ _ F02 (same_fds _ _ C3)) as F03. unfold SameSocks in *.
  destruct HB as [[S3 Hr]|[-> HB]].
  { rewrite (proj2 (Z.eqb_neq r3 0)) by done. cbn [negb]. wp_step. eapply Hnone; [done|by rewrite S3]. }
  cbn [Z.eqb negb]. rewrite E2 in HB. apply changed_insert in HB as (l3 & [p Hp] & E3); [|done].
  cbn [sin_family sin_addr] in Hp.
  wp_step. eapply wp_mono; [apply law_getsockname|]. intros [r4 self] s4 (C4 & S4 & N4). cbn [fst snd] in *.
  pose proof (same_fds_trans _ _ _ F03 (same_fds _ _ C4)) as F04. unfold SameSocks in *.
  destruct (Z.eqb_spec r4 0) as [->|]; cbn [negb]; [|wp_step; eapply Hnone; [done|by rewrite S4]].
  destruct (N4 eq_refl) as (j & Hj & Hjl). rewrite E3, lookup_insert_eq in Hj. injection Hj as <-.
  assert (Hto : local l3 = Some (Addr AF_INET LOOPBACK (sin_port self))) 
    by (rewrite Hp in Hjl; by injection Hjl as <-).
  wp_step. eapply wp_mono; [apply law_listen|]. intros r5 s5 (C5 & S5). cbn beta.
  pose proof (same_fds_trans _ _ _ F04 (same_fds _ _ C5)) as F05. unfold SameSocks in *.
  assert (E5 : socks (net_of s5) = <[L := l3]> m) by congruence.
  destruct (negb _); [wp_step; by eapply Hnone|].
  wp_step. eapply wp_mono; [apply law_WSASocket|]. intros v0 s6 (C6 & HS). cbn beta.
  pose proof (same_fds_trans _ _ _ F05 (same_fds _ _ C6)) as F06.
  destruct HS as [[-> S6]|(H3 & Hn0 & i0 & _ & Hnb & S6)].
  { rewrite Z.eqb_refl. wp_step. eapply Hnone; [done|by rewrite S6]. }
  rewrite (proj2 (Z.eqb_neq v0 (-1))) by by apply handle_valid. rewrite E5 in *.
  apply lookup_insert_None in Hn0 as [Hn0 HL0].
  apply (join_pair_wp m L v0 i0 l3); try done. intros ok v s' F HH Hok.
  apply HQ; [by eapply same_fds_trans|done..].
Qed.

(** ** The whole call *)

(** No handle is [INVALID_SOCKET]. *)
Definition Valid s : Prop := socks (net_of s) !! (-1) = None.

(** The sockets [m] and the pair. *)
Definition PairOf (m : gmap Z sock) (v : Z * Z) (i0 i1 : sock) s : Prop :=
  socks (net_of s) = <[v.2 := i1]> (<[v.1 := i0]> m).

(** Two numbers for new sockets. *)
Definition NewPair (m : gmap Z sock) (v : Z * Z) : Prop :=
  is_handle v.1 ∧ is_handle v.2 ∧ v.1 ≠ v.2 ∧ m !! v.1 = None ∧ m !! v.2 = None.

(** Two sockets that are connected to each other. *)
Definition Mates (i0 i1 : sock) : Prop :=
  is_Some (local i0) ∧ is_Some (local i1) ∧ local i0 = peer i1 ∧ local i1 = peer i0.

Lemma halves_delete m L v m' :
  m !! (-1) = None → m !! L = None → L ≠ -1 → Halves m L v m' →
  delete v.2 (delete v.1 (delete L m')) = m.
Proof.
  intros Hm1 HL HL1 (l' & [[-> ->]|(v0 & i0 & Hv0 & Hm0 & H0L & [[-> ->]|(v1 & i1 & Hv1 & Hmv1 & H1L & H10 & -> & ->)])]);
    cbn [fst snd].
  - rewrite delete_insert_id by done. by rewrite !(delete_id m).
  - rewrite delete_insert_ne, (delete_insert_id m L), delete_insert_id by done. by rewrite (delete_id m).
  - rewrite !(delete_insert_ne _ L), (delete_insert_id m L) by done.
    rewrite delete_insert_ne, (delete_insert_id m v0), delete_insert_id by done. done.
Qed.

Lemma halves_pair m L v m' :
  m !! L = None → v.1 ≠ -1 → v.2 ≠ -1 → Halves m L v m' →
  NewPair m v ∧ ∃ i0 i1, delete L m' = <[v.2 := i1]> (<[v.1 := i0]> m) ∧
    m' !! v.1 = Some i0 ∧ m' !! v.2 = Some i1.
Proof.
  intros HL H1 H2 (l' & [[-> ->]|(v0 & i0 & Hv0 & Hm0 & H0L & [[-> ->]|(v1 & i1 & Hv1 & Hmv1 & H1L & H10 & -> & ->)])]);
    cbn [fst snd] in *; [done..|].
  split; [done|]. exists i0, i1.
  rewrite !(delete_insert_ne _ L), delete_insert_id by done.
  rewrite lookup_insert_ne, !lookup_insert_eq by done. done.
Qed.

(** What [socketpair] returns. *)
Definition Paired s (r : Z * option (Z * Z)) s' : Prop :=
  (∃ v i0 i1, r = (0, Some v) ∧ NewPair (socks (net_of s)) v ∧ Mates i0 i1 ∧
    PairOf (socks (net_of s)) v i0 i1 s' ∧ nonblock i0 = false ∧ nonblock i1 = false ∧
    Sentinels v (crt (net_of s)) (crt (net_of s')) ∧
    (open_failed (net_of s') = false → v.1 ∈ crt (net_of s') ∧ v.2 ∈ crt (net_of s')))
  ∨ r.1 = -1 ∧ (r.2 = None ∨ r.2 = Some (-1, -1)) ∧ SameSocks s s' ∧ SameFds s s'.

Lemma socketpair_wp domain type protocol s (Q : Z * option (Z * Z) → sys W → Prop) :
  Valid s → (∀ r s', Paired s r s' → Q r s') → wp (socketpair LOOPBACK domain type protocol) Q s.
Proof.
  intros HV HQ. unfold socketpair. destruct (negb _ || _ || _).
  { wp_step. apply HQ. right. split_and!; [done|by left|done|done]. }
  wp_step. eapply wp_mono; [apply law_socket|]. intros L s1 (C1 & HC). cbn beta.
  destruct HC as [[-> S1]|(HL & HLn & l & _ & _ & S1)].
  { rewrite Z.eqb_refl. wp_step. apply HQ. right.
    split_and!; [done|by right|done|by apply same_fds]. }
  rewrite (proj2 (Z.eqb_neq L (-1))) by by apply handle_valid.
  wp_step. eapply pair_up_wp; [done|exact S1|]. intros ok v s2 F2 HH Hok. cbn beta iota.
  pose proof (same_fds_trans _ _ _ (same_fds _ _ C1) F2) as F02. destruct ok.
  - destruct (Hok eq_refl) as (Hv1 & Hv2 & j0 & j1 & Hj0 & Hj1 & M1 & M2 & M3 & M4 & N0 & N1).
    apply halves_pair in HH as (HN & i0 & i1 & Hdel & Hi0 & Hi1); [|done..].
    assert (j0 = i0) as -> by congruence. assert (j1 = i1) as -> by congruence.
    wp_step. eapply wp_mono; [apply law_closesocket|]. intros r3 s3 (C3 & S3). wp_step.
    pose proof (same_fds_trans _ _ _ F02 (same_fds _ _ C3)) as [F3 G3].
    pose proof HN as ([? ?] & [? ?] & ?).
    apply create_sentinels_wp; [lia|lia|]. intros s4 S4 _ HS Hf. wp_step. apply HQ. left.
    rewrite F3 in HS. exists v, i0, i1. split_and!; try done. unfold PairOf. congruence.
  - wp_step. eapply wp_mono; [apply law_WSAGetLastError|]. intros e s3 (C3 & S3 & _).
    wp_step. eapply wp_mono; [apply law_closesocket|]. intros r4 s4 (C4 & S4).
    wp_step. eapply wp_mono; [apply law_closesocket|]. intros r5 s5 (C5 & S5).
    wp_step. eapply wp_mono; [apply law_closesocket|]. intros r6 s6 (C6 & S6).
    wp_step. eapply wp_mono; [apply law_WSASetLastError|]. intros u s7 (C7 & S7 & _).
    wp_step. apply HQ. right. split_and!; [done|by right| |].
    + unfold SameSocks in *. rewrite S7, S6, S5, S4, S3. apply halves_delete; [done|done|by apply handle_valid|done].
    + do 4 (eapply same_fds_trans; [|by apply same_fds]). by eapply same_fds_trans, same_fds.
Qed.

(** ** Flags *)

Definition with_nonblock (b : bool) (i : sock) : sock :=
  if b then Sock (local i) (peer i) true (inherit i) else i.
Definition without_inherit (b : bool) (i : sock) : sock :=
  if b then Sock (local i) (peer i) (nonblock i) false else i.

(** [f] sets a flagged, which [g] describes, or fails. *)
Definition Setter (f : Z → ST (sys W) Z) (g : sock → sock) : Prop :=
  ∀ fd s, wp (f fd) (λ r s', SameCrt s s' ∧
    (SameSocks s s' ∧ r = -1 ∨
     r = 0 ∧ Changed fd (socks (net_of s)) (socks (net_of s')) (λ i i', i' = g i))) s.

Lemma setfl_setter : Setter (λ fd, setfl fd O_NONBLOCK) (with_nonblock true).
Proof. intros fd s. apply law_ioctlsocket. Qed.

Lemma setfd_setter : Setter (λ fd, setfd fd FD_CLOEXEC) (without_inherit true).
Proof.
  intros fd s. unfold setfd. change (flagged FD_CLOEXEC FD_CLOEXEC) with true. cbn iota. wp_step.
  eapply wp_mono; [apply law_SetHandleInformation|]. intros [] s' (C & HS); wp_step; split; auto.
Qed.

Lemma changed_first m v i0 i1 m' g :
  NewPair m v → Changed v.1 (<[v.2 := i1]> (<[v.1 := i0]> m)) m' (λ i i', i' = g i) →
  m' = <[v.2 := i1]> (<[v.1 := g i0]> m).
Proof.
  intros (_ & _ & Hne & _) (i & i' & Hi & -> & ->).
  rewrite lookup_insert_ne, lookup_insert_eq in Hi by done. injection Hi as <-.
  by rewrite insert_insert_ne, insert_insert_eq by done.
Qed.

Lemma changed_second m v i0 i1 m' g :
  Changed v.2 (<[v.2 := i1]> (<[v.1 := i0]> m)) m' (λ i i', i' = g i) →
  m' = <[v.2 := g i1]> (<[v.1 := i0]> m).
Proof.
  intros (i & i' & Hi & -> & ->). rewrite lookup_insert_eq in Hi. injection Hi as <-.
  by rewrite insert_insert_eq.
Qed.

Definition is_rc (rc : Z) : Prop := rc = 0 ∨ rc = -1.

(** The flagged [g] has been set on both halves, or else [rc] is -1. *)
Definition BothSet (m : gmap Z sock) (v : Z * Z) (i0 i1 : sock) (g : sock → sock) (rc : Z)
    (rc' : Z) s' : Prop :=
  is_rc rc' ∧ ∃ j0 j1, PairOf m v j0 j1 s' ∧ (rc' = 0 → rc = 0 ∧ j0 = g i0 ∧ j1 = g i1).

Lemma both_set_wp f g m v i0 i1 rc s (Q : Z → sys W → Prop) :
  Setter f g → NewPair m v → PairOf m v i0 i1 s → is_rc rc →
  (∀ rc' s', SameCrt s s' → BothSet m v i0 i1 g rc rc' s' → Q rc' s') →
  wp (rc ← or_rc rc (f v.1); or_rc rc (f v.2)) Q s.
Proof.
  intros Hf HN HP Hrc HQ. unfold or_rc. do 2 wp_step. eapply wp_mono; [apply Hf|].
  intros r1 s1 (C1 & H1). do 2 wp_step. eapply wp_mono; [apply Hf|].
  intros r2 s2 (C2 & H2). wp_step. apply HQ; [by eapply same_crt_trans|].
  assert (HP1 : ∃ j0, PairOf m v j0 i1 s1 ∧ (r1 = 0 → j0 = g i0)).
  { destruct H1 as [[S1 ->]|[-> H1]]; unfold PairOf, SameSocks in *.
    - exists i0. split; [congruence|done].
    - exists (g i0). rewrite HP in H1. by apply changed_first in H1. }
  destruct HP1 as (j0 & HP1 & Hj0). unfold PairOf, SameSocks in *.
  assert (Hr1 : is_rc r1) by (destruct H1 as [[_ ->]|[-> _]]; [by right|by left]).
  destruct H2 as [[S2 ->]|[-> H2]].
  - rewrite Z.lor_m1_r. split; [by right|]. exists j0, i1. split; [unfold PairOf; congruence|done].
  - rewrite Z.lor_0_r. rewrite HP1 in H2. apply changed_second in H2. split.
    + unfold is_rc in *. destruct Hrc as [->| ->], Hr1 as [->| ->]; auto.
    + exists j0, (g i1). split; [done|]. intros Hlor%Z.lor_eq_0_iff.
      destruct Hlor as [-> ->]. auto.
Qed.

Lemma is_socket_handle r : is_handle r → is_socket r = true.
Proof.
  intros [H3 H31]. unfold is_socket. rewrite (proj2 (Z.ltb_ge r 3)) by lia.
  rewrite u32_small by (unfold is_u32; lia). rewrite land_top_bit by (unfold is_u32; lia).
  by rewrite (proj2 (Z.ltb_lt r (2 ^ 31))) by lia.
Qed.

Lemma sock_close_wp fd s (Q : Z → sys W → Prop) :
  is_handle fd →
  (∀ r s', SameFds s s' → socks (net_of s') = delete fd (socks (net_of s)) → Q r s') →
  wp (sock_close fd) Q s.
Proof.
  intros Hfd HQ. unfold sock_close. rewrite is_socket_handle by done.
  wp_step. eapply wp_mono; [apply law_closesocket|]. intros r s1 (C1 & S1). apply same_fds in C1.
  destruct (_ =? _); [|wp_step; by apply HQ].
  apply report_wp; [done|]. intros s2 F2 S2.
  apply HQ; [by eapply same_fds_trans|]. unfold SameSocks in S2. congruence.
Qed.

(** What [set_flags] leaves of the pair. *)
Definition Flagged (m : gmap Z sock) (v : Z * Z) (i0 i1 : sock) (nb ce : bool) s (rc : Z) s' : Prop :=
  SameFds s s' ∧
  (rc = 0 ∧ PairOf m v (without_inherit ce (with_nonblock nb i0))
                       (without_inherit ce (with_nonblock nb i1)) s'
   ∨ rc = -1 ∧ socks (net_of s') = m ∧ errno s' = errno s).

Lemma set_one_wp f g (b : bool) m v i0 i1 rc s (Q : Z → sys W → Prop) :
  Setter f g → NewPair m v → PairOf m v i0 i1 s → is_rc rc →
  (∀ rc' s', SameCrt s s' → BothSet m v i0 i1 (if b then g else λ i, i) rc rc' s' → Q rc' s') →
  wp (if b then rc ← or_rc rc (f v.1); or_rc rc (f v.2) else mret rc) Q s.
Proof.
  intros Hf HN HP Hrc HQ. destruct b; [by eapply both_set_wp|]. wp_step. apply HQ; [done|].
  split; [done|]. by exists i0, i1.
Qed.

Lemma set_flags_wp m v i0 i1 nb ce s (Q : Z → sys W → Prop) :
  NewPair m v → PairOf m v i0 i1 s →
  (∀ rc s', Flagged m v i0 i1 nb ce s rc s' → Q rc s') → wp (set_flags v nb ce 0) Q s.
Proof.
  intros HN HP HQ. unfold set_flags.
  wp_step. apply (set_one_wp _ _ nb m v i0 i1 _ _ _ setfl_setter); [done|done|by left|].
  intros rc1 s1 C1 (Hrc1 & j0 & j1 & HP1 & Hj).
  wp_step. apply (set_one_wp _ _ ce m v j0 j1 _ _ _ setfd_setter); [done..|].
  intros rc2 s2 C2 (Hrc2 & k0 & k1 & HP2 & Hk).
  pose proof (same_crt_trans _ _ _ C1 C2) as C02. destruct (Z.eqb_spec rc2 0) as [->|Hne]; cbn [negb].
  - wp_step. apply HQ. split; [by apply same_fds|]. left. split; [done|].
    destruct (Hk eq_refl) as (-> & -> & ->). destruct (Hj eq_refl) as (_ & -> & ->).
    by destruct nb, ce.
  - destruct Hrc2 as [?| ->]; [done|]. destruct HN as (Hv1 & Hv2 & Hv12 & Hm1 & Hm2).
    do 3 wp_step. apply sock_close_wp; [done|]. intros r3 s3 F3 S3.
    wp_step. apply sock_close_wp; [done|]. intros r4 s4 F4 S4.
    unfold set_errno. do 3 wp_step. apply HQ. split.
    + eapply same_fds_trans; [by apply same_fds|]. by eapply same_fds_trans.
    + right. split; [done|]. split; [|by destruct C02]. simpl. rewrite S4, S3, HP2.
      rewrite delete_insert_ne, (delete_insert_id m v.1) by done. by rewrite delete_insert_id.
Qed.
End proof.
