(* ===== verification/SockpairProperties.v ===== *)
(** Properties of the pairs of sockets. *)
From Stdlib Require Import ZArith Lia.
From stdpp Require Import prelude gmap.
From S2P Require Import Prelude CInt PosixWin Sockpair SockpairProof.

Local Open Scope Z_scope.
#[local] Arguments wp : simpl never.

(** ** A system that keeps the promises *)

(** Three handles, and a hundred descriptors of the C runtime. *)
Fixpoint lowest (n : nat) (k : Z) (C : gset Z) : Z :=
  match n with
  | O => -1
  | S n => if bool_decide (k ∈ C) then lowest n (k + 1) C else k
  end.

Definition free_handle (m : gmap Z sock) : Z :=
  default (-1) (head (filter (λ h, m !! h = None) [4; 8; 12])).

Definition on_net {A} (f : net → A * net) : ST (sys net) A :=
  λ s, let r := f (world s) in Some (r.1, Sys (errno s) r.2).

Definition set_socks (m : gmap Z sock) (n : net) : net := Net m (crt n) (open_failed n) (last_error n).

(** The socket [fd] through [f], and 0; -1 when there is none. *)
Definition on_sock (fd : Z) (f : sock → sock) : ST (sys net) Z :=
  on_net (λ n, match socks n !! fd with
               | Some i => (0, set_socks (<[fd := f i]> (socks n)) n)
               | None => (-1, n)
               end).

Definition new_sock (i : sock) : ST (sys net) Z :=
  on_net (λ n, let h := free_handle (socks n) in
    if h =? -1 then (-1, n) else (h, set_socks (<[h := i]> (socks n)) n)).

Definition name_of (f : sock → option addr) (fd : Z) : ST (sys net) (Z * addr) :=
  on_net (λ n, match socks n !! fd ≫= f with
               | Some a => ((0, a), n)
               | None => ((-1, Addr 0 0 0), n)
               end).

(** The address of every client. *)
Definition client : addr := Addr AF_INET 1 5000.

#[local] Instance demo_winsock : Winsock net := {|
  view := id;
  ws_socket := new_sock (Sock None None false true);
  ws_WSASocket := new_sock (Sock None None false true);
  ws_setsockopt := λ _, mret 0;
  ws_bind := λ fd a, on_sock fd (λ i,
    Sock (Some (Addr (sin_family a) (sin_addr a) 4000)) (peer i) (nonblock i) (inherit i));
  ws_getsockname := name_of local;
  ws_getpeername := name_of peer;
  ws_listen := λ _, mret 0;
  ws_connect := λ fd a, on_sock fd (λ i, Sock (Some client) (Some a) (nonblock i) (inherit i));
  ws_accept := λ fd s,
    match socks (world s) !! fd with
    | Some l => new_sock (Sock (local l) (Some client) false true) s
    | None => Some (-1, s)
    end;
  ws_closesocket := λ fd, on_net (λ n, (0, set_socks (delete fd (socks n)) n));
  ws_ioctlsocket := λ fd, on_sock fd (λ i, Sock (local i) (peer i) true (inherit i));
  ws_SetHandleInformation := λ fd,
    r ← on_sock fd (λ i, Sock (local i) (peer i) (nonblock i) false); mret (r =? 0);
  ws_WSAGetLastError := on_net (λ n, (last_error n, n));
  ws_WSASetLastError := λ e, on_net (λ n, (tt, Net (socks n) (crt n) (open_failed n) e));
  crt_open := on_net (λ n, let r := lowest 100 0 (crt n) in
    if r =? -1 then (-1, Net (socks n) (crt n) true (last_error n))
    else (r, Net (socks n) ({[r]} ∪ crt n) (open_failed n) (last_error n)));
  crt_close := λ fd, on_net (λ n, (0, Net (socks n) (crt n ∖ {[fd]}) (open_failed n) (last_error n)))
|}.

Lemma lowest_spec n k C :
  0 <= k → lowest n k C = -1 ∨
  k <= lowest n k C ∧ (lowest n k C ∉ C) ∧ ∀ j, k <= j < lowest n k C → j ∈ C.
Proof.
  revert k; induction n as [|n IH]; intros k Hk; simpl; [by left|]. case_bool_decide as Hin.
  - destruct (IH (k + 1) ltac:(lia)) as [?|(H1 & H2 & H3)]; [by left|right].
    split_and!; [lia|done|]. intros j Hj. destruct (decide (j = k)) as [->|]; [done|]. apply H3. lia.
  - right. split_and!; [lia|done|]. lia.
Qed.

Lemma free_handle_spec m :
  free_handle m = -1 ∨ is_handle (free_handle m) ∧ m !! free_handle m = None.
Proof.
  unfold free_handle. destruct (filter _ _) as [|h l] eqn:E; [by left|right].
  assert (Hh : h ∈ filter (λ h, m !! h = None) [4; 8; 12]) by (rewrite E; by left).
  apply list_elem_of_filter in Hh as [Hn Hh]. split; [|done].
  set_unfold in Hh. unfold is_handle. cbn. lia.
Qed.

Lemma new_sock_law i s (P : sock → Prop) :
  P i → nonblock i = false →
  wp (new_sock i) (λ r s', SameCrt s s' ∧ Created (socks (net_of s)) (socks (net_of s')) r P) s.
Proof.
  intros HP Hnb. unfold new_sock, on_net, wp. cbv zeta.
  pose proof (free_handle_spec (socks (world s))) as Hh. set (h := free_handle _) in *. clearbody h.
  destruct (Z.eqb_spec h (-1)) as [E|Hne]; cbn; (split; [done|]); [by left|right].
  destruct Hh as [?|[Hh Hn]]; [done|]. split; [done|]. split; [done|]. by exists i.
Qed.

Lemma on_sock_law fd f s :
  wp (on_sock fd f) (λ r s', SameCrt s s' ∧
    (SameSocks s s' ∧ r = -1 ∨
     r = 0 ∧ Changed fd (socks (net_of s)) (socks (net_of s')) (λ i i', i' = f i))) s.
Proof.
  unfold on_sock, on_net, wp. destruct (socks (world s) !! fd) as [i|] eqn:E; cbn.
  - split; [done|]. right. split; [done|]. by exists i, (f i).
  - split; [done|]. by left.
Qed.

Lemma name_of_law f fd s :
  wp (name_of f fd) (λ r s', SameCrt s s' ∧ SameSocks s s' ∧
    (r.1 = 0 → ∃ i, socks (net_of s) !! fd = Some i ∧ f i = Some r.2)) s.
Proof.
  unfold name_of, on_net, wp. destruct (socks (world s) !! fd) as [i|] eqn:E; cbn.
  - destruct (f i) as [a|] eqn:Ef; cbn; [|done]. split_and!; [done..|]. intros _. by exists i.
  - done.
Qed.

(** From what [on_sock] does to what is promised of it. *)
Lemma on_sock_weaken fd f s (P : Z → Prop) (R : sock → sock → Prop) :
  P (-1) → (∀ i, R i (f i)) →
  wp (on_sock fd f) (λ r s', SameCrt s s' ∧
    (SameSocks s s' ∧ P r ∨ r = 0 ∧ Changed fd (socks (net_of s)) (socks (net_of s')) R)) s.
Proof.
  intros HP HR. eapply wp_mono; [apply on_sock_law|]. intros r s' (C & H). split; [done|].
  destruct H as [[? ->]|[-> (i & i' & Hi & -> & Hm)]]; [by left|right]. split; [done|].
  by exists i, (f i).
Qed.

#[local] Instance demo_winsock_laws : WinsockLaws net.
Proof.
  split; try (intros; unfold wp, ws_setsockopt, ws_listen, ws_closesocket, ws_WSAGetLastError,
    ws_WSASetLastError, crt_close, on_net; done).
  - intros s. by apply new_sock_law.
  - intros s. by apply new_sock_law.
  - intros fd a s. by apply on_sock_weaken; [|intros i; exists 4000].
  - intros fd s. apply name_of_law.
  - intros fd s. apply name_of_law.
  - intros fd a s. apply on_sock_weaken; [done|]. intros i. split_and!; [by eexists|done..].
  - intros fd s. unfold wp, ws_accept, demo_winsock.
    destruct (socks (world s) !! fd) as [l|] eqn:E; [|by split; [|left]].
    apply new_sock_law; [|done]. exists l. split_and!; [done..|by eexists].
  - intros fd s. by apply on_sock_weaken.
  - intros fd s. unfold ws_SetHandleInformation, demo_winsock. wp_step.
    eapply wp_mono; [apply on_sock_law|]. intros r s' (C & [[HS ->]|[-> HC]]); wp_step; by split.
  - intros s. unfold wp, crt_open, demo_winsock, on_net. cbv zeta.
    destruct (lowest_spec 100 0 (crt (world s)) ltac:(lia)) as [E|(H1 & H2 & H3)].
    { rewrite E. cbn. split_and!; [done..|by left]. }
    rewrite (proj2 (Z.eqb_neq _ _)) by lia. cbn -[lowest]. split_and!; [done..|right]. by split_and!.
Qed.

(** ** Theorems *)


Definition demo_net : sys net := Sys EINVAL (Net ∅ {[0; 1; 2; 5]} false (WSA_other 0)).


(** The descriptor above the sockets with which the recursion ends is left open,
    though no socket has its number. *)
Lemma sentinels_leave_last :
  ∃ s', socketpair 77 AF_UNIX SOCK_STREAM PF_UNSPEC demo_net = Some ((0, Some (8, 12)), s') ∧
    (13 ∉ crt (net_of demo_net)) ∧ 13 ∈ crt (net_of s').
Proof.
  eexists. split; [vm_compute; reflexivity|]. split.
  - by apply (bool_decide_unpack (13 ∉ crt (net_of demo_net))).
  - by apply elem_of_elements, (bool_decide_unpack (13 ∈ [13; 5; 12; 8; 2; 1; 0])).
Qed.








