(* ===== verification/Fildes.v ===== *)
(** [apps/nc/compat/accept4.c], [apps/nc/compat/socket.c], and
    [tests/compat/pipe2.c] and [socketpair.c] on Unix: descriptors with their flags, where the
    system has no call that sets both at once. *)
From Stdlib Require Import ZArith Lia.
From stdpp Require Import prelude gmap.
From S2P Require Import Prelude CInt PosixWin.

Local Open Scope Z_scope.

(** [apps/nc/compat/sys/socket.h]: flags the system has no meaning for. *)
Definition SOCK_NONBLOCK : Z := 0x4000.
Definition SOCK_CLOEXEC : Z := 0x8000.

(** ** The system *)

(** A descriptor: its flags, and the open file description it stands for. *)
Record descr := Descr { fd_flags : Z; ofile : positive }.

(** The descriptors of the process; the status flags of the open file
    descriptions; and the [errno] of the last setting of flags that failed. *)
Record table := Table {
  descrs : gmap Z descr;
  status : gmap positive Z;
  refused : option errno_code
}.

Inductive fcntl_cmd := F_GETFD | F_SETFD | F_GETFL | F_SETFL.

(** The constants and calls of a Unix system, on a state that can be seen as a
    [table].  [pipe] and [socketpair] also give the two descriptors they write. *)
Class Unix (W : Type) := {
  O_NONBLOCK : Z;
  O_CLOEXEC : Z;
  FD_CLOEXEC : Z;
  table_of : W → table;
  sys_socket : Z → Z → Z → ST (sys W) Z;
  accept : Z → Z → Z → ST (sys W) Z;
  pipe : ST (sys W) (Z * option (Z * Z));
  socketpair : Z → Z → Z → ST (sys W) (Z * option (Z * Z));
  fcntl : Z → fcntl_cmd → Z → ST (sys W) Z;
  close : Z → ST (sys W) Z
}.

Section functions.
Context {W : Type} `{Unix W}.
Local Abbreviation M := (ST (sys W)).

(** ** Sockets *)

(** The end of [accept4] and of [_socket]: the flags of the new descriptor. *)
Definition set_socket_flags (s flags : Z) : M Z :=
  (if flagged flags SOCK_CLOEXEC then
     fl ← fcntl s F_GETFD 0;
     fcntl s F_SETFD (Z.lor fl FD_CLOEXEC);; mret tt
   else mret tt);;
  (if flagged flags SOCK_NONBLOCK then
     fl ← fcntl s F_GETFL 0;
     fcntl s F_SETFL (Z.lor fl O_NONBLOCK);; mret tt
   else mret tt);;
  mret s.

(** [addr] and [addrlen] are only passed on. *)
Definition accept4 (s addr addrlen flags : Z) : M Z :=
  rets ← accept s addr addrlen;
  if rets =? -1 then mret rets else set_socket_flags rets flags.

Definition _socket (domain type protocol : Z) : M Z :=
  s ← sys_socket domain (Z.land type (Z.lnot (Z.lor SOCK_CLOEXEC SOCK_NONBLOCK))) protocol;
  if s =? -1 then mret s else set_socket_flags s type.

(** ** Pipes and pairs of sockets *)

Definition setfd (fd flag : Z) : M Z :=
  flags ← fcntl fd F_GETFD 0;
  let flags := Z.lor flags flag in
  fcntl fd F_SETFD flags.

Definition setfl (fd flag : Z) : M Z :=
  flags ← fcntl fd F_GETFL 0;
  let flags := Z.lor flags flag in
  fcntl fd F_SETFL flags.

(** [rc |= set(fildes[0], flag); rc |= set(fildes[1], flag);] *)
Definition set_both (set : Z → Z → M Z) (v : Z * Z) (flag rc : Z) : M Z :=
  r ← set v.1 flag;
  let rc := Z.lor rc r in
  r ← set v.2 flag;
  mret (Z.lor rc r).

(** What both functions do with the two descriptors. *)
Definition set_flags (v : Z * Z) (nb ce : bool) : M (Z * option (Z * Z)) :=
  rc ← (if nb then set_both setfl v O_NONBLOCK 0 else mret 0);
  rc ← (if ce then set_both setfd v FD_CLOEXEC rc else mret rc);
  if negb (rc =? 0) then
    e ← gets errno;
    close v.1;;
    close v.2;;
    set_errno e;;
    mret (rc, Some v)
  else mret (rc, Some v).

(** The result, and what [pipe] leaves in [fildes]. *)
Definition bsd_pipe2 (flags : Z) : M (Z * option (Z * Z)) :=
  r ← pipe;
  match r with
  | (0, Some v) => set_flags v (flagged flags O_NONBLOCK) (flagged flags O_CLOEXEC)
  | _ => mret r
  end.

Definition bsd_socketpair (domain type protocol : Z) : M (Z * option (Z * Z)) :=
  let flags := Z.land type (Z.lnot 0xf) in
  let type := Z.land type 0xf in
  r ← socketpair domain type protocol;
  match r with
  | (0, Some v) => set_flags v (flagged flags SOCK_NONBLOCK) (flagged flags SOCK_CLOEXEC)
  | _ => mret r
  end.
End functions.
