(* ===== verification/FildesProperties.v ===== *)
(** Properties of the flags of descriptors on Unix. *)
From Stdlib Require Import ZArith Lia.
From stdpp Require Import prelude gmap.
From S2P Require Import Prelude CInt PosixWin Fildes.

Local Open Scope Z_scope.
#[local] Arguments wp : simpl never.

Abbreviation tab s := (table_of (world s)).

(** ** What the system promises *)

(** [r] is a new descriptor without flags, of a new open file description that
    has the status flags [st]. *)
Definition Opened (t t' : table) (r st : Z) : Prop :=
  0 <= r ∧ descrs t !! r = None ∧ ∃ f, status t !! f = None ∧
  t' = Table (<[r := Descr 0 f]> (descrs t)) (<[f := st]> (status t)) (refused t).

(** The two ends of a pipe, each a new descriptor of its own description. *)
Definition OpenedPipe (t t' : table) (v : Z * Z) (st0 st1 : Z) : Prop :=
  v.1 ≠ v.2 ∧ descrs t !! v.1 = None ∧ descrs t !! v.2 = None ∧
  ∃ f0 f1, f0 ≠ f1 ∧ status t !! f0 = None ∧ status t !! f1 = None ∧
  t' = Table (<[v.2 := Descr 0 f1]> (<[v.1 := Descr 0 f0]> (descrs t)))
             (<[f1 := st1]> (<[f0 := st0]> (status t))) (refused t).

(** Flags have been set, so that [t'] is the table; or that was refused. *)
Definition Done {W} `{Unix W} (s : sys W) (r : Z) (s' : sys W) (P : table → Prop) : Prop :=
  r = 0 ∧ P (tab s') ∧ errno s' = errno s ∨
  r = -1 ∧ tab s' = Table (descrs (tab s)) (status (tab s)) (Some (errno s')).

(** A setting of the flags [st] to [f] that honours [nonblock]: every bit is
    the one it was or the one that is set. *)
Definition Asked (nonblock st f st' : Z) : Prop :=
  flagged st' nonblock = flagged f nonblock ∧
  ∀ n, Z.testbit st' n = Z.testbit st n ∨ Z.testbit st' n = Z.testbit f n.

(** What [pipe] and [socketpair] leave of [s]: two blocking ends, or -1. *)
Definition PairOrNot {W} `{Unix W} (s : sys W) (r : Z * option (Z * Z)) (s' : sys W) : Prop :=
  r.1 = -1 ∧ tab s' = tab s ∨
  ∃ v st0 st1, r = (0, Some v) ∧ flagged st0 O_NONBLOCK = false ∧
    flagged st1 O_NONBLOCK = false ∧ OpenedPipe (tab s) (tab s') v st0 st1.

(** The documented behaviour.  [socket] is only promised to work with types that
    are free of the two flags. *)
Class UnixLaws (W : Type) `{Unix W} : Prop := {
  law_nonblock : O_NONBLOCK ≠ 0;
  law_socket d t p s : flagged t (Z.lor SOCK_CLOEXEC SOCK_NONBLOCK) = false →
    wp (sys_socket d t p) (λ r s', r = -1 ∧ tab s' = tab s ∨
      ∃ st, flagged st O_NONBLOCK = false ∧ Opened (tab s) (tab s') r st) s;
  law_accept fd a l s : wp (accept fd a l) (λ r s', r = -1 ∧ tab s' = tab s ∨
      ∃ st, Opened (tab s) (tab s') r st) s;
  law_pipe s : wp pipe (PairOrNot s) s;
  law_socketpair d t p s : wp (socketpair d t p) (PairOrNot s) s;
  law_getfd fd x d s : descrs (tab s) !! fd = Some d →
    wp (fcntl fd F_GETFD x) (λ r s', r = fd_flags d ∧ tab s' = tab s ∧ errno s' = errno s) s;
  law_getfl fd x d st s : descrs (tab s) !! fd = Some d → status (tab s) !! ofile d = Some st →
    wp (fcntl fd F_GETFL x) (λ r s', r = st ∧ tab s' = tab s ∧ errno s' = errno s) s;
  law_setfd fd f d s : descrs (tab s) !! fd = Some d →
    wp (fcntl fd F_SETFD f) (λ r s', Done s r s' (λ t,
      t = Table (<[fd := Descr f (ofile d)]> (descrs (tab s))) (status (tab s)) (refused (tab s)))) s;
  law_setfl fd f d st s : descrs (tab s) !! fd = Some d → status (tab s) !! ofile d = Some st →
    wp (fcntl fd F_SETFL f) (λ r s', Done s r s' (λ t, ∃ st', Asked O_NONBLOCK st f st' ∧
      t = Table (descrs (tab s)) (<[ofile d := st']> (status (tab s))) (refused (tab s)))) s;
  law_close fd d s : descrs (tab s) !! fd = Some d →
    wp (close fd) (λ _ s', refused (tab s') = refused (tab s) ∧
      descrs (tab s') = delete fd (descrs (tab s)) ∧
      ∀ g, g ≠ ofile d → status (tab s') !! g = status (tab s) !! g) s
}.

(** ** Following a descriptor *)

Section proof.
Context {W : Type} `{UnixLaws W}.
Implicit Types s : sys W.

(** All descriptors but those in [fds], and all that was open, is as it was. *)
Definition Kept (fds : list Z) s0 s : Prop :=
  (∀ fd, fd ∉ fds → descrs (tab s) !! fd = descrs (tab s0) !! fd) ∧
  ∀ g, is_Some (status (tab s0) !! g) → status (tab s) !! g = status (tab s0) !! g.

(** [fd] stands for [f], which is new since [s0], and these are their flags. *)
Definition At s0 (fd : Z) (f : positive) (fl st : Z) s : Prop :=
  descrs (tab s) !! fd = Some (Descr fl f) ∧ status (tab s) !! f = Some st ∧
  status (tab s0) !! f = None.

Lemma opened_at s fd st s' :
  Opened (tab s) (tab s') fd st → Kept [fd] s s' ∧ ∃ f, At s fd f 0 st s'.
Proof.
  intros (Hr & Hfree & f & Hf & Et'). unfold At, Kept. rewrite Et'. cbn. split; [split|].
  - intros fd' Hne. rewrite lookup_insert_ne by set_solver. done.
  - intros g [? Hg]. rewrite lookup_insert_ne; [done|]. congruence.
  - exists f. by simplify_map_eq.
Qed.

Lemma opened_pipe_at s v st0 st1 s' :
  OpenedPipe (tab s) (tab s') v st0 st1 →
  Kept [v.1; v.2] s s' ∧ ∃ f0 f1, f0 ≠ f1 ∧ At s v.1 f0 0 st0 s' ∧ At s v.2 f1 0 st1 s'.
Proof.
  intros (Hv & F0 & F1 & f0 & f1 & Hf & N0 & N1 & Et'). unfold At, Kept. rewrite Et'. cbn.
  split; [split|].
  - intros fd' Hne. rewrite !lookup_insert_ne by set_solver. done.
  - intros g [? Hg]. rewrite !lookup_insert_ne; [done|congruence..].
  - exists f0, f1. split; [done|]. by simplify_map_eq.
Qed.

(** Other descriptors are not affected. *)
Definition Others s0 fd f s s' : Prop :=
  ∀ fd2 f2 fl2 st2, fd2 ≠ fd → f2 ≠ f → At s0 fd2 f2 fl2 st2 s → At s0 fd2 f2 fl2 st2 s'.

(** Flags have been set, and are related to those before by [R]; or that was
    refused. *)
Definition Marked (R : Z * Z → Z * Z → Prop) s0 fd f fl st (r : Z) s s' : Prop :=
  r = 0 ∧ errno s' = errno s ∧ refused (tab s') = refused (tab s) ∧
    (∃ fl' st', R (fl, st) (fl', st') ∧ At s0 fd f fl' st' s')
  ∨ r = -1 ∧ refused (tab s') = Some (errno s') ∧ At s0 fd f fl st s'.

Definition more_fd (p q : Z * Z) : Prop := q = (Z.lor p.1 FD_CLOEXEC, p.2).
Definition more_fl (p q : Z * Z) : Prop :=
  q.1 = p.1 ∧ Asked O_NONBLOCK p.2 (Z.lor p.2 O_NONBLOCK) q.2.

(** [set] sets flags as [R] says. *)
Definition Setter (set : Z → ST (sys W) Z) (R : Z * Z → Z * Z → Prop) : Prop :=
  ∀ s0 fd f fl st fds s (Q : Z → sys W → Prop),
  At s0 fd f fl st s → Kept fds s0 s → fd ∈ fds →
  (∀ r s', Marked R s0 fd f fl st r s s' → Kept fds s0 s' → Others s0 fd f s s' → Q r s') →
  wp (set fd) Q s.

Lemma unix_setfd_setter : Setter (λ fd, setfd fd FD_CLOEXEC) more_fd.
Proof.
  intros s0 fd f fl st fds s Q (D & S & N) [K1 K2] Hin HQ. unfold setfd. wp_step.
  eapply wp_mono; [by eapply law_getfd|]. cbn. intros ? s1 (-> & T1 & E1).
  eapply wp_mono; [eapply law_setfd; rewrite T1; exact D|].
  cbn. intros r s2 [(-> & T2 & E2)|(-> & T2)]; apply HQ; unfold Kept, Others, Marked, At;
    rewrite T2, ?T1; cbn.
  - left. rewrite E2, E1. split_and!; try done. eexists _, _. split; [done|]. by simplify_map_eq.
  - split; [|done]. intros fd' Hne. rewrite lookup_insert_ne by set_solver. by apply K1.
  - intros fd2 f2 fl2 st2 Hne Hne2 (?&?&?). by simplify_map_eq.
  - by right.
  - done.
  - done.
Qed.

Lemma unix_setfl_setter : Setter (λ fd, setfl fd O_NONBLOCK) more_fl.
Proof.
  intros s0 fd f fl st fds s Q (D & S & N) [K1 K2] Hin HQ. unfold setfl. wp_step.
  eapply wp_mono; [by eapply law_getfl|]. cbn. intros ? s1 (-> & T1 & E1).
  eapply wp_mono; [eapply law_setfl; rewrite T1; [exact D|exact S]|].
  cbn. intros r s2 [(-> & (st' & HA & T2) & E2)|(-> & T2)]; apply HQ; unfold Kept, Others, Marked, At;
    rewrite T2, ?T1; cbn.
  - left. rewrite E2, E1. split_and!; try done. exists fl, st'. split; [done|]. by simplify_map_eq.
  - split; [done|]. intros g Hg. rewrite lookup_insert_ne; [by apply K2|].
    intros <-. destruct Hg. congruence.
  - intros fd2 f2 fl2 st2 Hne Hne2 (?&?&?). by simplify_map_eq.
  - by right.
  - done.
  - done.
Qed.

(** ** The flags in the end *)

(** The status flags [st0], and [O_NONBLOCK] when [nb]. *)
Definition WithNonblock (nb : bool) (st0 st : Z) : Prop :=
  flagged st O_NONBLOCK = nb || flagged st0 O_NONBLOCK ∧
  ∀ n, Z.testbit O_NONBLOCK n = false → Z.testbit st n = Z.testbit st0 n.

Lemma more_fl_spec st0 st : Asked O_NONBLOCK st0 (Z.lor st0 O_NONBLOCK) st → WithNonblock true st0 st.
Proof.
  intros [Hf Hb]. split; [by rewrite Hf, flagged_lor by apply law_nonblock|].
  intros n Hn. destruct (Hb n) as [->| ->]; [done|]. by rewrite Z.lor_spec, Hn, orb_false_r.
Qed.

(** Nothing has been refused, and [rc] is 0; or it is -1 and [errno] is that of
    the last refusal. *)
Definition Verdict (rc : Z) s : Prop :=
  rc = 0 ∧ refused (tab s) = None ∨ rc = -1 ∧ refused (tab s) = Some (errno s).

Lemma marked_verdict R s0 fd f fl st rc r s s' :
  Marked R s0 fd f fl st r s s' → Verdict rc s →
  Verdict (Z.lor rc r) s' ∧ ∃ fl' st', At s0 fd f fl' st' s' ∧
    (Z.lor rc r = 0 → rc = 0 ∧ R (fl, st) (fl', st')).
Proof.
  intros [(-> & E & T & fl' & st' & HR & HA)|(-> & T & HA)] HV; unfold Verdict.
  - rewrite Z.lor_0_r, E, T. split; [done|]. by exists fl', st'.
  - rewrite Z.lor_m1_r. split; [by right|]. by exists fl, st.
Qed.

Lemma set_both_wp set flag R s0 v f0 f1 fl0 st0 fl1 st1 fds rc s (Q : Z → sys W → Prop) :
  Setter (λ fd, set fd flag) R → v.1 ∈ fds → v.2 ∈ fds → v.1 ≠ v.2 → f0 ≠ f1 →
  At s0 v.1 f0 fl0 st0 s → At s0 v.2 f1 fl1 st1 s → Kept fds s0 s → Verdict rc s →
  (∀ rc' fl0' st0' fl1' st1' s', Kept fds s0 s' → Verdict rc' s' →
    At s0 v.1 f0 fl0' st0' s' → At s0 v.2 f1 fl1' st1' s' →
    (rc' = 0 → rc = 0 ∧ R (fl0, st0) (fl0', st0') ∧ R (fl1, st1) (fl1', st1')) → Q rc' s') →
  wp (set_both set v flag rc) Q s.
Proof.
  intros HS Hi0 Hi1 Hv Hf A0 A1 K V HQ. unfold set_both. wp_step.
  eapply HS; [exact A0|exact K|done|]. intros r1 s1 M1 K1 O1. wp_step.
  destruct (marked_verdict _ _ _ _ _ _ _ _ _ _ M1 V) as (V1 & fl0' & st0' & A0' & R0).
  assert (A1' : At s0 v.2 f1 fl1 st1 s1) by (apply O1; [done..|exact A1]).
  eapply HS; [exact A1'|exact K1|done|]. intros r2 s2 M2 K2 O2. wp_step.
  destruct (marked_verdict _ _ _ _ _ _ _ _ _ _ M2 V1) as (V2 & fl1' & st1' & A1'' & R1).
  eapply HQ; [done|done|apply O2; [done..|exact A0']|exact A1''|].
  intros [Hrc ?]%R1. destruct (R0 Hrc). done.
Qed.

(** A new descriptor of [s'], with exactly these flags besides those it was
    opened with. *)
Definition FreshFd (ce nb : bool) (st0 : Z) s (fd : Z) s' : Prop :=
  descrs (tab s) !! fd = None ∧ ∃ f st,
  At s fd f (if ce then FD_CLOEXEC else 0) st s' ∧ WithNonblock nb st0 st.

(** One of the two flags of a socket, whose refusal is not looked at. *)
Lemma ignored_wp (get : ST (sys W) Z) put set R (b : bool) s0 r f fl st s (Q : unit → sys W → Prop) :
  Setter set R → set r = get ≫= put → At s0 r f fl st s → Kept [r] s0 s →
  (∀ fl' st' s', At s0 r f fl' st' s' → Kept [r] s0 s' →
    (refused (tab s') = None →
      refused (tab s) = None ∧ if b then R (fl, st) (fl', st') else fl' = fl ∧ st' = st) → Q tt s') →
  wp (if b then fl ← get; put fl;; mret tt else mret tt) Q s.
Proof.
  intros HS Eset A K HQ. destruct b; [|wp_step; by eapply HQ].
  apply wp_bind. apply (wp_join get put (λ _, mret tt)). rewrite <-Eset.
  eapply HS; [exact A|exact K|set_solver|]. intros r1 s1 M K1 _. wp_step.
  destruct M as [(_ & _ & T & fl' & st' & HR & HA)|(_ & T & HA)].
  - eapply HQ; [exact HA|done|]. by rewrite T.
  - eapply HQ; [exact HA|done|]. congruence.
Qed.

Lemma set_socket_flags_wp s0 r f st flags s (Q : Z → sys W → Prop) :
  At s0 r f 0 st s → Kept [r] s0 s → descrs (tab s0) !! r = None →
  (∀ s', Kept [r] s0 s' → is_Some (descrs (tab s') !! r) →
    (refused (tab s') = None →
      FreshFd (flagged flags SOCK_CLOEXEC) (flagged flags SOCK_NONBLOCK) st s0 r s') → Q r s') →
  wp (set_socket_flags r flags) Q s.
Proof.
  intros A K Hfree HQ. unfold set_socket_flags.
  wp_step. eapply (ignored_wp _ _ _ _ (flagged flags SOCK_CLOEXEC));
    [apply unix_setfd_setter|done|exact A|exact K|]. intros fl1 st1 s1 A1 K1 R1.
  wp_step. eapply (ignored_wp _ _ _ _ (flagged flags SOCK_NONBLOCK));
    [apply unix_setfl_setter|done|exact A1|exact K1|]. intros fl2 st2 s2 A2 K2 R2.
  wp_step. apply HQ; [done|destruct A2 as [-> _]; by eexists|]. intros Hn.
  destruct (R2 Hn) as [[_ E1]%R1 E2]. split; [done|].
  assert (fl1 = (if flagged flags SOCK_CLOEXEC then FD_CLOEXEC else 0) ∧ st1 = st) as [-> ->].
  { destruct (flagged flags SOCK_CLOEXEC); [by injection E1|done]. }
  exists f, st2. destruct (flagged flags SOCK_NONBLOCK).
  - destruct E2 as [E2 HA]. cbn in E2, HA. subst fl2. split; [done|]. by apply more_fl_spec.
  - destruct E2 as [-> ->]. by split.
Qed.

(** A new descriptor, or -1 and nothing new.  It has the flags unless setting one
    was refused; [P] are the status flags the system gave it. *)
Definition NewFd (ce nb : bool) (P : Z → Prop) s (r : Z) s' : Prop :=
  r = -1 ∧ tab s' = tab s ∨
  0 <= r ∧ descrs (tab s) !! r = None ∧ Kept [r] s s' ∧ is_Some (descrs (tab s') !! r) ∧
  ∃ st0, P st0 ∧ (refused (tab s') = None → FreshFd ce nb st0 s r s').

Lemma new_fd_wp (m : ST (sys W) Z) (P : Z → Prop) flags s :
  wp m (λ r s', r = -1 ∧ tab s' = tab s ∨ ∃ st, P st ∧ Opened (tab s) (tab s') r st) s →
  wp (r ← m; if r =? -1 then mret r else set_socket_flags r flags)
    (NewFd (flagged flags SOCK_CLOEXEC) (flagged flags SOCK_NONBLOCK) P s) s.
Proof.
  intros Hm. wp_step. eapply wp_mono; [exact Hm|]. cbn. intros r s1 [[-> T]|(st & HP & HO)].
  - rewrite Z.eqb_refl. wp_step. by left.
  - pose proof HO as (Hr & Hfree & _). rewrite (proj2 (Z.eqb_neq r (-1))) by lia.
    destruct (opened_at _ _ _ _ HO) as (K & f & A).
    eapply set_socket_flags_wp; [exact A|exact K|done|]. intros s' K' Hs HF.
    right. do 4 (split; [done|]). by exists st.
Qed.

(** ** Pipes *)

(** Two descriptors of [s] that were not open in [s0] are gone in [s']. *)
Lemma wp_close_both {A} s0 v f0 f1 fl0 st0 fl1 st1 s (e : errno_code) (m : ST (sys W) A) Q :
  v.1 ≠ v.2 → descrs (tab s0) !! v.1 = None → descrs (tab s0) !! v.2 = None →
  At s0 v.1 f0 fl0 st0 s → At s0 v.2 f1 fl1 st1 s → Kept [v.1; v.2] s0 s →
  (∀ s', Kept [] s0 s' → refused (tab s') = refused (tab s) → errno s' = e → wp m Q s') →
  wp (close v.1;; close v.2;; set_errno e;; m) Q s.
Proof.
  intros Hv F1 F2 (D0 & _ & N0) (D1 & _ & N1) [K1 K2] HQ.
  wp_step. eapply wp_mono; [by eapply law_close|]. cbn. intros _ s1 (R1 & D1' & S1).
  wp_step. eapply wp_mono; [eapply law_close; rewrite D1'; by rewrite lookup_delete_ne|].
  cbn. intros _ s2 (R2 & D2' & S2). unfold set_errno. do 2 wp_step. apply HQ; cbn; [|congruence|done].
  split; cbn.
  - intros fd _. rewrite D2', D1'. destruct (decide (fd = v.2)) as [->|]; [by simplify_map_eq|].
    destruct (decide (fd = v.1)) as [->|]; [by simplify_map_eq|].
    rewrite !lookup_delete_ne by done. apply K1. set_solver.
  - intros g Hg. rewrite S2, S1; [by apply K2| |]; intros ->; destruct Hg; congruence.
Qed.

(** Two new descriptors with their flags, or -1 and no new descriptor; [errno] is
    then that of the call that failed. *)
Definition NewPipe (ce nb : bool) s (r : Z * option (Z * Z)) s' : Prop :=
  (∃ v st0 st1, r = (0, Some v) ∧ v.1 ≠ v.2 ∧ Kept [v.1; v.2] s s' ∧
     flagged st0 O_NONBLOCK = false ∧ flagged st1 O_NONBLOCK = false ∧
     FreshFd ce nb st0 s v.1 s' ∧ FreshFd ce nb st1 s v.2 s')
  ∨ r.1 = -1 ∧ Kept [] s s' ∧ (tab s' = tab s ∨ refused (tab s') = Some (errno s')).

(** [set_both], under a condition. *)
Lemma set_if_wp set flag R (b : bool) s0 v f0 f1 fl0 st0 fl1 st1 fds rc s (Q : Z → sys W → Prop) :
  Setter (λ fd, set fd flag) R → v.1 ∈ fds → v.2 ∈ fds → v.1 ≠ v.2 → f0 ≠ f1 →
  At s0 v.1 f0 fl0 st0 s → At s0 v.2 f1 fl1 st1 s → Kept fds s0 s → Verdict rc s →
  (∀ rc' fl0' st0' fl1' st1' s', Kept fds s0 s' → Verdict rc' s' →
    At s0 v.1 f0 fl0' st0' s' → At s0 v.2 f1 fl1' st1' s' →
    (rc' = 0 → rc = 0 ∧ (if b then R else eq) (fl0, st0) (fl0', st0') ∧
                        (if b then R else eq) (fl1, st1) (fl1', st1')) → Q rc' s') →
  wp (if b then set_both set v flag rc else mret rc) Q s.
Proof.
  intros HS Hi0 Hi1 Hv Hf A0 A1 K V HQ. destruct b; [by eapply set_both_wp|].
  wp_step. by eapply HQ.
Qed.

(** Both flags, set one after the other. *)
Lemma both_flags (ce nb : bool) st fl1 st1 fl2 st2 :
  (if nb then more_fl else eq) (0, st) (fl1, st1) → (if ce then more_fd else eq) (fl1, st1) (fl2, st2) →
  fl2 = (if ce then FD_CLOEXEC else 0) ∧ WithNonblock nb st st2.
Proof.
  intros H1 H2. assert (fl1 = 0 ∧ WithNonblock nb st st1) as [-> HW].
  { destruct nb; [|by injection H1 as <- <-]. destruct H1 as [E HA]. cbn in E, HA. subst fl1.
    split; [done|]. by apply more_fl_spec. }
  destruct ce; by injection H2 as -> ->.
Qed.

(** The flags of the pair that [m] makes. *)
Lemma pair_flags_wp (m : ST (sys W) (Z * option (Z * Z))) (nb ce : bool) s :
  wp m (PairOrNot s) s → refused (tab s) = None →
  wp (r ← m; match r with (0, Some v) => set_flags v nb ce | _ => mret r end) (NewPipe ce nb s) s.
Proof.
  intros Hm Hn. unfold set_flags. wp_step. eapply wp_mono; [exact Hm|].
  cbn. intros r s1 [[Hr T]|(v & st0 & st1 & -> & B0 & B1 & HO)].
  { destruct r as [r o]. cbn in Hr. subst r. cbn iota. wp_step. right. split; [done|].
    unfold Kept. rewrite T. auto. }
  pose proof HO as (Hv & F0 & F1 & fs). destruct (opened_pipe_at _ _ _ _ _ HO) as (K1 & f0 & f1 & Hf & A0 & A1).
  assert (Hn1 : refused (tab s1) = None) by (destruct fs as (? & ? & _ & _ & _ & ->); done).
  wp_step. eapply (set_if_wp _ _ _ _ s v _ _ _ _ _ _ [v.1; v.2]); [apply unix_setfl_setter|set_solver|set_solver|done|done|
    exact A0|exact A1|exact K1|by left|].
  intros rc2 fl0 st0' fl1 st1' s2 K2 V2 A0' A1' R2.
  wp_step. eapply (set_if_wp _ _ _ _ s v _ _ _ _ _ _ [v.1; v.2]); [apply unix_setfd_setter|set_solver|set_solver|done|done|
    exact A0'|exact A1'|exact K2|exact V2|].
  intros rc fl0' st0'' fl1' st1'' s3 K3 V3 A0'' A1'' R3.
  destruct V3 as [[-> Hn3]|[-> Hn3]].
  - rewrite Z.eqb_refl. cbn [negb]. wp_step. left. exists v, st0, st1.
    destruct (R3 eq_refl) as (Hrc & E0 & E1). destruct (R2 Hrc) as (_ & E0' & E1').
    destruct (both_flags _ _ _ _ _ _ _ E0' E0) as [-> W0].
    destruct (both_flags _ _ _ _ _ _ _ E1' E1) as [-> W1].
    split; [done|]. split; [done|]. split; [done|]. do 2 (split; [done|]).
    split; (split; [done|]; eexists _, _; split; [eassumption|done]).
  - cbn [negb Z.eqb]. wp_step. wp_step.
    set (e := errno s3). eapply (wp_close_both _ v _ _ _ _ _ _ _ e); [exact Hv|done|done|
      exact A0''|exact A1''|exact K3|]. intros s' K' R' E'. wp_step. right. split; [done|].
    split; [done|]. right. by rewrite R', E'.
Qed.

Lemma bsd_pipe2_wp flags s :
  refused (tab s) = None →
  wp (bsd_pipe2 flags) (NewPipe (flagged flags O_CLOEXEC) (flagged flags O_NONBLOCK) s) s.
Proof. apply pair_flags_wp, law_pipe. Qed.

Lemma bsd_socketpair_wp domain type protocol s :
  refused (tab s) = None →
  wp (bsd_socketpair domain type protocol)
    (NewPipe (flagged type SOCK_CLOEXEC) (flagged type SOCK_NONBLOCK) s) s.
Proof.
  intros Hn.
  assert (Hf : ∀ f, Z.land (Z.lnot 0xf) f = f → flagged (Z.land type (Z.lnot 0xf)) f = flagged type f).
  { intros f Hf. unfold flagged. by rewrite <-Z.land_assoc, Hf. }
  rewrite <-!Hf by done. by apply pair_flags_wp, Hn; apply law_socketpair.
Qed.

End proof.

(** C27: Every function that makes descriptors always returns, and leaves all other
    descriptors as they were.  [_socket] and [accept4] give a new descriptor or
    -1.  Unless the system refused to set a flag it has exactly the flags asked
    for, besides those an accepted socket may have from the start.  [bsd_pipe2] and
    [bsd_socketpair] give two descriptors with the flags, or -1 and no descriptor:
    a refusal closes both, and [errno] still tells its reason. *)
Theorem descriptors_have_their_flags W `{UnixLaws W} (s : sys W) :
  (∀ domain type protocol, ∃ r s', _socket domain type protocol s = Some (r, s') ∧
     NewFd (flagged type SOCK_CLOEXEC) (flagged type SOCK_NONBLOCK)
       (λ st, flagged st O_NONBLOCK = false) s r s') ∧
  (∀ fd addr addrlen flags, ∃ r s', accept4 fd addr addrlen flags s = Some (r, s') ∧
     NewFd (flagged flags SOCK_CLOEXEC) (flagged flags SOCK_NONBLOCK) (λ _, True) s r s') ∧
  (refused (tab s) = None →
   (∀ flags, ∃ r s', bsd_pipe2 flags s = Some (r, s') ∧
      NewPipe (flagged flags O_CLOEXEC) (flagged flags O_NONBLOCK) s r s') ∧
   ∀ domain type protocol, ∃ r s', bsd_socketpair domain type protocol s = Some (r, s') ∧
     NewPipe (flagged type SOCK_CLOEXEC) (flagged type SOCK_NONBLOCK) s r s').
Proof.
  split; [|split; [|intros Hn; split]]; intros; apply wp_elim.
  - apply new_fd_wp. apply law_socket. unfold flagged.
    rewrite <-Z.land_assoc, (Z.land_comm (Z.lnot _)), Z.land_lnot_diag. by rewrite Z.land_0_r.
  - apply new_fd_wp. eapply wp_mono; [apply law_accept|]. cbn. intros r s' [?|(st & ?)]; [by left|].
    right. by exists st.
  - by apply bsd_pipe2_wp.
  - by apply bsd_socketpair_wp.
Qed.

(** ** A system that keeps the promises *)

(** Three descriptors at most; a setting of the flags of the fourth descriptor
    is refused when the second component says so. *)
Abbreviation unix := (table * bool)%type.

Definition free_pair (t : table) : option (Z * positive) :=
  head (filter (λ c, descrs t !! c.1 = None ∧ status t !! c.2 = None) [(3, 1%positive); (4, 2%positive); (5, 3%positive)]).

Definition with_new (st : Z) (c : Z * positive) (t : table) : table :=
  Table (<[c.1 := Descr 0 c.2]> (descrs t)) (<[c.2 := st]> (status t)) (refused t).

Definition demo_open (st : Z) : ST (sys unix) Z := λ s,
  let '(t, b) := world s in
  match free_pair t with
  | Some c => Some (c.1, Sys (errno s) (with_new st c t, b))
  | None => Some (-1, s)
  end.

Definition demo_pipe : ST (sys unix) (Z * option (Z * Z)) := λ s,
  let '(t, b) := world s in
  match free_pair t with
  | Some c =>
      match free_pair (with_new 1 c t) with
      | Some c' => Some ((0, Some (c.1, c'.1)), Sys (errno s) (with_new 1 c' (with_new 1 c t), b))
      | None => Some ((-1, None), s)
      end
  | None => Some ((-1, None), s)
  end.

Definition demo_fcntl (fd : Z) (cmd : fcntl_cmd) (f : Z) : ST (sys unix) Z := λ s,
  let '(t, b) := world s in
  match descrs t !! fd with
  | None => Some (-1, Sys EBADF (world s))
  | Some d =>
      match cmd with
      | F_GETFD => Some (fd_flags d, s)
      | F_GETFL => Some (default 0 (status t !! ofile d), s)
      | F_SETFD =>
          if b && (fd =? 4) then Some (-1, Sys EPERM (Table (descrs t) (status t) (Some EPERM), b))
          else Some (0, Sys (errno s) (Table (<[fd := Descr f (ofile d)]> (descrs t)) (status t) (refused t), b))
      | F_SETFL =>
          Some (0, Sys (errno s) (Table (descrs t) (<[ofile d := f]> (status t)) (refused t), b))
      end
  end.

Definition demo_close (fd : Z) : ST (sys unix) Z := λ s,
  let '(t, b) := world s in
  match descrs t !! fd with
  | None => Some (-1, Sys EBADF (world s))
  | Some d => Some (0, Sys EIO (Table (delete fd (descrs t)) (delete (ofile d) (status t)) (refused t), b))
  end.

#[local] Instance demo_unix : Unix unix := {|
  O_NONBLOCK := 0x800;
  O_CLOEXEC := 0x80000;
  FD_CLOEXEC := 1;
  table_of := fst;
  sys_socket := λ _ _ _, demo_open 2;
  accept := λ _ _ _, demo_open 2;
  pipe := demo_pipe;
  socketpair := λ _ _ _, demo_pipe;
  fcntl := demo_fcntl;
  close := demo_close
|}.

Lemma free_pair_spec t c :
  free_pair t = Some c → 0 <= c.1 ∧ descrs t !! c.1 = None ∧ status t !! c.2 = None.
Proof.
  unfold free_pair. intros Hc.
  assert (Hin : c ∈ filter (λ c, descrs t !! c.1 = None ∧ status t !! c.2 = None)
    [(3, 1%positive); (4, 2%positive); (5, 3%positive)]).
  { destruct (filter _ _); [done|]. injection Hc as ->. left. }
  apply list_elem_of_filter in Hin as [[? ?] Hin]. split; [|done].
  revert Hin. rewrite !elem_of_cons. intros [->|[->|[->|[]%not_elem_of_nil]]]; cbn; lia.
Qed.

Lemma demo_open_wp st s :
  wp (demo_open st) (λ r s', r = -1 ∧ tab s' = tab s ∨ Opened (tab s) (tab s') r st) s.
Proof.
  destruct s as [e [t b]]. unfold wp, demo_open. cbn. destruct (free_pair t) as [c|] eqn:Ec; [|by left].
  right. destruct (free_pair_spec _ _ Ec) as (? & ? & ?). split; [done|]. split; [done|].
  exists c.2. by split.
Qed.

Lemma demo_pipe_wp (s : sys unix) : wp demo_pipe (PairOrNot s) s.
Proof.
  destruct s as [e [t b]]. unfold wp, demo_pipe. cbn. destruct (free_pair t) as [c|] eqn:Ec; [|by left].
  destruct (free_pair (with_new 1 c t)) as [c'|] eqn:Ec'; [|by left].
  destruct (free_pair_spec _ _ Ec) as (? & ? & ?). destruct (free_pair_spec _ _ Ec') as (? & D & S).
  unfold with_new in D, S. cbn [descrs status] in D, S. assert (c.1 ≠ c'.1) by (intros E; rewrite E in D; by simplify_map_eq).
  assert (c.2 ≠ c'.2) by (intros E; rewrite E in S; by simplify_map_eq).
  rewrite lookup_insert_ne in D by done. rewrite lookup_insert_ne in S by done.
  right. exists (c.1, c'.1), 1, 1. split; [done|]. do 2 (split; [done|]). do 3 (split; [done|]).
  by exists c.2, c'.2.
Qed.

#[local] Instance demo_unix_laws : UnixLaws unix.
Proof.
  split.
  - done.
  - intros d t p s _. eapply wp_mono; [apply demo_open_wp|]. cbn. intros r s' [?|?]; [by left|right].
    by exists 2.
  - intros fd a l s. eapply wp_mono; [apply demo_open_wp|]. cbn. intros r s' [?|?]; [by left|right].
    by exists 2.
  - apply demo_pipe_wp.
  - intros d t p. apply demo_pipe_wp.
  - intros fd x d [e [t b]] Hd. unfold wp. cbn in *. unfold demo_fcntl. cbn. by rewrite Hd.
  - intros fd x d st [e [t b]] Hd Hst. unfold wp. cbn in *. unfold demo_fcntl. cbn. by rewrite Hd, Hst.
  - intros fd f d [e [t b]] Hd. unfold wp. cbn in *. unfold demo_fcntl. cbn. rewrite Hd.
    destruct (_ && _); [by right|by left].
  - intros fd f d st [e [t b]] Hd Hst. unfold wp. cbn in *. unfold demo_fcntl. cbn. rewrite Hd.
    left. split; [done|]. split; [|done]. exists f. split; [|done]. split; [done|by right].
  - intros fd d [e [t b]] Hd. unfold wp. cbn in *. unfold demo_close. cbn. rewrite Hd. cbn.
    split; [done|]. split; [done|]. intros g Hg. by rewrite lookup_delete_ne.
Qed.

Definition demo_table : table := Table {[3 := Descr 0 1]} {[1%positive := 2]} None.
Definition demo_start (b : bool) : sys unix := Sys EINTR (demo_table, b).

(** A pipe is made, and one that cannot get its flags is closed again. *)
Lemma descriptors_have_their_flags_witness :
  (∃ r s', bsd_pipe2 (O_NONBLOCK + O_CLOEXEC) (demo_start false) = Some (r, s') ∧
     NewPipe true true (demo_start false) r s' ∧ r = (0, Some (4, 5))) ∧
  ∃ r s', bsd_pipe2 O_CLOEXEC (demo_start true) = Some (r, s') ∧
     NewPipe true false (demo_start true) r s' ∧ r.1 = -1.
Proof.
  destruct (descriptors_have_their_flags unix (demo_start false)) as (_ & _ & HP).
  destruct (proj1 (HP eq_refl) (O_NONBLOCK + O_CLOEXEC)) as (r & s' & E & HN).
  destruct (descriptors_have_their_flags unix (demo_start true)) as (_ & _ & HP').
  destruct (proj1 (HP' eq_refl) O_CLOEXEC) as (r' & s'' & E' & HN').
  split; [exists r, s'|exists r', s'']; (split; [assumption|]); (split; [assumption|]).
  - assert (Hv : match bsd_pipe2 (O_NONBLOCK + O_CLOEXEC) (demo_start false) with
      | Some (r, _) => r = (0, Some (4, 5)) | None => False end) by (by vm_compute).
    by rewrite E in Hv.
  - assert (Hv : match bsd_pipe2 O_CLOEXEC (demo_start true) with
      | Some (r, _) => r.1 = -1 | None => False end) by (by vm_compute).
    by rewrite E' in Hv.
Defined.
