(* ===== verification/Pread.v ===== *)
(** [tls/compat/pread.c] and [tls/compat/pwrite.c]: reading and writing at a
    position, with the calls of the C runtime of Windows that move it. *)
From Stdlib Require Import ZArith Lia.
From stdpp Require Import prelude gmap.
From S2P Require Import Prelude CInt PosixWin.

Local Open Scope Z_scope.

(** ** The C runtime *)

(** An open file: the file, the position ([None] when there is none, as for a
    pipe) and whether every write goes to the end. *)
Record ofile := OFile { inode : positive; position : option Z; append : bool }.

(** Descriptors stand for open files, possibly several for one, and several open
    files for one file.  [io_errno] is the [errno] the last [read] or [write]
    left. *)
Record fsys := FSys {
  fds : gmap Z positive;
  ofiles : gmap positive ofile;
  data : gmap positive (list Z);
  io_errno : errno_code
}.

Inductive whence := SEEK_SET | SEEK_CUR.

(** [OFF_MAX] is the largest [off_t].  [read] also gives what it puts into the
    buffer; [write] gets the bytes it is to write.  The count both are given is
    an [unsigned int]. *)
Class Crt (W : Type) := {
  OFF_MAX : Z;
  fs_of : W → fsys;
  lseek : Z → Z → whence → ST (sys W) Z;
  read : Z → Z → ST (sys W) (Z * list Z);
  write : Z → list Z → ST (sys W) Z
}.

(** The bytes of a buffer that an [unsigned int] counts. *)
Definition first_u32 {A} (buf : list A) : list A := take (Z.to_nat (u32 (Z.of_nat (length buf)))) buf.

Section functions.
Context {W : Type} `{Crt W}.
Local Abbreviation M := (ST (sys W)).

(** The result, and what is in the buffer if something was put there.  [nbytes],
    a [size_t], is converted to the [unsigned int] that [read] takes. *)
Definition pread (d nbytes offset : Z) : M (Z * list Z) :=
  cpos ← lseek d 0 SEEK_CUR;
  if cpos =? -1 then mret (-1, [])
  else
    r ← lseek d offset SEEK_SET;
    if r =? -1 then mret (-1, [])
    else
      bytes ← read d (u32 nbytes);
      save_errno ← gets errno;
      r ← lseek d cpos SEEK_SET;
      if r =? -1 then mret (-1, bytes.2)
      else set_errno save_errno;; mret bytes.

(** [buf] holds [nbytes] bytes, and [write] is given the first [u32 nbytes] of
    them. *)
Definition pwrite (d : Z) (buf : list Z) (offset : Z) : M Z :=
  cpos ← lseek d 0 SEEK_CUR;
  if cpos =? -1 then mret (-1)
  else
    r ← lseek d offset SEEK_SET;
    if r =? -1 then mret (-1)
    else
      bytes ← write d (first_u32 buf);
      save_errno ← gets errno;
      r ← lseek d cpos SEEK_SET;
      if r =? -1 then mret (-1)
      else set_errno save_errno;; mret bytes.
End functions.
