(* ===== verification/PreadProperties.v ===== *)
(** Properties of reading and writing at a position. *)
From Stdlib Require Import ZArith Lia.
From stdpp Require Import prelude gmap.
From S2P Require Import Prelude CInt PosixWin Pread.

Local Open Scope Z_scope.
#[local] Arguments wp : simpl never.

Abbreviation fs s := (fs_of (world s)).

(** ** What the C runtime promises *)

(** The open file a descriptor stands for, with its number, and its contents. *)
Definition opened (t : fsys) (d : Z) : option (positive * ofile * list Z) :=
  g ← fds t !! d; o ← ofiles t !! g; bs ← data t !! inode o; Some (g, o, bs).

Definition with_ofile (g : positive) (o : ofile) (t : fsys) : fsys :=
  FSys (fds t) (<[g := o]> (ofiles t)) (data t) (io_errno t).

Definition moved (o : ofile) (p : Z) : ofile := OFile (inode o) (Some p) (append o).

Definition with_io (e : errno_code) (t : fsys) : fsys := FSys (fds t) (ofiles t) (data t) e.

(** What [read] may find at [p] of [bs]: an error, or some bytes, and none only
    at the end. *)
Definition ReadAt (bs : list Z) (p n : Z) (r : Z * list Z) : Prop :=
  r.1 = -1 ∨
  0 <= r.1 <= n ∧ r.2 = take (Z.to_nat r.1) (drop (Z.to_nat p) bs) ∧ length r.2 = Z.to_nat r.1 ∧
  (r.1 = 0 → n = 0 ∨ Z.of_nat (length bs) <= p).

(** [b] is in the file from [p], and else the file is as it was; what is between
    its old end and [p] is not said. *)
Definition Written (bs : list Z) (p : Z) (b bs' : list Z) : Prop :=
  (b = [] → bs' = bs) ∧
  (b ≠ [] → take (length b) (drop (Z.to_nat p) bs') = b ∧
     length bs' = Nat.max (length bs) (Z.to_nat p + length b) ∧
     ∀ i, (i < length bs)%nat → (i < Z.to_nat p ∨ Z.to_nat p + length b <= i)%nat → bs' !! i = bs !! i).

(** Where a [write] at [p] goes. *)
Definition write_pos (o : ofile) (bs : list Z) (p : Z) : Z :=
  if append o then Z.of_nat (length bs) else p.

(** The documented behaviour, for files opened in binary mode and counts up to
    [INT_MAX], the largest they are documented for.  A [read] or [write] may leave
    the position anywhere. *)
Class CrtLaws (W : Type) `{Crt W} : Prop := {
  law_seek_cur d s : wp (lseek d 0 SEEK_CUR) (λ r s', fs s' = fs s ∧
    match opened (fs s) d with
    | Some (g, OFile _ (Some p) _, _) => r = if p <=? OFF_MAX then p else -1
    | _ => r = -1
    end) s;
  law_seek_set d off s : wp (lseek d off SEEK_SET) (λ r s',
    match opened (fs s) d with
    | Some (g, OFile i (Some p) a, _) =>
        if (0 <=? off) && (off <=? OFF_MAX)
        then r = off ∧ fs s' = with_ofile g (OFile i (Some off) a) (fs s)
        else r = -1 ∧ fs s' = fs s
    | _ => r = -1 ∧ fs s' = fs s
    end) s;
  law_read d n g o p bs s : opened (fs s) d = Some (g, o, bs) → position o = Some p → 0 <= p →
    0 <= n <= INT_MAX →
    wp (read d n) (λ r s', ReadAt bs p n r ∧
      ∃ q, 0 <= q ∧ fs s' = with_io (errno s') (with_ofile g (moved o q) (fs s))) s;
  law_write d buf g o p bs s : opened (fs s) d = Some (g, o, bs) → position o = Some p → 0 <= p →
    Z.of_nat (length buf) <= INT_MAX →
    wp (write d buf) (λ r s', ∃ q bs', 0 <= q ∧
      (r = -1 ∧ bs' = bs ∨ 0 <= r <= Z.of_nat (length buf) ∧
         Written bs (write_pos o bs p) (take (Z.to_nat r) buf) bs') ∧
      fs s' = FSys (fds (fs s)) (<[g := moved o q]> (ofiles (fs s)))
                   (<[inode o := bs']> (data (fs s))) (errno s')) s
}.

Lemma length_first_u32 {A} (buf : list A) :
  Z.of_nat (length (first_u32 buf)) = u32 (Z.of_nat (length buf)).
Proof.
  unfold first_u32, u32. rewrite length_take.
  pose proof (Z.mod_pos_bound (Z.of_nat (length buf)) (2 ^ 32) ltac:(lia)).
  pose proof (Z.mod_le (Z.of_nat (length buf)) (2 ^ 32) ltac:(lia) ltac:(lia)). lia.
Qed.

Section proof.
Context {W : Type} `{CrtLaws W}.
Implicit Types s : sys W.

(** Positions that [off_t] has. *)
Definition is_off (p : Z) : bool := (0 <=? p) && (p <=? OFF_MAX).

(** The descriptor [d] can be used at [off]: it has a position that [off_t] can
    hold, and so is [off]. *)
Definition positioned (t : fsys) (d off : Z) : option (positive * ofile * list Z) :=
  match opened t d with
  | Some (g, OFile i (Some p) a, bs) =>
      if is_off p && is_off off then Some (g, OFile i (Some p) a, bs) else None
  | _ => None
  end.

(** No position is negative. *)
Definition Valid (t : fsys) : Prop :=
  ∀ g o p, ofiles t !! g = Some o → position o = Some p → 0 <= p.

(** Both functions, with what is between the moves of the position. *)
Definition at_position {A} (io : ST (sys W) A) (failed : A) (lost : A → A) (d off : Z) : ST (sys W) A :=
  cpos ← lseek d 0 SEEK_CUR;
  if cpos =? -1 then mret failed
  else
    r ← lseek d off SEEK_SET;
    if r =? -1 then mret failed
    else
      x ← io;
      save_errno ← gets errno;
      r ← lseek d cpos SEEK_SET;
      if r =? -1 then mret (lost x) else set_errno save_errno;; mret x.

Lemma opened_Some t d g o bs :
  opened t d = Some (g, o, bs) ↔ fds t !! d = Some g ∧ ofiles t !! g = Some o ∧ data t !! inode o = Some bs.
Proof.
  unfold opened. destruct (fds t !! d) as [g'|] eqn:E1; cbn; [|naive_solver].
  destruct (ofiles t !! g') as [o'|] eqn:E2; cbn; [|naive_solver].
  destruct (data t !! inode o') as [bs'|] eqn:E3; cbn; naive_solver.
Qed.

(** Positions are restored, and [errno] is what [io] left. *)
Lemma at_position_wp {A} (io : ST (sys W) A) failed lost d off s g i p a bs (R : A → list Z → Prop) Q :
  opened (fs s) d = Some (g, OFile i (Some p) a, bs) → is_off p → is_off off →
  (∀ s1, fs s1 = with_ofile g (OFile i (Some off) a) (fs s) →
    wp io (λ x s2, ∃ q bs', R x bs' ∧
      fs s2 = FSys (fds (fs s)) (<[g := OFile i (Some q) a]> (ofiles (fs s)))
                   (<[i := bs']> (data (fs s))) (errno s2)) s1) →
  (∀ x bs' s', R x bs' →
    fs s' = FSys (fds (fs s)) (ofiles (fs s)) (<[i := bs']> (data (fs s))) (errno s') → Q x s') →
  wp (at_position io failed lost d off) Q s.
Proof.
  intros Ho Hp Hoff Hio HQ. pose proof Ho as (Hd & Hg & Hi)%opened_Some. unfold is_off in *.
  unfold at_position. wp_step. eapply wp_mono; [apply law_seek_cur|]. rewrite Ho.
  intros c s1 [T1 ->]. apply andb_True in Hp as [Hp0 Hp1]. apply Is_true_true in Hp0, Hp1. rewrite Hp1.
  rewrite (proj2 (Z.eqb_neq p (-1))) by lia.
  wp_step. eapply wp_mono; [apply law_seek_set|]. rewrite T1, Ho. rewrite (Is_true_eq_true _ Hoff).
  intros r s2 [-> T2]. apply andb_True in Hoff as [Hoff _]. apply Is_true_true in Hoff.
  rewrite (proj2 (Z.eqb_neq off (-1))) by lia.
  wp_step. eapply wp_mono; [by apply Hio|]. cbn. intros x s3 (q & bs' & HR & T3).
  do 3 wp_step. eapply wp_mono; [apply law_seek_set|].
  assert (Ho3 : opened (fs s3) d = Some (g, OFile i (Some q) a, bs')).
  { rewrite T3. apply opened_Some. cbn. by simplify_map_eq. }
  rewrite Ho3, Hp0, Hp1. cbn [andb]. intros r s4 [-> T4].
  rewrite (proj2 (Z.eqb_neq p (-1))) by lia. unfold set_errno. do 3 wp_step.
  eapply HQ; [exact HR|]. cbn. rewrite T4, T3. unfold with_ofile. cbn.
  by rewrite insert_insert_eq, insert_id.
Qed.

Lemma at_position_fails {A} (io : ST (sys W) A) failed lost d off s Q :
  Valid (fs s) → positioned (fs s) d off = None → (∀ s', fs s' = fs s → Q failed s') →
  wp (at_position io failed lost d off) Q s.
Proof.
  intros HV Hn HQ. unfold at_position, positioned in *.
  wp_step. eapply wp_mono; [apply law_seek_cur|]. intros c s1 [T1 Hc].
  destruct (opened (fs s) d) as [[[g [i [p|] a]] bs]|] eqn:Ho;
    [|subst c; rewrite Z.eqb_refl; wp_step; by apply HQ..].
  pose proof Ho as (_ & Hg & _)%opened_Some. pose proof (HV _ _ _ Hg eq_refl) as Hp.
  destruct (Z.leb_spec p OFF_MAX); [|subst c; rewrite Z.eqb_refl; wp_step; by apply HQ].
  subst c. rewrite (proj2 (Z.eqb_neq p (-1))) by lia.
  wp_step. eapply wp_mono; [apply law_seek_set|]. rewrite T1, Ho.
  assert (is_off p = true) as Hip by (unfold is_off; apply andb_true_iff; lia).
  rewrite Hip in Hn. cbn [andb] in Hn. unfold is_off in Hn.
  destruct ((0 <=? off) && (off <=? OFF_MAX)); [done|]. intros r s2 [-> T2].
  rewrite Z.eqb_refl. wp_step. apply HQ. congruence.
Qed.

Lemma positioned_Some t d off x :
  positioned t d off = Some x →
  ∃ g i p a bs, x = (g, OFile i (Some p) a, bs) ∧ opened t d = Some x ∧ is_off p ∧ is_off off.
Proof.
  unfold positioned. destruct (opened t d) as [[[g [i [p|] a]] bs]|] eqn:Ho; try done.
  destruct (is_off p) eqn:Hp, (is_off off) eqn:Hoff; try done. cbn. intros [= <-].
  exists g, i, p, a, bs. do 2 (split; [done|]). split; [by rewrite Hp|done].
Qed.

(** What [pread] and [pwrite] leave: nothing has been moved. *)
Definition ReadResult s (d n off : Z) (r : Z * list Z) s' : Prop :=
  match positioned (fs s) d off with
  | Some (g, o, bs) => ReadAt bs off n r ∧ fs s' = with_io (errno s') (fs s)
  | None => r.1 = -1 ∧ fs s' = fs s
  end.

Definition WriteResult s (d : Z) (buf : list Z) (off r : Z) s' : Prop :=
  match positioned (fs s) d off with
  | Some (g, o, bs) => ∃ bs',
      (r = -1 ∧ bs' = bs ∨ 0 <= r <= Z.of_nat (length buf) ∧
         Written bs (write_pos o bs off) (take (Z.to_nat r) buf) bs') ∧
      fs s' = FSys (fds (fs s)) (ofiles (fs s)) (<[inode o := bs']> (data (fs s))) (errno s')
  | None => r = -1 ∧ fs s' = fs s
  end.

Lemma pread_wp s d n off :
  Valid (fs s) → u32 n <= INT_MAX → wp (pread d n off) (ReadResult s d (u32 n) off) s.
Proof.
  intros HV Hn. pose proof (Z.mod_pos_bound n (2 ^ 32) ltac:(lia)) as Hn0. fold (u32 n) in Hn0.
  unfold ReadResult. destruct (positioned (fs s) d off) as [x|] eqn:Hx.
  - apply positioned_Some in Hx as (g & i & p & a & bs & -> & Ho & Hp & Hoff).
    pose proof Ho as (Hd & Hg & Hi)%opened_Some.
    apply (at_position_wp (read d (u32 n)) (-1, []) (λ x, (-1, x.2)) d off s g i p a bs
      (λ r bs', ReadAt bs off (u32 n) r ∧ bs' = bs)); [done..| |].
    + intros s1 T1. eapply wp_mono.
      * apply (law_read d (u32 n) g (OFile i (Some off) a) off bs); [|done| |lia].
        -- rewrite T1. apply opened_Some. cbn. by simplify_map_eq.
        -- apply andb_True in Hoff as [?%Is_true_true _]. lia.
      * intros r s2 [HR (q & Hq & T2)]. exists q, bs. split; [done|]. rewrite T2, T1.
        unfold with_io, with_ofile, moved. cbn. by rewrite insert_insert_eq, (insert_id (data _)).
    + intros r bs' s' [HR ->] T. split; [done|]. rewrite T. by rewrite (insert_id (data _)).
  - by apply (at_position_fails (read d (u32 n)) (-1, []) (λ x, (-1, x.2))).
Qed.

Lemma pwrite_wp s d buf off :
  Valid (fs s) → u32 (Z.of_nat (length buf)) <= INT_MAX →
  wp (pwrite d buf off) (WriteResult s d (first_u32 buf) off) s.
Proof.
  unfold pwrite. intros HV Hb. rewrite <-length_first_u32 in Hb. revert Hb.
  generalize (first_u32 buf). clear buf. intros buf Hb. unfold WriteResult. destruct (positioned (fs s) d off) as [x|] eqn:Hx.
  - apply positioned_Some in Hx as (g & i & p & a & bs & -> & Ho & Hp & Hoff).
    pose proof Ho as (Hd & Hg & Hi)%opened_Some.
    apply (at_position_wp (write d buf) (-1) (λ _, -1) d off s g i p a bs
      (λ r bs', r = -1 ∧ bs' = bs ∨ 0 <= r <= Z.of_nat (length buf) ∧
         Written bs (if a then Z.of_nat (length bs) else off) (take (Z.to_nat r) buf) bs'));
      [done..| |].
    + intros s1 T1. eapply wp_mono.
      * apply (law_write d buf g (OFile i (Some off) a) off bs); [|done| |done].
        -- rewrite T1. apply opened_Some. cbn. by simplify_map_eq.
        -- apply andb_True in Hoff as [?%Is_true_true _]. lia.
      * intros r s2 (q & bs' & Hq & HR & T2). exists q, bs'. split; [exact HR|]. rewrite T2, T1.
        unfold with_ofile, moved. cbn. by rewrite insert_insert_eq.
    + intros r bs' s' HR T. exists bs'. split; [exact HR|done].
  - by apply (at_position_fails (write d buf) (-1) (λ _, -1)).
Qed.
End proof.

(** C32: [pread] and [pwrite] always return and never move the position of an open
    file.  On a descriptor with a position, and at an offset, that [off_t] can
    hold, [pread] gives bytes of the file from [offset] and changes nothing, and
    [pwrite] puts bytes there, or at the end when the file is open for appending;
    [errno] is what [read] or [write] left.  On any other descriptor, and at any
    other offset, both give -1 and change nothing.  They read and write no more
    than the lowest 32 bits of the count say, for which the runtime's calls are
    documented up to [INT_MAX]. *)
Theorem positioned_io_correct W `{CrtLaws W} (s : sys W) d off :
  Valid (fs s) →
  (∀ n, u32 n <= INT_MAX →
    ∃ r s', pread d n off s = Some (r, s') ∧ ReadResult s d (u32 n) off r s') ∧
  ∀ buf, u32 (Z.of_nat (length buf)) <= INT_MAX →
    ∃ r s', pwrite d buf off s = Some (r, s') ∧ WriteResult s d (first_u32 buf) off r s'.
Proof.
  intros HV. split.
  - intros n Hn. by apply wp_elim, pread_wp.
  - intros buf Hb. by apply wp_elim, pwrite_wp.
Qed.

(** Of [2 ^ 32] bytes none is read or written, as at the end of a file. *)
Theorem four_gigabytes_are_nothing W `{CrtLaws W} (s : sys W) d off buf :
  Valid (fs s) → Z.of_nat (length buf) = 2 ^ 32 →
  (∃ r s', pread d (2 ^ 32) off s = Some (r, s') ∧ r.1 <= 0) ∧
  ∃ r s', pwrite d buf off s = Some (r, s') ∧ r <= 0.
Proof.
  intros HV Hb. destruct (wp_elim _ _ _ (pread_wp s d (2 ^ 32) off HV ltac:(done))) as (r & s1 & E1 & H1).
  destruct (wp_elim _ _ _ (pwrite_wp s d buf off HV ltac:(by rewrite Hb))) as (k & s2 & E2 & H2).
  split; [exists r, s1|exists k, s2]; (split; [done|]); unfold ReadResult, WriteResult in *.
  - destruct (positioned _ _ _) as [[[g o] bs]|]; [|destruct H1; lia].
    destruct H1 as [[?|(Hr & _)] _]; [lia|]. change (u32 (2 ^ 32)) with 0 in Hr. lia.
  - destruct (positioned _ _ _) as [[[g o] bs]|]; [|destruct H2; lia].
    destruct H2 as (bs' & [[? _]|[Hr _]] & _); [lia|].
    rewrite length_first_u32, Hb in Hr. change (u32 (2 ^ 32)) with 0 in Hr. lia.
Qed.



(** ** A runtime that keeps the promises *)

(** Bytes put into a file, with zeros between its end and them. *)
Definition put (bs : list Z) (p : nat) (b : list Z) : list Z :=
  match b with
  | [] => bs
  | _ => take p (bs ++ replicate (p - length bs) 0) ++ b ++ drop (p + length b) bs
  end.

Definition demo_lseek (d off : Z) (w : whence) : ST (sys fsys) Z := λ s,
  match opened (world s) d with
  | Some (g, OFile i (Some p) a, _) =>
      match w with
      | SEEK_CUR => Some (if p <=? 1000 then p else -1, s)
      | SEEK_SET =>
          if (0 <=? off) && (off <=? 1000)
          then Some (off, Sys (errno s) (with_ofile g (OFile i (Some off) a) (world s)))
          else Some (-1, Sys EINVAL (world s))
      end
  | _ => Some (-1, Sys EBADF (world s))
  end.

Definition demo_read (d n : Z) : ST (sys fsys) (Z * list Z) := λ s,
  match opened (world s) d with
  | Some (g, OFile i (Some p) a, bs) =>
      let b := take (Z.to_nat n) (drop (Z.to_nat p) bs) in
      let k := Z.of_nat (length b) in
      Some ((k, b), Sys (errno s) (with_io (errno s) (with_ofile g (OFile i (Some (p + k)) a) (world s))))
  | _ => Some ((-1, []), Sys EBADF (world s))
  end.

(** At most three bytes at a time. *)
Definition demo_write (d : Z) (buf : list Z) : ST (sys fsys) Z := λ s,
  match opened (world s) d with
  | Some (g, OFile i (Some p) a, bs) =>
      let t := world s in
      let b := take 3 buf in
      let q := if a : bool then Z.of_nat (length bs) else p in
      Some (Z.of_nat (length b), Sys EINTR (FSys (fds t)
        (<[g := OFile i (Some (q + Z.of_nat (length b))) a]> (ofiles t))
        (<[i := put bs (Z.to_nat q) b]> (data t)) EINTR))
  | _ => Some (-1, Sys EBADF (world s))
  end.

#[local] Instance demo_crt : Crt fsys := {|
  OFF_MAX := 1000; fs_of := id; lseek := demo_lseek; read := demo_read; write := demo_write
|}.

Lemma put_Written bs p b : 0 <= p → Written bs p b (put bs (Z.to_nat p) b).
Proof.
  intros Hp. split; [by intros ->|]. intros Hb. destruct b as [|x b]; [done|]. unfold put.
  set (c := x :: b). set (pre := take (Z.to_nat p) (_ ++ _)).
  assert (Hpre : length pre = Z.to_nat p).
  { unfold pre. rewrite length_take, length_app, length_replicate. lia. }
  split_and!.
  - by rewrite <-Hpre, drop_app_length, take_app_length.
  - rewrite !length_app, length_drop, Hpre. lia.
  - intros i Hi Hout. destruct (decide (i < Z.to_nat p)%nat).
    + rewrite lookup_app_l by lia. unfold pre. rewrite lookup_take_lt by done. by rewrite lookup_app_l.
    + rewrite lookup_app_r by lia. rewrite lookup_app_r by lia. rewrite lookup_drop. f_equal. lia.
Qed.

#[local] Instance demo_crt_laws : CrtLaws fsys.
Proof.
  split.
  - intros d [e t]. unfold wp. cbn. unfold demo_lseek. cbn [world errno].
    destruct (opened t d) as [[[g [i [p|] a]] bs]|]; done.
  - intros d off [e t]. unfold wp. cbn. unfold demo_lseek. cbn [world errno].
    destruct (opened t d) as [[[g [i [p|] a]] bs]|]; [|done..].
    by destruct (_ && _).
  - intros d n g o p bs [e t] Ho Hpos Hp Hn. unfold wp. cbn in *. unfold demo_read. cbn [world errno].
    rewrite Ho. destruct o as [i pos a]. cbn in Hpos. subst pos.
    set (b := take (Z.to_nat n) (drop (Z.to_nat p) bs)).
    assert (Hb : length b = Nat.min (Z.to_nat n) (length bs - Z.to_nat p)).
    { unfold b. by rewrite length_take, length_drop. }
    split.
    + right. cbn. split_and!; [lia|lia| |lia|lia].
      by rewrite Nat2Z.id, Hb, <-length_drop, <-take_take, (take_ge (drop _ _) (length _)).
    + exists (p + Z.of_nat (length b)). split; [lia|done].
  - intros d buf g o p bs [e t] Ho Hpos Hp. unfold wp. cbn in *. unfold demo_write. cbn [world errno].
    rewrite Ho. destruct o as [i pos a]. cbn in Hpos. subst pos.
    eexists _, _. split; [|split; [right; split|reflexivity]].
    + destruct a; lia.
    + rewrite length_take. lia.
    + unfold write_pos. cbn [append]. rewrite Nat2Z.id, length_take.
      rewrite <-take_take, (take_ge buf (length buf)) by done.
      apply put_Written. destruct a; lia.
Qed.

(** Two open files for one file, and a pipe. *)
Definition demo_files : sys fsys := Sys EINTR (FSys
  (list_to_map [(3, 1%positive); (4, 2%positive); (5, 3%positive)])
  (list_to_map [(1%positive, OFile 1 (Some 2) false); (2%positive, OFile 1 (Some 0) false);
                (3%positive, OFile 2 None false)])
  (list_to_map [(1%positive, [10; 11; 12; 13; 14; 15]); (2%positive, [])]) EINTR).

Lemma demo_files_valid : Valid (fs demo_files).
Proof.
  intros g o p Hg Hp.
  pose proof (bool_decide_unpack (map_Forall (λ _ o, 0 <= default 0 (position o)) (ofiles (fs demo_files))) I)
    as Hall.
  specialize (Hall _ _ Hg). cbn in Hall. rewrite Hp in Hall. cbn in Hall. lia.
Qed.

Lemma positioned_io_correct_witness :
  Valid (fs demo_files) ∧
  (∃ r s', pread 3 4 3 demo_files = Some (r, s') ∧ ReadResult demo_files 3 4 3 r s' ∧
     r = (3, [13; 14; 15])) ∧
  ∃ r s', pwrite 5 [1] 0 demo_files = Some (r, s') ∧ WriteResult demo_files 5 [1] 0 r s' ∧ r = -1.
Proof.
  split; [exact demo_files_valid|].
  destruct (positioned_io_correct fsys demo_files 3 3 demo_files_valid) as [HR _].
  destruct (HR 4 ltac:(done)) as (r & s' & E & Hr).
  destruct (positioned_io_correct fsys demo_files 5 0 demo_files_valid) as [_ HW].
  destruct (HW [1] ltac:(done)) as (r' & s'' & E' & Hr').
  split; [exists r, s'|exists r', s'']; (split; [exact E || exact E'|]); (split; [assumption|]).
  - assert (Hv : match pread 3 4 3 demo_files with
      | Some (r, _) => r = (3, [13; 14; 15]) | None => False end) by (by vm_compute).
    by rewrite E in Hv.
  - assert (Hv : match pwrite 5 [1] 0 demo_files with
      | Some (r, _) => r = -1 | None => False end) by (by vm_compute).
    by rewrite E' in Hv.
Defined.

