(* ===== verification/Mkstemp.v ===== *)
(** [tests/compat/mkstemp.c]: a temporary file with a name of its own, on
    Windows. *)
From Stdlib Require Import ZArith Lia.
From stdpp Require Import prelude gmap.
From S2P Require Import Prelude CInt PosixWin.

Local Open Scope Z_scope.

(** A name: its characters, without the NUL that ends it. *)
Abbreviation name := (list Z).

(** The files that exist; those this process has made, the last one first; and
    the [errno] of the last [open] that failed for another reason than that the
    file existed. *)
Record tmpdir := TmpDir {
  files : gset name;
  mine : list name;
  refused : option errno_code
}.

(** The calls of the C runtime.  [_mktemp] works on the array it is given, and
    [candidates] are the names it can make from the part before the six [X]. *)
Class TmpFiles (W : Type) := {
  dir_of : W → tmpdir;
  candidates : name → list name;
  _mktemp : list Z → ST (sys W) (bool * list Z);
  open : name → Z → Z → ST (sys W) Z
}.

Definition O_RDWR : Z := 0x2.
Definition O_CREAT : Z := 0x100.
Definition O_EXCL : Z := 0x400.

(** ** Strings in arrays *)

(** The characters before the first NUL, if there is one. *)
Fixpoint str_of (b : list Z) : option name :=
  match b with
  | [] => None
  | c :: b => if c =? 0 then Some [] else cons c <$> str_of b
  end.

Definition strlen (b : list Z) : option Z := Z.of_nat ∘ length <$> str_of b.

(** [strcpy(b + i, src)], inside the array. *)
Fixpoint strcpy (b : list Z) (i : Z) (src : name) : option (list Z) :=
  match src with
  | [] => set_char b i 0
  | c :: src => b ← set_char b i c; strcpy b (i + 1) src
  end.

Definition XXXXXX : name := replicate 6 88.

Section functions.
Context {W : Type} `{TmpFiles W}.

(** The result, and the array [template].  Every [retry] is for a name somebody
    else has just made, and there are at most 26. *)
Fixpoint mkstemp_retry (fuel : nat) (template : list Z) : ST (sys W) (Z * list Z) :=
  match fuel with
  | O => fail
  | S fuel =>
      r ← _mktemp template;
      let '(ok, template) := r in
      if negb ok then mret (-1, template)
      else
        path ← of_option (str_of template);
        fd ← open path (Z.lor (Z.lor O_RDWR O_CREAT) O_EXCL) 0x180;
        if fd >=? 0 then mret (fd, template)
        else
          e ← gets errno;
          if decide (e = EEXIST) then
            len ← of_option (strlen template);
            template ← of_option (strcpy template (len - 6) XXXXXX);
            mkstemp_retry fuel template
          else mret (-1, template)
  end.

Definition mkstemp (template : list Z) : ST (sys W) (Z * list Z) := mkstemp_retry 27 template.
End functions.
