(* ===== verification/MkstempProperties.v ===== *)
(** Properties of temporary files. *)
From Stdlib Require Import ZArith Lia.
From stdpp Require Import prelude gmap.
From S2P Require Import Prelude CInt PosixWin Mkstemp.

Local Open Scope Z_scope.
#[local] Arguments wp : simpl never.

Abbreviation dir s := (dir_of (world s)).

(** ** What the C runtime promises *)

(** Characters of a name. *)
Definition is_name (n : name) : Prop := 0 ∉ n.

(** The array [b] holds [n], and [rest] after the NUL. *)
Definition holds (b : list Z) (n : name) (rest : list Z) : Prop := b = n ++ 0 :: rest ∧ is_name n.

(** Others may make files at any time; nobody removes one. *)
Definition Grows (t t' : tmpdir) : Prop := files t ⊆ files t' ∧ mine t' = mine t.

(** The documented behaviour.  [_mktemp] makes at most 26 names from a template,
    gives one that does not exist, and NULL when all of them do or the template
    does not end in six [X]. *)
Class TmpFilesLaws (W : Type) `{TmpFiles W} : Prop := {
  law_candidates pre n : n ∈ candidates pre → ∃ suf, n = pre ++ suf ∧ length suf = 6%nat ∧ is_name suf;
  law_number pre : (length (candidates pre) <= 26)%nat;
  law_mktemp pre rest s : is_name pre →
    wp (_mktemp ((pre ++ XXXXXX) ++ 0 :: rest)) (λ r s', Grows (dir s) (dir s') ∧
      refused (dir s') = refused (dir s) ∧
      if r.1 then ∃ n, n ∈ candidates pre ∧ (n ∉ files (dir s')) ∧ r.2 = n ++ 0 :: rest
      else ∀ n, n ∈ candidates pre → n ∈ files (dir s')) s;
  law_mktemp_other b n rest s : holds b n rest → (∀ pre, n ≠ pre ++ XXXXXX) →
    wp (_mktemp b) (λ r s', Grows (dir s) (dir s') ∧ r.1 = false) s;
  law_open n flags mode s : flagged flags O_CREAT = true → flagged flags O_EXCL = true →
    wp (open n flags mode) (λ r s',
      (0 <= r ∧ (n ∉ files (dir s)) ∧ files (dir s) ⊆ files (dir s') ∧ n ∈ files (dir s') ∧
         mine (dir s') = n :: mine (dir s) ∧ refused (dir s') = refused (dir s))
      ∨ r = -1 ∧ Grows (dir s) (dir s') ∧
        (errno s' = EEXIST ∧ n ∈ files (dir s') ∧ refused (dir s') = refused (dir s) ∨
         errno s' ≠ EEXIST ∧ refused (dir s') = Some (errno s'))) s
}.

(** ** Strings in arrays *)

Lemma str_of_holds n rest : is_name n → str_of (n ++ 0 :: rest) = Some n.
Proof.
  unfold is_name. induction n as [|c n IH]; [done|]. intros [Hc Hn]%not_elem_of_cons. cbn.
  rewrite (proj2 (Z.eqb_neq c 0)) by done. by rewrite IH.
Qed.

Lemma set_char_app pre c0 c rest :
  set_char (pre ++ c0 :: rest) (Z.of_nat (length pre)) c = Some (pre ++ c :: rest).
Proof.
  rewrite set_char_run by (rewrite length_app; cbn; lia). rewrite Nat2Z.id.
  by rewrite insert_app_r_alt, Nat.sub_diag by lia.
Qed.

(** Copying over as many characters and the NUL after them. *)
Lemma strcpy_app src old pre rest :
  length old = length src →
  strcpy (pre ++ old ++ 0 :: rest) (Z.of_nat (length pre)) src = Some (pre ++ src ++ 0 :: rest).
Proof.
  revert old pre. induction src as [|c src IH]; intros [|c0 old] pre Hl; [|done..|]; cbn.
  - by rewrite set_char_app.
  - rewrite set_char_app. cbn. injection Hl as Hl.
    replace (Z.of_nat (length pre) + 1) with (Z.of_nat (length (pre ++ [c]))) by (rewrite length_app; cbn; lia).
    rewrite (cons_middle c pre (old ++ _)), (app_assoc pre). rewrite (IH old (pre ++ [c]) Hl).
    by rewrite <-app_assoc.
Qed.

Section proof.
Context {W : Type} `{TmpFilesLaws W}.
Implicit Types s : sys W.

(** The candidates that do not exist. *)
Definition left_over (pre : name) s : nat :=
  length (filter (λ n, n ∉ files (dir s)) (candidates pre)).

Lemma left_over_max pre s : (left_over pre s <= 26)%nat.
Proof. etrans; [apply length_filter|apply law_number]. Qed.

Lemma filter_shrinks (l : list name) (F F' : gset name) :
  F ⊆ F' → (length (filter (λ n, n ∉ F') l) <= length (filter (λ n, n ∉ F) l))%nat ∧
  ∀ n, n ∈ l → n ∉ F → n ∈ F' → (length (filter (λ n, n ∉ F') l) < length (filter (λ n, n ∉ F) l))%nat.
Proof.
  intros HF. induction l as [|x l [IH1 IH2]]; [split; [done|]; by intros n ?%not_elem_of_nil|].
  rewrite !filter_cons. split.
  - repeat case_decide; cbn; try lia. set_solver.
  - intros n [->|Hn]%elem_of_cons Hn1 Hn2.
    + rewrite decide_False, decide_True by auto. cbn. lia.
    + specialize (IH2 n Hn Hn1 Hn2). repeat case_decide; cbn; try lia. set_solver.
Qed.

(** The result of [mkstemp] for a template that begins with [pre]. *)
Definition TempResult (pre : name) (rest : list Z) s (r : Z * list Z) s' : Prop :=
  files (dir s) ⊆ files (dir s') ∧
  (0 <= r.1 ∧ (∃ n, n ∈ candidates pre ∧ holds r.2 n rest ∧ (n ∉ files (dir s)) ∧ n ∈ files (dir s') ∧
     mine (dir s') = n :: mine (dir s))
   ∨ r.1 = -1 ∧ mine (dir s') = mine (dir s) ∧
     ((∀ n, n ∈ candidates pre → n ∈ files (dir s')) ∨
      errno s' ≠ EEXIST ∧ refused (dir s') = Some (errno s'))).

Lemma candidate_name pre n : is_name pre → n ∈ candidates pre →
  is_name n ∧ ∃ suf, n = pre ++ suf ∧ length suf = 6%nat.
Proof.
  intros Hp (suf & -> & Hl & Hs)%law_candidates. split; [|by exists suf].
  unfold is_name. rewrite elem_of_app. by intros [?|?].
Qed.

Lemma restore pre suf rest :
  is_name (pre ++ suf) → length suf = 6%nat →
  strlen ((pre ++ suf) ++ 0 :: rest) = Some (Z.of_nat (length pre) + 6) ∧
  strcpy ((pre ++ suf) ++ 0 :: rest) (Z.of_nat (length pre)) XXXXXX = Some ((pre ++ XXXXXX) ++ 0 :: rest).
Proof.
  intros Hn Hl. split.
  - unfold strlen. rewrite str_of_holds by done. cbn. f_equal. rewrite length_app, Hl. lia.
  - rewrite <-!app_assoc. by apply strcpy_app.
Qed.

Lemma mkstemp_retry_wp fuel pre rest s :
  is_name pre → (left_over pre s < fuel)%nat →
  wp (mkstemp_retry fuel ((pre ++ XXXXXX) ++ 0 :: rest)) (TempResult pre rest s) s.
Proof.
  intros Hpre. revert s. induction fuel as [|fuel IH]; intros s Hf; [lia|]. cbn [mkstemp_retry].
  wp_step. eapply wp_mono; [by apply law_mktemp|]. intros [ok b] s1 ([Hg1 Hm1] & Hr1 & Hn). cbn in Hn.
  destruct ok; cbn [negb].
  2:{ wp_step. split; [done|]. right. split; [done|]. split; [done|]. by left. }
  destruct Hn as (n & Hc & Hfree & ->). destruct (candidate_name _ _ Hpre Hc) as (Hname & suf & -> & Hsuf).
  rewrite str_of_holds by done. do 2 wp_step. wp_step.
  eapply wp_mono; [by apply law_open|].
  intros r s2 [(Hr & Hnew & Hg2 & Hin & Hm2 & _)|(-> & [Hg2 Hm2] & HE)].
  - rewrite (proj2 (Z.geb_le r 0)) by lia. wp_step. split; [set_solver|]. left. split; [done|].
    exists (pre ++ suf). split; [done|]. split; [done|]. split; [set_solver|]. split; [done|]. congruence.
  - cbn [Z.geb Z.compare]. do 2 wp_step. destruct HE as [(E & Hin & Hr2)|[E Hr2]].
    + rewrite decide_True by done. destruct (restore pre suf rest Hname Hsuf) as [-> Hcpy].
      do 2 wp_step. rewrite Z.add_simpl_r, Hcpy. do 2 wp_step.
      assert (Hlt : (left_over pre s2 < left_over pre s)%nat).
      { unfold left_over. apply (filter_shrinks _ _ _ (transitivity Hg1 Hg2)) with (pre ++ suf); [done|set_solver|done]. }
      eapply wp_mono; [apply IH; lia|]. intros r s3 [Hg3 HR]. split; [set_solver|].
      destruct HR as [(? & m & ? & ? & Hm & ? & Hm3)|(? & Hm3 & ?)].
      * left. split; [done|]. exists m. do 2 (split; [done|]). split; [set_solver|]. split; [done|]. congruence.
      * right. split; [done|]. split; [congruence|done].
    + rewrite decide_False by done. wp_step. split; [set_solver|]. right. split; [done|].
      split; [congruence|]. by right.
Qed.
End proof.

(** C34: On a template that ends in six [X], [mkstemp] returns after at most 27
    rounds.  It gives a descriptor of a file that it has itself made just then,
    with a name that begins like the template, and the template holds that name;
    or -1, and it has made no file.  It fails only when all names exist or when
    [open] fails for another reason, which [errno] tells: when somebody else is
    faster, it tries again with the same template.  On any other template it
    fails at once. *)
Theorem mkstemp_makes_file W `{TmpFilesLaws W} (n : name) rest (s : sys W) :
  is_name n →
  ∃ r s', mkstemp (n ++ 0 :: rest) s = Some (r, s') ∧
    (∀ pre, n = pre ++ XXXXXX → TempResult pre rest s r s') ∧
    ((∀ pre, n ≠ pre ++ XXXXXX) → r.1 = -1 ∧ mine (dir s') = mine (dir s)).
Proof.
  intros Hn. destruct (decide (drop (length n - 6) n = XXXXXX)) as [E|E].
  - pose proof (take_drop (length n - 6) n) as Hpre. rewrite E in Hpre. set (pre := take _ n) in Hpre.
    assert (Hp : is_name pre) by (unfold is_name in *; rewrite <-Hpre, elem_of_app in Hn; tauto).
    pose proof (left_over_max pre s) as Hmax.
    destruct (wp_elim _ _ _ (mkstemp_retry_wp 27 pre rest s Hp ltac:(lia))) as (r & s' & Er & HR).
    exists r, s'. rewrite <-Hpre. split; [exact Er|]. split.
    + by intros pre' [<- _]%app_inj_2.
    + by intros Hne%(λ f, f pre).
  - assert (Hne : ∀ pre, n ≠ pre ++ XXXXXX).
    { intros pre ->. apply E. rewrite length_app, Nat.add_sub. apply drop_app_length. }
    destruct (wp_elim _ _ _ (law_mktemp_other (n ++ 0 :: rest) n rest s (conj eq_refl Hn) Hne))
      as ([ok b] & s' & Er & [[_ Hm] Hok]). cbn in Hok. subst ok.
    exists (-1, b), s'. split; [|split; [by intros pre ?%Hne|done]].
    unfold mkstemp. cbn [mkstemp_retry]. by rewrite (bind_run _ _ _ _ _ Er).
Qed.

(** ** A runtime that keeps the promises *)

(** The number says how often somebody else is faster. *)
Abbreviation tmp := (tmpdir * nat)%type.

Definition demo_candidates (pre : name) : list name :=
  map (λ c, pre ++ [c; 48; 48; 48; 48; 49]) (seqZ 97 26).

Definition demo_mktemp (b : list Z) : ST (sys tmp) (bool * list Z) := λ s,
  let '(t, k) := world s in
  match str_of b with
  | None => Some ((false, b), Sys EINVAL (world s))
  | Some n =>
      let pre := take (length n - 6) n in
      if decide (drop (length n - 6) n = XXXXXX) then
        match filter (λ n, n ∉ files t) (demo_candidates pre) with
        | m :: _ => Some ((true, m ++ drop (length n) b), s)
        | [] => Some ((false, b), Sys EEXIST (world s))
        end
      else Some ((false, b), Sys EINVAL (world s))
  end.

Definition demo_open (n : name) (flags mode : Z) : ST (sys tmp) Z := λ s,
  let '(t, k) := world s in
  if decide (n ∈ files t) then Some (-1, Sys EEXIST (world s))
  else
    match k with
    | S k => Some (-1, Sys EEXIST (TmpDir ({[n]} ∪ files t) (mine t) (refused t), k))
    | O => Some (3, Sys (errno s) (TmpDir ({[n]} ∪ files t) (n :: mine t) (refused t), 0%nat))
    end.

#[local] Instance demo_tmp : TmpFiles tmp := {|
  dir_of := fst; candidates := demo_candidates; _mktemp := demo_mktemp; open := demo_open
|}.

#[local] Instance demo_tmp_laws : TmpFilesLaws tmp.
Proof.
  split.
  - intros pre n (c & -> & Hc%elem_of_seqZ)%list_elem_of_fmap. exists [c; 48; 48; 48; 48; 49].
    split; [done|]. split; [done|]. unfold is_name. rewrite !elem_of_cons. intros Hin.
    destruct_or!; try lia. by apply not_elem_of_nil in Hin.
  - intros pre. cbn. unfold demo_candidates. by rewrite length_fmap, length_seqZ.
  - intros pre rest [e [t k]] Hp. unfold wp. cbn -[filter demo_candidates XXXXXX]. unfold demo_mktemp.
    cbn [world errno].
    assert (HnX : is_name (pre ++ XXXXXX)).
    { unfold is_name in *. rewrite elem_of_app. intros [?|Hx]; [done|]. revert Hx.
      by apply (bool_decide_unpack (0 ∉ XXXXXX)). }
    rewrite str_of_holds by done. rewrite length_app.
    replace (length pre + length XXXXXX - 6)%nat with (length pre) by (cbn; lia).
    rewrite decide_True by apply drop_app_length. rewrite take_app_length.
    destruct (filter _ (demo_candidates pre)) as [|m l] eqn:Ef.
    + split; [done|]. split; [done|]. intros n Hn. apply dec_stable. intros Hnot.
      assert (Hin : n ∈ filter (λ n, n ∉ files t) (demo_candidates pre)) by by apply list_elem_of_filter.
      rewrite Ef in Hin. by apply not_elem_of_nil in Hin.
    + split; [done|]. split; [done|]. exists m.
      assert (Hin : m ∈ filter (λ n, n ∉ files t) (demo_candidates pre)) by (rewrite Ef; left).
      apply list_elem_of_filter in Hin as [? ?]. split; [done|]. split; [done|]. cbn [snd]. f_equal.
      rewrite <-length_app. apply drop_app_length.
  - intros b n rest [e [t k]] [-> Hn] Hne. unfold wp. cbn -[filter demo_candidates XXXXXX].
    unfold demo_mktemp. cbn [world errno]. rewrite str_of_holds by done.
    rewrite decide_False; [done|]. intros E. apply (Hne (take (length n - 6) n)).
    by rewrite <-E, take_drop.
  - intros n flags mode [e [t k]] _ _. unfold wp. cbn. unfold demo_open. cbn [world errno].
    destruct (decide (n ∈ files t)) as [Hin|Hin].
    { right. split; [done|]. split; [done|]. by left. }
    destruct k as [|k].
    + left. do 2 (split; [done|]). cbn. split; [set_solver|]. split; [set_solver|]. done.
    + right. split; [done|]. split; [split; [cbn; set_solver|done]|]. left. split; [done|].
      split; [cbn; set_solver|done].
Qed.

(** The file ["d/tXXXXXX"]: the first name is there, somebody else is faster with
    the second, and the third is had. *)
Definition demo_template : name := [100; 47; 116] ++ XXXXXX.
Definition demo_name (c : Z) : name := [100; 47; 116; c; 48; 48; 48; 48; 49].
Definition demo_dir : sys tmp := Sys EINTR (TmpDir {[demo_name 97]} [] None, 1%nat).

Lemma mkstemp_makes_file_witness :
  is_name demo_template ∧
  ∃ r s', mkstemp (demo_template ++ [0; 7]) demo_dir = Some (r, s') ∧
    TempResult [100; 47; 116] [7] demo_dir r s' ∧ r = (3, demo_name 99 ++ [0; 7]).
Proof.
  assert (Hn : is_name demo_template) by exact (bool_decide_unpack (0 ∉ demo_template) I).
  split; [exact Hn|].
  destruct (mkstemp_makes_file tmp demo_template [7] demo_dir Hn) as (r & s' & E & HR & _).
  exists r, s'. split; [exact E|]. split; [exact (HR _ eq_refl)|].
  assert (Hv : match mkstemp (demo_template ++ [0; 7]) demo_dir with
    | Some (r, _) => r = (3, demo_name 99 ++ [0; 7]) | None => False end) by (by vm_compute).
  by rewrite E in Hv.
Defined.
