(* ===== verification/Times.v ===== *)
(** Times: the differences of [include/compat/sys/time.h] and
    [include/compat/time.h], and the clock of
    [apps/openssl/compat/clock_gettime_osx.c]. *)
From Stdlib Require Import ZArith Lia SpecFloat.
From stdpp Require Import prelude gmap.
From S2P Require Import Prelude CInt.

Local Open Scope Z_scope.

(** ** Differences *)

(** [struct timeval] or [struct timespec], and the memory of them. *)
Record time := Time { tv_sec : Z; tv_frac : Z }.
Abbreviation times := (gmap positive time).

(** A [long] has [w] bits; a difference or sum outside has no meaning. *)
Definition is_long (w z : Z) : bool := (- 2 ^ (w - 1) <=? z) && (z <? 2 ^ (w - 1)).
Definition in_long (w z : Z) : ST times Z := of_option (if is_long w z then Some z else None).

Definition load (p : positive) : ST times time := λ s, x ← s !! p; Some (x, s).
Definition set_sec (p : positive) (z : Z) : ST times unit := λ s,
  x ← s !! p; Some (tt, <[p := Time z (tv_frac x)]> s).
Definition set_frac (p : positive) (z : Z) : ST times unit := λ s,
  x ← s !! p; Some (tt, <[p := Time (tv_sec x) z]> s).

(** [*v = *t - *u], where a second has [units]; [v] may be [t] or [u]. *)
Definition sub_into (w units : Z) (t u v : positive) : ST times unit :=
  x ← load t; y ← load u; z ← in_long w (tv_sec x - tv_sec y); set_sec v z;;
  x ← load t; y ← load u; z ← in_long w (tv_frac x - tv_frac y); set_frac v z;;
  r ← load v;
  if tv_frac r <? 0 then
    z ← in_long w (tv_sec r - 1); set_sec v z;;
    r ← load v; z ← in_long w (tv_frac r + units); set_frac v z
  else mret tt.

Definition timersub (w : Z) : positive → positive → positive → ST times unit := sub_into w 1000000.
Definition timespecsub (w : Z) : positive → positive → positive → ST times unit :=
  sub_into w 1000000000.

(** ** The clock of macOS *)

(** A [double], as IEEE 754 has it. *)
Abbreviation double := spec_float.
Definition double_of (z : Z) : double := binary_normalize 53 1024 z 0 false.
Definition dmul (x y : double) : double := SFmul 53 1024 x y.
Definition ddiv (x y : double) : double := SFdiv 53 1024 x y.
Definition dsub (x y : double) : double := SFsub 53 1024 x y.

(** The conversion to a [long] of 64 bits: towards zero, and without meaning
    outside. *)
Definition trunc (x : double) : option Z :=
  match x with
  | S754_zero _ => Some 0
  | S754_finite s m e =>
      let a := Z.shiftl (Z.pos m) e in
      let z := if s : bool then - a else a in
      if is_long 64 z then Some z else None
  | _ => None
  end.

(** The double nearest to 1e-9. *)
Definition ORWL_NANO : double := ddiv (double_of 1) (double_of 1000000000).
Definition ORWL_GIGA : Z := 1000000000.

(** [mach_timebase_info], by the fraction it gives; and what [mach_absolute_time]
    returns, first for [orwl_timestart] if that is 0, then for the difference. *)
Record mach := Mach { numer : Z; denom : Z; absolute1 : Z; absolute2 : Z }.

(** The state is [orwl_timebase] and [orwl_timestart]; the result is what
    [clock_gettime] puts into [*tp]. *)
Definition clock_gettime (k : mach) : ST (double * Z) time := λ s,
  let s := if s.2 =? 0 then (ddiv (double_of (numer k)) (double_of (denom k)), u64 (absolute1 k)) else s in
  let diff := dmul (double_of (u64 (absolute2 k - s.2))) s.1 in
  sec ← trunc (dmul diff ORWL_NANO);
  nsec ← trunc (dsub diff (double_of (u64 (sec * ORWL_GIGA))));
  Some (Time sec nsec, s).
