(* ===== verification/TimesProperties.v ===== *)
(** Properties of times. *)
From Stdlib Require Import ZArith Lia SpecFloat.
From stdpp Require Import prelude gmap.
From S2P Require Import Prelude CInt Times.

Local Open Scope Z_scope.

Section differences.
Context (w units : Z) (Hunits : 0 < units <= 2 ^ (w - 1)).
Implicit Types (s : times) (t u v : positive) (x y : time).

(** A time whose fraction is less than a second, and what it is in units. *)
Definition normal x : Prop := 0 <= tv_frac x < units.
Definition value x : Z := tv_sec x * units + tv_frac x.

(** The difference, and when its seconds fit. *)
Definition difference x y : time :=
  if tv_frac x <? tv_frac y
  then Time (tv_sec x - tv_sec y - 1) (tv_frac x - tv_frac y + units)
  else Time (tv_sec x - tv_sec y) (tv_frac x - tv_frac y).

Definition fits x y : bool :=
  is_long w (tv_sec x - tv_sec y) && is_long w (tv_sec (difference x y)).

Lemma difference_spec x y :
  normal x → normal y → normal (difference x y) ∧ value (difference x y) = value x - value y.
Proof.
  unfold normal, difference, value. intros Hx Hy.
  destruct (Z.ltb_spec (tv_frac x) (tv_frac y)); cbn; lia.
Qed.

Lemma frac_fits z : - units < z < units → is_long w z = true.
Proof. intros Hz. unfold is_long. apply andb_true_iff. lia. Qed.

(** One of the two halves of the subtraction, when [v] may be [t] or [u]. *)
Lemma load_run s p x : s !! p = Some x → load p s = Some (x, s).
Proof. unfold load. by intros ->. Qed.

Lemma set_sec_run s p x z : s !! p = Some x → set_sec p z s = Some (tt, <[p := Time z (tv_frac x)]> s).
Proof. unfold set_sec. by intros ->. Qed.

Lemma set_frac_run s p x z : s !! p = Some x → set_frac p z s = Some (tt, <[p := Time (tv_sec x) z]> s).
Proof. unfold set_frac. by intros ->. Qed.

Lemma in_long_run z s : is_long w z = true → in_long w z s = Some (z, s).
Proof. unfold in_long. by intros ->. Qed.

(** The fraction of an operand is there though the seconds have been written. *)
Lemma frac_kept s p v x z d :
  s !! p = Some x → s !! v = Some z →
  ∃ x', <[v := Time d (tv_frac z)]> s !! p = Some x' ∧ tv_frac x' = tv_frac x.
Proof.
  intros Hp Hv. destruct (decide (v = p)) as [->|Hne].
  - exists (Time d (tv_frac z)). rewrite lookup_insert_eq. split; [done|]. cbn. congruence.
  - exists x. by rewrite lookup_insert_ne.
Qed.

Lemma sub_into_run s t u v x y z :
  s !! t = Some x → s !! u = Some y → s !! v = Some z → normal x → normal y →
  sub_into w units t u v s =
    if fits x y then Some (tt, <[v := difference x y]> s) else None.
Proof.
  intros Ht Hu Hv Hx Hy. unfold normal in *. unfold sub_into, fits, difference.
  rewrite (bind_run _ _ _ _ _ (load_run _ _ _ Ht)), (bind_run _ _ _ _ _ (load_run _ _ _ Hu)).
  destruct (is_long w (tv_sec x - tv_sec y)) eqn:Ed; [|unfold in_long; by rewrite Ed].
  rewrite (bind_run _ _ _ _ _ (in_long_run _ _ Ed)), (bind_run _ _ _ _ _ (set_sec_run _ _ _ _ Hv)).
  set (d := tv_sec x - tv_sec y) in *. set (s1 := <[v := _]> s).
  destruct (frac_kept s t v x z d Ht Hv) as (x' & Hx' & Ex).
  destruct (frac_kept s u v y z d Hu Hv) as (y' & Hy' & Ey).
  rewrite (bind_run _ _ _ _ _ (load_run _ _ _ Hx')), (bind_run _ _ _ _ _ (load_run _ _ _ Hy')), Ex, Ey.
  assert (Ef : is_long w (tv_frac x - tv_frac y) = true) by (apply frac_fits; lia).
  rewrite (bind_run _ _ _ _ _ (in_long_run _ _ Ef)).
  assert (Hv1 : s1 !! v = Some (Time d (tv_frac z))) by apply lookup_insert_eq.
  rewrite (bind_run _ _ _ _ _ (set_frac_run _ _ _ _ Hv1)). unfold s1. rewrite insert_insert_eq. cbn [tv_sec].
  set (s2 := <[v := _]> s). assert (Hv2 : s2 !! v = Some (Time d (tv_frac x - tv_frac y))) by apply lookup_insert_eq.
  rewrite (bind_run _ _ _ _ _ (load_run _ _ _ Hv2)). cbn [tv_sec tv_frac andb].
  destruct (Z.ltb_spec (tv_frac x) (tv_frac y)).
  - rewrite (proj2 (Z.ltb_lt _ _)) by lia. cbn [tv_sec].
    destruct (is_long w (d - 1)) eqn:Ed1; [|unfold in_long; by rewrite Ed1].
    rewrite (bind_run _ _ _ _ _ (in_long_run _ _ Ed1)), (bind_run _ _ _ _ _ (set_sec_run _ _ _ _ Hv2)).
    cbn [tv_frac]. unfold s2. rewrite insert_insert_eq. set (s3 := <[v := _]> s).
    assert (Hv3 : s3 !! v = Some (Time (d - 1) (tv_frac x - tv_frac y))) by apply lookup_insert_eq.
    rewrite (bind_run _ _ _ _ _ (load_run _ _ _ Hv3)). cbn [tv_frac].
    assert (Ef2 : is_long w (tv_frac x - tv_frac y + units) = true) by (apply frac_fits; lia).
    rewrite (bind_run _ _ _ _ _ (in_long_run _ _ Ef2)), (set_frac_run _ _ _ _ Hv3).
    unfold s3. by rewrite insert_insert_eq.
  - rewrite (proj2 (Z.ltb_ge _ _)) by lia. cbn [tv_sec]. by rewrite Ed.
Qed.
End differences.

(** C39: [timersub] and [timespecsub] of times whose fraction is less than a second
    give one again, and exactly the difference, also into one of the operands,
    and write nothing else.  The only differences they cannot form are those
    whose seconds, or the seconds before the borrow, do not fit a [long]. *)
Theorem time_differences_correct w (s : times) t u v x y :
  31 <= w → s !! t = Some x → s !! u = Some y → is_Some (s !! v) →
  (normal 1000000 x → normal 1000000 y →
   let d := difference 1000000 x y in
   timersub w t u v s = (if fits w 1000000 x y then Some (tt, <[v := d]> s) else None) ∧
   normal 1000000 d ∧ value 1000000 d = value 1000000 x - value 1000000 y) ∧
  (normal 1000000000 x → normal 1000000000 y →
   let d := difference 1000000000 x y in
   timespecsub w t u v s = (if fits w 1000000000 x y then Some (tt, <[v := d]> s) else None) ∧
   normal 1000000000 d ∧ value 1000000000 d = value 1000000000 x - value 1000000000 y).
Proof.
  intros Hw Ht Hu [z Hv]. assert (Hp : 2 ^ 30 <= 2 ^ (w - 1)) by (apply Z.pow_le_mono_r; lia).
  change (2 ^ 30) with 1073741824 in Hp. split; intros Hx Hy d.
  - split; [|by apply difference_spec]. apply (sub_into_run w 1000000 ltac:(lia) s t u v x y z); done.
  - split; [|by apply difference_spec]. apply (sub_into_run w 1000000000 ltac:(lia) s t u v x y z); done.
Qed.

(** A difference into its second operand. *)
Definition demo_times : times :=
  list_to_map [(1%positive, Time 5 100); (2%positive, Time 2 999999)].

Lemma time_differences_correct_witness :
  normal 1000000 (Time 5 100) ∧ normal 1000000 (Time 2 999999) ∧
  timersub 32 1 2 2 demo_times = Some (tt, <[2%positive := Time 2 101]> demo_times).
Proof.
  assert (Hx : normal 1000000 (Time 5 100)) by (unfold normal; cbn; lia).
  assert (Hy : normal 1000000 (Time 2 999999)) by (unfold normal; cbn; lia).
  split; [exact Hx|]. split; [exact Hy|].
  destruct (time_differences_correct 32 demo_times 1 2 2 (Time 5 100) (Time 2 999999)) as [HM _];
    [lia|done|done|by eexists|]. exact (proj1 (HM Hx Hy)).
Defined.

(** ** The clock *)

(** The first call, at the time it takes as the start. *)
Lemma clock_starts_at_zero :
  clock_gettime (Mach 125 3 1000 1000) (S754_zero false, 0) =
  Some (Time 0 0, (ddiv (double_of 125) (double_of 3), 1000)).
Proof. by vm_compute. Qed.

(** A microsecond before the end of the second second, in ticks of 125/3 ns. *)
Lemma clock_goes_on :
  clock_gettime (Mach 125 3 0 (1000 + 2 * 24000000 - 24)) (ddiv (double_of 125) (double_of 3), 1000) =
  Some (Time 1 999999000, (ddiv (double_of 125) (double_of 3), 1000)).
Proof. by vm_compute. Qed.

(** After 97 days, a nanosecond before a full second, the product with
    [ORWL_NANO] is rounded up to that second and [tv_nsec] is negative. *)
Lemma clock_negative_nsec :
  clock_gettime (Mach 1 1 0 (1000 + 8388609 * 1000000000 - 1)) (double_of 1, 1000) =
  Some (Time 8388609 (-1), (double_of 1, 1000)).
Proof. by vm_compute. Qed.
