(* ===== verification/Doubles.v ===== *)
(** The doubles of [Times], as rational numbers: what the operations of
    [SpecFloat] round to, for the numbers of full precision. *)
From Stdlib Require Import ZArith Lia SpecFloat QArith Qpower Qabs Qround Lqa.
From stdpp Require Import prelude.
From S2P Require Import Prelude CInt Times.

Local Open Scope Z_scope.

(** ** Rounding a fraction *)

(** [l] is where [rem / d] is between 0 and 1. *)
Definition located (rem d : Z) (l : location) : Prop :=
  0 <= rem < d ∧
  match l with
  | loc_Exact => rem = 0
  | loc_Inexact Lt => 0 < rem ∧ 2 * rem < d
  | loc_Inexact Eq => 2 * rem = d
  | loc_Inexact Gt => d < 2 * rem
  end.

(** [a / d] is the mantissa of [x], with the bits that were shifted out. *)
Definition shifted (a d : Z) (x : shr_record) : Prop :=
  0 <= shr_m x ∧ located (a - shr_m x * d) d (loc_of_shr_record x).

Lemma shr_1_shifted a d x : shifted a d x → shifted a (2 * d) (shr_1 x).
Proof.
  destruct x as [m r s]. unfold shifted, located. cbn [shr_m]. intros [Hm H].
  destruct m as [|[p|p|]|p]; [| | | |lia]; destruct r, s; cbn in *; lia.
Qed.

Lemma iter_shifted p : ∀ a d x,
  shifted a d x → shifted a (2 ^ Z.pos p * d) (SpecFloat.iter_pos shr_1 p x).
Proof.
  induction p as [p IH|p IH|]; intros a d x Hx; cbn [SpecFloat.iter_pos].
  - replace (2 ^ Z.pos p~1 * d) with (2 ^ Z.pos p * (2 ^ Z.pos p * (2 * d))).
    2: { rewrite (Pos2Z.inj_xI p), Z.pow_add_r, Z.pow_twice_r by lia. ring. }
    by apply IH, IH, shr_1_shifted.
  - replace (2 ^ Z.pos p~0 * d) with (2 ^ Z.pos p * (2 ^ Z.pos p * d)).
    2: { rewrite (Pos2Z.inj_xO p), Z.pow_twice_r. ring. }
    by apply IH, IH.
  - by apply shr_1_shifted.
Qed.

Lemma digits_spec p : 2 ^ (Z.pos (digits2_pos p) - 1) <= Z.pos p < 2 ^ Z.pos (digits2_pos p).
Proof.
  induction p as [p IH|p IH|]; cbn [digits2_pos]; [| |by cbn];
    rewrite Pos2Z.inj_succ;
    replace (Z.succ (Z.pos (digits2_pos p)) - 1) with (Z.succ (Z.pos (digits2_pos p) - 1)) by lia;
    rewrite !Z.pow_succ_r by lia; lia.
Qed.

Lemma digits_unique p k : 0 <= k → 2 ^ k <= Z.pos p < 2 ^ (k + 1) → Z.pos (digits2_pos p) = k + 1.
Proof.
  intros Hk Hp. pose proof (digits_spec p) as Hd. set (d := Z.pos (digits2_pos p)) in *.
  assert (Hd0 : 0 < d) by lia.
  assert (k < d) by (apply (Z.pow_lt_mono_r_iff 2); lia).
  assert (d - 1 < k + 1) by (apply (Z.pow_lt_mono_r_iff 2); lia). lia.
Qed.

(** The exponents that are used are far from the ends of the range. *)
Definition usual (e : Z) : Prop := -900 <= e <= 900.

Lemma fexp_usual x : usual (x - 53) → fexp 53 1024 x = x - 53.
Proof. unfold usual, fexp, emin. lia. Qed.

(** To the nearest, and to the even one of two. *)
Lemma nearest_spec a d x :
  shifted a d x → let m := round_nearest_even (shr_m x) (loc_of_shr_record x) in
  2 * Z.abs (m * d - a) <= d ∧ shr_m x <= m <= shr_m x + 1.
Proof.
  intros [_ [Hr Hl]]. cbn zeta. unfold round_nearest_even.
  destruct (loc_of_shr_record x) as [|[]]; [| |lia|lia]; [lia|]. destruct (Z.even _); lia.
Qed.

(** A mantissa of at least 53 bits, of a value [a / b] times [2 ^ e]. *)
Definition rounds (a b e : Z) (m' : positive) (e' : Z) : Prop :=
  2 ^ 52 <= Z.pos m' < 2 ^ 53 ∧ e <= e' ∧
  (2 * Z.abs (Z.pos m' * (2 ^ (e' - e) * b) - a) <= 2 ^ (e' - e) * b) ∧
  (∀ c, c * (2 ^ (e' - e) * b) <= a → c <= Z.pos m').

Lemma shr_fexp_spec a b m e l k :
  0 < b → 0 <= k → usual e → usual (e + k) →
  2 ^ (52 + k) <= m < 2 ^ (53 + k) → shr_m (shr_record_of_loc m l) = m →
  located (a - m * b) b l →
  ∃ x, shr_fexp 53 1024 m e l = (x, e + k) ∧ shifted a (2 ^ k * b) x.
Proof.
  intros Hb Hk He Hek Hm Hr Hl. destruct m as [|m|m]; [pose proof (Z.pow_pos_nonneg 2 (52 + k)); lia| |lia].
  unfold shr_fexp, Zdigits2.
  rewrite (digits_unique m (52 + k)) by (rewrite ?(Z.add_comm _ 1), ?Z.add_assoc; done || lia).
  rewrite fexp_usual by (unfold usual in *; lia). replace (52 + k + 1 + e - 53 - e) with k by lia.
  assert (Hs : shifted a b (shr_record_of_loc (Z.pos m) l)) by (destruct l as [|[]]; by split).
  destruct k as [|k|k]; [|by eexists; split; [|apply iter_shifted]|lia].
  exists (shr_record_of_loc (Z.pos m) l). cbn [shr]. rewrite Z.add_0_r. split; [done|].
  by rewrite Z.pow_0_r, Z.mul_1_l.
Qed.

(** The rest of the rounding, when the mantissa may have become a bit too long. *)
Lemma renormalize m e :
  usual e → usual (e + 1) → 2 ^ 52 <= m <= 2 ^ 53 →
  ∃ x k, shr_fexp 53 1024 m e loc_Exact = (x, e + k) ∧ 0 <= k <= 1 ∧
    shr_m x * 2 ^ k = m ∧ 2 ^ 52 <= shr_m x < 2 ^ 53.
Proof.
  intros He He1 Hm. destruct (decide (m = 2 ^ 53)) as [->|Hne].
  - destruct (shr_fexp_spec (2 ^ 53) 1 (2 ^ 53) e loc_Exact 1) as (x & Hx & Hs); try done; try lia.
    exists x, 1. split; [done|]. destruct Hs as [_ [Hr _]]. lia.
  - destruct (shr_fexp_spec m 1 m e loc_Exact 0) as (x & Hx & Hs); try done; try lia.
    { by rewrite Z.add_0_r. }
    { unfold located. lia. }
    exists x, 0. split; [done|]. destruct Hs as [_ [Hr _]]. lia.
Qed.

Lemma round_aux_spec s a b m e l k :
  0 < b → 0 <= k → usual e → usual (e + k) → usual (e + k + 1) →
  2 ^ (52 + k) <= m < 2 ^ (53 + k) → shr_m (shr_record_of_loc m l) = m →
  located (a - m * b) b l →
  ∃ m' e', binary_round_aux 53 1024 s m e l = S754_finite s m' e' ∧ rounds a b e m' e' ∧
    e + k <= e' <= e + k + 1.
Proof.
  intros Hb Hk He Hek Hek1 Hm Hr Hl.
  destruct (shr_fexp_spec a b m e l k) as (x & Hx & Hs); [done..|].
  unfold binary_round_aux. rewrite Hx.
  destruct (nearest_spec _ _ _ Hs) as [Hn Hn1]. set (m1 := round_nearest_even _ _) in *.
  assert (HK : 0 < 2 ^ k) by (apply Z.pow_pos_nonneg; lia).
  assert (Hq : 2 ^ 52 <= shr_m x < 2 ^ 53).
  { rewrite !Z.pow_add_r in Hm by lia. destruct Hs as [_ [Hd _]], Hl as [Hl _].
    set (K := 2 ^ k) in *. set (C := 2 ^ 52) in *. replace (2 ^ 53) with (2 * C) in * by done.
    assert (HB : 0 < K * b) by nia. assert (H1 : C * (K * b) <= a) by nia.
    assert (H2 : a < 2 * C * (K * b)) by nia. clearbody C K. set (B := K * b) in *. clearbody B.
    split; [apply Z.lt_succ_r|]; apply (Z.mul_lt_mono_pos_r B); lia. }
  destruct (renormalize m1 (e + k)) as (y & j & Hy & Hj & Hjm & Hb'); [done..|lia|].
  rewrite Hy. destruct (shr_m y) as [|m'|] eqn:Ey; [lia| |lia].
  rewrite (proj2 (Z.leb_le _ _)) by (unfold usual in *; lia).
  exists m', (e + k + j). split; [done|]. split; [|lia].
  unfold rounds.
  replace (2 ^ (e + k + j - e)) with (2 ^ k * 2 ^ j).
  2: { rewrite <-Z.pow_add_r by lia. f_equal. lia. }
  replace (2 ^ k * 2 ^ j * b) with (2 ^ j * (2 ^ k * b)) by ring.
  destruct Hs as [_ [Hd _]]. assert (HB : 0 < 2 ^ k * b) by nia. set (B := 2 ^ k * b) in *. clearbody B.
  split; [done|]. split; [lia|]. rewrite (Z.mul_assoc (Z.pos m')), Hjm. split.
  - assert (1 <= 2 ^ j) by (apply (Z.pow_le_mono_r 2 0 j); lia). nia.
  - intros c Hc. assert (Hc1 : c * 2 ^ j < shr_m x + 1) by (apply (Z.mul_lt_mono_pos_r B); lia).
    assert (Hcj : j = 0 ∨ j = 1) by lia. destruct Hcj as [-> | ->]; lia.
Qed.

(** ** As rational numbers *)

Definition pow2 (e : Z) : Q := Qpower 2 e.

Lemma pow2_add a b : (pow2 (a + b) == pow2 a * pow2 b)%Q.
Proof. by apply Qpower_plus. Qed.

Lemma pow2_pos e : (0 < pow2 e)%Q.
Proof. by apply Qpower_0_lt. Qed.

Lemma pow2_Z e : 0 <= e → (pow2 e == inject_Z (2 ^ e))%Q.
Proof. intros He. unfold pow2. by rewrite Zpower_Qpower. Qed.

Lemma pow2_mono a b : a <= b → (pow2 a <= pow2 b)%Q.
Proof. intros H. by apply Qpower_le_compat_l. Qed.

Lemma pow2_lt_inv a b : (pow2 a < pow2 b)%Q → a < b.
Proof. intros H. by apply (Qpower_lt_compat_l_inv 2). Qed.

(** The number a double is. *)
Definition num (x : double) : Q :=
  match x with
  | S754_finite s m e => ((if s : bool then -1 else 1) * inject_Z (Z.pos m) * pow2 e)%Q
  | _ => 0%Q
  end.

(** A positive one of full precision, with its exponent. *)
Definition full (x : double) (e : Z) : Prop :=
  ∃ m, x = S754_finite false m e ∧ 2 ^ 52 <= Z.pos m < 2 ^ 53.

Lemma full_bounds x e : full x e → (pow2 (e + 52) <= num x < pow2 (e + 53))%Q.
Proof.
  intros (m & -> & [H1 H2]). cbn [num]. rewrite !pow2_add, (pow2_Z 52), (pow2_Z 53) by lia.
  rewrite Zle_Qle in H1. rewrite Zlt_Qlt in H2. pose proof (pow2_pos e). split; nra.
Qed.

Lemma full_below x e k : full x e → (num x < pow2 k)%Q → e + 52 < k.
Proof. intros H%full_bounds Hx. apply pow2_lt_inv. lra. Qed.

Lemma full_above x e k : full x e → (pow2 k <= num x)%Q → k < e + 53.
Proof. intros H%full_bounds Hx. apply pow2_lt_inv. lra. Qed.

(** What a rounded result has to do with the exact one [v]. *)
Definition near (x : double) (e : Z) (v : Q) : Prop :=
  full x e ∧ (Qabs (num x - v) <= pow2 (e - 1))%Q ∧
  (∀ c : Z, e <= 0 → (inject_Z c <= v)%Q → (inject_Z c <= num x)%Q).

Lemma rounds_near a b e m' e' :
  0 < b → rounds a b e m' e' →
  near (S754_finite false m' e') e' (inject_Z a / inject_Z b * pow2 e).
Proof.
  intros Hb (Hm & He & Habs & Hc). split; [by exists m'|]. cbn [num].
  assert (HB : (0 < inject_Z b)%Q) by (change 0%Q with (inject_Z 0); by rewrite <-Zlt_Qlt).
  pose proof (pow2_pos e) as HE.
  assert (Ee : (pow2 e' == inject_Z (2 ^ (e' - e)) * pow2 e)%Q).
  { rewrite <-pow2_Z, <-pow2_add by lia. f_equiv. lia. }
  set (K := 2 ^ (e' - e)) in *.
  assert (Ev : (1 * inject_Z (Z.pos m') * pow2 e' - inject_Z a / inject_Z b * pow2 e ==
    inject_Z (Z.pos m' * (K * b) - a) * (pow2 e / inject_Z b))%Q).
  { rewrite Ee. unfold Z.sub. rewrite inject_Z_plus, inject_Z_opp, !inject_Z_mult. field. lra. }
  assert (HP : (0 < pow2 e / inject_Z b)%Q) by (apply Qlt_shift_div_l; lra).
  split.
  - rewrite Ev, Qabs_Qmult, (Qabs_pos (pow2 e / _)) by lra.
    assert (E1 : (pow2 (e' - 1) == inject_Z (K * b) / 2 * (pow2 e / inject_Z b))%Q).
    { unfold Z.sub at 1. rewrite pow2_add, Ee, inject_Z_mult. change (pow2 (- (1))) with (1 # 2)%Q. field. lra. }
    rewrite E1. apply Qmult_le_compat_r; [|lra]. apply Qle_shift_div_l; [lra|].
    set (X := Z.pos m' * (K * b) - a) in *.
    change (inject_Z (Z.abs X) * inject_Z 2 <= inject_Z (K * b))%Q.
    rewrite <-inject_Z_mult, <-Zle_Qle. lia.
  - intros c He0 Hcv. set (J := 2 ^ (- e')).
    assert (HJ : (inject_Z J * pow2 e' == 1)%Q).
    { unfold J. rewrite <-pow2_Z, <-pow2_add by lia. rewrite Z.add_opp_diag_l. done. }
    assert (Hm' : c * J <= Z.pos m').
    { apply Hc. rewrite Zle_Qle. rewrite !inject_Z_mult.
      assert (E2 : (inject_Z a == inject_Z a / inject_Z b * pow2 e * (inject_Z b / pow2 e))%Q) by (field; lra).
      rewrite E2. assert (E3 : (inject_Z c * inject_Z J * (inject_Z K * inject_Z b) ==
        inject_Z c * (inject_Z b / pow2 e))%Q).
      { transitivity (inject_Z c * (inject_Z J * pow2 e') * (inject_Z b / pow2 e))%Q; [|by rewrite HJ; ring].
        rewrite Ee. field. lra. }
      rewrite E3. apply Qmult_le_compat_r; [done|]. apply Qlt_le_weak, Qlt_shift_div_l; lra. }
    rewrite Zle_Qle, inject_Z_mult in Hm'. pose proof (pow2_pos e').
    assert (inject_Z c == inject_Z c * inject_Z J * pow2 e')%Q by (rewrite <-Qmult_assoc, HJ; ring).
    nra.
Qed.

(** ** Exact results *)

Lemma round_aux_exact s m e :
  usual e → usual (e + 1) → 2 ^ 52 <= Z.pos m < 2 ^ 53 →
  binary_round_aux 53 1024 s (Z.pos m) e loc_Exact = S754_finite s m e.
Proof.
  intros He He1 Hm. unfold binary_round_aux.
  destruct (shr_fexp_spec (Z.pos m) 1 (Z.pos m) e loc_Exact 0) as (x & Hx & Hs);
    [done|done|done|by rewrite Z.add_0_r|by rewrite !Z.add_0_r|done|unfold located; lia|].
  rewrite Hx. destruct (nearest_spec _ _ _ Hs) as [Hn _]. set (m1 := round_nearest_even _ _) in *.
  assert (m1 = Z.pos m) as -> by (rewrite Z.pow_0_r in Hn; lia). rewrite Z.add_0_r.
  destruct (renormalize (Z.pos m) e) as (y & j & Hy & Hj & Hjm & Hb); [done|done|lia|].
  rewrite Hy. assert (Hcj : j = 0 ∨ j = 1) by lia. destruct Hcj as [-> | ->]; [|lia].
  rewrite Z.pow_0_r, Z.mul_1_r in Hjm. rewrite Hjm, Z.add_0_r.
  by rewrite (proj2 (Z.leb_le _ _)) by (unfold usual in *; lia).
Qed.

Lemma iter_xO m d : Z.pos (Pos.iter xO m d) = Z.pos m * 2 ^ Z.pos d.
Proof.
  induction d as [|d IH] using Pos.peano_ind; [cbn; lia|].
  rewrite Pos.iter_succ, Pos2Z.inj_succ, Z.pow_succ_r by lia. cbn. lia.
Qed.

Lemma shl_align_spec m e e' : e' <= e → ∃ m', shl_align m e e' = (m', e') ∧ Z.pos m' = Z.pos m * 2 ^ (e - e').
Proof.
  intros He. unfold shl_align. destruct (e' - e) as [|p|p] eqn:E; [|lia|].
  - exists m. replace e' with e by lia. by rewrite Z.sub_diag, Z.mul_1_r.
  - exists (Pos.iter xO m p). split; [done|]. rewrite iter_xO. repeat f_equal. lia.
Qed.

Definition finite (x : double) : Prop :=
  match x with S754_zero _ | S754_finite _ _ _ => True | _ => False end.

(** An integer of at most 53 bits, times a power of 2. *)
Lemma round_exact s m e :
  -400 <= e <= 400 → Z.pos m < 2 ^ 53 →
  ∃ m' e', binary_round 53 1024 s m e = S754_finite s m' e' ∧ 2 ^ 52 <= Z.pos m' < 2 ^ 53 ∧
    e - 52 <= e' <= e ∧ Z.pos m' = Z.pos m * 2 ^ (e - e').
Proof.
  intros He Hm. pose proof (digits_spec m) as Hd. set (d := Z.pos (digits2_pos m)) in *.
  assert (Hd53 : d - 1 < 53) by (apply (Z.pow_lt_mono_r_iff 2); lia).
  unfold binary_round. fold d. rewrite fexp_usual by (unfold usual; lia).
  destruct (shl_align_spec m e (d + e - 53)) as (m' & Ha & Hm'); [lia|]. rewrite Ha.
  exists m', (d + e - 53). replace (e - (d + e - 53)) with (53 - d) in * by lia.
  assert (Hb : 2 ^ 52 <= Z.pos m' < 2 ^ 53).
  { rewrite Hm'. replace (2 ^ 52) with (2 ^ (d - 1) * 2 ^ (53 - d)) by (rewrite <-Z.pow_add_r by lia; f_equal; lia).
    replace (2 ^ 53) with (2 ^ d * 2 ^ (53 - d)) by (rewrite <-Z.pow_add_r by lia; f_equal; lia).
    assert (0 < 2 ^ (53 - d)) by (apply Z.pow_pos_nonneg; lia).
    split; [apply Z.mul_le_mono_nonneg_r|apply Z.mul_lt_mono_pos_r]; lia. }
  rewrite round_aux_exact; [|unfold usual; lia|unfold usual; lia|done].
  split; [done|]. split; [done|]. split; [lia|done].
Qed.

Lemma normalize_exact z e :
  -400 <= e <= 400 → Z.abs z < 2 ^ 53 →
  let x := binary_normalize 53 1024 z e false in finite x ∧ (num x == inject_Z z * pow2 e)%Q.
Proof.
  intros He Hz. destruct z as [|m|m]; cbn [binary_normalize].
  - split; [done|]. cbn. ring.
  - destruct (round_exact false m e) as (m' & e' & -> & _ & He' & Hm); [done|lia|].
    split; [done|]. cbn [num]. rewrite Hm, inject_Z_mult, <-pow2_Z by lia.
    replace e with (e - e' + e') at 2 by lia. rewrite pow2_add. ring.
  - destruct (round_exact true m e) as (m' & e' & -> & _ & He' & Hm); [done|lia|].
    split; [done|]. cbn [num]. rewrite Hm, inject_Z_mult, <-pow2_Z by lia.
    replace e with (e - e' + e') at 2 by lia. rewrite pow2_add.
    change (Z.neg m) with (- Z.pos m). rewrite inject_Z_opp. ring.
Qed.

Lemma double_of_exact z :
  0 < z < 2 ^ 53 → ∃ e, full (double_of z) e ∧ -52 <= e <= 0 ∧ (num (double_of z) == inject_Z z)%Q.
Proof.
  intros Hz. destruct z as [|m|]; [lia| |lia].
  destruct (normalize_exact (Z.pos m) 0) as [_ Hn]; [lia|lia|]. cbn zeta in Hn.
  unfold double_of. cbn [binary_normalize] in *.
  destruct (round_exact false m 0) as (m' & e' & E & Hm' & He & _); [lia|lia|].
  exists e'. rewrite E in *. split; [by exists m'|]. split; [lia|]. rewrite Hn. cbn. ring.
Qed.

(** ** Operations *)

Lemma dmul_near x y ex ey :
  full x ex → full y ey → -400 <= ex <= 400 → -400 <= ey <= 400 →
  ∃ e, near (dmul x y) e (num x * num y) ∧ ex + ey + 52 <= e <= ex + ey + 54.
Proof.
  intros (mx & -> & Hx) (my & -> & Hy) Hex Hey. unfold dmul, SFmul. cbn [xorb].
  pose proof (digits_spec (mx * my)) as Hd. set (d := Z.pos (digits2_pos (mx * my))) in *.
  assert (Hp : 2 ^ 52 * 2 ^ 52 <= Z.pos (mx * my) < 2 ^ 53 * 2 ^ 53).
  { rewrite Pos2Z.inj_mul. split; [apply Z.mul_le_mono_nonneg|apply Z.mul_lt_mono_nonneg]; lia. }
  assert (d - 1 < 106) by (apply (Z.pow_lt_mono_r_iff 2); lia).
  assert (104 < d) by (apply (Z.pow_lt_mono_r_iff 2); lia).
  destruct (round_aux_spec false (Z.pos (mx * my)) 1 (Z.pos (mx * my)) (ex + ey) loc_Exact (d - 53))
    as (m' & e' & -> & Hr & He); try (unfold usual; lia); try done.
  { replace (52 + (d - 53)) with (d - 1) by lia. by replace (53 + (d - 53)) with d by lia. }
  { unfold located. lia. }
  exists e'. split; [|lia].
  destruct (rounds_near _ 1 _ _ _ ltac:(done) Hr) as (H1 & H2 & H3).
  assert (E : (inject_Z (Z.pos (mx * my)) / inject_Z 1 * pow2 (ex + ey) ==
    num (S754_finite false mx ex) * num (S754_finite false my ey))%Q).
  { cbn [num]. rewrite pow2_add, Pos2Z.inj_mul, inject_Z_mult. field. }
  split; [done|]. split; [by rewrite <-E|]. intros c Hc. rewrite <-E. by apply H3.
Qed.

Lemma dsub_exact x y ex ey :
  full x ex → full y ey → -400 <= ex <= 400 → -400 <= ey <= 400 →
  (Qabs (num x - num y) < pow2 (ex `min` ey + 53))%Q →
  finite (dsub x y) ∧ (num (dsub x y) == num x - num y)%Q.
Proof.
  intros (mx & -> & Hx) (my & -> & Hy) Hex Hey Hs. unfold dsub, SFsub. cbn [cond_Zopp].
  set (ez := ex `min` ey) in *. change (Z.min ex ey) with ez.
  destruct (shl_align_spec mx ex ez) as (ax & -> & Hax); [lia|].
  destruct (shl_align_spec my ey ez) as (ay & -> & Hay); [lia|]. cbn [fst].
  assert (E : (num (S754_finite false mx ex) - num (S754_finite false my ey) ==
    inject_Z (Z.pos ax - Z.pos ay) * pow2 ez)%Q).
  { rewrite Hax, Hay. unfold Z.sub at 1. rewrite inject_Z_plus, inject_Z_opp, !inject_Z_mult, <-!pow2_Z by lia.
    cbn [num]. replace ex with (ex - ez + ez) at 1 by lia. replace ey with (ey - ez + ez) at 1 by lia.
    rewrite !pow2_add. ring. }
  destruct (normalize_exact (Z.pos ax - Z.pos ay) ez) as [Hf Hn]; [lia| |by rewrite E].
  rewrite E, Qabs_Qmult, (Qabs_pos (pow2 ez)), Z.add_comm, pow2_add, (pow2_Z 53) in Hs
    by (try apply Qlt_le_weak, pow2_pos; lia).
  apply Qmult_lt_r in Hs; [|apply pow2_pos]. set (z := Z.pos ax - Z.pos ay) in *.
  change (inject_Z (Z.abs z) < inject_Z (2 ^ 53))%Q in Hs. by rewrite <-Zlt_Qlt in Hs.
Qed.

Lemma new_location_located r d : 0 <= r < d → located r d (new_location d r).
Proof.
  intros Hr. split; [done|]. unfold new_location, new_location_even, new_location_odd.
  destruct (Z.even d) eqn:Ev; cbv beta; destruct (Z.eqb_spec r 0) as [Hz|Hz]; try done.
  - destruct (Z.compare_spec (2 * r) d); lia.
  - assert (2 * r ≠ d). { intros <-. by rewrite Z.even_mul in Ev. }
    destruct (Z.compare_spec (2 * r + 1) d); lia.
Qed.

Lemma ddiv_near x y ex ey :
  full x ex → full y ey → -400 <= ex <= 400 → -400 <= ey <= 400 →
  ∃ e, near (ddiv x y) e (num x / num y) ∧ ex - ey - 53 <= e <= ex - ey - 51.
Proof.
  intros (mx & -> & Hx) (my & -> & Hy) Hex Hey. unfold ddiv, SFdiv, SFdiv_core_binary, Zdigits2. cbn [xorb].
  rewrite (digits_unique mx 52 ltac:(done) Hx), (digits_unique my 52 ltac:(done) Hy).
  rewrite fexp_usual by (unfold usual; lia). rewrite Z.min_l by lia.
  replace (ex - ey - (52 + 1 + ex - (52 + 1 + ey) - 53)) with 53 by lia.
  replace (52 + 1 + ex - (52 + 1 + ey) - 53) with (ex - ey - 53) by lia.
  rewrite Z.shiftl_mul_pow2 by lia. set (a := Z.pos mx * 2 ^ 53).
  pose proof (Z.div_eucl_eq a (Z.pos my) ltac:(lia)) as Heq. pose proof (Z.mod_pos_bound a (Z.pos my) ltac:(lia)) as Hr.
  unfold Z.modulo in Hr. destruct (Z.div_eucl a (Z.pos my)) as [q r].
  set (b := Z.pos my) in *. set (k := if q <? 2 ^ 53 then 0 else 1).
  assert (Hq : 2 ^ 52 <= q < 2 ^ 54).
  { split; [apply Z.lt_succ_r|]; apply (Z.mul_lt_mono_pos_r b); lia. }
  destruct (round_aux_spec false a b q (ex - ey - 53) (new_location b r) k) as (m' & e' & -> & Hrd & He).
  - lia.
  - unfold k. destruct (_ <? _); lia.
  - unfold usual. lia.
  - unfold usual, k. destruct (_ <? _); lia.
  - unfold usual, k. destruct (_ <? _); lia.
  - unfold k. destruct (Z.ltb_spec q (2 ^ 53)); lia.
  - by destruct (new_location b r) as [|[]].
  - replace (a - q * b) with r by lia. by apply new_location_located.
  - exists e'. split; [|unfold k in He; destruct (_ <? _); lia].
    destruct (rounds_near _ b _ _ _ ltac:(lia) Hrd) as (H1 & H2 & H3).
    assert (E : (inject_Z a / inject_Z b * pow2 (ex - ey - 53) ==
      num (S754_finite false mx ex) / num (S754_finite false my ey))%Q).
    { cbn [num]. replace (ex - ey - 53) with (ex + - ey + - (53)) by lia. unfold a. fold b.
      rewrite !pow2_add, inject_Z_mult, <-pow2_Z by lia.
      assert (E1 : (pow2 53 * pow2 (- (53)) == 1)%Q) by (by rewrite <-pow2_add).
      assert (E2 : (pow2 ey * pow2 (- ey) == 1)%Q) by (rewrite <-pow2_add, Z.add_opp_diag_r; done).
      pose proof (pow2_pos ey). assert (0 < inject_Z b)%Q by (change 0%Q with (inject_Z 0); rewrite <-Zlt_Qlt; lia).
      transitivity (inject_Z (Z.pos mx) / inject_Z b * pow2 ex * pow2 (- ey) * (pow2 53 * pow2 (- (53))))%Q; [by field; lra|].
      rewrite E1. transitivity (inject_Z (Z.pos mx) / inject_Z b * pow2 ex / pow2 ey * (pow2 ey * pow2 (- ey)))%Q;
        [by field; lra|]. rewrite E2. field. lra. }
    split; [done|]. split; [by rewrite <-E|]. intros c Hc. rewrite <-E. by apply H3.
Qed.

(** The conversion to an integer. *)
Lemma shiftl_floor m e :
  (inject_Z (Z.shiftl (Z.pos m) e) <= inject_Z (Z.pos m) * pow2 e < inject_Z (Z.shiftl (Z.pos m) e + 1))%Q.
Proof.
  destruct (Z.leb_spec 0 e) as [He|He].
  - rewrite Z.shiftl_mul_pow2, pow2_Z, inject_Z_plus, inject_Z_mult by done. split; [apply Qle_refl|].
    change (inject_Z 1) with 1%Q. lra.
  - rewrite <-(Z.opp_involutive e), Z.shiftl_opp_r, Z.shiftr_div_pow2 by lia.
    set (K := 2 ^ (- e)). assert (HK : 0 < K) by (apply Z.pow_pos_nonneg; lia).
    assert (E : (inject_Z K * pow2 (- - e) == 1)%Q).
    { unfold K. rewrite <-pow2_Z, <-pow2_add by lia. by rewrite Z.add_opp_diag_r. }
    pose proof (Z.div_mod (Z.pos m) K ltac:(lia)) as Hd. pose proof (Z.mod_pos_bound (Z.pos m) K HK) as Hm.
    set (q := Z.pos m / K) in *. pose proof (pow2_pos (- - e)) as HP.
    assert (H1 : q * K <= Z.pos m) by lia. assert (H2 : Z.pos m < (q + 1) * K) by lia.
    rewrite Zle_Qle, inject_Z_mult in H1. rewrite Zlt_Qlt, inject_Z_mult in H2. split.
    + assert (Eq : (inject_Z q == inject_Z q * inject_Z K * pow2 (- - e))%Q) by (rewrite <-Qmult_assoc, E; ring).
      rewrite Eq. apply Qmult_le_compat_r; [done|lra].
    + assert (Eq : (inject_Z (q + 1) == inject_Z (q + 1) * inject_Z K * pow2 (- - e))%Q)
        by (rewrite <-Qmult_assoc, E; ring).
      rewrite Eq. by apply Qmult_lt_r.
Qed.

Lemma trunc_spec x :
  finite x → (Qabs (num x) < inject_Z (2 ^ 60))%Q →
  ∃ z, trunc x = Some z ∧ ((0 <= num x)%Q → (inject_Z z <= num x < inject_Z (z + 1))%Q) ∧
    ((num x <= 0)%Q → (inject_Z (z - 1) < num x <= inject_Z z)%Q).
Proof.
  intros Hf Hx. destruct x as [s| | |s m e]; [|done|done|].
  { exists 0. split; [done|]. split; intros _; split; by vm_compute. }
  cbn [trunc]. set (a := Z.shiftl (Z.pos m) e). pose proof (shiftl_floor m e) as [H1 H2]. fold a in H1, H2.
  assert (Hpos : (0 < inject_Z (Z.pos m) * pow2 e)%Q) by (apply Qmult_lt_0_compat; [done|apply pow2_pos]).
  assert (Ha0 : 0 <= a) by (by apply Z.shiftl_nonneg).
  assert (Ha : a < 2 ^ 60).
  { rewrite Zlt_Qlt. eapply Qle_lt_trans; [exact H1|]. eapply Qle_lt_trans; [|exact Hx].
    cbn [num]. destruct s; [rewrite <-Qabs_opp|]; rewrite Qabs_pos; lra. }
  assert (Hl : is_long 64 (if s then - a else a) = true).
  { unfold is_long. apply andb_true_iff. destruct s; lia. }
  rewrite Hl. eexists. split; [done|]. cbn [num]. destruct s.
  - split; [intros; lra|]. intros _. unfold Z.sub. rewrite inject_Z_plus, inject_Z_opp in *.
    change (inject_Z (- (1))) with (- (1))%Q. change (inject_Z 1) with 1%Q in *. lra.
  - split; [|intros; lra]. intros _. rewrite inject_Z_plus in *. lra.
Qed.
