(* ===== verification/ClockProperties.v ===== *)
(** The clock of macOS tells the time that has gone by, but for the roundings of
    its doubles. *)
From Stdlib Require Import ZArith Lia SpecFloat QArith Qpower Qabs Qround Lqa.
From stdpp Require Import prelude gmap.
From S2P Require Import Prelude CInt Times Doubles.

Local Open Scope Z_scope.

(** ** [ORWL_NANO] *)

Lemma nano_full : full ORWL_NANO (-82).
Proof. exists 4835703278458517%positive. split; [by vm_compute|lia]. Qed.

(** A little more than 1e-9. *)
Lemma nano_bounds :
  ((1 # 1000000000) <= num ORWL_NANO <= (1 # 1000000000) + (63 # 1000000000000000000000000000))%Q.
Proof. split; by vm_compute. Qed.

Lemma near_abs x e v : near x e v → (v - pow2 (e - 1) <= num x <= v + pow2 (e - 1))%Q.
Proof. intros (_ & H & _). apply Qabs_Qle_condition in H. lra. Qed.

(** The error is at most a part in 2 ^ 53 of the result. *)
Lemma near_small x e v :
  near x e v → (pow2 (e - 1) <= num x * (1 # 9007199254740992))%Q.
Proof.
  intros (H%full_bounds & _ & _). replace (e - 1) with (e + 52 + (-53)) by lia. rewrite pow2_add.
  change (pow2 (-53)) with (1 # 9007199254740992)%Q. lra.
Qed.

Lemma near_below x e v k :
  near x e v → 0 <= k → (v < inject_Z (2 ^ k) * (1 - (1 # 9007199254740992)))%Q → e + 52 < k.
Proof.
  intros Hn Hk Hlt. apply (full_below x e k); [apply Hn|]. rewrite pow2_Z by done.
  pose proof (near_abs _ _ _ Hn). pose proof (near_small _ _ _ Hn). lra.
Qed.

Lemma inject_Z_1 z : (inject_Z (z + 1) == inject_Z z + 1)%Q.
Proof. by rewrite inject_Z_plus. Qed.

Lemma inject_Z_minus_1 z : (inject_Z (z - 1) == inject_Z z - 1)%Q.
Proof. unfold Z.sub. by rewrite inject_Z_plus. Qed.

(** ** Seconds *)

Section seconds.
Context (diff : double) (e : Z) (Hfull : full diff e) (He : -200 <= e).
Context (Hmax : (num diff <= 9000000000000004)%Q).

Lemma diff_exponent : e <= 0.
Proof using Hfull Hmax.
  assert (e + 52 < 53); [|lia]. apply (full_below diff); [done|]. rewrite pow2_Z by lia.
  eapply Qle_lt_trans; [exact Hmax|by vm_compute].
Qed.

Lemma diff_pos : (0 < num diff)%Q.
Proof using Hfull. pose proof (full_bounds _ _ Hfull). pose proof (pow2_pos (e + 52)). lra. Qed.

(** What is truncated to seconds. *)
Lemma product_near :
  ∃ e2, near (dmul diff ORWL_NANO) e2 (num diff * num ORWL_NANO) ∧ e2 <= -29 ∧
    ((num diff <= 8388607500000000)%Q → e2 <= -30).
Proof using Hfull He Hmax.
  destruct (dmul_near _ _ _ _ Hfull nano_full) as (e2 & Hn & He2); [pose proof diff_exponent; lia|lia|].
  exists e2. split; [done|]. pose proof diff_pos. pose proof nano_bounds.
  assert (Hp : (num diff * num ORWL_NANO <= num diff * ((1 # 1000000000) + (63 # 1000000000000000000000000000)))%Q)
    by (apply Qmult_le_l; lra).
  split.
  - assert (e2 + 52 < 24); [|lia]. apply (near_below _ _ _ 24 Hn); [lia|].
    change (inject_Z (2 ^ 24)) with (16777216 # 1). lra.
  - intros Hs. assert (e2 + 52 < 23); [|lia]. apply (near_below _ _ _ 23 Hn); [lia|].
    change (inject_Z (2 ^ 23)) with (8388608 # 1). lra.
Qed.

Lemma finite_full x k : full x k → finite x.
Proof using. by intros (m & -> & _). Qed.

(** The seconds: at least all that are over, and never two nanoseconds more. *)
Lemma seconds_spec :
  ∃ sec, trunc (dmul diff ORWL_NANO) = Some sec ∧ 0 <= sec ∧
    (num diff < inject_Z (sec + 1) * 1000000000)%Q ∧
    (inject_Z sec * 1000000000 < num diff + (3 # 2))%Q ∧
    ((num diff <= 8388607500000000)%Q → (inject_Z sec * 1000000000 < num diff + 1)%Q).
Proof using Hfull He Hmax.
  destruct product_near as (e2 & Hn & He2 & Hs). pose proof Hn as ((H1 & _ & H3) & Ha)%(λ H, conj H (near_abs _ _ _ H)).
  pose proof (full_bounds _ _ H1) as Hb. pose proof (pow2_pos (e2 + 52)). pose proof diff_pos.
  pose proof nano_bounds. pose proof (pow2_mono (e2 - 1) (-30) ltac:(lia)) as He3.
  change (pow2 (-30)) with (1 # 1073741824)%Q in He3.
  assert (Hu : (num diff * num ORWL_NANO <= num diff * ((1 # 1000000000) + (63 # 1000000000000000000000000000)))%Q)
    by (apply Qmult_le_l; lra).
  assert (Hl : (num diff * (1 # 1000000000) <= num diff * num ORWL_NANO)%Q) by (apply Qmult_le_l; lra).
  set (q := num (dmul diff ORWL_NANO)) in *.
  destruct (trunc_spec (dmul diff ORWL_NANO)) as (sec & Ht & Hp & _); [by eapply finite_full| |].
  { fold q. rewrite Qabs_pos by lra. change (inject_Z (2 ^ 60)) with (1152921504606846976 # 1). lra. }
  fold q in Hp. specialize (Hp ltac:(lra)). rewrite inject_Z_1 in Hp.
  exists sec. split; [done|]. split.
  { destruct (Z.leb_spec 0 sec) as [|Hneg]; [done|]. assert (Hs1 : sec + 1 <= 0) by lia.
    rewrite Zle_Qle, inject_Z_1 in Hs1. change (inject_Z 0) with 0%Q in Hs1. lra. }
  split; [|split].
  - destruct (Qlt_le_dec (num diff) (inject_Z (sec + 1) * 1000000000)) as [|Hge]; [done|].
    specialize (H3 (sec + 1) ltac:(lia)). rewrite inject_Z_1 in *. fold q in H3. lra.
  - lra.
  - intros Hd. pose proof (pow2_mono (e2 - 1) (-31) ltac:(specialize (Hs Hd); lia)) as He4.
    change (pow2 (-31)) with (1 # 2147483648)%Q in He4. lra.
Qed.

(** The subtraction is exact. *)
Lemma remainder_exact sec :
  0 <= sec → (num diff < inject_Z (sec + 1) * 1000000000)%Q →
  (inject_Z sec * 1000000000 < num diff + (3 # 2))%Q →
  let r := dsub diff (double_of (u64 (sec * ORWL_GIGA))) in
  finite r ∧ (num r == num diff - inject_Z sec * 1000000000)%Q.
Proof using Hfull He Hmax.
  intros Hs Hlo Hhi. cbn zeta. unfold ORWL_GIGA. rewrite inject_Z_1 in Hlo. pose proof diff_pos.
  destruct (decide (sec = 0)) as [->|Hne].
  { change (double_of (u64 (0 * 1000000000))) with (S754_zero false).
    destruct Hfull as (m & -> & _). split; [done|]. change (inject_Z 0) with 0%Q. unfold dsub, SFsub. ring. }
  assert (Hb : sec * 1000000000 < 9000000000000006).
  { rewrite Zlt_Qlt, inject_Z_mult. change (inject_Z 1000000000) with (1000000000 # 1).
    change (inject_Z 9000000000000006) with (9000000000000006 # 1). lra. }
  rewrite u64_small by (unfold is_u64; lia).
  destruct (double_of_exact (sec * 1000000000)) as (es & Hf2 & Hes & En); [lia|].
  rewrite inject_Z_mult in En. change (inject_Z 1000000000) with (1000000000 # 1) in En.
  assert (H1 : (1 <= inject_Z sec)%Q) by (change 1%Q with (inject_Z 1); rewrite <-Zle_Qle; lia).
  assert (29 < e + 53).
  { apply (full_above diff); [done|]. change (pow2 29) with (536870912 # 1). lra. }
  assert (29 < es + 53).
  { apply (full_above (double_of (sec * 1000000000))); [done|]. rewrite En.
    change (pow2 29) with (536870912 # 1). lra. }
  pose proof diff_exponent. rewrite <-En.
  apply (dsub_exact diff _ e es); [done|done|lia|lia|]. rewrite En.
  eapply Qlt_le_trans; [|apply (pow2_mono 30); lia]. change (pow2 30) with (1073741824 # 1).
  apply Qabs_Qlt_condition. lra.
Qed.

Lemma split_spec :
  ∃ sec nsec, trunc (dmul diff ORWL_NANO) = Some sec ∧
    trunc (dsub diff (double_of (u64 (sec * ORWL_GIGA)))) = Some nsec ∧
    0 <= sec ∧ -1 <= nsec < 1000000000 ∧
    (Qabs (inject_Z (sec * 1000000000 + nsec) - num diff) <= 1)%Q ∧
    ((num diff <= 8388607500000000)%Q → 0 <= nsec).
Proof using Hfull He Hmax.
  destruct seconds_spec as (sec & Ht & Hs & Hlo & Hhi & Hsmall).
  destruct (remainder_exact sec Hs Hlo Hhi) as [Hf En]. rewrite inject_Z_1 in Hlo.
  destruct (trunc_spec _ Hf) as (nsec & Ht2 & Hp & Hn).
  { rewrite En. apply Qabs_Qlt_condition. change (inject_Z (2 ^ 60)) with (1152921504606846976 # 1). lra. }
  exists sec, nsec. split; [done|]. split; [done|]. split; [done|].
  rewrite En, inject_Z_1 in Hp. rewrite En, inject_Z_minus_1 in Hn.
  assert (Habs : (Qabs (inject_Z (sec * 1000000000 + nsec) - num diff) <= 1)%Q).
  { rewrite inject_Z_plus, inject_Z_mult. change (inject_Z 1000000000) with (1000000000 # 1).
    apply Qabs_Qle_condition.
    destruct (Qlt_le_dec (num diff - inject_Z sec * 1000000000) 0) as [Hneg|Hpos];
      [specialize (Hn ltac:(lra))|specialize (Hp Hpos)]; lra. }
  assert (Hd : (inject_Z nsec < 1000000000)%Q ∧ (-2 < inject_Z nsec)%Q ∧
    ((num diff <= 8388607500000000)%Q → (-1 < inject_Z nsec)%Q)).
  { destruct (Qlt_le_dec (num diff - inject_Z sec * 1000000000) 0) as [Hneg|Hpos];
      [specialize (Hn ltac:(lra))|specialize (Hp Hpos)]; (split; [lra|]; split; [lra|]);
      intros Hd; specialize (Hsmall Hd); lra. }
  destruct Hd as (H1 & H2 & H3).
  assert (nsec < 1000000000) by (by rewrite Zlt_Qlt). assert (-2 < nsec) by (by rewrite Zlt_Qlt).
  split; [lia|]. split; [done|]. intros Hd. assert (-1 < nsec); [|lia]. rewrite Zlt_Qlt. by apply H3.
Qed.
End seconds.

(** ** From ticks to nanoseconds *)

Section ticks.
Context (numer denom n : Z) (Hnumer : 0 < numer < 2 ^ 32) (Hdenom : 0 < denom < 2 ^ 32).
Context (Hn : 0 < n < 2 ^ 53) (Hmax : n * numer <= 9000000000000000 * denom).

Definition timebase : double := ddiv (double_of numer) (double_of denom).
Local Abbreviation diff := (dmul (double_of n) timebase).
Local Abbreviation exact := (inject_Z (n * numer) / inject_Z denom)%Q.

Lemma denom_pos : (0 < inject_Z denom)%Q.
Proof using Hdenom. change 0%Q with (inject_Z 0). rewrite <-Zlt_Qlt. lia. Qed.

Lemma exact_below c : n * numer <= c * denom → (exact <= inject_Z c)%Q.
Proof using Hdenom.
  intros H. apply Qle_shift_div_r; [apply denom_pos|]. by rewrite <-inject_Z_mult, <-Zle_Qle.
Qed.

(** The product of two rounded numbers, rounded. *)
Lemma ticks_spec :
  ∃ e, full diff e ∧ -200 <= e ∧ (num diff <= 9000000000000004)%Q ∧ (Qabs (num diff - exact) <= 3 # 2)%Q.
Proof using Hnumer Hdenom Hn Hmax.
  destruct (double_of_exact numer) as (eu & Hu & Heu & Eu); [lia|].
  destruct (double_of_exact denom) as (ed & Hd & Hed & Ed); [lia|].
  destruct (double_of_exact n) as (en & Hfn & Hen & En); [lia|].
  destruct (ddiv_near _ _ _ _ Hu Hd) as (et & Ht & Het); [lia..|]. fold timebase in Ht.
  destruct (dmul_near _ timebase _ et Hfn (proj1 Ht)) as (e & Hp & He); [lia..|].
  exists e. split; [apply Hp|]. split; [lia|].
  pose proof (near_abs _ _ _ Ht) as Ta. pose proof (near_small _ _ _ Ht) as Ts.
  pose proof (near_abs _ _ _ Hp) as Pa. pose proof (near_small _ _ _ Hp) as Ps.
  pose proof (exact_below _ Hmax) as HX. rewrite Eu, Ed in Ta. rewrite En in Pa.
  assert (EX : (inject_Z n * (inject_Z numer / inject_Z denom) == exact)%Q).
  { rewrite inject_Z_mult. pose proof denom_pos. field. lra. }
  assert (Hn0 : (0 < inject_Z n)%Q) by (change 0%Q with (inject_Z 0); rewrite <-Zlt_Qlt; lia).
  set (T := num timebase) in *. set (R := (inject_Z numer / inject_Z denom)%Q) in *.
  set (X := (inject_Z (n * numer) / inject_Z denom)%Q) in *.
  assert (Hhi : (inject_Z n * T <= X + inject_Z n * T * (1 # 9007199254740992))%Q).
  { rewrite <-EX, <-Qmult_assoc, <-Qmult_plus_distr_r. apply Qmult_le_l; [done|]. lra. }
  assert (Hlo : (X - inject_Z n * T * (1 # 9007199254740992) <= inject_Z n * T)%Q).
  { assert (X <= inject_Z n * T + inject_Z n * T * (1 # 9007199254740992))%Q; [|lra].
    rewrite <-EX, <-Qmult_assoc, <-Qmult_plus_distr_r. apply Qmult_le_l; [done|]. lra. }
  change (inject_Z 9000000000000000) with (9000000000000000 # 1) in HX.
  set (V := num diff) in *. assert (HV : (V <= 9000000000000004)%Q) by lra.
  split; [done|]. apply Qabs_Qle_condition.
  pose proof (diff_exponent _ e (proj1 Hp) HV). pose proof (pow2_mono (e - 1) (-1) ltac:(lia)) as He1.
  change (pow2 (-1)) with (1 # 2)%Q in He1. lra.
Qed.

Lemma ticks_split :
  ∃ sec nsec, trunc (dmul diff ORWL_NANO) = Some sec ∧
    trunc (dsub diff (double_of (u64 (sec * ORWL_GIGA)))) = Some nsec ∧
    0 <= sec ∧ -1 <= nsec < 1000000000 ∧
    2 * Z.abs ((sec * 1000000000 + nsec) * denom - n * numer) <= 5 * denom ∧
    (n * numer <= 8388607000000000 * denom → 0 <= nsec).
Proof using Hnumer Hdenom Hn Hmax.
  destruct ticks_spec as (e & Hf & He & HV & HX).
  destruct (split_spec diff e Hf He HV) as (sec & nsec & H1 & H2 & H3 & H4 & H5 & H6).
  exists sec, nsec. do 4 (split; [done|]). pose proof denom_pos as Hd.
  apply Qabs_Qle_condition in HX, H5. split.
  - set (tot := sec * 1000000000 + nsec) in *.
    assert (Ex : (exact * inject_Z denom == inject_Z (n * numer))%Q) by (field; lra).
    assert (Hb : (- (5 # 2) <= inject_Z tot - exact <= 5 # 2)%Q) by lra.
    assert (HZ : - (5 * denom) <= 2 * (tot * denom - n * numer) <= 5 * denom); [|lia].
    rewrite !Zle_Qle. unfold Z.sub. rewrite inject_Z_opp, !(inject_Z_mult 2), inject_Z_plus, inject_Z_opp, !(inject_Z_mult _ denom), <-Ex.
    change (inject_Z 5) with 5%Q. change (inject_Z 2) with 2%Q.
    assert (E1 : (2 * (inject_Z tot * inject_Z denom + - (exact * inject_Z denom)) ==
      2 * (inject_Z tot - exact) * inject_Z denom)%Q) by ring.
    rewrite E1. split.
    + assert (E2 : (- (5 * inject_Z denom) == - (5) * inject_Z denom)%Q) by ring. rewrite E2.
      apply Qmult_le_compat_r; lra.
    + apply Qmult_le_compat_r; lra.
  - intros Hs. apply H6. pose proof (exact_below _ Hs) as Hx.
    change (inject_Z 8388607000000000) with (8388607000000000 # 1) in Hx. lra.
Qed.
End ticks.

(** C40: For a start of the clock and a later time, [clock_gettime] on macOS tells
    the time in between, the ticks times the fraction of [mach_timebase_info], to
    within two and a half nanoseconds, whatever the roundings of its four
    operations on doubles, for up to 9e15 nanoseconds or 104 days.  The seconds
    and nanoseconds are well formed for the first 97 days; after that the
    nanoseconds may be -1, but never less.  This is so of the first call, which
    takes the start, and of all others. *)
Theorem clock_gettime_correct k start (s : double * Z) :
  0 < numer k < 2 ^ 32 → 0 < denom k < 2 ^ 32 →
  (s.2 = 0 ∧ start = absolute1 k) ∨ (s = (timebase (numer k) (denom k), start) ∧ start ≠ 0) →
  is_u64 start → is_u64 (absolute2 k) → start <= absolute2 k →
  let n := absolute2 k - start in
  n < 2 ^ 53 → n * numer k <= 9000000000000000 * denom k →
  ∃ sec nsec, clock_gettime k s = Some (Time sec nsec, (timebase (numer k) (denom k), start)) ∧
    0 <= sec ∧ -1 <= nsec < 1000000000 ∧
    2 * Z.abs ((sec * 1000000000 + nsec) * denom k - n * numer k) <= 5 * denom k ∧
    (n * numer k <= 8388607000000000 * denom k → 0 <= nsec).
Proof.
  intros Hnu Hde Hs Hst Ha Hle n Hn Hmax. unfold is_u64 in *.
  assert (E : (if s.2 =? 0 then (ddiv (double_of (numer k)) (double_of (denom k)), u64 (absolute1 k)) else s) =
    (timebase (numer k) (denom k), start)).
  { destruct Hs as [[-> ->]|[-> Hne]]; [by rewrite u64_small|]. cbn. by rewrite (proj2 (Z.eqb_neq _ _)). }
  unfold clock_gettime. rewrite E. cbn [fst snd]. rewrite u64_small by (unfold is_u64; lia). fold n.
  destruct (decide (n = 0)) as [E0|Hn0].
  - rewrite E0. exists 0, 0.
    destruct (double_of_exact (numer k)) as (eu & Hu & Heu & _); [lia|].
    destruct (double_of_exact (denom k)) as (ed & Hd & Hed & _); [lia|].
    destruct (ddiv_near _ _ _ _ Hu Hd) as (et & [(m & Et & _) _] & _); [lia..|].
    unfold timebase. rewrite Et. split; [done|]. lia.
  - destruct (ticks_split (numer k) (denom k) n) as (sec & nsec & -> & H2 & H3); [done|done|lia|done|].
    cbn. rewrite H2. exists sec, nsec. by split.
Qed.

(** Two seconds, all but a tick, in ticks of 125/3 ns. *)
Lemma clock_gettime_correct_witness :
  ∃ sec nsec, clock_gettime (Mach 125 3 7 (1000 + 48000000 - 1)) (timebase 125 3, 1000) =
      Some (Time sec nsec, (timebase 125 3, 1000)) ∧
    0 <= nsec < 1000000000 ∧ 2 * Z.abs ((sec * 1000000000 + nsec) * 3 - 47999999 * 125) <= 15 ∧ sec = 1.
Proof.
  destruct (clock_gettime_correct (Mach 125 3 7 (1000 + 48000000 - 1)) 1000 (timebase 125 3, 1000))
    as (sec & nsec & E & _ & Hn & Ht & Hp); cbn in *; unfold is_u64; try lia; [by right|].
  exists sec, nsec. split; [exact E|]. specialize (Hp ltac:(lia)). split; [lia|]. split; [exact Ht|lia].
Defined.
