(* ===== verification/AppsWin.v ===== *)
(** [apps/openssl/apps_win.c]: the timers and the alarm that [openssl speed]
    uses on Windows, and its user interface.

    The alarm is a thread that sleeps.  The process is a step relation: the main
    thread and the alarms run one statement at a time, interleaved, and time
    passes in between. *)
From Stdlib Require Import ZArith Lia SpecFloat.
From stdpp Require Import prelude gmap.
From S2P Require Import Prelude CInt Times.

Local Open Scope Z_scope.

(** ** Timers *)

Definition s64 (z : Z) : Z := (z + 2 ^ 63) mod 2 ^ 64 - 2 ^ 63.

(** The state is the static variable; [GetTickCount64] and [GetProcessTimes] are
    given by what they return, the times of the process in user and in kernel
    mode. *)
Definition app_timer_real (GetTickCount64 : Z) (get : Z) : ST Z double := λ start,
  let now := s64 GetTickCount64 in
  if negb (get =? 0) then Some (ddiv (double_of (s64 (now - start))) (double_of 1000), start)
  else Some (double_of 0, now).

Definition app_timer_user (ut kt : Z) (stop : Z) : ST Z double := λ tmstart,
  if negb (stop =? 0)
  then Some (ddiv (double_of (u64 (u64 (ut + kt) - tmstart))) (double_of 10000000), tmstart)
  else Some (double_of 0, u64 (ut + kt)).

(** ** The user interface *)

Section ui.
Context {W : Type}.
(** What [libcrypto] and the C runtime do: the method that is made, or NULL; the
    four functions put into it; its end; and [_setmode] on standard input, output
    and error output. *)
Variable UI_create_method : ST W ptr.
Variable UI_method_set_functions : ptr → ST W unit.
Variable UI_destroy_method : ptr → ST W unit.
Variable setmode_binary : Z → ST W unit.

(** [ui_method], and the rest. *)
Definition setup_ui : ST (ptr * W) Z := λ s,
  match UI_create_method s.2 with
  | Some (m, w) =>
      match (UI_method_set_functions m;; setmode_binary 0;; setmode_binary 1;; setmode_binary 2) w with
      | Some (_, w) => Some (0, (m, w))
      | None => None
      end
  | None => None
  end.

Definition destroy_ui : ST (ptr * W) unit := λ s,
  if nonnull s.1 then
    match UI_destroy_method s.1 s.2 with
    | Some (_, w) => Some (tt, (None, w))
    | None => None
    end
  else Some (tt, s).
End ui.

(** ** The alarm *)

(** A thread that [CreateThread] made, by its next statement in [speed_timer].
    [Asleep until]: in [Sleep].  [Over]: it has returned, or was terminated. *)
Inductive timer := AtLock | AtSleep | Asleep (until : Z) | AtHandler | Over.

(** The statement the main thread is at; [Idle] is outside these functions. *)
Inductive pc :=
  | Idle
  (* speed_alarm *)
  | AlarmLapse (seconds : Z)
  | AlarmClear (seconds : Z)
  | AlarmCreate (seconds : Z)
  | AlarmSpin (seconds : Z)
  (* speed_alarm_free *)
  | FreeTest (run : Z)
  | FreeClose
  | FreeThread
  | FreeLapse
  | FreeLock
  | Exited (code : Z).

#[global] Instance timer_eq_dec : EqDecision timer.
Proof. solve_decision. Defined.
#[global] Instance pc_eq_dec : EqDecision pc.
Proof. solve_decision. Defined.

(** The static variables ([speed_thread] as the number of the thread), the
    threads, and the time in milliseconds.  [begun] and [fired] are a history:
    when an alarm was begun and for how many seconds; and the calls of handlers,
    the last one first. *)
Record process := Process {
  speed_alarm_handler : option nat;
  speed_thread : option nat;
  speed_lapse : Z;
  speed_schlock : Z;
  main : pc;
  timers : gmap nat timer;
  now : Z;
  begun : gmap nat (Z * Z);
  fired : list (nat * nat * Z)
}.

Definition set_main (p : pc) (s : process) : process :=
  Process (speed_alarm_handler s) (speed_thread s) (speed_lapse s) (speed_schlock s) p
    (timers s) (now s) (begun s) (fired s).

Definition set_timer (t : nat) (x : timer) (s : process) : process :=
  Process (speed_alarm_handler s) (speed_thread s) (speed_lapse s) (speed_schlock s) (main s)
    (<[t := x]> (timers s)) (now s) (begun s) (fired s).

Definition set_thread (h : option nat) (s : process) : process :=
  Process (speed_alarm_handler s) h (speed_lapse s) (speed_schlock s) (main s)
    (timers s) (now s) (begun s) (fired s).

Definition set_lapse (l : Z) (s : process) : process :=
  Process (speed_alarm_handler s) (speed_thread s) l (speed_schlock s) (main s)
    (timers s) (now s) (begun s) (fired s).

Definition set_schlock (l : Z) (s : process) : process :=
  Process (speed_alarm_handler s) (speed_thread s) (speed_lapse s) l (main s)
    (timers s) (now s) (begun s) (fired s).

Definition set_now (n : Z) (s : process) : process :=
  Process (speed_alarm_handler s) (speed_thread s) (speed_lapse s) (speed_schlock s) (main s)
    (timers s) n (begun s) (fired s).

Definition speed_signal (func : nat) (s : process) : process :=
  Process (Some func) (speed_thread s) (speed_lapse s) (speed_schlock s) (main s)
    (timers s) (now s) (begun s) (fired s).

(** What Win32 answers: a thread, success, or a failure with [GetLastError]. *)
Inductive reply := Thread (t : nat) | Success | Failure (err : Z).

(** The next statement of [speed_alarm]. *)
Definition speed_alarm_step (r : reply) (s : process) : option process :=
  match main s with
  | AlarmLapse n => Some (set_main (AlarmClear n) (set_lapse (u32 (n * 1000)) s))
  | AlarmClear n => Some (set_main (AlarmCreate n) (set_schlock 0 s))
  | AlarmCreate n =>
      match r with
      | Thread t =>
          let s := set_main (AlarmSpin n) (set_thread (Some t) (set_timer t AtLock s)) in
          Some (Process (speed_alarm_handler s) (speed_thread s) (speed_lapse s) (speed_schlock s)
                  (main s) (timers s) (now s) (<[t := (now s, n)]> (begun s)) (fired s))
      | Failure err => Some (set_main (Exited err) s)
      | Success => None
      end
  | AlarmSpin n => if speed_schlock s =? 0 then Some s else Some (set_main Idle s)
  | _ => None
  end.

(** The next statement of [speed_alarm_free]. *)
Definition speed_alarm_free_step (r : reply) (s : process) : option process :=
  match main s with
  | FreeTest run =>
      if run =? 0 then Some (set_main FreeClose s)
      else
        match r, speed_thread s with
        | Success, Some t => Some (set_main FreeClose (set_timer t Over s))
        | Failure err, _ => Some (set_main (Exited err) s)
        | _, _ => None
        end
  | FreeClose =>
      match r with
      | Success => Some (set_main FreeThread s)
      | Failure err => Some (set_main (Exited err) s)
      | Thread _ => None
      end
  | FreeThread => Some (set_main FreeLapse (set_thread None s))
  | FreeLapse => Some (set_main FreeLock (set_lapse 0 s))
  | FreeLock => Some (set_main Idle (set_schlock 0 s))
  | _ => None
  end.

(** The next statement of [speed_timer] in thread [t].  [Sleep] may end up to
    [tick] milliseconds, the resolution of the clock, too early. *)
Definition speed_timer_step (tick : Z) (t : nat) (s : process) : option process :=
  match timers s !! t with
  | Some AtLock => Some (set_timer t AtSleep (set_schlock 1 s))
  | Some AtSleep => Some (set_timer t (Asleep (now s + speed_lapse s)) s)
  | Some (Asleep until) => if until - tick <=? now s then Some (set_timer t AtHandler s) else None
  | Some AtHandler =>
      h ← speed_alarm_handler s;
      let s := set_timer t Over s in
      Some (Process (speed_alarm_handler s) (speed_thread s) (speed_lapse s) (speed_schlock s)
              (main s) (timers s) (now s) (begun s) ((t, h, now s) :: fired s))
  | _ => None
  end.

(** A new thread has a number of its own. *)
Definition reply_ok (r : reply) (s : process) : Prop :=
  match r with Thread t => timers s !! t = None | _ => True end.

Definition running (s : process) : Prop := ∀ code, main s ≠ Exited code.

(** The calls, as [openssl speed] makes them: [speed_alarm] when no alarm is set,
    then [speed_alarm_free], whose argument is 0 only when the handler has been
    called. *)
Inductive call := Speed_signal (func : nat) | Speed_alarm (seconds : Z) | Speed_alarm_free (run : Z).

Definition allowed (c : call) (s : process) : Prop :=
  match c with
  | Speed_signal _ => True
  | Speed_alarm n => speed_thread s = None ∧ is_u32 n
  | Speed_alarm_free run => ∃ t, speed_thread s = Some t ∧ (run = 0 → timers s !! t = Some Over)
  end.

Definition begin_call (c : call) (s : process) : process :=
  match c with
  | Speed_signal h => speed_signal h s
  | Speed_alarm n => set_main (AlarmLapse n) s
  | Speed_alarm_free run => set_main (FreeTest run) s
  end.

Inductive step (tick : Z) : process → process → Prop :=
  | step_time s n : now s <= n → step tick s (set_now n s)
  | step_call c s : main s = Idle → allowed c s → step tick s (begin_call c s)
  | step_alarm r s s' : reply_ok r s → speed_alarm_step r s = Some s' → step tick s s'
  | step_free r s s' : reply_ok r s → speed_alarm_free_step r s = Some s' → step tick s s'
  | step_timer t s s' : running s → speed_timer_step tick t s = Some s' → step tick s s'.

(** The process before any alarm, after [signal(SIGALRM, h)]. *)
Definition initial (h : nat) (time : Z) : process := Process (Some h) None 0 0 Idle ∅ time ∅ [].
