(* ===== verification/AppsWinProperties.v ===== *)
(** Properties of the alarm of [openssl speed]. *)
From Stdlib Require Import ZArith Lia SpecFloat.
From stdpp Require Import prelude gmap.
From S2P Require Import Prelude CInt Times AppsWin.

Local Open Scope Z_scope.

Section proof.
Context (tick : Z).
Implicit Types (s : process) (t : nat) (x : timer).

(** The times of an alarm for [n] seconds that began at [t0]. *)
Definition time_ok (t0 n time : Z) (x : timer) : Prop :=
  match x with
  | Asleep until => t0 + u32 (n * 1000) <= until
  | AtHandler => t0 + u32 (n * 1000) - tick <= time
  | _ => True
  end.

(** Where the main thread is when an alarm may be running. *)
Definition may_run (p : pc) : Prop :=
  match p with Idle | AlarmSpin _ | FreeTest _ | Exited _ => True | _ => False end.

(** Where no alarm is set. *)
Definition unset (p : pc) : Prop :=
  match p with AlarmLapse _ | AlarmClear _ | AlarmCreate _ | FreeLapse | FreeLock => True | _ => False end.

(** An alarm that is running is the one [speed_thread] names. *)
Definition alive_ok s t x : Prop :=
  may_run (main s) ∧ speed_thread s = Some t ∧
  ∃ t0 n : Z, begun s !! t = Some (t0, n) ∧ speed_lapse s = u32 (n * 1000) ∧ t0 <= now s ∧
    time_ok t0 n (now s) x.

(** One that has not begun to sleep is waited for. *)
Definition starting_ok s t x : Prop :=
  x = AtLock → match main s with
               | AlarmSpin _ => speed_schlock s = 0
               | Exited _ => True
               | _ => False
               end.

(** What has been done in [speed_alarm]. *)
Definition main_ok s : Prop :=
  match main s with
  | AlarmClear n => speed_lapse s = u32 (n * 1000)
  | AlarmCreate n => speed_lapse s = u32 (n * 1000) ∧ speed_schlock s = 0
  | AlarmSpin _ => ∃ t x, speed_thread s = Some t ∧ timers s !! t = Some x ∧
                    (speed_schlock s = 0 → x = AtLock)
  | FreeTest run => ∃ t, speed_thread s = Some t ∧ (run = 0 → timers s !! t = Some Over)
  | _ => True
  end.

(** A call of a handler. *)
Definition fired_ok s (e : nat * nat * Z) : Prop :=
  timers s !! e.1.1 = Some Over ∧
  ∃ t0 n : Z, begun s !! e.1.1 = Some (t0, n) ∧ t0 + u32 (n * 1000) - tick <= e.2 <= now s.

Record Inv s : Prop := {
  inv_handler : is_Some (speed_alarm_handler s);
  inv_alive t x : timers s !! t = Some x → x ≠ Over → alive_ok s t x ∧ starting_ok s t x;
  inv_unset : unset (main s) → speed_thread s = None;
  inv_main : main_ok s;
  inv_fired : Forall (fired_ok s) (fired s);
  inv_once : NoDup (map (λ e, e.1.1) (fired s))
}.

Lemma inv_initial h time : Inv (initial h time).
Proof. split; cbn; try done. by constructor. Qed.

Lemma time_passes s n : now s <= n → Inv s → Inv (set_now n s).
Proof.
  intros Hn [H1 H2 H3 H4 H5 H6]. split; try done.
  - intros t x Hx Ho. destruct (H2 t x Hx Ho) as [(? & ? & t0 & m & ? & ? & ? & Ht) Hs]. split; [|done].
    split; [done|]. split; [done|]. exists t0, m. cbn in *. do 2 (split; [done|]).
    split; [lia|]. destruct x; cbn in *; done || lia.
  - eapply Forall_impl; [exact H5|]. intros e (? & t0 & m & ? & ?). split; [done|]. exists t0, m. cbn. split; [done|lia].
Qed.

Lemma call_keeps c s : main s = Idle → allowed c s → Inv s → Inv (begin_call c s).
Proof.
  intros Hm Hc [H1 H2 H3 H4 H5 H6]. destruct c as [h|n|run]; cbn in Hc.
  - split; cbn; try done; by eexists.
  - destruct Hc as [Hth _]. split; cbn; try done.
    intros t x Hx Ho. destruct (H2 t x Hx Ho) as [(_ & ? & _) _]. congruence.
  - split; cbn; try done. intros t x Hx Ho.
    destruct (H2 t x Hx Ho) as [(_ & Ht) Hs]. split; [done|]. intros ->. unfold starting_ok in Hs.
    rewrite Hm in Hs. by specialize (Hs eq_refl).
Qed.

Lemma alarm_keeps r s s' : reply_ok r s → speed_alarm_step r s = Some s' → Inv s → Inv s'.
Proof.
  intros Hr Hs HI. pose proof HI as [H1 H2 H3 H4 H5 H6]. unfold speed_alarm_step in Hs. unfold main_ok in H4.
  destruct (main s) as [|n|n|n|n|n| | | | |n] eqn:Em; try done.
  - injection Hs as <-. split; cbn; try done.
    intros t x Hx Ho. destruct (H2 t x Hx Ho) as [[Hf _] _]. by rewrite Em in Hf.
  - injection Hs as <-. split; cbn; try done.
    intros t x Hx Ho. destruct (H2 t x Hx Ho) as [[Hf _] _]. by rewrite Em in Hf.
  - destruct H4 as [Hl Hz]. destruct r as [t| |err]; [|done|].
    + injection Hs as <-. cbn in Hr. split; cbn; try done.
      * intros t' x Hx Ho. destruct (decide (t = t')) as [<-|Ht].
        -- rewrite lookup_insert_eq in Hx. injection Hx as <-. split; [|by intros _].
           split; [done|]. split; [done|]. exists (now s), n. cbn. rewrite lookup_insert_eq.
           split; [done|]. split; [exact Hl|]. split; [lia|done].
        -- rewrite lookup_insert_ne in Hx by done. destruct (H2 t' x Hx Ho) as [[Hf _] _]. by rewrite Em in Hf.
      * exists t, AtLock. by rewrite lookup_insert_eq.
      * eapply Forall_impl; [exact H5|]. intros e (Ho & t0 & m & ? & ?).
        assert (e.1.1 ≠ t) by congruence. split; cbn; [by rewrite lookup_insert_ne|].
        exists t0, m. rewrite lookup_insert_ne by done. by split.
    + injection Hs as <-. split; cbn; try done.
      intros t x Hx Ho. destruct (H2 t x Hx Ho) as [[Hf _] _]. by rewrite Em in Hf.
  - destruct (Z.eqb_spec (speed_schlock s) 0) as [Hz|Hz]; injection Hs as <-; [exact HI|].
    split; cbn; try done. intros t x Hx Ho. destruct (H2 t x Hx Ho) as [[_ Ht] Hst]. split; [done|].
    intros ->. unfold starting_ok in Hst. rewrite Em in Hst. by specialize (Hst eq_refl).
Qed.

Lemma free_keeps r s s' : speed_alarm_free_step r s = Some s' → Inv s → Inv s'.
Proof.
  intros Hs [H1 H2 H3 H4 H5 H6]. unfold speed_alarm_free_step in Hs. unfold main_ok in H4.
  assert (Hdead : ¬ may_run (main s) → ∀ t x, timers s !! t = Some x → x ≠ Over → False).
  { intros Hf t x Hx Ho. by destruct (H2 t x Hx Ho) as [[? _] _]. }
  destruct (main s) as [| | | | |run| | | | |n] eqn:Em; try done.
  - destruct H4 as (t & Ht & Hrun). destruct (Z.eqb_spec run 0) as [Hz|Hz].
    + injection Hs as <-. split; cbn; try done. intros t' x Hx Ho.
      destruct (H2 t' x Hx Ho) as [(_ & ? & _) _]. specialize (Hrun Hz). congruence.
    + destruct r as [| |err]; [done| |].
      * rewrite Ht in Hs. injection Hs as <-. split; cbn; try done.
        -- intros t' x Hx Ho. destruct (decide (t = t')) as [<-|Hne].
           ++ rewrite lookup_insert_eq in Hx. congruence.
           ++ rewrite lookup_insert_ne in Hx by done.
              destruct (H2 t' x Hx Ho) as [(_ & ? & _) _]. congruence.
        -- eapply Forall_impl; [exact H5|]. intros e [Ho He]. split; [|exact He]. cbn.
           by destruct (decide (t = e.1.1)) as [<-|?]; [rewrite lookup_insert_eq|rewrite lookup_insert_ne].
      * injection Hs as <-. split; cbn; try done. intros t' x Hx Ho.
        destruct (H2 t' x Hx Ho) as [[_ ?] _]. by split.
  - destruct r as [| |err]; [done| |]; injection Hs as <-; split; cbn; try done;
      intros t x Hx Ho; destruct (Hdead id t x Hx Ho).
  - injection Hs as <-. split; cbn; try done. intros t x Hx Ho. destruct (Hdead id t x Hx Ho).
  - injection Hs as <-. split; cbn; try done. intros t x Hx Ho. destruct (Hdead id t x Hx Ho).
  - injection Hs as <-. split; cbn; try done. intros t x Hx Ho. destruct (Hdead id t x Hx Ho).
Qed.

(** The thread [t] goes on, and is not at the start any more. *)
Definition moved s t y l : process := set_timer t y (set_schlock l s).

Lemma moved_keeps s t x y l :
  Inv s → timers s !! t = Some x → x ≠ Over → y ≠ AtLock → y ≠ Over →
  (∀ t0 n : Z, speed_lapse s = u32 (n * 1000) → t0 <= now s →
    time_ok t0 n (now s) x → time_ok t0 n (now s) y) →
  (l = 0 → speed_schlock s = 0 ∧ x ≠ AtLock) →
  Inv (moved s t y l).
Proof.
  intros [H1 H2 H3 H4 H5 H6] Hx Ho Hy Hyo Ht Hl.
  destruct (H2 t x Hx Ho) as [(Hr & Hth & t0 & n & Hb & Hla & Ht0 & Hok) _].
  split; cbn; try done.
  - intros t' z Hz Hzo. destruct (decide (t = t')) as [<-|Hne].
    + rewrite lookup_insert_eq in Hz. injection Hz as <-. split; [|by intros ?%Hy].
      split; [done|]. split; [done|]. exists t0, n. cbn. do 3 (split; [done|]). by apply Ht.
    + rewrite lookup_insert_ne in Hz by done. destruct (H2 t' z Hz Hzo) as [(_ & ? & _) _]. congruence.
  - unfold main_ok in *. cbn. destruct (main s) as [|n'|n'|n'|n'|run| | | | |n']; try done.
    + destruct H4 as (t' & x' & ? & ? & Hlock). assert (t' = t) as -> by congruence.
      exists t, y. rewrite lookup_insert_eq. split; [done|]. split; [done|].
      intros [Hz Hnot]%Hl. specialize (Hlock Hz). congruence.
    + destruct H4 as (t' & ? & Hrun). exists t'. split; [done|]. assert (t' = t) as -> by congruence.
      intros Hz. specialize (Hrun Hz). congruence.
  - eapply Forall_impl; [exact H5|]. intros e [Hov He]. split; [|exact He]. cbn.
    rewrite lookup_insert_ne; [done|]. congruence.
Qed.

Lemma moved_same s t y : moved s t y (speed_schlock s) = set_timer t y s.
Proof. by destruct s. Qed.

Lemma timer_keeps t s s' : speed_timer_step tick t s = Some s' → Inv s → Inv s'.
Proof.
  intros Hs HI. unfold speed_timer_step in Hs.
  destruct (timers s !! t) as [[| |until| |]|] eqn:Et; try done.
  - injection Hs as <-. by apply (moved_keeps s t AtLock).
  - injection Hs as <-. rewrite <-moved_same. apply (moved_keeps s t AtSleep); try done.
    intros t0 n Hl Ht0 _. cbn. lia.
  - destruct (Z.leb_spec (until - tick) (now s)); [|done]. injection Hs as <-.
    rewrite <-moved_same. apply (moved_keeps s t (Asleep until)); try done.
    intros t0 n Hl Ht0. cbn. lia.
  - destruct HI as [H1 H2 H3 H4 H5 H6]. destruct H1 as [h Hh].
    destruct (H2 t _ Et ltac:(done)) as [(Hr & Hth & t0 & n & Hb & Hla & Ht0 & Hok) _].
    rewrite Hh in Hs. cbn in Hs. injection Hs as <-. split; cbn; try done.
    + intros t' z Hz Hzo. destruct (decide (t = t')) as [<-|Hne].
      * rewrite lookup_insert_eq in Hz. congruence.
      * rewrite lookup_insert_ne in Hz by done. destruct (H2 t' z Hz Hzo) as [(_ & ? & _) _]. congruence.
    + unfold main_ok in *. cbn. destruct (main s) as [|n'|n'|n'|n'|run| | | | |n']; try done.
      * destruct H4 as (t' & x' & ? & ? & Hlock). assert (t' = t) as -> by congruence.
        exists t, Over. rewrite lookup_insert_eq. split; [done|]. split; [done|].
        intros Hz. specialize (Hlock Hz). congruence.
      * exists t. split; [done|]. by rewrite lookup_insert_eq.
    + constructor.
      * split; cbn; [by rewrite lookup_insert_eq|]. exists t0, n. split; [done|]. cbn in Hok. lia.
      * eapply Forall_impl; [exact H5|]. intros e [Hov He]. split; [|exact He]. cbn.
        rewrite lookup_insert_ne; [done|]. congruence.
    + constructor; [|done]. intros (e & Ee & He)%list_elem_of_fmap.
      rewrite Forall_forall in H5. destruct (H5 e He) as [Hov _]. cbn in Ee. congruence.
Qed.

Lemma step_keeps s s' : step tick s s' → Inv s → Inv s'.
Proof.
  intros [s0 n Hn|c s0 Hm Ha|r s0 s1 Hr Hs|r s0 s1 _ Hs|t s0 s1 _ Hs] HI.
  - by apply time_passes.
  - by apply call_keeps.
  - by eapply alarm_keeps.
  - by eapply free_keeps.
  - by eapply timer_keeps.
Qed.

Lemma alarm_inv h time s : rtc (step tick) (initial h time) s → Inv s.
Proof.
  intros Hr. remember (initial h time) as s0. assert (HI : Inv s0) by (subst; apply inv_initial).
  clear Heqs0. induction Hr as [|s1 s2 s3 Hs _ IH]; [done|]. by apply IH, (step_keeps s1).
Qed.
End proof.

(** C22: Whatever the scheduler does, with a client that sets one alarm at a time: a
    handler is called at most once for an alarm, through a pointer that is not
    NULL, and not earlier than the seconds asked for, modulo 2^32 milliseconds
    and but for the resolution of the clock, after the thread was made.  At most
    one alarm runs, the one in [speed_thread]: after [speed_alarm_free] none does.
    When [speed_alarm] has returned, the thread has begun; while it waits, there
    is a thread that will let it return. *)
Theorem alarm_safe tick h time s :
  rtc (step tick) (initial h time) s →
  (∀ t f at_, (t, f, at_) ∈ fired s → ∃ t0 n, begun s !! t = Some (t0, n) ∧
     t0 + u32 (n * 1000) - tick <= at_ <= now s) ∧
  NoDup (map (λ e, e.1.1) (fired s)) ∧
  (∀ t, timers s !! t = Some AtHandler → running s → is_Some (speed_timer_step tick t s)) ∧
  (∀ t x, timers s !! t = Some x → x ≠ Over → speed_thread s = Some t) ∧
  (main s = Idle → ∀ t, timers s !! t ≠ Some AtLock) ∧
  (∀ n, main s = AlarmSpin n → speed_schlock s = 0 → ∃ t, timers s !! t = Some AtLock).
Proof.
  intros Hr%alarm_inv. destruct Hr as [H1 H2 H3 H4 H5 H6]. split_and!.
  - intros t f at_ Hin. rewrite Forall_forall in H5. by destruct (H5 _ Hin) as [_ ?].
  - done.
  - intros t Ht _. destruct H1 as [f Hf]. unfold speed_timer_step. rewrite Ht, Hf. by eexists.
  - intros t x Hx Ho. by destruct (H2 t x Hx Ho) as [(_ & ? & _) _].
  - intros Hm t Ht. destruct (H2 t AtLock Ht ltac:(done)) as [_ Hs]. unfold starting_ok in Hs.
    rewrite Hm in Hs. by apply Hs.
  - intros n Hm Hz. unfold main_ok in H4. rewrite Hm in H4. destruct H4 as (t & x & _ & Hx & Hlock).
    exists t. by rewrite Hx, Hlock.
Qed.

(** ** A run *)

Inductive turn := Pass (n : Z) | Do (c : call) | Alarm (r : reply) | Free (r : reply) | Timer (t : nat).

Definition take_turn (tick : Z) (w : turn) (s : process) : option process :=
  match w with
  | Pass n => Some (set_now n s)
  | Do c => Some (begin_call c s)
  | Alarm r => speed_alarm_step r s
  | Free r => speed_alarm_free_step r s
  | Timer t => speed_timer_step tick t s
  end.

Fixpoint legal (tick : Z) (ws : list turn) (s : process) : Prop :=
  match ws with
  | [] => True
  | w :: ws =>
      match w with
      | Pass n => now s <= n
      | Do c => main s = Idle ∧ allowed c s
      | Alarm r | Free r => reply_ok r s
      | Timer t => running s
      end ∧
      match take_turn tick w s with Some s' => legal tick ws s' | None => False end
  end.

Definition run_turns (tick : Z) (ws : list turn) (s : process) : option process :=
  foldl (λ o w, o ≫= take_turn tick w) (Some s) ws.

Lemma legal_reach tick ws s s' :
  legal tick ws s → run_turns tick ws s = Some s' → rtc (step tick) s s'.
Proof.
  unfold run_turns. revert s. induction ws as [|w ws IH]; cbn; intros s Hl Hs.
  - injection Hs as ->. done.
  - destruct Hl as [Hw Hl]. destruct (take_turn tick w s) as [s1|] eqn:E; [|done].
    apply rtc_l with s1; [|by apply IH]. destruct w; cbn in E.
    + injection E as <-. by apply step_time.
    + injection E as <-. destruct Hw. by apply step_call.
    + by eapply step_alarm.
    + by eapply step_free.
    + by eapply step_timer.
Qed.

(** An alarm for a second is set and waited for, fires after the second, but for
    five milliseconds, and is freed; the next one is freed before it fires. *)
Definition demo_turns : list turn :=
  [Do (Speed_alarm 1); Alarm Success; Alarm Success; Alarm (Thread 4); Alarm Success; Timer 4;
   Alarm Success; Timer 4; Pass 1095; Timer 4; Timer 4;
   Do (Speed_alarm_free 0); Free Success; Free Success; Free Success; Free Success; Free Success;
   Do (Speed_alarm 3); Alarm Success; Alarm Success; Alarm (Thread 5); Timer 5; Alarm Success;
   Do (Speed_alarm_free 1); Free Success; Free Success; Free Success; Free Success; Free Success].

Lemma demo_legal : legal 15 demo_turns (initial 7 100).
Proof.
  vm_compute. repeat split; try done; try (by eexists); try (eexists; split; [done|]; done).
Qed.

Lemma alarm_safe_witness :
  ∃ s, rtc (step 15) (initial 7 100) s ∧ fired s = [(4%nat, 7%nat, 1095)] ∧ main s = Idle ∧
    NoDup (map (λ e, e.1.1) (fired s)) ∧ (∀ t, timers s !! t ≠ Some AtLock).
Proof.
  pose proof demo_legal as Hl.
  destruct (run_turns 15 demo_turns (initial 7 100)) as [s|] eqn:E; [|by vm_compute in E].
  pose proof (legal_reach _ _ _ _ Hl E) as Hr.
  destruct (alarm_safe 15 7 100 s Hr) as (_ & Hd & _ & _ & Hi & _).
  assert (Hv : match run_turns 15 demo_turns (initial 7 100) with
    | Some s => fired s = [(4%nat, 7%nat, 1095)] ∧ main s = Idle | None => False end)
    by (vm_compute; split; reflexivity).
  rewrite E in Hv. destruct Hv as [Hf Hm].
  exists s. split; [exact Hr|]. split; [exact Hf|]. split; [exact Hm|]. split; [exact Hd|exact (Hi Hm)].
Defined.

(** ** Timers *)

(** The time between two calls, in seconds. *)
Lemma app_timer_real_elapsed :
  (app_timer_real 1000 0;; app_timer_real 3500 1) 0 = Some (ddiv (double_of 5) (double_of 2), 1000).
Proof. by vm_compute. Qed.

(** Twice the end of the user interface ends it once. *)
Lemma destroy_ui_once {W} (destroy : ptr → ST W unit) m w w' :
  destroy (Some m) w = Some (tt, w') →
  (destroy_ui destroy;; destroy_ui destroy) (Some m, w) = Some (tt, (None, w')).
Proof. intros E. unfold destroy_ui, mbind, ST_bind. cbn. by rewrite E. Qed.
