(* ===== verification/AlarmLiveness.v ===== *)
(** The alarm of [openssl speed] goes off, and the calls return: liveness of
    [AppsWin] in infinite runs whose scheduler is fair. *)
From Stdlib Require Import ZArith Lia SpecFloat.
From stdpp Require Import prelude gmap.
From S2P Require Import Prelude CInt Times AppsWin AppsWinProperties.

Local Open Scope Z_scope.

(** ** Infinite runs *)

(** What holds stays until something comes of it; when the event occurs that
    brings it about, it comes. *)
Lemma ensures (P Q event : nat → Prop) (i : nat) :
  P i → (∀ j, P j → P (S j) ∨ Q j ∨ Q (S j)) → (∀ j, P j → event j → Q j ∨ Q (S j)) →
  (∃ j, (i ≤ j)%nat ∧ event j) → ∃ j, (i ≤ j)%nat ∧ Q j.
Proof.
  intros HP Hstep Hev (k & Hik & Hk).
  assert (H : ∀ n, P (i + n)%nat ∨ ∃ j, (i ≤ j)%nat ∧ Q j).
  { induction n as [|n [IH|IH]]; [left; by rewrite Nat.add_0_r| |by right].
    rewrite Nat.add_succ_r. destruct (Hstep (i + n)%nat IH) as [?|[?|?]]; [by left|right..];
      eexists; (split; [|done]); lia. }
  destruct (H (k - i)%nat) as [Hp|?]; [|done]. replace (i + (k - i))%nat with k in Hp by lia.
  destruct (Hev k Hp Hk); eexists; (split; [|done]); lia.
Qed.

(** A measure that goes down again and again until there is a result. *)
Lemma measure_ends {A} (at_ : nat → A → Prop) (rank : A → nat) (Q : nat → Prop) :
  (∀ i x, at_ i x → ∃ j, (i ≤ j)%nat ∧ (Q j ∨ ∃ y, at_ j y ∧ (rank y < rank x)%nat)) →
  ∀ i x, at_ i x → ∃ j, (i ≤ j)%nat ∧ Q j.
Proof.
  intros Hm i x. remember (rank x) as r eqn:Er. revert i x Er.
  induction r as [r IH] using (well_founded_induction lt_wf). intros i x -> Hi.
  destruct (Hm i x Hi) as (j & Hj & [HQ|(y & Hy & Hr)]); [by exists j|].
  destruct (IH _ Hr j y eq_refl Hy) as (k & Hk & HQ). exists k. split; [lia|done].
Qed.

Section runs.
Context (tick : Z) (h : nat) (time : Z) (σ : nat → process).
Implicit Types (i j : nat) (t : nat).

(** A run of the process, in which time goes on. *)
Definition run_of : Prop :=
  rtc (step tick) (initial h time) (σ 0%nat) ∧ (∀ i, step tick (σ i) (σ (S i))) ∧
  ∀ n, ∃ i, n <= now (σ i).

(** A thread that could go on goes on, as long as the process is there. *)
Definition fair_timer t : Prop :=
  ∀ i, ∃ j, (i ≤ j)%nat ∧
    (speed_timer_step tick t (σ j) = None ∨ speed_timer_step tick t (σ j) = Some (σ (S j)) ∨ ¬ running (σ j)).

(** The main thread in [speed_alarm] or [speed_alarm_free] goes on. *)
Definition fair_main : Prop :=
  ∀ i, ∃ j, (i ≤ j)%nat ∧
    (main (σ j) = Idle ∨ (∃ r, speed_alarm_step r (σ j) = Some (σ (S j))) ∨
     (∃ r, speed_alarm_free_step r (σ j) = Some (σ (S j))) ∨ ¬ running (σ j)).

(** The handler has been called for [t]; the process ends, or [t] is terminated. *)
Definition fires t j : Prop := ∃ f at_, (t, f, at_) ∈ fired (σ j).
Definition stopped t j : Prop :=
  ¬ running (σ j) ∨
  ∃ run, run ≠ 0 ∧ main (σ j) = FreeTest run ∧ speed_thread (σ j) = Some t.

Context (Hrun : run_of).

Lemma run_inv i : Inv tick (σ i).
Proof using Hrun.
  destruct Hrun as (H0 & Hs & _). induction i as [|i IH]; [by eapply alarm_inv|].
  by eapply step_keeps.
Qed.

Lemma now_mono i j : (i ≤ j)%nat → now (σ i) <= now (σ j).
Proof using Hrun.
  destruct Hrun as (_ & Hs & _). induction 1 as [|j Hj IH]; [lia|].
  assert (now (σ j) <= now (σ (S j))); [|lia]. clear -Hs.
  destruct (Hs j) as [s n|c s|r s s' _ E|r s s' _ E|t s s' _ E]; [done|by destruct c| | |].
  - unfold speed_alarm_step in E. destruct (main s); try done; [by simplify_eq..| |].
    + destruct r; simplify_eq; done.
    + destruct (_ =? _); by simplify_eq.
  - unfold speed_alarm_free_step in E. destruct (main s); try done; try (by simplify_eq).
    + destruct (_ =? _); [by simplify_eq|]. destruct r; [done| |by simplify_eq].
      destruct (speed_thread s); by simplify_eq.
    + destruct r; by simplify_eq.
  - unfold speed_timer_step in E. destruct (timers s !! t) as [[]|]; try done; try (by simplify_eq).
    + destruct (_ <=? _); by simplify_eq.
    + destruct (speed_alarm_handler s); [|done]. cbn in E. by simplify_eq.
Qed.

(** ** The alarm *)

Definition rank (x : timer) : nat :=
  match x with AtLock => 4 | AtSleep => 3 | Asleep _ => 2 | AtHandler => 1 | Over => 0 end.

(** What the thread's own step does. *)
Lemma timer_step_moves s s' t x :
  speed_timer_step tick t s = Some s' → timers s !! t = Some x →
  (∃ f at_, (t, f, at_) ∈ fired s') ∨
  ∃ y, timers s' !! t = Some y ∧ y ≠ Over ∧ (rank y < rank x)%nat.
Proof using.
  unfold speed_timer_step. intros E Hx. rewrite Hx in E. destruct x as [| |u| |]; try done.
  - injection E as <-. right. exists AtSleep. cbn. by rewrite lookup_insert_eq; split_and!; [| |lia].
  - injection E as <-. right. eexists. cbn. rewrite lookup_insert_eq. split_and!; [done|done|cbn; lia].
  - destruct (_ <=? _); [|done]. injection E as <-. right. exists AtHandler. cbn.
    by rewrite lookup_insert_eq; split_and!; [| |lia].
  - left. destruct (speed_alarm_handler s) as [f|]; [|done]. cbn in E. injection E as <-.
    exists f, (now s). cbn. left.
Qed.

(** Other steps leave it where it is, unless it is terminated. *)
Lemma others_keep s s' t x :
  step tick s s' → timers s !! t = Some x →
  timers s' !! t = Some x ∨ speed_timer_step tick t s = Some s' ∨
  ∃ run, run ≠ 0 ∧ main s = FreeTest run ∧ speed_thread s = Some t.
Proof using.
  intros [s0 n _|c s0 _ _|r s0 s1 Hr E|r s0 s1 _ E|u s0 s1 _ E] Hx; [by left|by left; destruct c| | |].
  - left. unfold speed_alarm_step in E. destruct (main s0); try done; try (by simplify_eq).
    + destruct r as [u| |]; try done; [|by simplify_eq]. injection E as <-. cbn in *.
      rewrite lookup_insert_ne; [done|congruence].
    + destruct (_ =? _); by simplify_eq.
  - unfold speed_alarm_free_step in E. destruct (main s0) as [| | | | |run| | | | |] eqn:Em; try done;
      try (left; by simplify_eq).
    + destruct (Z.eqb_spec run 0) as [|Hz]; [left; by simplify_eq|].
      destruct r as [| |]; [done| |left; by simplify_eq].
      destruct (speed_thread s0) as [u|] eqn:Eu; [|done]. injection E as <-.
      destruct (decide (u = t)) as [->|Hne]; [right; right; eauto|]. left. cbn.
      by rewrite lookup_insert_ne.
    + left. destruct r; by simplify_eq.
  - destruct (decide (u = t)) as [->|Hne]; [by right; left|]. left. unfold speed_timer_step in E.
    destruct (timers s0 !! u) as [[]|]; try done; try (injection E as <-; cbn; by rewrite lookup_insert_ne).
    + destruct (_ <=? _); [|done]. injection E as <-. cbn. by rewrite lookup_insert_ne.
    + destruct (speed_alarm_handler s0); [|done]. cbn in E. injection E as <-. cbn.
      by rewrite lookup_insert_ne.
Qed.

(** From some time on it can go on. *)
Lemma timer_enabled i t x :
  x ≠ Over → ∃ i', (i ≤ i')%nat ∧ ∀ j, (i' ≤ j)%nat → timers (σ j) !! t = Some x →
    speed_timer_step tick t (σ j) ≠ None.
Proof using Hrun.
  intros Ho. destruct x as [| |u| |]; [| | | |done].
  - exists i. split; [done|]. intros j _ Hx. unfold speed_timer_step. by rewrite Hx.
  - exists i. split; [done|]. intros j _ Hx. unfold speed_timer_step. by rewrite Hx.
  - destruct Hrun as (_ & _ & Ht). destruct (Ht (u - tick)) as [k Hk]. exists (i `max` k)%nat.
    split; [lia|]. intros j Hj Hx. unfold speed_timer_step. rewrite Hx.
    pose proof (now_mono k j ltac:(lia)). by rewrite (proj2 (Z.leb_le _ _)) by lia.
  - exists i. split; [done|]. intros j _ Hx. unfold speed_timer_step. rewrite Hx.
    by destruct (inv_handler _ _ (run_inv j)) as [f ->].
Qed.

Lemma timer_moves t i x :
  fair_timer t → timers (σ i) !! t = Some x ∧ x ≠ Over →
  ∃ j, (i ≤ j)%nat ∧ ((fires t j ∨ stopped t j) ∨
    ∃ y, (timers (σ j) !! t = Some y ∧ y ≠ Over) ∧ (rank y < rank x)%nat).
Proof using Hrun.
  intros Hf [Hx Ho]. destruct (timer_enabled i t x Ho) as (i' & Hi & Hen).
  assert (Hown : ∀ j, timers (σ j) !! t = Some x → speed_timer_step tick t (σ j) = Some (σ (S j)) →
    (fires t (S j) ∨ stopped t (S j)) ∨
    ∃ y, (timers (σ (S j)) !! t = Some y ∧ y ≠ Over) ∧ (rank y < rank x)%nat).
  { intros j Hj E. destruct (timer_step_moves _ _ _ _ E Hj) as [?|(y & ?)]; [by left; left|].
    right. exists y. naive_solver. }
  apply (ensures (λ j, timers (σ j) !! t = Some x) _ (λ j, (i' ≤ j)%nat ∧
    (speed_timer_step tick t (σ j) = None ∨ speed_timer_step tick t (σ j) = Some (σ (S j)) ∨
     ¬ running (σ j)))); [done| | |].
  - intros j Hj. destruct (others_keep _ _ t x (proj1 (proj2 Hrun) j) Hj) as [?|[E|Hs]]; [by left| |].
    + right; right. by apply Hown.
    + right; left. left; right. by right.
  - intros j Hj (Hi' & [E|[E|Hr]]); [by destruct (Hen j Hi' Hj)|by right; apply Hown|].
    left. left; right. by left.
  - destruct (Hf i') as (j & ? & ?). exists j. split; [lia|done].
Qed.

Lemma timer_goes_off t i x :
  fair_timer t → timers (σ i) !! t = Some x → x ≠ Over →
  ∃ j, (i ≤ j)%nat ∧ (fires t j ∨ stopped t j).
Proof using Hrun.
  intros Hf Hx Ho.
  apply (measure_ends (λ j y, timers (σ j) !! t = Some y ∧ y ≠ Over) rank _) with x; [|done].
  intros k y Hy. by apply timer_moves.
Qed.

(** ** The calls *)

Definition main_rank (p : pc) : nat :=
  match p with
  | AlarmLapse _ => 4 | AlarmClear _ => 3 | AlarmCreate _ => 2 | AlarmSpin _ => 1
  | FreeTest _ => 5 | FreeClose => 4 | FreeThread => 3 | FreeLapse => 2 | FreeLock => 1
  | Idle | Exited _ => 0
  end.

Definition returned j : Prop := main (σ j) = Idle ∨ ¬ running (σ j).

(** Only its own steps move the main thread in a call. *)
Lemma main_others s s' :
  step tick s s' → main s ≠ Idle →
  main s' = main s ∨ (∃ r, speed_alarm_step r s = Some s') ∨ ∃ r, speed_alarm_free_step r s = Some s'.
Proof using.
  intros [s0 n _|c s0 Hm _|r s0 s1 _ E|r s0 s1 _ E|u s0 s1 _ E] Hi; [by left|done|by eauto..|].
  left. unfold speed_timer_step in E. destruct (timers s0 !! u) as [[]|]; try done; try (by simplify_eq).
  - destruct (_ <=? _); by simplify_eq.
  - destruct (speed_alarm_handler s0); [|done]. cbn in E. by simplify_eq.
Qed.

(** They move it on, but for the loop that waits for the thread. *)
Lemma main_own s s' :
  (∃ r, speed_alarm_step r s = Some s') ∨ (∃ r, speed_alarm_free_step r s = Some s') →
  (∃ code, main s' = Exited code) ∨ (main_rank (main s') < main_rank (main s))%nat ∨
  (s' = s ∧ speed_schlock s = 0 ∧ ∃ n, main s = AlarmSpin n).
Proof using.
  intros [[r E]|[r E]].
  - unfold speed_alarm_step in E. destruct (main s) as [|n|n|n|n| | | | | |] eqn:Em; try done.
    + injection E as <-. cbn. right; left. lia.
    + injection E as <-. cbn. right; left. lia.
    + destruct r; simplify_eq; cbn; [right; left; lia|left; by eexists].
    + destruct (Z.eqb_spec (speed_schlock s) 0); injection E as <-; cbn; [|right; left; lia].
      right; right. eauto.
  - unfold speed_alarm_free_step in E. destruct (main s) as [| | | | |run| | | | |] eqn:Em; try done;
      try (injection E as <-; cbn; right; left; lia).
    + destruct (_ =? _); [injection E as <-; cbn; right; left; lia|].
      destruct r; [done| |injection E as <-; left; by eexists].
      destruct (speed_thread s); [|done]. injection E as <-. cbn. right; left. lia.
    + destruct r; [done| |]; injection E as <-; cbn; [right; left; lia|left; by eexists].
Qed.

(** In the loop: the thread takes the lock, nobody releases it, and the loop ends. *)
Lemma spin_step s s' n :
  step tick s s' → main s = AlarmSpin n →
  main s' = Idle ∨ main s' = AlarmSpin n ∧ (speed_schlock s ≠ 0 → speed_schlock s' ≠ 0).
Proof using.
  intros [s0 m _|c s0 Hm _|r s0 s1 _ E|r s0 s1 _ E|u s0 s1 _ E] Hi.
  - by right.
  - congruence.
  - unfold speed_alarm_step in E. rewrite Hi in E. destruct (_ =? _); injection E as <-; [by right|by left].
  - unfold speed_alarm_free_step in E. by rewrite Hi in E.
  - right. unfold speed_timer_step in E. destruct (timers s0 !! u) as [[]|]; try done.
    + injection E as <-. done.
    + injection E as <-. done.
    + destruct (_ <=? _); [|done]. injection E as <-. done.
    + destruct (speed_alarm_handler s0); [|done]. cbn in E. by injection E as <-.
Qed.

Lemma lock_taken i n :
  (∀ t, fair_timer t) → main (σ i) = AlarmSpin n → speed_schlock (σ i) = 0 →
  ∃ j, (i ≤ j)%nat ∧ (returned j ∨ main (σ j) = AlarmSpin n ∧ speed_schlock (σ j) ≠ 0).
Proof using Hrun.
  intros Hf Hm Hz. pose proof (inv_main _ _ (run_inv i)) as HM. unfold main_ok in HM. rewrite Hm in HM.
  destruct HM as (t & x & _ & Hx & Hl). rewrite (Hl Hz) in Hx.
  assert (Hown : ∀ j, main (σ j) = AlarmSpin n → timers (σ j) !! t = Some AtLock →
    speed_timer_step tick t (σ j) = Some (σ (S j)) →
    main (σ (S j)) = AlarmSpin n ∧ speed_schlock (σ (S j)) ≠ 0).
  { intros j Hj Ht E. unfold speed_timer_step in E. rewrite Ht in E. injection E as <-. done. }
  apply (ensures (λ j, main (σ j) = AlarmSpin n ∧ timers (σ j) !! t = Some AtLock) _
    (λ j, speed_timer_step tick t (σ j) = None ∨ speed_timer_step tick t (σ j) = Some (σ (S j)) ∨
      ¬ running (σ j))); [done| | |by apply Hf].
  - intros j [Hj Ht]. pose proof (proj1 (proj2 Hrun) j) as Hs.
    destruct (spin_step _ _ n Hs Hj) as [?|[Hj' _]]; [by right; right; left; left|].
    destruct (others_keep _ _ t AtLock Hs Ht) as [?|[E|(run & _ & Hc & _)]]; [by left| |congruence].
    right; right. right. by apply Hown.
  - intros j [Hj Ht] [E|[E|Hr]].
    + unfold speed_timer_step in E. by rewrite Ht in E.
    + right. right. by apply Hown.
    + left. left. by right.
Qed.

(** The statement the main thread is at, which it can leave. *)
Lemma main_moves i p :
  (∀ t, fair_timer t) → fair_main → main (σ i) = p →
  ∃ j, (i ≤ j)%nat ∧ (returned j ∨ ∃ q, main (σ j) = q ∧ (main_rank q < main_rank p)%nat).
Proof using Hrun.
  intros Hf Hfm Hi. set (Q j := returned j ∨ ∃ q, main (σ j) = q ∧ (main_rank q < main_rank p)%nat).
  assert (Hgo : ∀ k, (i ≤ k)%nat → (main (σ k) = p ∧ (∀ n, p = AlarmSpin n → speed_schlock (σ k) ≠ 0)) →
    ∃ j, (k ≤ j)%nat ∧ Q j).
  { intros k Hk HP.
    assert (Hown : ∀ j, main (σ j) = p → (∀ n, p = AlarmSpin n → speed_schlock (σ j) ≠ 0) →
      (∃ r, speed_alarm_step r (σ j) = Some (σ (S j))) ∨
      (∃ r, speed_alarm_free_step r (σ j) = Some (σ (S j))) → Q (S j)).
    { intros j Hj Hl E. destruct (main_own _ _ E) as [[c Hc]|[Hr|(_ & Hz & n & Hn)]].
      - left; right. intros Hr. by destruct (Hr c).
      - right. eexists. split; [done|]. by rewrite <-Hj.
      - rewrite Hj in Hn. by destruct (Hl n Hn). }
    refine (ensures (λ j, main (σ j) = p ∧ (∀ n, p = AlarmSpin n → speed_schlock (σ j) ≠ 0)) Q _ k HP _ _ (Hfm k)).
    - intros j [Hj Hl]. pose proof (proj1 (proj2 Hrun) j) as Hs.
      destruct (decide (main (σ j) = Idle)) as [Hd|Hd]; [by right; left; left; left|].
      destruct (main_others _ _ Hs Hd) as [E|E]; [|by right; right; apply Hown]. left.
      split; [congruence|]. intros n ->. destruct (spin_step _ _ n Hs Hj) as [?|[_ H]]; [congruence|].
      by apply H, (Hl n).
    - intros j [Hj Hl] [Hd|[E|[E|Hr]]]; [by left; left; left|right; by apply Hown; eauto..|].
      left. left. by right. }
  assert (Hc : (∃ n, p = AlarmSpin n ∧ speed_schlock (σ i) = 0) ∨
    (∀ n, p = AlarmSpin n → speed_schlock (σ i) ≠ 0)).
  { destruct (decide (speed_schlock (σ i) = 0)); [|by right]. destruct p; eauto; by right. }
  destruct Hc as [(n & -> & Hz)|Hn].
  - destruct (lock_taken i n Hf Hi Hz) as (k & Hk & [?|[Hm Hl]]); [exists k; split; [done|by left]|].
    destruct (Hgo k Hk) as (j & ? & ?); [by split|]. exists j. split; [lia|done].
  - by apply (Hgo i).
Qed.

Lemma call_returns i :
  (∀ t, fair_timer t) → fair_main → ∃ j, (i ≤ j)%nat ∧ returned j.
Proof using Hrun.
  intros Hf Hm.
  apply (measure_ends (λ j q, main (σ j) = q) main_rank returned) with (main (σ i)); [|done].
  intros k q Hq. by apply main_moves.
Qed.
End runs.

(** C23: In every run in which time goes on and no thread is neglected, an alarm
    that has been set goes off, unless it is terminated by [speed_alarm_free] or
    the process ends before; and every call of [speed_alarm], which waits for the
    thread it makes, and of [speed_alarm_free] returns, unless the process ends. *)
Theorem alarm_goes_off tick h time (σ : nat → process) :
  run_of tick h time σ → (∀ t, fair_timer tick σ t) → fair_main σ →
  (∀ i t x, timers (σ i) !! t = Some x → x ≠ Over →
     ∃ j, (i ≤ j)%nat ∧ ((∃ f at_, (t, f, at_) ∈ fired (σ j)) ∨ ¬ running (σ j) ∨
       ∃ run, run ≠ 0 ∧ main (σ j) = FreeTest run ∧ speed_thread (σ j) = Some t)) ∧
  (∀ i, ∃ j, (i ≤ j)%nat ∧ (main (σ j) = Idle ∨ ¬ running (σ j))).
Proof.
  intros Hr Hf Hm. split.
  - intros i t x Hx Ho. by apply (timer_goes_off tick h time σ Hr t i x).
  - intros i. by apply (call_returns tick h time σ Hr).
Qed.

(** ** A run *)

Lemma set_now_id s : set_now (now s) s = s.
Proof. by destruct s. Qed.

Lemma legal_step tick ws s i w :
  legal tick ws s → ws !! i = Some w →
  ∃ s1 s2, run_turns tick (take i ws) s = Some s1 ∧ run_turns tick (take (S i) ws) s = Some s2 ∧
    step tick s1 s2.
Proof.
  revert s i. induction ws as [|v ws IH]; intros s i Hl Hw; [done|]. destruct Hl as [Hv Hl].
  destruct (take_turn tick v s) as [s1|] eqn:E; [|done]. destruct i as [|i].
  - exists s, s1. split; [done|]. split; [by cbn; rewrite E|]. destruct v; cbn in E.
    + injection E as <-. by apply step_time.
    + injection E as <-. destruct Hv. by apply step_call.
    + by eapply step_alarm.
    + by eapply step_free.
    + by eapply step_timer.
  - destruct (IH s1 i Hl Hw) as (s2 & s3 & H1 & H2 & H3). exists s2, s3.
    unfold run_turns in *. cbn. by rewrite E.
Qed.

(** Some turns, which leave no thread at work, and then time. *)
Section endless.
Context (tick : Z) (h : nat) (time : Z) (ws : list turn) (last : process).
Context (Hlegal : legal tick ws (initial h time)) (Hlast : run_turns tick ws (initial h time) = Some last).
Context (Hidle : main last = Idle) (Hover : ∀ t x, timers last !! t = Some x → x = Over).

Definition endless (i : nat) : process :=
  let s := default last (run_turns tick (take i ws) (initial h time)) in
  set_now (now s + Z.of_nat (i - length ws)) s.

Lemma endless_after i :
  (length ws ≤ i)%nat → endless i = set_now (now last + Z.of_nat (i - length ws)) last.
Proof using Hlast. intros Hi. unfold endless. by rewrite take_ge, Hlast by done. Qed.

Lemma endless_steps i : step tick (endless i) (endless (S i)).
Proof using Hlegal Hlast.
  destruct (decide (i < length ws)%nat) as [Hi|Hi].
  - destruct (lookup_lt_is_Some_2 ws i Hi) as [w Hw].
    destruct (legal_step tick ws _ i w Hlegal Hw) as (s1 & s2 & H1 & H2 & Hs).
    unfold endless. rewrite H1, H2. cbn [default].
    replace (i - length ws)%nat with O by lia. replace (S i - length ws)%nat with O by lia.
    by rewrite !Z.add_0_r, !set_now_id.
  - rewrite (endless_after i), (endless_after (S i)) by lia.
    apply (step_time tick (set_now (now last + Z.of_nat (i - length ws)) last)). cbn. lia.
Qed.

Lemma endless_fair :
  run_of tick h time endless ∧ (∀ t, fair_timer tick endless t) ∧ fair_main endless.
Proof using Hlegal Hlast Hidle Hover.
  split; [|split].
  - split; [unfold endless; rewrite Nat.sub_0_l, Z.add_0_r, set_now_id; constructor|].
    split; [apply endless_steps|]. intros n. exists (length ws + Z.to_nat (n - now last))%nat.
    rewrite endless_after by lia. cbn. lia.
  - intros t i. exists (i `max` length ws)%nat. split; [lia|]. left.
    rewrite endless_after by lia. unfold speed_timer_step. cbn.
    destruct (timers last !! t) as [x|] eqn:Ex; [|done]. by rewrite (Hover t x Ex).
  - intros i. exists (i `max` length ws)%nat. split; [lia|]. left. by rewrite endless_after by lia.
Qed.
End endless.

Definition demo_end : process := default (initial 7 100) (run_turns 15 demo_turns (initial 7 100)).
Definition demo_run : nat → process := endless 15 7 100 demo_turns demo_end.

Lemma demo_fair :
  run_of 15 7 100 demo_run ∧ (∀ t, fair_timer 15 demo_run t) ∧ fair_main demo_run.
Proof.
  apply endless_fair; [exact demo_legal|vm_compute; reflexivity|vm_compute; reflexivity|].
  assert (H : timers demo_end = <[5%nat := Over]> {[4%nat := Over]}) by (vm_compute; reflexivity).
  intros t x. rewrite H. by intros [[_ <-]|[_ [_ <-]%lookup_singleton_Some]]%lookup_insert_Some.
Qed.

Lemma alarm_goes_off_witness :
  run_of 15 7 100 demo_run ∧ timers (demo_run 6) !! 4%nat = Some AtSleep ∧
  (∃ j, (6 ≤ j)%nat ∧ ((∃ f at_, (4%nat, f, at_) ∈ fired (demo_run j)) ∨ ¬ running (demo_run j) ∨
    ∃ run, run ≠ 0 ∧ main (demo_run j) = FreeTest run ∧ speed_thread (demo_run j) = Some 4%nat)) ∧
  main (demo_run 4) = AlarmSpin 1 ∧
  ∃ j, (4 ≤ j)%nat ∧ (main (demo_run j) = Idle ∨ ¬ running (demo_run j)).
Proof.
  destruct demo_fair as (Hr & Hf & Hm).
  destruct (alarm_goes_off 15 7 100 demo_run Hr Hf Hm) as [H1 H2].
  assert (H6 : timers (demo_run 6) !! 4%nat = Some AtSleep) by (vm_compute; reflexivity).
  split; [exact Hr|]. split; [exact H6|]. split; [exact (H1 6%nat 4%nat AtSleep H6 ltac:(discriminate))|].
  split; [vm_compute; reflexivity|exact (H2 4%nat)].
Defined.
