(* ===== verification/System.v ===== *)
(** Small functions around calls of the system: [crypto/compat/b_win.c],
    [syslog_r.c], the variants of [getprogname], [getpagesize.c],
    [apps/openssl/certhash_win.c], the inline functions
    of [include/compat/err.h], [stdio.h], [string.h] and [unistd.h], the macros
    of [include/compat/sys/stat.h], and the detection of processor features in
    [crypto/arch/aarch64]. *)
From Stdlib Require Import ZArith Lia.
From stdpp Require Import prelude gmap.
From S2P Require Import Prelude CInt PosixWin Stdio.

Local Open Scope Z_scope.

(** ** Winsock, [b_win.c] *)

Section b_win.
Context {W : Type}.
(** The calls of Winsock, and the two that put an error into the queue of
    [libcrypto]. *)
Variables (WSAStartup : ST W Z) (WSAGetLastError : ST W Z).
Variables (SYSerror : Z → ST W unit) (BIOerror_WSASTARTUP : ST W unit).
Variable ioctlsocket_FIONBIO : Z → Z → ST W Z.

(** On [W]. *)
Definition on_rest {A} (m : ST W A) : ST (Z * W) A := λ s,
  '(a, w) ← m s.2; Some (a, (s.1, w)).

(** The state is [wsa_init_done] and the rest. *)
Definition BIO_sock_init : ST (Z * W) Z :=
  wsa_init_done ← gets fst;
  if wsa_init_done =? 0 then
    r ← on_rest WSAStartup;
    if negb (r =? 0) then
      err ← on_rest WSAGetLastError;
      on_rest (SYSerror err);;
      on_rest BIOerror_WSASTARTUP;;
      mret (-1)
    else modify (λ s, (1, s.2));; mret 1
  else mret 1.

Definition BIO_sock_cleanup : ST (Z * W) unit := mret tt.

(** [value] is a [u_long]. *)
Definition BIO_socket_nbio (s mode : Z) : ST W Z :=
  let value := u32 mode in
  r ← ioctlsocket_FIONBIO s value;
  mret (if negb (r =? SOCKET_ERROR) then 1 else 0).
End b_win.

(** ** Messages, [err.h] *)

(** What is written to standard error, and what ends the process. *)
Inductive item := Formatted (text : list Z) | Colon | Strerror (e : errno_code) | Newline.

Section err.
Context {W : Type}.
(** One write to standard error: it may change [errno]. *)
Variable output : item → ST (sys W) unit.
Local Abbreviation M := (ST (sys W)).

Definition print_fmt (fmt : option (list Z)) (colon : bool) : M unit :=
  match fmt with
  | Some text =>
      output (Formatted text);;
      if colon then output Colon else mret tt
  | None => mret tt
  end.

Definition warn (fmt : option (list Z)) : M unit :=
  sverrno ← gets errno;
  print_fmt fmt true;;
  output (Strerror sverrno);; output Newline.

Definition vwarnx (fmt : option (list Z)) : M unit :=
  print_fmt fmt false;; output Newline.

Definition warnx (fmt : option (list Z)) : M unit := vwarnx fmt.

(** The result is the argument of [exit]. *)
Definition err (eval : Z) (fmt : option (list Z)) : M Z :=
  sverrno ← gets errno;
  print_fmt fmt true;;
  output (Strerror sverrno);; output Newline;;
  mret eval.

Definition errx (eval : Z) (fmt : option (list Z)) : M Z :=
  print_fmt fmt false;; output Newline;;
  mret eval.
End err.

(** [posix_strerror], of [string.h]; the text is given by the code it is of. *)
Inductive error_text := Connection_refused | Text_of (e : errno_code).

Definition posix_strerror (errnum : errno_code) : error_text :=
  if decide (errnum = ECONNREFUSED) then Connection_refused else Text_of errnum.

(** ** Logging without [vsyslog], [syslog_r.c] *)

Section syslog.
Context (junk : Z) (text : option (list Z)).

(** The characters of a string before its NUL. *)
Fixpoint until_nul (b : list Z) : option (list Z) :=
  match b with
  | [] => None
  | c :: b => if c =? 0 then Some [] else cons c <$> until_nul b
  end.

(** What is called, if something is: [vsyslog(pri, fmt, ap)], with what its format
    and arguments are formatted to, or [syslog(pri, "%s", msg)]. *)
Inductive logged := Vsyslog (pri : Z) (text : option (list Z)) | Syslog (pri : Z) (msg : list Z).

(** With the functions that the system has. *)
Definition vsyslog_r (HAVE_SYSLOG HAVE_VSYSLOG : bool) (pri : Z) : ST (sys heap_state) (option logged) :=
  if HAVE_SYSLOG then
    if HAVE_VSYSLOG then mret (Some (Vsyslog pri text))
    else
      set_str None;;
      r ← vasprintf junk text;
      if r =? -1 then mret None
      else
        msg ← gets (λ s, str (world s));
        b ← get_block msg;
        t ← of_option (until_nul b);
        free_block msg;;
        mret (Some (Syslog pri t))
  else mret None.

Definition syslog_r (HAVE_SYSLOG HAVE_VSYSLOG : bool) (pri : Z) : ST (sys heap_state) (option logged) :=
  vsyslog_r HAVE_SYSLOG HAVE_VSYSLOG pri.
End syslog.

(** ** [snprintf] of old Visual C, [stdio.h] *)

(** [_vsnprintf] gives its result and the array: it stores at most [size]
    characters, and no NUL when the text has as many. *)
Definition libressl_snprintf (_vsnprintf : list Z → Z → Z * list Z) (str : list Z) (size : Z) :
    option (Z * list Z) :=
  let '(ret, str) := _vsnprintf str size in
  if negb (size =? 0) then str ← set_char str (size - 1) 0; Some (ret, str)
  else Some (ret, str).

(** ** The program and the system *)

(** [getprogname_windows.c]: [GetModuleFileName] gives its result and what it
    puts into the array of [MAX_PATH + 1] characters; the name, or ["?"]. *)
Definition getprogname (MAX_PATH : nat) (GetModuleFileName : list Z → Z → Z * list Z) :
    ST (list Z) (option (list Z)) := λ progname,
  let '(length, progname) := GetModuleFileName progname (Z.of_nat MAX_PATH) in
  if length =? 0 then Some (None, progname)
  else
    progname ← set_char progname length 0;
    name ← until_nul progname; Some (Some name, progname).

(** [getprogname_linux.c]; [android_api] is [__ANDROID_API__] where it is defined,
    and the other two are variables of the C library. *)
Definition getprogname_linux (android_api : option Z) (__progname program_invocation_short_name : ptr) : ptr :=
  if match android_api with Some v => v <? 21 | None => false end
  then __progname else program_invocation_short_name.

(** [getprogname_unimpl.c]: ["?"]. *)
Definition getprogname_unimpl : list Z := [63; 0].

(** [certhash_win.c]: one message. *)
Inductive certhash_text := certhash_is_not_enabled_on_this_platform.

Definition certhash_main {W} (fprintf_stderr : certhash_text → ST W unit) : ST W Z :=
  fprintf_stderr certhash_is_not_enabled_on_this_platform;; mret 1.

(** [getpagesize.c], on Windows and elsewhere: [dwPageSize], or a [long]. *)
Definition getpagesize (win32 : bool) (dwPageSize sysconf : Z) : Z :=
  if win32 then s32 dwPageSize else s32 sysconf.

(** [sleep] of [unistd.h]: what [Sleep] is called with, in milliseconds, and the
    result. *)
Definition sleep (seconds : Z) : Z * Z := (u32 (seconds * 1000), seconds).

(** ** Modes of files, [sys/stat.h] *)

(** What Microsoft's headers define, and the types they do not have. *)
Definition S_IFMT : Z := 0xF000.
Definition S_IFDIR : Z := 0x4000.
Definition S_IFCHR : Z := 0x2000.
Definition S_IFIFO : Z := 0x1000.
Definition S_IFREG : Z := 0x8000.
Definition S_IFBLK : Z := 0.
Definition S_IFLNK : Z := 0.
Definition S_IFSOCK : Z := 0.

Definition IFTODT (mode : Z) : Z := Z.land mode S_IFMT.
Definition DTTOIF (type : Z) : Z := type.

Definition S_ISFIFO (mode : Z) : bool := Z.land mode S_IFMT =? S_IFIFO.
Definition S_ISDIR (mode : Z) : bool := Z.land mode S_IFMT =? S_IFDIR.
Definition S_ISREG (mode : Z) : bool := Z.land mode S_IFMT =? S_IFREG.
Definition S_ISLNK (mode : Z) : bool := Z.land mode S_IFMT =? S_IFLNK.
Definition S_ISSOCK (mode : Z) : bool := Z.land mode S_IFMT =? S_IFSOCK.
Definition S_ISCHR (mode : Z) : bool := Z.land mode S_IFMT =? S_IFCHR.
Definition S_ISBLK (mode : Z) : bool := Z.land mode S_IFMT =? S_IFBLK.

(** ** Processor features, [crypto/arch/aarch64] *)

(** The features of [crypto_arch.h], which is not here, as the values the files
    use. *)
Record caps := Caps { AES : Z; PMULL : Z; SHA1 : Z; SHA2 : Z; SHA512 : Z; SHA3 : Z }.

Section caps.
Context (c : caps).

(** [crypto_cpu_caps_linux.c]; [hwcap] is [getauxval(AT_HWCAP)]. *)
Definition HWCAP_AES : Z := Z.shiftl 1 3.
Definition HWCAP_PMULL : Z := Z.shiftl 1 4.
Definition HWCAP_SHA1 : Z := Z.shiftl 1 5.
Definition HWCAP_SHA2 : Z := Z.shiftl 1 6.
Definition HWCAP_SHA3 : Z := Z.shiftl 1 17.
Definition HWCAP_SHA512 : Z := Z.shiftl 1 21.

Definition check_hwcap (at_hwcap hwcap cap_flag : Z) : Z :=
  if negb (Z.land at_hwcap hwcap =? 0) then cap_flag else 0.

Definition caps_init_linux (at_hwcap : Z) : Z :=
  let caps := 0 in
  let caps := Z.lor caps (check_hwcap at_hwcap HWCAP_AES (AES c)) in
  let caps := Z.lor caps (check_hwcap at_hwcap HWCAP_PMULL (PMULL c)) in
  let caps := Z.lor caps (check_hwcap at_hwcap HWCAP_SHA1 (SHA1 c)) in
  let caps := Z.lor caps (check_hwcap at_hwcap HWCAP_SHA2 (SHA2 c)) in
  let caps := Z.lor caps (check_hwcap at_hwcap HWCAP_SHA512 (SHA512 c)) in
  Z.lor caps (check_hwcap at_hwcap HWCAP_SHA3 (SHA3 c)).

(** [crypto_cpu_caps_darwin.c]: [sysctlbyname] gives the value of a name, or
    nothing when it fails. *)
Inductive feature := FEAT_AES | FEAT_PMULL | FEAT_SHA1 | FEAT_SHA256 | FEAT_SHA512 | FEAT_SHA3.

Definition check_cpu_cap (sysctlbyname : feature → option Z) (cap_name : feature) (cap_flag : Z) : Z :=
  let has_cap := default 0 (sysctlbyname cap_name) in
  if negb (has_cap =? 0) then cap_flag else 0.

Definition caps_init_darwin (sysctlbyname : feature → option Z) : Z :=
  let check := check_cpu_cap sysctlbyname in
  let caps := 0 in
  let caps := Z.lor caps (check FEAT_AES (AES c)) in
  let caps := Z.lor caps (check FEAT_PMULL (PMULL c)) in
  let caps := Z.lor caps (check FEAT_SHA1 (SHA1 c)) in
  let caps := Z.lor caps (check FEAT_SHA256 (SHA2 c)) in
  let caps := Z.lor caps (check FEAT_SHA512 (SHA512 c)) in
  Z.lor caps (check FEAT_SHA3 (SHA3 c)).

(** [crypto_cpu_caps_windows.c]; [present] is [IsProcessorFeaturePresent]. *)
Definition caps_init_windows (present : bool) : Z :=
  let caps := 0 in
  if present then
    let caps := Z.lor caps (AES c) in
    let caps := Z.lor caps (PMULL c) in
    let caps := Z.lor caps (SHA1 c) in
    Z.lor caps (SHA2 c)
  else caps.

(** [crypto_cpu_caps_none.c]. *)
Definition caps_init_none : Z := 0.
End caps.
