(* ===== verification/SystemProperties.v ===== *)
(** Properties of the small functions around calls of the system. *)
From Stdlib Require Import ZArith Lia.
From stdpp Require Import prelude gmap.
From S2P Require Import Prelude CInt PosixWin Stdio StdioProperties System.

Local Open Scope Z_scope.
#[local] Arguments wp : simpl never.

(** ** Winsock *)

Section b_win.
Context {W : Type} (WSAStartup WSAGetLastError : ST W Z).
Context (SYSerror : Z → ST W unit) (BIOerror : ST W unit).
Local Abbreviation init := (BIO_sock_init WSAStartup WSAGetLastError SYSerror BIOerror).

Fixpoint init_times (n : nat) : ST (Z * W) (list Z) :=
  match n with
  | O => mret []
  | S n => r ← init; rs ← init_times n; mret (r :: rs)
  end.

(** Once [WSAStartup] has succeeded it is not called again, however often
    [BIO_sock_init] is. *)
Lemma BIO_sock_init_once n w w' :
  WSAStartup w = Some (0, w') → init_times (S n) (0, w) = Some (replicate (S n) 1, (1, w')).
Proof.
  intros E. assert (H1 : ∀ n, init_times n (1, w') = Some (replicate n 1, (1, w'))).
  { clear n. intros n. induction n as [|n IH]; [done|]. cbn [init_times].
    rewrite (bind_run _ _ _ 1 (1, w')) by done. by rewrite (bind_run _ _ _ _ _ IH). }
  cbn [init_times]. rewrite (bind_run _ _ (0, w) 1 (1, w')).
  - by rewrite (bind_run _ _ _ _ _ (H1 n)).
  - unfold BIO_sock_init, mbind, ST_bind, on_rest. cbn. by rewrite E.
Qed.

(** A failure is put into the queue and may be tried again. *)
Lemma BIO_sock_init_fails r e w w1 w2 w3 w4 :
  WSAStartup w = Some (r, w1) → r ≠ 0 → WSAGetLastError w1 = Some (e, w2) →
  SYSerror e w2 = Some (tt, w3) → BIOerror w3 = Some (tt, w4) →
  init (0, w) = Some (-1, (0, w4)).
Proof.
  intros E1 Hr E2 E3 E4. unfold BIO_sock_init, mbind, ST_bind, on_rest. cbn. rewrite E1. cbn.
  rewrite (proj2 (Z.eqb_neq r 0)) by done. cbn. rewrite E2. cbn. rewrite E3. cbn. by rewrite E4.
Qed.
End b_win.

(** ** Messages *)

Section err.
(** What is written, in order; every write leaves some [errno]. *)
Context (clobber : item → errno_code → errno_code).

Definition log_output (i : item) : ST (sys (list item)) unit := λ s,
  Some (tt, Sys (clobber i (errno s)) (world s ++ [i])).

Definition before (fmt : option (list Z)) (colon : bool) : list item :=
  match fmt with
  | Some t => Formatted t :: (if colon then [Colon] else [])
  | None => []
  end.

(** [err] and [warn] tell the error there was when they were called, whatever the
    writes before do to [errno]. *)
Lemma err_tells_entry_errno eval fmt s :
  (∃ e, err log_output eval fmt s =
     Some (eval, Sys e (world s ++ before fmt true ++ [Strerror (errno s); Newline]))) ∧
  (∃ e, warn log_output fmt s =
     Some (tt, Sys e (world s ++ before fmt true ++ [Strerror (errno s); Newline]))) ∧
  (∃ e, errx log_output eval fmt s = Some (eval, Sys e (world s ++ before fmt false ++ [Newline]))) ∧
  ∃ e, warnx log_output fmt s = Some (tt, Sys e (world s ++ before fmt false ++ [Newline])).
Proof.
  destruct fmt as [t|]; unfold err, warn, errx, warnx, vwarnx, print_fmt, log_output, mbind, ST_bind;
    cbn; rewrite <-?app_assoc; split_and!; by eexists.
Qed.
End err.

(** ** Logging *)

Lemma until_nul_text t rest : 0 ∉ t → until_nul (t ++ 0 :: rest) = Some t.
Proof.
  induction t as [|c t IH]; [done|]. intros [Hc Ht]%not_elem_of_cons. cbn.
  rewrite (proj2 (Z.eqb_neq c 0)) by done. by rewrite IH.
Qed.

(** Without [vsyslog] the whole text is logged, or nothing when there is no memory
    for it; either way no block is left. *)
Lemma vsyslog_r_logs junk text pri s :
  (∀ t, text = Some t → 0 ∉ t) →
  wp (vsyslog_r junk text true false pri) (λ r s',
    r = Syslog pri <$> formats text (allocs (world s)) ∧ blocks (world s') = blocks (world s)) s.
Proof.
  intros Hnul. unfold vsyslog_r, set_str, upd_heap. do 2 wp_step. wp_step.
  eapply wp_mono; [apply vasprintf_whole_or_nothing|]. cbn. intros r s1 HF.
  destruct (formats text (allocs (world s))) as [t|] eqn:Ef.
  - destruct HF as (-> & a & rest & Hfree & Hb & Hs).
    assert (Ht : text = Some t).
    { unfold formats in Ef. destruct text as [t'|]; [|done]. by destruct (_ && _ && _); simplify_eq. }
    rewrite (proj2 (Z.eqb_neq (Z.of_nat (length t)) (-1))) by lia. do 2 wp_step. rewrite Hs.
    wp_step. eapply get_block_run; [by rewrite Hb, lookup_insert_eq|]. cbn beta.
    rewrite until_nul_text by by apply Hnul. do 2 wp_step.
    wp_step. eapply free_block_run; [by rewrite Hb, lookup_insert_eq|]. wp_step. split; [done|]. cbn.
    by rewrite Hb, delete_insert_eq, delete_id.
  - destruct HF as (-> & Hb & _). rewrite Z.eqb_refl. by wp_step.
Qed.

(** ** Strings *)

(** [_vsnprintf] stores the text that fits, and a NUL when there is room. *)
Definition vsnprintf_of (text : list Z) (str : list Z) (size : Z) : Z * list Z :=
  let n := Z.to_nat size in
  let out := take n (text ++ [0]) in
  (if Z.of_nat (length text) <=? size then Z.of_nat (length text) else -1, out ++ drop (length out) str).

(** What fits of the text is stored, and always ended. *)
Lemma libressl_snprintf_ends text str size :
  0 ∉ text → 0 < size <= Z.of_nat (length str) →
  ∃ r str', libressl_snprintf (vsnprintf_of text) str size = Some (r, str') ∧
    until_nul str' = Some (take (Z.to_nat size - 1) text) ∧ length str' = length str.
Proof.
  intros Ht Hs. unfold libressl_snprintf, vsnprintf_of.
  set (n := Z.to_nat size). assert (Hn : (0 < n <= length str)%nat) by lia.
  set (out := take n (text ++ [0])).
  assert (Hout : length out = Nat.min n (S (length text))).
  { unfold out. rewrite length_take, length_app. cbn. lia. }
  rewrite (proj2 (Z.eqb_neq size 0)) by lia. cbn [negb].
  assert (Hl : length (out ++ drop (length out) str) = length str).
  { rewrite length_app, length_drop. lia. }
  rewrite set_char_run by lia. cbn. eexists _, _. split; [done|]. split; [|by rewrite length_insert].
  replace (Z.to_nat (size - 1)) with (n - 1)%nat by lia.
  destruct (decide (n <= length text)%nat) as [Hle|Hgt].
  - destruct (lookup_lt_is_Some_2 text (n - 1)) as [c Hc]; [lia|].
    assert (Eo : out = take (n - 1) text ++ [c]).
    { unfold out. rewrite take_app_le by done. replace n with (S (n - 1)) by lia. rewrite (take_S_r _ _ c) by done.
      by rewrite Nat.sub_succ, Nat.sub_0_r. }
    assert (Ht' : 0 ∉ take (n - 1) text) by (intros Hin; apply Ht; by eapply elem_of_take in Hin as (? & ? & ?);
      eapply list_elem_of_lookup_2).
    rewrite Eo, <-app_assoc.
    rewrite insert_app_r_alt by (rewrite length_take; lia). rewrite length_take, Nat.min_l by lia.
    rewrite Nat.sub_diag. by apply until_nul_text.
  - assert (Eo : out = text ++ [0]) by (unfold out; apply take_ge; rewrite length_app; cbn; lia).
    rewrite Eo, <-app_assoc, insert_app_r_alt by lia. rewrite (take_ge text) by lia.
    destruct (n - 1 - length text)%nat; by apply until_nul_text.
Qed.

(** ** Modes *)

(** A mode has one type, which these macros tell; but without a type it is all
    of the three kinds Windows does not have. *)
Lemma one_type mode :
  S_ISDIR mode = true → S_ISREG mode = false ∧ S_ISCHR mode = false ∧ S_ISFIFO mode = false ∧
    S_ISLNK mode = false ∧ S_ISSOCK mode = false ∧ S_ISBLK mode = false ∧ IFTODT mode = S_IFDIR.
Proof.
  unfold S_ISDIR, S_ISREG, S_ISCHR, S_ISFIFO, S_ISLNK, S_ISSOCK, S_ISBLK, IFTODT.
  intros E%Z.eqb_eq. by rewrite E.
Qed.

Lemma untyped_is_link mode :
  Z.land mode S_IFMT = 0 → S_ISLNK mode = true ∧ S_ISSOCK mode = true ∧ S_ISBLK mode = true.
Proof. unfold S_ISLNK, S_ISSOCK, S_ISBLK. by intros ->. Qed.

(** [sleep] sleeps as long as asked for 49 days; after that the milliseconds wrap
    around. *)
Lemma sleep_exact seconds :
  0 <= seconds < 4294968 → (sleep seconds).1 = seconds * 1000.
Proof. intros Hs. unfold sleep. apply u32_small. unfold is_u32. lia. Qed.

Lemma sleep_wraps : (sleep 4294968).1 = 704.
Proof. done. Qed.

(** ** Processor features *)

(** A bit of the capabilities is set by some feature that is there and has it,
    and the systems agree when they report the same features. *)
Lemma caps_linux_bits c h n :
  Z.testbit (caps_init_linux c h) n =
  existsb (λ f, negb (Z.land h f.1 =? 0) && Z.testbit f.2 n)
    [(HWCAP_AES, AES c); (HWCAP_PMULL, PMULL c); (HWCAP_SHA1, SHA1 c); (HWCAP_SHA2, SHA2 c);
     (HWCAP_SHA512, SHA512 c); (HWCAP_SHA3, SHA3 c)].
Proof.
  assert (Hc : ∀ f g, Z.testbit (check_hwcap h f g) n = negb (Z.land h f =? 0) && Z.testbit g n).
  { intros f g. unfold check_hwcap. destruct (negb _); [done|]. apply Z.bits_0. }
  unfold caps_init_linux. cbv zeta. rewrite !Z.lor_spec, !Hc, Z.bits_0. cbn [existsb fst snd].
  by rewrite orb_false_r, orb_false_l, !orb_assoc.
Qed.

Lemma caps_systems_agree c h sysctl :
  (∀ f bit, In (f, bit) [(FEAT_AES, HWCAP_AES); (FEAT_PMULL, HWCAP_PMULL); (FEAT_SHA1, HWCAP_SHA1);
      (FEAT_SHA256, HWCAP_SHA2); (FEAT_SHA512, HWCAP_SHA512); (FEAT_SHA3, HWCAP_SHA3)] →
    (default 0 (sysctl f) =? 0) = (Z.land h bit =? 0)) →
  caps_init_darwin c sysctl = caps_init_linux c h.
Proof.
  intros Ha. unfold caps_init_darwin, caps_init_linux, check_cpu_cap, check_hwcap. cbv zeta.
  rewrite (Ha FEAT_AES HWCAP_AES), (Ha FEAT_PMULL HWCAP_PMULL), (Ha FEAT_SHA1 HWCAP_SHA1),
    (Ha FEAT_SHA256 HWCAP_SHA2), (Ha FEAT_SHA512 HWCAP_SHA512), (Ha FEAT_SHA3 HWCAP_SHA3) by (cbn; tauto).
  done.
Qed.
