(* ===== verification/RBT.v ===== *)
(** The [RBT_*] macros of [include/compat/sys/tree.h]: red-black trees whose
    algorithms are the functions [_rb_*] of the C library, typed for one kind of
    element and given its comparison function. *)
From Stdlib Require Import ZArith Lia.
From stdpp Require Import prelude gmap.
From S2P Require Import Prelude.

Local Open Scope Z_scope.

(** ** Data *)

(** The heads, each a [struct rb_tree] with its root, and the rest of the
    memory. *)
Record memory (W : Type) := Memory { rbt_root : gmap positive ptr; rest : W }.
Arguments Memory {_} _ _.
Arguments rbt_root {_} _.
Arguments rest {_} _.

(** [struct rb_type]. *)
Record rb_type (W : Type) := RbType {
  t_compare : positive → positive → Z;
  t_augment : option (positive → ST (memory W) unit);
  t_offset : Z
}.
Arguments RbType {_} _ _ _.
Arguments t_compare {_} _ _ _.
Arguments t_augment {_} _.
Arguments t_offset {_} _.

(** The functions of the C library. *)
Class RbFunctions (W : Type) := {
  _rb_insert : rb_type W → positive → positive → ST (memory W) ptr;
  _rb_remove : rb_type W → positive → positive → ST (memory W) ptr;
  _rb_find : rb_type W → positive → positive → ST (memory W) ptr;
  _rb_nfind : rb_type W → positive → positive → ST (memory W) ptr;
  _rb_root : rb_type W → positive → ST (memory W) ptr;
  _rb_min : rb_type W → positive → ST (memory W) ptr;
  _rb_max : rb_type W → positive → ST (memory W) ptr;
  _rb_next : rb_type W → positive → ST (memory W) ptr;
  _rb_prev : rb_type W → positive → ST (memory W) ptr;
  _rb_left : rb_type W → positive → ST (memory W) ptr;
  _rb_right : rb_type W → positive → ST (memory W) ptr;
  _rb_parent : rb_type W → positive → ST (memory W) ptr;
  _rb_set_left : rb_type W → positive → ptr → ST (memory W) unit;
  _rb_set_right : rb_type W → positive → ptr → ST (memory W) unit;
  _rb_set_parent : rb_type W → positive → ptr → ST (memory W) unit;
  _rb_poison : rb_type W → positive → Z → ST (memory W) unit;
  _rb_check : rb_type W → positive → Z → ST (memory W) Z
}.

Section functions.
Context {W : Type} `{!RbFunctions W}.
Local Abbreviation M := (ST (memory W)).

Definition _rb_init (rbt : positive) : M unit :=
  modify (λ s, Memory (<[rbt := None]> (rbt_root s)) (rest s)).

Definition _rb_empty (rbt : positive) : M bool := λ s,
  root ← rbt_root s !! rbt; Some (negb (nonnull root), s).

(** ** What [RBT_GENERATE] makes *)

Section generate.
Variables (cmp : positive → positive → Z) (aug : option (positive → M unit)) (offset : Z).

Definition RBT_COMPARE (lptr rptr : positive) : Z := cmp lptr rptr.

Definition RBT_AUGMENT (aug : positive → M unit) (p : positive) : M unit := aug p.

Definition RBT_INFO : rb_type W := RbType RBT_COMPARE (RBT_AUGMENT <$> aug) offset.

Definition RBT_TYPE : rb_type W := RBT_INFO.

Definition RBT_INIT (head : positive) : M unit := _rb_init head.
Definition RBT_INSERT (head elm : positive) : M ptr := _rb_insert RBT_TYPE head elm.
Definition RBT_REMOVE (head elm : positive) : M ptr := _rb_remove RBT_TYPE head elm.
Definition RBT_FIND (head key : positive) : M ptr := _rb_find RBT_TYPE head key.
Definition RBT_NFIND (head key : positive) : M ptr := _rb_nfind RBT_TYPE head key.
Definition RBT_ROOT (head : positive) : M ptr := _rb_root RBT_TYPE head.
Definition RBT_EMPTY (head : positive) : M bool := _rb_empty head.
Definition RBT_MIN (head : positive) : M ptr := _rb_min RBT_TYPE head.
Definition RBT_MAX (head : positive) : M ptr := _rb_max RBT_TYPE head.
Definition RBT_NEXT (elm : positive) : M ptr := _rb_next RBT_TYPE elm.
Definition RBT_PREV (elm : positive) : M ptr := _rb_prev RBT_TYPE elm.
Definition RBT_LEFT (elm : positive) : M ptr := _rb_left RBT_TYPE elm.
Definition RBT_RIGHT (elm : positive) : M ptr := _rb_right RBT_TYPE elm.
Definition RBT_PARENT (elm : positive) : M ptr := _rb_parent RBT_TYPE elm.
Definition RBT_SET_LEFT (elm : positive) (left : ptr) : M unit := _rb_set_left RBT_TYPE elm left.
Definition RBT_SET_RIGHT (elm : positive) (right : ptr) : M unit := _rb_set_right RBT_TYPE elm right.
Definition RBT_SET_PARENT (elm : positive) (parent : ptr) : M unit :=
  _rb_set_parent RBT_TYPE elm parent.
Definition RBT_POISON (elm : positive) (poison : Z) : M unit := _rb_poison RBT_TYPE elm poison.
Definition RBT_CHECK (elm : positive) (poison : Z) : M Z := _rb_check RBT_TYPE elm poison.

(** ** Loops *)

(** A loop with the given body, and its value: the elements the body was run on.
    [next] is [RBT_NEXT] or [RBT_PREV]. *)
Fixpoint rbt_foreach_loop (fuel : nat) (next : positive → M ptr) (body : positive → M unit) (e : ptr) :
    M (list positive) :=
  match fuel with
  | O => fail
  | S fuel =>
      match e with
      | None => mret []
      | Some x =>
          body x;;
          e ← next x;
          l ← rbt_foreach_loop fuel next body e;
          mret (x :: l)
      end
  end.

Definition RBT_FOREACH (fuel : nat) (head : positive) (body : positive → M unit) : M (list positive) :=
  e ← RBT_MIN head; rbt_foreach_loop fuel RBT_NEXT body e.

Definition RBT_FOREACH_REVERSE (fuel : nat) (head : positive) (body : positive → M unit) :
    M (list positive) :=
  e ← RBT_MAX head; rbt_foreach_loop fuel RBT_PREV body e.

(** The [_SAFE] loops step before the body runs. *)
Fixpoint rbt_foreach_safe_loop (fuel : nat) (next : positive → M ptr) (body : positive → M unit)
    (e : ptr) : M (list positive) :=
  match fuel with
  | O => fail
  | S fuel =>
      match e with
      | None => mret []
      | Some x =>
          n ← next x;
          body x;;
          l ← rbt_foreach_safe_loop fuel next body n;
          mret (x :: l)
      end
  end.

Definition RBT_FOREACH_SAFE (fuel : nat) (head : positive) (body : positive → M unit) :
    M (list positive) :=
  e ← RBT_MIN head; rbt_foreach_safe_loop fuel RBT_NEXT body e.

Definition RBT_FOREACH_REVERSE_SAFE (fuel : nat) (head : positive) (body : positive → M unit) :
    M (list positive) :=
  e ← RBT_MAX head; rbt_foreach_safe_loop fuel RBT_PREV body e.
End generate.
End functions.
