(* ===== verification/RBTProperties.v ===== *)
(** Properties of the [RBT_*] macros, for every C library that keeps what
    [tree(3)] says of the functions. *)
From Stdlib Require Import ZArith Lia.
From stdpp Require Import prelude gmap.
From S2P Require Import Prelude Ordered RBSpec RBTree RBProof RBTheorems RBProperties RBT.

#[local] Arguments wp : simpl never.

(** ** What the C library promises *)

(** [tree ty s h l]: the tree at [h], of type [ty], has the elements [l] in
    order.  A tree is empty when its root is NULL, and then only.  [usable]: the
    element is memory that is in no tree. *)
Class RbLaws (W : Type) `{!RbFunctions W} := {
  tree : rb_type W → memory W → positive → list positive → Prop;
  usable : rb_type W → memory W → positive → Prop;
  law_empty ty s h : rbt_root s !! h = Some None → tree ty s h [];
  law_root ty s h l : tree ty s h l → ∃ r, rbt_root s !! h = Some r ∧ (r = None ↔ l = []);
  law_sorted ty s h l : Comparison (t_compare ty) → tree ty s h l → sorted (t_compare ty) l;
  law_usable ty s h e : usable ty s e →
    usable ty (Memory (<[h := None]> (rbt_root s)) (rest s)) e;
  law_insert ty s h l e : tree ty s h l → usable ty s e ∨ e ∈ l → Comparison (t_compare ty) →
    wp (_rb_insert ty h e) (λ r s', r = lfind (t_compare ty) e l ∧
      match r with
      | Some _ => s' = s
      | None => tree ty s' h (linsert (t_compare ty) e l) ∧
                ∀ e', e' ≠ e → usable ty s e' → usable ty s' e'
      end) s;
  law_remove ty s h l e : tree ty s h l → e ∈ l →
    wp (_rb_remove ty h e) (λ r s', r = Some e ∧ tree ty s' h (filter (λ x, x ≠ e) l) ∧
      ∀ e', usable ty s e' ∨ e' = e → usable ty s' e') s;
  law_find ty s h l k : tree ty s h l → Comparison (t_compare ty) →
    wp (_rb_find ty h k) (λ r s', r = lfind (t_compare ty) k l ∧ s' = s) s;
  law_nfind ty s h l k : tree ty s h l → Comparison (t_compare ty) →
    wp (_rb_nfind ty h k) (λ r s', r = lnfind (t_compare ty) k l ∧ s' = s) s;
  law_min ty s h l : tree ty s h l → wp (_rb_min ty h) (λ r s', r = head l ∧ s' = s) s;
  law_max ty s h l : tree ty s h l → wp (_rb_max ty h) (λ r s', r = last l ∧ s' = s) s;
  law_next ty s h l e k : tree ty s h (l ++ e :: k) →
    wp (_rb_next ty e) (λ r s', r = head k ∧ s' = s) s;
  law_prev ty s h l e k : tree ty s h (l ++ e :: k) →
    wp (_rb_prev ty e) (λ r s', r = last l ∧ s' = s) s
}.

(** A computation whose value is known. *)
Lemma wp_result {S A} (a : A) (m : ST S A) (Q : S → Prop) s :
  wp m (λ r s', r = a ∧ Q s') s → ∃ s', m s = Some (a, s') ∧ Q s'.
Proof. intros (r & s' & E & -> & HQ)%wp_elim. by exists s'. Qed.

Section proof.
Context {W : Type} `{RbLaws W} (cmp : positive → positive → Z) `{!Comparison cmp}.
Context (aug : option (positive → ST (memory W) unit)) (offset : Z).
Local Abbreviation M := (ST (memory W)).
Local Abbreviation ty := (RBT_TYPE cmp aug offset).
Implicit Types (s : memory W) (h e : positive) (l : list positive).

(** A history of calls on the tree at [h]. *)
Definition rbt_run_op h (op : rb_op) : M ptr :=
  match op with
  | OpInsert e => RBT_INSERT cmp aug offset h e
  | OpRemove o => RBT_REMOVE cmp aug offset h o
  | OpFind e => RBT_FIND cmp aug offset h e
  | OpNfind e => RBT_NFIND cmp aug offset h e
  | OpMin => RBT_MIN cmp aug offset h
  | OpMax => RBT_MAX cmp aug offset h
  end.

Fixpoint rbt_run_ops h (ops : list rb_op) : M (list ptr) :=
  match ops with
  | [] => mret []
  | op :: ops => r ← rbt_run_op h op; rs ← rbt_run_ops h ops; mret (r :: rs)
  end.

(** What is to be inserted is in no tree, or in this one. *)
Definition at_hand s l (ops : list rb_op) : Prop :=
  ∀ e, e ∈ inserted ops → usable ty s e ∨ e ∈ l.

Lemma linsert_keeps e l x : x ∈ l → x ∈ linsert cmp e l.
Proof.
  induction l as [|y l IH]; simpl; [by intros ?%not_elem_of_nil|].
  intros Hx. destruct (cmp e y <? 0)%Z; [set_solver|]. destruct (0 <? cmp e y)%Z; set_solver.
Qed.

Lemma linsert_has e l : lfind cmp e l = None → e ∈ linsert cmp e l.
Proof.
  unfold lfind. induction l as [|y l IH]; simpl; [set_solver|].
  destruct (Z.eqb_spec (cmp e y) 0); [done|]. intros Hf.
  destruct (Z.ltb_spec (cmp e y) 0); [set_solver|]. destruct (Z.ltb_spec 0 (cmp e y)); [set_solver|lia].
Qed.

(** What is at hand stays so. *)
Definition kept_at_hand s l s' l' : Prop :=
  ∀ e, usable ty s e ∨ e ∈ l → usable ty s' e ∨ e ∈ l'.

Lemma rbt_op_run h op s l r l' :
  tree ty s h l → (∀ e, op = OpInsert e → usable ty s e ∨ e ∈ l) → spec_op cmp op l = Some (r, l') →
  wp (rbt_run_op h op) (λ r' s', r' = r ∧ tree ty s' h l' ∧ kept_at_hand s l s' l') s.
Proof.
  intros HT Hm E. unfold kept_at_hand. destruct op as [e|o|e|e| |]; simpl in *.
  - eapply wp_mono; [by apply law_insert; [|apply Hm|]|]. cbn. intros r' s' [-> HR].
    change (RBT_COMPARE cmp) with cmp in *. destruct (lfind cmp e l) as [x|] eqn:Ef.
    + injection E as <- <-. by subst s'.
    + injection E as <- <-. destruct HR as [HT' Hu]. split; [done|]. split; [done|].
      intros e' [He|He]; [|right; by apply linsert_keeps].
      destruct (decide (e' = e)) as [->|]; [right; by apply linsert_has|left; by apply Hu].
  - case_decide as Ho; [|done]. injection E as <- <-.
    eapply wp_mono; [by apply law_remove|]. cbn. intros r' s' (-> & HT' & Hu). split; [done|].
    split; [done|].
    intros e' [He|He]; [left; apply Hu; by left|]. destruct (decide (e' = o)) as [->|].
    + left. apply Hu. by right.
    + right. by apply list_elem_of_filter.
  - injection E as <- <-. eapply wp_mono; [by apply law_find|]. cbn. by intros r' s' [-> ->].
  - injection E as <- <-. eapply wp_mono; [by apply law_nfind|]. cbn. by intros r' s' [-> ->].
  - injection E as <- <-. eapply wp_mono; [by apply law_min|]. cbn. by intros r' s' [-> ->].
  - injection E as <- <-. eapply wp_mono; [by apply law_max|]. cbn. by intros r' s' [-> ->].
Qed.

Lemma rbt_ops_run h ops s l rs l' :
  tree ty s h l → (∀ e, e ∈ inserted ops → usable ty s e ∨ e ∈ l) →
  spec_ops cmp ops l = Some (rs, l') →
  wp (rbt_run_ops h ops) (λ rs' s', rs' = rs ∧ tree ty s' h l') s.
Proof.
  revert s l rs. induction ops as [|op ops IH]; intros s l rs HT Hm E.
  { simpl in E. simplify_eq. by apply wp_ret. }
  cbn [spec_ops] in E. apply bind_Some in E as ([r l1] & E1 & E).
  apply bind_Some in E as ([rs1 l2] & E2 & E). simplify_eq. cbn [rbt_run_ops].
  wp_step. eapply wp_mono; [apply (rbt_op_run h op s l r l1); [done| |done]|].
  { intros e ->. apply Hm. unfold inserted; simpl. set_solver. }
  cbn. intros r' s1 (-> & HT1 & Hk). wp_step.
  eapply wp_mono; [apply (IH s1 l1 rs1); [done| |done]|].
  { intros e He. apply Hk, Hm. unfold inserted in *; simpl. destruct op; simpl; set_solver. }
  cbn. intros rs' s2 [-> HT2]. by wp_step.
Qed.

(** ** Loops *)

(** The elements [l], taken in the direction [d], in the order of the tree. *)
Definition ordered (d : dir) l : list positive :=
  match d with DRight => l | DLeft => reverse l end.

Lemma ordered_twice d l : ordered d (ordered d l) = l.
Proof. destruct d; [apply reverse_involutive|done]. Qed.

Lemma length_ordered d l : length (ordered d l) = length l.
Proof. destruct d; [apply length_reverse|done]. Qed.

Lemma elem_of_ordered d l e : e ∈ ordered d l ↔ e ∈ l.
Proof. destruct d; [apply elem_of_reverse|done]. Qed.

Definition rbt_step (d : dir) : positive → M ptr :=
  match d with DRight => RBT_NEXT cmp aug offset | DLeft => RBT_PREV cmp aug offset end.

(** A step from [x] leads to the next of the loop. *)
Lemma rbt_step_wp d h s pre x l :
  tree ty s h (ordered d (pre ++ x :: l)) → wp (rbt_step d x) (λ r s', r = head l ∧ s' = s) s.
Proof.
  intros HT. destruct d; simpl in *; [|by eapply law_next].
  rewrite reverse_app, reverse_cons, <-app_assoc in HT. simpl in HT.
  eapply wp_mono; [by eapply law_prev|]. cbn beta. intros r s' [-> ->]. by rewrite last_reverse.
Qed.

(** The loop from the first of [l], after those of [pre], with a body that leaves
    the tree as it is. *)
Lemma rbt_foreach_run body fuel h d s pre l :
  (∀ e s, e ∈ pre ++ l → tree ty s h (ordered d (pre ++ l)) →
    wp (body e) (λ _ s', tree ty s' h (ordered d (pre ++ l))) s) →
  tree ty s h (ordered d (pre ++ l)) → length l < fuel →
  wp (rbt_foreach_loop fuel (rbt_step d) body (head l))
    (λ r s', r = l ∧ tree ty s' h (ordered d (pre ++ l))) s.
Proof.
  revert s pre l. induction fuel as [|fuel IH]; intros s pre l Hbody HT Hf; [lia|].
  destruct l as [|x l]; [by apply wp_ret|]. cbn [rbt_foreach_loop head]. simpl in Hf.
  wp_step. eapply wp_mono; [apply Hbody; [set_solver|done]|]. cbn beta. intros [] s1 HT1.
  wp_step. eapply wp_mono; [by eapply rbt_step_wp|]. cbn beta. intros r s2 [-> ->].
  change (pre ++ x :: l) with (pre ++ [x] ++ l) in *. rewrite app_assoc in *.
  wp_step. eapply wp_mono; [by apply (IH s1 (pre ++ [x]) l); [| |lia]|].
  cbn beta. intros r s2 [-> HT2]. by wp_step.
Qed.

(** The same, for the loop that steps first: its body removes the element it is
    run on, where [p] says so. *)
Lemma rbt_safe_run (p : positive → bool) body fuel h d s pre l :
  (∀ e k s, e ∈ k → tree ty s h k →
    wp (body e) (λ _ s', tree ty s' h (if p e then filter (λ x, x ≠ e) k else k)) s) →
  tree ty s h (ordered d (pre ++ l)) → length l < fuel →
  wp (rbt_foreach_safe_loop fuel (rbt_step d) body (head l))
    (λ r s', r = l ∧ tree ty s' h (ordered d (pre ++ filter (λ e, p e = false) l))) s.
Proof.
  intros Hbody. revert s pre l. induction fuel as [|fuel IH]; intros s pre l HT Hf; [lia|].
  destruct l as [|x l]; [by apply wp_ret|]. cbn [rbt_foreach_safe_loop head]. simpl in Hf.
  assert (Hnd : NoDup (pre ++ x :: l)).
  { pose proof (law_sorted _ _ _ _ _ HT) as Hs. apply sorted_NoDup in Hs; [|done].
    destruct d; simpl in Hs; [by rewrite reverse_Permutation in Hs|done]. }
  wp_step. eapply wp_mono; [by eapply rbt_step_wp|]. cbn beta. intros r s0 [-> ->].
  wp_step. eapply wp_mono; [apply Hbody; [|exact HT]|].
  { destruct d; simpl; [rewrite elem_of_reverse|]; set_solver. }
  cbn beta. intros [] s1 HT1. wp_step. destruct (p x) eqn:Ep.
  - assert (HT2 : tree ty s1 h (ordered d (pre ++ l))).
    { destruct d; simpl in *; [rewrite filter_reverse in HT1|]; by rewrite filter_ne_cut in HT1. }
    eapply wp_mono; [apply (IH s1 pre l HT2); lia|]. cbn beta. intros r s2 [-> HT3]. wp_step.
    split; [done|]. by rewrite filter_cons_False by by rewrite Ep.
  - eapply wp_mono; [apply (IH s1 (pre ++ [x]) l); [|lia]|]; [by rewrite <-app_assoc|].
    cbn beta. intros r s2 [-> HT3]. wp_step. split; [done|].
    rewrite <-app_assoc in HT3. by rewrite filter_cons_True.
Qed.

(** Where a loop begins. *)
Lemma rbt_first_run d h s l :
  tree ty s h (ordered d l) →
  wp (match d with DRight => RBT_MIN cmp aug offset h | DLeft => RBT_MAX cmp aug offset h end)
    (λ r s', r = head l ∧ s' = s) s.
Proof.
  intros HT. destruct d; simpl in *; (eapply wp_mono; [by apply law_min || by apply law_max|]);
    cbn beta; intros r s' [-> ->]; [|done]. by rewrite last_reverse.
Qed.

(** Both loops of a kind, on the sequence [l] of the tree. *)
Lemma RBT_FOREACH_run body fuel h d s l :
  (∀ e s, e ∈ l → tree ty s h l → wp (body e) (λ _ s', tree ty s' h l) s) →
  tree ty s h l → length l < fuel →
  wp (match d with DRight => RBT_FOREACH cmp aug offset fuel h body
                 | DLeft => RBT_FOREACH_REVERSE cmp aug offset fuel h body end)
    (λ r s', r = ordered d l ∧ tree ty s' h l) s.
Proof.
  intros Hbody HT Hf. rewrite <-(ordered_twice d l) in HT, Hbody. rewrite <-(length_ordered d) in Hf.
  pose proof (rbt_first_run d h s _ HT) as Hfirst.
  pose proof (λ s', rbt_foreach_run body fuel h d s' [] (ordered d l)) as Hloop. cbn [app] in Hloop.
  assert (Hb : ∀ e s, e ∈ ordered d l → tree ty s h (ordered d (ordered d l)) →
    wp (body e) (λ _ s', tree ty s' h (ordered d (ordered d l))) s).
  { intros e s' He. apply Hbody. by apply elem_of_ordered. }
  rewrite ordered_twice in *.
  destruct d; unfold RBT_FOREACH, RBT_FOREACH_REVERSE; wp_step; (eapply wp_mono; [exact Hfirst|]);
    cbn beta; intros r s0 [-> ->]; rewrite ?ordered_twice in Hloop; by apply Hloop.
Qed.

Lemma RBT_FOREACH_SAFE_run (p : positive → bool) body fuel h d s l :
  (∀ e k s, e ∈ k → tree ty s h k →
    wp (body e) (λ _ s', tree ty s' h (if p e then filter (λ x, x ≠ e) k else k)) s) →
  tree ty s h l → length l < fuel →
  wp (match d with DRight => RBT_FOREACH_SAFE cmp aug offset fuel h body
                 | DLeft => RBT_FOREACH_REVERSE_SAFE cmp aug offset fuel h body end)
    (λ r s', r = ordered d l ∧ tree ty s' h (filter (λ e, p e = false) l)) s.
Proof.
  intros Hbody HT Hf. rewrite <-(ordered_twice d l) in HT. rewrite <-(length_ordered d) in Hf.
  pose proof (rbt_first_run d h s _ HT) as Hfirst.
  pose proof (rbt_safe_run p body fuel h d s [] (ordered d l) Hbody HT Hf) as Hloop. cbn [app] in Hloop.
  destruct d; unfold RBT_FOREACH_SAFE, RBT_FOREACH_REVERSE_SAFE; wp_step;
    (eapply wp_mono; [exact Hfirst|]); cbn beta; intros r s0 [-> ->]; [|done].
  cbn [ordered] in Hloop. by rewrite filter_reverse, reverse_involutive in Hloop.
Qed.

(** A body that calls [RBT_REMOVE]. *)
Lemma RBT_REMOVE_body (p : positive → bool) h e k s :
  e ∈ k → tree ty s h k →
  wp (if p e then RBT_REMOVE cmp aug offset h e;; mret tt else mret tt)
    (λ _ s', tree ty s' h (if p e then filter (λ x, x ≠ e) k else k)) s.
Proof.
  intros He HT. destruct (p e); [|by wp_step].
  wp_step. eapply wp_mono; [by apply law_remove|]. cbn beta. intros r s' (_ & HT' & _). by wp_step.
Qed.

(** [RBT_INIT] on the head of a new tree. *)
Lemma RBT_INIT_run h s :
  wp (RBT_INIT h) (λ _ s', tree ty s' h [] ∧ ∀ e, usable ty s e → usable ty s' e) s.
Proof.
  unfold RBT_INIT, _rb_init. wp_step. split.
  - apply law_empty. cbn. by rewrite lookup_insert_eq.
  - intros e. apply law_usable.
Qed.

Lemma RBT_EMPTY_run h s l :
  tree ty s h l → RBT_EMPTY h s = Some (bool_decide (l = []), s).
Proof.
  intros (r & Hr & Hl)%law_root. unfold RBT_EMPTY, _rb_empty. rewrite Hr. cbn. do 2 f_equal.
  destruct r as [x|]; cbn.
  - rewrite bool_decide_false; [done|]. intros E. by apply Hl in E.
  - rewrite bool_decide_true; [done|]. by apply Hl.
Qed.
End proof.

(** A history of calls from [RBT_INIT] answers as it does on an ordered sequence:
    what the library promises of each call, the macros pass on. *)
Theorem RBT_history W `{RbLaws W} (cmp : positive → positive → Z) `{!Comparison cmp} aug offset
    h (s : memory W) ops rs l :
  (∀ e, e ∈ inserted ops → usable (RBT_TYPE cmp aug offset) s e) →
  spec_ops cmp ops [] = Some (rs, l) →
  ∃ s', (RBT_INIT h;; rbt_run_ops cmp aug offset h ops) s = Some (rs, s') ∧
    tree (RBT_TYPE cmp aug offset) s' h l.
Proof.
  intros Hu E.
  assert (Hw : wp (RBT_INIT h;; rbt_run_ops cmp aug offset h ops)
    (λ r s', r = rs ∧ tree (RBT_TYPE cmp aug offset) s' h l) s).
  { wp_step. eapply wp_mono; [apply (RBT_INIT_run cmp aug offset)|]. cbn. intros _ s1 [HT Hk].
    apply (rbt_ops_run cmp aug offset h ops s1 []); [done| |done]. intros e He. left. by apply Hk, Hu. }
  apply wp_elim in Hw as (r & s' & E' & -> & HT). by exists s'.
Qed.

(** C8: The tree [RBT_INIT] begins is empty, and [RBT_EMPTY] tells whether a tree is.
    The loops end: [RBT_FOREACH] and [RBT_FOREACH_REVERSE] run a body that leaves
    the tree as it is once on every element, in order and in reverse order.  The
    body of a [_SAFE] loop may take the element it is run on out of the tree,
    which [p] decides; it is run once on every element, in order or in reverse
    order, all the same, and exactly the others remain. *)
Theorem RBT_loops_correct W `{RbLaws W} (cmp : positive → positive → Z) `{!Comparison cmp} aug offset
    (p : positive → bool) (stay cut : positive → ST (memory W) unit) h (s : memory W) l fuel :
  let tree := tree (RBT_TYPE cmp aug offset) in
  (∀ e s, e ∈ l → tree s h l → wp (stay e) (λ _ s', tree s' h l) s) →
  (∀ e k s, e ∈ k → tree s h k →
    wp (cut e) (λ _ s', tree s' h (if p e then filter (λ x, x ≠ e) k else k)) s) →
  tree s h l → length l < fuel →
  (∃ s', RBT_INIT h s = Some (tt, s') ∧ tree s' h [] ∧ RBT_EMPTY h s' = Some (true, s')) ∧
  RBT_EMPTY h s = Some (bool_decide (l = []), s) ∧
  (∃ s', RBT_FOREACH cmp aug offset fuel h stay s = Some (l, s') ∧ tree s' h l) ∧
  (∃ s', RBT_FOREACH_REVERSE cmp aug offset fuel h stay s = Some (reverse l, s') ∧ tree s' h l) ∧
  (∃ s', RBT_FOREACH_SAFE cmp aug offset fuel h cut s = Some (l, s') ∧
    tree s' h (filter (λ e, p e = false) l)) ∧
  ∃ s', RBT_FOREACH_REVERSE_SAFE cmp aug offset fuel h cut s = Some (reverse l, s') ∧
    tree s' h (filter (λ e, p e = false) l).
Proof.
  intros T Hstay Hcut HT Hf.
  split; [|split; [by eapply RBT_EMPTY_run|split_and!]].
  - destruct (wp_elim _ _ _ (RBT_INIT_run cmp aug offset h s)) as ([] & s' & E & HT' & _).
    exists s'. split_and!; [done..|]. by apply (RBT_EMPTY_run cmp aug offset h s' []).
  - by apply (wp_result l), (RBT_FOREACH_run cmp aug offset stay fuel h DRight s l).
  - by apply (wp_result (reverse l)), (RBT_FOREACH_run cmp aug offset stay fuel h DLeft s l).
  - by apply (wp_result l), (RBT_FOREACH_SAFE_run cmp aug offset p cut fuel h DRight s l).
  - by apply (wp_result (reverse l)), (RBT_FOREACH_SAFE_run cmp aug offset p cut fuel h DLeft s l).
Qed.

(** ** A library that keeps the promises *)

(** It links the elements in a list instead: to the one before and the one after. *)
Abbreviation dlinks := (gmap positive (ptr * ptr)).

Fixpoint links (p : ptr) (l : list positive) : list (positive * (ptr * ptr)) :=
  match l with
  | [] => []
  | x :: l => (x, (p, head l)) :: links (Some x) l
  end.

Definition chain (m : dlinks) (p : ptr) (l : list positive) : Prop :=
  Forall (λ kv, m !! kv.1 = Some kv.2) (links p l).

Fixpoint read (fuel : nat) (m : dlinks) (x : ptr) : list positive :=
  match fuel, x with
  | S fuel, Some e => e :: read fuel m (m !! e ≫= snd)
  | _, _ => []
  end.

Definition demo_list (h : positive) (s : memory dlinks) : list positive :=
  read (base.size (rest s)) (rest s) (default None (rbt_root s !! h)).

Definition demo_put (h : positive) (l : list positive) (s : memory dlinks) : memory dlinks :=
  Memory (<[h := head l]> (rbt_root s)) (list_to_map (links None l) ∪ rest s).

#[local] Instance demo_rb : RbFunctions dlinks := {|
  _rb_insert ty h e s :=
    let l := demo_list h s in
    match lfind (t_compare ty) e l with
    | Some x => Some (Some x, s)
    | None => Some (None, demo_put h (linsert (t_compare ty) e l) s)
    end;
  _rb_remove ty h e s := Some (Some e, demo_put h (filter (λ x, x ≠ e) (demo_list h s)) s);
  _rb_find ty h k := gets (λ s, lfind (t_compare ty) k (demo_list h s));
  _rb_nfind ty h k := gets (λ s, lnfind (t_compare ty) k (demo_list h s));
  _rb_root ty h := gets (λ s, default None (rbt_root s !! h));
  _rb_min ty h := gets (λ s, head (demo_list h s));
  _rb_max ty h := gets (λ s, last (demo_list h s));
  _rb_next ty e := gets (λ s, rest s !! e ≫= snd);
  _rb_prev ty e := gets (λ s, rest s !! e ≫= fst);
  _rb_left ty e := mret None;
  _rb_right ty e := gets (λ s, rest s !! e ≫= snd);
  _rb_parent ty e := gets (λ s, rest s !! e ≫= fst);
  _rb_set_left ty e p := mret tt;
  _rb_set_right ty e p := mret tt;
  _rb_set_parent ty e p := mret tt;
  _rb_poison ty e p := mret tt;
  _rb_check ty e p := mret 1%Z
|}.

Lemma links_keys p l : (links p l).*1 = l.
Proof. revert p. induction l as [|x l IH]; intros p; [done|]. cbn. by rewrite IH. Qed.

Lemma chain_put p l (m : dlinks) : NoDup l → chain (list_to_map (links p l) ∪ m) p l.
Proof.
  intros Hl. unfold chain. apply Forall_forall. intros [k v] Hkv. cbn.
  apply lookup_union_Some_l. apply elem_of_list_to_map_1; [by rewrite links_keys|done].
Qed.

Lemma chain_at m p l e k :
  chain m p (l ++ e :: k) → m !! e = Some (match last l with Some y => Some y | None => p end, head k).
Proof.
  revert p. induction l as [|x l IH]; intros p.
  - by intros [? _]%Forall_cons.
  - intros [_ Hc]%Forall_cons. cbn in Hc. rewrite (IH _ Hc), last_cons. by destruct (last l).
Qed.

Lemma read_chain m p l fuel : chain m p l → length l ≤ fuel → read fuel m (head l) = l.
Proof.
  revert p fuel. induction l as [|x l IH]; intros p fuel Hc Hf; [by destruct fuel|].
  destruct fuel as [|fuel]; cbn in Hf; [lia|]. apply Forall_cons in Hc as [Hx Hc]. cbn in Hx |- *.
  rewrite Hx. cbn. f_equal. apply (IH (Some x)); [done|lia].
Qed.

Definition demo_tree_at (ty : rb_type dlinks) (s : memory dlinks) (h : positive) (l : list positive) : Prop :=
  rbt_root s !! h = Some (head l) ∧ chain (rest s) None l ∧ NoDup l ∧
  (Comparison (t_compare ty) → sorted (t_compare ty) l).

Lemma demo_tree_list ty s h l : demo_tree_at ty s h l → demo_list h s = l.
Proof.
  intros (Hr & Hc & Hnd & _). unfold demo_list. rewrite Hr. cbn. apply (read_chain _ None); [done|].
  rewrite <-(size_list_to_set (C := gset positive)) by done. rewrite <-size_dom. apply subseteq_size.
  intros x Hx%elem_of_list_to_set. apply list_elem_of_split in Hx as (l1 & l2 & ->).
  apply elem_of_dom. rewrite (chain_at _ _ _ _ _ Hc). by eexists.
Qed.

Lemma demo_put_tree ty s h l :
  NoDup l → (Comparison (t_compare ty) → sorted (t_compare ty) l) → demo_tree_at ty (demo_put h l s) h l.
Proof.
  intros Hnd Hs. split; [cbn; by rewrite lookup_insert_eq|]. split; [by apply chain_put|done].
Qed.

Lemma filter_sorted cmp (P : positive → Prop) `{!∀ x, Decision (P x)} l :
  sorted cmp l → sorted cmp (filter P l).
Proof.
  unfold sorted. induction 1 as [|x l Hs IH Hx]; [constructor|]. rewrite filter_cons. case_decide; [|done].
  constructor; [done|]. apply Forall_forall. intros y [_ Hy]%list_elem_of_filter.
  rewrite Forall_forall in Hx. by apply Hx.
Qed.

#[local] Instance demo_rb_laws : RbLaws dlinks.
Proof.
  refine (Build_RbLaws _ _ demo_tree_at (λ _ _ _, True) _ _ _ _ _ _ _ _ _ _ _ _).
  - intros ty s h Hr. split; [done|]. split; [constructor|]. split; [constructor|]. intros _. constructor.
  - intros ty s h l (Hr & _). exists (head l). split; [done|]. by destruct l.
  - intros ty s h l HC (_ & _ & _ & Hs). by apply Hs.
  - done.
  - intros ty s h l e HT _ HC. unfold wp. cbn. rewrite (demo_tree_list _ _ _ _ HT).
    destruct (lfind (t_compare ty) e l) as [x|] eqn:Ef; [done|]. split; [done|]. split; [|done].
    destruct HT as (_ & _ & _ & Hs). pose proof (linsert_sorted _ _ _ (Hs HC) Ef) as Hs'.
    apply demo_put_tree; [|done]. by eapply sorted_NoDup.
  - intros ty s h l e HT He. unfold wp. cbn. rewrite (demo_tree_list _ _ _ _ HT). split; [done|].
    split; [|done]. destruct HT as (_ & _ & Hnd & Hs). apply demo_put_tree; [by apply NoDup_filter|].
    intros HC. apply filter_sorted. by apply Hs.
  - intros ty s h l k HT _. unfold wp. cbn. by rewrite (demo_tree_list _ _ _ _ HT).
  - intros ty s h l k HT _. unfold wp. cbn. by rewrite (demo_tree_list _ _ _ _ HT).
  - intros ty s h l HT. unfold wp. cbn. by rewrite (demo_tree_list _ _ _ _ HT).
  - intros ty s h l HT. unfold wp. cbn. by rewrite (demo_tree_list _ _ _ _ HT).
  - intros ty s h l e k (_ & Hc & _). unfold wp. cbn. by rewrite (chain_at _ _ _ _ _ Hc).
  - intros ty s h l e k (_ & Hc & _). unfold wp. cbn. rewrite (chain_at _ _ _ _ _ Hc). cbn.
    by destruct (last l).
Defined.

Definition demo_memory : memory dlinks := Memory ∅ ∅.

(** A loop that removes what is not above 1. *)
Lemma RBT_loops_correct_witness :
  let s := demo_put 7 [1; 2; 3]%positive demo_memory in
  let cut e := if Pos.leb e 1 then RBT_REMOVE poscmp None 16 7 e;; mret tt else mret tt in
  (∃ s', RBT_FOREACH_REVERSE poscmp None 16 4 7 (λ _, mret tt) s = Some ([3; 2; 1]%positive, s')) ∧
  ∃ s', RBT_FOREACH_SAFE poscmp None 16 4 7 cut s = Some ([1; 2; 3]%positive, s') ∧
    demo_list 7 s' = [2; 3]%positive.
Proof.
  destruct (RBT_loops_correct dlinks poscmp None 16 (λ e, Pos.leb e 1) (λ _, mret tt)
    (λ e, if Pos.leb e 1 then RBT_REMOVE poscmp None 16 7 e;; mret tt else mret tt) 7
    (demo_put 7 [1; 2; 3]%positive demo_memory) [1; 2; 3]%positive 4)
    as (_ & _ & _ & (s1 & E1 & _) & (s2 & E2 & HT) & _).
  - by intros.
  - intros e k s He HT. by apply (RBT_REMOVE_body poscmp None 16 (λ e, Pos.leb e 1)).
  - apply demo_put_tree; [|intros _]; repeat constructor; set_solver.
  - simpl. lia.
  - split; [by exists s1|exists s2]. split; [exact E2|]. by apply demo_tree_list in HT.
Defined.
